(* ===== verification/_CoqProject ===== *)
-Q . S2P
Prelude.v
ClockVector.v
Action.v
HashTable.v
Promise.v
CycleGraph.v
NodeStack.v
Schedule.v
DataRace.v
ExecState.v
ModOrder.v
Step.v
Evolution.v
Scenarios.v
Coherence.v
ActionLists.v
Librace.v
Interface.v
Atomics.v
Model.v
Litmus.v
TestPrograms.v
SCAnalysis.v
SCGen.v
Inference.v
InferSet.v
FencePaths.v
SCFence.v
FenceSearch.v
CStrings.v
FenceInput.v
CommandLine.v
SnapshotSpec.v
Snapshot.v
ForkSnapshot.v
Memory.v
MockFS.v
Output.v
Exploration.v
SnapshotStack.v
Execution.v
