(* ===== verification/Prelude.v ===== *)
(** * CDSChecker, a model checker for C11/C++11 atomics

    ** The program

    CDSChecker runs a small concurrent program, written against its own versions of
    [<atomic>], [<mutex>], [<threads.h>] and plain memory accesses, under every behaviour
    the memory model allows. A user thread stops at each visible operation and hands a
    [ModelAction] to the checker. ModelExecution gives the action its place: which store
    a load reads from, what that adds to the modification order (CycleGraph) and to
    happens-before (ClockVector), whether a promise of a future value is kept (Promise),
    which mutex or thread it affects, and where a different choice should be tried
    later. The choices are recorded in the nodes of a NodeStack. At the end of an
    execution ModelChecker rolls the user program back to a snapshot and starts the next
    one, which replays the recorded choices up to the latest backtracking point and then
    diverges. A Scheduler picks threads, a shadow memory detects data races on plain
    accesses, and plugins analyse finished traces.

    ** The files, in the order of their dependencies

    - Prelude: results with faults, loops, list and arithmetic lemmas, the hint database
      [cds].
    - ClockVector (clockvector.cc), Action (action.cc), HashTable (hashtable.h), Promise
      (promise.cc), CycleGraph (cyclegraph.cc), NodeStack (nodestack.cc, params.h),
      Schedule (schedule.cc, threads.cc), DataRace (datarace.cc): one component each, its
      data as records, its methods as functions of the same names on them, its
      invariants and theorems.
    - ExecState (execution.h and the short methods of execution.cc): the state of an
      execution, [Exec], with the heaps of actions and promises, and the state and error
      monad [exec] in which the rest of execution.cc is written. ModOrder: modification
      order, may-read-from sets, release sequences, promises, backtracking. Step: the
      handlers of the kinds of action and the work queue, up to [take_step].
    - Evolution: a relational logic for [exec], and what the operations of a step may
      change. Scenarios: concrete executions, step by step. Coherence: modification order
      against happens-before. ActionLists: the indices of past actions and their
      consistency. Execution: the other theorems about ModelExecution.
    - Librace (librace.cc and the reports of datarace.cc): instrumented loads and stores.
    - Interface (cmodelint.cc, impatomic.cc and .h, libthreads.cc, mutex.cc,
      conditionvariable.cc, libannotate.cc): user programs as interaction trees over two
      events, running code in place and switching to the checker; the functions of the
      interface as such programs. Atomics (impatomic.h): the atomic types, one by one.
    - Model (model.cc, main.cc, snapshot-interface.cc): the driver, from
      [get_next_thread] to [run], in its own monad [mc]. Litmus: whole runs of small
      programs, computed. TestPrograms (test/, test/litmus/): the tests of the repository
      as user programs, and what the checker finds on them. Exploration: an invariant logic
      for [mc] and the theorems about runs.
    - SCAnalysis (scanalysis.cc): the plugin that looks for a sequentially consistent
      order of a trace.
    - Inference (include/wildcard.h, scfence/inference.cc, patch.cc): the assignments of
      memory orders to wildcards of the fence inference plugin, as a lattice, and the
      patches that strengthen them. InferSet (scfence/inferlist.cc, inferset.cc): the
      lists of candidates and the search space, on a heap of shared inferences.
    - SCGen (scfence/scgen.cc, sc_annotation.h): the plugin's own generator of SC orders,
      with annotated reads. FencePaths (scfence.cc): paths of reads-from and program order
      in a trace, and unordered plain accesses. SCFence (scfence.cc): the plugin, in a
      monad [fence]: its hooks, the imposing of synchronization and SC, the patterns and
      the fixes. FenceSearch: an invariant logic for [fence] and the theorems about the
      search. CStrings: strings, [atoi] and [fscanf] of the C library. FenceInput
      (scfence.cc, inference.cc, inferlist.cc): the options and the candidate file.
      CommandLine (main.cc, plugins.cc): the options of the checker.
    - SnapshotSpec: what snapshots of memory are, and the interface of snapshot.h as a
      class with its laws. Snapshot (snapshot.cc): the implementation by page protection
      and copy-on-write, on a machine of pages. ForkSnapshot (snapshot.cc): the
      implementation by processes. SnapshotStack (snapshot-interface.cc, snapshot.cc):
      setting up, the regions of the globals, and the stack of snapshots on top of the
      interface.
    - Output (common.cc and the print functions of the other files): the texts the checker
      prints, and the copying of the user program's output. Memory (mymemory.cc): early
      allocation and the choice of heaps. MockFS (mockfs.cc): the file system that user
      programs can use.

    ** Conventions

    Pointers to actions, promises and nodes are [positive] keys of heaps ([gmap]);
    NULL is [None]. Threads are identified by their ids and addresses of user memory are
    numbers; 32 and 64-bit words are [N] with [wrap32] and [wrap64] where they can wrap.
    Every way to stop abnormally is a value: a failed ASSERT, a NULL or dangling pointer,
    an access out of bounds, memory without a value, a call of exit. Values that a
    constructor leaves unset are parameters, and so are times and the contents of files.
    A method keeps the name it has in the source, with a prefix where two classes share it
    ([ht_], [cn_], [sc_], [ns_], [x_]).

    ** What the theorems show

    - Graph: adding edges and RMW edges keeps the graph well formed and detects exactly
      the cycles; the search for paths terminates and is exact, on the hash table it
      uses; rollback restores the graph; the hash table implements a finite map.
    - Nodes: enumerating reads-from choices visits each one once, increments of a node's
      behaviours terminate, replay is faithful, divergence keeps the prefix, backtracking
      sets are sets. Promises fail exactly when no thread can keep them.
    - Execution: everything the work queue does is monotone in happens-before; building
      the may-read-from set leaves no trace but its result; synchronization, mutexes and
      the heads of release sequences are right. Reads and stores are coherent: what happens
      before an action is ordered before what it reads or writes, although one action per
      thread is looked at, given that the earlier ones of each thread are ordered.
    - Scheduling and races: the scheduler's choice is the first selectable thread and
      starves nobody; both race checks refine an abstract access history on compact and
      full shadow entries; instrumented stores never fail and are read back.
    - Interface: values survive their 64-bit representation; compound assignments are one
      read-modify-write.
    - Driver: every execution starts from the snapshot but for the recorded choices, the
      statistics add up, replay and divergence choose the thread they should. On the tests
      of the repository the checker finds what their comments say, but for two outcomes
      that comments exclude. The SC analysis computes interleavings and reports exactly the
      reads that are out of order.
    - Fence inference: applying a patch computes the least inference that satisfies it;
      the comparison decides the order where the same wildcards are set; adding fixes
      keeps the discovered inferences different and loses none; the choice of the next
      inference is right. The generated order is an interleaving and the bad reads are
      exact, the search for paths terminates and is exact, the hook on actions leaves only
      orders of the language. In every state the plugin reaches, the inferences it holds
      are allocated, well formed and at least as strong as the one they come from; on
      message passing the checker and the plugin together find the orders that are needed.
      What the plugin prints as results it can read as candidates, and reading any file
      ends.
    - Memory: snapshots by copy-on-write, with the hash table that rolling back uses, and
      snapshots by processes refine a stack of images of the memory, for runs of any length
      within a bound on the snapshots that exist at a time; so every execution starts from
      the memory of the first snapshot. Early allocations are disjoint. The mock file system
      refines a map from names to files. Every setting of the parameters can be given on
      the command line.
    - Output: the report on an infeasible execution names a reason exactly when there is
      one, and when its buffer is large enough; the output of the user program is copied
      exactly unless a write is partial; the trace can be read back.
    - Faults: inputs on which the code goes wrong (a record without room, a notification
      without waiters, a fixup action without location, the conversion of a promise node,
      an older snapshot, a patch on a fixed order, an unset wildcard, fixes of a data race
      that are not tried, a result without orders, a huge early request, too many reasons of
      infeasibility, long file names, a partial write) are theorems too.

    ** Bounds

    Loops that the code does not bound by a list take fuel, and running out of it is the
    fault [OutOfFuel], never a result. Where termination is claimed the theorem says that
    the fuel the definition passes suffices (the path search, the probing of the hash
    table, RMW chains, the selection of threads, the increments of nodes, the paths of a
    trace, the lines of a candidate file, the pipe with the program's output). The work
    queue, the executions of a run, the steps of a user thread between two switches and the
    rounds of the SC analysis are bounded by parameters, since the code itself has no
    bound for them; theorems about them hold for every value of these parameters, and the
    runs of test programs are computed with values that suffice, since they end in [Ok].

    ** Not modelled

    In the model of the driver a rollback is the restoration of a state; SnapshotStack
    shows that of pages, and the two are not joined, since the objects of an execution are
    not laid out in pages. Of snapshot.cc, installing the signal handler and switching
    machine contexts (context.cc). The vendored allocator (malloc.c) and the heaps of
    mymemory.cc. What getopt_long does, usage texts, the debugging output and the graph
    dumps that config.h switches off, and stack traces (stacktrace.h). request.cc, which
    calls the Apache libraries to build a request. The benchmarks, which are user programs,
    and of the tests those with more executions than can be computed. The user program and
    the addresses of Thread objects are parameters. *)

From stdpp Require Export base tactics decidable numbers option relations gmap list.

(** ** Faults: how a run of the checker can end abnormally *)
Inductive fault :=
  | AssertFailed      (* ASSERT(expr) with expr false: exit(EXIT_FAILURE) *)
  | BadPointer        (* a NULL or dangling pointer is dereferenced *)
  | OutOfBounds       (* an array is accessed outside its allocation *)
  | Undefined         (* memory without a value is read, or a number is out of range *)
  | Exited            (* the code calls exit *)
  | OutOfFuel.        (* the bounded unrolling of a loop was too short *)

Inductive result (A : Type) :=
  | Ok (a : A)
  | Err (f : fault).
Arguments Ok {A} a.
Arguments Err {A} f.

#[global] Instance fault_eq_dec : EqDecision fault.
Proof. solve_decision. Defined.
#[global] Instance result_eq_dec `{EqDecision A} : EqDecision (result A).
Proof. solve_decision. Defined.

#[global] Instance result_ret : MRet result := @Ok.
#[global] Instance result_bind : MBind result := λ A B k c,
  match c with Ok a => k a | Err f => Err f end.
#[global] Instance result_fmap : FMap result := λ A B h c,
  match c with Ok a => Ok (h a) | Err f => Err f end.

(** The ASSERT macro of common.h (CONFIG_ASSERT is defined in config.h). *)
Definition ASSERT (b : bool) : result unit :=
  if b then Ok tt else Err AssertFailed.

(** Dereference of a possibly-NULL pointer. *)
Definition deref {A} (o : option A) : result A :=
  match o with Some a => Ok a | None => Err BadPointer end.

(** Array access with its bound. *)
Definition at_index {A} (l : list A) (i : nat) : result A :=
  match l !! i with Some a => Ok a | None => Err OutOfBounds end.

(** ** Machine integers

    [modelclock_t] is [unsigned int], values and addresses are 64 bits wide;
    both are kept as [N], with the wrap-around written where the code adds. *)
Definition wrap32 (n : N) : N := (n mod 2 ^ 32)%N.
Definition wrap64 (n : N) : N := (n mod 2 ^ 64)%N.

(** Objects allocated by the checker (actions, promises, nodes) are addressed by
    non-NULL pointers; a possibly-NULL pointer is an [option ptr]. *)
Abbreviation ptr := positive.

(** include/modeltypes.h *)
Abbreviation thread_id_t := nat (only parsing).
Abbreviation modelclock_t := N (only parsing).
Definition int_to_id (i : nat) : thread_id_t := i.
Definition id_to_int (id : thread_id_t) : nat := id.

Declare Scope cds_scope.
Delimit Scope cds_scope with cds.
Open Scope cds_scope.

#[global] Arguments Nat.pow : simpl never.
#[global] Arguments Nat.div : simpl never.
#[global] Arguments Nat.modulo : simpl never.
#[global] Arguments N.pow : simpl never.
#[global] Arguments N.div : simpl never.
#[global] Arguments N.modulo : simpl never.

(** ** Automation *)
Create HintDb cds.

(** Case analysis on every boolean test and match of the goal, closing the
    arithmetic leaves. *)
Ltac case_tests :=
  repeat match goal with
  | |- context [N.ltb ?a ?b] => destruct (N.ltb_spec a b)
  | |- context [N.leb ?a ?b] => destruct (N.leb_spec a b)
  | |- context [N.eqb ?a ?b] => destruct (N.eqb_spec a b)
  | |- context [Nat.ltb ?a ?b] => destruct (Nat.ltb_spec a b)
  | |- context [Nat.leb ?a ?b] => destruct (Nat.leb_spec a b)
  | |- context [Nat.eqb ?a ?b] => destruct (Nat.eqb_spec a b)
  | |- context [@decide ?P ?D] => destruct (@decide P D)
  | |- context [@bool_decide ?P ?D] => destruct (@bool_decide_reflect P D)
  end.

(** Inversion of [result] equations: [simplify_res] turns
    [x ← c; k = Ok v] into the success of both parts. *)
Lemma bind_Ok {A B} (c : result A) (k : A → result B) b :
  c ≫= k = Ok b ↔ ∃ a, c = Ok a ∧ k a = Ok b.
Proof. destruct c; naive_solver. Qed.

Lemma ASSERT_Ok b u : ASSERT b = Ok u ↔ b = true.
Proof. destruct b, u; naive_solver. Qed.

Lemma deref_Ok {A} (o : option A) a : deref o = Ok a ↔ o = Some a.
Proof. destruct o; naive_solver. Qed.

Lemma at_index_Ok {A} (l : list A) i a : at_index l i = Ok a ↔ l !! i = Some a.
Proof. unfold at_index. case_match; naive_solver. Qed.

Ltac simplify_res :=
  repeat match goal with
  | H : ?c ≫= ?k = Ok ?b |- _ =>
      let a := fresh "a" in let H1 := fresh "H" in let H2 := fresh "H" in
      apply bind_Ok in H as (a & H1 & H2)
  | H : ASSERT _ = Ok _ |- _ => apply ASSERT_Ok in H
  | H : deref _ = Ok _ |- _ => apply deref_Ok in H
  | H : at_index _ _ = Ok _ |- _ => apply at_index_Ok in H
  | H : Ok _ = Ok _ |- _ => injection H as H
  | H : Err _ = Ok _ |- _ => discriminate H
  | H : mret _ = Ok _ |- _ => unfold mret, result_ret in H
  | _ => progress simplify_eq/=
  end.

(** ** Lists used as vectors *)

(** Number of set bits of a [vector<bool>]. *)
Fixpoint count_true (l : list bool) : nat :=
  match l with
  | [] => 0
  | b :: l => (if b then 1 else 0) + count_true l
  end.

Lemma count_true_app (l1 l2 : list bool) : count_true (l1 ++ l2) = count_true l1 + count_true l2.
Proof. induction l1; simpl; lia. Qed.

Lemma count_true_replicate_false n : count_true (replicate n false) = 0.
Proof. induction n; simpl; lia. Qed.

Lemma count_true_insert (l : list bool) (i : nat) (b b' : bool) :
  l !! i = Some b →
  count_true (<[i:=b']> l) + (if b then 1 else 0) = count_true l + (if b' then 1 else 0).
Proof.
  revert i. induction l as [|c l IH]; intros [|i] Hi; simplify_eq/=.
  - lia.
  - apply IH in Hi. lia.
Qed.

Lemma count_true_zero (l : list bool) : count_true l = 0 ↔ ∀ i : nat, l !! i ≠ Some true.
Proof.
  induction l as [|b l IH]; simpl; [naive_solver|]. split.
  - intros H [|i]; simpl; [destruct b; naive_solver lia|]. apply IH. lia.
  - intros H. destruct b; [by destruct (H 0)|]. apply IH. intros i. apply (H (S i)).
Qed.

Lemma count_true_pos (l : list bool) (i : nat) : l !! i = Some true → 0 < count_true l.
Proof.
  intros Hi. destruct (decide (count_true l = 0)) as [H0|]; [|lia].
  rewrite count_true_zero in H0. naive_solver.
Qed.

(** [vector::resize(n, false)] when it only ever grows. *)
Definition grow {A} (n : nat) (d : A) (l : list A) : list A :=
  l ++ replicate (n - length l) d.

Lemma lookup_grow {A} n (d : A) (l : list A) (i : nat) :
  grow n d l !! i =
    if decide (i < length l) then l !! i
    else if decide (i < n) then Some d else None.
Proof.
  unfold grow. case_decide.
  - by rewrite lookup_app_l.
  - rewrite lookup_app_r by lia. case_decide.
    + rewrite lookup_replicate_2 by lia. done.
    + apply lookup_ge_None. rewrite length_replicate. lia.
Qed.

Lemma length_grow {A} n (d : A) (l : list A) : length (grow n d l) = length l `max` n.
Proof. unfold grow. rewrite length_app, length_replicate. lia. Qed.

Lemma count_true_grow n l : count_true (grow n false l) = count_true l.
Proof. unfold grow. rewrite count_true_app, count_true_replicate_false. lia. Qed.

(** Removal of the first occurrence, as [vector::erase] after a linear search. *)
Fixpoint remove_first `{EqDecision A} (x : A) (l : list A) : list A :=
  match l with
  | [] => []
  | y :: l => if decide (y = x) then l else y :: remove_first x l
  end.

Lemma remove_first_notin `{EqDecision A} (x : A) l : x ∉ l → remove_first x l = l.
Proof.
  induction l as [|y l IH]; simpl; [done|]. rewrite not_elem_of_cons. intros [Hy Hl].
  rewrite decide_False by done. by rewrite IH.
Qed.

Lemma remove_first_app_notin `{EqDecision A} (x : A) l1 l2 :
  x ∉ l1 → remove_first x (l1 ++ l2) = l1 ++ remove_first x l2.
Proof.
  induction l1 as [|y l1 IH]; simpl; [done|]. rewrite not_elem_of_cons. intros [Hy Hl].
  rewrite decide_False by done. by rewrite IH.
Qed.

Lemma elem_of_remove_first `{EqDecision A} (x y : A) l :
  y ≠ x → y ∈ remove_first x l ↔ y ∈ l.
Proof. intros Hne. induction l as [|z l IH]; simpl; [done|]. case_decide; set_solver. Qed.

Lemma remove_first_NoDup `{EqDecision A} (x : A) l :
  NoDup l → NoDup (remove_first x l) ∧ x ∉ remove_first x l.
Proof.
  induction 1 as [|y l Hy Hl [IH1 IH2]]; simpl; [split; [constructor|set_solver]|].
  case_decide; [by subst|]. split; [constructor; [|done]|].
  - by rewrite elem_of_remove_first.
  - set_solver.
Qed.

Lemma NoDup_incl_length' {A} (l1 l2 : list A) :
  NoDup l1 → (∀ x, x ∈ l1 → x ∈ l2) → length l1 ≤ length l2.
Proof. intros. apply submseteq_length, NoDup_submseteq; auto. Qed.

(** The first index satisfying a decidable predicate. *)
Lemma first_index (P : nat → Prop) `{∀ n, Decision (P n)} n :
  P n → ∃ d, d ≤ n ∧ P d ∧ ∀ d', d' < d → ¬ P d'.
Proof.
  induction n as [n IH] using lt_wf_ind. intros Hn.
  destruct (decide (Exists P (seq 0 n))) as [Hex|Hno].
  - apply Exists_exists in Hex as (d & Hd & HP). apply elem_of_seq in Hd.
    destruct (IH d) as (d' & ? & ? & ?); [lia|done|].
    exists d'. split_and!; [lia|done|done].
  - exists n. split_and!; [lia|done|]. intros d' Hlt HP. apply Hno, Exists_exists.
    exists d'. split; [apply elem_of_seq; lia|done].
Qed.

(** [x & (2^e - 1)] is the remainder modulo [2^e]. *)
Lemma land_mask (x : N) (e : nat) :
  N.land x (2 ^ N.of_nat e - 1) = (x mod 2 ^ N.of_nat e)%N.
Proof. rewrite N.sub_1_r, <- N.ones_equiv. apply N.land_ones. Qed.

Lemma wrap32_small x : (x < 2 ^ 32)%N → wrap32 x = x.
Proof. intros. by apply N.mod_small. Qed.

Lemma to_nat_pow2 (e : nat) : N.to_nat (2 ^ N.of_nat e) = 2 ^ e.
Proof. rewrite N2Nat.inj_pow, Nat2N.id. done. Qed.

Lemma pow2_32 (e : nat) : e ≤ 31 → (2 ^ N.of_nat e < 2 ^ 32)%N.
Proof. intros. apply N.pow_lt_mono_r; lia. Qed.

(** ** Closures of relations *)
Lemma rtc_mono {A} (R R' : relation A) x y : (∀ a b, R a b → R' a b) → rtc R x y → rtc R' x y.
Proof. intros H. induction 1; [apply rtc_refl|eapply rtc_l; eauto]. Qed.

Lemma tc_mono {A} (R R' : relation A) x y : (∀ a b, R a b → R' a b) → tc R x y → tc R' x y.
Proof. intros H. induction 1; [apply tc_once; auto|eapply tc_l; eauto]. Qed.

Lemma tc_first {A} (R : relation A) x y : tc R x y → ∃ z, R x z.
Proof. destruct 1; eauto. Qed.

Lemma tc_last {A} (R : relation A) x y : tc R x y → ∃ z, R z y.
Proof. induction 1; eauto. Qed.

(** ** Loops

    [foldM] is a [for] loop over [l] whose body updates the state [s] and may fail;
    [until] is one that can also [return] or [break] with a value. *)
Fixpoint foldM {A S} (f : A → S → result S) (l : list A) (s : S) : result S :=
  match l with
  | [] => Ok s
  | x :: l => s ← f x s; foldM f l s
  end.

Fixpoint until {A B} (f : A → result (option B)) (l : list A) : result (option B) :=
  match l with
  | [] => Ok None
  | x :: l =>
      r ← f x;
      match r with Some b => Ok (Some b) | None => until f l end
  end.

(** [a[i] = v] for an array with its bound. *)
Definition set_at {A} (i : nat) (v : A) (l : list A) : result (list A) :=
  if i <? length l then Ok (<[i := v]> l) else Err OutOfBounds.

Lemma foldM_app {A S} (f : A → S → result S) l1 l2 s :
  foldM f (l1 ++ l2) s = foldM f l1 s ≫= foldM f l2.
Proof. revert s. induction l1 as [|x l1 IH]; intros s; simpl; [done|]. destruct (f x s); simpl; auto. Qed.

(** Invariants of loops. *)
Lemma foldM_inv {A S} (P : S → Prop) (f : A → S → result S) l s s' :
  P s → (∀ x s1 s2, x ∈ l → P s1 → f x s1 = Ok s2 → P s2) → foldM f l s = Ok s' → P s'.
Proof.
  revert s. induction l as [|x l IH]; intros s Hs Hstep; simpl.
  - intros [= <-]. done.
  - intros (s1 & H1 & H2)%bind_Ok. apply (IH s1); [|set_solver|done]. apply (Hstep x s); set_solver.
Qed.

(** Loops that always succeed, with an invariant on the part done. *)

Lemma foldM_ind {A S} (P : list A → S → Prop) (f : A → S → result S) l s :
  P [] s → (∀ l1 x l2 s, l = l1 ++ x :: l2 → P l1 s → ∃ s', f x s = Ok s' ∧ P (l1 ++ [x]) s') →
  ∃ s', foldM f l s = Ok s' ∧ P l s'.
Proof.
  intros H0 Hstep. enough (∀ l2 l1 s, l = l1 ++ l2 → P l1 s → ∃ s', foldM f l2 s = Ok s' ∧ P l s') as H by by apply (H l []).
  clear H0 s. induction l2 as [|x l2 IH]; intros l1 s E HP; simpl.
  - rewrite app_nil_r in E. subst. eauto.
  - destruct (Hstep _ _ _ _ E HP) as (s1 & -> & H1). simpl. apply (IH (l1 ++ [x])); [|done]. by rewrite <- app_assoc.
Qed.

(** A search that stops at the first hit. *)
Lemma until_exists {A} (P : A → Prop) (f : A → result (option bool)) l :
  (∀ x, x ∈ l → ∃ b, f x = Ok (if (b : bool) then Some true else None) ∧ (b = true ↔ P x)) →
  ∃ r, until f l = Ok r ∧ (default false r = true ↔ ∃ x, x ∈ l ∧ P x).
Proof.
  intros H. induction l as [|x l IH]; simpl.
  - exists None. split; [done|]. split; [done|]. by intros (? & []%elem_of_nil & _).
  - destruct (H x) as (b & -> & Hb); [by left|]. destruct b; simpl.
    + exists (Some true). split; [done|]. split; [|done]. intros _. exists x. split; [by left|by apply Hb].
    + destruct IH as (r & -> & Hr); [intros y Hy; apply H; by right|]. exists r. split; [done|]. rewrite Hr.
      split; intros (y & Hy & HP); exists y; (split; [|done]); [by right|].
      apply elem_of_cons in Hy as [->|?]; [|done]. by apply Hb in HP.
Qed.

Lemma elem_of_rev {A} (x : A) l : x ∈ rev l ↔ x ∈ l.
Proof. rewrite !list_elem_of_In. symmetry. apply in_rev. Qed.
