(* ===== verification/ClockVector.v ===== *)
(** * Clock vectors (clockvector.h, clockvector.cc)

    A clock vector records, for each thread, the sequence number of the latest
    action of that thread known to happen before the owner of the vector. *)

From S2P Require Import Prelude.

(** [clock] is the array; [num_threads] is its length. *)
Record ClockVector := mkClockVector { clock : list modelclock_t }.

Definition num_threads (cv : ClockVector) : nat := length (clock cv).

#[global] Instance ClockVector_eq_dec : EqDecision ClockVector.
Proof. solve_decision. Defined.

(** ** Operations *)

(** Constructor: inherit from [parent], then stamp the entry of the acting
    thread. The action enters through its thread id and sequence number. *)
Definition new_ClockVector (parent : option ClockVector) (tid : thread_id_t)
    (seq : modelclock_t) : ClockVector :=
  let n0 := S (id_to_int tid) in
  let n := match parent with
           | Some p => if bool_decide (n0 < num_threads p) then num_threads p else n0
           | None => n0
           end in
  let zeros := replicate n 0%N in
  let base := match parent with
              | Some p => clock p ++ drop (num_threads p) zeros
              | None => zeros
              end in
  mkClockVector (<[id_to_int tid := seq]> base).

(** The element-wise maximum loop of [merge], run after the receiver has been
    grown to the length of the argument. *)
Fixpoint merge_loop (this other : list modelclock_t) : list modelclock_t * bool :=
  match other, this with
  | o :: other', t :: this' =>
      let '(r, changed) := merge_loop this' other' in
      if (t <? o)%N then (o :: r, true) else (t :: r, changed)
  | _, _ => (this, false)
  end.

Definition cv_merge (this cv : ClockVector) : ClockVector * bool :=
  let c := if bool_decide (num_threads this < num_threads cv)
           then clock this ++ replicate (num_threads cv - num_threads this) 0%N
           else clock this in
  let '(r, changed) := merge_loop c (clock cv) in
  (mkClockVector r, changed).

Definition synchronized_since (cv : ClockVector) (tid : thread_id_t)
    (seq : modelclock_t) : bool :=
  match clock cv !! id_to_int tid with
  | Some c => (seq <=? c)%N
  | None => false
  end.

Definition getClock (cv : ClockVector) (thread : thread_id_t) : modelclock_t :=
  match clock cv !! id_to_int thread with
  | Some c => c
  | None => 0%N
  end.

(** ** The order of clock vectors *)

Definition cv_le (a b : ClockVector) : Prop := ∀ t, (getClock a t <= getClock b t)%N.
#[global] Instance cv_equiv : Equiv ClockVector := λ a b, ∀ t, getClock a t = getClock b t.
Infix "⊑cv" := cv_le (at level 70) : cds_scope.

#[global] Instance cv_equivalence : Equivalence (≡@{ClockVector}).
Proof. split; red; unfold equiv, cv_equiv; intros; congruence. Qed.

#[global] Instance cv_le_preorder : PreOrder cv_le.
Proof. split; red; unfold cv_le; intros; [lia|]. etrans; eauto. Qed.

#[global] Instance cv_le_proper : Proper ((≡) ==> (≡) ==> iff) cv_le.
Proof. intros a a' Ha b b' Hb. unfold cv_le. split; intros H t; specialize (H t); by rewrite ?Ha, ?Hb in *. Qed.

#[global] Instance getClock_proper t : Proper ((≡) ==> (=)) (λ cv, getClock cv t).
Proof. intros a b Hab. apply Hab. Qed.

Lemma cv_le_antisym a b : a ⊑cv b → b ⊑cv a → a ≡ b.
Proof. intros H1 H2 t. specialize (H1 t). specialize (H2 t). lia. Qed.

(** ** Lemmas about the loops *)

Lemma merge_loop_length this other :
  length (merge_loop this other).1 = length this.
Proof.
  revert other. induction this as [|t this IH]; intros [|o other]; simpl; try done.
  specialize (IH other). destruct (merge_loop this other). case_tests; simpl in *; lia.
Qed.

Lemma merge_loop_lookup this other i t :
  this !! i = Some t →
  (merge_loop this other).1 !! i = Some (N.max t (default 0%N (other !! i))).
Proof.
  revert other i. induction this as [|u this IH]; intros [|o other] i Hi; simplify_eq/=.
  - rewrite Hi. f_equal. lia.
  - specialize (IH other). destruct (merge_loop this other) as [r ch]; simpl in *.
    destruct i as [|i]; simplify_eq/=; case_tests; simpl; auto; f_equal; lia.
Qed.

Lemma merge_loop_changed this other :
  (merge_loop this other).2 = true ↔
  ∃ i t o, this !! i = Some t ∧ other !! i = Some o ∧ (t < o)%N.
Proof.
  revert other. induction this as [|t this IH]; intros [|o other]; simpl;
    try (split; [done|]; intros (i & ? & ? & ? & ? & ?); by rewrite ?lookup_nil in * ).
  specialize (IH other). destruct (merge_loop this other) as [r ch]; simpl in *.
  destruct (N.ltb_spec t o); simpl.
  - split; [|done]. intros _. by exists 0, t, o.
  - rewrite IH. split.
    + intros (i & t' & o' & ?). by exists (S i), t', o'.
    + intros ([|i] & t' & o' & ? & ? & ?); simplify_eq/=; [lia|]. naive_solver.
Qed.

(** ** Functional behaviour *)

Lemma getClock_new parent tid seq t :
  getClock (new_ClockVector parent tid seq) t =
    if decide (t = tid) then seq
    else match parent with Some p => getClock p t | None => 0%N end.
Proof.
  unfold getClock, new_ClockVector, id_to_int, num_threads; simpl.
  destruct parent as [[p]|]; simpl.
  - set (n := if bool_decide (S tid < length p) then length p else S tid).
    assert (S tid ≤ n ∧ length p ≤ n) as [Hn1 Hn2] by (unfold n; case_tests; lia).
    assert (length (p ++ drop (length p) (replicate n 0%N)) = n) as Hlen
      by (rewrite length_app, length_drop, length_replicate; lia).
    case_decide as Ht; [subst; by rewrite list_lookup_insert_eq by lia|].
    rewrite list_lookup_insert_ne by done.
    destruct (decide (t < length p)); [by rewrite lookup_app_l|].
    rewrite lookup_app_r, lookup_drop by lia.
    rewrite (lookup_ge_None_2 p) by lia.
    destruct (replicate n 0%N !! _) eqn:E; [|done].
    by apply lookup_replicate in E as [-> _].
  - change (0%N :: replicate tid 0%N) with (replicate (S tid) 0%N).
    case_decide as Ht; [subst; by rewrite list_lookup_insert_eq by (rewrite length_replicate; lia)|].
    rewrite list_lookup_insert_ne by done.
    destruct (replicate _ 0%N !! t) eqn:E; [|done].
    by apply lookup_replicate in E as [-> _].
Qed.

Lemma num_threads_new parent tid seq :
  num_threads (new_ClockVector parent tid seq) =
    S tid `max` match parent with Some p => num_threads p | None => 0 end.
Proof.
  unfold num_threads, new_ClockVector, id_to_int; simpl. rewrite length_insert.
  destruct parent as [[p]|]; simpl; [|rewrite ?length_replicate; lia].
  rewrite length_app, length_drop, length_replicate. unfold num_threads; simpl. case_tests; lia.
Qed.

Lemma num_threads_merge a b :
  num_threads (cv_merge a b).1 = num_threads a `max` num_threads b.
Proof.
  unfold num_threads, cv_merge. destruct (merge_loop _ _) as [r ch] eqn:E; simpl.
  apply (f_equal (length ∘ fst)) in E; simpl in E. rewrite merge_loop_length in E.
  rewrite <- E. unfold num_threads. case_tests; rewrite ?length_app, ?length_replicate; lia.
Qed.

Lemma getClock_merge a b t :
  getClock (cv_merge a b).1 t = N.max (getClock a t) (getClock b t).
Proof.
  unfold getClock, cv_merge, id_to_int, num_threads.
  set (c := if bool_decide _ then _ else _).
  destruct (merge_loop c (clock b)) as [r ch] eqn:E; simpl.
  assert (r = (merge_loop c (clock b)).1) as -> by (by rewrite E).
  assert (length (clock b) ≤ length c) as Hlen.
  { unfold c. case_tests; rewrite ?length_app, ?length_replicate; lia. }
  assert (∀ i, default 0%N (c !! i) = default 0%N (clock a !! i)) as Hc.
  { intros i. unfold c. case_tests; [|done].
    destruct (decide (i < length (clock a))); [by rewrite lookup_app_l|].
    rewrite lookup_app_r by lia. rewrite (lookup_ge_None_2 (clock a)) by lia.
    destruct (replicate _ 0%N !! _) eqn:E'; [|done].
    by apply lookup_replicate in E' as [-> _]. }
  specialize (Hc t). destruct (c !! t) as [x|] eqn:Hx.
  - erewrite merge_loop_lookup by done.
    destruct (clock a !! t), (clock b !! t); simpl in *; subst; lia.
  - rewrite (lookup_ge_None_2 (merge_loop _ _).1)
      by (rewrite merge_loop_length; by apply lookup_ge_None).
    apply lookup_ge_None in Hx. rewrite (lookup_ge_None_2 (clock b)) by lia.
    destruct (clock a !! t); simpl in *; lia.
Qed.

Lemma grown_lookup (l : list N) n i :
  default 0%N ((l ++ replicate n 0%N) !! i) = default 0%N (l !! i).
Proof.
  destruct (decide (i < length l)); [by rewrite lookup_app_l|].
  rewrite lookup_app_r, (lookup_ge_None_2 l) by lia.
  destruct (replicate n 0%N !! _) eqn:E; [|done]. by apply lookup_replicate in E as [-> _].
Qed.

Lemma cv_merge_changed a b : (cv_merge a b).2 = true ↔ ¬ b ⊑cv a.
Proof.
  unfold cv_merge. set (c := if bool_decide _ then _ else _).
  assert (∀ i, default 0%N (c !! i) = getClock a i) as Hc.
  { intros i. unfold c. case_tests; rewrite ?grown_lookup;
      unfold getClock, id_to_int; by destruct (clock a !! i). }
  assert (length (clock b) ≤ length c) as Hlen.
  { unfold c, num_threads. case_tests; rewrite ?length_app, ?length_replicate; lia. }
  pose proof (merge_loop_changed c (clock b)) as Hch.
  destruct (merge_loop c (clock b)) as [r ch]; simpl in *. rewrite Hch. split.
  - intros (i & t & o & Ht & Ho & Hlt) Hle. specialize (Hle i). specialize (Hc i).
    rewrite Ht in Hc. simpl in Hc. unfold getClock at 1, id_to_int in Hle.
    rewrite Ho in Hle. lia.
  - intros Hnle. destruct (decide (Forall (λ i, (getClock b i <= getClock a i)%N) (seq 0 (length (clock b)))))
      as [Hall|Hex].
    + exfalso. apply Hnle. intros t. destruct (decide (t < length (clock b))) as [Hlt|Hge].
      * rewrite Forall_forall in Hall. apply Hall, elem_of_seq. lia.
      * unfold getClock at 1, id_to_int. rewrite lookup_ge_None_2 by lia. lia.
    + apply not_Forall_Exists in Hex; [|apply _]. apply Exists_exists in Hex as (i & Hi & Hlt).
      apply elem_of_seq in Hi. destruct (lookup_lt_is_Some_2 c i) as [t Ht]; [lia|].
      destruct (lookup_lt_is_Some_2 (clock b) i) as [o Ho]; [lia|].
      exists i, t, o. split_and!; try done. specialize (Hc i). rewrite Ht in Hc. simpl in Hc.
      simpl in Hlt. unfold getClock at 1, id_to_int in Hlt. rewrite Ho in Hlt. lia.
Qed.

Lemma synchronized_since_getClock cv tid seq :
  synchronized_since cv tid seq = true ↔ tid < num_threads cv ∧ (seq <= getClock cv tid)%N.
Proof.
  unfold synchronized_since, getClock, num_threads, id_to_int.
  destruct (clock cv !! tid) eqn:E.
  - apply lookup_lt_Some in E as ?. rewrite N.leb_le. naive_solver.
  - apply lookup_ge_None in E. split; [done|lia].
Qed.

(** ** Properties *)

(** [ClockVector::merge] computes the least upper bound of the two vectors
    in the thread-wise order, has the length of the longer one, and reports a
    change exactly when the argument was not already covered by the receiver. *)
Theorem merge_lub (a b : ClockVector) :
  a ⊑cv (cv_merge a b).1 ∧ b ⊑cv (cv_merge a b).1 ∧
  (∀ c, a ⊑cv c → b ⊑cv c → (cv_merge a b).1 ⊑cv c) ∧
  num_threads (cv_merge a b).1 = num_threads a `max` num_threads b ∧
  ((cv_merge a b).2 = true ↔ ¬ b ⊑cv a).
Proof.
  split_and!; [| | |apply num_threads_merge|apply cv_merge_changed].
  - intros t. rewrite getClock_merge. lia.
  - intros t. rewrite getClock_merge. lia.
  - intros c Ha Hb t. rewrite getClock_merge. by apply N.max_lub.
Qed.
