(* ===== verification/Action.v ===== *)
(** * Model actions (action.h, action.cc, include/memoryorder.h)

    A [ModelAction] is one visible operation of a user thread. Actions live in a
    heap and refer to each other by pointer ([reads_from], [last_fence_release]);
    their clock vector is owned, so it is a value. *)

From S2P Require Import Prelude ClockVector.

(** include/memoryorder.h; [memory_order_other] is a value of the enum type that
    is not one of its enumerators (the casts of include/wildcard.h). *)
Inductive memory_order :=
  | memory_order_relaxed
  | memory_order_acquire
  | memory_order_release
  | memory_order_acq_rel
  | memory_order_seq_cst
  | memory_order_other (code : N).

Inductive action_type :=
  | MODEL_FIXUP_RELSEQ | THREAD_CREATE | THREAD_START | THREAD_YIELD | THREAD_JOIN
  | THREAD_FINISH | ATOMIC_UNINIT | ATOMIC_READ | ATOMIC_WRITE | ATOMIC_RMWR
  | ATOMIC_RMW | ATOMIC_RMWC | ATOMIC_INIT | ATOMIC_FENCE | ATOMIC_LOCK
  | ATOMIC_TRYLOCK | ATOMIC_UNLOCK | ATOMIC_NOTIFY_ONE | ATOMIC_NOTIFY_ALL
  | ATOMIC_WAIT | ATOMIC_ANNOTATION.

#[global] Instance memory_order_eq_dec : EqDecision memory_order.
Proof. solve_decision. Defined.
#[global] Instance action_type_eq_dec : EqDecision action_type.
Proof. solve_decision. Defined.

Definition VALUE_NONE : N := 0xdeadbeef.
Definition FENCE_LOCATION : N := 7.
Definition ACTION_INITIAL_CLOCK : modelclock_t := 0%N.
Definition VALUE_TRYSUCCESS : N := 1.
Definition VALUE_TRYFAILED : N := 0.

Record ModelAction := mkModelAction {
  a_type : action_type;
  a_order : memory_order;
  a_original_order : memory_order;
  a_location : N;
  a_tid : thread_id_t;
  a_value : N;
  a_reads_from : option ptr;
  a_reads_from_promise : option ptr;
  a_last_fence_release : option ptr;
  a_node : option ptr;
  a_seq_number : modelclock_t;
  a_cv : option ClockVector;
  a_sleep_flag : bool
}.

#[global] Instance ModelAction_eq_dec : EqDecision ModelAction.
Proof. solve_decision. Defined.

(** ** Construction and field updates *)

(** The acting thread is always given: [thread_current()] when the caller passes
    no thread. *)
Definition new_ModelAction (type : action_type) (order : memory_order) (loc value : N)
    (thread : thread_id_t) : result ModelAction :=
  _ ← ASSERT (negb (loc =? 0)%N || bool_decide (type = ATOMIC_FENCE)
              || bool_decide (type = MODEL_FIXUP_RELSEQ));
  Ok (mkModelAction type order order loc thread value None None None None
        ACTION_INITIAL_CLOCK None false).

Definition set_type (ty : action_type) (a : ModelAction) : ModelAction :=
  mkModelAction ty (a_order a) (a_original_order a) (a_location a) (a_tid a) (a_value a)
    (a_reads_from a) (a_reads_from_promise a) (a_last_fence_release a) (a_node a)
    (a_seq_number a) (a_cv a) (a_sleep_flag a).
Definition set_mo (o : memory_order) (a : ModelAction) : ModelAction :=
  mkModelAction (a_type a) o (a_original_order a) (a_location a) (a_tid a) (a_value a)
    (a_reads_from a) (a_reads_from_promise a) (a_last_fence_release a) (a_node a)
    (a_seq_number a) (a_cv a) (a_sleep_flag a).
Definition set_value (v : N) (a : ModelAction) : ModelAction :=
  mkModelAction (a_type a) (a_order a) (a_original_order a) (a_location a) (a_tid a) v
    (a_reads_from a) (a_reads_from_promise a) (a_last_fence_release a) (a_node a)
    (a_seq_number a) (a_cv a) (a_sleep_flag a).
Definition set_rf (rf rfp : option ptr) (a : ModelAction) : ModelAction :=
  mkModelAction (a_type a) (a_order a) (a_original_order a) (a_location a) (a_tid a)
    (a_value a) rf rfp (a_last_fence_release a) (a_node a)
    (a_seq_number a) (a_cv a) (a_sleep_flag a).
Definition set_last_fence_release (f : option ptr) (a : ModelAction) : ModelAction :=
  mkModelAction (a_type a) (a_order a) (a_original_order a) (a_location a) (a_tid a)
    (a_value a) (a_reads_from a) (a_reads_from_promise a) f (a_node a)
    (a_seq_number a) (a_cv a) (a_sleep_flag a).
Definition set_node (n : ptr) (a : ModelAction) : ModelAction :=
  mkModelAction (a_type a) (a_order a) (a_original_order a) (a_location a) (a_tid a)
    (a_value a) (a_reads_from a) (a_reads_from_promise a) (a_last_fence_release a) (Some n)
    (a_seq_number a) (a_cv a) (a_sleep_flag a).
Definition set_seq (n : modelclock_t) (a : ModelAction) : ModelAction :=
  mkModelAction (a_type a) (a_order a) (a_original_order a) (a_location a) (a_tid a)
    (a_value a) (a_reads_from a) (a_reads_from_promise a) (a_last_fence_release a) (a_node a)
    n (a_cv a) (a_sleep_flag a).
Definition set_cv (c : option ClockVector) (a : ModelAction) : ModelAction :=
  mkModelAction (a_type a) (a_order a) (a_original_order a) (a_location a) (a_tid a)
    (a_value a) (a_reads_from a) (a_reads_from_promise a) (a_last_fence_release a) (a_node a)
    (a_seq_number a) c (a_sleep_flag a).
Definition set_sleep_flag (a : ModelAction) : ModelAction :=
  mkModelAction (a_type a) (a_order a) (a_original_order a) (a_location a) (a_tid a)
    (a_value a) (a_reads_from a) (a_reads_from_promise a) (a_last_fence_release a) (a_node a)
    (a_seq_number a) (a_cv a) true.

(** ** Classification *)
Section classification.
Context (a : ModelAction).

Definition is_type (ty : action_type) : bool := bool_decide (a_type a = ty).
Definition is_thread_start : bool := is_type THREAD_START.
Definition is_thread_join : bool := is_type THREAD_JOIN.
Definition is_relseq_fixup : bool := is_type MODEL_FIXUP_RELSEQ.
Definition is_mutex_op : bool :=
  is_type ATOMIC_LOCK || is_type ATOMIC_TRYLOCK || is_type ATOMIC_UNLOCK
  || is_type ATOMIC_WAIT || is_type ATOMIC_NOTIFY_ONE || is_type ATOMIC_NOTIFY_ALL.
Definition is_lock : bool := is_type ATOMIC_LOCK.
Definition is_wait : bool := is_type ATOMIC_WAIT.
Definition is_notify : bool := is_type ATOMIC_NOTIFY_ONE || is_type ATOMIC_NOTIFY_ALL.
Definition is_notify_one : bool := is_type ATOMIC_NOTIFY_ONE.
Definition is_unlock : bool := is_type ATOMIC_UNLOCK.
Definition is_trylock : bool := is_type ATOMIC_TRYLOCK.
Definition is_success_lock : bool :=
  is_type ATOMIC_LOCK || (is_type ATOMIC_TRYLOCK && (a_value a =? VALUE_TRYSUCCESS)%N).
Definition is_failed_trylock : bool :=
  is_type ATOMIC_TRYLOCK && (a_value a =? VALUE_TRYFAILED)%N.
Definition is_uninitialized : bool := is_type ATOMIC_UNINIT.
Definition is_read : bool :=
  is_type ATOMIC_READ || is_type ATOMIC_RMWR || is_type ATOMIC_RMW.
Definition is_write : bool :=
  is_type ATOMIC_WRITE || is_type ATOMIC_RMW || is_type ATOMIC_INIT || is_type ATOMIC_UNINIT.
Definition is_rmwr : bool := is_type ATOMIC_RMWR.
Definition could_be_write : bool := is_write || is_rmwr.
Definition is_atomic_var : bool := is_read || could_be_write.
Definition is_yield : bool := is_type THREAD_YIELD.
Definition is_rmw : bool := is_type ATOMIC_RMW.
Definition is_rmwc : bool := is_type ATOMIC_RMWC.
Definition is_fence : bool := is_type ATOMIC_FENCE.
Definition is_initialization : bool := is_type ATOMIC_INIT.
Definition is_annotation : bool := is_type ATOMIC_ANNOTATION.

Definition is_relaxed : bool := bool_decide (a_order a = memory_order_relaxed).
Definition is_acquire : bool :=
  match a_order a with
  | memory_order_acquire | memory_order_acq_rel | memory_order_seq_cst => true
  | _ => false
  end.
Definition is_release : bool :=
  match a_order a with
  | memory_order_release | memory_order_acq_rel | memory_order_seq_cst => true
  | _ => false
  end.
Definition is_seqcst : bool := bool_decide (a_order a = memory_order_seq_cst).
End classification.

(** ** Relations between two actions *)

Definition same_thread (this act : ModelAction) : bool := bool_decide (a_tid this = a_tid act).

(** A wait acts on its condition variable ([location]) and on its mutex (whose
    address is in [value]). *)
Definition same_var (this act : ModelAction) : bool :=
  let via_mutex :=
    if is_wait act || is_wait this then
      if is_wait act && is_wait this then (a_value this =? a_value act)%N
      else if is_wait this then (a_value this =? a_location act)%N
      else if is_wait act then (a_location this =? a_value act)%N
      else false
    else false in
  if via_mutex then true else (a_location this =? a_location act)%N.

Definition act_lt (this act : ModelAction) : bool := (a_seq_number this <? a_seq_number act)%N.
Definition act_gt (this act : ModelAction) : bool := (a_seq_number act <? a_seq_number this)%N.

Definition could_synchronize_with (this act : ModelAction) : bool :=
  if same_thread this act then false
  else if negb (same_var this act) && negb (is_fence this) && negb (is_fence act) then false
  else if (could_be_write this || could_be_write act || is_fence this || is_fence act)
          && is_seqcst this && is_seqcst act then true
  else if is_acquire this && is_release act && is_read this && could_be_write act then true
  else if (is_lock this || is_trylock this) && (is_unlock act || is_wait act) then true
  else if is_trylock this && is_success_lock act then true
  else if is_unlock this && (is_trylock act || is_lock act) then true
  else if is_trylock this && (is_unlock act || is_wait act) then true
  else if is_notify this && is_wait act then true
  else if is_wait this && is_notify act then true
  else false.

Definition is_conflicting_lock (this act : ModelAction) : bool :=
  if same_thread this act then false
  else if is_success_lock act then true
  else if is_unlock act && is_trylock this && (a_value this =? VALUE_TRYSUCCESS)%N then true
  else if is_wait act && is_trylock this && (a_value this =? VALUE_TRYSUCCESS)%N then true
  else false.

(** ** State changes *)

Definition copy_from_new (newaction this : ModelAction) : ModelAction :=
  set_seq (a_seq_number newaction) this.

Definition set_seq_number (num : modelclock_t) (this : ModelAction) : result ModelAction :=
  _ ← ASSERT (negb (is_uninitialized this));
  _ ← ASSERT (a_seq_number this =? ACTION_INITIAL_CLOCK)%N;
  Ok (set_seq num this).

Definition copy_typeandorder (act this : ModelAction) : ModelAction :=
  set_mo (a_order act) (set_type (a_type act) this).

(** [process_rmw]: close the read part of an RMW with its second half. *)
Definition act_process_rmw (act this : ModelAction) : ModelAction :=
  let this := set_mo (a_order act) this in
  if is_rmwc act then set_type ATOMIC_READ this
  else if is_rmw act then set_value (a_value act) (set_type ATOMIC_RMW this)
  else this.

Definition create_cv (parent : option ModelAction) (this : ModelAction) : ModelAction :=
  let pcv := match parent with Some p => a_cv p | None => None end in
  set_cv (Some (new_ClockVector pcv (a_tid this) (a_seq_number this))) this.

Definition set_try_lock (obtainedlock : bool) (this : ModelAction) : ModelAction :=
  set_value (if obtainedlock then VALUE_TRYSUCCESS else VALUE_TRYFAILED) this.

(** [set_read_from]; the second component tells whether the checker must report
    a read from an uninitialized atomic ([model->assert_bug]). *)
Definition set_read_from (rf : ptr) (act this : ModelAction) : ModelAction * bool :=
  (set_rf (Some rf) None this, is_uninitialized act).

Definition set_read_from_promise (promise : ptr) (this : ModelAction) : result ModelAction :=
  _ ← ASSERT (is_read this);
  Ok (set_rf None (Some promise) this).

(** ** Values *)

Definition get_write_value (this : ModelAction) : result N :=
  _ ← ASSERT (is_write this);
  Ok (a_value this).

Section values.
Context (acts : gmap ptr ModelAction) (promise_value : ptr → option N).

Definition get_reads_from_value (this : ModelAction) : result N :=
  _ ← ASSERT (is_read this);
  match a_reads_from this with
  | Some rf => w ← deref (acts !! rf); get_write_value w
  | None =>
      match a_reads_from_promise this with
      | Some p => deref (promise_value p)
      | None => Ok VALUE_NONE
      end
  end.

Definition get_return_value (this : ModelAction) : result N :=
  if is_read this then get_reads_from_value this
  else if is_write this then get_write_value this
  else Ok (a_value this).
End values.

(** The mutex an action operates on; 0 is NULL. *)
Definition get_mutex (this : ModelAction) : N :=
  if is_trylock this || is_lock this || is_unlock this then a_location this
  else if is_wait this then a_value this
  else 0%N.

(** [get_node]: an uninitialized action has none. *)
Definition get_node (this : ModelAction) : result (option ptr) :=
  _ ← ASSERT (negb (is_uninitialized this));
  Ok (a_node this).

(** ** Synchronization *)

(** [synchronize_with]: refuse to inherit from the future, otherwise merge. *)
Definition synchronize_with (act this : ModelAction) : result (ModelAction * bool) :=
  if act_lt this act then Ok (this, false)
  else
    c ← deref (a_cv this);
    c' ← deref (a_cv act);
    Ok (set_cv (Some (cv_merge c c').1) this, true).

Definition has_synchronized_with (this act : ModelAction) : result bool :=
  c ← deref (a_cv this);
  Ok (synchronized_since c (a_tid act) (a_seq_number act)).

Definition happens_before (this act : ModelAction) : result bool :=
  c ← deref (a_cv act);
  Ok (synchronized_since c (a_tid this) (a_seq_number this)).
