(* ===== verification/HashTable.v ===== *)
(** * The open-addressing hash table (hashtable.h)

    Keys are non-zero machine words, a zero key marks an empty bin; collisions
    are resolved by linear probing. The load factor of every instance in the
    sources is the default 0.5, so the threshold of a capacity [c] is [c / 2].

    The file ends with the interface [PtrTable] that the clients of the table
    rely on, and its two implementations: this hash table and a finite map. *)

From S2P Require Import Prelude.

Section HashTable.
Context {V : Type} (vzero : V) (shift : N).

(** [struct hashlistnode]: key and value; the table is an array of them. *)
Record HashTable := mkHashTable {
  ht_table : list (N * V);
  ht_capacity : N;
  ht_size : N;
  ht_capacitymask : N;
  ht_threshold : N
}.

Definition empty_bins (n : N) : list (N * V) := replicate (N.to_nat n) (0%N, vzero).

Definition new_HashTable (initialcapacity : N) : HashTable :=
  mkHashTable (empty_bins initialcapacity) initialcapacity 0
    (wrap32 (initialcapacity + 2 ^ 32 - 1)) (initialcapacity / 2).

Definition ht_reset (t : HashTable) : HashTable :=
  mkHashTable (empty_bins (ht_capacity t)) (ht_capacity t) 0
    (ht_capacitymask t) (ht_threshold t).

(** The starting index [((_KeyInt)key) >> _Shift], truncated to [unsigned int]. *)
Definition ht_index (key : N) : N := wrap32 (N.shiftr key shift).

(** The probe loop of [put], [get] and [contains]: stop at the key or at the
    first empty bin. The result is the bin and whether the key was found. *)
Fixpoint ht_probe (fuel : nat) (bins : list (N * V)) (mask key index : N)
    : result (nat * V * bool) :=
  match fuel with
  | O => Err OutOfFuel
  | S fuel =>
      let i := N.to_nat (N.land index mask) in
      '(k, v) ← at_index bins i;
      if (k =? key)%N then Ok (i, v, true)
      else if (k =? 0)%N then Ok (i, v, false)
      else ht_probe fuel bins mask key (wrap32 (N.land index mask + 1))
  end.

(** The probe loop of [resize]: stop at the first empty bin only. *)
Fixpoint ht_free (fuel : nat) (bins : list (N * V)) (mask index : N) : result nat :=
  match fuel with
  | O => Err OutOfFuel
  | S fuel =>
      let i := N.to_nat (N.land index mask) in
      '(k, _) ← at_index bins i;
      if (k =? 0)%N then Ok i
      else ht_free fuel bins mask (wrap32 (N.land index mask + 1))
  end.

(** The rehashing loop over the bins of the old table; empty bins are rehashed too. *)
Fixpoint ht_rehash (old bins : list (N * V)) (mask : N) : result (list (N * V)) :=
  match old with
  | [] => Ok bins
  | (key, v) :: old =>
      i ← ht_free (S (length bins)) bins mask (ht_index key);
      ht_rehash old (<[i := (key, v)]> bins) mask
  end.

Definition ht_resize (newsize : N) (t : HashTable) : result HashTable :=
  let mask := wrap32 (newsize + 2 ^ 32 - 1) in
  bins ← ht_rehash (ht_table t) (empty_bins newsize) mask;
  Ok (mkHashTable bins newsize (ht_size t) mask (newsize / 2)).

Definition ht_put (key : N) (v : V) (t : HashTable) : result HashTable :=
  _ ← ASSERT (negb (key =? 0)%N);
  t ← (if (ht_threshold t <? ht_size t)%N
       then ht_resize (wrap32 (N.shiftl (ht_capacity t) 1)) t else Ok t);
  '(i, _, found) ← ht_probe (S (length (ht_table t))) (ht_table t)
                     (ht_capacitymask t) key (ht_index key);
  Ok (mkHashTable (<[i := (key, v)]> (ht_table t)) (ht_capacity t)
        (if (found : bool) then ht_size t else wrap32 (ht_size t + 1))
        (ht_capacitymask t) (ht_threshold t)).

Definition ht_get (key : N) (t : HashTable) : result V :=
  _ ← ASSERT (negb (key =? 0)%N);
  '(_, v, found) ← ht_probe (S (length (ht_table t))) (ht_table t)
                     (ht_capacitymask t) key (ht_index key);
  Ok (if (found : bool) then v else vzero).

Definition ht_contains (key : N) (t : HashTable) : result bool :=
  _ ← ASSERT (negb (key =? 0)%N);
  '(_, _, found) ← ht_probe (S (length (ht_table t))) (ht_table t)
                     (ht_capacitymask t) key (ht_index key);
  Ok found.

(** ** Probe sequences *)

(** The [d]-th bin visited for a key in a table of [cap] bins. *)
Definition slot (cap : nat) (key : N) (d : nat) : nat :=
  (N.to_nat (ht_index key) + d) mod cap.

Definition occupied (bins : list (N * V)) (i : nat) : Prop :=
  ∃ k v, bins !! i = Some (k, v) ∧ k ≠ 0%N.

Definition key_at (bins : list (N * V)) (k : N) (i : nat) : Prop := ∃ v, bins !! i = Some (k, v).

#[global] Instance occupied_dec bins i : Decision (occupied bins i).
Proof.
  unfold occupied. destruct (bins !! i) as [[k v]|] eqn:E.
  - destruct (decide (k = 0%N)); [right|left]; naive_solver.
  - right. naive_solver.
Defined.

Definition n_occupied (bins : list (N * V)) : nat := length (filter (λ b, b.1 ≠ 0%N) bins).

(** The structural invariant: capacities are powers of two of at least four bins,
    a key sits in one bin, and every bin before it on its probe path is occupied. *)
Record bins_wf (e : nat) (bins : list (N * V)) : Prop := {
  bw_exp : 2 ≤ e ≤ 31;
  bw_len : length bins = 2 ^ e;
  bw_unique : ∀ i j k, k ≠ 0%N → key_at bins k i → key_at bins k j → i = j;
  bw_path : ∀ i k, k ≠ 0%N → key_at bins k i →
    ∃ d, d < 2 ^ e ∧ i = slot (2 ^ e) k d ∧ ∀ d', d' < d → occupied bins (slot (2 ^ e) k d')
}.

Record ht_wf (e : nat) (t : HashTable) : Prop := {
  hw_bins : bins_wf e (ht_table t);
  hw_cap : ht_capacity t = (2 ^ N.of_nat e)%N;
  hw_mask : ht_capacitymask t = (2 ^ N.of_nat e - 1)%N;
  hw_thr : ht_threshold t = (2 ^ N.of_nat e / 2)%N;
  hw_size : N.to_nat (ht_size t) = n_occupied (ht_table t);
  hw_load : n_occupied (ht_table t) ≤ S (2 ^ e / 2)
}.

(** The entries of the bins are the entries of a map. *)
Record bins_repr (bins : list (N * V)) (m : gmap N V) : Prop := {
  br_entries : ∀ k v, m !! k = Some v ↔ k ≠ 0%N ∧ ∃ i, bins !! i = Some (k, v);
  br_size : n_occupied bins = size m
}.

(** The map a table stands for. *)
Definition ht_repr (t : HashTable) (m : gmap N V) : Prop :=
  ∃ e, ht_wf e t ∧ bins_repr (ht_table t) m.

(** ** Lemmas on probing *)

Lemma slot_lt e key d : slot (2 ^ e) key d < 2 ^ e.
Proof. apply Nat.mod_upper_bound. apply Nat.pow_nonzero. lia. Qed.

Lemma slot_surj e key i : i < 2 ^ e → ∃ d, d < 2 ^ e ∧ slot (2 ^ e) key d = i.
Proof.
  intros Hi. set (h := N.to_nat (ht_index key) mod 2 ^ e).
  assert (h < 2 ^ e) as Hh by (apply Nat.mod_upper_bound; lia).
  exists ((i + (2 ^ e - h)) mod 2 ^ e). split; [apply Nat.mod_upper_bound; lia|].
  unfold slot. rewrite <- Nat.Div0.add_mod_idemp_l. fold h.
  rewrite Nat.Div0.add_mod_idemp_r.
  replace (h + (i + (2 ^ e - h))) with (i + 1 * 2 ^ e) by lia.
  rewrite Nat.Div0.mod_add. by apply Nat.mod_small.
Qed.

Lemma slot_inj (a c d d' : nat) : d < c → d' < d → (a + d') mod c = (a + d) mod c → d' = d.
Proof.
  intros Hd Hlt Heq. exfalso. pose proof (Nat.div_mod_eq (a + d') c) as H1.
  pose proof (Nat.div_mod_eq (a + d) c) as H2. rewrite Heq in H1.
  generalize dependent ((a + d) mod c). intros r _ H1 H2.
  destruct (decide ((a + d) / c ≤ (a + d') / c)) as [Hle|Hgt].
  - pose proof (Nat.mul_le_mono_l _ _ c Hle). lia.
  - pose proof (Nat.mul_le_mono_l (S ((a + d') / c)) ((a + d) / c) c ltac:(lia)). lia.
Qed.

Lemma slot_step e key d index :
  2 ≤ e ≤ 31 →
  N.to_nat (N.land index (2 ^ N.of_nat e - 1)) = slot (2 ^ e) key d →
  N.to_nat (N.land (wrap32 (N.land index (2 ^ N.of_nat e - 1) + 1)) (2 ^ N.of_nat e - 1))
    = slot (2 ^ e) key (S d).
Proof.
  intros He Hd. rewrite (land_mask (wrap32 _)).
  pose proof (slot_lt e key d) as Hlt. pose proof (pow2_32 e ltac:(lia)) as Hp.
  pose proof (to_nat_pow2 e) as Hto.
  assert (N.land index (2 ^ N.of_nat e - 1) < 2 ^ N.of_nat e)%N as Hb by lia.
  rewrite wrap32_small by lia.
  rewrite N2Nat.inj_mod, Hto, N2Nat.inj_add, Hd. change (N.to_nat 1) with 1.
  unfold slot. rewrite Nat.Div0.add_mod_idemp_l. f_equal. lia.
Qed.

Lemma slot_start e key :
  N.to_nat (N.land (ht_index key) (2 ^ N.of_nat e - 1)) = slot (2 ^ e) key 0.
Proof.
  rewrite land_mask, N2Nat.inj_mod, to_nat_pow2. unfold slot. f_equal. lia.
Qed.

(** The probe loop returns the first bin holding the key or no key. *)
Lemma ht_probe_spec e bins key d n :
  2 ≤ e ≤ 31 →
  ∀ d0 index fuel k v,
  n = d - d0 → d0 ≤ d → n < fuel →
  N.to_nat (N.land index (2 ^ N.of_nat e - 1)) = slot (2 ^ e) key d0 →
  (∀ d', d0 ≤ d' < d → ∃ k' v', bins !! slot (2 ^ e) key d' = Some (k', v') ∧ k' ≠ 0%N ∧ k' ≠ key) →
  bins !! slot (2 ^ e) key d = Some (k, v) → k = key ∨ k = 0%N →
  ht_probe fuel bins (2 ^ N.of_nat e - 1) key index
    = Ok (slot (2 ^ e) key d, v, (k =? key)%N).
Proof.
  intros He. induction n as [|n IH]; intros d0 index [|fuel] k v Hn Hle Hfuel Hidx Hpath Hd Hk;
    try lia; simpl; rewrite Hidx; unfold at_index.
  - replace d0 with d by lia. rewrite Hd; simpl. destruct (N.eqb_spec k key); [done|].
    destruct Hk as [? | ->]; done.
  - destruct (Hpath d0) as (k' & v' & Hb & Hk0 & Hkk); [lia|]. rewrite Hb; simpl.
    rewrite (proj2 (N.eqb_neq _ _) Hkk), (proj2 (N.eqb_neq _ _) Hk0).
    apply (IH (S d0)); try lia; try done.
    + by apply slot_step.
    + intros d' ?. apply Hpath. lia.
Qed.

Lemma ht_free_spec e bins key d n :
  2 ≤ e ≤ 31 →
  ∀ d0 index fuel v,
  n = d - d0 → d0 ≤ d → n < fuel →
  N.to_nat (N.land index (2 ^ N.of_nat e - 1)) = slot (2 ^ e) key d0 →
  (∀ d', d0 ≤ d' < d → occupied bins (slot (2 ^ e) key d')) →
  bins !! slot (2 ^ e) key d = Some (0%N, v) →
  ht_free fuel bins (2 ^ N.of_nat e - 1) index = Ok (slot (2 ^ e) key d).
Proof.
  intros He. induction n as [|n IH]; intros d0 index [|fuel] v Hn Hle Hfuel Hidx Hpath Hd;
    try lia; simpl; rewrite Hidx; unfold at_index.
  - replace d0 with d by lia. by rewrite Hd.
  - destruct (Hpath d0) as (k' & v' & Hb & Hk0); [lia|]. rewrite Hb; simpl.
    rewrite (proj2 (N.eqb_neq _ _) Hk0).
    apply (IH (S d0) _ _ v); try lia; try done.
    + by apply slot_step.
    + intros d' ?. apply Hpath. lia.
Qed.

(** ** Occupancy *)

Lemma n_occupied_app b1 b2 : n_occupied (b1 ++ b2) = n_occupied b1 + n_occupied b2.
Proof. unfold n_occupied. by rewrite filter_app, length_app. Qed.

Lemma n_occupied_insert bins i k v k' v' :
  bins !! i = Some (k', v') →
  n_occupied (<[i := (k, v)]> bins) + (if decide (k' = 0%N) then 0 else 1)
    = n_occupied bins + (if decide (k = 0%N) then 0 else 1).
Proof.
  intros Hi. rewrite insert_take_drop by (by apply lookup_lt_Some in Hi).
  rewrite <- (take_drop_middle bins i (k', v')) at 3 by done.
  rewrite !n_occupied_app. unfold n_occupied. rewrite !filter_cons. simpl.
  repeat case_decide; simpl in *; try congruence; lia.
Qed.

Lemma free_bin_exists bins :
  n_occupied bins < length bins → ∃ i v, bins !! i = Some (0%N, v).
Proof.
  unfold n_occupied. induction bins as [|[k v] bins IH]; simpl; [lia|].
  rewrite filter_cons; simpl. case_decide; simpl; intros Hlt.
  - destruct IH as (i & v' & Hi); [lia|]. by exists (S i), v'.
  - exists 0, v. destruct (decide (k = 0%N)) as [->|]; done.
Qed.

(** Whatever the key, its probe path reaches an empty bin. *)
Lemma first_free e bins key :
  bins_wf e bins → n_occupied bins < 2 ^ e →
  ∃ d v, d < 2 ^ e ∧ bins !! slot (2 ^ e) key d = Some (0%N, v) ∧
    ∀ d', d' < d → occupied bins (slot (2 ^ e) key d').
Proof.
  intros Hwf Hn. destruct (free_bin_exists bins) as (i & v & Hi); [by rewrite (bw_len _ _ Hwf)|].
  destruct (slot_surj e key i) as (d & Hd & <-).
  { apply lookup_lt_Some in Hi. by rewrite (bw_len _ _ Hwf) in Hi. }
  destruct (first_index (λ d, ¬ occupied bins (slot (2 ^ e) key d)) d) as (d1 & Hle & Hfree & Hmin).
  { intros (k' & v' & ? & ?). naive_solver. }
  destruct (lookup_lt_is_Some_2 bins (slot (2 ^ e) key d1)) as [[k' v'] Hb].
  { rewrite (bw_len _ _ Hwf). apply slot_lt. }
  exists d1, v'. split_and!; [lia| |].
  - destruct (decide (k' = 0%N)) as [->|]; [done|]. destruct Hfree. by exists k', v'.
  - intros d' Hlt. apply dec_stable. by apply Hmin.
Qed.

(** ** Writing a bin *)

Lemma lookup_put (bins : list (N * V)) i x j y :
  i < length bins →
  <[i := x]> bins !! j = Some y ↔ (i = j ∧ x = y) ∨ (i ≠ j ∧ bins !! j = Some y).
Proof.
  intros Hi. destruct (decide (i = j)) as [<-|Hne].
  - rewrite list_lookup_insert_eq by done. naive_solver.
  - rewrite list_lookup_insert_ne by done. naive_solver.
Qed.

(** Overwriting the value of a bin (also of an empty one) keeps the shape. *)
Lemma same_key_wf e bins i key v0 v :
  bins !! i = Some (key, v0) → bins_wf e bins → bins_wf e (<[i := (key, v)]> bins).
Proof.
  intros Hi [He Hlen Huniq Hpath].
  assert (i < length bins) as Hlt by (by apply lookup_lt_Some in Hi).
  assert (∀ k j, key_at (<[i := (key, v)]> bins) k j ↔ key_at bins k j) as Hkey.
  { intros k j. unfold key_at. setoid_rewrite lookup_put; [|done].
    destruct (decide (i = j)) as [<-|]; naive_solver. }
  assert (∀ j, occupied bins j → occupied (<[i := (key, v)]> bins) j) as Hocc.
  { intros j (k & v' & Hj & Hk). destruct (proj2 (Hkey k j)) as [v'' ?]; [by exists v'|].
    by exists k, v''. }
  split; [done|by rewrite length_insert|..].
  - intros j1 j2 k Hk. rewrite !Hkey. by apply Huniq.
  - intros j k Hk Hj. apply Hkey in Hj. destruct (Hpath j k Hk Hj) as (d & ? & ? & ?).
    exists d. split_and!; eauto.
Qed.

(** Writing an absent key into the first empty bin of its path keeps the shape. *)
Lemma place_wf e bins key v d v0 :
  bins_wf e bins → key ≠ 0%N → (∀ i, ¬ key_at bins key i) → d < 2 ^ e →
  bins !! slot (2 ^ e) key d = Some (0%N, v0) →
  (∀ d', d' < d → occupied bins (slot (2 ^ e) key d')) →
  bins_wf e (<[slot (2 ^ e) key d := (key, v)]> bins).
Proof.
  intros [He Hlen Huniq Hpath] Hkey Habs Hd Hfree Hocc.
  set (i := slot (2 ^ e) key d) in *.
  assert (i < length bins) as Hlt by (by apply lookup_lt_Some in Hfree).
  assert (∀ j, occupied bins j → occupied (<[i := (key, v)]> bins) j) as Hpres.
  { intros j (k & v' & Hj & Hk). exists k, v'. split; [|done]. apply lookup_put; [done|].
    right. split; [|done]. intros ->. congruence. }
  assert (∀ k j, key_at (<[i := (key, v)]> bins) k j →
            (j = i ∧ k = key) ∨ (k ≠ key ∧ key_at bins k j)) as Hinv.
  { intros k j [w [[-> [= -> ->]]|[? Hj]]%lookup_put]; [by left| |done].
    right. split; [|by exists w]. intros ->. apply (Habs j). by exists w. }
  split; [done|by rewrite length_insert|..].
  - intros j1 j2 k Hk [[-> ->]|[? H1]]%Hinv [[-> ?]|[? H2]]%Hinv; try congruence.
    by eapply Huniq.
  - intros j k Hk [[-> ->]|[? H1]]%Hinv.
    + exists d. split_and!; eauto.
    + destruct (Hpath j k Hk H1) as (d1 & ? & ? & ?). exists d1. split_and!; eauto.
Qed.

Lemma repr_overwrite e bins m i key v0 v :
  bins_wf e bins → bins_repr bins m → bins !! i = Some (key, v0) → key ≠ 0%N →
  bins_repr (<[i := (key, v)]> bins) (<[key := v]> m).
Proof.
  intros Hwf [Hent Hsz] Hi Hk. assert (i < length bins) as Hlt by (by apply lookup_lt_Some in Hi).
  assert (m !! key = Some v0) as Hm by (apply Hent; eauto). split.
  - intros k w. setoid_rewrite lookup_put; [|done].
    destruct (decide (k = key)) as [->|Hne].
    + rewrite lookup_insert_eq. split; [naive_solver|].
      intros (_ & j & [[-> ?]|[Hij Hj]]); [naive_solver|].
      destruct Hij. eapply bw_unique; [done|done|by exists v0|by exists w].
    + rewrite lookup_insert_ne by done. rewrite Hent. naive_solver.
  - pose proof (n_occupied_insert bins i key v key v0 Hi).
    rewrite map_size_insert_Some by eauto. lia.
Qed.

Lemma repr_place bins m i key v v0 :
  bins_repr bins m → bins !! i = Some (0%N, v0) → key ≠ 0%N → m !! key = None →
  bins_repr (<[i := (key, v)]> bins) (<[key := v]> m).
Proof.
  intros [Hent Hsz] Hi Hk Hm. assert (i < length bins) as Hlt by (by apply lookup_lt_Some in Hi).
  split.
  - intros k w. setoid_rewrite lookup_put; [|done].
    destruct (decide (k = key)) as [->|Hne].
    + rewrite lookup_insert_eq. split; [naive_solver|].
      intros (_ & j & [[-> ?]|[Hij Hj]]); [naive_solver|].
      assert (m !! key = Some w) by (apply Hent; eauto). congruence.
    + rewrite lookup_insert_ne by done. rewrite Hent. split.
      * intros [? [j Hj]]. split; [done|]. exists j. right. split; [|done]. intros ->. congruence.
      * naive_solver.
  - pose proof (n_occupied_insert bins i key v 0 v0 Hi) as Hn.
    rewrite map_size_insert_None by done. repeat case_decide; try done. lia.
Qed.

Lemma repr_zero bins m i v0 v :
  bins_repr bins m → bins !! i = Some (0%N, v0) → bins_repr (<[i := (0%N, v)]> bins) m.
Proof.
  intros [Hent Hsz] Hi. assert (i < length bins) as Hlt by (by apply lookup_lt_Some in Hi).
  split.
  - intros k w. rewrite Hent. setoid_rewrite lookup_put; [|done].
    split; intros [Hk [j Hj]]; (split; [done|]); exists j; [|naive_solver].
    right. split; [|done]. intros ->. congruence.
  - pose proof (n_occupied_insert bins i 0 v 0 v0 Hi). repeat case_decide; try done. lia.
Qed.

(** ** Searching *)

(** The search of [put], [get] and [contains] in a table with an empty bin. *)
Lemma probe_search e bins m key :
  bins_wf e bins → bins_repr bins m → n_occupied bins < 2 ^ e → key ≠ 0%N →
  ∃ d k v, d < 2 ^ e ∧ bins !! slot (2 ^ e) key d = Some (k, v) ∧
    ht_probe (S (length bins)) bins (2 ^ N.of_nat e - 1) key (ht_index key)
      = Ok (slot (2 ^ e) key d, v, (k =? key)%N) ∧
    (∀ d', d' < d → occupied bins (slot (2 ^ e) key d')) ∧
    ((k = key ∧ m !! key = Some v) ∨ (k = 0%N ∧ m !! key = None)).
Proof.
  intros Hwf [Hent Hsz] Hn Hkey.
  destruct (m !! key) as [v|] eqn:Hm.
  - destruct (proj1 (Hent key v) Hm) as (_ & i & Hi).
    destruct (bw_path _ _ Hwf i key Hkey) as (d & Hd & -> & Hocc); [by exists v|].
    exists d, key, v. split_and!; [done|done| |done|by left].
    apply (ht_probe_spec e bins key d (d - 0) (bw_exp _ _ Hwf) 0);
      [done|lia|rewrite (bw_len _ _ Hwf); lia|apply slot_start| |done|auto].
    intros d' [_ Hlt]. destruct (Hocc d' Hlt) as (k' & v' & Hb & Hk').
    exists k', v'. split_and!; [done|done|]. intros ->.
    assert (slot (2 ^ e) key d' = slot (2 ^ e) key d) as Heq
      by (eapply bw_unique; [done|done|by exists v'|by exists v]).
    unfold slot in Heq. pose proof (slot_inj _ _ _ _ Hd Hlt Heq). lia.
  - destruct (first_free e bins key Hwf Hn) as (d & v & Hd & Hfree & Hocc).
    exists d, 0%N, v. split_and!; [done|done| |done|by right].
    apply (ht_probe_spec e bins key d (d - 0) (bw_exp _ _ Hwf) 0);
      [done|lia|rewrite (bw_len _ _ Hwf); lia|apply slot_start| |done|auto].
    intros d' [_ Hlt]. destruct (Hocc d' Hlt) as (k' & v' & Hb & Hk').
    exists k', v'. split_and!; [done|done|]. intros ->.
    assert (m !! key = Some v') by (apply Hent; eauto). congruence.
Qed.

(** ** Resizing *)

(** One rehash step places an entry absent from the new bins. *)
Lemma rehash_step e bins m key v :
  bins_wf e bins → bins_repr bins m → n_occupied bins < 2 ^ e →
  (key ≠ 0%N → m !! key = None) →
  ∃ i, ht_free (S (length bins)) bins (2 ^ N.of_nat e - 1) (ht_index key) = Ok i ∧
    bins_wf e (<[i := (key, v)]> bins) ∧
    bins_repr (<[i := (key, v)]> bins) (if decide (key = 0%N) then m else <[key := v]> m).
Proof.
  intros Hwf Hrep Hn Habs. destruct (first_free e bins key Hwf Hn) as (d & v0 & Hd & Hfree & Hocc).
  exists (slot (2 ^ e) key d). split_and!.
  - apply (ht_free_spec e bins key d (d - 0) (bw_exp _ _ Hwf) 0 _ _ v0);
      [done|lia|rewrite (bw_len _ _ Hwf); lia|apply slot_start| |done].
    intros d' [_ ?]. by apply Hocc.
  - destruct (decide (key = 0%N)) as [->|Hk]; [by eapply same_key_wf|].
    eapply place_wf; eauto. intros i [w Hw].
    assert (m !! key = Some w) by (apply (br_entries _ _ Hrep); eauto).
    rewrite Habs in *; naive_solver.
  - case_decide as Hk; [subst; by eapply repr_zero|]. eapply repr_place; eauto.
Qed.

Lemma rehash_spec e old : ∀ bins m,
  bins_wf e bins → bins_repr bins m →
  NoDup (filter (λ k, k ≠ 0%N) old.*1) →
  (∀ k v, (k, v) ∈ old → k ≠ 0%N → m !! k = None) →
  n_occupied bins + n_occupied old < 2 ^ e →
  ∃ bins', ht_rehash old bins (2 ^ N.of_nat e - 1) = Ok bins' ∧ bins_wf e bins' ∧
    bins_repr bins' (list_to_map (filter (λ b, b.1 ≠ 0%N) old) ∪ m).
Proof.
  induction old as [|[key v] old IH]; intros bins m Hwf Hrep Hnd Habs Hn; cbn [ht_rehash].
  - exists bins. split_and!; [done..|]. simpl. by rewrite (left_id_L ∅ (∪) m).
  - destruct (rehash_step e bins m key v Hwf Hrep) as (i & -> & Hwf' & Hrep'); simpl.
    { lia. } { intros. eapply Habs; [by left|done]. }
    assert (∀ k w, (k, w) ∈ old → k ≠ 0%N → k ≠ key) as Hfresh.
    { intros k w Hin Hk ->. rewrite fmap_cons, filter_cons, decide_True in Hnd by done.
      apply NoDup_cons in Hnd as [Hnot _]. apply Hnot, list_elem_of_filter.
      split; [done|]. apply list_elem_of_fmap. by exists (key, w). }
    destruct (IH _ _ Hwf' Hrep') as (bins' & Hre & Hwf'' & Hrep'').
    { rewrite fmap_cons, filter_cons in Hnd. destruct (decide (key = 0%N)) as [->|Hk];
        [by rewrite decide_False in Hnd by auto|rewrite decide_True in Hnd by done].
      by apply NoDup_cons in Hnd as [_ Hnd]. }
    { intros k w Hin Hk. case_decide; [by eapply Habs; [right|]|].
      rewrite lookup_insert_ne by (symmetry; eauto). eapply Habs; [by right|done]. }
    { change (n_occupied ((key, v) :: old)) with (n_occupied ([(key, v)] ++ old)) in Hn.
      rewrite n_occupied_app in Hn. rewrite (br_size _ _ Hrep') . rewrite (br_size _ _ Hrep) in Hn.
      unfold n_occupied in Hn at 1. rewrite filter_cons, filter_nil in Hn. simpl in Hn.
      destruct (decide (key = 0%N)) as [->|Hk]; [rewrite decide_False in Hn by auto; simpl in *; lia|].
      rewrite decide_True in Hn by done.
      rewrite map_size_insert_None by (eapply Habs; [by left|done]). simpl in Hn. lia. }
    exists bins'. split_and!; [done|done|]. rewrite filter_cons; simpl.
    case_decide as Hk; case_decide; try done. simpl.
    rewrite <- insert_union_l, insert_union_r; [done|].
    apply not_elem_of_list_to_map_1. intros ([k w] & -> & [? ?]%list_elem_of_filter)%list_elem_of_fmap.
    simpl in *. by eapply Hfresh.
Qed.

Lemma NoDup_filter_keys (l : list N) :
  (∀ i j k, k ≠ 0%N → l !! i = Some k → l !! j = Some k → i = j) →
  NoDup (filter (λ k, k ≠ 0%N) l).
Proof.
  induction l as [|x l IH]; intros Huniq; [constructor|].
  assert (NoDup (filter (λ k, k ≠ 0%N) l)) as Hnd.
  { apply IH. intros i j k Hk Hi Hj. assert (S i = S j) by (by eapply Huniq). lia. }
  rewrite filter_cons. case_decide as Hx; [|done]. apply NoDup_cons. split; [|done].
  intros [_ [j Hj]%list_elem_of_lookup]%list_elem_of_filter.
  assert (0 = S j) by (eapply (Huniq 0 (S j) x); done). lia.
Qed.

Lemma filter_fst (l : list (N * V)) :
  (filter (λ b, b.1 ≠ 0%N) l).*1 = filter (λ k, k ≠ 0%N) l.*1.
Proof.
  induction l as [|[k v] l IH]; [done|]. rewrite fmap_cons, !filter_cons.
  cbn [fst]. case_decide; [|done]. rewrite fmap_cons. by f_equal.
Qed.

Lemma bins_NoDup e bins : bins_wf e bins → NoDup (filter (λ k, k ≠ 0%N) bins.*1).
Proof.
  intros Hwf. apply NoDup_filter_keys. intros i j k Hk Hi Hj.
  apply list_lookup_fmap_Some in Hi as ([k1 v1] & -> & Hi).
  apply list_lookup_fmap_Some in Hj as ([k2 v2] & ? & Hj). simpl in *; subst.
  eapply bw_unique; [done|done|by exists v1|by exists v2].
Qed.

Lemma bins_map e bins m :
  bins_wf e bins → bins_repr bins m → list_to_map (filter (λ b, b.1 ≠ 0%N) bins) = m.
Proof.
  intros Hwf [Hent _]. apply map_eq. intros k. apply option_eq. intros v.
  rewrite <- elem_of_list_to_map by (rewrite filter_fst; by eapply bins_NoDup).
  rewrite Hent, list_elem_of_filter, list_elem_of_lookup. done.
Qed.

Lemma lookup_empty_bins n i b : empty_bins n !! i = Some b → b = (0%N, vzero).
Proof. unfold empty_bins. by intros [-> _]%lookup_replicate. Qed.

Lemma n_occupied_empty n : n_occupied (empty_bins n) = 0.
Proof. unfold n_occupied, empty_bins. induction (N.to_nat n); done. Qed.

Lemma empty_bins_wf e : 2 ≤ e ≤ 31 → bins_wf e (empty_bins (2 ^ N.of_nat e)).
Proof.
  intros He. split; [done|by unfold empty_bins; rewrite length_replicate, to_nat_pow2|..].
  - intros i j k Hk [v Hv%lookup_empty_bins]. congruence.
  - intros i k Hk [v Hv%lookup_empty_bins]. congruence.
Qed.

Lemma empty_bins_repr n : bins_repr (empty_bins n) ∅.
Proof.
  split; [|by rewrite n_occupied_empty]. intros k v. rewrite lookup_empty.
  split; [done|]. intros (? & i & [= -> ->]%lookup_empty_bins). done.
Qed.

Lemma mask_pow2 e : 2 ≤ e ≤ 31 → wrap32 (2 ^ N.of_nat e + 2 ^ 32 - 1) = (2 ^ N.of_nat e - 1)%N.
Proof.
  intros He. pose proof (pow2_32 e ltac:(lia)). assert (0 < 2 ^ N.of_nat e)%N by lia.
  unfold wrap32. replace (2 ^ N.of_nat e + 2 ^ 32 - 1)%N with (2 ^ N.of_nat e - 1 + 1 * 2 ^ 32)%N by lia.
  rewrite N.Div0.mod_add. apply N.mod_small. lia.
Qed.

Lemma pow2_half e : 1 ≤ e → 2 ^ e = 2 * (2 ^ e / 2).
Proof.
  intros He. destruct e as [|e]; [lia|]. rewrite Nat.pow_succ_r', (Nat.mul_comm 2 (2 ^ e)).
  rewrite Nat.div_mul by lia. lia.
Qed.

Lemma load_small e : 2 ≤ e → S (2 ^ e / 2) < 2 ^ e ∧ 2 + 2 ^ e / 2 ≤ S (2 ^ S e / 2).
Proof.
  intros He. assert (4 ≤ 2 ^ e).
  { change 4 with (2 ^ 2). apply Nat.pow_le_mono_r; lia. }
  rewrite Nat.pow_succ_r', (Nat.mul_comm 2 (2 ^ e)), Nat.div_mul by lia.
  pose proof (pow2_half e ltac:(lia)). lia.
Qed.

Lemma resize_spec e t m :
  ht_wf e t → bins_repr (ht_table t) m → S e ≤ 31 →
  ∃ t', ht_resize (wrap32 (N.shiftl (ht_capacity t) 1)) t = Ok t' ∧ ht_wf (S e) t' ∧
    bins_repr (ht_table t') m ∧ n_occupied (ht_table t') ≤ S (2 ^ e / 2).
Proof.
  intros [Hwf Hcap Hmask Hthr Hsize Hload] Hrep He. pose proof (bw_exp _ _ Hwf).
  assert (wrap32 (N.shiftl (ht_capacity t) 1) = 2 ^ N.of_nat (S e))%N as ->.
  { rewrite Hcap, N.shiftl_mul_pow2, Nat2N.inj_succ, N.pow_succ_r' .
    rewrite N.mul_comm. change (2 ^ 1)%N with 2%N. rewrite <- N.pow_succ_r', <- Nat2N.inj_succ.
    apply wrap32_small, pow2_32. lia. }
  unfold ht_resize. rewrite mask_pow2 by lia.
  pose proof (load_small e ltac:(lia)). pose proof (load_small (S e) ltac:(lia)).
  destruct (rehash_spec (S e) (ht_table t) (empty_bins (2 ^ N.of_nat (S e))) ∅)
    as (bins' & -> & Hwf' & Hrep').
  { apply empty_bins_wf. lia. } { apply empty_bins_repr. } { by eapply bins_NoDup. }
  { intros. apply lookup_empty. } { rewrite n_occupied_empty. lia. }
  rewrite (right_id_L ∅ (∪)), (bins_map e _ m) in Hrep' by done.
  assert (n_occupied bins' = n_occupied (ht_table t)) as Hocc
    by (by rewrite (br_size _ _ Hrep'), (br_size _ _ Hrep)).
  eexists. split; [done|]. simpl. split_and!; [|done|lia].
  split; simpl; try done; lia.
Qed.

(** ** Functional behaviour of the operations *)

Lemma key_nonzero key : key ≠ 0%N → negb (key =? 0)%N = true.
Proof. intros. by rewrite (proj2 (N.eqb_neq _ _)). Qed.

Lemma search_spec t m key :
  ht_repr t m → key ≠ 0%N →
  ∃ i v, ht_probe (S (length (ht_table t))) (ht_table t) (ht_capacitymask t) key (ht_index key)
    = Ok (i, v, bool_decide (is_Some (m !! key))) ∧ (is_Some (m !! key) → m !! key = Some v).
Proof.
  intros (e & [Hwf Hcap Hmask Hthr Hsize Hload] & Hrep) Hkey.
  pose proof (bw_exp _ _ Hwf). pose proof (load_small e ltac:(lia)).
  destruct (probe_search e (ht_table t) m key) as (d & k & v & Hd & Hb & Hp & Hocc & Hm);
    [done|done|lia|done|].
  exists (slot (2 ^ e) key d), v. rewrite Hmask, Hp. destruct Hm as [[-> ->]|[-> ->]].
  - rewrite N.eqb_refl. done.
  - rewrite (proj2 (N.eqb_neq _ _)) by done. by split; [|intros []].
Qed.

Lemma ht_get_spec t m key :
  ht_repr t m → key ≠ 0%N → ht_get key t = Ok (default vzero (m !! key)).
Proof.
  intros Hrep Hkey. unfold ht_get. rewrite key_nonzero by done; simpl.
  destruct (search_spec t m key Hrep Hkey) as (i & v & Hp & Hv). simpl in Hp. rewrite Hp; simpl.
  case_tests; [by rewrite Hv|]. by rewrite (proj2 (eq_None_not_Some (m !! key))).
Qed.

Lemma ht_contains_spec t m key :
  ht_repr t m → key ≠ 0%N → ht_contains key t = Ok (bool_decide (is_Some (m !! key))).
Proof.
  intros Hrep Hkey. unfold ht_contains. rewrite key_nonzero by done; simpl.
  destruct (search_spec t m key Hrep Hkey) as (i & v & Hp & Hv). simpl in Hp. by rewrite Hp.
Qed.

(** The part of [put] after the resize test. *)
Lemma put_in_place e t m key v :
  ht_wf e t → bins_repr (ht_table t) m → key ≠ 0%N →
  n_occupied (ht_table t) < S (2 ^ e / 2) →
  ∃ i w found, ht_probe (S (length (ht_table t))) (ht_table t) (ht_capacitymask t) key (ht_index key)
      = Ok (i, w, found) ∧
    let t' := mkHashTable (<[i := (key, v)]> (ht_table t)) (ht_capacity t)
                (if (found : bool) then ht_size t else wrap32 (ht_size t + 1))
                (ht_capacitymask t) (ht_threshold t) in
    ht_wf e t' ∧ bins_repr (ht_table t') (<[key := v]> m).
Proof.
  intros [Hwf Hcap Hmask Hthr Hsize Hload] Hrep Hkey Hn. pose proof (bw_exp _ _ Hwf).
  pose proof (load_small e ltac:(lia)).
  destruct (probe_search e (ht_table t) m key) as (d & k & w & Hd & Hb & Hp & Hocc & Hm);
    [done|done|lia|done|].
  rewrite Hmask, Hp. eexists _, _, _. split; [done|].
  destruct Hm as [[-> Hm]|[-> Hm]].
  - pose proof (repr_overwrite _ _ m _ _ w v Hwf Hrep Hb Hkey) as Hrep'. rewrite N.eqb_refl.
    split; [|done]. pose proof (br_size _ _ Hrep') as Hsz. rewrite map_size_insert_Some in Hsz by eauto.
    pose proof (br_size _ _ Hrep).
    split; simpl; try done; [by eapply same_key_wf|lia..].
  - pose proof (repr_place _ m _ key v w Hrep Hb Hkey Hm) as Hrep'.
    rewrite (proj2 (N.eqb_neq _ _)) by done. split; [|done].
    pose proof (br_size _ _ Hrep') as Hsz. rewrite map_size_insert_None in Hsz by done.
    pose proof (br_size _ _ Hrep). pose proof (pow2_32 e ltac:(lia)). pose proof (to_nat_pow2 e).
    split; simpl; try done; [|rewrite wrap32_small by lia; lia|lia].
    eapply place_wf; eauto. intros i [w' Hw'].
    assert (m !! key = Some w') by (apply (br_entries _ _ Hrep); eauto). congruence.
Qed.

Lemma ht_put_spec t m key v :
  ht_repr t m → key ≠ 0%N → (N.of_nat (size m) <= 2 ^ 30)%N →
  ∃ t', ht_put key v t = Ok t' ∧ ht_repr t' (<[key := v]> m).
Proof.
  intros (e & Hwf & Hrep) Hkey Hfit. unfold ht_put. rewrite key_nonzero by done; simpl.
  pose proof (br_size _ _ Hrep) as Hsz. destruct Hwf as [Hb Hcap Hmask Hthr Hsize Hload] eqn:Ewf.
  pose proof (bw_exp _ _ Hb). pose proof (load_small e ltac:(lia)).
  assert (N.to_nat (2 ^ N.of_nat e / 2) = 2 ^ e / 2) as Hhalf
    by (rewrite N2Nat.inj_div, to_nat_pow2; done).
  destruct (N.ltb_spec (ht_threshold t) (ht_size t)) as [Hover|Hunder].
  - assert (e ≠ 31) as He.
    { intros ->. rewrite Hthr in Hover. change (2 ^ N.of_nat 31 / 2)%N with (2 ^ 30)%N in Hover. lia. }
    destruct (resize_spec e t m Hwf Hrep ltac:(lia)) as (t1 & -> & Hwf1 & Hrep1 & Hocc1); simpl.
    destruct (put_in_place (S e) t1 m key v Hwf1 Hrep1 Hkey) as (i & w & f & Hp & Hwf' & Hrep'); [lia|].
    simpl in Hp. rewrite Hp; simpl. eexists. split; [done|]. by exists (S e).
  - simpl. destruct (put_in_place e t m key v Hwf Hrep Hkey) as (i & w & f & Hp & Hwf' & Hrep'); [lia|].
    simpl in Hp. rewrite Hp; simpl. eexists. split; [done|]. by exists e.
Qed.

Lemma new_HashTable_repr (e : nat) :
  2 ≤ e ≤ 31 → ht_repr (new_HashTable (2 ^ N.of_nat e)) ∅.
Proof.
  intros He. exists e. split; [|apply empty_bins_repr].
  split; simpl; try done; try (rewrite n_occupied_empty; lia).
  - by apply empty_bins_wf.
  - by apply mask_pow2.
Qed.

Lemma ht_reset_repr t m : ht_repr t m → ht_repr (ht_reset t) ∅.
Proof.
  intros (e & [Hb Hcap Hmask Hthr Hsize Hload] & Hrep). exists e.
  split; [|apply empty_bins_repr]. split; simpl; try done; try (rewrite n_occupied_empty; lia).
  rewrite Hcap. apply empty_bins_wf. by apply (bw_exp _ _ Hb).
Qed.
End HashTable.

Arguments HashTable : clear implicits.

(** ** The interface used by the clients *)

(** What a table keyed by non-NULL words promises: it behaves as a finite map for
    as long as the number of keys is one the table can hold. *)
Class PtrTable (T V : Type) := {
  pt_get : N → T → result (option V);
  pt_contains : N → T → result bool;
  pt_put : N → V → T → result T;
  pt_reset : T → T;
  pt_repr : T → gmap N V → Prop;
  pt_fits : nat → Prop;
  pt_get_spec t m k : pt_repr t m → k ≠ 0%N → pt_get k t = Ok (m !! k);
  pt_contains_spec t m k :
    pt_repr t m → k ≠ 0%N → pt_contains k t = Ok (bool_decide (is_Some (m !! k)));
  pt_put_spec t m k v : pt_repr t m → k ≠ 0%N → pt_fits (size m) →
    ∃ t', pt_put k v t = Ok t' ∧ pt_repr t' (<[k := v]> m);
  pt_reset_spec t m : pt_repr t m → pt_repr (pt_reset t) ∅
}.

(** A finite map is a table of unbounded capacity. *)
#[export, program] Instance gmap_PtrTable V : PtrTable (gmap N V) V := {
  pt_get k t := Ok (t !! k);
  pt_contains k t := Ok (bool_decide (is_Some (t !! k)));
  pt_put k v t := Ok (<[k := v]> t);
  pt_reset t := ∅;
  pt_repr t m := t = m;
  pt_fits n := True
}.
Solve All Obligations with naive_solver.

(** The hash table of pointers: NULL values stand for absent keys. *)
#[export, program] Instance HashTable_PtrTable V shift : PtrTable (HashTable (option V)) V := {
  pt_get := ht_get None shift;
  pt_contains := ht_contains shift;
  pt_put k v := ht_put None shift k (Some v);
  pt_reset := ht_reset None;
  pt_repr t m := ht_repr shift t (Some <$> m);
  pt_fits n := (N.of_nat n <= 2 ^ 30)%N
}.
Next Obligation.
  intros V shift t m k Hrep Hk. cbv beta in *. rewrite (ht_get_spec _ _ _ _ _ Hrep Hk). rewrite lookup_fmap.
  by destruct (m !! k).
Qed.
Next Obligation.
  intros V shift t m k Hrep Hk. cbv beta in *. rewrite (ht_contains_spec _ _ _ _ Hrep Hk). rewrite lookup_fmap.
  f_equal. apply bool_decide_ext. apply fmap_is_Some.
Qed.
Next Obligation.
  intros V shift t m k v Hrep Hk Hfit.
  destruct (ht_put_spec None shift t (Some <$> m) k (Some v) Hrep Hk) as (t' & ? & ?).
  { by rewrite map_size_fmap. }
  exists t'. split; [done|]. by rewrite fmap_insert.
Qed.
Next Obligation.
  intros V shift t m Hrep. cbv beta in *. rewrite fmap_empty. by eapply ht_reset_repr.
Qed.

(** ** Properties *)

(** C15. The open-addressing table implements a finite map. On a table that stands
    for a map [m], [get] and [contains] terminate and answer as [m] does, and
    [put] terminates and yields a table that stands for the updated map, through
    any resize it performs, as long as the table holds at most 2^30 keys. *)
Theorem HashTable_refines_map {V} (vzero : V) (shift : N) t m (k : N) (v : V) :
  ht_repr shift t m → k ≠ 0%N →
  ht_get vzero shift k t = Ok (default vzero (m !! k)) ∧
  ht_contains shift k t = Ok (bool_decide (is_Some (m !! k))) ∧
  ((N.of_nat (size m) <= 2 ^ 30)%N →
   ∃ t', ht_put vzero shift k v t = Ok t' ∧ ht_repr shift t' (<[k := v]> m)).
Proof.
  intros Hrep Hk. split_and!; [by eapply ht_get_spec|by apply ht_contains_spec|].
  intros Hfit. by apply ht_put_spec.
Qed.

(** The hypotheses hold for the table of the cycle checker, [discovered(16)]. *)
Lemma HashTable_refines_map_witness :
  ht_repr 4 (new_HashTable (None : option ptr) 16) ∅ ∧
  ht_get None 4 0x7f00 (new_HashTable (None : option ptr) 16) = Ok None.
Proof.
  pose proof (new_HashTable_repr (None : option ptr) 4 4 ltac:(lia)) as Hr.
  change (2 ^ N.of_nat 4)%N with 16%N in Hr. split; [exact Hr|].
  destruct (HashTable_refines_map None 4 _ _ 0x7f00 None Hr ltac:(done)) as [Hg _]. exact Hg.
Defined.
