(* ===== verification/Promise.v ===== *)
(** * Promises of future values (promise.h, promise.cc)

    A [Promise] is an obligation: its readers have read a value that some thread
    still has to write. It keeps the set of threads that may resolve it, as a
    growing vector of flags with a counter, and fails when that set is empty. *)

From S2P Require Import Prelude ClockVector Action.

(** ** Data *)

Record future_value := mkFutureValue {
  fv_value : N;
  fv_expiration : modelclock_t;
  fv_tid : thread_id_t
}.

Record Promise := mkPromise {
  p_available_thread : list bool;
  p_was_available_thread : list bool;
  p_num_available_threads : Z;
  p_num_was_available_threads : Z;
  p_fv : future_value;
  p_readers : list ptr;
  p_write : option ptr
}.

#[global] Instance future_value_eq_dec : EqDecision future_value.
Proof. solve_decision. Defined.
#[global] Instance Promise_eq_dec : EqDecision Promise.
Proof. solve_decision. Defined.

(** ** Operations *)

Definition thread_is_available (p : Promise) (tid : thread_id_t) : bool :=
  let id := id_to_int tid in
  if length (p_available_thread p) <=? id then false
  else default false (p_available_thread p !! id).

Definition thread_was_available (p : Promise) (tid : thread_id_t) : bool :=
  let id := id_to_int tid in
  if length (p_was_available_thread p) <=? id then false
  else default false (p_was_available_thread p !! id).

Definition max_available_thread_idx (p : Promise) : nat := length (p_available_thread p).
Definition get_num_available_threads (p : Promise) : Z := p_num_available_threads p.
Definition has_failed (p : Promise) : bool := (p_num_available_threads p =? 0)%Z.
Definition get_reader (p : Promise) (i : nat) : option ptr :=
  if i <? length (p_readers p) then p_readers p !! i else None.
Definition get_value (p : Promise) : N := fv_value (p_fv p).
Definition get_expiration (p : Promise) : modelclock_t := fv_expiration (p_fv p).

Definition set_available (l : list bool) (n : Z) (p : Promise) : Promise :=
  mkPromise l (p_was_available_thread p) n (p_num_was_available_threads p) (p_fv p)
    (p_readers p) (p_write p).
Definition set_was_available (l : list bool) (n : Z) (p : Promise) : Promise :=
  mkPromise (p_available_thread p) l (p_num_available_threads p) n (p_fv p)
    (p_readers p) (p_write p).
Definition push_reader (r : ptr) (p : Promise) : Promise :=
  mkPromise (p_available_thread p) (p_was_available_thread p) (p_num_available_threads p)
    (p_num_was_available_threads p) (p_fv p) (p_readers p ++ [r]) (p_write p).
Definition set_write (w : option ptr) (p : Promise) : Promise :=
  mkPromise (p_available_thread p) (p_was_available_thread p) (p_num_available_threads p)
    (p_num_was_available_threads p) (p_fv p) (p_readers p) w.

(** True iff this elimination invalidated the promise. *)
Definition eliminate_thread (tid : thread_id_t) (p : Promise) : Promise * bool :=
  let id := id_to_int tid in
  if negb (thread_is_available p tid) then (p, false)
  else
    let p := set_available (<[id := false]> (p_available_thread p))
               (p_num_available_threads p - 1)%Z p in
    (p, has_failed p).

(** Set the flag of [id] in a vector that grows on demand, counting new flags. *)
Definition mark (id : nat) (l : list bool) (n : Z) : list bool * Z :=
  let l := if length l <=? id then grow (id + 1) false l else l in
  if negb (default false (l !! id)) then (<[id := true]> l, (n + 1)%Z) else (l, n).

Definition add_thread (tid : thread_id_t) (p : Promise) : Promise :=
  let id := id_to_int tid in
  let '(l, n) := mark id (p_available_thread p) (p_num_available_threads p) in
  let p := set_available l n p in
  let '(l, n) := mark id (p_was_available_thread p) (p_num_was_available_threads p) in
  set_was_available l n p.

(** The constructor; [read_tid] is the thread of the action [read]. *)
Definition new_Promise (read : ptr) (read_tid : thread_id_t) (fv : future_value) : Promise :=
  let p := mkPromise [] [] 0 0 fv [read] None in
  let p := add_thread (fv_tid fv) p in
  (eliminate_thread read_tid p).1.

Definition add_reader (reader : ptr) (reader_tid : thread_id_t) (p : Promise) : Promise * bool :=
  eliminate_thread reader_tid (push_reader reader p).

Section compatibility.
Context (acts : gmap ptr ModelAction).

Definition same_location (p : Promise) (act : ModelAction) : result bool :=
  r ← deref (get_reader p 0);
  ra ← deref (acts !! r);
  Ok (same_var ra act).

Definition is_compatible (p : Promise) (act : ModelAction) : result bool :=
  if thread_is_available p (a_tid act) then same_location p act else Ok false.

Definition is_compatible_exclusive (p : Promise) (act : ModelAction) : result bool :=
  if (get_num_available_threads p =? 1)%Z then is_compatible p act else Ok false.

Definition same_value (p : Promise) (write : ModelAction) : result bool :=
  v ← get_write_value write;
  Ok (get_value p =? v)%N.
End compatibility.

(** ** The set of available threads *)

Lemma thread_is_available_lookup p tid :
  thread_is_available p tid = default false (p_available_thread p !! tid).
Proof.
  unfold thread_is_available, id_to_int. case_tests; [|done].
  by rewrite lookup_ge_None_2 by lia.
Qed.

Lemma thread_was_available_lookup p tid :
  thread_was_available p tid = default false (p_was_available_thread p !! tid).
Proof.
  unfold thread_was_available, id_to_int. case_tests; [|done].
  by rewrite lookup_ge_None_2 by lia.
Qed.

Lemma mark_spec id l n l' n' :
  mark id l n = (l', n') →
  (∀ i : nat, default false (l' !! i) = if decide (i = id) then true else default false (l !! i)) ∧
  (n = Z.of_nat (count_true l) → n' = Z.of_nat (count_true l')).
Proof.
  unfold mark. set (l1 := if length l <=? id then grow (id + 1) false l else l).
  assert (id < length l1) as Hid.
  { unfold l1. case_tests; rewrite ?length_grow; lia. }
  assert (∀ i : nat, default false (l1 !! i) = default false (l !! i)) as Hl1.
  { intros i. unfold l1. case_tests; [|done]. rewrite lookup_grow.
    repeat case_decide; simpl; rewrite ?(lookup_ge_None_2 l i) by lia; done. }
  assert (count_true l1 = count_true l) as Hc.
  { unfold l1. case_tests; [|done]. apply count_true_grow. }
  destruct (lookup_lt_is_Some_2 l1 id Hid) as [b Hb]. rewrite Hb. simpl.
  destruct b; simpl; intros [= <- <-]; split.
  - intros i. case_decide; subst; [by rewrite Hb|done].
  - by rewrite Hc.
  - intros i. case_decide; subst; [by rewrite list_lookup_insert_eq|].
    by rewrite list_lookup_insert_ne by done.
  - intros ->. pose proof (count_true_insert l1 id false true Hb). simpl in *. lia.
Qed.

(** The representation invariant: the counters count the flags, and whoever is
    available was made available. *)
Record promise_wf (p : Promise) : Prop := {
  pw_num : p_num_available_threads p = Z.of_nat (count_true (p_available_thread p));
  pw_was : p_num_was_available_threads p = Z.of_nat (count_true (p_was_available_thread p));
  pw_sub : ∀ tid, thread_is_available p tid = true → thread_was_available p tid = true
}.

Lemma has_failed_spec p : promise_wf p → has_failed p = true ↔ ∀ tid, thread_is_available p tid = false.
Proof.
  intros [Hn _ _]. unfold has_failed. rewrite Z.eqb_eq, Hn.
  change 0%Z with (Z.of_nat 0). rewrite Nat2Z.inj_iff, count_true_zero.
  setoid_rewrite thread_is_available_lookup.
  split; intros H i; specialize (H i); destruct (p_available_thread p !! i) as [[]|]; naive_solver.
Qed.

Lemma eliminate_thread_spec tid p p' b :
  promise_wf p → eliminate_thread tid p = (p', b) →
  promise_wf p' ∧
  (∀ t, thread_is_available p' t = if decide (t = tid) then false else thread_is_available p t) ∧
  (∀ t, thread_was_available p' t = thread_was_available p t) ∧
  (b = true ↔ thread_is_available p tid = true ∧ ∀ t, t ≠ tid → thread_is_available p t = false).
Proof.
  intros [Hn Hw Hs]. unfold eliminate_thread, id_to_int. destruct (thread_is_available p tid) eqn:Ha; simpl.
  - set (p1 := set_available _ _ p). intros [= <- <-].
    assert (p_available_thread p !! tid = Some true) as Hl.
    { rewrite thread_is_available_lookup in Ha. by destruct (p_available_thread p !! tid) as [[]|]. }
    assert (∀ t, thread_is_available p1 t = if decide (t = tid) then false else thread_is_available p t) as Hav.
    { intros t. rewrite !thread_is_available_lookup. simpl. case_decide; subst.
      - rewrite list_lookup_insert_eq; [done|]. by eapply lookup_lt_Some.
      - by rewrite list_lookup_insert_ne by done. }
    assert (promise_wf p1) as Hwf.
    { split; [|done|].
      - pose proof (count_true_insert (p_available_thread p) tid true false Hl). simpl in *. lia.
      - intros t. rewrite Hav. case_decide; [done|]. apply Hs. }
    split_and!; [done|done|done|]. rewrite (has_failed_spec _ Hwf). setoid_rewrite Hav.
    split.
    + intros H. split; [done|]. intros t Ht. specialize (H t). by destruct (decide (t = tid)).
    + intros [_ H] t. destruct (decide (t = tid)); auto.
  - intros [= <- <-]. split_and!; [done| |done|naive_solver].
    intros t. destruct (decide (t = tid)) as [->|]; done.
Qed.

Lemma add_thread_spec tid p :
  promise_wf p →
  promise_wf (add_thread tid p) ∧
  (∀ t, thread_is_available (add_thread tid p) t = if decide (t = tid) then true else thread_is_available p t) ∧
  (∀ t, thread_was_available (add_thread tid p) t = if decide (t = tid) then true else thread_was_available p t).
Proof.
  intros [Hn Hw Hs]. unfold add_thread, id_to_int.
  destruct (mark tid (p_available_thread p) _) as [l n] eqn:E1.
  destruct (mark tid (p_was_available_thread (set_available l n p)) _) as [l' n'] eqn:E2.
  destruct (mark_spec _ _ _ _ _ E1) as [A1 C1], (mark_spec _ _ _ _ _ E2) as [A2 C2].
  assert (∀ t, thread_is_available (set_was_available l' n' (set_available l n p)) t =
            if decide (t = tid) then true else thread_is_available p t) as H1.
  { intros t. rewrite !thread_is_available_lookup. apply A1. }
  assert (∀ t, thread_was_available (set_was_available l' n' (set_available l n p)) t =
            if decide (t = tid) then true else thread_was_available p t) as H2.
  { intros t. rewrite !thread_was_available_lookup. apply A2. }
  split_and!; [|done|done]. split; [by apply C1|by apply C2|].
  intros t. rewrite H1, H2. case_decide; [done|]. apply Hs.
Qed.

Lemma new_Promise_spec read rtid fv :
  let p := new_Promise read rtid fv in
  promise_wf p ∧ (∀ t, thread_is_available p t = bool_decide (t = fv_tid fv ∧ t ≠ rtid)) ∧
  get_reader p 0 = Some read ∧ p_fv p = fv.
Proof.
  simpl. unfold new_Promise. set (p0 := mkPromise [] [] 0 0 fv [read] None).
  assert (promise_wf p0) as Hwf0 by by split.
  destruct (add_thread_spec (fv_tid fv) p0 Hwf0) as (Hwf1 & A1 & _).
  assert (p_readers (add_thread (fv_tid fv) p0) = [read] ∧ p_fv (add_thread (fv_tid fv) p0) = fv) as [R1 F1].
  { unfold add_thread. do 2 case_match. done. }
  destruct (eliminate_thread rtid (add_thread (fv_tid fv) p0)) as [p b] eqn:E.
  destruct (eliminate_thread_spec _ _ _ _ Hwf1 E) as (Hwf & A & _ & _). simpl.
  assert (p_readers p = [read] ∧ p_fv p = fv) as [R F].
  { unfold eliminate_thread in E. case_match; simplify_eq; done. }
  split_and!; [done| | |done].
  - intros t. rewrite A, A1. repeat case_decide; case_bool_decide; naive_solver.
  - unfold get_reader. by rewrite R.
Qed.

(** ** Steps of a promise's life *)

(** Every change an execution makes to a promise after creating it. *)
Inductive promise_step : Promise → Promise → Prop :=
  | ps_eliminate p tid : promise_step p (eliminate_thread tid p).1
  | ps_add_thread p tid : promise_step p (add_thread tid p)
  | ps_add_reader p r tid : promise_step p (add_reader r tid p).1
  | ps_set_write p w : promise_step p (set_write w p).

Lemma promise_step_wf p p' : promise_wf p → promise_step p p' → promise_wf p'.
Proof.
  intros Hwf. destruct 1 as [p tid|p tid|p r tid|p w].
  - destruct (eliminate_thread tid p) as [p' b] eqn:E. by apply (eliminate_thread_spec _ _ _ _ Hwf E).
  - by apply add_thread_spec.
  - unfold add_reader. destruct (eliminate_thread tid (push_reader r p)) as [p' b] eqn:E.
    assert (promise_wf (push_reader r p)) as Hwf' by by destruct Hwf.
    by apply (eliminate_thread_spec _ _ _ _ Hwf' E).
  - by destruct Hwf.
Qed.

Lemma promise_steps_wf p p' : promise_wf p → rtc promise_step p p' → promise_wf p'.
Proof. intros Hwf. induction 1 as [|p1 p2 p3 H12 H23 IH]; [done|]. by eapply IH, promise_step_wf. Qed.

(** ** Properties *)

(** In every state a promise can reach from its constructor, the counters agree
    with the flag vectors, and [has_failed] holds exactly when no thread is left
    that may resolve the promise. *)
Theorem promise_failure_exact read rtid fv p :
  rtc promise_step (new_Promise read rtid fv) p →
  promise_wf p ∧ (has_failed p = true ↔ ∀ tid, thread_is_available p tid = false).
Proof.
  intros Hsteps. destruct (new_Promise_spec read rtid fv) as (Hwf0 & _).
  pose proof (promise_steps_wf _ _ Hwf0 Hsteps) as Hwf. split; [done|]. by apply has_failed_spec.
Qed.

(** A promise read by thread 1, to be resolved by thread 2, which is eliminated. *)
Lemma promise_failure_exact_witness :
  let p := (eliminate_thread 2 (new_Promise 5%positive 1 (mkFutureValue 7 10 2))).1 in
  has_failed p = true ∧ ∀ tid, thread_is_available p tid = false.
Proof.
  intros p. split; [reflexivity|].
  apply (promise_failure_exact 5%positive 1 (mkFutureValue 7 10 2) p); [|reflexivity].
  apply rtc_once, ps_eliminate.
Defined.

(** Eliminating a thread removes exactly that thread from the available set, and
    reports failure exactly when it was the last available one. *)
Theorem eliminate_thread_exact tid p :
  promise_wf p →
  let '(p', invalidated) := eliminate_thread tid p in
  promise_wf p' ∧
  (∀ t, thread_is_available p' t = if decide (t = tid) then false else thread_is_available p t) ∧
  (invalidated = true ↔
     thread_is_available p tid = true ∧ ∀ t, t ≠ tid → thread_is_available p t = false).
Proof.
  intros Hwf. destruct (eliminate_thread tid p) as [p' b] eqn:E.
  by destruct (eliminate_thread_spec _ _ _ _ Hwf E) as (? & ? & _ & ?).
Qed.

Lemma eliminate_thread_exact_witness :
  promise_wf (new_Promise 5%positive 1 (mkFutureValue 7 10 2)) ∧
  (eliminate_thread 2 (new_Promise 5%positive 1 (mkFutureValue 7 10 2))).2 = true.
Proof.
  destruct (new_Promise_spec 5%positive 1 (mkFutureValue 7 10 2)) as (Hwf & Hav & _).
  split; [exact Hwf|].
  apply (eliminate_thread_exact 2 _ Hwf). split; [reflexivity|].
  intros t Ht. rewrite Hav. apply bool_decide_eq_false_2. intros [-> _]. by apply Ht.
Defined.
