(* ===== verification/CycleGraph.v ===== *)
(** * The modification-order graph (cyclegraph.h, cyclegraph.cc)

    Nodes are heap objects addressed by pointers; a node stands for a store or for
    a promised future value. Nodes are never freed, and every node pointer the
    code dereferences comes from the tables or from an edge, so the heap is read
    with a default (a node without edges), which [graph_wf] shows is never used. *)

From S2P Require Import Prelude ClockVector Action HashTable Promise.

(** ** Data *)

Record CycleNode := mkCycleNode {
  cn_action : option ptr;
  cn_promise : option ptr;
  cn_edges : list ptr;
  cn_back_edges : list ptr;
  cn_hasRMW : option ptr
}.

Record CycleGraph := mkCycleGraph {
  cg_nodes : gmap ptr CycleNode;        (* the heap of CycleNode objects *)
  cg_next : ptr;                        (* the next address handed out by new *)
  cg_actionToNode : gmap ptr ptr;
  cg_promiseToNode : gmap ptr (option ptr);
  cg_hasCycles : bool;
  cg_oldCycles : bool;
  cg_rollbackvector : list ptr;
  cg_rmwrollbackvector : list ptr
}.

#[global] Instance CycleNode_eq_dec : EqDecision CycleNode.
Proof. solve_decision. Defined.
#[global] Instance CycleGraph_eq_dec : EqDecision CycleGraph.
Proof. solve_decision. Defined.

Definition new_CycleGraph : CycleGraph :=
  mkCycleGraph ∅ 1 ∅ ∅ false false [] [].

Definition blank_node : CycleNode := mkCycleNode None None [] [] None.
Definition node_at (g : CycleGraph) (n : ptr) : CycleNode := default blank_node (cg_nodes g !! n).

(** Shorthands for the accessors [getEdge]/[getNumEdges], [getBackEdge]/
    [getNumBackEdges] and [getRMW] of a node. *)
Definition edges (g : CycleGraph) (n : ptr) : list ptr := cn_edges (node_at g n).
Definition back_edges (g : CycleGraph) (n : ptr) : list ptr := cn_back_edges (node_at g n).
Definition getRMW (g : CycleGraph) (n : ptr) : option ptr := cn_hasRMW (node_at g n).
Definition is_promise (g : CycleGraph) (n : ptr) : bool :=
  bool_decide (cn_action (node_at g n) = None).

Definition set_nodes (ns : gmap ptr CycleNode) (g : CycleGraph) : CycleGraph :=
  mkCycleGraph ns (cg_next g) (cg_actionToNode g) (cg_promiseToNode g)
    (cg_hasCycles g) (cg_oldCycles g) (cg_rollbackvector g) (cg_rmwrollbackvector g).
Definition set_hasCycles (b : bool) (g : CycleGraph) : CycleGraph :=
  mkCycleGraph (cg_nodes g) (cg_next g) (cg_actionToNode g) (cg_promiseToNode g)
    b (cg_oldCycles g) (cg_rollbackvector g) (cg_rmwrollbackvector g).
Definition push_rollback (n : ptr) (g : CycleGraph) : CycleGraph :=
  mkCycleGraph (cg_nodes g) (cg_next g) (cg_actionToNode g) (cg_promiseToNode g)
    (cg_hasCycles g) (cg_oldCycles g) (cg_rollbackvector g ++ [n]) (cg_rmwrollbackvector g).
Definition push_rmwrollback (n : ptr) (g : CycleGraph) : CycleGraph :=
  mkCycleGraph (cg_nodes g) (cg_next g) (cg_actionToNode g) (cg_promiseToNode g)
    (cg_hasCycles g) (cg_oldCycles g) (cg_rollbackvector g) (cg_rmwrollbackvector g ++ [n]).

(** Update of a node in place. *)
Definition with_edges (l : list ptr) (c : CycleNode) : CycleNode :=
  mkCycleNode (cn_action c) (cn_promise c) l (cn_back_edges c) (cn_hasRMW c).
Definition with_back_edges (l : list ptr) (c : CycleNode) : CycleNode :=
  mkCycleNode (cn_action c) (cn_promise c) (cn_edges c) l (cn_hasRMW c).
Definition with_RMW (r : option ptr) (c : CycleNode) : CycleNode :=
  mkCycleNode (cn_action c) (cn_promise c) (cn_edges c) (cn_back_edges c) r.
Definition update_node (n : ptr) (f : CycleNode → CycleNode) (g : CycleGraph) : CycleGraph :=
  set_nodes (<[n := f (node_at g n)]> (cg_nodes g)) g.

(** ** CycleNode methods *)

(** [CycleNode::addEdge]: false if the edge was already there. *)
Definition cn_addEdge (this node : ptr) (g : CycleGraph) : CycleGraph * bool :=
  if bool_decide (node ∈ edges g this) then (g, false)
  else
    let g := update_node this (λ c, with_edges (cn_edges c ++ [node]) c) g in
    (update_node node (λ c, with_back_edges (cn_back_edges c ++ [this]) c) g, true).

(** [CycleNode::removeEdge]: pop the last edge, and unlink the matching back edge. *)
Definition cn_removeEdge (this : ptr) (g : CycleGraph) : CycleGraph * option ptr :=
  match last (edges g this) with
  | None => (g, None)
  | Some ret =>
      let g := update_node this (λ c, with_edges (removelast (cn_edges c)) c) g in
      (update_node ret (λ c, with_back_edges (remove_first this (cn_back_edges c)) c) g, Some ret)
  end.

Definition cn_removeBackEdge (this : ptr) (g : CycleGraph) : CycleGraph * option ptr :=
  match last (back_edges g this) with
  | None => (g, None)
  | Some ret =>
      let g := update_node this (λ c, with_back_edges (removelast (cn_back_edges c)) c) g in
      (update_node ret (λ c, with_edges (remove_first this (cn_edges c)) c) g, Some ret)
  end.

(** [CycleNode::setRMW]: true if the node was already read by another RMW. *)
Definition setRMW (this node : ptr) (g : CycleGraph) : CycleGraph * bool :=
  match getRMW g this with
  | Some _ => (g, true)
  | None => (update_node this (with_RMW (Some node)) g, false)
  end.

Definition clearRMW (this : ptr) (g : CycleGraph) : CycleGraph := update_node this (with_RMW None) g.

(** ** Tables *)

Definition getNode_noCreate_action (g : CycleGraph) (act : ptr) : option ptr := cg_actionToNode g !! act.
Definition getNode_noCreate_promise (g : CycleGraph) (promise : ptr) : option ptr :=
  default None (cg_promiseToNode g !! promise).

Definition putNode_action (act node : ptr) (g : CycleGraph) : CycleGraph :=
  mkCycleGraph (cg_nodes g) (cg_next g) (<[act := node]> (cg_actionToNode g)) (cg_promiseToNode g)
    (cg_hasCycles g) (cg_oldCycles g) (cg_rollbackvector g) (cg_rmwrollbackvector g).
Definition putNode_promise (promise : ptr) (node : option ptr) (g : CycleGraph) : CycleGraph :=
  mkCycleGraph (cg_nodes g) (cg_next g) (cg_actionToNode g) (<[promise := node]> (cg_promiseToNode g))
    (cg_hasCycles g) (cg_oldCycles g) (cg_rollbackvector g) (cg_rmwrollbackvector g).
Definition erasePromiseNode (promise : ptr) (g : CycleGraph) : CycleGraph := putNode_promise promise None g.

(** [new CycleNode(...)] *)
Definition new_CycleNode (c : CycleNode) (g : CycleGraph) : CycleGraph * ptr :=
  (mkCycleGraph (<[cg_next g := c]> (cg_nodes g)) (Pos.succ (cg_next g)) (cg_actionToNode g)
     (cg_promiseToNode g) (cg_hasCycles g) (cg_oldCycles g) (cg_rollbackvector g)
     (cg_rmwrollbackvector g), cg_next g).

Definition getNode_action (act : ptr) (g : CycleGraph) : CycleGraph * ptr :=
  match getNode_noCreate_action g act with
  | Some n => (g, n)
  | None =>
      let '(g, n) := new_CycleNode (mkCycleNode (Some act) None [] [] None) g in
      (putNode_action act n g, n)
  end.

Definition getNode_promise (promise : ptr) (g : CycleGraph) : CycleGraph * ptr :=
  match getNode_noCreate_promise g promise with
  | Some n => (g, n)
  | None =>
      let '(g, n) := new_CycleNode (mkCycleNode None (Some promise) [] [] None) g in
      (putNode_promise promise (Some n) g, n)
  end.

(** The template parameters: a ModelAction or a Promise. *)
Inductive obj := OAct (a : ptr) | OProm (p : ptr).
#[global] Instance obj_eq_dec : EqDecision obj.
Proof. solve_decision. Defined.

Definition getNode (o : obj) (g : CycleGraph) : CycleGraph * ptr :=
  match o with OAct a => getNode_action a g | OProm p => getNode_promise p g end.
Definition getNode_noCreate (g : CycleGraph) (o : obj) : option ptr :=
  match o with OAct a => getNode_noCreate_action g a | OProm p => getNode_noCreate_promise g p end.

(** ** Reachability

    Depth-first search with the table [discovered] and the stack [queue]. Every
    node but the first is pushed as the target of an edge and at most once, so
    one iteration per edge, plus one, is enough fuel. *)

Definition all_targets (g : CycleGraph) : list ptr :=
  concat (cn_edges <$> (map_to_list (cg_nodes g)).*2).
Definition dfs_fuel (g : CycleGraph) : nat := S (S (length (all_targets g))).

Section search.
Context {T : Type} `{PtrTable T ptr}.

(** The inner loop: push every neighbour not yet discovered. *)
Fixpoint push_undiscovered (ns : list ptr) (disc : T) (queue : list ptr)
    : result (T * list ptr) :=
  match ns with
  | [] => Ok (disc, queue)
  | next :: ns =>
      seen ← pt_contains (Npos next) disc;
      if (seen : bool) then push_undiscovered ns disc queue
      else
        disc ← pt_put (Npos next) next disc;
        push_undiscovered ns disc (next :: queue)
  end.

Fixpoint checkReachable_loop (fuel : nat) (g : CycleGraph) (to : ptr) (disc : T)
    (queue : list ptr) : result bool :=
  match queue with
  | [] => Ok false
  | node :: queue =>
      match fuel with
      | O => Err OutOfFuel
      | S fuel =>
          if bool_decide (node = to) then Ok true
          else
            '(disc, queue) ← push_undiscovered (edges g node) disc queue;
            checkReachable_loop fuel g to disc queue
      end
  end.

(** [CycleGraph::checkReachable] on nodes, with the table it reuses. *)
Definition checkReachable_with (disc : T) (g : CycleGraph) (from to : ptr) : result bool :=
  disc ← pt_put (Npos from) from (pt_reset disc);
  checkReachable_loop (dfs_fuel g) g to disc [from].
End search.

(** The instance used by the rest of the model, with a finite map as [discovered]. *)
Definition checkReachable_nodes (g : CycleGraph) (from to : ptr) : bool :=
  match checkReachable_with (∅ : gmap N ptr) g from to with Ok b => b | Err _ => false end.

(** [CycleGraph::checkReachable] on actions and promises. *)
Definition checkReachable (g : CycleGraph) (from to : obj) : bool :=
  match getNode_noCreate g from, getNode_noCreate g to with
  | Some f, Some t => checkReachable_nodes g f t
  | _, _ => false
  end.

(** ** Adding edges *)

(** The end of the RMW chain that starts at [rmwnode], stopping at [tonode]. *)
Fixpoint rmw_chain_end (fuel : nat) (g : CycleGraph) (tonode rmwnode : ptr) : result ptr :=
  match fuel with
  | O => Err OutOfFuel
  | S fuel =>
      if bool_decide (rmwnode = tonode) then Ok rmwnode
      else match getRMW g rmwnode with
           | None => Ok rmwnode
           | Some r => rmw_chain_end fuel g tonode r
           end
  end.

Definition addNodeEdge (fromnode tonode : ptr) (g : CycleGraph) : result (CycleGraph * bool) :=
  let '(g, added) := cn_addEdge fromnode tonode g in
  if negb added then Ok (g, false)
  else
    let g := push_rollback fromnode g in
    let g := if cg_hasCycles g then g
             else set_hasCycles (checkReachable_nodes g tonode fromnode) g in
    match getRMW g fromnode with
    | None => Ok (g, true)
    | Some rmwnode =>
        rmwnode ← rmw_chain_end (S (size (cg_nodes g))) g tonode rmwnode;
        if bool_decide (rmwnode = tonode) then Ok (g, true)
        else
          let '(g, added) := cn_addEdge rmwnode tonode g in
          if negb added then Ok (g, true)
          else
            let g := if cg_hasCycles g then g
                     else set_hasCycles (checkReachable_nodes g tonode rmwnode) g in
            Ok (push_rollback rmwnode g, true)
    end.

(** The loop of [addRMWEdge] that transfers the outgoing edges of [fromnode]. *)
Fixpoint transfer_edges (ts : list ptr) (rmwnode : ptr) (g : CycleGraph) : CycleGraph :=
  match ts with
  | [] => g
  | tonode :: ts =>
      if bool_decide (tonode = rmwnode) then transfer_edges ts rmwnode g
      else
        let '(g, added) := cn_addEdge rmwnode tonode g in
        transfer_edges ts rmwnode (if (added : bool) then push_rollback rmwnode g else g)
  end.

Definition addRMWEdge (from : obj) (rmw : ptr) (g : CycleGraph) : result CycleGraph :=
  let '(g, fromnode) := getNode from g in
  let '(g, rmwnode) := getNode_action rmw g in
  _ ← ASSERT (bool_decide (getRMW g rmwnode = None));
  let '(g, already) := setRMW fromnode rmwnode g in
  let g := if (already : bool) then set_hasCycles true g else push_rmwrollback fromnode g in
  let g := transfer_edges (edges g fromnode) rmwnode g in
  '(g, _) ← addNodeEdge fromnode rmwnode g;
  Ok g.

Definition addEdge (from to : obj) (g : CycleGraph) : result (CycleGraph * bool) :=
  let '(g, fromnode) := getNode from g in
  let '(g, tonode) := getNode to g in
  addNodeEdge fromnode tonode g.

Definition checkForCycles (g : CycleGraph) : bool := cg_hasCycles g.

(** ** Commit and rollback *)

Definition startChanges (g : CycleGraph) : result unit :=
  _ ← ASSERT (bool_decide (cg_rollbackvector g = []));
  _ ← ASSERT (bool_decide (cg_rmwrollbackvector g = []));
  ASSERT (bool_decide (cg_oldCycles g = cg_hasCycles g)).

Definition commitChanges (g : CycleGraph) : CycleGraph :=
  mkCycleGraph (cg_nodes g) (cg_next g) (cg_actionToNode g) (cg_promiseToNode g)
    (cg_hasCycles g) (cg_hasCycles g) [] [].

Fixpoint rollback_edges (ns : list ptr) (g : CycleGraph) : CycleGraph :=
  match ns with
  | [] => g
  | n :: ns => rollback_edges ns (cn_removeEdge n g).1
  end.
Fixpoint rollback_rmws (ns : list ptr) (g : CycleGraph) : CycleGraph :=
  match ns with
  | [] => g
  | n :: ns => rollback_rmws ns (clearRMW n g)
  end.

Definition rollbackChanges (g : CycleGraph) : CycleGraph :=
  let g := rollback_edges (cg_rollbackvector g) g in
  let g := rollback_rmws (cg_rmwrollbackvector g) g in
  mkCycleGraph (cg_nodes g) (cg_next g) (cg_actionToNode g) (cg_promiseToNode g)
    (cg_oldCycles g) (cg_oldCycles g) [] [].

(** ** Promises *)
Section promises.
Context (acts : gmap ptr ModelAction).

(** The loop of [checkPromise]: eliminate from [p], the promise at address
    [promise], the thread of every store it visits. *)
Fixpoint checkPromise_loop (fuel : nat) (g : CycleGraph) (promise : ptr) (p : Promise)
    (disc : gmap N ptr) (queue : list ptr) : result (Promise * bool) :=
  match queue with
  | [] => Ok (p, false)
  | node :: queue =>
      match fuel with
      | O => Err OutOfFuel
      | S fuel =>
          if bool_decide (cn_promise (node_at g node) = Some promise) then Ok (p, true)
          else
            p ← match cn_action (node_at g node) with
                | None => Ok p
                | Some act => a ← deref (acts !! act); Ok (eliminate_thread (a_tid a) p).1
                end;
            '(disc, queue) ← push_undiscovered (edges g node) disc queue;
            checkPromise_loop fuel g promise p disc queue
      end
  end.

(** [CycleGraph::checkPromise]; a store without a node is a NULL key for [discovered]. *)
Definition checkPromise (fromact promise : ptr) (p : Promise) (g : CycleGraph) : result (Promise * bool) :=
  match getNode_noCreate_action g fromact with
  | None => Err AssertFailed
  | Some from =>
      checkPromise_loop (dfs_fuel g) g promise p {[ Npos from := from ]} [from]
  end.

Context (proms : gmap ptr Promise).

(** The two loops of [mergeNodes]; true when they ran to their end. *)
Fixpoint merge_back_edges (fuel : nat) (w p : ptr) (g : CycleGraph) : result (CycleGraph * bool) :=
  match back_edges g p with
  | [] => Ok (g, true)
  | _ =>
      match fuel with
      | O => Err OutOfFuel
      | S fuel =>
          let '(g, popped) := cn_removeBackEdge p g in
          back ← deref popped;
          if bool_decide (back = w) then merge_back_edges fuel w p g
          else
            '(g, _) ← addNodeEdge back w g;
            if cg_hasCycles g then Ok (g, false) else merge_back_edges fuel w p g
      end
  end.

Fixpoint merge_edges (fuel : nat) (w p : ptr) (g : CycleGraph) : result (CycleGraph * bool) :=
  match edges g p with
  | [] => Ok (g, true)
  | _ =>
      match fuel with
      | O => Err OutOfFuel
      | S fuel =>
          let '(g, popped) := cn_removeEdge p g in
          forward ← deref popped;
          if bool_decide (forward = w) then merge_edges fuel w p g
          else
            '(g, _) ← addNodeEdge w forward g;
            if cg_hasCycles g then Ok (g, false) else merge_edges fuel w p g
      end
  end.

(** The transfer of the RMW of [p_node]; false if [w_node] has another one. *)
Definition merge_rmw (w_node p_node : ptr) (g : CycleGraph) : CycleGraph * bool :=
  match getRMW g p_node with
  | None => (g, true)
  | Some promise_rmw =>
      if bool_decide (getRMW g w_node = Some promise_rmw) then (g, true)
      else let '(g, already) := setRMW w_node promise_rmw g in (g, negb already)
  end.

Definition mergeNodes (w_node p_node : ptr) (g : CycleGraph) : result (CycleGraph * bool) :=
  _ ← ASSERT (negb (is_promise g w_node));
  _ ← ASSERT (is_promise g p_node);
  promise ← deref (cn_promise (node_at g p_node));
  pr ← deref (proms !! promise);
  waddr ← deref (cn_action (node_at g w_node));
  w ← deref (acts !! waddr);
  compatible ← is_compatible acts pr w;
  if negb compatible then Ok (g, false)
  else
    same ← same_value pr w;
    if negb same then Ok (g, false)
    else
      let '(g, transferred) := merge_rmw w_node p_node g in
      if negb transferred then Ok (g, false)
      else
        '(g, done) ← merge_back_edges (length (back_edges g p_node)) w_node p_node g;
        if negb done then Ok (g, false)
        else
          '(g, done) ← merge_edges (length (edges g p_node)) w_node p_node g;
          if negb done then Ok (g, false)
          else
            let g := erasePromiseNode promise g in
            Ok (g, negb (cg_hasCycles g)).

(** [CycleNode::resolvePromise] *)
Definition cn_resolvePromise (this writer : ptr) (g : CycleGraph) : result CycleGraph :=
  _ ← ASSERT (is_promise g this);
  promise ← deref (cn_promise (node_at g this));
  pr ← deref (proms !! promise);
  w ← deref (acts !! writer);
  compatible ← is_compatible acts pr w;
  _ ← ASSERT compatible;
  Ok (update_node this (λ c, mkCycleNode (Some writer) None (cn_edges c) (cn_back_edges c) (cn_hasRMW c)) g).

(** [erasePromiseNode] of a possibly-NULL promise: the table refuses a NULL key. *)
Definition erasePromiseNode_ptr (promise : option ptr) (g : CycleGraph) : result CycleGraph :=
  match promise with
  | None => Err AssertFailed
  | Some p => Ok (erasePromiseNode p g)
  end.

Definition resolvePromise (promise writer : ptr) (g : CycleGraph) : result (CycleGraph * bool) :=
  match getNode_noCreate_promise g promise, getNode_noCreate_action g writer with
  | None, _ => Err AssertFailed
  | Some promise_node, Some w_node => mergeNodes w_node promise_node g
  | Some promise_node, None =>
      g ← cn_resolvePromise promise_node writer g;
      g ← erasePromiseNode_ptr (cn_promise (node_at g promise_node)) g;
      Ok (putNode_action writer promise_node g, true)
  end.
End promises.

(** ** The edge relation *)

Definition edge (g : CycleGraph) (a b : ptr) : Prop := b ∈ edges g a.
#[global] Instance edge_dec g a b : Decision (edge g a b).
Proof. unfold edge. apply _. Defined.
#[global] Typeclasses Opaque edge.
Definition reaches (g : CycleGraph) : ptr → ptr → Prop := rtc (edge g).
Definition acyclic (g : CycleGraph) : Prop := ∀ n, ¬ tc (edge g) n n.

Lemma edge_all_targets g a b : edge g a b → b ∈ all_targets g.
Proof.
  unfold edge, edges, node_at, all_targets. destruct (cg_nodes g !! a) as [c|] eqn:E; simpl; [|set_solver].
  intros Hb. apply list_elem_of_In, in_concat. exists (cn_edges c).
  split; [|by apply list_elem_of_In]. apply list_elem_of_In, list_elem_of_fmap. exists c.
  split; [done|]. apply list_elem_of_fmap. exists (a, c). split; [done|]. by apply elem_of_map_to_list.
Qed.

(** ** Correctness of the search *)
Section search_proofs.
Context {T : Type} `{PtrTable T ptr} (g : CycleGraph) (from to : ptr).

(** [disc] records exactly the nodes of [l]. *)
Definition discovered (disc : T) (l : list ptr) : Prop :=
  ∃ m, pt_repr disc m ∧ (∀ n, is_Some (m !! Npos n) ↔ n ∈ l) ∧ size m = length l.

Let U : list ptr := from :: all_targets g.
Hypothesis Hfits : ∀ n, n ≤ length U → pt_fits n.

Lemma discovered_contains disc l n :
  discovered disc l → pt_contains (Npos n) disc = Ok (bool_decide (n ∈ l)).
Proof.
  intros (m & Hrep & Hm & _). rewrite (pt_contains_spec _ m) by done.
  f_equal. by apply bool_decide_ext.
Qed.

Lemma discovered_put disc l n :
  discovered disc l → n ∉ l → length l ≤ length U →
  ∃ disc', pt_put (Npos n) n disc = Ok disc' ∧ discovered disc' (n :: l).
Proof.
  intros (m & Hrep & Hm & Hsz) Hn Hlen.
  destruct (pt_put_spec disc m (Npos n) n) as (disc' & ? & ?); [done|done|rewrite Hsz; auto|].
  exists disc'. split; [done|]. exists (<[Npos n := n]> m). split_and!; [done| |].
  - intros k. rewrite elem_of_cons, <- Hm. destruct (decide (k = n)) as [->|Hne].
    + rewrite lookup_insert_eq. naive_solver.
    + rewrite lookup_insert_ne by congruence. naive_solver.
  - simpl. rewrite map_size_insert_None, Hsz; [done|].
    apply eq_None_not_Some. by rewrite Hm.
Qed.

Lemma push_spec ns : ∀ disc queue l,
  discovered disc l → NoDup l → (∀ n, n ∈ ns → n ∈ U) → (∀ n, n ∈ l → n ∈ U) →
  ∃ new disc', push_undiscovered ns disc queue = Ok (disc', new ++ queue) ∧
    discovered disc' (new ++ l) ∧ NoDup (new ++ l) ∧
    (∀ n, n ∈ new → n ∈ ns) ∧ (∀ n, n ∈ ns → n ∈ new ++ l).
Proof.
  induction ns as [|x ns IH]; intros disc queue l Hd Hnd HU HlU; cbn [push_undiscovered].
  - exists [], disc. split_and!; set_solver.
  - rewrite (discovered_contains _ l) by done. simpl. destruct (bool_decide_reflect (x ∈ l)) as [Hx|Hx].
    + destruct (IH disc queue l) as (new & disc' & ? & ? & ? & ? & ?); [set_solver..|].
      exists new, disc'. split_and!; set_solver.
    + destruct (discovered_put disc l x) as (disc1 & -> & Hd1); [done|done|by apply NoDup_incl_length'|].
      destruct (IH disc1 (x :: queue) (x :: l)) as (new & disc' & ? & ? & ? & ? & ?);
        [done|by constructor|set_solver|set_solver|].
      exists (new ++ [x]), disc'. simpl. rewrite <- !(assoc_L (++)). split_and!; set_solver.
Qed.

(** A path from the discovered nodes to [to] passes through the queue. *)
Lemma path_through_queue queue P a :
  (∀ n, n ∈ P → n ≠ to ∧ ∀ b, edge g n b → b ∈ queue ++ P) →
  reaches g a to → a ∈ queue ++ P → ∃ n, n ∈ queue ∧ reaches g n to.
Proof.
  intros Hcl Hpath. induction Hpath as [a|a b c Hab Hbc IH]; intros Ha;
    apply elem_of_app in Ha as [Ha|Ha].
  - by exists a.
  - by destruct (Hcl a Ha).
  - exists a. split; [done|]. by eapply rtc_l.
  - apply IH; [done|]. by apply (Hcl a Ha).
Qed.

Lemma loop_spec fuel : ∀ disc queue P,
  discovered disc (queue ++ P) → NoDup (queue ++ P) → (∀ n, n ∈ queue ++ P → n ∈ U) →
  length U ≤ fuel + length P →
  (∀ n, n ∈ P → n ≠ to ∧ ∀ b, edge g n b → b ∈ queue ++ P) →
  ∃ b, checkReachable_loop fuel g to disc queue = Ok b ∧
    (b = true ↔ ∃ n, n ∈ queue ∧ reaches g n to).
Proof.
  induction fuel as [|fuel IH]; intros disc [|node queue] P Hd Hnd HU Hfuel Hcl; simpl;
    try (exists false; split; [done|set_solver]).
  - exfalso. pose proof (NoDup_incl_length' _ _ Hnd HU) as Hlen.
    rewrite length_app in Hlen. simpl in *. lia.
  - destruct (bool_decide_reflect (node = to)) as [->|Hne].
    { exists true. split; [done|]. split; [|done]. intros _. exists to. split; [set_solver|]. apply rtc_refl. }
    destruct (push_spec (edges g node) disc queue ((node :: queue) ++ P))
      as (new & disc' & -> & Hd' & Hnd' & Hnew & Hall); [done|done| |done|].
    { intros n Hn. right. by eapply edge_all_targets. }
    assert (new ++ (node :: queue) ++ P ≡ₚ (new ++ queue) ++ node :: P) as Hperm.
    { rewrite <- (assoc_L (++)). f_equiv. simpl. apply Permutation_middle. }
    destruct (IH disc' (new ++ queue) (node :: P)) as (b & Hb & Hiff).
    + destruct Hd' as (m & ? & Hm & Hsz). exists m. rewrite <- Hperm. by setoid_rewrite <- Hperm.
    + by rewrite <- Hperm.
    + intros n. rewrite <- Hperm. rewrite elem_of_app. intros [Hn|Hn]; [|by apply HU].
      right. eapply edge_all_targets. by apply Hnew.
    + change (length (node :: P)) with (S (length P)). lia.
    + intros n [->|Hn]%elem_of_cons.
      * split; [done|]. intros b Hb. rewrite <- Hperm. by apply Hall.
      * destruct (Hcl n Hn) as [? Hb]. split; [done|]. intros b' Hb'. rewrite <- Hperm.
        apply elem_of_app. right. by apply Hb.
    + exists b. split; [done|]. rewrite Hiff. split.
      * intros (n & [Hn|Hn]%elem_of_app & Hr).
        -- exists node. split; [set_solver|]. eapply rtc_l; [|done]. by apply Hnew.
        -- exists n. split; [set_solver|done].
      * intros (n & Hn & Hr). apply (path_through_queue (new ++ queue) (node :: P) n); [|done|].
        -- intros k [->|Hk]%elem_of_cons.
           ++ split; [done|]. intros c Hc. rewrite <- Hperm. by apply Hall.
           ++ destruct (Hcl k Hk) as [? Hb']. split; [done|]. intros c Hc. rewrite <- Hperm.
              apply elem_of_app. right. by apply Hb'.
        -- rewrite <- Hperm. set_solver.
Qed.

Lemma search_correct disc0 m0 :
  pt_repr disc0 m0 →
  ∃ b, checkReachable_with disc0 g from to = Ok b ∧ (b = true ↔ reaches g from to).
Proof.
  intros Hrep. unfold checkReachable_with.
  destruct (pt_put_spec (pt_reset disc0) ∅ (Npos from) from) as (disc & Hput & Hd);
    [by eapply pt_reset_spec|done|rewrite map_size_empty; apply Hfits; lia|].
  rewrite Hput; simpl.
  destruct (loop_spec (dfs_fuel g) disc [from] []) as (b & Hb & Hiff).
  - exists (<[Npos from := from]> ∅). split_and!; [done| |by rewrite map_size_insert_None].
    intros n. destruct (decide (n = from)) as [->|Hne].
    + rewrite lookup_insert_eq. set_solver.
    + rewrite lookup_insert_ne, lookup_empty by congruence. split; [by intros []|set_solver].
  - apply NoDup_singleton.
  - intros n. rewrite (right_id_L [] (++)). set_solver.
  - unfold dfs_fuel, U. simpl. lia.
  - set_solver.
  - exists b. simpl in Hb. split; [done|]. rewrite Hiff. set_solver.
Qed.
End search_proofs.

Lemma checkReachable_nodes_correct g from to :
  checkReachable_nodes g from to = true ↔ reaches g from to.
Proof.
  unfold checkReachable_nodes.
  destruct (search_correct (T := gmap N ptr) g from to) with (disc0 := (∅ : gmap N ptr)) (m0 := (∅ : gmap N ptr))
    as (b & -> & Hb); done.
Qed.

(** ** Well-formed graphs *)

Definition rmw_link (g : CycleGraph) (a b : ptr) : Prop := getRMW g a = Some b.

Record graph_wf (g : CycleGraph) : Prop := {
  gw_edges : ∀ n, NoDup (edges g n);
  gw_back_nodup : ∀ n, NoDup (back_edges g n);
  gw_back : ∀ a b, b ∈ edges g a ↔ a ∈ back_edges g b;
  gw_dom_edge : ∀ a b, edge g a b → b ∈ dom (cg_nodes g);
  gw_dom_rmw : ∀ a b, rmw_link g a b → b ∈ dom (cg_nodes g);
  gw_fresh : ∀ n, (cg_next g <= n)%positive → n ∉ dom (cg_nodes g);
  gw_act : ∀ a n, cg_actionToNode g !! a = Some n →
    n ∈ dom (cg_nodes g) ∧ cn_action (node_at g n) = Some a;
  gw_prom : ∀ p n, cg_promiseToNode g !! p = Some (Some n) →
    n ∈ dom (cg_nodes g) ∧ cn_action (node_at g n) = None ∧ cn_promise (node_at g n) = Some p;
  gw_rmw : ∀ n, ¬ tc (rmw_link g) n n
}.

(** What an operation that only touches edges leaves alone. *)
Record same_frame (g g' : CycleGraph) : Prop := {
  sf_dom : dom (cg_nodes g') = dom (cg_nodes g);
  sf_next : cg_next g' = cg_next g;
  sf_a2n : cg_actionToNode g' = cg_actionToNode g;
  sf_p2n : cg_promiseToNode g' = cg_promiseToNode g;
  sf_act : ∀ n, cn_action (node_at g' n) = cn_action (node_at g n);
  sf_prom : ∀ n, cn_promise (node_at g' n) = cn_promise (node_at g n);
  sf_old : cg_oldCycles g' = cg_oldCycles g
}.

#[global] Instance same_frame_preorder : PreOrder same_frame.
Proof. split; [by split|]. intros g1 g2 g3 [] []. split; congruence. Qed.

(** [g'] is [g] with the new edge [a -> b], in both directions. *)
Record edge_added (a b : ptr) (g g' : CycleGraph) : Prop := {
  ea_frame : same_frame g g';
  ea_new : ¬ edge g a b;
  ea_edges : ∀ n, edges g' n = edges g n ++ (if decide (n = a) then [b] else []);
  ea_back : ∀ n, back_edges g' n = back_edges g n ++ (if decide (n = b) then [a] else []);
  ea_rmw : ∀ n, getRMW g' n = getRMW g n
}.

Lemma node_at_update g n f m :
  node_at (update_node n f g) m = if decide (m = n) then f (node_at g n) else node_at g m.
Proof.
  unfold node_at at 1, update_node; simpl. case_decide as Hm; [subst|].
  - by rewrite lookup_insert_eq.
  - by rewrite lookup_insert_ne by done.
Qed.

Lemma node_in_dom g n : edges g n ≠ [] → n ∈ dom (cg_nodes g).
Proof.
  unfold edges, node_at. intros Hn. apply elem_of_dom. destruct (cg_nodes g !! n); [done|].
  by destruct Hn.
Qed.

Lemma cn_addEdge_spec a b g g' added :
  cn_addEdge a b g = (g', added) → a ∈ dom (cg_nodes g) → b ∈ dom (cg_nodes g) →
  if added then edge_added a b g g' ∧ cg_hasCycles g' = cg_hasCycles g ∧
                cg_rollbackvector g' = cg_rollbackvector g ∧
                cg_rmwrollbackvector g' = cg_rmwrollbackvector g
  else g' = g ∧ edge g a b.
Proof.
  unfold cn_addEdge. case_tests; intros [= <- <-] Ha Hb; [done|].
  split_and!; try done. split.
  - split; simpl; try done.
    + rewrite !dom_insert_L. set_solver.
    + intros m. rewrite !node_at_update. by repeat (case_decide; subst).
    + intros m. rewrite !node_at_update. by repeat (case_decide; subst).
  - done.
  - intros m. unfold edges. rewrite !node_at_update.
    repeat (case_decide; subst; simpl); rewrite ?app_nil_r; try done.
    all: unfold edges in *; by rewrite ?node_at_update, ?decide_True, ?decide_False by done.
  - intros m. unfold back_edges. rewrite !node_at_update.
    repeat (case_decide; subst; simpl); rewrite ?app_nil_r; try done.
  - intros m. unfold getRMW. rewrite !node_at_update. by repeat (case_decide; subst).
Qed.

(** ** Shape: the part of the graph that the answers depend on *)

#[global] Instance shape_equiv : Equiv CycleGraph := λ g g',
  ∀ n, edges g' n = edges g n ∧ back_edges g' n = back_edges g n ∧ getRMW g' n = getRMW g n.

#[global] Instance shape_equivalence : Equivalence (≡@{CycleGraph}).
Proof.
  split; red; unfold equiv, shape_equiv.
  - done.
  - intros g g' H n. destruct (H n) as (? & ? & ?). done.
  - intros g1 g2 g3 H1 H2 n. destruct (H1 n) as (? & ? & ?), (H2 n) as (? & ? & ?).
    split_and!; congruence.
Qed.

#[global] Instance edge_proper : Proper ((≡) ==> (=) ==> (=) ==> iff) edge.
Proof. intros g g' H a ? <- b ? <-. unfold edge. by destruct (H a) as (-> & _). Qed.

#[global] Instance reaches_proper : Proper ((≡) ==> (=) ==> (=) ==> iff) reaches.
Proof.
  intros g g' H a ? <- b ? <-. split; apply rtc_mono; intros x y; by rewrite H.
Qed.

#[global] Instance acyclic_proper : Proper ((≡) ==> iff) acyclic.
Proof.
  intros g g' H. split; intros Ha n Hn; apply (Ha n); eapply tc_mono; [|done| |done];
    intros x y; by rewrite H.
Qed.

#[global] Instance checkReachable_nodes_proper :
  Proper ((≡) ==> (=) ==> (=) ==> (=)) checkReachable_nodes.
Proof.
  intros g g' H a ? <- b ? <-. apply eq_true_iff_eq. by rewrite !checkReachable_nodes_correct, H.
Qed.

Lemma set_hasCycles_shape b g : set_hasCycles b g ≡ g.
Proof. done. Qed.
Lemma push_rollback_shape n g : push_rollback n g ≡ g.
Proof. done. Qed.

(** ** Adding one edge *)

Lemma edge_added_iff a b g g' x y :
  edge_added a b g g' → edge g' x y ↔ edge g x y ∨ (x = a ∧ y = b).
Proof.
  intros H. unfold edge. rewrite (ea_edges _ _ _ _ H), elem_of_app. case_decide; set_solver.
Qed.

Lemma edge_added_mono a b g g' : edge_added a b g g' → ∀ x y, reaches g x y → reaches g' x y.
Proof. intros H x y. apply rtc_mono. intros ??. rewrite (edge_added_iff _ _ _ _ _ _ H). auto. Qed.

Lemma tc_split a b g g' x y :
  edge_added a b g g' → tc (edge g') x y → tc (edge g) x y ∨ (reaches g' x a ∧ reaches g' b y).
Proof.
  intros H. induction 1 as [x y Hxy|x y z Hxy Hyz [IH|[IH1 IH2]]].
  - apply (edge_added_iff _ _ _ _ x y H) in Hxy as [Hxy|[-> ->]].
    + left. by apply tc_once.
    + right. split; apply rtc_refl.
  - apply (edge_added_iff _ _ _ _ x y H) in Hxy as [Hxy|[-> ->]].
    + left. by eapply tc_l.
    + right. split; [apply rtc_refl|]. by apply tc_rtc.
  - right. split; [by eapply rtc_l|done].
Qed.

(** A new edge closes a cycle exactly when its target reaches its source. *)
Lemma edge_added_acyclic a b g g' :
  edge_added a b g g' → acyclic g → acyclic g' ↔ ¬ reaches g' b a.
Proof.
  intros H Hac. split.
  - intros Hac' Hr. apply (Hac' a). eapply tc_rtc_r; [|done]. apply tc_once.
    apply (edge_added_iff _ _ _ _ a b H). auto.
  - intros Hnr n Hn. destruct (tc_split _ _ _ _ _ _ H Hn) as [Hc|[H1 H2]]; [by apply (Hac n)|].
    apply Hnr. by etrans.
Qed.

Lemma edge_added_wf a b g g' :
  edge_added a b g g' → graph_wf g → b ∈ dom (cg_nodes g) → graph_wf g'.
Proof.
  intros H [W1 W2 W3 W4 W5 W6 W7 W8 W9] Hb. pose proof (ea_frame _ _ _ _ H) as [F1 F2 F3 F4 F5 F6 F7].
  assert (∀ n, rmw_link g' n = rmw_link g n) as Hrl
    by (intros n; unfold rmw_link; by rewrite (ea_rmw _ _ _ _ H)).
  split.
  - intros n. rewrite (ea_edges _ _ _ _ H). case_decide; subst; rewrite ?app_nil_r; [|done].
    apply NoDup_app. split_and!; [done| |apply NoDup_singleton].
    intros x Hx ->%list_elem_of_singleton. by apply (ea_new _ _ _ _ H).
  - intros n. rewrite (ea_back _ _ _ _ H). case_decide; subst; rewrite ?app_nil_r; [|done].
    apply NoDup_app. split_and!; [done| |apply NoDup_singleton].
    intros x Hx ->%list_elem_of_singleton. apply (ea_new _ _ _ _ H). by apply W3.
  - intros x y. rewrite (ea_edges _ _ _ _ H), (ea_back _ _ _ _ H), !elem_of_app, W3.
    repeat case_decide; set_solver.
  - intros x y. rewrite (edge_added_iff _ _ _ _ _ _ H). rewrite F1. naive_solver.
  - intros x y. rewrite Hrl, F1. apply W5.
  - intros n. rewrite F1, F2. apply W6.
  - intros x n. rewrite F1, F3, F5. apply W7.
  - intros x n. rewrite F1, F4, F5, F6. apply W8.
  - intros n Hn. apply (W9 n). eapply tc_mono; [|done]. intros ??. by rewrite Hrl.
Qed.

(** ** Following an RMW chain *)

Lemma rmw_chain_end_spec g to : graph_wf g → ∀ fuel r P,
  r ∈ dom (cg_nodes g) → NoDup P → (∀ n, n ∈ P → n ∈ dom (cg_nodes g) ∧ tc (rmw_link g) n r) →
  size (cg_nodes g) < fuel + length P →
  ∃ e, rmw_chain_end fuel g to r = Ok e ∧ rtc (rmw_link g) r e ∧ e ∈ dom (cg_nodes g) ∧
    (e = to ∨ getRMW g e = None).
Proof.
  intros Hwf. induction fuel as [|fuel IH]; intros r P Hr HP Hbefore Hfuel.
  - exfalso. assert (length P ≤ length (elements (dom (cg_nodes g)))) as Hle.
    { apply NoDup_incl_length'; [done|]. intros n Hn. apply elem_of_elements. by apply Hbefore. }
    change (length (elements ?X)) with (size X) in Hle. rewrite size_dom in Hle. lia.
  - simpl. destruct (bool_decide_reflect (r = to)) as [->|Hne].
    { exists to. split_and!; [done|apply rtc_refl|done|by left]. }
    destruct (getRMW g r) as [r'|] eqn:E; [|exists r; split_and!; [done|apply rtc_refl|done|by right]].
    destruct (IH r' (r :: P)) as (e & ? & ? & ? & ?).
    + by apply (gw_dom_rmw g Hwf r r').
    + constructor; [|done]. intros Hin. destruct (Hbefore r Hin) as [_ Hc]. by apply (gw_rmw g Hwf r).
    + intros n [->|Hn]%elem_of_cons; [split; [done|by apply tc_once]|].
      destruct (Hbefore n Hn). split; [done|]. by eapply tc_r.
    + simpl. lia.
    + exists e. split_and!; try done. by eapply rtc_l.
Qed.

Lemma rmw_chain_total g to r :
  graph_wf g → r ∈ dom (cg_nodes g) →
  ∃ e, rmw_chain_end (S (size (cg_nodes g))) g to r = Ok e ∧ rtc (rmw_link g) r e ∧
    e ∈ dom (cg_nodes g) ∧ (e = to ∨ getRMW g e = None).
Proof. intros Hwf Hr. apply (rmw_chain_end_spec g to Hwf _ r []); [done|constructor|set_solver|simpl; lia]. Qed.

(** ** Sequences of additions *)

Inductive adds : list (ptr * ptr) → CycleGraph → CycleGraph → Prop :=
  | adds_nil g g' : same_frame g g' → g ≡ g' → adds [] g g'
  | adds_cons a b S g g1 g' : edge_added a b g g1 → adds S g1 g' → adds ((a, b) :: S) g g'.

Lemma adds_app S1 S2 g1 g2 g3 : adds S1 g1 g2 → adds S2 g2 g3 → adds (S1 ++ S2) g1 g3.
Proof.
  induction 1 as [g g' Hf Hs|a b S g g1 g' Ha HS IH]; intros H2; simpl.
  - inversion H2 as [? ? Hf2 Hs2|a b S ? g4 ? [F N E B R] HS2]; subst.
    + constructor; by etrans.
    + econstructor; [|done]. split; [by etrans|by rewrite Hs|..]; intros n;
        destruct (Hs n) as (E1 & E2 & E3); rewrite <- ?E1, <- ?E2, <- ?E3; eauto.
  - econstructor; eauto.
Qed.

Lemma adds_one a b g g' : edge_added a b g g' → adds [(a, b)] g g'.
Proof. intros. econstructor; [done|]. by constructor. Qed.

Lemma adds_frame S g g' : adds S g g' → same_frame g g'.
Proof. induction 1 as [|a b S g g1 g' Ha HS IH]; [done|]. etrans; [by apply ea_frame in Ha|done]. Qed.

Lemma adds_mono S g g' : adds S g g' → ∀ x y, edge g x y → edge g' x y.
Proof.
  induction 1 as [|a b S g g1 g' Ha HS IH]; intros x y Hxy.
  - by rewrite <- H0.
  - apply IH, (edge_added_iff _ _ _ _ _ _ Ha). auto.
Qed.

Lemma adds_edge_iff S g g' : adds S g g' → ∀ x y, edge g' x y ↔ edge g x y ∨ (x, y) ∈ S.
Proof.
  induction 1 as [g g' _ Hs|a b S g g1 g' Ha HS IH]; intros x y.
  - rewrite Hs. set_solver.
  - rewrite IH, (edge_added_iff _ _ _ _ _ _ Ha), elem_of_cons. naive_solver.
Qed.

Lemma adds_rmw S g g' : adds S g g' → ∀ n, getRMW g' n = getRMW g n.
Proof.
  induction 1 as [g g' _ Hs|a b S g g1 g' Ha HS IH]; intros n; [by destruct (Hs n) as (_ & _ & ?)|].
  by rewrite IH, (ea_rmw _ _ _ _ Ha).
Qed.

(** ** [addNodeEdge] *)

(** An RMW is ordered immediately after the store it reads from: whatever follows
    the store follows the RMW. *)
Definition rmw_atomic (g : CycleGraph) : Prop :=
  ∀ n r, rmw_link g n r → edge g n r ∧ ∀ t, edge g n t → reaches g r t.

Lemma rmw_chain_reaches g r e : rmw_atomic g → rtc (rmw_link g) r e → reaches g r e.
Proof. intros Hat. apply rtc_mono. intros a b Hab. by apply Hat. Qed.

Lemma shape_wf g g' : g ≡ g' → same_frame g g' → graph_wf g → graph_wf g'.
Proof.
  intros Hs [F1 F2 F3 F4 F5 F6 F7] [W1 W2 W3 W4 W5 W6 W7 W8 W9].
  assert (∀ n, rmw_link g' n = rmw_link g n) as Hrl
    by (intros n; unfold rmw_link; by destruct (Hs n) as (_ & _ & ->)).
  split.
  - intros n. by destruct (Hs n) as (-> & _ & _).
  - intros n. by destruct (Hs n) as (_ & -> & _).
  - intros a b. destruct (Hs a) as (-> & _ & _), (Hs b) as (_ & -> & _). apply W3.
  - intros a b. rewrite F1, <- Hs. apply W4.
  - intros a b. rewrite Hrl, F1. apply W5.
  - intros n. rewrite F1, F2. apply W6.
  - intros a n. rewrite F1, F3, F5. apply W7.
  - intros a n. rewrite F1, F4, F5, F6. apply W8.
  - intros n Hn. apply (W9 n). eapply tc_mono; [|done]. intros ??. by rewrite Hrl.
Qed.

(** The edge insertion shared by the two halves of [addNodeEdge]: add [a -> b],
    check for a cycle unless one is known, and log [a] for rollback. *)
Definition add_check_log (a b : ptr) (g : CycleGraph) : CycleGraph :=
  let '(g, added) := cn_addEdge a b g in
  if (added : bool) then
    push_rollback a (if cg_hasCycles g then g
                     else set_hasCycles (checkReachable_nodes g b a) g)
  else g.

Record logged (S : list (ptr * ptr)) (g g' : CycleGraph) : Prop := {
  lg_adds : adds S g g';
  lg_vec : cg_rollbackvector g' = cg_rollbackvector g ++ S.*1;
  lg_rmwvec : cg_rmwrollbackvector g' = cg_rmwrollbackvector g;
  lg_wf : graph_wf g → graph_wf g';
  lg_cycles : cg_hasCycles g = true → cg_hasCycles g' = true;
  lg_exact : acyclic g → cg_hasCycles g = false → cg_hasCycles g' = false ↔ acyclic g'
}.

Lemma logged_refl g : logged [] g g.
Proof. split; rewrite ?app_nil_r; try done. by constructor. Qed.

Lemma logged_trans S1 S2 g1 g2 g3 : logged S1 g1 g2 → logged S2 g2 g3 → logged (S1 ++ S2) g1 g3.
Proof.
  intros [A1 V1 R1 W1 C1 E1] [A2 V2 R2 W2 C2 E2]. split.
  - by eapply adds_app.
  - by rewrite V2, V1, fmap_app, (assoc_L (++)).
  - by rewrite R2, R1.
  - auto.
  - auto.
  - intros Ha Hc. destruct (cg_hasCycles g2) eqn:Hc2.
    + rewrite C2 by done. split; [done|]. intros Ha3.
      assert (acyclic g2) as Ha2.
      { intros n Hn. apply (Ha3 n). eapply tc_mono; [|done]. by eapply adds_mono. }
      apply (E1 Ha Hc) in Ha2. done.
    + apply E2; [|done]. by apply E1.
Qed.

Lemma add_check_log_spec a b g :
  a ∈ dom (cg_nodes g) → b ∈ dom (cg_nodes g) →
  ∃ S, logged S g (add_check_log a b g) ∧ edge (add_check_log a b g) a b ∧
    S = if bool_decide (edge g a b) then [] else [(a, b)].
Proof.
  intros Ha Hb. unfold add_check_log. destruct (cn_addEdge a b g) as [g1 added] eqn:E.
  pose proof (cn_addEdge_spec _ _ _ _ _ E Ha Hb) as Hspec. destruct added.
  - destruct Hspec as (Hadd & Hhc & Hrv & Hrrv).
    set (g2 := push_rollback a _).
    assert (g1 ≡ g2 ∧ same_frame g1 g2) as [Hs Hf].
    { unfold g2. by case_match. }
    exists [(a, b)]. split_and!.
    + split.
      * apply (adds_app [(a, b)] [] _ g1); [by apply adds_one|by constructor].
      * unfold g2. case_match; simpl; by rewrite Hrv.
      * unfold g2. case_match; simpl; by rewrite Hrrv.
      * intros Hwf. eapply shape_wf; [done..|]. by eapply edge_added_wf.
      * intros Hc. unfold g2. rewrite Hhc, Hc. simpl. congruence.
      * intros Hac Hc. assert (acyclic g2 ↔ acyclic g1) as -> by (by rewrite Hs).
        unfold g2. rewrite Hhc, Hc. simpl.
        rewrite (edge_added_acyclic _ _ _ _ Hadd Hac), <- checkReachable_nodes_correct.
        symmetry. apply not_true_iff_false.
    + rewrite <- Hs. apply (edge_added_iff _ _ _ _ _ _ Hadd). auto.
    + rewrite bool_decide_eq_false_2; [done|]. by apply (ea_new _ _ _ _ Hadd).
  - destruct Hspec as [-> He]. exists []. split_and!; [apply logged_refl|done|].
    by rewrite bool_decide_eq_true_2.
Qed.

(** [addNodeEdge] in terms of the two insertions. *)
Lemma addNodeEdge_eq from to g :
  addNodeEdge from to g =
    if bool_decide (to ∈ edges g from) then Ok (g, false)
    else
      let g1 := add_check_log from to g in
      match getRMW g1 from with
      | None => Ok (g1, true)
      | Some r =>
          rmw_chain_end (S (size (cg_nodes g1))) g1 to r ≫= λ e : ptr,
          Ok (if bool_decide (e = to) then g1 else add_check_log e to g1, true)
      end.
Proof.
  unfold addNodeEdge, add_check_log.
  destruct (cn_addEdge from to g) as [g1 added] eqn:E.
  assert (added = negb (bool_decide (to ∈ edges g from)) ∧
          (to ∈ edges g from → g1 = g)) as [-> Hg].
  { unfold cn_addEdge in E. case_bool_decide; simplify_eq; naive_solver. }
  case_bool_decide; cbn [negb]; [by rewrite Hg|].
  set (g2 := push_rollback from (if cg_hasCycles g1 then _ else _)).
  assert ((if cg_hasCycles (push_rollback from g1) then push_rollback from g1
           else set_hasCycles (checkReachable_nodes (push_rollback from g1) to from)
                  (push_rollback from g1)) = g2) as ->.
  { unfold g2. rewrite (checkReachable_nodes_proper _ _ (push_rollback_shape from g1) _ _ eq_refl _ _ eq_refl).
    simpl. by destruct (cg_hasCycles g1). }
  cbv zeta.   destruct (getRMW g2 from); [|done].
  destruct (rmw_chain_end _ _ _ _); simpl; [|done].
  case_bool_decide; [done|]. by destruct (cn_addEdge _ _ g2) as [g3 []].
Qed.

(** What follows [n] in the graph after additions whose sources other than [n] have
    no RMW: atomicity is kept if the new successors of [n] follow its RMW. *)
Lemma rmw_atomic_adds S g g' :
  adds S g g' → rmw_atomic g →
  (∀ n t r, (n, t) ∈ S → getRMW g n = Some r → reaches g' r t) → rmw_atomic g'.
Proof.
  intros HA Hat Hnew n r Hnr. unfold rmw_link in Hnr. rewrite (adds_rmw _ _ _ HA) in Hnr.
  destruct (Hat n r Hnr) as [He Hall]. split; [by apply (adds_mono _ _ _ HA)|].
  intros t [Hnt|Hnt]%(adds_edge_iff _ _ _ HA); [|by eapply Hnew].
  eapply rtc_mono; [apply (adds_mono _ _ _ HA)|by apply Hall].
Qed.

Lemma adds_reaches S g g' x y : adds S g g' → reaches g x y → reaches g' x y.
Proof. intros HA. apply rtc_mono, (adds_mono _ _ _ HA). Qed.

(** The outcome of [addNodeEdge] on a well-formed graph: it terminates, logs what
    it adds, and keeps RMWs adjacent to the stores they read from. *)
Lemma addNodeEdge_spec from to g :
  graph_wf g → from ∈ dom (cg_nodes g) → to ∈ dom (cg_nodes g) →
  ∃ g' S, addNodeEdge from to g = Ok (g', bool_decide (S ≠ [])) ∧ logged S g g' ∧
    edge g' from to ∧ (rmw_atomic g → rmw_atomic g') ∧
    (getRMW g from = None ∨ getRMW g from = Some to → ∀ p, p ∈ S → p = (from, to)).
Proof.
  intros Hwf Hf Ht. rewrite addNodeEdge_eq. case_bool_decide as Hold.
  { exists g, []. split_and!; [done|apply logged_refl|done|done|set_solver]. }
  destruct (add_check_log_spec from to g Hf Ht) as (S1 & H1 & He1 & HS1).
  rewrite bool_decide_eq_false_2 in HS1 by done. subst S1. cbv zeta.
  set (g1 := add_check_log from to g) in *.
  pose proof (lg_adds _ _ _ H1) as HA1. pose proof (lg_wf _ _ _ H1 Hwf) as Hwf1.
  pose proof (adds_rmw _ _ _ HA1) as Hrmw1. pose proof (sf_dom _ _ (adds_frame _ _ _ HA1)) as Hdom1.
  rewrite Hrmw1. destruct (getRMW g from) as [r|] eqn:Hr.
  2: { exists g1, [(from, to)]. split_and!; [done..| |set_solver]. intros Hat.
    apply (rmw_atomic_adds _ _ _ HA1 Hat). intros n t r [= -> ->]%list_elem_of_singleton. congruence. }
  destruct (rmw_chain_total g1 to r Hwf1) as (e & Hend & Hchain & Hed & Hstop).
  { rewrite Hdom1. by apply (gw_dom_rmw g Hwf from r). }
  assert (rmw_atomic g → reaches g1 r e) as Hre.
  { intros Hat. apply (adds_reaches _ _ _ _ _ HA1), rmw_chain_reaches; [done|].
    eapply rtc_mono; [|done]. intros a b. unfold rmw_link. by rewrite Hrmw1. }
  rewrite Hend. cbn. case_bool_decide as Hto.
  - subst e. exists g1, [(from, to)]. split_and!; [done..| |set_solver]. intros Hat.
    apply (rmw_atomic_adds _ _ _ HA1 Hat). intros n t r' [= -> ->]%list_elem_of_singleton ?.
    assert (r' = r) as -> by congruence. auto.
  - destruct Hstop as [|Hstop]; [done|].
    assert (r ≠ to) as Hrto.
    { intros ->. simpl in Hend. rewrite bool_decide_eq_true_2 in Hend by done. congruence. }
    destruct (add_check_log_spec e to g1) as (S2 & H2 & He2 & HS2); [done|by rewrite Hdom1|].
    exists (add_check_log e to g1), ([(from, to)] ++ S2).
    pose proof (logged_trans _ _ _ _ _ H1 H2) as H12. pose proof (lg_adds _ _ _ H2) as HA2.
    split_and!; [done|done|by apply (adds_mono _ _ _ HA2)| |naive_solver].
    intros Hat. apply (rmw_atomic_adds _ _ _ (lg_adds _ _ _ H12) Hat).
    intros n t r' [Hin|Hin]%elem_of_app Hn.
    + apply list_elem_of_singleton in Hin as [= -> ->]. assert (r' = r) as -> by congruence.
      eapply rtc_r; [by eapply adds_reaches, Hre|done].
    + destruct (bool_decide _) in HS2; subst S2; [set_solver|].
      apply list_elem_of_singleton in Hin as [= -> ->]. rewrite Hrmw1 in Hstop. congruence.
Qed.

(** ** Allocating nodes *)

(** What [getNode] may change: the heap and the tables grow, the shape does not. *)
Record extends (g g' : CycleGraph) : Prop := {
  ex_shape : g ≡ g';
  ex_dom : dom (cg_nodes g) ⊆ dom (cg_nodes g');
  ex_noCreate : ∀ o n, getNode_noCreate g o = Some n → getNode_noCreate g' o = Some n;
  ex_wf : graph_wf g → graph_wf g';
  ex_hasCycles : cg_hasCycles g' = cg_hasCycles g;
  ex_oldCycles : cg_oldCycles g' = cg_oldCycles g;
  ex_vec : cg_rollbackvector g' = cg_rollbackvector g;
  ex_rmwvec : cg_rmwrollbackvector g' = cg_rmwrollbackvector g
}.

#[global] Instance extends_preorder : PreOrder extends.
Proof.
  split; [intros g; by split|]. intros g1 g2 g3 [] []. split; try congruence; [by etrans|by etrans|auto|auto].
Qed.

(** Allocation of a node without edges, entered into one of the tables. *)
Lemma alloc_extends o c g g' n :
  graph_wf g → getNode_noCreate g o = None →
  cn_edges c = [] → cn_back_edges c = [] → cn_hasRMW c = None →
  match o with
  | OAct a => cn_action c = Some a
  | OProm p => cn_action c = None ∧ cn_promise c = Some p
  end →
  (n, g') = (let '(g1, n) := new_CycleNode c g in
             (n, match o with OAct a => putNode_action a n g1 | OProm p => putNode_promise p (Some n) g1 end)) →
  extends g g' ∧ n ∈ dom (cg_nodes g') ∧ getNode_noCreate g' o = Some n ∧ n ∉ dom (cg_nodes g).
Proof.
  intros Hwf Hnone He Hb Hr Hc Heq. unfold new_CycleNode in Heq. injection Heq as -> Hg'.
  pose proof (gw_fresh g Hwf (cg_next g) ltac:(lia)) as Hfresh.
  assert (node_at g (cg_next g) = blank_node) as Hblank.
  { unfold node_at. by rewrite (not_elem_of_dom_1 _ _ Hfresh). }
  assert (∀ m, node_at g' m = if decide (m = cg_next g) then c else node_at g m) as Hat.
  { intros m. subst g'. destruct o; unfold node_at; simpl; (case_decide as Hm; [subst; by rewrite lookup_insert_eq|by rewrite lookup_insert_ne by done]). }
  assert (dom (cg_nodes g') = {[cg_next g]} ∪ dom (cg_nodes g)) as Hdom.
  { subst g'. destruct o; simpl; by rewrite dom_insert_L. }
  assert (g ≡ g') as Hs.
  { intros m. unfold edges, back_edges, getRMW. rewrite Hat. case_decide; [subst m|done].
    rewrite Hblank. simpl. by rewrite He, Hb, Hr. }
  assert (getNode_noCreate g' o = Some (cg_next g)) as Hget.
  { subst g'. destruct o; simpl; unfold getNode_noCreate_action, getNode_noCreate_promise; simpl;
      by rewrite lookup_insert_eq. }
  assert (cg_next g ∈ dom (cg_nodes g') ∧ dom (cg_nodes g) ⊆ dom (cg_nodes g') ∧
          ∀ m, m ∈ dom (cg_nodes g) → m ≠ cg_next g) as (Hin & Hsub & Hnot).
  { rewrite Hdom. clear -Hfresh. set_solver. }
  split_and!; [|done|done|done].
  split; [done|done| | |subst g'; by destruct o..].
  - intros o' n' Hn'. destruct (decide (o' = o)) as [->|Hne]; [congruence|].
    subst g'. destruct o, o'; simpl in *; try done;
      unfold getNode_noCreate_action, getNode_noCreate_promise in *; simpl;
      rewrite lookup_insert_ne by congruence; done.
  - intros [W1 W2 W3 W4 W5 W6 W7 W8 W9].
    assert (∀ m, rmw_link g' m = rmw_link g m) as Hrl
      by (intros m; unfold rmw_link; by destruct (Hs m) as (_ & _ & ->)).
    split.
    + intros m. by destruct (Hs m) as (-> & _ & _).
    + intros m. by destruct (Hs m) as (_ & -> & _).
    + intros a b. destruct (Hs a) as (-> & _ & _), (Hs b) as (_ & -> & _). apply W3.
    + intros a b Hab. apply Hsub, (W4 a). by rewrite Hs.
    + intros a b Hab. apply Hsub, (W5 a). by rewrite Hrl in Hab.
    + intros m. assert (cg_next g' = Pos.succ (cg_next g)) as -> by (subst g'; by destruct o).
      intros Hm. rewrite Hdom. apply not_elem_of_union. split; [|apply W6; lia].
      rewrite elem_of_singleton. lia.
    + intros a m Hm. rewrite Hat.
      assert (m = cg_next g ∧ o = OAct a ∨ cg_actionToNode g !! a = Some m) as [[-> ->]|Hold].
      { subst g'. destruct o as [a'|p']; simpl in Hm; [|by right].
        apply lookup_insert_Some in Hm as [[-> <-]|[_ Hm]]; auto. }
      * by rewrite decide_True.
      * destruct (W7 _ _ Hold). rewrite decide_False; auto.
    + intros p m Hm. rewrite Hat.
      assert (m = cg_next g ∧ o = OProm p ∨ cg_promiseToNode g !! p = Some (Some m)) as [[-> ->]|Hold].
      { subst g'. destruct o as [a'|p']; simpl in Hm; [by right|].
        apply lookup_insert_Some in Hm as [[-> [= <-]]|[_ Hm]]; auto. }
      * by rewrite decide_True.
      * destruct (W8 _ _ Hold) as (? & ? & ?). rewrite decide_False; auto.
    + intros m Hm. apply (W9 m). eapply tc_mono; [|done]. intros ??. by rewrite Hrl.
Qed.

Lemma noCreate_in_dom g o n : graph_wf g → getNode_noCreate g o = Some n → n ∈ dom (cg_nodes g).
Proof.
  intros Hwf. destruct o as [a|p]; simpl.
  - by intros [? _]%(gw_act g Hwf).
  - unfold getNode_noCreate_promise. destruct (cg_promiseToNode g !! p) as [[m|]|] eqn:E; simpl; try done.
    intros [= ->]. by apply (gw_prom g Hwf) in E as [? _].
Qed.

(** The node of an action and that of another object are different nodes. *)
Lemma noCreate_inj g o o' n :
  graph_wf g → getNode_noCreate g o = Some n → getNode_noCreate g o' = Some n → o = o'.
Proof.
  intros Hwf.
  assert (∀ p, getNode_noCreate_promise g p = Some n → cg_promiseToNode g !! p = Some (Some n)) as Hp.
  { intros p. unfold getNode_noCreate_promise. by destruct (cg_promiseToNode g !! p) as [[]|]; intros [= ->]. }
  destruct o as [a|p], o' as [a'|p']; simpl.
  - intros [_ H1]%(gw_act g Hwf) [_ H2]%(gw_act g Hwf). congruence.
  - intros [_ H1]%(gw_act g Hwf) (_ & H2 & _)%Hp%(gw_prom g Hwf). congruence.
  - intros (_ & H2 & _)%Hp%(gw_prom g Hwf) [_ H1]%(gw_act g Hwf). congruence.
  - intros (_ & _ & H1)%Hp%(gw_prom g Hwf) (_ & _ & H2)%Hp%(gw_prom g Hwf). congruence.
Qed.

Lemma getNode_spec o g g' n :
  graph_wf g → getNode o g = (g', n) →
  extends g g' ∧ n ∈ dom (cg_nodes g') ∧ getNode_noCreate g' o = Some n ∧
  (getNode_noCreate g o = None → n ∉ dom (cg_nodes g)).
Proof.
  intros Hwf Hget. destruct (getNode_noCreate g o) as [m|] eqn:E.
  - assert (g' = g ∧ n = m) as [-> ->].
    { destruct o; simpl in *; unfold getNode_action, getNode_promise in Hget; rewrite E in Hget;
        by injection Hget as <- <-. }
    split_and!; [done|by eapply noCreate_in_dom|done|done].
  - destruct o as [a|p]; simpl in Hget, E; unfold getNode_action, getNode_promise in Hget; rewrite E in Hget; simpl in Hget.
    + destruct (alloc_extends (OAct a) (mkCycleNode (Some a) None [] [] None) g g' n) as (? & ? & ? & ?); try done.
      { simpl. by injection Hget as <- <-. }
    + destruct (alloc_extends (OProm p) (mkCycleNode None (Some p) [] [] None) g g' n) as (? & ? & ? & ?); try done.
      { simpl. by injection Hget as <- <-. }
Qed.

Lemma new_CycleGraph_wf : graph_wf new_CycleGraph.
Proof.
  split; unfold edge, edges, back_edges, rmw_link, getRMW, node_at; simpl.
  - intros n. rewrite lookup_empty. constructor.
  - intros n. rewrite lookup_empty. constructor.
  - intros a b. rewrite !lookup_empty. set_solver.
  - intros a b. rewrite lookup_empty. set_solver.
  - intros a b. by rewrite lookup_empty.
  - set_solver.
  - intros a n. by rewrite lookup_empty.
  - intros a n. by rewrite lookup_empty.
  - intros n Hn. apply tc_rtc_l with (x := n) in Hn; [|done]. by destruct Hn as [? ? H|? ? ? H _]; rewrite lookup_empty in H.
Qed.

(** ** The changes since a checkpoint *)

Definition outs (S : list (ptr * ptr)) (n : ptr) : list ptr := (filter (λ p, p.1 = n) S).*2.
Definition ins (S : list (ptr * ptr)) (n : ptr) : list ptr := (filter (λ p, p.2 = n) S).*1.

(** [g] is [g0] with the new edges [S], in the order they were added. *)
Record delta (S : list (ptr * ptr)) (g0 g : CycleGraph) : Prop := {
  dl_edges : ∀ n, edges g n = edges g0 n ++ outs S n;
  dl_back : ∀ n, back_edges g n = back_edges g0 n ++ ins S n;
  dl_nodup : NoDup S;
  dl_new : ∀ a b, (a, b) ∈ S → ¬ edge g0 a b
}.

Lemma outs_app S1 S2 n : outs (S1 ++ S2) n = outs S1 n ++ outs S2 n.
Proof. unfold outs. by rewrite filter_app, fmap_app. Qed.
Lemma ins_app S1 S2 n : ins (S1 ++ S2) n = ins S1 n ++ ins S2 n.
Proof. unfold ins. by rewrite filter_app, fmap_app. Qed.
Lemma outs_cons a b S n : outs ((a, b) :: S) n = (if decide (n = a) then [b] else []) ++ outs S n.
Proof. unfold outs. rewrite filter_cons. simpl. repeat case_decide; subst; naive_solver. Qed.
Lemma ins_cons a b S n : ins ((a, b) :: S) n = (if decide (n = b) then [a] else []) ++ ins S n.
Proof. unfold ins. rewrite filter_cons. simpl. repeat case_decide; subst; naive_solver. Qed.
Lemma elem_of_ins a b S : a ∈ ins S b ↔ (a, b) ∈ S.
Proof.
  unfold ins. rewrite list_elem_of_fmap. split.
  - intros ([x y] & -> & [<- ?]%list_elem_of_filter). done.
  - intros H. exists (a, b). split; [done|]. by apply list_elem_of_filter.
Qed.
Lemma elem_of_outs a b S : b ∈ outs S a ↔ (a, b) ∈ S.
Proof.
  unfold outs. rewrite list_elem_of_fmap. split.
  - intros ([x y] & -> & [<- ?]%list_elem_of_filter). done.
  - intros H. exists (a, b). split; [done|]. by apply list_elem_of_filter.
Qed.

Lemma delta_refl g : delta [] g g.
Proof. split; try (intros; by rewrite app_nil_r); [constructor|set_solver]. Qed.

Lemma delta_shape S g0 g g' : delta S g0 g → g ≡ g' → delta S g0 g'.
Proof.
  intros [E B N F] Hs. split; [| |done|done]; intros n; destruct (Hs n) as (H1 & H2 & _).
  - by rewrite H1.
  - by rewrite H2.
Qed.

Lemma delta_adds S S' g0 g g' : delta S g0 g → adds S' g g' → delta (S ++ S') g0 g'.
Proof.
  intros Hd HA. revert S Hd. induction HA as [g g' _ Hs|a b S' g g1 g' Ha HS IH]; intros S Hd.
  - rewrite app_nil_r. by eapply delta_shape.
  - replace (S ++ (a, b) :: S') with ((S ++ [(a, b)]) ++ S') by by rewrite <- (assoc_L (++)).
    apply IH. destruct Hd as [E B N F]. pose proof (ea_new _ _ _ _ Ha) as Hnew.
    unfold edge in Hnew. rewrite E, elem_of_app, elem_of_outs in Hnew. split.
    + intros n. by rewrite (ea_edges _ _ _ _ Ha), E, outs_app, outs_cons, app_nil_r, (assoc_L (++)).
    + intros n. by rewrite (ea_back _ _ _ _ Ha), B, ins_app, ins_cons, app_nil_r, (assoc_L (++)).
    + apply NoDup_app. split_and!; [done| |apply NoDup_singleton]. intros p Hp ->%list_elem_of_singleton. auto.
    + intros x y [?|[= -> ->]%list_elem_of_singleton]%elem_of_app; [by apply F|]. unfold edge. auto.
Qed.

(** Undoing edges: each pop removes the latest remaining addition of its node. *)
Lemma split_latest a (S : list (ptr * ptr)) :
  a ∈ S.*1 → ∃ S1 b S2, S = S1 ++ (a, b) :: S2 ∧ outs S2 a = [].
Proof.
  induction S as [|[x y] S IH]; simpl; [set_solver|].
  intros [->|Hin]%elem_of_cons.
  - destruct (decide (x ∈ S.*1)) as [Hin|Hout].
    + destruct (IH Hin) as (S1 & b & S2 & -> & ?). by exists ((x, y) :: S1), b, S2.
    + exists [], y, S. split; [done|]. destruct (outs S x) as [|t l] eqn:E; [done|].
      destruct Hout. apply list_elem_of_fmap. exists (x, t). split; [done|].
      apply elem_of_outs. rewrite E. set_solver.
  - destruct (IH Hin) as (S1 & b & S2 & -> & ?). by exists ((x, y) :: S1), b, S2.
Qed.

Lemma removeEdge_delta g0 g S1 a b S2 :
  graph_wf g0 → delta (S1 ++ (a, b) :: S2) g0 g → outs S2 a = [] →
  delta (S1 ++ S2) g0 (cn_removeEdge a g).1 ∧ ∀ n, getRMW (cn_removeEdge a g).1 n = getRMW g n.
Proof.
  intros Hwf [E B N F] Hl. unfold cn_removeEdge.
  assert (edges g a = (edges g0 a ++ outs S1 a) ++ [b]) as Ea.
  { by rewrite E, outs_app, outs_cons, Hl, decide_True, app_nil_r, (assoc_L (++)). }
  rewrite Ea, last_snoc. simpl.
  apply NoDup_app in N as (N1 & N2 & [N3 N4]%NoDup_cons).
  assert (a ∉ back_edges g0 b ++ ins S1 b) as Hna.
  { rewrite elem_of_app, elem_of_ins, <- (gw_back g0 Hwf). intros [H|H].
    - apply (F a b); [set_solver|done].
    - apply (N2 _ H). set_solver. }
  split; [split|].
  - set (g1 := update_node a _ g).
    assert (∀ n, edges g1 n = edges g0 n ++ outs (S1 ++ S2) n) as Hg1.
    { intros n. unfold edges, g1. rewrite node_at_update, outs_app. case_decide; subst; cbn [cn_edges with_edges].
      - fold (edges g a). rewrite Ea, removelast_last, Hl, app_nil_r. done.
      - fold (edges g n). by rewrite E, outs_app, outs_cons, decide_False by done. }
    intros n. rewrite <- Hg1. unfold edges. rewrite node_at_update. by case_decide; subst.
  - set (g1 := update_node a _ g).
    assert (∀ n, back_edges g1 n = back_edges g n) as Hg1.
    { intros n. unfold back_edges, g1. rewrite node_at_update. by case_decide; subst. }
    intros n. unfold back_edges at 1. rewrite node_at_update, ins_app.
    case_decide; subst; cbn [cn_back_edges with_back_edges].
    + fold (back_edges g1 b). rewrite Hg1, B, ins_app, ins_cons, decide_True by done.
      rewrite (assoc_L (++) (back_edges _ _)), remove_first_app_notin by done.
      simpl. by rewrite decide_True, (assoc_L (++)) by done.
    + fold (back_edges g1 n). by rewrite Hg1, B, ins_app, ins_cons, decide_False by done.
  - apply NoDup_app. split_and!; [done| |done]. intros p Hp Hp2. apply (N2 _ Hp). set_solver.
  - intros x y Hxy. apply F. set_solver.
  - intros n. unfold getRMW. rewrite !node_at_update. by repeat (case_decide; subst; simpl).
Qed.

Lemma rollback_edges_delta g0 ns : ∀ g S,
  graph_wf g0 → delta S g0 g → ns ≡ₚ S.*1 →
  delta [] g0 (rollback_edges ns g) ∧ ∀ n, getRMW (rollback_edges ns g) n = getRMW g n.
Proof.
  induction ns as [|a ns IH]; intros g S Hwf Hd Hp; simpl.
  - symmetry in Hp. apply Permutation_nil_r, fmap_nil_inv in Hp as ->. done.
  - destruct (split_latest a S) as (S1 & b & S2 & -> & Hl).
    { rewrite <- Hp. set_solver. }
    destruct (removeEdge_delta g0 g S1 a b S2) as [Hd' Hr']; [done..|].
    destruct (IH (cn_removeEdge a g).1 (S1 ++ S2)) as [H1 H2]; [done|done| |].
    + rewrite fmap_app in *. simpl in Hp. rewrite <- Permutation_middle in Hp.
      by apply Permutation_cons_inv in Hp.
    + split; [done|]. intros n. by rewrite H2.
Qed.

Lemma rollback_edges_frame ns : ∀ g,
  cg_rmwrollbackvector (rollback_edges ns g) = cg_rmwrollbackvector g ∧
  cg_oldCycles (rollback_edges ns g) = cg_oldCycles g.
Proof.
  induction ns as [|a ns IH]; intros g; [done|]. cbn [rollback_edges].
  destruct (IH (cn_removeEdge a g).1) as [-> ->]. unfold cn_removeEdge. by case_match.
Qed.

Lemma rollback_rmws_spec ns : ∀ g n,
  edges (rollback_rmws ns g) n = edges g n ∧ back_edges (rollback_rmws ns g) n = back_edges g n ∧
  getRMW (rollback_rmws ns g) n = if decide (n ∈ ns) then None else getRMW g n.
Proof.
  induction ns as [|a ns IH]; intros g n; [done|]. cbn [rollback_rmws].
  destruct (IH (clearRMW a g) n) as (-> & -> & ->). unfold edges, back_edges, getRMW, clearRMW.
  rewrite !node_at_update. split_and!; [by case_decide; subst..|].
  repeat case_decide; subst; simpl; set_solver.
Qed.

(** [g] was obtained from the checkpoint [g0] by logged additions. *)
Record since (g0 g : CycleGraph) : Prop := {
  si_edges : ∃ S, delta S g0 g ∧ cg_rollbackvector g = S.*1;
  si_rmw : ∀ n, if decide (n ∈ cg_rmwrollbackvector g) then getRMW g0 n = None
                else getRMW g n = getRMW g0 n;
  si_old : cg_oldCycles g = cg_oldCycles g0
}.

Lemma since_rollback g0 g : graph_wf g0 → since g0 g → rollbackChanges g ≡ g0.
Proof.
  intros Hwf [(S & Hd & Hv) Hr Ho]. symmetry. unfold rollbackChanges.
  destruct (rollback_edges_delta g0 (cg_rollbackvector g) g S) as [[E B _ _] R]; [done|done|by rewrite Hv|].
  set (g1 := rollback_edges _ _) in *.
  destruct (rollback_edges_frame (cg_rollbackvector g) g) as [Hrv _]. fold g1 in Hrv.
  intros n. destruct (rollback_rmws_spec (cg_rmwrollbackvector g1) g1 n) as (H1 & H2 & H3).
  change (edges (mkCycleGraph _ _ _ _ _ _ _ _) n) with (edges (rollback_rmws (cg_rmwrollbackvector g1) g1) n).
  change (back_edges (mkCycleGraph _ _ _ _ _ _ _ _) n) with (back_edges (rollback_rmws (cg_rmwrollbackvector g1) g1) n).
  change (getRMW (mkCycleGraph _ _ _ _ _ _ _ _) n) with (getRMW (rollback_rmws (cg_rmwrollbackvector g1) g1) n).
  rewrite H1, H2, H3, E, B, R, Hrv. unfold outs, ins. simpl. rewrite !app_nil_r. split_and!; [done..|].
  specialize (Hr n). destruct (decide (n ∈ cg_rmwrollbackvector g)); congruence.
Qed.

Lemma rollback_oldCycles g : cg_hasCycles (rollbackChanges g) = cg_oldCycles g.
Proof.
  unfold rollbackChanges. cbn [cg_hasCycles].
  assert (∀ ns g, cg_oldCycles (rollback_rmws ns g) = cg_oldCycles g) as ->.
  { induction ns as [|a ns IH]; intros g'; [done|]. cbn [rollback_rmws]. by rewrite IH. }
  apply rollback_edges_frame.
Qed.

(** Rolling back edges keeps the nodes and the tables. *)
Lemma removeEdge_frame n g :
  (∀ a b, edge g a b → b ∈ dom (cg_nodes g)) →
  same_frame g (cn_removeEdge n g).1 ∧ ∀ a b, edge (cn_removeEdge n g).1 a b → edge g a b.
Proof.
  intros Hdom. unfold cn_removeEdge. destruct (last (edges g n)) as [b|] eqn:Hl; [|done].
  apply last_Some in Hl as [l Hl].
  assert (edge g n b) as Hb by (unfold edge; rewrite Hl; set_solver).
  assert (n ∈ dom (cg_nodes g)) as Hn by (apply node_in_dom; rewrite Hl; by destruct l).
  split.
  - split; simpl; try done.
    + rewrite !dom_insert_L. apply Hdom in Hb. set_solver.
    + intros m. rewrite !node_at_update. by repeat (case_decide; subst).
    + intros m. rewrite !node_at_update. by repeat (case_decide; subst).
  - intros x y. unfold edge, edges in *. simpl. rewrite !node_at_update.
    repeat (case_decide; subst); simpl; rewrite ?Hl, ?removelast_last; set_solver.
Qed.

Lemma rollback_edges_wf ns : ∀ g,
  (∀ a b, edge g a b → b ∈ dom (cg_nodes g)) → same_frame g (rollback_edges ns g).
Proof.
  induction ns as [|a ns IH]; intros g Hdom; [done|]. cbn [rollback_edges].
  destruct (removeEdge_frame a g Hdom) as [Hf He]. etrans; [done|]. apply IH.
  intros x y Hxy%He%Hdom. by rewrite (sf_dom _ _ Hf).
Qed.

Lemma rollback_wf g0 g :
  graph_wf g0 → graph_wf g → since g0 g → cg_rmwrollbackvector g = [] → graph_wf (rollbackChanges g).
Proof.
  intros Hwf0 Hwf Hsi Hnil. pose proof (since_rollback g0 g Hwf0 Hsi) as Hs. symmetry in Hs.
  assert (same_frame g (rollbackChanges g)) as Hf.
  { unfold rollbackChanges. destruct (rollback_edges_frame (cg_rollbackvector g) g) as [-> _].
    rewrite Hnil. destruct (rollback_edges_wf (cg_rollbackvector g) g (gw_dom_edge _ Hwf)). by split. }
  destruct Hsi as [(S & Hd & _) Hr _], Hwf0 as [W1 W2 W3 _ _ _ _ _ W9], Hwf as [_ _ _ W4 W5 W6 W7 W8 _].
  destruct Hf as [F1 F2 F3 F4 F5 F6 _].
  assert (∀ n, rmw_link (rollbackChanges g) n = rmw_link g0 n) as Hrl
    by (intros n; unfold rmw_link; by destruct (Hs n) as (_ & _ & ->)).
  split.
  - intros n. by destruct (Hs n) as (-> & _ & _).
  - intros n. by destruct (Hs n) as (_ & -> & _).
  - intros a b. destruct (Hs a) as (-> & _ & _), (Hs b) as (_ & -> & _). apply W3.
  - intros a b. rewrite F1, <- Hs. intros Hab. apply (W4 a). unfold edge.
    rewrite (dl_edges _ _ _ Hd). set_solver.
  - intros a b. rewrite Hrl, F1. intros Hab. apply (W5 a). unfold rmw_link in *.
    specialize (Hr a). rewrite Hnil, decide_False in Hr by set_solver. congruence.
  - intros n. rewrite F1, F2. apply W6.
  - intros a n. rewrite F1, F3, F5. apply W7.
  - intros a n. rewrite F1, F4, F5, F6. apply W8.
  - intros n Hn. apply (W9 n). eapply tc_mono; [|done]. intros ??. by rewrite Hrl.
Qed.

Lemma since_refl g : cg_rollbackvector g = [] → cg_rmwrollbackvector g = [] → since g g.
Proof.
  intros Hv Hr. split; [|intros n; rewrite Hr; by rewrite decide_False by set_solver|done].
  exists []. split; [apply delta_refl|done].
Qed.

Lemma since_extends g0 g g' : since g0 g → extends g g' → since g0 g'.
Proof.
  intros [(S & Hd & Hv) Hr Ho] Hex. split.
  - exists S. rewrite (ex_vec _ _ Hex). split; [|done]. eapply delta_shape; [done|]. apply Hex.
  - intros n. rewrite (ex_rmwvec _ _ Hex). destruct (ex_shape _ _ Hex n) as (_ & _ & ->). apply Hr.
  - by rewrite (ex_oldCycles _ _ Hex).
Qed.

(** Additions that extend the log. *)
Lemma since_adds g0 g g' S :
  since g0 g → adds S g g' → cg_rollbackvector g' = cg_rollbackvector g ++ S.*1 →
  cg_rmwrollbackvector g' = cg_rmwrollbackvector g → since g0 g'.
Proof.
  intros [(S0 & Hd & Hv) Hr Ho] HA Hv' Hr'. split.
  - exists (S0 ++ S). split; [by eapply delta_adds|]. by rewrite Hv', Hv, fmap_app.
  - intros n. rewrite Hr', (adds_rmw _ _ _ HA). apply Hr.
  - by rewrite (sf_old _ _ (adds_frame _ _ _ HA)).
Qed.

Lemma since_logged g0 g g' S : since g0 g → logged S g g' → since g0 g'.
Proof. intros Hsi [HA Hv Hr _ _ _]. by eapply since_adds. Qed.

(** ** [addEdge] *)

(** What the checker relies on between changes: when no cycle is reported the
    recorded modification order is acyclic, and RMWs are adjacent to their writes. *)
Record mo_inv (g : CycleGraph) : Prop := {
  mi_wf : graph_wf g;
  mi_atomic : rmw_atomic g;
  mi_sound : cg_hasCycles g = false → acyclic g
}.

Lemma rmw_atomic_shape g g' : g ≡ g' → rmw_atomic g → rmw_atomic g'.
Proof.
  intros Hs Hat n r Hnr. unfold rmw_link in Hnr. destruct (Hs n) as (_ & _ & Hn). rewrite Hn in Hnr.
  destruct (Hat n r Hnr) as [H1 H2]. split; [by rewrite <- Hs|]. intros t. rewrite <- !Hs. apply H2.
Qed.

Lemma extends_inv g g' : extends g g' → mo_inv g → mo_inv g'.
Proof.
  intros Hex [W A C]. split.
  - by apply Hex.
  - eapply rmw_atomic_shape; [apply Hex|done].
  - rewrite (ex_hasCycles _ _ Hex). intros Hc. rewrite <- (ex_shape _ _ Hex). auto.
Qed.

Lemma logged_noCreate S g g' o : logged S g g' → getNode_noCreate g' o = getNode_noCreate g o.
Proof.
  intros [[F1 F2 F3 F4 F5 F6 F7]%adds_frame _ _ _ _ _].
  destruct o; simpl; unfold getNode_noCreate_action, getNode_noCreate_promise; congruence.
Qed.

Lemma getNodes_spec o o' g g1 n g2 n' :
  graph_wf g → getNode o g = (g1, n) → getNode o' g1 = (g2, n') →
  extends g g2 ∧ n ∈ dom (cg_nodes g2) ∧ n' ∈ dom (cg_nodes g2) ∧
  getNode_noCreate g2 o = Some n ∧ getNode_noCreate g2 o' = Some n'.
Proof.
  intros Hwf H1 H2. destruct (getNode_spec _ _ _ _ Hwf H1) as (Hex1 & Hd1 & Hn1 & _).
  destruct (getNode_spec _ _ _ _ (ex_wf _ _ Hex1 Hwf) H2) as (Hex2 & Hd2 & Hn2 & _).
  split_and!; [by etrans|by apply (ex_dom _ _ Hex2)|done|by apply (ex_noCreate _ _ Hex2)|done].
Qed.

Lemma addEdge_spec from to g :
  graph_wf g → ∃ g1 g' S n n', addEdge from to g = Ok (g', bool_decide (S ≠ [])) ∧
    extends g g1 ∧ logged S g1 g' ∧ getNode_noCreate g' from = Some n ∧
    getNode_noCreate g' to = Some n' ∧ edge g' n n' ∧ (rmw_atomic g1 → rmw_atomic g').
Proof.
  intros Hwf. unfold addEdge. destruct (getNode from g) as [g1 n] eqn:E1.
  destruct (getNode to g1) as [g2 n'] eqn:E2.
  destruct (getNodes_spec _ _ _ _ _ _ _ Hwf E1 E2) as (Hex & Hn & Hn' & Hg & Hg').
  destruct (addNodeEdge_spec n n' g2 (ex_wf _ _ Hex Hwf) Hn Hn') as (g' & S & -> & HL & He & Hat & _).
  exists g2, g', S, n, n'. rewrite !(logged_noCreate _ _ _ _ HL). done.
Qed.

Lemma logged_inv S g g' : logged S g g' → mo_inv g → rmw_atomic g' → mo_inv g'.
Proof.
  intros HL [W A C] A'. split; [by apply HL|done|]. intros Hc'.
  destruct (cg_hasCycles g) eqn:Hc.
  - by rewrite (lg_cycles _ _ _ HL) in Hc'.
  - by apply (lg_exact _ _ _ HL (C eq_refl) Hc).
Qed.

Lemma checkReachable_spec g from to n n' :
  getNode_noCreate g from = Some n → getNode_noCreate g to = Some n' →
  checkReachable g from to = true ↔ reaches g n n'.
Proof. intros H1 H2. unfold checkReachable. rewrite H1, H2. apply checkReachable_nodes_correct. Qed.

Lemma checkReachable_mono g g' from to :
  (∀ o n, getNode_noCreate g o = Some n → getNode_noCreate g' o = Some n) →
  (∀ a b, edge g a b → edge g' a b) →
  checkReachable g from to = true → checkReachable g' from to = true.
Proof.
  intros Hn He. unfold checkReachable at 1.
  destruct (getNode_noCreate g from) as [f|] eqn:E1; [|done].
  destruct (getNode_noCreate g to) as [t|] eqn:E2; [|done].
  rewrite checkReachable_nodes_correct, (checkReachable_spec _ _ _ f t) by auto.
  by apply rtc_mono.
Qed.

(** ** [addRMWEdge] *)

Lemma transfer_edges_spec r ts : ∀ g,
  r ∈ dom (cg_nodes g) → (∀ t, t ∈ ts → t ∈ dom (cg_nodes g)) → graph_wf g →
  ∃ S, adds S g (transfer_edges ts r g) ∧
    cg_rollbackvector (transfer_edges ts r g) = cg_rollbackvector g ++ S.*1 ∧
    cg_rmwrollbackvector (transfer_edges ts r g) = cg_rmwrollbackvector g ∧
    cg_hasCycles (transfer_edges ts r g) = cg_hasCycles g ∧
    graph_wf (transfer_edges ts r g) ∧
    (∀ a b, (a, b) ∈ S → a = r ∧ b ∈ ts ∧ b ≠ r) ∧
    (∀ t, t ∈ ts → t ≠ r → edge (transfer_edges ts r g) r t).
Proof.
  induction ts as [|t ts IH]; intros g Hr Hts Hwf; cbn [transfer_edges].
  - exists []. rewrite app_nil_r. split_and!; try done; [by constructor|set_solver..].
  - case_bool_decide as Ht.
    { destruct (IH g) as (S & ? & ? & ? & ? & ? & HS & Hed); [done|set_solver|done|].
      exists S. split_and!; try done; [|set_solver]. intros a b Hab. destruct (HS a b Hab). set_solver. }
    destruct (cn_addEdge r t g) as [g1 added] eqn:E.
    assert (t ∈ dom (cg_nodes g)) as Htd by (apply Hts; set_solver).
    pose proof (cn_addEdge_spec _ _ _ _ _ E Hr Htd) as Hspec. destruct added.
    + destruct Hspec as (Hadd & Hc & Hv & Hrv).
      assert (edge_added r t g (push_rollback r g1)) as Hadd'.
      { destruct Hadd as [F N Ee B R]. split; [by destruct F|done|apply Ee|apply B|apply R]. }
      pose proof (sf_dom _ _ (ea_frame _ _ _ _ Hadd')) as Hdom.
      destruct (IH (push_rollback r g1)) as (S & HA & H2 & H3 & H4 & H5 & HS & Hed).
      { by rewrite Hdom. } { rewrite Hdom. set_solver. } { by eapply edge_added_wf. }
      exists ((r, t) :: S). split_and!.
      * by econstructor.
      * rewrite H2. simpl. by rewrite Hv, <- (assoc_L (++)).
      * by rewrite H3.
      * by rewrite H4.
      * done.
      * intros a b [[= -> ->]|Hab]%elem_of_cons; [set_solver|]. destruct (HS a b Hab). set_solver.
      * intros t' [->|Ht']%elem_of_cons Hne; [|by apply Hed].
        apply (adds_mono _ _ _ HA), (edge_added_iff _ _ _ _ _ _ Hadd'). auto.
    + destruct Hspec as [-> He].
      destruct (IH g) as (S & HA & ? & ? & ? & ? & HS & Hed); [done|set_solver|done|].
      exists S. split_and!; try done.
      * intros a b Hab. destruct (HS a b Hab). set_solver.
      * intros t' [->|Ht']%elem_of_cons Hne; [|by apply Hed]. by apply (adds_mono _ _ _ HA).
Qed.

Lemma setRMW_wf m r g :
  graph_wf g → m ∈ dom (cg_nodes g) → r ∈ dom (cg_nodes g) → m ≠ r →
  getRMW g m = None → getRMW g r = None → graph_wf (update_node m (with_RMW (Some r)) g).
Proof.
  intros [W1 W2 W3 W4 W5 W6 W7 W8 W9] Hm Hr Hne Hgm Hgr.
  set (g' := update_node m _ g).
  assert (∀ n, node_at g' n = if decide (n = m) then with_RMW (Some r) (node_at g m) else node_at g n) as Hat
    by (intros n; apply node_at_update).
  assert (∀ n, edges g' n = edges g n) as He by (intros n; unfold edges; rewrite Hat; by case_decide; subst).
  assert (∀ n, back_edges g' n = back_edges g n) as Hb by (intros n; unfold back_edges; rewrite Hat; by case_decide; subst).
  assert (∀ n, cn_action (node_at g' n) = cn_action (node_at g n)) as Ha by (intros n; rewrite Hat; by case_decide; subst).
  assert (∀ n, cn_promise (node_at g' n) = cn_promise (node_at g n)) as Hp by (intros n; rewrite Hat; by case_decide; subst).
  assert (∀ a b, rmw_link g' a b → rmw_link g a b ∨ a = m ∧ b = r) as Hl.
  { intros a b. unfold rmw_link, getRMW. rewrite Hat. case_decide; subst; simpl; [naive_solver|auto]. }
  assert (dom (cg_nodes g') = dom (cg_nodes g)) as Hd by (simpl; rewrite dom_insert_L; set_solver).
  split.
  - intros n. by rewrite He.
  - intros n. by rewrite Hb.
  - intros a b. rewrite He, Hb. apply W3.
  - intros a b. rewrite Hd. unfold edge. rewrite He. apply W4.
  - intros a b. rewrite Hd. intros [?|[-> ->]]%Hl; eauto.
  - intros n. rewrite Hd. apply W6.
  - intros a n. rewrite Hd, Ha. apply W7.
  - intros a n. rewrite Hd, Ha, Hp. apply W8.
  - assert (∀ x y, tc (rmw_link g') x y → tc (rmw_link g) x y ∨ y = r) as Htc.
    { induction 1 as [x y H|x y z H Hyz [IH| ->]].
      - apply Hl in H as [?|[_ ->]]; [left; by apply tc_once|by right].
      - apply Hl in H as [?|[-> ->]]; [left; by eapply tc_l|].
        exfalso. apply tc_first in IH as [? IH]. unfold rmw_link in IH. congruence.
      - by right. }
    intros n Hn. destruct (Htc _ _ Hn) as [Hn'| ->]; [by apply (W9 n)|].
    apply tc_first in Hn as [z [Hz|[? _]]%Hl]; [unfold rmw_link in Hz; congruence|done].
Qed.

(** The part of [addRMWEdge] after the nodes are looked up. *)
Definition rmw_core (m r : ptr) (g : CycleGraph) : result CycleGraph :=
  let '(g, already) := setRMW m r g in
  let g := if (already : bool) then set_hasCycles true g else push_rmwrollback m g in
  let g := transfer_edges (edges g m) r g in
  '(g, _) ← addNodeEdge m r g;
  Ok g.

Lemma acyclic_source r S g g' :
  adds S g g' → (∀ a b, (a, b) ∈ S → a = r ∧ b ≠ r) → (∀ a, ¬ edge g a r) → acyclic g → acyclic g'.
Proof.
  intros HA HS Hin Hac.
  assert (∀ a, ¬ edge g' a r) as Hin'.
  { intros a [?|Hab]%(adds_edge_iff _ _ _ HA); [by eapply Hin|]. by destruct (HS _ _ Hab). }
  assert (∀ x y, tc (edge g') x y → x ≠ r → tc (edge g) x y) as Htc.
  { induction 1 as [x y Hxy|x y z Hxy Hyz IH]; intros Hx;
      apply (adds_edge_iff _ _ _ HA) in Hxy as [Hxy|Hxy]; try (by destruct (HS _ _ Hxy)).
    - by apply tc_once.
    - eapply tc_l; [done|]. apply IH. intros ->. by eapply Hin. }
  intros n Hn. destruct (decide (n = r)) as [->|Hne].
  - by apply tc_last in Hn as [z ?%Hin'].
  - apply (Hac n). auto.
Qed.

Lemma transfer_acyclic m r S g1 g2 :
  graph_wf g1 → adds S g1 g2 → (∀ a b, (a, b) ∈ S → a = r ∧ b ∈ edges g1 m ∧ b ≠ r) →
  back_edges g1 r = [] ∨ edges g1 m = [] → acyclic g1 → acyclic g2.
Proof.
  intros Hwf HA HS [Hb|He] Hac.
  - apply (acyclic_source r S g1); [done| | |done].
    + intros a b Hab. by destruct (HS _ _ Hab) as (? & _ & ?).
    + intros a Ha. apply (gw_back g1 Hwf) in Ha. rewrite Hb in Ha. set_solver.
  - intros n Hn. apply (Hac n). eapply tc_mono; [|done]. intros a b.
    rewrite (adds_edge_iff _ _ _ HA). intros [?|Hab]; [done|].
    destruct (HS _ _ Hab) as (_ & Hin & _). rewrite He in Hin. set_solver.
Qed.

(** The graph in which [r] is recorded as the RMW that reads from [m]. *)
Record rmw_set (m r : ptr) (g g1 : CycleGraph) : Prop := {
  rs_wf : graph_wf g1;
  rs_dom : dom (cg_nodes g1) = dom (cg_nodes g);
  rs_edges : ∀ n, edges g1 n = edges g n;
  rs_back : ∀ n, back_edges g1 n = back_edges g n;
  rs_rmw : ∀ n, getRMW g1 n = if decide (n = m) then Some r else getRMW g n
}.

Lemma rmw_set_spec m r g :
  graph_wf g → m ∈ dom (cg_nodes g) → r ∈ dom (cg_nodes g) → m ≠ r →
  getRMW g m = None → getRMW g r = None →
  rmw_set m r g (push_rmwrollback m (update_node m (with_RMW (Some r)) g)).
Proof.
  intros Hwf Hm Hr Hne Hgm Hgr. split.
  - by eapply shape_wf; [..|exact (setRMW_wf m r g Hwf Hm Hr Hne Hgm Hgr)].
  - simpl. rewrite dom_insert_L. set_solver.
  - intros n. unfold edges. change (node_at (push_rmwrollback m ?x)) with (node_at x).
    rewrite node_at_update. by case_decide; subst.
  - intros n. unfold back_edges. change (node_at (push_rmwrollback m ?x)) with (node_at x).
    rewrite node_at_update. by case_decide; subst.
  - intros n. unfold getRMW. change (node_at (push_rmwrollback m ?x)) with (node_at x).
    rewrite node_at_update. by case_decide; subst.
Qed.

Lemma rmw_set_since m r g0 g :
  rmw_set m r g (push_rmwrollback m (update_node m (with_RMW (Some r)) g)) → getRMW g m = None →
  since g0 g → since g0 (push_rmwrollback m (update_node m (with_RMW (Some r)) g)).
Proof.
  intros [_ _ He Hb Hr] Hm [(S0 & [DE DB DN DF] & Hv0) Hr0 Ho]. split; [..|done].
  - exists S0. split; [split; [intros n; by rewrite He|intros n; by rewrite Hb|done|done]|done].
  - intros n. rewrite Hr. specialize (Hr0 n).
    cbn [push_rmwrollback update_node set_nodes cg_rmwrollbackvector].
    destruct (decide (n ∈ cg_rmwrollbackvector g)) as [Hin|Hout].
    + by rewrite decide_True by set_solver.
    + destruct (decide (n = m)) as [->|Hne].
      * rewrite decide_True by set_solver. congruence.
      * rewrite decide_False; [done|]. set_solver.
Qed.

Lemma adds_noCreate S g g' o : adds S g g' → getNode_noCreate g' o = getNode_noCreate g o.
Proof.
  intros [F1 F2 F3 F4 F5 F6 F7]%adds_frame.
  destruct o; simpl; unfold getNode_noCreate_action, getNode_noCreate_promise; congruence.
Qed.

(** The edges of [addRMWEdge] keep atomicity: the transferred edges put everything
    that followed the write after its RMW. *)
Lemma rmw_set_atomic m r S g g1 g3 :
  rmw_set m r g g1 → adds S g1 g3 → m ≠ r → getRMW g r = None → edge g3 m r →
  (∀ a b, (a, b) ∈ S → a = r ∨ (a, b) = (m, r)) →
  (∀ t, edge g m t → t ≠ r → edge g3 r t) → rmw_atomic g → rmw_atomic g3.
Proof.
  intros [_ _ He _ Hr] HA Hne Hgr Hmr HS Hall Hat n r' Hnr.
  unfold rmw_link in Hnr. rewrite (adds_rmw _ _ _ HA), Hr in Hnr.
  assert (∀ a b, edge g a b → edge g3 a b) as Hmono.
  { intros a b Hab. apply (adds_mono _ _ _ HA). unfold edge. by rewrite He. }
  assert (∀ t, edge g3 n t → n ≠ r → edge g n t ∨ (n, t) = (m, r)) as Hold.
  { intros t [Ht|Ht]%(adds_edge_iff _ _ _ HA) Hn; [left; unfold edge in *; by rewrite He in Ht|].
    destruct (HS _ _ Ht); [done|auto]. }
  case_decide; simplify_eq.
  - split; [done|]. intros t Ht. destruct (decide (t = r')) as [->|Htr]; [apply rtc_refl|].
    apply rtc_once, Hall; [|done]. destruct (Hold t Ht) as [?|[= ->]]; congruence.
  - destruct (Hat n r' Hnr) as [H1 H2]. split; [auto|]. intros t Ht.
    destruct (Hold t Ht) as [?|[= -> ->]]; [congruence|eapply rtc_mono; [exact Hmono|by apply H2]|done].
Qed.

(** A write that no RMW reads from yet. *)
Lemma rmw_core_first m r g :
  graph_wf g → m ∈ dom (cg_nodes g) → r ∈ dom (cg_nodes g) → m ≠ r →
  getRMW g m = None → getRMW g r = None →
  ∃ g', rmw_core m r g = Ok g' ∧ graph_wf g' ∧ edge g' m r ∧ getRMW g' m = Some r ∧
    (rmw_atomic g → rmw_atomic g') ∧ (∀ o, getNode_noCreate g' o = getNode_noCreate g o) ∧
    (∀ g0, since g0 g → since g0 g') ∧ (∀ a b, edge g a b → edge g' a b) ∧
    (cg_hasCycles g = true → cg_hasCycles g' = true) ∧
    (back_edges g r = [] ∨ edges g m = [] → acyclic g → cg_hasCycles g = false →
       cg_hasCycles g' = false ↔ acyclic g').
Proof.
  intros Hwf Hm Hr Hne Hgm Hgr. unfold rmw_core, setRMW. rewrite Hgm. cbn -[edges].
  pose proof (rmw_set_spec m r g Hwf Hm Hr Hne Hgm Hgr) as Hset.
  pose proof (rmw_set_since m r) as Hsince.
  set (g1 := push_rmwrollback m _) in *. destruct Hset as [Hwf1 Hd1 He1 Hb1 Hr1] eqn:Hq. clear Hq.
  destruct (transfer_edges_spec r (edges g1 m) g1) as (S & HA & Hv & Hrv & Hc & Hwf2 & HS & Hall).
  { by rewrite Hd1. } { intros t Ht. by apply (gw_dom_edge g1 Hwf1 m). } { done. }
  set (g2 := transfer_edges (edges g1 m) r g1) in *.
  pose proof (sf_dom _ _ (adds_frame _ _ _ HA)) as Hd2.
  destruct (addNodeEdge_spec m r g2) as (g3 & S3 & Heq & HL & Hmr & _ & HS3); [done|by rewrite Hd2, Hd1..|].
  specialize (HS3 ltac:(right; by rewrite (adds_rmw _ _ _ HA), Hr1, decide_True)).
  pose proof (lg_adds _ _ _ HL) as HA3. pose proof (adds_app _ _ _ _ _ HA HA3) as HA13.
  rewrite Heq. simpl. exists g3. split_and!; [done|by apply HL|done|..].
  - by rewrite (adds_rmw _ _ _ HA13), Hr1, decide_True.
  - apply (rmw_set_atomic m r _ g g1 g3 Hset HA13); try done.
    + intros a b [Hab|Hab]%elem_of_app; [destruct (HS a b Hab); auto|right; by apply HS3].
    + intros t Ht Htr. apply (adds_mono _ _ _ HA3), Hall; [|done]. by rewrite He1.
  - intros o. rewrite (adds_noCreate _ _ _ _ HA13). by destruct o.
  - intros g0 Hsi. eapply since_logged; [|done]. eapply since_adds; [|done..]. by apply Hsince.
  - intros a b Hab. apply (adds_mono _ _ _ HA13). unfold edge. by rewrite He1.
  - intros Hct. apply (lg_cycles _ _ _ HL). by rewrite Hc.
  - intros Hnew Hac Hcf. apply (lg_exact _ _ _ HL); [|by rewrite Hc].
    apply (transfer_acyclic m r S g1 g2 Hwf1 HA HS); [by rewrite Hb1, He1|].
    intros n Hn. apply (Hac n). eapply tc_mono; [|done]. unfold edge. intros ??. by rewrite He1.
Qed.

(** A write that an RMW already reads from: the second RMW is reported as a cycle. *)
Lemma rmw_core_second m r q g :
  graph_wf g → m ∈ dom (cg_nodes g) → r ∈ dom (cg_nodes g) →
  getRMW g m = Some q → getRMW g r = None →
  ∃ g', rmw_core m r g = Ok g' ∧ graph_wf g' ∧ edge g' m r ∧
    (rmw_atomic g → rmw_atomic g') ∧ (∀ o, getNode_noCreate g' o = getNode_noCreate g o) ∧
    (∀ g0, since g0 g → since g0 g') ∧ (∀ a b, edge g a b → edge g' a b) ∧
    cg_hasCycles g' = true.
Proof.
  intros Hwf Hm Hr Hgm Hgr. unfold rmw_core, setRMW. rewrite Hgm. cbn -[edges].
  set (g1 := set_hasCycles true g).
  assert (graph_wf g1) as Hwf1 by (by eapply shape_wf; [..|exact Hwf]).
  destruct (transfer_edges_spec r (edges g1 m) g1) as (S & HA & Hv & Hrv & Hc & Hwf2 & HS & Hall).
  { done. } { intros t Ht. by apply (gw_dom_edge g1 Hwf1 m). } { done. }
  set (g2 := transfer_edges (edges g1 m) r g1) in *.
  pose proof (sf_dom _ _ (adds_frame _ _ _ HA)) as Hd2.
  destruct (addNodeEdge_spec m r g2) as (g3 & S3 & Heq & HL & Hmr & Hat3 & _); [done|by rewrite Hd2..|].
  pose proof (lg_adds _ _ _ HL) as HA3. pose proof (adds_app _ _ _ _ _ HA HA3) as HA13.
  rewrite Heq. simpl. exists g3. split_and!; [done|by apply HL|done|..].
  - intros Hat. apply Hat3, (rmw_atomic_adds _ _ _ HA); [by eapply rmw_atomic_shape; [|exact Hat]|].
    intros n t r' Hnt Hn. destruct (HS _ _ Hnt) as [-> _]. change (getRMW g1 r) with (getRMW g r) in Hn. congruence.
  - intros o. rewrite (adds_noCreate _ _ _ _ HA13). by destruct o.
  - intros g0 Hsi. eapply since_logged; [|done]. eapply since_adds; [|done..]. by apply (since_adds g0 g g1 []); [|constructor|rewrite app_nil_r|].
  - intros a b Hab. by apply (adds_mono _ _ _ HA13).
  - apply (lg_cycles _ _ _ HL). by rewrite Hc.
Qed.

Lemma addRMWEdge_eq from rmw g :
  addRMWEdge from rmw g =
    let '(g1, m) := getNode from g in
    let '(g2, r) := getNode (OAct rmw) g1 in
    _ ← ASSERT (bool_decide (getRMW g2 r = None)); rmw_core m r g2.
Proof. done. Qed.

(** The situation in which [addRMWEdge] is called: no RMW reads from [rmw] yet. *)
Definition rmw_unread (g : CycleGraph) (rmw : ptr) : Prop :=
  ∀ r, getNode_noCreate g (OAct rmw) = Some r → getRMW g r = None.

Lemma addRMWEdge_nodes from rmw g :
  graph_wf g → from ≠ OAct rmw → rmw_unread g rmw →
  ∃ g2 m r, addRMWEdge from rmw g = rmw_core m r g2 ∧ extends g g2 ∧
    m ∈ dom (cg_nodes g2) ∧ r ∈ dom (cg_nodes g2) ∧ m ≠ r ∧ getRMW g2 r = None ∧
    getNode_noCreate g2 from = Some m ∧ getNode_noCreate g2 (OAct rmw) = Some r ∧
    (getNode_noCreate g (OAct rmw) = None → back_edges g2 r = []) ∧
    (getNode_noCreate g from = None → edges g2 m = []).
Proof.
  intros Hwf Hne Hun. rewrite addRMWEdge_eq. destruct (getNode from g) as [g1 m] eqn:E1.
  destruct (getNode (OAct rmw) g1) as [g2 r] eqn:E2.
  destruct (getNodes_spec _ _ _ _ _ _ _ Hwf E1 E2) as (Hex & Hm & Hr & Hgm & Hgr).
  pose proof (ex_wf _ _ Hex Hwf) as Hwf2.
  assert (∀ n, n ∉ dom (cg_nodes g) → node_at g n = blank_node) as Hblank.
  { intros n Hn%not_elem_of_dom. unfold node_at. by rewrite Hn. }
  assert (getNode_noCreate g (OAct rmw) = None → r ∉ dom (cg_nodes g)) as Hrfresh.
  { intros Hn. destruct (getNode_spec _ _ _ _ Hwf E1) as (Hex1 & _ & Hfm & _).
    destruct (getNode_spec _ _ _ _ (ex_wf _ _ Hex1 Hwf) E2) as (_ & _ & _ & Hr').
    destruct (getNode_noCreate g1 (OAct rmw)) as [x|] eqn:E; [|by intros ?%(ex_dom _ _ Hex1)%Hr'].
    exfalso. destruct from as [a|p]; simpl in E1, E, Hn; unfold getNode_action, getNode_promise in E1.
    - destruct (getNode_noCreate_action g a); injection E1 as <- <-; [congruence|].
      unfold getNode_noCreate_action in *. simpl in E. rewrite lookup_insert_ne in E by congruence. congruence.
    - destruct (getNode_noCreate_promise g p); injection E1 as <- <-; [congruence|].
      unfold getNode_noCreate_action in *. simpl in E. congruence. }
  assert (getRMW g2 r = None) as Hnr.
  { destruct (ex_shape _ _ Hex r) as (_ & _ & ->).
    destruct (getNode_noCreate g (OAct rmw)) as [x|] eqn:E.
    - pose proof (ex_noCreate _ _ Hex _ _ E). apply Hun. congruence.
    - unfold getRMW. by rewrite Hblank by auto. }
  rewrite Hnr. exists g2, m, r. split_and!; try done.
  - intros ->. apply Hne. by eapply noCreate_inj.
  - intros Hn. destruct (ex_shape _ _ Hex r) as (_ & -> & _). unfold back_edges. by rewrite Hblank by auto.
  - intros Hn. destruct (ex_shape _ _ Hex m) as (-> & _ & _). unfold edges. rewrite Hblank; [done|].
    by apply (getNode_spec _ _ _ _ Hwf E1).
Qed.

Lemma new_node_at n : node_at new_CycleGraph n = blank_node.
Proof. unfold node_at. simpl. by rewrite lookup_empty. Qed.

Lemma new_CycleGraph_atomic : rmw_atomic new_CycleGraph.
Proof. intros n r. unfold rmw_link, getRMW. by rewrite new_node_at. Qed.

Lemma new_CycleGraph_acyclic : acyclic new_CycleGraph.
Proof. intros n [z Hz]%tc_first. unfold edge, edges in Hz. rewrite new_node_at in Hz. set_solver. Qed.

(** Without assumptions on [rmw], [addRMWEdge] either stops at its assertion or logs. *)
Lemma addRMWEdge_cases from rmw g :
  graph_wf g → from ≠ OAct rmw →
  addRMWEdge from rmw g = Err AssertFailed ∨
  ∃ g', addRMWEdge from rmw g = Ok g' ∧ graph_wf g' ∧ ∀ g0, since g0 g → since g0 g'.
Proof.
  intros Hwf Hne. rewrite addRMWEdge_eq. destruct (getNode from g) as [g1 m] eqn:E1.
  destruct (getNode (OAct rmw) g1) as [g2 r] eqn:E2.
  destruct (getNodes_spec _ _ _ _ _ _ _ Hwf E1 E2) as (Hex & Hm & Hr & Hgm & Hgr).
  pose proof (ex_wf _ _ Hex Hwf) as Hwf2.
  assert (m ≠ r) as Hmr by (intros ->; apply Hne; by eapply noCreate_inj).
  case_bool_decide as Hnr; [|by left]. right. cbn.
  destruct (getRMW g2 m) as [q|] eqn:Eq.
  - destruct (rmw_core_second m r q g2) as (g' & -> & ? & _ & _ & _ & Hs & _); [done..|].
    exists g'. split_and!; [done..|]. intros g0 H0. by eapply Hs, since_extends.
  - destruct (rmw_core_first m r g2) as (g' & -> & ? & _ & _ & _ & _ & Hs & _); [done..|].
    exists g'. split_and!; [done..|]. intros g0 H0. by eapply Hs, since_extends.
Qed.

(** ** Sequences of changes *)

Inductive mo_op :=
  | MO_edge (from to : obj)
  | MO_rmw (from : obj) (rmw : ptr).

Definition mo_exec (o : mo_op) (g : CycleGraph) : result CycleGraph :=
  match o with
  | MO_edge from to => '(g, _) ← addEdge from to g; Ok g
  | MO_rmw from rmw => addRMWEdge from rmw g
  end.

Fixpoint mo_run (ops : list mo_op) (g : CycleGraph) : result CycleGraph :=
  match ops with
  | [] => Ok g
  | o :: ops => g ← mo_exec o g; mo_run ops g
  end.

(** No action is made to read from itself. *)
Definition mo_op_ok (o : mo_op) : Prop :=
  match o with MO_edge _ _ => True | MO_rmw from rmw => from ≠ OAct rmw end.

Lemma mo_run_since ops : ∀ g,
  graph_wf g → Forall mo_op_ok ops →
  mo_run ops g = Err AssertFailed ∨
  ∃ g', mo_run ops g = Ok g' ∧ graph_wf g' ∧ ∀ g0, since g0 g → since g0 g'.
Proof.
  induction ops as [|o ops IH]; intros g Hwf Hok; cbn [mo_run].
  - right. by exists g.
  - apply Forall_cons in Hok as [Ho Hok]. destruct o as [from to|from rmw]; cbn [mo_exec].
    + destruct (addEdge_spec from to g Hwf) as (g1 & g2 & S & n & n' & -> & Hex & HL & _). cbn.
      destruct (IH g2) as [?|(g' & ? & ? & Hs)]; [|done|by left|].
      { by apply HL, Hex. }
      right. exists g'. split_and!; [done..|]. intros g0 Hg0. eapply Hs, since_logged; [|done]. by eapply since_extends.
    + destruct (addRMWEdge_cases from rmw g Hwf Ho) as [->|(g2 & -> & Hwf2 & H2)]; [by left|]. cbn.
      destruct (IH g2 Hwf2 Hok) as [?|(g' & ? & ? & Hs)]; [by left|]. right. exists g'. auto.
Qed.

Lemma startChanges_Ok g :
  startChanges g = Ok tt ↔
  cg_rollbackvector g = [] ∧ cg_rmwrollbackvector g = [] ∧ cg_oldCycles g = cg_hasCycles g.
Proof.
  unfold startChanges. split.
  - intros H. simplify_res. by repeat match goal with H : bool_decide _ = true |- _ => apply bool_decide_eq_true_1 in H end.
  - intros (H1 & H2 & H3). by rewrite !bool_decide_eq_true_2.
Qed.

(** ** Properties *)

(** C24. The depth-first search decides reachability. On any graph with at most
    2^30 - 1 edges, run with the open-addressing table the checker really uses for
    the nodes it has discovered, it terminates and answers whether [from] reaches [to]. *)
Theorem checkReachable_correct (g : CycleGraph) (from to : ptr) (disc : HashTable (option ptr)) m :
  ht_repr 4 disc (Some <$> m) →
  (N.of_nat (S (length (all_targets g))) <= 2 ^ 30)%N →
  ∃ b, checkReachable_with (H := HashTable_PtrTable ptr 4) disc g from to = Ok b ∧
    (b = true ↔ reaches g from to).
Proof.
  intros Hrep Hfit. apply (search_correct (H := HashTable_PtrTable ptr 4) g from to) with (m0 := m); [|done].
  simpl. intros n Hn. lia.
Qed.

(** A graph of three stores, 1 before 2 before 3. *)
Definition chain3 : CycleGraph :=
  match mo_run [MO_edge (OAct 10) (OAct 20); MO_edge (OAct 20) (OAct 30)] new_CycleGraph with
  | Ok g => g | Err _ => new_CycleGraph
  end.

Lemma checkReachable_correct_witness :
  ∃ b, checkReachable_with (H := HashTable_PtrTable ptr 4) (new_HashTable None 16) chain3 1 3 = Ok b ∧
    (b = true ↔ reaches chain3 1 3).
Proof.
  apply (checkReachable_correct chain3 1 3 (new_HashTable None 16) ∅).
  - rewrite fmap_empty. exact (new_HashTable_repr (None : option ptr) 4 4 ltac:(lia)).
  - vm_compute. discriminate.
Defined.

(** C1. Adding a modification-order edge never fails or diverges, and keeps the
    graph exact: it preserves well-formedness and RMW adjacency, makes [to] reachable
    from [from], forgets no earlier ordering, and reports a cycle exactly when the
    new graph has one. *)
Theorem addEdge_correct from to g :
  graph_wf g → rmw_atomic g → acyclic g → checkForCycles g = false →
  ∃ g' added, addEdge from to g = Ok (g', added) ∧ graph_wf g' ∧ rmw_atomic g' ∧
    checkReachable g' from to = true ∧
    (∀ o o', checkReachable g o o' = true → checkReachable g' o o' = true) ∧
    (checkForCycles g' = false ↔ acyclic g').
Proof.
  intros Hwf Hat Hac Hc.
  destruct (addEdge_spec from to g Hwf) as (g1 & g' & S & n & n' & Heq & Hex & HL & Hn & Hn' & He & Hat').
  exists g', (bool_decide (S ≠ [])). split_and!.
  - done.
  - by apply HL, Hex.
  - apply Hat'. eapply rmw_atomic_shape; [apply Hex|done].
  - rewrite (checkReachable_spec _ _ _ n n') by done. by apply rtc_once.
  - intros o o'. apply checkReachable_mono.
    + intros o1 n1 H1. rewrite (logged_noCreate _ _ _ _ HL). by apply Hex.
    + intros a b Hab. apply (adds_mono _ _ _ (lg_adds _ _ _ HL)). by rewrite <- (ex_shape _ _ Hex).
  - apply (lg_exact _ _ _ HL); [by rewrite <- (ex_shape _ _ Hex)|by rewrite (ex_hasCycles _ _ Hex)].
Qed.

Lemma addEdge_correct_witness :
  ∃ g' added, addEdge (OAct 1) (OAct 2) new_CycleGraph = Ok (g', added) ∧
    checkReachable g' (OAct 1) (OAct 2) = true.
Proof.
  destruct (addEdge_correct (OAct 1) (OAct 2) new_CycleGraph) as (g' & b & H & _ & _ & Hr & _).
  - apply new_CycleGraph_wf.
  - apply new_CycleGraph_atomic.
  - apply new_CycleGraph_acyclic.
  - reflexivity.
  - exists g', b. by split.
Defined.

(** C20. Recording that [rmw] reads from [from]. When no RMW reads from [rmw] yet, and
    [rmw] or [from] is a new node (the case analysis of the comment in the code), the
    operation succeeds, keeps the graph well formed and every RMW adjacent to its
    store; a second RMW on the same store is reported as a cycle, and otherwise a
    cycle is reported exactly when there is one. *)
Theorem addRMWEdge_correct from rmw g :
  graph_wf g → rmw_atomic g → from ≠ OAct rmw → rmw_unread g rmw →
  getNode_noCreate g (OAct rmw) = None ∨ getNode_noCreate g from = None →
  ∃ g' m r, addRMWEdge from rmw g = Ok g' ∧ graph_wf g' ∧ rmw_atomic g' ∧
    getNode_noCreate g' from = Some m ∧ getNode_noCreate g' (OAct rmw) = Some r ∧ edge g' m r ∧
    (getRMW g m ≠ None → checkForCycles g' = true) ∧
    (getRMW g m = None → getRMW g' m = Some r ∧
       (acyclic g → checkForCycles g = false → checkForCycles g' = false ↔ acyclic g')).
Proof.
  intros Hwf Hat Hne Hun Hnew.
  destruct (addRMWEdge_nodes from rmw g Hwf Hne Hun)
    as (g2 & m & r & -> & Hex & Hm & Hr & Hmr & Hgr & Hgm & Hgn & Hb & Hf).
  destruct (ex_shape _ _ Hex m) as (_ & _ & Erm).
  pose proof (ex_wf _ _ Hex Hwf) as Hwf2.
  pose proof (rmw_atomic_shape _ _ (ex_shape _ _ Hex) Hat) as Hat2.
  destruct (getRMW g2 m) as [q|] eqn:Eq.
  - destruct (rmw_core_second m r q g2) as (g' & -> & Hwf' & He & Ha & Hn & _ & _ & Hc); [done..|].
    exists g', m, r. rewrite !Hn. split_and!; auto; congruence.
  - destruct (rmw_core_first m r g2) as (g' & -> & Hwf' & He & Hr' & Ha & Hn & _ & _ & _ & Hex'); [done..|].
    exists g', m, r. rewrite !Hn. split_and!; auto.
    intros _. split; [done|].
    intros Hac Hc. apply Hex'; [naive_solver|by rewrite <- (ex_shape _ _ Hex)|by rewrite (ex_hasCycles _ _ Hex)].
Qed.

Lemma addRMWEdge_correct_witness :
  ∃ g' m r, addRMWEdge (OAct 1) 2 new_CycleGraph = Ok g' ∧
    getNode_noCreate g' (OAct 1) = Some m ∧ getNode_noCreate g' (OAct 2) = Some r ∧ edge g' m r.
Proof.
  destruct (addRMWEdge_correct (OAct 1) 2 new_CycleGraph)
    as (g' & m & r & ? & _ & _ & ? & ? & ? & _).
  - apply new_CycleGraph_wf.
  - apply new_CycleGraph_atomic.
  - discriminate.
  - intros r Hr. discriminate Hr.
  - left. reflexivity.
  - exists g', m, r. split_and!; assumption.
Defined.

(** C4. Rollback is exact. From a committed graph, any sequence of edge and RMW-edge
    additions either stops at the assertion of [addRMWEdge] or succeeds, and then
    [rollbackChanges] restores the edges, back edges and RMW marks of every node in
    their order, and the cycle flag. *)
Theorem rollback_restores ops g :
  graph_wf g → startChanges g = Ok tt → Forall mo_op_ok ops →
  mo_run ops g = Err AssertFailed ∨
  ∃ g', mo_run ops g = Ok g' ∧ rollbackChanges g' ≡ g ∧
    checkForCycles (rollbackChanges g') = checkForCycles g ∧
    startChanges (rollbackChanges g') = Ok tt.
Proof.
  intros Hwf (H & H1 & H2)%startChanges_Ok Hok.
  destruct (mo_run_since ops g Hwf Hok) as [?|(g' & Hrun & _ & Hs)]; [by left|]. right.
  exists g'. assert (since g g') as Hsi by (apply Hs; by apply since_refl).
  split; [done|]. split; [by apply since_rollback|]. split.
  - unfold checkForCycles. rewrite rollback_oldCycles, (si_old _ _ Hsi). done.
  - by apply startChanges_Ok.
Qed.

Lemma rollback_restores_witness :
  let ops := [MO_edge (OAct 1) (OAct 2); MO_rmw (OAct 1) 3; MO_edge (OAct 3) (OAct 1)] in
  mo_run ops new_CycleGraph = Err AssertFailed ∨
  ∃ g', mo_run ops new_CycleGraph = Ok g' ∧ rollbackChanges g' ≡ new_CycleGraph.
Proof.
  intros ops. destruct (rollback_restores ops new_CycleGraph) as [H|(g' & H & Hs & _)].
  - apply new_CycleGraph_wf.
  - reflexivity.
  - repeat constructor; discriminate.
  - left. exact H.
  - right. exists g'. by split.
Defined.

(** C40. Converting a promise node into a store node cannot succeed. When the store that
    resolves a promise has no node yet, [resolvePromise] never returns: the node forgets
    its promise before [erasePromiseNode] is asked for it, and the hash table refuses
    the NULL key. (A store whose node exists is merged instead.) *)
Theorem resolvePromise_conversion_fails acts proms promise writer n g :
  getNode_noCreate_promise g promise = Some n → getNode_noCreate_action g writer = None →
  ∀ r, resolvePromise acts proms promise writer g ≠ Ok r.
Proof.
  intros Hp Hw r H. unfold resolvePromise in H. rewrite Hp, Hw in H.
  unfold cn_resolvePromise in H. simplify_res. rewrite node_at_update, decide_True in * by done. done.
Qed.

(** A promise with a node, and a store of its thread that has none. *)
Lemma resolvePromise_conversion_fails_witness :
  let g := (getNode_promise 7 new_CycleGraph).1 in
  resolvePromise ∅ ∅ 7 9 g ≠ Ok (putNode_action 9 1 g, true).
Proof. intros g. exact (resolvePromise_conversion_fails ∅ ∅ 7 9 1 g eq_refl eq_refl _). Defined.
