(* ===== verification/NodeStack.v ===== *)
(** * Exploration nodes and their stack (nodestack.h, nodestack.cc, params.h)

    A [Node] holds the choices open at one point of an execution: the threads to
    run next, the stores, promises and future values a read may read from, the
    promises a write may resolve, the release sequences to break. The [NodeStack]
    is the path of nodes of the execution being explored or replayed. Nodes are
    heap objects; they are freed with their actions when the stack is popped. *)

From S2P Require Import Prelude ClockVector Action Promise.

(** ** Parameters (params.h) *)
Record model_params := mkParams {
  maxreads : Z;
  maxfuturedelay : Z;
  yieldon : bool;
  yieldblock : bool;
  fairwindow : N;
  enabledcount : N;
  bound : N;
  uninitvalue : N;
  maxexecutions : Z;
  maxfuturevalues : Z;
  expireslop : N;
  verbose : Z
}.

(** ** Data *)

(** schedule.h *)
Inductive enabled_type := THREAD_DISABLED | THREAD_ENABLED | THREAD_SLEEP_SET.
#[global] Instance enabled_type_eq_dec : EqDecision enabled_type.
Proof. solve_decision. Defined.

Inductive read_from_type := READ_FROM_PAST | READ_FROM_PROMISE | READ_FROM_FUTURE | READ_FROM_NONE.
#[global] Instance read_from_type_eq_dec : EqDecision read_from_type.
Proof. solve_decision. Defined.

Record fairness_info := mkFairness {
  fi_enabled_count : N;
  fi_turns : N;
  fi_priority : bool
}.

Definition YIELD_E : N := 1.
Definition YIELD_D : N := 2.
Definition YIELD_S : N := 4.
Definition YIELD_P : N := 8.
Definition YIELD_INDEX (tid1 tid2 num_threads : nat) : nat := tid1 * num_threads + tid2.

Record Node := mkNode {
  n_read_from_status : read_from_type;
  n_action : ptr;
  n_uninit_action : option ptr;
  n_parent : option ptr;
  n_num_threads : nat;
  n_explored_children : list bool;
  n_backtrack : list bool;
  n_fairness : list fairness_info;
  n_numBacktracks : Z;
  n_enabled_array : option (list enabled_type);
  n_read_from_past : list ptr;
  n_read_from_past_idx : nat;
  n_read_from_promises : list ptr;
  n_read_from_promise_idx : Z;
  n_future_values : list future_value;
  n_future_index : Z;
  n_resolve_promise : list bool;
  n_resolve_promise_idx : Z;
  n_relseq_break_writes : list (option ptr);
  n_relseq_break_index : Z;
  n_misc_index : Z;
  n_misc_max : Z;
  n_yield_data : option (list N)
}.

Definition set_n_read_from_status (v : read_from_type) (x : Node) : Node :=
  mkNode v (n_action x) (n_uninit_action x) (n_parent x) (n_num_threads x)
    (n_explored_children x) (n_backtrack x) (n_fairness x) (n_numBacktracks x)
    (n_enabled_array x) (n_read_from_past x) (n_read_from_past_idx x) (n_read_from_promises x)
    (n_read_from_promise_idx x) (n_future_values x) (n_future_index x) (n_resolve_promise x)
    (n_resolve_promise_idx x) (n_relseq_break_writes x) (n_relseq_break_index x)
    (n_misc_index x) (n_misc_max x) (n_yield_data x).
Definition set_n_uninit_action (v : option ptr) (x : Node) : Node :=
  mkNode (n_read_from_status x) (n_action x) v (n_parent x) (n_num_threads x)
    (n_explored_children x) (n_backtrack x) (n_fairness x) (n_numBacktracks x)
    (n_enabled_array x) (n_read_from_past x) (n_read_from_past_idx x) (n_read_from_promises x)
    (n_read_from_promise_idx x) (n_future_values x) (n_future_index x) (n_resolve_promise x)
    (n_resolve_promise_idx x) (n_relseq_break_writes x) (n_relseq_break_index x)
    (n_misc_index x) (n_misc_max x) (n_yield_data x).
Definition set_n_explored_children (v : list bool) (x : Node) : Node :=
  mkNode (n_read_from_status x) (n_action x) (n_uninit_action x) (n_parent x) (n_num_threads x)
    v (n_backtrack x) (n_fairness x) (n_numBacktracks x) (n_enabled_array x)
    (n_read_from_past x) (n_read_from_past_idx x) (n_read_from_promises x)
    (n_read_from_promise_idx x) (n_future_values x) (n_future_index x) (n_resolve_promise x)
    (n_resolve_promise_idx x) (n_relseq_break_writes x) (n_relseq_break_index x)
    (n_misc_index x) (n_misc_max x) (n_yield_data x).
Definition set_n_backtrack (v : list bool) (x : Node) : Node :=
  mkNode (n_read_from_status x) (n_action x) (n_uninit_action x) (n_parent x) (n_num_threads x)
    (n_explored_children x) v (n_fairness x) (n_numBacktracks x) (n_enabled_array x)
    (n_read_from_past x) (n_read_from_past_idx x) (n_read_from_promises x)
    (n_read_from_promise_idx x) (n_future_values x) (n_future_index x) (n_resolve_promise x)
    (n_resolve_promise_idx x) (n_relseq_break_writes x) (n_relseq_break_index x)
    (n_misc_index x) (n_misc_max x) (n_yield_data x).
Definition set_n_numBacktracks (v : Z) (x : Node) : Node :=
  mkNode (n_read_from_status x) (n_action x) (n_uninit_action x) (n_parent x) (n_num_threads x)
    (n_explored_children x) (n_backtrack x) (n_fairness x) v (n_enabled_array x)
    (n_read_from_past x) (n_read_from_past_idx x) (n_read_from_promises x)
    (n_read_from_promise_idx x) (n_future_values x) (n_future_index x) (n_resolve_promise x)
    (n_resolve_promise_idx x) (n_relseq_break_writes x) (n_relseq_break_index x)
    (n_misc_index x) (n_misc_max x) (n_yield_data x).
Definition set_n_enabled_array (v : option (list enabled_type)) (x : Node) : Node :=
  mkNode (n_read_from_status x) (n_action x) (n_uninit_action x) (n_parent x) (n_num_threads x)
    (n_explored_children x) (n_backtrack x) (n_fairness x) (n_numBacktracks x) v
    (n_read_from_past x) (n_read_from_past_idx x) (n_read_from_promises x)
    (n_read_from_promise_idx x) (n_future_values x) (n_future_index x) (n_resolve_promise x)
    (n_resolve_promise_idx x) (n_relseq_break_writes x) (n_relseq_break_index x)
    (n_misc_index x) (n_misc_max x) (n_yield_data x).
Definition set_n_read_from_past (v : list ptr) (x : Node) : Node :=
  mkNode (n_read_from_status x) (n_action x) (n_uninit_action x) (n_parent x) (n_num_threads x)
    (n_explored_children x) (n_backtrack x) (n_fairness x) (n_numBacktracks x)
    (n_enabled_array x) v (n_read_from_past_idx x) (n_read_from_promises x)
    (n_read_from_promise_idx x) (n_future_values x) (n_future_index x) (n_resolve_promise x)
    (n_resolve_promise_idx x) (n_relseq_break_writes x) (n_relseq_break_index x)
    (n_misc_index x) (n_misc_max x) (n_yield_data x).
Definition set_n_read_from_past_idx (v : nat) (x : Node) : Node :=
  mkNode (n_read_from_status x) (n_action x) (n_uninit_action x) (n_parent x) (n_num_threads x)
    (n_explored_children x) (n_backtrack x) (n_fairness x) (n_numBacktracks x)
    (n_enabled_array x) (n_read_from_past x) v (n_read_from_promises x)
    (n_read_from_promise_idx x) (n_future_values x) (n_future_index x) (n_resolve_promise x)
    (n_resolve_promise_idx x) (n_relseq_break_writes x) (n_relseq_break_index x)
    (n_misc_index x) (n_misc_max x) (n_yield_data x).
Definition set_n_read_from_promises (v : list ptr) (x : Node) : Node :=
  mkNode (n_read_from_status x) (n_action x) (n_uninit_action x) (n_parent x) (n_num_threads x)
    (n_explored_children x) (n_backtrack x) (n_fairness x) (n_numBacktracks x)
    (n_enabled_array x) (n_read_from_past x) (n_read_from_past_idx x) v
    (n_read_from_promise_idx x) (n_future_values x) (n_future_index x) (n_resolve_promise x)
    (n_resolve_promise_idx x) (n_relseq_break_writes x) (n_relseq_break_index x)
    (n_misc_index x) (n_misc_max x) (n_yield_data x).
Definition set_n_read_from_promise_idx (v : Z) (x : Node) : Node :=
  mkNode (n_read_from_status x) (n_action x) (n_uninit_action x) (n_parent x) (n_num_threads x)
    (n_explored_children x) (n_backtrack x) (n_fairness x) (n_numBacktracks x)
    (n_enabled_array x) (n_read_from_past x) (n_read_from_past_idx x) (n_read_from_promises x) v
    (n_future_values x) (n_future_index x) (n_resolve_promise x) (n_resolve_promise_idx x)
    (n_relseq_break_writes x) (n_relseq_break_index x) (n_misc_index x) (n_misc_max x)
    (n_yield_data x).
Definition set_n_future_values (v : list future_value) (x : Node) : Node :=
  mkNode (n_read_from_status x) (n_action x) (n_uninit_action x) (n_parent x) (n_num_threads x)
    (n_explored_children x) (n_backtrack x) (n_fairness x) (n_numBacktracks x)
    (n_enabled_array x) (n_read_from_past x) (n_read_from_past_idx x) (n_read_from_promises x)
    (n_read_from_promise_idx x) v (n_future_index x) (n_resolve_promise x)
    (n_resolve_promise_idx x) (n_relseq_break_writes x) (n_relseq_break_index x)
    (n_misc_index x) (n_misc_max x) (n_yield_data x).
Definition set_n_future_index (v : Z) (x : Node) : Node :=
  mkNode (n_read_from_status x) (n_action x) (n_uninit_action x) (n_parent x) (n_num_threads x)
    (n_explored_children x) (n_backtrack x) (n_fairness x) (n_numBacktracks x)
    (n_enabled_array x) (n_read_from_past x) (n_read_from_past_idx x) (n_read_from_promises x)
    (n_read_from_promise_idx x) (n_future_values x) v (n_resolve_promise x)
    (n_resolve_promise_idx x) (n_relseq_break_writes x) (n_relseq_break_index x)
    (n_misc_index x) (n_misc_max x) (n_yield_data x).
Definition set_n_resolve_promise (v : list bool) (x : Node) : Node :=
  mkNode (n_read_from_status x) (n_action x) (n_uninit_action x) (n_parent x) (n_num_threads x)
    (n_explored_children x) (n_backtrack x) (n_fairness x) (n_numBacktracks x)
    (n_enabled_array x) (n_read_from_past x) (n_read_from_past_idx x) (n_read_from_promises x)
    (n_read_from_promise_idx x) (n_future_values x) (n_future_index x) v
    (n_resolve_promise_idx x) (n_relseq_break_writes x) (n_relseq_break_index x)
    (n_misc_index x) (n_misc_max x) (n_yield_data x).
Definition set_n_resolve_promise_idx (v : Z) (x : Node) : Node :=
  mkNode (n_read_from_status x) (n_action x) (n_uninit_action x) (n_parent x) (n_num_threads x)
    (n_explored_children x) (n_backtrack x) (n_fairness x) (n_numBacktracks x)
    (n_enabled_array x) (n_read_from_past x) (n_read_from_past_idx x) (n_read_from_promises x)
    (n_read_from_promise_idx x) (n_future_values x) (n_future_index x) (n_resolve_promise x) v
    (n_relseq_break_writes x) (n_relseq_break_index x) (n_misc_index x) (n_misc_max x)
    (n_yield_data x).
Definition set_n_relseq_break_writes (v : list (option ptr)) (x : Node) : Node :=
  mkNode (n_read_from_status x) (n_action x) (n_uninit_action x) (n_parent x) (n_num_threads x)
    (n_explored_children x) (n_backtrack x) (n_fairness x) (n_numBacktracks x)
    (n_enabled_array x) (n_read_from_past x) (n_read_from_past_idx x) (n_read_from_promises x)
    (n_read_from_promise_idx x) (n_future_values x) (n_future_index x) (n_resolve_promise x)
    (n_resolve_promise_idx x) v (n_relseq_break_index x) (n_misc_index x) (n_misc_max x)
    (n_yield_data x).
Definition set_n_relseq_break_index (v : Z) (x : Node) : Node :=
  mkNode (n_read_from_status x) (n_action x) (n_uninit_action x) (n_parent x) (n_num_threads x)
    (n_explored_children x) (n_backtrack x) (n_fairness x) (n_numBacktracks x)
    (n_enabled_array x) (n_read_from_past x) (n_read_from_past_idx x) (n_read_from_promises x)
    (n_read_from_promise_idx x) (n_future_values x) (n_future_index x) (n_resolve_promise x)
    (n_resolve_promise_idx x) (n_relseq_break_writes x) v (n_misc_index x) (n_misc_max x)
    (n_yield_data x).
Definition set_n_misc_index (v : Z) (x : Node) : Node :=
  mkNode (n_read_from_status x) (n_action x) (n_uninit_action x) (n_parent x) (n_num_threads x)
    (n_explored_children x) (n_backtrack x) (n_fairness x) (n_numBacktracks x)
    (n_enabled_array x) (n_read_from_past x) (n_read_from_past_idx x) (n_read_from_promises x)
    (n_read_from_promise_idx x) (n_future_values x) (n_future_index x) (n_resolve_promise x)
    (n_resolve_promise_idx x) (n_relseq_break_writes x) (n_relseq_break_index x) v
    (n_misc_max x) (n_yield_data x).
Definition set_n_misc_max (v : Z) (x : Node) : Node :=
  mkNode (n_read_from_status x) (n_action x) (n_uninit_action x) (n_parent x) (n_num_threads x)
    (n_explored_children x) (n_backtrack x) (n_fairness x) (n_numBacktracks x)
    (n_enabled_array x) (n_read_from_past x) (n_read_from_past_idx x) (n_read_from_promises x)
    (n_read_from_promise_idx x) (n_future_values x) (n_future_index x) (n_resolve_promise x)
    (n_resolve_promise_idx x) (n_relseq_break_writes x) (n_relseq_break_index x)
    (n_misc_index x) v (n_yield_data x).
Definition set_n_yield_data (v : option (list N)) (x : Node) : Node :=
  mkNode (n_read_from_status x) (n_action x) (n_uninit_action x) (n_parent x) (n_num_threads x)
    (n_explored_children x) (n_backtrack x) (n_fairness x) (n_numBacktracks x)
    (n_enabled_array x) (n_read_from_past x) (n_read_from_past_idx x) (n_read_from_promises x)
    (n_read_from_promise_idx x) (n_future_values x) (n_future_index x) (n_resolve_promise x)
    (n_resolve_promise_idx x) (n_relseq_break_writes x) (n_relseq_break_index x)
    (n_misc_index x) (n_misc_max x) v.

(** ** Node: construction and fairness *)

Definition node_is_enabled (x : Node) (tid : thread_id_t) : result bool :=
  let thread_id := id_to_int tid in
  if thread_id <? n_num_threads x then
    arr ← deref (n_enabled_array x);
    e ← at_index arr thread_id;
    Ok (negb (bool_decide (e = THREAD_DISABLED)))
  else Ok false.

Definition enabled_status (x : Node) (tid : thread_id_t) : result enabled_type :=
  let thread_id := id_to_int tid in
  if thread_id <? n_num_threads x then
    arr ← deref (n_enabled_array x); at_index arr thread_id
  else Ok THREAD_DISABLED.

Definition has_priority (x : Node) (tid : thread_id_t) : result bool :=
  fi ← at_index (n_fairness x) (id_to_int tid); Ok (fi_priority fi).

Section construction.
Context (params : model_params) (acts : gmap ptr ModelAction) (nodes : gmap ptr Node).

(** One iteration of the constructor's loop over the threads. *)
Definition fairness_step (currtid : nat) (parent prevfairness : option Node) (i : nat)
    : result fairness_info :=
  let fi :=
    match parent with
    | Some par => if i <? n_num_threads par then default (mkFairness 0 0 false) (n_fairness par !! i)
                  else mkFairness 0 0 false
    | None => mkFairness 0 0 false
    end in
  en ← match parent with Some par => node_is_enabled par (int_to_id i) | None => Ok false end;
  let fi := if (en : bool) then mkFairness (wrap32 (fi_enabled_count fi + 1)) (fi_turns fi) (fi_priority fi) else fi in
  let fi := if i =? currtid then mkFairness (fi_enabled_count fi) (wrap32 (fi_turns fi + 1)) false else fi in
  match prevfairness with
  | None => Ok fi
  | Some pf =>
      pfact ← deref (acts !! n_action pf);
      let prevtid := id_to_int (a_tid pfact) in
      pfpar ← deref (n_parent pf ≫= (nodes !!.));
      pen ← node_is_enabled pfpar (int_to_id i);
      let fi := if (pen : bool) then mkFairness (wrap32 (fi_enabled_count fi + (2 ^ 32 - 1))) (fi_turns fi) (fi_priority fi) else fi in
      let fi := if i =? prevtid then mkFairness (fi_enabled_count fi) (wrap32 (fi_turns fi + (2 ^ 32 - 1))) (fi_priority fi) else fi in
      Ok (if (enabledcount params <=? fi_enabled_count fi)%N && (fi_turns fi =? 0)%N
          then mkFairness (fi_enabled_count fi) (fi_turns fi) true else fi)
  end.

(** [Node::Node]; the back pointer [act->set_node(this)] is set by the caller, which
    knows the address of the new node. *)
Definition new_Node (act : ptr) (par : option ptr) (nthreads : nat) (prevfairness : option ptr)
    : result Node :=
  a ← deref (acts !! act);
  let currtid := id_to_int (a_tid a) in
  parent ← match par with None => Ok None | Some p => n ← deref (nodes !! p); Ok (Some n) end;
  pf ← match prevfairness with None => Ok None | Some p => n ← deref (nodes !! p); Ok (Some n) end;
  fairness ←
    if (fairwindow params =? 0)%N then Ok (replicate nthreads (mkFairness 0 0 false))
    else foldM (λ i l, fi ← fairness_step currtid parent pf i; Ok (l ++ [fi])) (seq 0 nthreads) [];
  Ok (mkNode READ_FROM_PAST act None par nthreads (replicate nthreads false)
        (replicate nthreads false) fairness 0 None [] 0 [] (-1) [] (-1) [] (-1) [] 0 0 0 None).
End construction.

(** ** Node: yield-based priorities *)

Definition get_yield_data (x : Node) (tid1 tid2 : nat) : result N :=
  if (tid1 <? n_num_threads x) && (tid2 <? n_num_threads x) then
    yd ← deref (n_yield_data x); at_index yd (YIELD_INDEX tid1 tid2 (n_num_threads x))
  else Ok (N.lor YIELD_S YIELD_D).

Definition has_priority_over (x : Node) (tid1 tid2 : thread_id_t) : result bool :=
  yd ← get_yield_data x (id_to_int tid1) (id_to_int tid2);
  Ok (negb (N.land yd YIELD_P =? 0)%N).

Section update_yield.
Context (sched_is_enabled : thread_id_t → bool) (parent : Node) (action : ModelAction).

(** The body of the loop over [u] and [v]. *)
Definition yield_entry (u v : nat) : result N :=
  let curr_tid := id_to_int (a_tid action) in
  yield_state ← get_yield_data parent u v;
  let next_enabled := sched_is_enabled (int_to_id v) in
  curr_enabled ← node_is_enabled parent (int_to_id v);
  Ok (if negb next_enabled then
        let yield_state := N.ldiff yield_state YIELD_E in
        if (u =? curr_tid) && (curr_enabled : bool) then N.lor yield_state YIELD_D else yield_state
      else yield_state).

Definition yield_row (n : nat) (u : nat) (yd : list N) : result (list N) :=
  let curr_tid := id_to_int (a_tid action) in
  yd ← foldM (λ v yd, s ← yield_entry u v; set_at (YIELD_INDEX u v n) s yd) (seq 0 n) yd;
  s ← at_index yd (YIELD_INDEX u curr_tid n);
  set_at (YIELD_INDEX u curr_tid n) (N.lor (N.ldiff s YIELD_P) YIELD_S) yd.

(** The [curr.yield(t)] part. *)
Definition yield_mark (n : nat) (v : nat) (yd : list N) : result (list N) :=
  let curr_tid := id_to_int (a_tid action) in
  s ← at_index yd (YIELD_INDEX curr_tid v n);
  let s := if negb (N.land s (N.lor YIELD_E YIELD_D) =? 0)%N && (N.land s YIELD_S =? 0)%N
           then N.lor s YIELD_P else s in
  let s := N.land s YIELD_P in
  let s := if sched_is_enabled (int_to_id v) then N.lor s YIELD_E else s in
  set_at (YIELD_INDEX curr_tid v n) s yd.
End update_yield.

Definition update_yield (sched_is_enabled : thread_id_t → bool) (nodes : gmap ptr Node)
    (acts : gmap ptr ModelAction) (x : Node) : result Node :=
  let n := n_num_threads x in
  let yd := default (replicate (n * n) 0%N) (n_yield_data x) in
  match n_parent x with
  | None => Ok (set_n_yield_data (Some (replicate (n * n) (N.lor YIELD_S YIELD_D))) x)
  | Some par =>
      parent ← deref (nodes !! par);
      action ← deref (acts !! n_action x);
      yd ← foldM (yield_row sched_is_enabled parent action n) (seq 0 n) yd;
      yd ← if is_yield action then foldM (yield_mark sched_is_enabled action n) (seq 0 n) yd else Ok yd;
      Ok (set_n_yield_data (Some yd) x)
  end.

(** ** Node: threads backtracking *)

Definition has_been_explored (x : Node) (tid : thread_id_t) : result bool :=
  at_index (n_explored_children x) (id_to_int tid).

Definition backtrack_empty (x : Node) : bool := (n_numBacktracks x =? 0)%Z.

Definition explore (tid : thread_id_t) (x : Node) : result Node :=
  let i := id_to_int tid in
  _ ← ASSERT (i <? length (n_backtrack x));
  b ← at_index (n_backtrack x) i;
  let x := if (b : bool) then
             set_n_numBacktracks (n_numBacktracks x - 1)%Z
               (set_n_backtrack (<[i := false]> (n_backtrack x)) x)
           else x in
  ec ← set_at i true (n_explored_children x);
  Ok (set_n_explored_children ec x).

(** [is_enabled] is the scheduler's array, or NULL. *)
Definition explore_child (act_tid : thread_id_t) (is_enabled : option (list enabled_type)) (x : Node)
    : result Node :=
  arr ← match is_enabled with
        | Some e => if length e <? n_num_threads x then Err OutOfBounds else Ok (take (n_num_threads x) e)
        | None => Ok (replicate (n_num_threads x) THREAD_DISABLED)
        end;
  explore act_tid (set_n_enabled_array (Some arr) x).

Definition set_backtrack (id : thread_id_t) (x : Node) : result (Node * bool) :=
  let i := id_to_int id in
  _ ← ASSERT (i <? length (n_backtrack x));
  b ← at_index (n_backtrack x) i;
  if (b : bool) then Ok (x, false)
  else Ok (set_n_numBacktracks (n_numBacktracks x + 1)%Z
             (set_n_backtrack (<[i := true]> (n_backtrack x)) x), true).

(** The first set flag at or after index [i]. *)
Fixpoint first_true (l : list bool) (i : nat) : option nat :=
  match l with
  | [] => None
  | b :: l => if b then Some i else first_true l (S i)
  end.

Definition get_next_backtrack (x : Node) : result (Node * thread_id_t) :=
  match first_true (n_backtrack x) 0 with
  | None => Err AssertFailed
  | Some i =>
      Ok (set_n_numBacktracks (n_numBacktracks x - 1)%Z
            (set_n_backtrack (<[i := false]> (n_backtrack x)) x), int_to_id i)
  end.

Definition clear_backtracking (x : Node) : Node :=
  set_n_numBacktracks 0
    (set_n_explored_children (replicate (length (n_explored_children x)) false)
       (set_n_backtrack (replicate (length (n_backtrack x)) false) x)).

(** ** Node: promises to resolve *)

Definition set_promise (i : nat) (x : Node) : Node :=
  let l := if length (n_resolve_promise x) <=? i then grow (i + 1) false (n_resolve_promise x)
           else n_resolve_promise x in
  set_n_resolve_promise (<[i := true]> l) x.

Definition get_promise (x : Node) (i : nat) : bool :=
  (i <? length (n_resolve_promise x)) && (Z.of_nat i =? n_resolve_promise_idx x)%Z.

Definition increment_promise (x : Node) : Node * bool :=
  match n_resolve_promise x with
  | [] => (x, false)
  | _ =>
      let start := Z.to_nat (n_resolve_promise_idx x + 1) in
      match first_true (drop start (n_resolve_promise x)) start with
      | Some i => (set_n_resolve_promise_idx (Z.of_nat i) x, true)
      | None => (x, false)
      end
  end.

Definition promise_empty (x : Node) : bool :=
  let start := Z.to_nat (n_resolve_promise_idx x + 1) in
  forallb negb (drop start (n_resolve_promise x)).

Definition clear_promise_resolutions (x : Node) : Node :=
  set_n_resolve_promise_idx (-1) (set_n_resolve_promise [] x).

(** ** Node: miscellaneous choices *)

Definition set_misc_max (i : Z) (x : Node) : Node := set_n_misc_max i x.
Definition get_misc (x : Node) : Z := n_misc_index x.
Definition increment_misc (x : Node) : Node * bool :=
  if (n_misc_index x <? n_misc_max x)%Z then
    let x := set_n_misc_index (n_misc_index x + 1)%Z x in
    (x, (n_misc_index x <? n_misc_max x)%Z)
  else (x, false).
Definition misc_empty (x : Node) : bool := (n_misc_max x <=? n_misc_index x + 1)%Z.

(** ** Node: the may-read-from set *)

Definition add_read_from_past (act : ptr) (x : Node) : Node :=
  set_n_read_from_past (n_read_from_past x ++ [act]) x.
Definition get_read_from_past (x : Node) : option ptr := n_read_from_past x !! n_read_from_past_idx x.
Definition get_read_from_past_at (x : Node) (i : nat) : result ptr := at_index (n_read_from_past x) i.
Definition get_read_from_past_size (x : Node) : nat := length (n_read_from_past x).
Definition read_from_past_empty (x : Node) : bool :=
  length (n_read_from_past x) <=? n_read_from_past_idx x + 1.
Definition increment_read_from_past (x : Node) : Node * bool :=
  if n_read_from_past_idx x <? length (n_read_from_past x) then
    let x := set_n_read_from_past_idx (n_read_from_past_idx x + 1) x in
    (x, n_read_from_past_idx x <? length (n_read_from_past x))
  else (x, false).

Definition add_read_from_promise (reader : ptr) (x : Node) : Node :=
  set_n_read_from_promises (n_read_from_promises x ++ [reader]) x.
(** The reader whose promise is to be read; the promise is its [reads_from_promise]. *)
Definition get_read_from_promise (acts : gmap ptr ModelAction) (x : Node) : result (option ptr) :=
  let idx := n_read_from_promise_idx x in
  _ ← ASSERT ((0 <=? idx)%Z && (idx <? Z.of_nat (length (n_read_from_promises x)))%Z);
  r ← at_index (n_read_from_promises x) (Z.to_nat idx);
  a ← deref (acts !! r);
  Ok (a_reads_from_promise a).
Definition get_read_from_promise_at (acts : gmap ptr ModelAction) (x : Node) (i : nat) : result (option ptr) :=
  r ← at_index (n_read_from_promises x) i;
  a ← deref (acts !! r);
  Ok (a_reads_from_promise a).
Definition get_read_from_promise_size (x : Node) : nat := length (n_read_from_promises x).
Definition read_from_promise_empty (x : Node) : bool :=
  (Z.of_nat (length (n_read_from_promises x)) <=? n_read_from_promise_idx x + 1)%Z.
Definition increment_read_from_promise (x : Node) : Node * bool :=
  if (n_read_from_promise_idx x <? Z.of_nat (length (n_read_from_promises x)))%Z then
    let x := set_n_read_from_promise_idx (n_read_from_promise_idx x + 1)%Z x in
    (x, (n_read_from_promise_idx x <? Z.of_nat (length (n_read_from_promises x)))%Z)
  else (x, false).

Definition get_future_value (x : Node) : result future_value :=
  let idx := n_future_index x in
  _ ← ASSERT ((0 <=? idx)%Z && (idx <? Z.of_nat (length (n_future_values x)))%Z);
  at_index (n_future_values x) (Z.to_nat idx).
Definition future_value_empty (x : Node) : bool :=
  (Z.of_nat (length (n_future_values x)) <=? n_future_index x + 1)%Z.
Definition increment_future_value (x : Node) : Node * bool :=
  if (n_future_index x <? Z.of_nat (length (n_future_values x)))%Z then
    let x := set_n_future_index (n_future_index x + 1)%Z x in
    (x, (n_future_index x <? Z.of_nat (length (n_future_values x)))%Z)
  else (x, false).

(** The search of [add_future_value]: the highest index [idx] at which the value is
    found for the same thread ([-1] if none), or [None] if a found entry expires no
    earlier. *)
Fixpoint find_future (l : list future_value) (fv : future_value) (i : nat) (idx : Z) : option Z :=
  match l with
  | [] => Some idx
  | f :: l =>
      if (fv_value f =? fv_value fv)%N && bool_decide (fv_tid f = fv_tid fv) then
        if (fv_expiration fv <=? fv_expiration f)%N then None
        else find_future l fv (S i) (Z.of_nat i)
      else find_future l fv (S i) idx
  end.

Definition add_future_value (params : model_params) (fv : future_value) (x : Node) : Node * bool :=
  match find_future (n_future_values x) fv 0 (-1) with
  | None => (x, false)
  | Some idx =>
      let found := n_future_values x !! Z.to_nat idx in
      if (n_future_index x <? idx)%Z then
        match found with
        | Some f => (set_n_future_values
                       (<[Z.to_nat idx := mkFutureValue (fv_value f) (fv_expiration fv) (fv_tid f)]>
                          (n_future_values x)) x, true)
        | None => (x, true)
        end
      else if (0 <=? idx)%Z &&
              match found with
              | Some f => (fv_expiration fv <=? wrap32 (fv_expiration f + expireslop params))%N
              | None => false
              end then (x, false)
      else if (0 <? maxfuturevalues params)%Z &&
              (maxfuturevalues params <=? Z.of_nat (length (n_future_values x)))%Z then (x, false)
      else (set_n_future_values (n_future_values x ++ [fv]) x, true)
  end.

Definition increment_read_from (x : Node) : Node * bool :=
  let x := clear_promise_resolutions x in
  let '(x, b) := increment_read_from_past x in
  if (b : bool) then (set_n_read_from_status READ_FROM_PAST x, true)
  else
    let '(x, b) := increment_read_from_promise x in
    if (b : bool) then (set_n_read_from_status READ_FROM_PROMISE x, true)
    else
      let '(x, b) := increment_future_value x in
      if (b : bool) then (set_n_read_from_status READ_FROM_FUTURE x, true)
      else (set_n_read_from_status READ_FROM_NONE x, false).

Definition get_read_from_status (x : Node) : Node * read_from_type :=
  let x := if bool_decide (n_read_from_status x = READ_FROM_PAST) && bool_decide (n_read_from_past x = [])
           then (increment_read_from x).1 else x in
  (x, n_read_from_status x).

Definition read_from_empty (x : Node) : bool :=
  read_from_past_empty x && read_from_promise_empty x && future_value_empty x.

Definition read_from_size (x : Node) : nat :=
  length (n_read_from_past x) + length (n_read_from_promises x) + length (n_future_values x).

(** ** Node: breaking release sequences *)

Definition add_relseq_break (write : option ptr) (x : Node) : Node :=
  set_n_relseq_break_writes (n_relseq_break_writes x ++ [write]) x.
Definition get_relseq_break (x : Node) : result (option ptr) :=
  if (n_relseq_break_index x <? Z.of_nat (length (n_relseq_break_writes x)))%Z
  then at_index (n_relseq_break_writes x) (Z.to_nat (n_relseq_break_index x))
  else Ok None.
Definition increment_relseq_break (x : Node) : Node * bool :=
  if (n_relseq_break_index x <? Z.of_nat (length (n_relseq_break_writes x)))%Z then
    let x := set_n_relseq_break_index (n_relseq_break_index x + 1)%Z x in
    (x, (n_relseq_break_index x <? Z.of_nat (length (n_relseq_break_writes x)))%Z)
  else (x, false).
Definition relseq_break_empty (x : Node) : bool :=
  (Z.of_nat (length (n_relseq_break_writes x)) <=? n_relseq_break_index x + 1)%Z.

Definition increment_behaviors (x : Node) : Node * bool :=
  let '(x, b) := increment_misc x in
  if (b : bool) then (x, true)
  else
    let '(x, b) := increment_promise x in
    if (b : bool) then (x, true)
    else
      let '(x, b) := increment_read_from x in
      if (b : bool) then (x, true)
      else increment_relseq_break x.

(** ** NodeStack *)

Record NodeStack := mkNodeStack {
  ns_nodes : gmap ptr Node;         (* the heap of Node objects *)
  ns_next : ptr;                    (* the next address handed out by new *)
  ns_node_list : list ptr;
  ns_head_idx : Z;
  ns_total_nodes : Z
}.

Definition new_NodeStack : NodeStack := mkNodeStack ∅ 1 [] (-1) 1.

Definition update_Node (p : ptr) (f : Node → Node) (s : NodeStack) : NodeStack :=
  mkNodeStack (alter f p (ns_nodes s)) (ns_next s) (ns_node_list s) (ns_head_idx s) (ns_total_nodes s).
Definition store_Node (p : ptr) (x : Node) (s : NodeStack) : NodeStack :=
  mkNodeStack (<[p := x]> (ns_nodes s)) (ns_next s) (ns_node_list s) (ns_head_idx s) (ns_total_nodes s).

Definition get_head (s : NodeStack) : result (option ptr) :=
  if bool_decide (ns_node_list s = []) || (ns_head_idx s <? 0)%Z then Ok None
  else p ← at_index (ns_node_list s) (Z.to_nat (ns_head_idx s)); Ok (Some p).

Definition get_next (s : NodeStack) : result (option ptr) :=
  if bool_decide (ns_node_list s = []) then Ok None
  else
    let it := Z.to_nat (ns_head_idx s + 1) in
    if it =? length (ns_node_list s) then Ok None
    else p ← at_index (ns_node_list s) it; Ok (Some p).

Definition ns_reset_execution (s : NodeStack) : NodeStack :=
  mkNodeStack (ns_nodes s) (ns_next s) (ns_node_list s) (-1) (ns_total_nodes s).

(** [explore_action]: replay the recorded action, or record a new one. *)
Definition explore_action (params : model_params) (num_threads : nat) (act : ptr)
    (is_enabled : option (list enabled_type)) (acts : gmap ptr ModelAction) (s : NodeStack)
    : result (NodeStack * gmap ptr ModelAction * option ptr) :=
  if (ns_head_idx s + 1 <? Z.of_nat (length (ns_node_list s)))%Z then
    let s := mkNodeStack (ns_nodes s) (ns_next s) (ns_node_list s) (ns_head_idx s + 1) (ns_total_nodes s) in
    p ← at_index (ns_node_list s) (Z.to_nat (ns_head_idx s));
    x ← deref (ns_nodes s !! p);
    Ok (s, acts, Some (n_action x))
  else
    a ← deref (acts !! act);
    head ← get_head s;
    '(s, prevfairness) ←
      match head with
      | None => Ok (s, None)
      | Some h =>
          x ← deref (ns_nodes s !! h);
          x ← explore_child (a_tid a) is_enabled x;
          let s := store_Node h x s in
          if negb (fairwindow params =? 0)%N && (Z.of_N (fairwindow params) <? ns_head_idx s)%Z then
            pf ← at_index (ns_node_list s) (Z.to_nat (ns_head_idx s - Z.of_N (fairwindow params)));
            Ok (s, Some pf)
          else Ok (s, None)
      end;
    let next_threads := if is_type a THREAD_CREATE then num_threads + 1 else num_threads in
    x ← new_Node params acts (ns_nodes s) act head next_threads prevfairness;
    let p := ns_next s in
    Ok (mkNodeStack (<[p := x]> (ns_nodes s)) (Pos.succ p) (ns_node_list s ++ [p])
          (ns_head_idx s + 1) (ns_total_nodes s + 1),
        <[act := set_node p a]> acts, None).

(** The actions freed with a node. *)
Definition node_actions (x : Node) : list ptr :=
  n_action x :: match n_uninit_action x with Some u => [u] | None => [] end.

(** [delete] of every node of [l]; the second component lists the freed actions. *)
Fixpoint delete_nodes (l : list ptr) (m : gmap ptr Node) : gmap ptr Node * list ptr :=
  match l with
  | [] => (m, [])
  | p :: l =>
      let freed := match m !! p with Some x => node_actions x | None => [] end in
      let '(m, rest) := delete_nodes l (delete p m) in
      (m, freed ++ rest)
  end.

(** [pop_restofstack]: [resize] to a larger size would append NULL nodes, and
    [back()] of an empty list is undefined; both are faults here. *)
Definition pop_restofstack (numAhead : Z) (s : NodeStack) : result (NodeStack * list ptr) :=
  let it := (ns_head_idx s + numAhead)%Z in
  if (it <? 1)%Z || (Z.of_nat (length (ns_node_list s)) <? it)%Z then Err BadPointer
  else
    let n := Z.to_nat it in
    let '(m, freed) := delete_nodes (drop n (ns_node_list s)) (ns_nodes s) in
    let l := take n (ns_node_list s) in
    b ← deref (last l);
    x ← deref (m !! b);
    Ok (mkNodeStack (<[b := clear_backtracking x]> m) (ns_next s) l (ns_head_idx s) (ns_total_nodes s), freed).

Definition full_reset (s : NodeStack) : NodeStack * list ptr :=
  let '(m, freed) := delete_nodes (ns_node_list s) (ns_nodes s) in
  (mkNodeStack m (ns_next s) [] (-1) 1, freed).

(** ** The backtracking set *)

Definition in_backtrack (x : Node) (tid : thread_id_t) : Prop := n_backtrack x !! tid = Some true.

Record backtrack_wf (x : Node) : Prop := {
  bt_num : n_numBacktracks x = Z.of_nat (count_true (n_backtrack x));
  bt_len : length (n_backtrack x) = n_num_threads x;
  bt_explored : length (n_explored_children x) = n_num_threads x
}.

Lemma first_true_spec (l : list bool) : ∀ i,
  match first_true l i with
  | Some k => i ≤ k ∧ l !! (k - i) = Some true ∧ ∀ j : nat, i ≤ j < k → l !! (j - i) = Some false
  | None => ∀ j : nat, l !! j ≠ Some true
  end.
Proof.
  induction l as [|b l IH]; intros i; simpl; [done|]. destruct b.
  - rewrite Nat.sub_diag. split_and!; [lia|done|lia].
  - specialize (IH (S i)). destruct (first_true l (S i)) as [k|].
    + destruct IH as (H1 & H2 & H3). split_and!; [lia|by replace (k - i) with (S (k - S i)) by lia|].
      intros j Hj. destruct (decide (j = i)) as [->|]; [by rewrite Nat.sub_diag|].
      replace (j - i) with (S (j - S i)) by lia. apply H3. lia.
    + intros [|j]; [done|]. apply IH.
Qed.

Lemma flag_update_wf x (i : nat) (b b' : bool) :
  n_backtrack x !! i = Some b → backtrack_wf x →
  backtrack_wf (set_n_numBacktracks (n_numBacktracks x + (if b' then 1 else 0) - (if b then 1 else 0))%Z
                  (set_n_backtrack (<[i := b']> (n_backtrack x)) x)).
Proof.
  intros Hi [Hn Hl He]. split; simpl; [|by rewrite length_insert|done].
  pose proof (count_true_insert _ i b b' Hi). destruct b, b'; lia.
Qed.

Lemma in_backtrack_insert x (i : nat) (b : bool) n t :
  i < length (n_backtrack x) →
  in_backtrack (set_n_numBacktracks n (set_n_backtrack (<[i := b]> (n_backtrack x)) x)) t ↔
  (t = i ∧ b = true) ∨ (t ≠ i ∧ in_backtrack x t).
Proof.
  intros Hi. unfold in_backtrack. simpl. rewrite list_lookup_insert_Some. naive_solver.
Qed.

Lemma set_backtrack_spec tid x :
  backtrack_wf x → tid < n_num_threads x →
  ∃ x' b, set_backtrack tid x = Ok (x', b) ∧ backtrack_wf x' ∧
    (b = true ↔ ¬ in_backtrack x tid) ∧
    (∀ t, in_backtrack x' t ↔ t = tid ∨ in_backtrack x t) ∧
    n_explored_children x' = n_explored_children x.
Proof.
  intros Hwf Hlt. unfold set_backtrack, id_to_int. rewrite <- (bt_len _ Hwf) in Hlt.
  destruct (lookup_lt_is_Some_2 _ _ Hlt) as [b Hb].
  destruct (Nat.ltb_spec tid (length (n_backtrack x))); [|lia].
  cbn [ASSERT]. unfold at_index. rewrite Hb. simpl. unfold in_backtrack at 1. rewrite Hb. destruct b.
  - exists x, false. split_and!; [done|done|naive_solver| |done].
    intros t. unfold in_backtrack. naive_solver.
  - eexists _, true. split_and!; [done| |naive_solver| |done].
    + pose proof (flag_update_wf x tid false true Hb Hwf) as H'. simpl in H'. by rewrite Z.sub_0_r in H'.
    + intros t. rewrite in_backtrack_insert by done.
      destruct (decide (t = tid)); naive_solver.
Qed.

Lemma get_next_backtrack_spec x :
  backtrack_wf x →
  (backtrack_empty x = true ∧ (∀ t, ¬ in_backtrack x t) ∧ get_next_backtrack x = Err AssertFailed) ∨
  (backtrack_empty x = false ∧ ∃ x' tid, get_next_backtrack x = Ok (x', tid) ∧ backtrack_wf x' ∧
     in_backtrack x tid ∧ (∀ t, in_backtrack x t → tid ≤ t) ∧
     (∀ t, in_backtrack x' t ↔ in_backtrack x t ∧ t ≠ tid)).
Proof.
  intros Hwf. unfold get_next_backtrack, backtrack_empty, int_to_id. rewrite (bt_num _ Hwf).
  pose proof (first_true_spec (n_backtrack x) 0) as Hft. destruct (first_true (n_backtrack x) 0) as [k|].
  - right. destruct Hft as (_ & Hk & Hmin). rewrite Nat.sub_0_r in Hk.
    pose proof (count_true_pos _ _ Hk) as Hpos. split; [apply Z.eqb_neq; lia|].
    eexists _, k. split; [done|]. split_and!.
    + pose proof (flag_update_wf x k true false Hk Hwf) as H'. simpl in H'.
      by rewrite Z.add_0_r, (bt_num _ Hwf) in H'.
    + done.
    + intros t Ht. destruct (decide (k ≤ t)); [done|]. specialize (Hmin t). rewrite Nat.sub_0_r in Hmin.
      unfold in_backtrack in Ht. rewrite Hmin in Ht by lia. done.
    + intros t. rewrite in_backtrack_insert by (by eapply lookup_lt_Some). naive_solver.
  - left. split_and!; [|done|done]. apply Z.eqb_eq.
    apply (proj2 (count_true_zero _)) in Hft. lia.
Qed.

Lemma explore_spec tid x :
  backtrack_wf x → tid < n_num_threads x →
  ∃ x', explore tid x = Ok x' ∧ backtrack_wf x' ∧
    (∀ t, in_backtrack x' t ↔ in_backtrack x t ∧ t ≠ tid) ∧
    has_been_explored x' tid = Ok true ∧
    (∀ t, t ≠ tid → has_been_explored x' t = has_been_explored x t).
Proof.
  intros Hwf Hlt. unfold explore, id_to_int. pose proof (bt_explored _ Hwf) as He.
  rewrite <- (bt_len _ Hwf) in Hlt. destruct (lookup_lt_is_Some_2 _ _ Hlt) as [b Hb].
  destruct (Nat.ltb_spec tid (length (n_backtrack x))); [|lia]. cbn [ASSERT].
  unfold at_index. rewrite Hb. simpl. set (x1 := if b then _ else x).
  assert (backtrack_wf x1 ∧ n_explored_children x1 = n_explored_children x ∧
          ∀ t, in_backtrack x1 t ↔ in_backtrack x t ∧ t ≠ tid) as (Hwf1 & He1 & Hin).
  { unfold x1. destruct b; split_and!; try done.
    - pose proof (flag_update_wf x tid true false Hb Hwf) as H'. simpl in H'. by rewrite Z.add_0_r in H'.
    - intros t. rewrite in_backtrack_insert by done. naive_solver.
    - intros t. unfold in_backtrack. naive_solver. }
  unfold set_at. rewrite He1. destruct (Nat.ltb_spec tid (length (n_explored_children x))); [|rewrite (bt_len _ Hwf) in *; lia].
  simpl. eexists. split; [done|]. split_and!.
  - destruct Hwf1 as [N1 L1 E1]. split; simpl; [done|done|]. rewrite length_insert. by rewrite <- He1.
  - done.
  - unfold has_been_explored, id_to_int, at_index. simpl. by rewrite list_lookup_insert_eq.
  - intros t Ht. unfold has_been_explored, id_to_int, at_index. simpl. by rewrite list_lookup_insert_ne.
Qed.

(** ** Enumeration of the may-read-from set *)

Inductive rf_choice := RFPast (w : ptr) | RFPromise (reader : ptr) | RFFuture (fv : future_value).

(** The choice a node currently stands for. *)
Definition current_choice (x : Node) : option rf_choice :=
  match n_read_from_status x with
  | READ_FROM_PAST => RFPast <$> n_read_from_past x !! n_read_from_past_idx x
  | READ_FROM_PROMISE => RFPromise <$> n_read_from_promises x !! Z.to_nat (n_read_from_promise_idx x)
  | READ_FROM_FUTURE => RFFuture <$> n_future_values x !! Z.to_nat (n_future_index x)
  | READ_FROM_NONE => None
  end.

(** The choices visited by the search: ask for the status, use the choice, increment. *)
Fixpoint enumerate (fuel : nat) (x : Node) : list rf_choice :=
  match fuel with
  | O => []
  | S fuel =>
      let x := (get_read_from_status x).1 in
      match current_choice x with
      | None => []
      | Some c => c :: let '(x, more) := increment_read_from x in if more then enumerate fuel x else []
      end
  end.

Definition all_choices (x : Node) : list rf_choice :=
  (RFPast <$> n_read_from_past x) ++ (RFPromise <$> n_read_from_promises x) ++ (RFFuture <$> n_future_values x).

(** The choices from the current one on. *)
Definition choices_left (x : Node) : list rf_choice :=
  (RFPast <$> drop (n_read_from_past_idx x) (n_read_from_past x)) ++
  (RFPromise <$> drop (Z.to_nat (n_read_from_promise_idx x)) (n_read_from_promises x)) ++
  (RFFuture <$> drop (Z.to_nat (n_future_index x)) (n_future_values x)).

(** The iterators move from the past to the promises to the future values. *)
Definition rf_valid (x : Node) : Prop :=
  match n_read_from_status x with
  | READ_FROM_PAST => n_read_from_past_idx x < length (n_read_from_past x) ∧
      n_read_from_promise_idx x = (-1)%Z ∧ n_future_index x = (-1)%Z
  | READ_FROM_PROMISE => length (n_read_from_past x) ≤ n_read_from_past_idx x ∧
      (0 ≤ n_read_from_promise_idx x < Z.of_nat (length (n_read_from_promises x)))%Z ∧
      n_future_index x = (-1)%Z
  | READ_FROM_FUTURE => length (n_read_from_past x) ≤ n_read_from_past_idx x ∧
      (Z.of_nat (length (n_read_from_promises x)) ≤ n_read_from_promise_idx x)%Z ∧
      (0 ≤ n_future_index x < Z.of_nat (length (n_future_values x)))%Z
  | READ_FROM_NONE => False
  end.

Lemma valid_current x :
  rf_valid x → ∃ c, current_choice x = Some c ∧ ∃ l, choices_left x = c :: l ∧
    (get_read_from_status x).1 = x.
Proof.
  unfold rf_valid, current_choice, choices_left, get_read_from_status.
  destruct (n_read_from_status x); intros Hv; try done.
  - destruct Hv as (H1 & H2 & H3). destruct (lookup_lt_is_Some_2 _ _ H1) as [w Hw].
    rewrite Hw, (drop_S _ _ _ Hw). exists (RFPast w). split; [done|]. eexists. split; [done|].
    rewrite (bool_decide_eq_false_2 (_ = [])); [done|]. intros E. rewrite E in H1. simpl in H1. lia.
  - destruct Hv as (H1 & H2 & H3).
    destruct (lookup_lt_is_Some_2 (n_read_from_promises x) (Z.to_nat (n_read_from_promise_idx x))) as [w Hw]; [lia|].
    rewrite Hw, (drop_ge (n_read_from_past x)) by done. rewrite (drop_S _ _ _ Hw).
    exists (RFPromise w). split; [done|]. by eexists.
  - destruct Hv as (H1 & H2 & H3).
    destruct (lookup_lt_is_Some_2 (n_future_values x) (Z.to_nat (n_future_index x))) as [w Hw]; [lia|].
    rewrite Hw, (drop_ge (n_read_from_past x)), (drop_ge (n_read_from_promises x)) by lia.
    rewrite (drop_S _ _ _ Hw). exists (RFFuture w). split; [done|]. by eexists.
Qed.

Ltac case_ztests :=
  repeat match goal with
  | |- context [Z.ltb ?a ?b] => destruct (Z.ltb_spec a b)
  | |- context [Z.leb ?a ?b] => destruct (Z.leb_spec a b)
  | |- context [Z.eqb ?a ?b] => destruct (Z.eqb_spec a b)
  end.

Lemma drop_next {A} (l : list A) (i : Z) :
  (0 ≤ i < Z.of_nat (length l))%Z → drop (Z.to_nat (i + 1)) l = tail (drop (Z.to_nat i) l).
Proof.
  intros Hi. destruct (lookup_lt_is_Some_2 l (Z.to_nat i)) as [a Ha]; [lia|].
  rewrite (drop_S _ _ _ Ha). simpl. f_equal. lia.
Qed.

Lemma increment_read_from_spec x x' more :
  rf_valid x → increment_read_from x = (x', more) →
  tail (choices_left x) = choices_left x' ∧ (more = true → rf_valid x') ∧
  (more = false → choices_left x' = []).
Proof.
  unfold rf_valid, increment_read_from, increment_read_from_past, increment_read_from_promise,
    increment_future_value, choices_left.
  destruct (n_read_from_status x) eqn:Est; intros Hv; [..|done]; destruct Hv as (H1 & H2 & H3); simpl.
  - destruct (Nat.ltb_spec (n_read_from_past_idx x) (length (n_read_from_past x))); [|lia]. simpl.
    destruct (lookup_lt_is_Some_2 _ _ H1) as [w Hw]. rewrite (drop_S _ _ _ Hw), H2, H3. simpl.
    destruct (Nat.ltb_spec (n_read_from_past_idx x + 1) (length (n_read_from_past x))); simpl.
    { intros [= <- <-]; simpl. rewrite H2, H3, Nat.add_1_r. split_and!; [done|intros _; split_and!; [lia|done|done]|done]. }
    rewrite ?H2. rewrite (drop_ge (n_read_from_past x)) by lia. simpl.
    case_ztests; simpl in *; rewrite ?H3 in *; try lia.
    { intros [= <- <-]; simpl. rewrite ?H2, ?H3, (drop_ge (n_read_from_past x)) by lia.
      split_and!; [done|intros _; split_and!; lia|done]. }
    all: rewrite ?H3; simpl; case_ztests; simpl in *; try lia; intros [= <- <-]; simpl; rewrite ?H2, ?H3, (drop_ge (n_read_from_past x)) by lia.
    all: assert (n_read_from_promises x = []) as -> by (apply nil_length_inv; simpl in *; lia); simpl; rewrite ?drop_nil.
    + split_and!; [done|intros _; split_and!; simpl in *; lia|done].
    + split_and!; [done|done|]. intros _. assert (n_future_values x = []) as -> by (apply nil_length_inv; simpl in *; lia). done.
  - destruct (Nat.ltb_spec (n_read_from_past_idx x) (length (n_read_from_past x))); [lia|]. simpl.
    rewrite (drop_ge (n_read_from_past x)) by lia. simpl.
    destruct (lookup_lt_is_Some_2 (n_read_from_promises x) (Z.to_nat (n_read_from_promise_idx x))) as [w Hw]; [lia|].
    case_ztests; try lia; simpl.
    { intros [= <- <-]; simpl. rewrite (drop_ge (n_read_from_past x)), (drop_next _ _ H2), (drop_S _ _ _ Hw) by lia.
      split_and!; [done|intros _; split_and!; simpl in *; lia|done]. }
    all: rewrite ?H3; simpl; case_ztests; simpl in *; try lia; intros [= <- <-]; simpl;
      rewrite ?H3, (drop_ge (n_read_from_past x)), (drop_next _ _ H2), (drop_S _ _ _ Hw) by lia; simpl.
    + split_and!; [done|intros _; split_and!; simpl in *; lia|done].
    + assert (n_future_values x = []) as -> by (apply nil_length_inv; simpl in *; lia). rewrite (drop_ge (n_read_from_promises x)) by lia. done.
  - destruct (Nat.ltb_spec (n_read_from_past_idx x) (length (n_read_from_past x))); [lia|]. simpl.
    rewrite (drop_ge (n_read_from_past x)), (drop_ge (n_read_from_promises x)) by lia. simpl.
    destruct (lookup_lt_is_Some_2 (n_future_values x) (Z.to_nat (n_future_index x))) as [w Hw]; [lia|].
    destruct (Z.ltb_spec (n_read_from_promise_idx x) (Z.of_nat (length (n_read_from_promises x)))); [lia|]. simpl.
    case_ztests; try lia; intros [= <- <-]; simpl;
      rewrite (drop_ge (n_read_from_past x)), (drop_ge (n_read_from_promises x)), (drop_next _ _ H3), (drop_S _ _ _ Hw) by lia; simpl.
    + split_and!; [done|intros _; split_and!; simpl in *; lia|done].
    + split_and!; [done|done|]. intros _. rewrite drop_ge by lia. done.
Qed.

Lemma enumerate_left fuel : ∀ x,
  rf_valid x → length (choices_left x) ≤ fuel → enumerate fuel x = choices_left x.
Proof.
  induction fuel as [|fuel IH]; intros x Hv Hlen;
    destruct (valid_current x Hv) as (c & Hc & l & Hl & Hst); [rewrite Hl in Hlen; simpl in Hlen; lia|].
  cbn [enumerate]. rewrite Hst, Hc, Hl. destruct (increment_read_from x) as [x' more] eqn:E.
  destruct (increment_read_from_spec _ _ _ Hv E) as (Ht & Hm & Hn). rewrite Hl in Ht, Hlen. simpl in Ht, Hlen.
  destruct more; [rewrite IH, Ht; [done|auto|rewrite <- Ht; lia]|]. by rewrite Ht, Hn.
Qed.

(** A node whose iterators have not moved. *)
Definition rf_fresh (x : Node) : Prop :=
  n_read_from_status x = READ_FROM_PAST ∧ n_read_from_past_idx x = 0 ∧
  n_read_from_promise_idx x = (-1)%Z ∧ n_future_index x = (-1)%Z.

(** With an empty past, asking for the status moves to the first other choice. *)
Lemma fresh_status x :
  rf_fresh x →
  let x' := (get_read_from_status x).1 in
  (rf_valid x' ∧ choices_left x' = all_choices x) ∨ (current_choice x' = None ∧ all_choices x = []).
Proof.
  intros (H1 & H2 & H3 & H4). unfold get_read_from_status. rewrite H1. simpl.
  destruct (n_read_from_past x) as [|w past] eqn:Ep; simpl.
  - unfold increment_read_from, increment_read_from_past, increment_read_from_promise, increment_future_value,
      rf_valid, choices_left, all_choices, current_choice. simpl. rewrite Ep, H2. simpl. rewrite ?H3.
    case_ztests; simpl in *; rewrite ?H3 in *; try lia.
    + rewrite ?Ep, ?H2, ?H3, ?H4. left. simpl. split; [|done]. split_and!; lia.
    + assert (n_read_from_promises x = []) as Epr by (apply nil_length_inv; lia).
      rewrite ?Ep, ?H2, ?H3, ?H4, ?Epr in *. simpl. left. split; [split_and!; lia|done].
    + assert (n_read_from_promises x = []) as Epr by (apply nil_length_inv; lia).
      assert (n_future_values x = []) as Efv by (apply nil_length_inv; lia).
      rewrite Epr, Efv. by right.
  - left.
    unfold rf_valid, choices_left, all_choices. rewrite H1, H2, H3, H4, Ep. simpl. split; [split_and!; [lia|done|done]|done].
Qed.

(** ** Termination of the enumeration of behaviours *)

(** Upper bounds on the alternatives each iterator has not explored yet. *)
Definition misc_left (x : Node) : nat := Z.to_nat (n_misc_max x - n_misc_index x).
Definition promise_left (x : Node) : nat :=
  Z.to_nat (Z.of_nat (length (n_resolve_promise x)) - n_resolve_promise_idx x).
Definition past_left (x : Node) : nat := length (n_read_from_past x) - n_read_from_past_idx x.
Definition rfpromise_left (x : Node) : nat :=
  Z.to_nat (Z.of_nat (length (n_read_from_promises x)) - n_read_from_promise_idx x).
Definition future_left (x : Node) : nat :=
  Z.to_nat (Z.of_nat (length (n_future_values x)) - n_future_index x).
Definition relseq_left (x : Node) : nat :=
  Z.to_nat (Z.of_nat (length (n_relseq_break_writes x)) - n_relseq_break_index x).

Definition behaviors_left (x : Node) : nat :=
  misc_left x + promise_left x + (past_left x + rfpromise_left x + future_left x) + relseq_left x.

(** Invariant of the promise iterator: it never passes the end. *)
Definition promise_idx_ok (x : Node) : Prop :=
  (-1 ≤ n_resolve_promise_idx x < Z.of_nat (length (n_resolve_promise x)) ∨
   n_resolve_promise_idx x = -1)%Z.

Lemma increment_promise_spec x x' b :
  promise_idx_ok x → increment_promise x = (x', b) →
  (b = false → x' = x ∧ ∀ i : nat, (n_resolve_promise_idx x < Z.of_nat i)%Z → n_resolve_promise x !! i ≠ Some true) ∧
  (b = true → ∃ i : nat, x' = set_n_resolve_promise_idx (Z.of_nat i) x ∧
     (n_resolve_promise_idx x < Z.of_nat i)%Z ∧ n_resolve_promise x !! i = Some true ∧
     ∀ j : nat, (n_resolve_promise_idx x < Z.of_nat j < Z.of_nat i)%Z → n_resolve_promise x !! j = Some false).
Proof.
  intros Hok. unfold increment_promise. destruct (n_resolve_promise x) as [|r rs] eqn:E.
  { intros [= <- <-]. split; [|done]. intros _. split; [done|]. done. }
  rewrite <- E in *. clear r rs E.
  set (start := Z.to_nat (n_resolve_promise_idx x + 1)).
  assert (n_resolve_promise_idx x = Z.of_nat start - 1)%Z as Hs by (unfold start, promise_idx_ok in *; lia).
  pose proof (first_true_spec (drop start (n_resolve_promise x)) start) as Hft.
  destruct (first_true _ _) as [k|]; intros [= <- <-]; (split; [|try done]; try done); intros _.
  - destruct Hft as (Hk & Hl & Hmin). rewrite lookup_drop in Hl. replace (start + (k - start)) with k in Hl by lia.
    exists k. split_and!; [done|lia|done|]. intros j Hj. specialize (Hmin j ltac:(lia)).
    rewrite lookup_drop in Hmin. by replace (start + (j - start)) with j in Hmin by lia.
  - split; [done|]. intros i Hi. specialize (Hft (i - start)). rewrite lookup_drop in Hft.
    by replace (start + (i - start)) with i in Hft by lia.
Qed.

Lemma forallb_negb_spec (l : list bool) : forallb negb l = true ↔ ∀ i : nat, l !! i ≠ Some true.
Proof.
  induction l as [|b l IH]; simpl; [naive_solver|]. rewrite andb_true_iff, IH. split.
  - intros [Hb Hl] [|i]; simpl; [by destruct b|apply Hl].
  - intros H. split; [specialize (H 0); by destruct b|]. intros i. apply (H (S i)).
Qed.

Lemma promise_empty_spec x :
  promise_idx_ok x → promise_empty x = true ↔
    ∀ i : nat, (n_resolve_promise_idx x < Z.of_nat i)%Z → n_resolve_promise x !! i ≠ Some true.
Proof.
  intros Hok. unfold promise_empty. set (start := Z.to_nat (n_resolve_promise_idx x + 1)).
  assert (n_resolve_promise_idx x = Z.of_nat start - 1)%Z as Hs by (unfold start, promise_idx_ok in *; lia).
  rewrite forallb_negb_spec. split; intros H i.
  - intros Hi. specialize (H (i - start)). rewrite lookup_drop in H.
    by replace (start + (i - start)) with i in H by lia.
  - rewrite lookup_drop. apply H. lia.
Qed.

Lemma increment_misc_left x x' b :
  increment_misc x = (x', b) →
  misc_left x' ≤ misc_left x ∧ (b = true → misc_left x' < misc_left x) ∧
  behaviors_left x' + misc_left x = behaviors_left x + misc_left x' ∧
  n_resolve_promise x' = n_resolve_promise x ∧ n_resolve_promise_idx x' = n_resolve_promise_idx x.
Proof.
  assert (∀ v, behaviors_left (set_n_misc_index v x) + misc_left x =
               behaviors_left x + misc_left (set_n_misc_index v x)) as Hb.
  { intros v. change (behaviors_left (set_n_misc_index v x)) with
      (misc_left (set_n_misc_index v x) + promise_left x + (past_left x + rfpromise_left x + future_left x) + relseq_left x).
    unfold behaviors_left. lia. }
  unfold increment_misc. case_ztests; simpl; intros [= <- <-]; split_and!; try done;
    unfold misc_left; simpl; intros; lia.
Qed.

Lemma past_increment_left x x' b :
  increment_read_from_past x = (x', b) →
  past_left x' ≤ past_left x ∧ (b = true → past_left x' < past_left x) ∧
  rfpromise_left x' = rfpromise_left x ∧ future_left x' = future_left x ∧
  misc_left x' = misc_left x ∧ promise_left x' = promise_left x ∧ relseq_left x' = relseq_left x.
Proof.
  unfold increment_read_from_past. case_tests; simpl; intros [= <- <-]; split_and!; try done;
    unfold past_left; simpl; intros; lia.
Qed.

Lemma rfpromise_increment_left x x' b :
  increment_read_from_promise x = (x', b) →
  rfpromise_left x' ≤ rfpromise_left x ∧ (b = true → rfpromise_left x' < rfpromise_left x) ∧
  past_left x' = past_left x ∧ future_left x' = future_left x ∧
  misc_left x' = misc_left x ∧ promise_left x' = promise_left x ∧ relseq_left x' = relseq_left x.
Proof.
  unfold increment_read_from_promise. case_ztests; simpl; intros [= <- <-]; split_and!; try done;
    unfold rfpromise_left; simpl; intros; lia.
Qed.

Lemma future_increment_left x x' b :
  increment_future_value x = (x', b) →
  future_left x' ≤ future_left x ∧ (b = true → future_left x' < future_left x) ∧
  past_left x' = past_left x ∧ rfpromise_left x' = rfpromise_left x ∧
  misc_left x' = misc_left x ∧ promise_left x' = promise_left x ∧ relseq_left x' = relseq_left x.
Proof.
  unfold increment_future_value. case_ztests; simpl; intros [= <- <-]; split_and!; try done;
    unfold future_left; simpl; intros; lia.
Qed.

Lemma increment_read_from_left x x' b :
  promise_idx_ok x → increment_read_from x = (x', b) →
  behaviors_left x' ≤ behaviors_left x ∧ (b = true → behaviors_left x' < behaviors_left x).
Proof.
  intros Hok. unfold increment_read_from. set (x0 := clear_promise_resolutions x).
  assert (promise_left x0 ≤ promise_left x) as H0.
  { unfold promise_left, x0, promise_idx_ok in *. simpl. lia. }
  assert (misc_left x0 = misc_left x ∧ past_left x0 = past_left x ∧ rfpromise_left x0 = rfpromise_left x ∧
          future_left x0 = future_left x ∧ relseq_left x0 = relseq_left x) as (? & ? & ? & ? & ?) by done.
  destruct (increment_read_from_past x0) as [x1 b1] eqn:E1.
  destruct (past_increment_left _ _ _ E1) as (L1 & S1 & ? & ? & ? & ? & ?).
  assert (∀ st y, behaviors_left (set_n_read_from_status st y) = behaviors_left y) as Hst by done.
  destruct b1; [intros [= <- <-]; rewrite Hst; specialize (S1 eq_refl); unfold behaviors_left; lia|].
  destruct (increment_read_from_promise x1) as [x2 b2] eqn:E2.
  destruct (rfpromise_increment_left _ _ _ E2) as (L2 & S2 & ? & ? & ? & ? & ?).
  destruct b2; [intros [= <- <-]; rewrite Hst; specialize (S2 eq_refl); unfold behaviors_left; lia|].
  destruct (increment_future_value x2) as [x3 b3] eqn:E3.
  destruct (future_increment_left _ _ _ E3) as (L3 & S3 & ? & ? & ? & ? & ?).
  destruct b3; intros [= <- <-]; rewrite Hst; [specialize (S3 eq_refl)|]; unfold behaviors_left; (split; [|intros ?]); try done; lia.
Qed.

Lemma increment_behaviors_decreases x x' :
  promise_idx_ok x → increment_behaviors x = (x', true) → behaviors_left x' < behaviors_left x.
Proof.
  intros Hok. unfold increment_behaviors.
  destruct (increment_misc x) as [x1 b1] eqn:E1.
  destruct (increment_misc_left _ _ _ E1) as (L1 & S1 & Q1 & P1 & I1).
  destruct b1; [intros [= <-]; specialize (S1 eq_refl); lia|].
  destruct (increment_promise x1) as [x2 b2] eqn:E2.
  assert (promise_idx_ok x1) as Hok1 by (unfold promise_idx_ok in *; by rewrite P1, I1).
  destruct (increment_promise_spec _ _ _ Hok1 E2) as [F2 T2]. destruct b2.
  { intros [= <-]. destruct (T2 eq_refl) as (i & -> & Hi & Hl & _). apply lookup_lt_Some in Hl.
    assert (promise_left (set_n_resolve_promise_idx (Z.of_nat i) x1) < promise_left x1) as Hp
      by (unfold promise_left; simpl; lia).
    change (behaviors_left (set_n_resolve_promise_idx (Z.of_nat i) x1)) with
      (misc_left x1 + promise_left (set_n_resolve_promise_idx (Z.of_nat i) x1) +
       (past_left x1 + rfpromise_left x1 + future_left x1) + relseq_left x1).
    unfold behaviors_left in Q1. unfold behaviors_left at 1. lia. }
  destruct (F2 eq_refl) as [-> _].
  destruct (increment_read_from x1) as [x3 b3] eqn:E3.
  destruct (increment_read_from_left _ _ _ Hok1 E3) as [L3 S3].
  destruct b3; [intros [= <-]; specialize (S3 eq_refl); lia|].
  unfold increment_relseq_break. simpl. case_ztests; intros [= <-].
  set (x4 := set_n_relseq_break_index _ _).
  assert (relseq_left x4 < relseq_left x3) as H4 by (unfold relseq_left, x4; simpl; lia).
  change (behaviors_left x4) with (misc_left x3 + promise_left x3 + (past_left x3 + rfpromise_left x3 + future_left x3) + relseq_left x4).
  unfold behaviors_left in L3 at 1. lia.
Qed.

(** ** Future values *)

Definition same_future (f fv : future_value) : Prop := fv_value f = fv_value fv ∧ fv_tid f = fv_tid fv.

Lemma find_future_spec l fv : ∀ i idx,
  match find_future l fv i idx with
  | None => ∃ f, f ∈ l ∧ same_future f fv ∧ (fv_expiration fv ≤ fv_expiration f)%N
  | Some k => (∀ f, f ∈ l → same_future f fv → (fv_expiration f < fv_expiration fv)%N) ∧
      ((k = idx ∧ ∀ f, f ∈ l → ¬ same_future f fv) ∨
       ∃ j f, l !! j = Some f ∧ k = Z.of_nat (i + j) ∧ same_future f fv)
  end.
Proof.
  unfold same_future. induction l as [|f l IH]; intros i idx; simpl; [split; [|left]; set_solver|].
  destruct (N.eqb_spec (fv_value f) (fv_value fv)) as [Ev|Ev]; simpl; [case_bool_decide as Et|].
  - destruct (N.leb_spec (fv_expiration fv) (fv_expiration f)).
    { exists f. set_solver. }
    specialize (IH (S i) (Z.of_nat i)). destruct (find_future l fv (S i) (Z.of_nat i)) as [k|].
    + destruct IH as [H1 [[-> H2]|(j & g & ? & -> & ?)]]; split;
        try (intros g' [->|?]%elem_of_cons ?; auto; done).
      * right. exists 0, f. split_and!; [done|lia|done..].
      * right. exists (S j), g. split_and!; [done|lia|naive_solver..].
    + destruct IH as (g & ? & ? & ?). exists g. set_solver.
  - specialize (IH (S i) idx). destruct (find_future l fv (S i) idx) as [k|].
    + destruct IH as [H1 [[-> H2]|(j & g & ? & -> & ?)]]; split;
        try (intros g' [->|?]%elem_of_cons ?; [naive_solver|auto]; done).
      * left. split; [done|]. intros g [->|?]%elem_of_cons; [naive_solver|auto].
      * right. exists (S j), g. split_and!; [done|lia|naive_solver..].
    + destruct IH as (g & ? & ? & ?). exists g. set_solver.
  - specialize (IH (S i) idx). destruct (find_future l fv (S i) idx) as [k|].
    + destruct IH as [H1 [[-> H2]|(j & g & ? & -> & ?)]]; split;
        try (intros g' [->|?]%elem_of_cons ?; [naive_solver|auto]; done).
      * left. split; [done|]. intros g [->|?]%elem_of_cons; [naive_solver|auto].
      * right. exists (S j), g. split_and!; [done|lia|naive_solver..].
    + destruct IH as (g & ? & ? & ?). exists g. set_solver.
Qed.

Definition future_idx_ok (x : Node) : Prop :=
  (-1 ≤ n_future_index x < Z.of_nat (length (n_future_values x)) ∨ n_future_index x = -1)%Z.

Lemma add_future_value_spec params fv x x' b :
  future_idx_ok x → add_future_value params fv x = (x', b) →
  (∀ i : nat, (Z.of_nat i ≤ n_future_index x)%Z → n_future_values x' !! i = n_future_values x !! i) ∧
  (b = true → ∃ i : nat, (n_future_index x < Z.of_nat i)%Z ∧ n_future_values x' !! i = Some fv) ∧
  (b = false → x' = x ∧
     ((∃ f, f ∈ n_future_values x ∧ same_future f fv ∧
         (fv_expiration fv ≤ fv_expiration f ∨
          fv_expiration fv ≤ wrap32 (fv_expiration f + expireslop params))%N) ∨
      (0 < maxfuturevalues params ≤ Z.of_nat (length (n_future_values x)))%Z)).
Proof.
  intros Hok. unfold add_future_value. pose proof (find_future_spec (n_future_values x) fv 0 (-1)) as Hf.
  destruct (find_future (n_future_values x) fv 0 (-1)) as [idx|].
  2: { intros [= <- <-]. split_and!; [done|done|]. intros _. split; [done|]. left.
       destruct Hf as (f & ? & ? & ?). exists f. auto. }
  destruct Hf as [_ Hidx].
  assert (∀ i : nat, (Z.of_nat i ≤ n_future_index x)%Z → (n_future_values x ++ [fv]) !! i = n_future_values x !! i) as Happ.
  { intros i Hi. apply lookup_app_l. unfold future_idx_ok in Hok. lia. }
  assert (∃ i : nat, (n_future_index x < Z.of_nat i)%Z ∧ (n_future_values x ++ [fv]) !! i = Some fv) as Hnew.
  { exists (length (n_future_values x)). split; [unfold future_idx_ok in Hok; lia|]. by apply list_lookup_middle. }
  destruct Hidx as [[-> _]|(j & f & Hj & -> & Hsame)].
  - destruct (Z.ltb_spec (n_future_index x) (-1)); [unfold future_idx_ok in Hok; lia|]. cbn [Z.leb andb].
    case_ztests; simpl; try lia; intros [= <- <-]; split_and!; try done. intros _. split; [done|]. right. lia.
  - simpl. rewrite Nat2Z.id, Hj. destruct (Z.ltb_spec (n_future_index x) (Z.of_nat j)).
    + intros [= <- <-]. destruct Hsame as [-> ->].
      replace (mkFutureValue (fv_value fv) (fv_expiration fv) (fv_tid fv)) with fv by by destruct fv.
      split_and!; [|intros _|done]; simpl.
      * intros i Hi. rewrite list_lookup_insert_ne by lia. done.
      * exists j. split; [done|]. apply list_lookup_insert_eq. by eapply lookup_lt_Some.
    + rewrite (proj2 (Z.leb_le 0 (Z.of_nat j))) by lia. cbn [andb].
      destruct (N.leb_spec (fv_expiration fv) (wrap32 (fv_expiration f + expireslop params))).
      * intros [= <- <-]. split_and!; [done|done|]. intros _. split; [done|]. left.
        exists f. split_and!; [by eapply list_elem_of_lookup_2|done|by right].
      * case_ztests; simpl; intros [= <- <-]; split_and!; try done. intros _. split; [done|]. right. lia.
Qed.

(** ** The stack *)

(** The recorded path: every node is allocated, and the parent of each node is the
    node below it. *)
Record ns_wf (s : NodeStack) : Prop := {
  nw_node : ∀ (i : nat) p, ns_node_list s !! i = Some p → ∃ x, ns_nodes s !! p = Some x ∧
    n_parent x = match i with O => None | S j => ns_node_list s !! j end;
  nw_nodup : NoDup (ns_node_list s);
  nw_fresh : ∀ p, is_Some (ns_nodes s !! p) → (p < ns_next s)%positive;
  nw_head : (-1 ≤ ns_head_idx s < Z.of_nat (length (ns_node_list s)) ∨ ns_head_idx s = -1)%Z
}.

Lemma new_NodeStack_wf : ns_wf new_NodeStack.
Proof. split; simpl; [done|constructor|intros p []; done|lia]. Qed.

Lemma get_head_spec s h :
  ns_wf s → (Z.of_nat (length (ns_node_list s)) ≤ ns_head_idx s + 1)%Z → get_head s = Ok h →
  h = last (ns_node_list s) ∧ ns_head_idx s = (Z.of_nat (length (ns_node_list s)) - 1)%Z.
Proof.
  intros Hwf Hend. unfold get_head. pose proof (nw_head _ Hwf) as Hh.
  destruct (ns_node_list s) as [|p l] eqn:E; simpl.
  - intros [= <-]. simpl in *. split; [done|lia].
  - simpl in *. case_ztests; [lia|]. simpl. intros H'. simplify_res.
    split; [|lia]. rewrite last_lookup. simpl.
    replace (Z.to_nat (ns_head_idx s)) with (length l) in * by lia. done.
Qed.

Lemma explore_child_parent tid en x x' : explore_child tid en x = Ok x' → n_parent x' = n_parent x ∧ n_action x' = n_action x.
Proof.
  unfold explore_child, explore. intros H. simplify_res.
  all: repeat case_match; by simplify_res.
Qed.

Lemma new_Node_parent params acts nodes act par n pf x :
  new_Node params acts nodes act par n pf = Ok x → n_parent x = par ∧ n_action x = act ∧ rf_fresh x ∧ backtrack_wf x.
Proof.
  unfold new_Node. intros H. simplify_res. split_and!; try done. split; simpl; rewrite ?length_replicate; try done.
  by rewrite count_true_replicate_false.
Qed.

(** Recording a new action. *)
Lemma explore_action_record params nt act en acts s s' acts' r :
  ns_wf s → (Z.of_nat (length (ns_node_list s)) ≤ ns_head_idx s + 1)%Z →
  explore_action params nt act en acts s = Ok (s', acts', r) →
  r = None ∧ ns_wf s' ∧ ns_node_list s' = ns_node_list s ++ [ns_next s] ∧
  (ns_head_idx s' = ns_head_idx s + 1)%Z ∧
  (∃ x, ns_nodes s' !! ns_next s = Some x ∧ n_action x = act ∧ n_parent x = last (ns_node_list s) ∧
        rf_fresh x ∧ backtrack_wf x) ∧
  (∃ a, acts !! act = Some a ∧ acts' = <[act := set_node (ns_next s) a]> acts).
Proof.
  intros Hwf Hend. unfold explore_action.
  destruct (Z.ltb_spec (ns_head_idx s + 1) (Z.of_nat (length (ns_node_list s)))); [lia|].
  intros (a & Ha & (h & Hh & ([s1 pf] & Hsp & (x & Hx & Hfin)%bind_Ok)%bind_Ok)%bind_Ok)%bind_Ok.
  apply deref_Ok in Ha. destruct (get_head_spec _ _ Hwf Hend Hh) as [-> Hidx].
  injection Hfin as <- <- <-.
  destruct (new_Node_parent _ _ _ _ _ _ _ _ Hx) as (Hpar & Hact & Hfr & Hbt).
  assert (ns_node_list s1 = ns_node_list s ∧ ns_next s1 = ns_next s ∧ ns_head_idx s1 = ns_head_idx s ∧
          (∀ p, is_Some (ns_nodes s1 !! p) ↔ is_Some (ns_nodes s !! p)) ∧
          (∀ p y, ns_nodes s !! p = Some y → ∃ y', ns_nodes s1 !! p = Some y' ∧ n_parent y' = n_parent y))
    as (EL & EN & EH & ED & EP).
  { clear Hx. destruct (last (ns_node_list s)) as [h|]; [|injection Hsp as <- <-; split_and!; naive_solver].
    apply bind_Ok in Hsp as (y & Hy & (y' & Hy' & Hsp)%bind_Ok). apply deref_Ok in Hy.
    apply explore_child_parent in Hy' as [Hp' _].
    assert (s1 = store_Node h y' s) as ->.
    { case_match; [apply bind_Ok in Hsp as (? & _ & Hsp)|]; by injection Hsp as <- <-. }
    simpl. split_and!; try done.
    - intros p. destruct (decide (p = h)) as [->|]; [by rewrite lookup_insert_eq, Hy|by rewrite lookup_insert_ne].
    - intros p z Hz. destruct (decide (p = h)) as [->|].
      + rewrite lookup_insert_eq. exists y'. split; [done|]. congruence.
      + rewrite lookup_insert_ne by done. eauto. }
  rewrite EL, EN, EH in *.
  assert (ns_next s ∉ ns_node_list s) as Hfresh.
  { intros (i & Hi)%list_elem_of_lookup. destruct (nw_node _ Hwf _ _ Hi) as (y & Hy & _).
    pose proof (nw_fresh _ Hwf _ ltac:(by eexists)). lia. }
  split_and!; simpl; try done.
  - split; simpl.
    + intros i p [Hi|[Hi ->]]%lookup_snoc_Some.
      * destruct Hi as [Hlt Hi]. destruct (nw_node _ Hwf _ _ Hi) as (y & Hy & Hyp).
        destruct (EP _ _ Hy) as (y' & Hy' & Hp'). exists y'. rewrite lookup_insert_ne.
        2: { intros <-. apply Hfresh. by eapply list_elem_of_lookup_2. }
        split; [done|]. rewrite Hp', Hyp. destruct i; [done|]. by rewrite lookup_app_l by lia.
      * subst i. exists x. rewrite lookup_insert_eq. split; [done|]. rewrite Hpar, last_lookup.
        destruct (length (ns_node_list s)) as [|n] eqn:El; simpl.
        -- by apply nil_length_inv in El as ->.
        -- by rewrite lookup_app_l by lia.
    + apply NoDup_app. split_and!; [by apply Hwf| |apply NoDup_singleton]. intros p Hp ->%list_elem_of_singleton. done.
    + intros p Hp. destruct (decide (p = ns_next s)) as [->|]; [lia|].
      rewrite lookup_insert_ne in Hp by done. apply ED, (nw_fresh _ Hwf) in Hp. lia.
    + rewrite length_app. simpl. left. lia.
  - exists x. by rewrite lookup_insert_eq.
  - by exists a.
Qed.

(** One replayed action. *)
Lemma explore_action_replay params nt act en acts s p x :
  (-1 ≤ ns_head_idx s)%Z → ns_node_list s !! Z.to_nat (ns_head_idx s + 1) = Some p →
  ns_nodes s !! p = Some x →
  explore_action params nt act en acts s =
    Ok (mkNodeStack (ns_nodes s) (ns_next s) (ns_node_list s) (ns_head_idx s + 1) (ns_total_nodes s),
        acts, Some (n_action x)).
Proof.
  intros Hh Hp Hx. unfold explore_action. pose proof (lookup_lt_Some _ _ _ Hp).
  destruct (Z.ltb_spec (ns_head_idx s + 1) (Z.of_nat (length (ns_node_list s)))); [|lia].
  simpl. unfold at_index. rewrite Hp. simpl. by rewrite Hx.
Qed.

(** Replaying a sequence of steps: the actions the stack returns. *)
Fixpoint replay (params : model_params) (args : list (nat * ptr * option (list enabled_type)))
    (acts : gmap ptr ModelAction) (s : NodeStack) : result (NodeStack * list (option ptr)) :=
  match args with
  | [] => Ok (s, [])
  | (nt, act, en) :: args =>
      '(s, acts, r) ← explore_action params nt act en acts s;
      '(s, rs) ← replay params args acts s;
      Ok (s, r :: rs)
  end.

Lemma replay_spec params args : ∀ acts s,
  ns_wf s → (ns_head_idx s + Z.of_nat (length args) < Z.of_nat (length (ns_node_list s)))%Z →
  (-1 ≤ ns_head_idx s)%Z →
  replay params args acts s =
    Ok (mkNodeStack (ns_nodes s) (ns_next s) (ns_node_list s) (ns_head_idx s + Z.of_nat (length args)) (ns_total_nodes s),
        (λ p, n_action <$> ns_nodes s !! p) <$>
          take (length args) (drop (Z.to_nat (ns_head_idx s + 1)) (ns_node_list s))).
Proof.
  induction args as [|[[nt act] en] args IH]; intros acts s Hwf Hlen Hh; cbn [replay].
  - rewrite Z.add_0_r. by destruct s.
  - cbn [length] in Hlen.
    destruct (lookup_lt_is_Some_2 (ns_node_list s) (Z.to_nat (ns_head_idx s + 1))) as [p Hp]; [lia|].
    destruct (nw_node _ Hwf _ _ Hp) as (x & Hx & _).
    rewrite (explore_action_replay params nt act en acts s p x Hh Hp Hx). simpl.
    rewrite IH; simpl; [|by destruct Hwf as [W1 W2 W3 W4]; split; [..|left; simpl; lia]|lia|lia]. simpl.
    rewrite (drop_S _ _ _ Hp). simpl. rewrite Hx. simpl.
    f_equal. f_equal; [f_equal; lia|]. f_equal.
    replace (Z.to_nat (ns_head_idx s + 1 + 1)) with (S (Z.to_nat (ns_head_idx s + 1))) by lia. done.
Qed.

Lemma delete_nodes_lookup l : ∀ m p,
  (delete_nodes l m).1 !! p = if decide (p ∈ l) then None else m !! p.
Proof.
  induction l as [|q l IH]; intros m p; cbn [delete_nodes]; [done|].
  specialize (IH (delete q m) p). destruct (delete_nodes l (delete q m)) as [m' rest]. simpl in *. rewrite IH.
  destruct (decide (p = q)) as [->|Hne].
  - rewrite lookup_delete_eq, (decide_True (P := q ∈ q :: l)) by set_solver. by case_decide.
  - rewrite lookup_delete_ne by done. destruct (decide (p ∈ l)).
    + by rewrite decide_True by set_solver.
    + rewrite decide_False; [done|]. set_solver.
Qed.

(** ** Properties *)

(** The set of threads to backtrack to: adding a thread, exploring a thread and
    taking the next one act as insertion, removal and extraction of the minimum of a
    set of threads, and the counter that [backtrack_empty] tests counts that set. *)
Theorem backtrack_refines_set x tid :
  backtrack_wf x → tid < n_num_threads x →
  (∃ x' fresh, set_backtrack tid x = Ok (x', fresh) ∧ backtrack_wf x' ∧
     (fresh = true ↔ ¬ in_backtrack x tid) ∧
     ∀ t, in_backtrack x' t ↔ t = tid ∨ in_backtrack x t) ∧
  (∃ x', explore tid x = Ok x' ∧ backtrack_wf x' ∧
     (∀ t, in_backtrack x' t ↔ in_backtrack x t ∧ t ≠ tid) ∧ has_been_explored x' tid = Ok true) ∧
  ((backtrack_empty x = true ∧ (∀ t, ¬ in_backtrack x t) ∧ get_next_backtrack x = Err AssertFailed) ∨
   (backtrack_empty x = false ∧ ∃ x' t0, get_next_backtrack x = Ok (x', t0) ∧ backtrack_wf x' ∧
      in_backtrack x t0 ∧ (∀ t, in_backtrack x t → t0 ≤ t) ∧
      ∀ t, in_backtrack x' t ↔ in_backtrack x t ∧ t ≠ t0)).
Proof.
  intros Hwf Hlt. split_and!.
  - destruct (set_backtrack_spec tid x Hwf Hlt) as (x' & b & ? & ? & ? & ? & _). eauto 10.
  - destruct (explore_spec tid x Hwf Hlt) as (x' & ? & ? & ? & ? & _). eauto 10.
  - by apply get_next_backtrack_spec.
Qed.

(** A node with no choices, for two threads. *)
Definition sample_node : Node :=
  mkNode READ_FROM_PAST 1 None None 2 [false; false] [false; false] [] 0 None [] 0 [] (-1) [] (-1)
    [] (-1) [] 0 0 0 None.

Lemma backtrack_refines_set_witness :
  ∃ x' fresh, set_backtrack 1 sample_node = Ok (x', fresh) ∧ in_backtrack x' 1.
Proof.
  destruct (backtrack_refines_set sample_node 1) as [(x' & b & H & _ & _ & Ht) _].
  - split; reflexivity.
  - simpl. lia.
  - exists x', b. split; [exact H|]. apply Ht. by left.
Defined.

(** C16. The search visits every member of the may-read-from set exactly once, in
    order: from a fresh node, asking for the status and incrementing until no choice
    is left yields the past stores, then the promises, then the future values. *)
Theorem read_from_enumeration x fuel :
  rf_fresh x → read_from_size x ≤ fuel → enumerate (S fuel) x = all_choices x.
Proof.
  intros Hf Hfuel. destruct (fresh_status x Hf) as [[Hv Hall]|[Hnone Hall]].
  - set (y := (get_read_from_status x).1) in *.
    assert (enumerate (S fuel) x = enumerate (S fuel) y) as ->.
    { destruct (valid_current y Hv) as (c & Hc & l & Hl & Hy). cbn [enumerate]. fold y. by rewrite Hy. }
    rewrite <- Hall. apply enumerate_left; [done|]. rewrite Hall. unfold all_choices.
    rewrite !length_app, !length_fmap. unfold read_from_size in Hfuel. lia.
  - cbn [enumerate]. by rewrite Hnone, Hall.
Qed.

Lemma read_from_enumeration_witness :
  enumerate 4 (set_n_future_values [mkFutureValue 7 10 1]
                 (set_n_read_from_promises [9%positive] sample_node)) =
  [RFPromise 9; RFFuture (mkFutureValue 7 10 1)].
Proof.
  apply (read_from_enumeration (set_n_future_values [mkFutureValue 7 10 1]
                 (set_n_read_from_promises [9%positive] sample_node)) 3).
  - split_and!; reflexivity.
  - vm_compute. lia.
Defined.

(** A node has finitely many behaviours: every time [increment_behaviors] finds a
    new one, the bound [behaviors_left] on what remains strictly decreases. *)
Theorem increment_behaviors_terminates x x' :
  promise_idx_ok x → increment_behaviors x = (x', true) → behaviors_left x' < behaviors_left x.
Proof. apply increment_behaviors_decreases. Qed.

Lemma increment_behaviors_terminates_witness :
  behaviors_left (set_n_misc_index 1 (set_n_misc_max 3 sample_node)) <
  behaviors_left (set_n_misc_max 3 sample_node).
Proof. apply increment_behaviors_terminates; [right; reflexivity|reflexivity]. Defined.

(** Resolving promises: [increment_promise] moves to the next promise marked for
    resolution, skipping none, and fails exactly when [promise_empty] holds. *)
Theorem increment_promise_next x x' b :
  promise_idx_ok x → increment_promise x = (x', b) →
  (b = false ↔ promise_empty x = true) ∧
  (b = true → ∃ i : nat, get_promise x' i = true ∧ (n_resolve_promise_idx x < Z.of_nat i)%Z ∧
     n_resolve_promise x !! i = Some true ∧
     ∀ j : nat, (n_resolve_promise_idx x < Z.of_nat j < Z.of_nat i)%Z → n_resolve_promise x !! j = Some false).
Proof.
  intros Hok E. destruct (increment_promise_spec _ _ _ Hok E) as [F T]. rewrite (promise_empty_spec _ Hok). split.
  - split; [by intros [_ ?]%F|]. intros Hall. destruct b; [|done].
    destruct (T eq_refl) as (i & _ & Hi & Hl & _). by destruct (Hall i Hi).
  - intros Hb. destruct (T Hb) as (i & -> & Hi & Hl & Hmin). exists i. split_and!; try done.
    unfold get_promise. simpl. apply andb_true_iff. split; [|by apply Z.eqb_refl].
    apply Nat.ltb_lt. by eapply lookup_lt_Some.
Qed.

Lemma increment_promise_next_witness :
  let x := set_promise 2 (set_promise 0 sample_node) in
  promise_idx_ok x ∧ promise_empty x = false.
Proof.
  intros x. assert (promise_idx_ok x) as Hok by (right; reflexivity). split; [exact Hok|].
  destruct (increment_promise_next x (increment_promise x).1 (increment_promise x).2 Hok) as [H _]; [reflexivity|].
  destruct (promise_empty x); [|reflexivity]. by pose proof (proj2 H eq_refl).
Defined.

(** Offering a future value to a read. Values already explored are never touched;
    if the offer is accepted, a copy of it lies ahead of the iterator, to be explored
    by a later execution; it is refused only if the same value from the same thread
    is known with a late enough expiration (up to the slop), or the set is full. *)
Theorem add_future_value_correct params fv x :
  future_idx_ok x →
  let '(x', b) := add_future_value params fv x in
  (∀ i : nat, (Z.of_nat i ≤ n_future_index x)%Z → n_future_values x' !! i = n_future_values x !! i) ∧
  (b = true → ∃ i : nat, (n_future_index x < Z.of_nat i)%Z ∧ n_future_values x' !! i = Some fv) ∧
  (b = false → x' = x ∧
     ((∃ f, f ∈ n_future_values x ∧ same_future f fv ∧
         (fv_expiration fv ≤ fv_expiration f ∨
          fv_expiration fv ≤ wrap32 (fv_expiration f + expireslop params))%N) ∨
      (0 < maxfuturevalues params ≤ Z.of_nat (length (n_future_values x)))%Z)).
Proof.
  intros Hok. destruct (add_future_value params fv x) as [x' b] eqn:E.
  by apply (add_future_value_spec params fv x x' b).
Qed.

(** The default parameters of main.cc. *)
Definition default_params : model_params := mkParams 0 6 false false 0 1 0 0 0 0 4 0.

Lemma add_future_value_correct_witness :
  ∃ i : nat, n_future_values (add_future_value default_params (mkFutureValue 7 10 1) sample_node).1 !! i
             = Some (mkFutureValue 7 10 1).
Proof.
  pose proof (add_future_value_correct default_params (mkFutureValue 7 10 1) sample_node ltac:(right; reflexivity)) as H.
  simpl in H. destruct H as (_ & Ht & _). destruct (Ht eq_refl) as (i & _ & Hi). exists i. exact Hi.
Defined.

(** Recording an action that goes beyond the replayed prefix appends one node
    above the current head: it is linked to the action both ways, its parent is the
    previous top of the stack, its choice sets are fresh, and the stack stays well formed. *)
Theorem explore_action_records params nt act en acts s s' acts' r :
  ns_wf s → (Z.of_nat (length (ns_node_list s)) ≤ ns_head_idx s + 1)%Z →
  explore_action params nt act en acts s = Ok (s', acts', r) →
  r = None ∧ ns_wf s' ∧ ns_node_list s' = ns_node_list s ++ [ns_next s] ∧
  get_head s' = Ok (Some (ns_next s)) ∧
  (∃ x, ns_nodes s' !! ns_next s = Some x ∧ n_action x = act ∧ n_parent x = last (ns_node_list s) ∧
        rf_fresh x ∧ backtrack_wf x) ∧
  (∃ a, acts' !! act = Some a ∧ a_node a = Some (ns_next s)).
Proof.
  intros Hwf Hend E.
  destruct (explore_action_record _ _ _ _ _ _ _ _ _ Hwf Hend E) as (-> & Hwf' & HL & HI & Hx & (a & Ha & ->)).
  split_and!; try done.
  - pose proof (nw_head _ Hwf). pose proof (nw_head _ Hwf') as Hh. unfold get_head. rewrite HL in *.
    rewrite (bool_decide_eq_false_2 (_ ++ _ = [])) by (by destruct (ns_node_list s)).
    simpl. rewrite length_app in Hh. simpl in Hh. destruct (Z.ltb_spec (ns_head_idx s') 0); [lia|].
    unfold at_index. replace (Z.to_nat (ns_head_idx s')) with (length (ns_node_list s)) by lia.
    by rewrite list_lookup_middle.
  - exists (set_node (ns_next s) a). by rewrite lookup_insert_eq.
Qed.

Definition sample_acts : gmap ptr ModelAction :=
  {[5%positive := mkModelAction THREAD_START memory_order_seq_cst memory_order_seq_cst 1 1 0
      None None None None 0 None false]}.

Lemma explore_action_records_witness :
  ∃ s' acts', explore_action default_params 1 5 None sample_acts new_NodeStack = Ok (s', acts', None) ∧
    ns_node_list s' = [1%positive].
Proof.
  destruct (explore_action default_params 1 5 None sample_acts new_NodeStack) as [[[s' acts'] r]|f] eqn:E;
    [|vm_compute in E; discriminate].
  destruct (explore_action_records _ _ _ _ _ _ _ _ _ new_NodeStack_wf ltac:(simpl; lia) E) as (-> & _ & Hl & _).
  exists s', acts'. split; [reflexivity|exact Hl].
Defined.

(** C19. Replay is faithful: after [reset_execution], the next [k] explored actions are
    the first [k] recorded ones, whatever actions the program proposes, and neither
    the nodes nor the list of nodes change. *)
Theorem replay_faithful params args acts s :
  ns_wf s → length args ≤ length (ns_node_list s) → ns_node_list s ≠ [] →
  ∃ s', replay params args acts (ns_reset_execution s) =
      Ok (s', (λ p, n_action <$> ns_nodes s !! p) <$> take (length args) (ns_node_list s)) ∧
    ns_nodes s' = ns_nodes s ∧ ns_node_list s' = ns_node_list s.
Proof.
  intros Hwf Hlen Hne. assert (length (ns_node_list s) ≠ 0) by (by intros ?%nil_length_inv).
  rewrite replay_spec; simpl; [|by destruct Hwf as [W1 W2 W3 W4]; split; [..|by right]|lia|lia].
  eexists. split; [done|]. done.
Qed.

Lemma replay_faithful_witness :
  let s := mkNodeStack {[1%positive := sample_node]} 2 [1%positive] 0 2 in
  ∃ s', replay default_params [(1, 77%positive, None)] ∅ (ns_reset_execution s) =
      Ok (s', (λ p, n_action <$> ns_nodes s !! p) <$> take 1 (ns_node_list s)).
Proof.
  intros s. destruct (replay_faithful default_params [(1, 77%positive, None)] ∅ s) as (s' & H & _).
  - split; simpl.
    + intros [|i] p; [|done]. intros [= <-]. exists sample_node. by rewrite lookup_singleton_eq.
    + apply NoDup_singleton.
    + intros p [x Hx]. apply lookup_singleton_Some in Hx as [<- _]. lia.
    + left. lia.
  - simpl. lia.
  - discriminate.
  - exists s'. exact H.
Defined.

(** Diverging from the recorded path. Popping the stack [numAhead] nodes above the
    head keeps exactly that prefix, forgets the backtracking marks of its top node,
    frees the nodes above and their actions, and leaves the stack well formed. *)
Theorem pop_restofstack_correct numAhead s :
  ns_wf s → (1 ≤ ns_head_idx s + numAhead ≤ Z.of_nat (length (ns_node_list s)))%Z → (0 < numAhead)%Z →
  let n := Z.to_nat (ns_head_idx s + numAhead) in
  ∃ s' freed, pop_restofstack numAhead s = Ok (s', freed) ∧ ns_wf s' ∧
    ns_node_list s' = take n (ns_node_list s) ∧
    (∀ p, p ∈ drop n (ns_node_list s) → ns_nodes s' !! p = None) ∧
    (∀ (i : nat) p, i + 1 < n → ns_node_list s !! i = Some p → ns_nodes s' !! p = ns_nodes s !! p) ∧
    (∃ p x, last (ns_node_list s') = Some p ∧ ns_nodes s !! p = Some x ∧
            ns_nodes s' !! p = Some (clear_backtracking x)).
Proof.
  intros Hwf Hit Hna n. unfold pop_restofstack.
  destruct (Z.ltb_spec (ns_head_idx s + numAhead) 1); [lia|].
  destruct (Z.ltb_spec (Z.of_nat (length (ns_node_list s))) (ns_head_idx s + numAhead)); [lia|]. simpl.
  fold n. set (l := take n (ns_node_list s)).
  pose proof (delete_nodes_lookup (drop n (ns_node_list s)) (ns_nodes s)) as Hdel.
  destruct (delete_nodes (drop n (ns_node_list s)) (ns_nodes s)) as [m freed]. simpl in Hdel.
  assert (1 ≤ n ≤ length (ns_node_list s)) as Hn by lia.
  assert (length l = n) as Hl by (unfold l; rewrite length_take; lia).
  assert (∀ (i : nat) p, l !! i = Some p → ns_node_list s !! i = Some p ∧ i < n ∧ m !! p = ns_nodes s !! p) as Hm.
  { intros i p Hi. unfold l in Hi. apply lookup_take_Some in Hi as [Hi Hin]. split_and!; [done..|].
    rewrite Hdel, decide_False; [done|]. intros (j & Hj)%list_elem_of_lookup. rewrite lookup_drop in Hj.
    pose proof (NoDup_lookup _ _ _ _ (nw_nodup _ Hwf) Hi Hj). lia. }
  destruct (lookup_lt_is_Some_2 l (n - 1)) as [b Hb]; [lia|].
  assert (last l = Some b) as Hlast by (rewrite last_lookup, Hl; by replace (pred n) with (n - 1) by lia).
  destruct (Hm _ _ Hb) as (Hb' & _ & Hmb). destruct (nw_node _ Hwf _ _ Hb') as (x & Hx & Hxp).
  rewrite Hlast. simpl. rewrite Hmb, Hx. simpl. eexists _, freed. split; [done|]. split_and!; simpl; try done.
  - split; simpl.
    + intros i p Hi. destruct (Hm _ _ Hi) as (Hi' & Hin & Hmp). destruct (nw_node _ Hwf _ _ Hi') as (y & Hy & Hyp).
      assert (match i with O => None | S j => ns_node_list s !! j end = match i with O => None | S j => l !! j end) as Hpar.
      { destruct i; [done|]. unfold l. by rewrite lookup_take_lt by lia. }
      rewrite <- Hpar. destruct (decide (p = b)) as [->|Hne].
      * rewrite lookup_insert_eq. eexists. split; [done|]. simpl. by simplify_eq.
      * rewrite lookup_insert_ne, Hmp by done. eauto.
    + eapply sublist_NoDup; [apply Hwf|apply sublist_take].
    + intros p Hp. apply (nw_fresh _ Hwf). destruct (decide (p = b)) as [->|Hne]; [by eexists|].
      rewrite lookup_insert_ne, Hdel in Hp by done. by case_decide; [destruct Hp|].
    + left. pose proof (nw_head _ Hwf). rewrite Hl. lia.
  - intros p Hp. rewrite lookup_insert_ne, Hdel, decide_True; [done|done|]. intros <-.
    by rewrite Hdel, decide_True, Hx in Hmb by done.
  - intros i p Hi Hp. destruct (Hm i p) as (_ & _ & Hmp); [unfold l; rewrite lookup_take_lt; [done|lia]|].
    rewrite lookup_insert_ne; [done|]. intros <-. pose proof (NoDup_lookup _ _ _ _ (nw_nodup _ Hwf) Hp Hb'). lia.
  - exists b, x. by rewrite lookup_insert_eq.
Qed.

Lemma pop_restofstack_correct_witness :
  let s := mkNodeStack {[1%positive := sample_node]} 2 [1%positive] 0 2 in
  ∃ s' freed, pop_restofstack 1 s = Ok (s', freed) ∧ ns_node_list s' = [1%positive].
Proof.
  intros s. destruct (pop_restofstack_correct 1 s) as (s' & freed & H & _ & Hl & _).
  - split; simpl.
    + intros [|i] p; [|done]. intros [= <-]. exists sample_node. by rewrite lookup_singleton_eq.
    + apply NoDup_singleton.
    + intros p [x Hx]. apply lookup_singleton_Some in Hx as [<- _]. lia.
    + left. lia.
  - simpl. lia.
  - lia.
  - exists s', freed. split; [exact H|exact Hl].
Defined.
