(* ===== verification/Schedule.v ===== *)
(** * Threads and the scheduler (threads-model.h, threads.cc, schedule.h, schedule.cc)

    The scheduler keeps one status per thread and selects the next thread by a
    round robin that respects the fairness and yield priorities of the current node.
    A Thread object is identified by its thread id. *)

From S2P Require Import Prelude ClockVector Action Promise NodeStack.

(** ** Threads *)

Inductive thread_state :=
  | THREAD_CREATED | THREAD_RUNNING | THREAD_READY | THREAD_BLOCKED | THREAD_COMPLETED.
#[global] Instance thread_state_eq_dec : EqDecision thread_state.
Proof. solve_decision. Defined.

(** The members of Thread that the checker's decisions depend on (the context, stack
    and start routine are those of the user program). *)
Record Thread := mkThread {
  th_parent : option thread_id_t;
  th_creation : option ptr;
  th_pending : option ptr;
  th_state : thread_state;
  th_last_action_val : N;
  th_model_thread : bool
}.

(** [Thread::Thread(tid)], the model-checker thread, and [Thread::Thread(tid, ...)]. *)
Definition new_model_Thread : Thread := mkThread None None None THREAD_READY 0 true.
Definition new_Thread (parent : option thread_id_t) : Thread :=
  mkThread parent None None THREAD_CREATED VALUE_NONE false.

Definition set_state (s : thread_state) (t : Thread) : result Thread :=
  _ ← ASSERT (bool_decide (s = THREAD_COMPLETED) || negb (bool_decide (th_state t = THREAD_COMPLETED)));
  Ok (mkThread (th_parent t) (th_creation t) (th_pending t) s (th_last_action_val t) (th_model_thread t)).
Definition set_creation (a : ptr) (t : Thread) : Thread :=
  mkThread (th_parent t) (Some a) (th_pending t) (th_state t) (th_last_action_val t) (th_model_thread t).
Definition set_pending (a : option ptr) (t : Thread) : Thread :=
  mkThread (th_parent t) (th_creation t) a (th_state t) (th_last_action_val t) (th_model_thread t).
Definition set_return_value (v : N) (t : Thread) : Thread :=
  mkThread (th_parent t) (th_creation t) (th_pending t) (th_state t) v (th_model_thread t).
Definition is_complete (t : Thread) : bool := bool_decide (th_state t = THREAD_COMPLETED).
Definition is_blocked (t : Thread) : bool := bool_decide (th_state t = THREAD_BLOCKED).

(** [Thread::complete]. *)
Definition complete (t : Thread) : result Thread :=
  _ ← ASSERT (negb (is_complete t));
  Ok (mkThread (th_parent t) (th_creation t) (th_pending t) THREAD_COMPLETED
        (th_last_action_val t) (th_model_thread t)).

(** ** Scheduler *)

Record Scheduler := mkScheduler {
  sc_enabled : list enabled_type;          (* enabled[0 .. enabled_len - 1] *)
  sc_curr_thread_index : nat;
  sc_current : option thread_id_t
}.

Definition new_Scheduler : Scheduler := mkScheduler [] 0 None.

(** [set_enabled]; when the thread gets disabled the caller then runs
    [execution->check_promises_thread_disabled()]. *)
Definition set_enabled (tid : thread_id_t) (status : enabled_type) (s : Scheduler) : Scheduler :=
  let threadid := id_to_int tid in
  let e := if length (sc_enabled s) <=? threadid then grow (threadid + 1) THREAD_DISABLED (sc_enabled s)
           else sc_enabled s in
  mkScheduler (<[threadid := status]> e) (sc_curr_thread_index s) (sc_current s).

Definition sc_is_enabled (s : Scheduler) (tid : thread_id_t) : bool :=
  match sc_enabled s !! id_to_int tid with
  | None => false
  | Some e => negb (bool_decide (e = THREAD_DISABLED))
  end.

Definition get_enabled (s : Scheduler) (tid : thread_id_t) : result enabled_type :=
  _ ← ASSERT (id_to_int tid <? length (sc_enabled s));
  at_index (sc_enabled s) (id_to_int tid).

Definition is_sleep_set (s : Scheduler) (tid : thread_id_t) : result bool :=
  e ← get_enabled s tid; Ok (bool_decide (e = THREAD_SLEEP_SET)).

Fixpoint all_threads_sleeping_from (l : list enabled_type) (sleeping : bool) : bool :=
  match l with
  | [] => sleeping
  | THREAD_ENABLED :: _ => false
  | THREAD_SLEEP_SET :: l => all_threads_sleeping_from l true
  | THREAD_DISABLED :: l => all_threads_sleeping_from l sleeping
  end.
Definition all_threads_sleeping (s : Scheduler) : bool := all_threads_sleeping_from (sc_enabled s) false.

(** [update_sleep_set]: inherit the sleep set recorded in a node. *)
Definition update_sleep_set (x : Node) (s : Scheduler) : result Scheduler :=
  arr ← match sc_enabled s with [] => Ok [] | _ => deref (n_enabled_array x) end;
  e ← foldM (λ i e, st ← at_index arr i;
                    if bool_decide (st = THREAD_SLEEP_SET) then set_at i THREAD_SLEEP_SET e else Ok e)
        (seq 0 (length (sc_enabled s))) (sc_enabled s);
  Ok (mkScheduler e (sc_curr_thread_index s) (sc_current s)).

Definition add_sleep (tid : thread_id_t) (s : Scheduler) : Scheduler := set_enabled tid THREAD_SLEEP_SET s.
Definition remove_sleep (tid : thread_id_t) (s : Scheduler) : Scheduler := set_enabled tid THREAD_ENABLED s.
(** The callers' assertion is that the thread is not the model-checker thread. *)
Definition sc_add_thread (tid : thread_id_t) (t : Thread) (s : Scheduler) : result Scheduler :=
  _ ← ASSERT (negb (th_model_thread t));
  Ok (set_enabled tid THREAD_ENABLED s).
Definition sc_remove_thread (tid : thread_id_t) (s : Scheduler) : Scheduler :=
  let s := if bool_decide (sc_current s = Some tid)
           then mkScheduler (sc_enabled s) (sc_curr_thread_index s) None else s in
  set_enabled tid THREAD_DISABLED s.
Definition sc_sleep (tid : thread_id_t) (t : Thread) (s : Scheduler) : result (Scheduler * Thread) :=
  let s := set_enabled tid THREAD_DISABLED s in
  t ← set_state THREAD_BLOCKED t;
  Ok (s, t).
Definition sc_wake (tid : thread_id_t) (t : Thread) (s : Scheduler) : result (Scheduler * Thread) :=
  _ ← ASSERT (negb (th_model_thread t));
  let s := set_enabled tid THREAD_ENABLED s in
  t ← set_state THREAD_READY t;
  Ok (s, t).
Definition set_scheduler_thread (tid : thread_id_t) (s : Scheduler) : Scheduler :=
  mkScheduler (sc_enabled s) (id_to_int tid) (sc_current s).
Definition set_current_thread (t : option (thread_id_t * Thread)) (s : Scheduler) : result Scheduler :=
  _ ← ASSERT (match t with None => true | Some (_, th) => negb (th_model_thread th) end);
  Ok (mkScheduler (sc_enabled s) (sc_curr_thread_index s) (fst <$> t)).

Section select.
Context (params : model_params) (n : Node) (enabled : list enabled_type).
Let enabled_len := length enabled.

(** Is there an enabled thread with fairness priority? *)
Definition enabled_with_priority : result bool :=
  if (fairwindow params =? 0)%N then Ok false
  else foldM (λ i acc, p ← has_priority n (int_to_id i);
                       if (p : bool) then e ← at_index enabled i; Ok (acc || negb (bool_decide (e = THREAD_DISABLED)))
                       else Ok acc) (seq 0 enabled_len) false.

(** Does some enabled thread have yield priority over [curr]? *)
Definition bad_thread (curr : nat) : result bool :=
  if yieldon params then
    r ← until (λ j, e ← at_index enabled j;
                    if negb (bool_decide (e = THREAD_DISABLED)) then
                      p ← has_priority_over n (int_to_id curr) (int_to_id j);
                      Ok (if (p : bool) then Some tt else None)
                    else Ok None) (seq 0 enabled_len);
    Ok (bool_decide (is_Some r))
  else Ok false.

(** The test of one candidate. *)
Definition selectable (have_priority : bool) (curr : nat) : result bool :=
  bad ← bad_thread curr;
  if (bad : bool) then Ok false
  else
    e ← at_index enabled curr;
    if bool_decide (e = THREAD_ENABLED) then
      if have_priority then has_priority n (int_to_id curr) else Ok true
    else Ok false.

(** The loop: the candidates in round-robin order; the index of the last candidate
    examined is kept in [curr_thread_index]. *)
Fixpoint select_loop (have_priority : bool) (cands : list nat) (curr : nat) : result (nat * option nat) :=
  match cands with
  | [] => Ok (curr, None)
  | c :: cands =>
      b ← selectable have_priority c;
      if (b : bool) then Ok (c, Some c) else select_loop have_priority cands c
  end.
End select.

Definition candidates (old len : nat) : list nat := (λ i, (old + i + 1) mod len) <$> seq 0 len.

Definition select_next_thread (params : model_params) (n : Node) (s : Scheduler)
    : result (Scheduler * option thread_id_t) :=
  let len := length (sc_enabled s) in
  have_priority ← enabled_with_priority params n (sc_enabled s);
  '(curr, r) ← select_loop params n (sc_enabled s) have_priority
                 (candidates (sc_curr_thread_index s) len) (sc_curr_thread_index s);
  Ok (mkScheduler (sc_enabled s) curr (sc_current s),
      match r with Some t => Some (int_to_id t) | None => None end).

(** ** Lemmas *)

Lemma sc_is_enabled_set tid st s t :
  sc_is_enabled (set_enabled tid st s) t =
    if decide (t = tid) then negb (bool_decide (st = THREAD_DISABLED)) else sc_is_enabled s t.
Proof.
  unfold sc_is_enabled, set_enabled, id_to_int. simpl.
  set (e := if length (sc_enabled s) <=? tid then _ else _).
  assert (tid < length e) as Hlt by (unfold e; case_tests; rewrite ?length_grow; lia).
  assert (∀ i : nat, e !! i = sc_enabled s !! i ∨ (e !! i = Some THREAD_DISABLED ∧ sc_enabled s !! i = None)) as He.
  { intros i. unfold e. case_tests; [|auto]. rewrite lookup_grow. repeat case_decide; auto.
    - right. split; [done|]. apply lookup_ge_None. lia.
    - left. symmetry. apply lookup_ge_None. lia. }
  case_decide as Ht; [subst|].
  - by rewrite list_lookup_insert_eq.
  - rewrite list_lookup_insert_ne by done. by destruct (He t) as [->|[-> ->]].
Qed.

Lemma sleeping_from_spec l b :
  all_threads_sleeping_from l b = true ↔
    THREAD_ENABLED ∉ l ∧ (b = true ∨ THREAD_SLEEP_SET ∈ l).
Proof.
  revert b. induction l as [|[] l IH]; intros b; simpl.
  - set_solver.
  - rewrite IH. set_solver.
  - set_solver.
  - rewrite IH. set_solver.
Qed.

(** The round robin visits every index exactly once, starting after [old]. *)
Lemma candidates_elem old len i : i < len → i ∈ candidates old len.
Proof.
  intros Hi. unfold candidates. apply list_elem_of_fmap.
  exists ((i + len * (S (old / len)) - old - 1) mod len). split.
  - rewrite <- Nat.add_assoc, (Nat.add_comm _ 1), Nat.add_assoc, Nat.Div0.add_mod_idemp_r.
    pose proof (Nat.div_mod old len ltac:(lia)). pose proof (Nat.mod_upper_bound old len ltac:(lia)).
    replace (old + 1 + (i + len * S (old / len) - old - 1)) with (i + S (old / len) * len) by nia.
    rewrite Nat.Div0.mod_add. symmetry. by apply Nat.mod_small.
  - apply elem_of_seq. pose proof (Nat.mod_upper_bound (i + len * S (old / len) - old - 1) len). lia.
Qed.

Lemma candidates_lt old len i : i ∈ candidates old len → i < len.
Proof.
  unfold candidates. intros (k & -> & Hk)%list_elem_of_fmap. apply elem_of_seq in Hk.
  apply Nat.mod_upper_bound. lia.
Qed.

Lemma until_total {A B} (f : A → result (option B)) l :
  (∀ x, x ∈ l → ∃ r, f x = Ok r) → ∃ r, until f l = Ok r ∧ (r = None ↔ ∀ x, x ∈ l → f x = Ok None).
Proof.
  induction l as [|x l IH]; intros Hf; simpl.
  - exists None. set_solver.
  - destruct (Hf x) as [r Hr]; [set_solver|]. rewrite Hr. simpl. destruct r as [b|].
    + exists (Some b). split; [done|]. split; [done|]. intros H. specialize (H x ltac:(set_solver)). congruence.
    + destruct IH as (r & ? & Hiff); [set_solver|]. exists r. split; [done|]. rewrite Hiff. set_solver.
Qed.

Lemma select_loop_spec params n enabled hp cands curr :
  (∀ c, c ∈ cands → ∃ b, selectable params n enabled hp c = Ok b) →
  ∃ c r, select_loop params n enabled hp cands curr = Ok (c, r) ∧
    match r with
    | None => ∀ c', c' ∈ cands → selectable params n enabled hp c' = Ok false
    | Some t => c = t ∧ ∃ l1 l2, cands = l1 ++ t :: l2 ∧ selectable params n enabled hp t = Ok true ∧
        ∀ c', c' ∈ l1 → selectable params n enabled hp c' = Ok false
    end.
Proof.
  revert curr. induction cands as [|x cands IH]; intros curr Htot; simpl.
  - exists curr, None. set_solver.
  - destruct (Htot x) as [b Hb]; [set_solver|]. rewrite Hb. simpl. destruct b.
    + exists x, (Some x). split; [done|]. split; [done|]. exists [], cands. set_solver.
    + destruct (IH x) as (c & r & ? & Hr); [set_solver|]. exists c, r. split; [done|].
      destruct r as [t|].
      * destruct Hr as (-> & l1 & l2 & -> & ? & ?). split; [done|]. exists (x :: l1), l2. set_solver.
      * set_solver.
Qed.

(** The node's priority tables cover the threads the scheduler knows. *)
Record priorities_total (params : model_params) (n : Node) (len : nat) : Prop := {
  pt_priority : fairwindow params ≠ 0%N → ∀ i, i < len → ∃ b, has_priority n i = Ok b;
  pt_over : yieldon params = true → ∀ i j, i < len → j < len → ∃ b, has_priority_over n i j = Ok b
}.

Lemma selectable_total params n enabled hp c :
  priorities_total params n (length enabled) → c < length enabled →
  (hp = true → fairwindow params ≠ 0%N) →
  ∃ b, selectable params n enabled hp c = Ok b.
Proof.
  intros [Hp Ho] Hc Hhp. unfold selectable.
  assert (∃ bad, bad_thread params n enabled c = Ok bad) as [bad ->].
  { unfold bad_thread. destruct (yieldon params) eqn:Ey; [|eauto].
    match goal with |- context [until ?f ?l] => destruct (until_total f l) as (r & -> & _) end; [|by eexists].
    intros j Hj%elem_of_seq. destruct (lookup_lt_is_Some_2 enabled j) as [e He]; [lia|].
    unfold at_index. rewrite He. simpl. case_match; [|by eexists].
    destruct (Ho eq_refl c j) as [b Hb]; [done|lia|]. unfold int_to_id. rewrite Hb. by eexists. }
  simpl. destruct bad; [by eexists|]. destruct (lookup_lt_is_Some_2 enabled c Hc) as [e He].
  unfold at_index. rewrite He. simpl. case_match; [|by eexists]. destruct hp; [|by eexists].
  apply Hp; [auto|done].
Qed.

Lemma enabled_with_priority_total params n enabled :
  priorities_total params n (length enabled) →
  ∃ hp, enabled_with_priority params n enabled = Ok hp ∧ (hp = true → fairwindow params ≠ 0%N).
Proof.
  intros [Hp _]. unfold enabled_with_priority. destruct (N.eqb_spec (fairwindow params) 0) as [Hz|Hz]; [by eexists|].
  match goal with |- context [foldM ?f ?l ?s] => set (body := f) end.
  assert (∀ l acc, (∀ i, i ∈ l → i < length enabled) → ∃ hp, foldM body l acc = Ok hp) as H.
  { induction l as [|i l IH]; intros acc Hl; cbn [foldM]; [by eexists|].
    assert (∃ acc', body i acc = Ok acc') as [acc' ->]; [|apply IH; set_solver].
    destruct (Hp Hz i) as [b Hb]; [apply Hl; set_solver|]. unfold body, int_to_id. rewrite Hb. simpl.
    destruct b; [|by eexists]. destruct (lookup_lt_is_Some_2 enabled i) as [e He]; [apply Hl; set_solver|].
    unfold at_index. rewrite He. by eexists. }
  destruct (H (seq 0 (length enabled)) false) as [hp ->]; [|by exists hp].
  intros i Hi%elem_of_seq. lia.
Qed.

Lemma select_next_thread_spec params n s :
  priorities_total params n (length (sc_enabled s)) →
  ∃ s' r hp, select_next_thread params n s = Ok (s', r) ∧
    enabled_with_priority params n (sc_enabled s) = Ok hp ∧ sc_enabled s' = sc_enabled s ∧
    match r with
    | Some t => sc_enabled s !! t = Some THREAD_ENABLED ∧ sc_curr_thread_index s' = t ∧
        selectable params n (sc_enabled s) hp t = Ok true ∧
        ∃ l1 l2, candidates (sc_curr_thread_index s) (length (sc_enabled s)) = l1 ++ t :: l2 ∧
          ∀ c, c ∈ l1 → selectable params n (sc_enabled s) hp c = Ok false
    | None => ∀ t, t < length (sc_enabled s) → selectable params n (sc_enabled s) hp t = Ok false
    end.
Proof.
  intros Htot. unfold select_next_thread.
  destruct (enabled_with_priority_total _ _ _ Htot) as (hp & Hhp & Hfw). rewrite Hhp. simpl.
  destruct (select_loop_spec params n (sc_enabled s) hp
              (candidates (sc_curr_thread_index s) (length (sc_enabled s))) (sc_curr_thread_index s))
    as (c & r & -> & Hr).
  { intros c Hc%candidates_lt. by apply selectable_total. }
  simpl. eexists _, _, hp. split; [done|]. split_and!; [done|done|]. destruct r as [t|]; simpl.
  - destruct Hr as (-> & l1 & l2 & Heq & Hsel & Hl1). unfold int_to_id. split_and!; [|done|done|by exists l1, l2].
    unfold selectable in Hsel. simplify_res. case_match; simplify_res. case_match; [|by simplify_res].
    match goal with H : bool_decide (_ = THREAD_ENABLED) = true |- _ => apply bool_decide_eq_true_1 in H; by subst end.
  - intros t Ht. apply Hr. by apply candidates_elem.
Qed.

(** ** Fairness of the round robin *)

(** The selection number [k] (from 0), with the same node and statuses throughout. *)
Fixpoint select_times (params : model_params) (n : Node) (k : nat) (s : Scheduler)
    : result (Scheduler * option thread_id_t) :=
  match k with
  | O => select_next_thread params n s
  | S k => '(s, _) ← select_next_thread params n s; select_times params n k s
  end.

Lemma candidates_lookup old len i : i < len → candidates old len !! i = Some ((old + i + 1) mod len).
Proof. intros Hi. unfold candidates. rewrite list_lookup_fmap, lookup_seq_lt by done. done. Qed.

(** A selectable thread at distance [j] of the current index is reached in at most [j]
    selections: each of them moves the index closer. *)
Lemma select_within params n hp t : ∀ j s,
  priorities_total params n (length (sc_enabled s)) → enabled_with_priority params n (sc_enabled s) = Ok hp →
  selectable params n (sc_enabled s) hp t = Ok true →
  j < length (sc_enabled s) → (sc_curr_thread_index s + j + 1) mod length (sc_enabled s) = t →
  ∃ k s', k ≤ j ∧ select_times params n k s = Ok (s', Some t).
Proof.
  intros j. induction j as [j IH] using lt_wf_ind. intros s Htot Hhp Hsel Hj Ht.
  destruct (select_next_thread_spec params n s Htot) as (s1 & r & hp' & Hs1 & Hhp' & Hen & Hr).
  assert (hp' = hp) as -> by congruence. destruct r as [t1|].
  2: { rewrite Hr in Hsel; [done|]. subst t. apply Nat.mod_upper_bound. lia. }
  destruct Hr as (_ & Hidx & Hsel1 & l1 & l2 & Hc & Hl1).
  assert (length l1 ≤ j) as Hle.
  { destruct (decide (length l1 ≤ j)); [done|]. exfalso.
    assert (t ∈ l1) as Hin.
    { apply list_elem_of_lookup. exists j. rewrite <- (lookup_app_l l1 (t1 :: l2)) by lia.
      rewrite <- Hc, candidates_lookup by done. by rewrite Ht. }
    apply Hl1 in Hin. congruence. }
  assert ((sc_curr_thread_index s + length l1 + 1) mod length (sc_enabled s) = t1) as Ht1.
  { assert (candidates (sc_curr_thread_index s) (length (sc_enabled s)) !! length l1 = Some t1) as H
      by (rewrite Hc; by apply list_lookup_middle).
    rewrite candidates_lookup in H by lia. congruence. }
  destruct (decide (length l1 = j)) as [He|He]; [exists 0, s1; split; [lia|]; simpl; rewrite Hs1; congruence|].
  destruct (IH (j - length l1 - 1) ltac:(lia) s1) as (k & s' & Hk & Hsel'); rewrite ?Hen; try done; [lia| |].
  - rewrite Hidx, <- Ht1, <- Nat.add_assoc, Nat.Div0.add_mod_idemp_l. rewrite <- Ht. f_equal. lia.
  - exists (S k), s'. split; [lia|]. simpl. rewrite Hs1. done.
Qed.

(** ** Properties *)

(** C32. The scheduler's choice. When the node's priority tables cover the threads, the
    selection terminates without a fault; a thread it returns is enabled, not in the
    sleep set, and the first selectable one in the round robin that starts after the
    current index; it returns none exactly when no thread is selectable. *)
Theorem select_next_thread_correct params n s :
  priorities_total params n (length (sc_enabled s)) →
  ∃ s' r hp, select_next_thread params n s = Ok (s', r) ∧
    enabled_with_priority params n (sc_enabled s) = Ok hp ∧ sc_enabled s' = sc_enabled s ∧
    match r with
    | Some t => sc_enabled s !! t = Some THREAD_ENABLED ∧ sc_curr_thread_index s' = t ∧
        selectable params n (sc_enabled s) hp t = Ok true ∧
        ∃ l1 l2, candidates (sc_curr_thread_index s) (length (sc_enabled s)) = l1 ++ t :: l2 ∧
          ∀ c, c ∈ l1 → selectable params n (sc_enabled s) hp c = Ok false
    | None => ∀ t, t < length (sc_enabled s) → selectable params n (sc_enabled s) hp t = Ok false
    end.
Proof. apply select_next_thread_spec. Qed.

Lemma select_next_thread_correct_witness :
  let s := mkScheduler [THREAD_DISABLED; THREAD_SLEEP_SET; THREAD_ENABLED] 0 None in
  ∃ s' r hp, select_next_thread default_params sample_node s = Ok (s', r) ∧
    enabled_with_priority default_params sample_node (sc_enabled s) = Ok hp ∧ r = Some 2.
Proof.
  intros s. destruct (select_next_thread_correct default_params sample_node s) as (s' & r & hp & H & Hp & _).
  - split; [intros H; by destruct H|discriminate].
  - exists s', r, hp. split; [exact H|]. split; [exact Hp|]. vm_compute in H. by injection H.
Defined.

(** [all_threads_sleeping] holds exactly when no thread is enabled and some thread
    is in the sleep set, that is, when the execution is redundant. *)
Theorem all_threads_sleeping_exact s :
  all_threads_sleeping s = true ↔
    (∀ i : nat, sc_enabled s !! i ≠ Some THREAD_ENABLED) ∧ (∃ i : nat, sc_enabled s !! i = Some THREAD_SLEEP_SET).
Proof.
  unfold all_threads_sleeping. rewrite sleeping_from_spec, !list_elem_of_lookup. split.
  - intros [H1 [?|H2]]; [done|]. split; [|done]. intros i Hi. apply H1. by exists i.
  - intros [H1 H2]. split; [|by right]. intros (i & Hi). by apply (H1 i).
Qed.

(** C33. The round robin starves no thread: as long as statuses and priorities stay the
    same, every selectable thread is selected within as many selections as there are
    threads. *)
Theorem round_robin_fair params n hp s t :
  priorities_total params n (length (sc_enabled s)) → enabled_with_priority params n (sc_enabled s) = Ok hp →
  t < length (sc_enabled s) → selectable params n (sc_enabled s) hp t = Ok true →
  ∃ k s', k < length (sc_enabled s) ∧ select_times params n k s = Ok (s', Some t).
Proof.
  intros Htot Hhp Ht Hsel.
  pose proof (candidates_elem (sc_curr_thread_index s) _ _ Ht) as (j & Hj)%list_elem_of_lookup.
  assert (j < length (sc_enabled s)) as Hlt.
  { apply lookup_lt_Some in Hj. unfold candidates in Hj. by rewrite length_fmap, length_seq in Hj. }
  rewrite candidates_lookup in Hj by done. injection Hj as Hj.
  destruct (select_within params n hp t j s Htot Hhp Hsel Hlt Hj) as (k & s' & Hk & H).
  exists k, s'. split; [lia|done].
Qed.

(** Thread 1 is reached from index 1 although threads 2 and 3 come first. *)
Lemma round_robin_fair_witness :
  let s := mkScheduler [THREAD_DISABLED; THREAD_ENABLED; THREAD_ENABLED; THREAD_ENABLED] 1 None in
  ∃ k s', k < 4 ∧ select_times default_params sample_node k s = Ok (s', Some 1).
Proof.
  intros s. apply (round_robin_fair default_params sample_node false s 1).
  - split; [intros H; by destruct H|discriminate].
  - reflexivity.
  - simpl. lia.
  - reflexivity.
Defined.
