(* ===== verification/DataRace.v ===== *)
(** * Data race detection (datarace.h, datarace.cc, librace.cc)

    Every byte of user memory has a shadow entry that remembers the last write and
    the reads since then. An entry is a 64-bit word in a compact encoding while one
    read is enough, and a pointer to a [RaceRecord] otherwise. The full record is
    owned by its entry, so it is a value here. *)

From S2P Require Import Prelude ClockVector.

(** ** The compact encoding *)

Definition THREADMASK : N := 0xff.
Definition READMASK : N := 0x07fffff.
Definition WRITEMASK : N := READMASK.
Definition MAXTHREADID : N := THREADMASK - 1.
Definition MAXREADVECTOR : N := READMASK - 1.
Definition MAXWRITEVECTOR : N := WRITEMASK - 1.
Definition INITCAPACITY : nat := 4.

Definition ISSHORTRECORD (x : N) : bool := negb (N.land x 1 =? 0)%N.
Definition RDTHREADID (x : N) : N := N.land (N.shiftr x 1) THREADMASK.
Definition READVECTOR (x : N) : N := N.land (N.shiftr x 9) READMASK.
Definition WRTHREADID (x : N) : N := N.land (N.shiftr x 32) THREADMASK.
Definition WRITEVECTOR (x : N) : N := N.land (N.shiftr x 40) WRITEMASK.

(** [rdthread << 1] and [rdtime << 9] are computed in 32 bits, the rest in 64. *)
Definition ENCODEOP (rdthread rdtime wrthread wrtime : N) : N :=
  N.lor (N.lor (N.lor (N.lor 1 (wrap32 (N.shiftl rdthread 1))) (wrap32 (N.shiftl rdtime 9)))
           (wrap64 (N.shiftl wrthread 32)))
        (wrap64 (N.shiftl wrtime 40)).

(** ** Shadow memory *)

(** The two arrays of a full record, side by side; [None] is an uninitialized element. *)
Record RaceRecord := mkRaceRecord {
  rr_reads : list (option (modelclock_t * thread_id_t));   (* capacity elements *)
  rr_numReads : nat;
  rr_writeThread : thread_id_t;
  rr_writeClock : modelclock_t
}.

(** The contents of a shadow entry: 0 or a compact word, or a full record. *)
Inductive shadow := Word (w : N) | Full (r : RaceRecord).

(** [lookupAddressEntry]: the indices into the three levels of tables (BIT48), whose
    tables are allocated and zeroed on demand. *)
Definition MASK16BIT : N := 0xffff.
Definition shadow_index (address : N) : N * N * N :=
  (N.land (N.shiftr address 32) MASK16BIT, N.land (N.shiftr address 16) MASK16BIT,
   N.land address MASK16BIT).
Definition shadow_memory := gmap (N * N * N) shadow.
Definition lookupAddressEntry (address : N) (m : shadow_memory) : shadow :=
  default (Word 0) (m !! shadow_index address).
Definition storeAddressEntry (address : N) (s : shadow) (m : shadow_memory) : shadow_memory :=
  <[shadow_index address := s]> m.

(** ** Races *)

Record DataRace := mkDataRace {
  dr_oldthread : thread_id_t;
  dr_oldclock : modelclock_t;
  dr_isoldwrite : bool;
  dr_newaction : ptr;
  dr_isnewwrite : bool;
  dr_address : N
}.

Definition clock_may_race (clock1 : ClockVector) (tid1 : thread_id_t) (clock2 : modelclock_t)
    (tid2 : thread_id_t) : bool :=
  negb (bool_decide (tid1 = tid2)) && negb (clock2 =? 0)%N && (getClock clock1 tid2 <=? clock2)%N.

(** What a check does, in order: report a race (which ends the execution if the race
    is realized) or store the shadow entry. *)
Inductive race_event := EReport (r : DataRace) | EStore (s : shadow).

Definition expandRecord (s : shadow) : shadow :=
  match s with
  | Full r => Full r
  | Word w =>
      let readClock := READVECTOR w in
      let readThread := N.to_nat (RDTHREADID w) in
      let writeClock := WRITEVECTOR w in
      let writeThread := N.to_nat (WRTHREADID w) in
      if (readClock =? 0)%N then Full (mkRaceRecord [] 0 writeThread writeClock)
      else Full (mkRaceRecord (Some (readClock, readThread) :: replicate (INITCAPACITY - 1) None)
                   1 writeThread writeClock)
  end.

Section check.
Context (thread : thread_id_t) (location : N) (currClock : ClockVector) (newaction : ptr).

Definition report (oldthread : thread_id_t) (oldclock : modelclock_t) (isoldwrite isnewwrite : bool)
    : list race_event :=
  if clock_may_race currClock thread oldclock oldthread
  then [EReport (mkDataRace oldthread oldclock isoldwrite newaction isnewwrite location)]
  else [].

(** Element [i] of the arrays of a full record. *)
Definition read_at (r : RaceRecord) (i : nat) : result (modelclock_t * thread_id_t) :=
  e ← at_index (rr_reads r) i; deref e.

Definition fullRaceCheckWrite (r : RaceRecord) : result (list race_event) :=
  evs ← foldM (λ i evs, '(readClock, readThread) ← read_at r i;
                        Ok (evs ++ report readThread readClock false true))
          (seq 0 (rr_numReads r)) [];
  let evs := evs ++ report (rr_writeThread r) (rr_writeClock r) true true in
  Ok (evs ++ [EStore (Full (mkRaceRecord (rr_reads r) 0 thread (getClock currClock thread)))]).

Definition raceCheckWrite (s : shadow) : result (list race_event) :=
  match s with
  | Full r => fullRaceCheckWrite r
  | Word w =>
      let threadid := N.of_nat (id_to_int thread) in
      let ourClock := getClock currClock thread in
      if (MAXTHREADID <? threadid)%N || (MAXWRITEVECTOR <? ourClock)%N then
        match expandRecord s with
        | Full r => evs ← fullRaceCheckWrite r; Ok (EStore (Full r) :: evs)
        | Word _ => Err BadPointer
        end
      else
        let evs := report (N.to_nat (RDTHREADID w)) (READVECTOR w) false true in
        let evs := evs ++ report (N.to_nat (WRTHREADID w)) (WRITEVECTOR w) true true in
        Ok (evs ++ [EStore (Word (ENCODEOP 0 0 threadid ourClock))])
  end.

(** The loop of [fullRaceCheckRead] that shortens the vector in place; returns the
    arrays and [copytoindex]. *)
Definition shorten_step (i : nat) (st : RaceRecord * nat) : result (RaceRecord * nat) :=
  let '(r, copytoindex) := st in
  '(readClock, readThread) ← read_at r i;
  if clock_may_race currClock thread readClock readThread then
    l ← (if negb (copytoindex =? i) then set_at copytoindex (Some (readClock, readThread)) (rr_reads r)
         else Ok (rr_reads r));
    Ok (mkRaceRecord l (rr_numReads r) (rr_writeThread r) (rr_writeClock r), copytoindex + 1)
  else Ok (r, copytoindex).

Definition fullRaceCheckRead (r : RaceRecord) : result (list race_event) :=
  let evs := report (rr_writeThread r) (rr_writeClock r) true false in
  '(r, copytoindex) ← foldM shorten_step (seq 0 (rr_numReads r)) (r, 0);
  let capacity := length (rr_reads r) in
  let reads := if capacity <=? copytoindex then
                 let newCapacity := capacity * 2 in
                 rr_reads r ++ replicate (newCapacity - capacity) None
               else rr_reads r in
  let ourClock := getClock currClock thread in
  reads ← set_at copytoindex (Some (ourClock, thread)) reads;
  Ok (evs ++ [EStore (Full (mkRaceRecord reads (copytoindex + 1) (rr_writeThread r) (rr_writeClock r)))]).

Definition raceCheckRead (s : shadow) : result (list race_event) :=
  match s with
  | Full r => fullRaceCheckRead r
  | Word w =>
      let threadid := N.of_nat (id_to_int thread) in
      let ourClock := getClock currClock thread in
      let expanded evs :=
        match expandRecord s with
        | Full r => evs' ← fullRaceCheckRead r; Ok (evs ++ EStore (Full r) :: evs')
        | Word _ => Err BadPointer
        end in
      if (MAXTHREADID <? threadid)%N || (MAXWRITEVECTOR <? ourClock)%N then expanded []
      else
        let evs := report (N.to_nat (WRTHREADID w)) (WRITEVECTOR w) true false in
        if clock_may_race currClock thread (READVECTOR w) (N.to_nat (RDTHREADID w)) then expanded evs
        else Ok (evs ++ [EStore (Word (ENCODEOP threadid ourClock (WRTHREADID w) (WRITEVECTOR w)))])
  end.
End check.

(** ** The encoding round trip *)

Lemma land_shiftr_bits x k n : N.land (N.shiftr x k) (2 ^ n - 1) = ((x / 2 ^ k) mod 2 ^ n)%N.
Proof. by rewrite N.shiftr_div_pow2, N.sub_1_r, <- N.ones_equiv, N.land_ones. Qed.

Lemma lor_disjoint_add a b k : (a < 2 ^ k)%N → N.lor a (N.shiftl b k) = (a + b * 2 ^ k)%N.
Proof.
  intros Ha. rewrite <- N.shiftl_mul_pow2.
  assert (N.land a (N.shiftl b k) = 0%N) as H0.
  { apply N.bits_inj_0. intros i. rewrite N.land_spec. destruct (N.lt_ge_cases i k).
    - by rewrite N.shiftl_spec_low, andb_false_r.
    - by rewrite <- (N.mod_small a (2 ^ k) Ha), N.mod_pow2_bits_high. }
  by rewrite N.add_nocarry_lxor, N.lxor_lor.
Qed.

(** The word as a sum of its fields. *)
Lemma ENCODEOP_sum rt rc wt wc :
  (rt < 2 ^ 8)%N → (rc < 2 ^ 23)%N → (wt < 2 ^ 8)%N → (wc < 2 ^ 23)%N →
  ENCODEOP rt rc wt wc = (1 + rt * 2 + rc * 2 ^ 9 + wt * 2 ^ 32 + wc * 2 ^ 40)%N.
Proof.
  intros Hrt Hrc Hwt Hwc. unfold ENCODEOP, wrap32, wrap64.
  rewrite !(N.mod_small (N.shiftl _ _)) by (rewrite N.shiftl_mul_pow2; lia).
  rewrite (lor_disjoint_add 1 rt 1) by lia. rewrite (lor_disjoint_add _ rc 9) by lia.
  rewrite (lor_disjoint_add _ wt 32) by lia. rewrite (lor_disjoint_add _ wc 40) by lia. lia.
Qed.

Lemma field_extract lo v hi k n :
  (lo < 2 ^ k)%N → (v < 2 ^ n)%N →
  N.land (N.shiftr (lo + v * 2 ^ k + hi * 2 ^ (k + n)) k) (2 ^ n - 1) = v.
Proof.
  intros Hlo Hv. rewrite land_shiftr_bits, N.pow_add_r.
  replace (lo + v * 2 ^ k + hi * (2 ^ k * 2 ^ n))%N with (lo + (v + hi * 2 ^ n) * 2 ^ k)%N by lia.
  rewrite N.div_add by (apply N.pow_nonzero; lia). rewrite N.div_small by done.
  rewrite N.add_0_l, N.Div0.mod_add. by apply N.mod_small.
Qed.

Lemma decode_encode rt rc wt wc :
  (rt < 2 ^ 8)%N → (rc < 2 ^ 23)%N → (wt < 2 ^ 8)%N → (wc < 2 ^ 23)%N →
  let w := ENCODEOP rt rc wt wc in
  RDTHREADID w = rt ∧ READVECTOR w = rc ∧ WRTHREADID w = wt ∧ WRITEVECTOR w = wc ∧
  ISSHORTRECORD w = true ∧ (w < 2 ^ 64)%N.
Proof.
  intros Hrt Hrc Hwt Hwc w. unfold w. rewrite ENCODEOP_sum by done.
  unfold RDTHREADID, READVECTOR, WRTHREADID, WRITEVECTOR, ISSHORTRECORD, THREADMASK, WRITEMASK, READMASK.
  change 0xff%N with (2 ^ 8 - 1)%N. change 0x7fffff%N with (2 ^ 23 - 1)%N.
  split_and!.
  - rewrite <- (field_extract 1 rt (rc + wt * 2 ^ 23 + wc * 2 ^ 31) 1 8) at 2 by lia. do 2 f_equal; lia.
  - rewrite <- (field_extract (1 + rt * 2) rc (wt + wc * 2 ^ 8) 9 23) at 2 by lia. do 2 f_equal; lia.
  - rewrite <- (field_extract (1 + rt * 2 + rc * 2 ^ 9) wt wc 32 8) at 2 by lia. do 2 f_equal; lia.
  - rewrite <- (field_extract (1 + rt * 2 + rc * 2 ^ 9 + wt * 2 ^ 32) wc 0 40 23) at 2 by lia. do 2 f_equal; lia.
  - change 1%N with (2 ^ 1 - 1)%N at 2. rewrite <- (N.shiftr_0_r (1 + _ + _ + _ + _)), land_shiftr_bits.
    replace ((1 + rt * 2 + rc * 2 ^ 9 + wt * 2 ^ 32 + wc * 2 ^ 40) / 2 ^ 0)%N with
      (1 + (rt + rc * 2 ^ 8 + wt * 2 ^ 31 + wc * 2 ^ 39) * 2 ^ 1)%N by (rewrite N.pow_0_r, N.div_1_r; lia).
    by rewrite N.Div0.mod_add.
  - lia.
Qed.

(** ** The abstract access history *)

(** The last write (its clock is 0 if there is none) and the reads to remember. *)
Record history := mkHistory {
  h_write : thread_id_t * modelclock_t;
  h_reads : list (modelclock_t * thread_id_t)
}.

Definition abs (s : shadow) : history :=
  match s with
  | Word w => mkHistory (N.to_nat (WRTHREADID w), WRITEVECTOR w)
                (if (READVECTOR w =? 0)%N then [] else [(READVECTOR w, N.to_nat (RDTHREADID w))])
  | Full r => mkHistory (rr_writeThread r, rr_writeClock r) (omap id (take (rr_numReads r) (rr_reads r)))
  end.

(** A full record has its [numReads] elements allocated and initialized. *)
Definition shadow_wf (s : shadow) : Prop :=
  match s with
  | Word _ => True
  | Full r => ∃ L, take (rr_numReads r) (rr_reads r) = Some <$> L ∧ length L = rr_numReads r
  end.

Section refinement.
Context (thread : thread_id_t) (location : N) (currClock : ClockVector) (newaction : ptr).
Let ourClock := getClock currClock thread.
Notation may_race := (λ e : modelclock_t * thread_id_t, clock_may_race currClock thread e.1 e.2 = true).

(** The specification: which races an access reports, and the history after it. *)
Definition race_with (isoldwrite isnewwrite : bool) (e : modelclock_t * thread_id_t) : DataRace :=
  mkDataRace e.2 e.1 isoldwrite newaction isnewwrite location.
Definition write_races (h : history) : list DataRace :=
  (race_with false true <$> filter may_race (h_reads h)) ++
  (race_with true true <$> filter may_race [((h_write h).2, (h_write h).1)]).
Definition read_races (h : history) : list DataRace :=
  race_with true false <$> filter may_race [((h_write h).2, (h_write h).1)].
Definition after_write (h : history) : history := mkHistory (thread, ourClock) [].
Definition after_read (h : history) : history :=
  mkHistory (h_write h) (filter may_race (h_reads h) ++ [(ourClock, thread)]).

(** The races an event sequence reports. *)
Definition reports (evs : list race_event) : list DataRace :=
  omap (λ e, match e with EReport r => Some r | EStore _ => None end) evs.

Lemma reports_app e1 e2 : reports (e1 ++ e2) = reports e1 ++ reports e2.
Proof. unfold reports. by rewrite omap_app. Qed.

Lemma reports_report t c w1 w2 :
  reports (report thread location currClock newaction t c w1 w2) = race_with w1 w2 <$> filter may_race [(c, t)].
Proof. unfold report. rewrite filter_cons. simpl. by destruct (clock_may_race currClock thread c t). Qed.

Lemma clock0_no_race t : clock_may_race currClock thread 0 t = false.
Proof. unfold clock_may_race. simpl. by rewrite andb_false_r. Qed.

Lemma read_at_Some r L i e :
  take (rr_numReads r) (rr_reads r) = Some <$> L → L !! i = Some e → read_at r i = Ok e.
Proof.
  intros HL Hi. unfold read_at, at_index.
  assert ((Some <$> L) !! i = Some (Some e)) as H by by rewrite list_lookup_fmap, Hi.
  rewrite <- HL in H. apply lookup_take_Some in H as [-> _]. done.
Qed.

(** The report loop of [fullRaceCheckWrite]. *)
Lemma full_write_loop r L k : ∀ i evs,
  take (rr_numReads r) (rr_reads r) = Some <$> L → i + k ≤ length L →
  ∃ evs', foldM (λ i evs, '(readClock, readThread) ← read_at r i;
                  Ok (evs ++ report thread location currClock newaction readThread readClock false true))
            (seq i k) evs = Ok (evs ++ evs') ∧
    reports evs' = race_with false true <$> filter may_race (take k (drop i L)).
Proof.
  induction k as [|k IH]; intros i evs HL Hk; cbn [seq foldM].
  - exists []. by rewrite app_nil_r.
  - destruct (lookup_lt_is_Some_2 L i) as [[c t] Hi]; [lia|].
    rewrite (read_at_Some _ _ _ _ HL Hi). simpl.
    match goal with |- context [foldM _ _ ?e] => destruct (IH (S i) e HL) as (evs' & -> & Hr); [lia|] end.
    exists (report thread location currClock newaction t c false true ++ evs').
    split; [by rewrite (assoc_L (++))|]. rewrite reports_app, reports_report, Hr, (drop_S _ _ _ Hi).
    cbn [take]. change ((c, t) :: take k (drop (S i) L)) with ([(c, t)] ++ take k (drop (S i) L)).
    by rewrite filter_app, fmap_app.
Qed.

Lemma omap_id_Some {A} (L : list A) : omap id (Some <$> L) = L.
Proof. induction L; simpl; [done|]. by f_equal. Qed.

Lemma fullRaceCheckWrite_spec r :
  shadow_wf (Full r) →
  ∃ evs s', fullRaceCheckWrite thread location currClock newaction r = Ok (evs ++ [EStore s']) ∧
    shadow_wf s' ∧ reports evs = write_races (abs (Full r)) ∧ abs s' = after_write (abs (Full r)).
Proof.
  intros (L & HL & Hlen). unfold fullRaceCheckWrite.
  destruct (full_write_loop r L (rr_numReads r) 0 [] HL) as (evs & -> & Hr); [lia|]. simpl.
  eexists _, _. split; [done|]. split_and!.
  - exists []. done.
  - rewrite reports_app, Hr, reports_report. unfold write_races, abs. simpl.
    rewrite drop_0, HL, omap_id_Some, (take_ge L) by lia. done.
  - done.
Qed.

(** The compaction loop of [fullRaceCheckRead]: the kept reads move to the front. *)
Lemma shorten_spec L k : ∀ i r c F,
  i + k ≤ length L → c ≤ i → length L ≤ length (rr_reads r) →
  take c (rr_reads r) = Some <$> F → length F = c →
  (∀ j e, i ≤ j → L !! j = Some e → rr_reads r !! j = Some (Some e)) →
  ∃ r' c', foldM (shorten_step thread currClock) (seq i k) (r, c) = Ok (r', c') ∧
    take c' (rr_reads r') = Some <$> (F ++ filter may_race (take k (drop i L))) ∧
    c' = length (F ++ filter may_race (take k (drop i L))) ∧ c' ≤ i + k ∧
    length (rr_reads r') = length (rr_reads r) ∧
    rr_writeThread r' = rr_writeThread r ∧ rr_writeClock r' = rr_writeClock r.
Proof.
  induction k as [|k IH]; intros i r c F Hk Hc Hcap HF HlF Hrest; cbn [seq foldM].
  - exists r, c. rewrite app_nil_r. split_and!; try done. lia.
  - destruct (lookup_lt_is_Some_2 L i) as [[rc rt] Hi]; [lia|].
    pose proof (Hrest i _ ltac:(lia) Hi) as Hri.
    assert (shorten_step thread currClock i (r, c) =
      if clock_may_race currClock thread rc rt then
        l ← (if negb (c =? i) then set_at c (Some (rc, rt)) (rr_reads r) else Ok (rr_reads r));
        Ok (mkRaceRecord l (rr_numReads r) (rr_writeThread r) (rr_writeClock r), c + 1)
      else Ok (r, c)) as -> by (unfold shorten_step, read_at, at_index; by rewrite Hri).
    rewrite (drop_S _ _ _ Hi). cbn [take]. rewrite filter_cons. simpl.
    destruct (clock_may_race currClock thread rc rt) eqn:Erace; simpl.
    + set (l := if negb (c =? i) then _ else _).
      assert (∃ l', l = Ok l' ∧ length l' = length (rr_reads r) ∧ take (c + 1) l' = Some <$> (F ++ [(rc, rt)]) ∧
              ∀ j, c < j → l' !! j = rr_reads r !! j) as (l' & -> & Hl' & Ht & Hj).
      { unfold l. destruct (Nat.eqb_spec c i) as [->|Hne]; simpl.
        - exists (rr_reads r). split_and!; try done. rewrite Nat.add_1_r, (take_S_r _ _ _ Hri), HF. by rewrite fmap_app.
        - unfold set_at. destruct (Nat.ltb_spec c (length (rr_reads r))); [|lia].
          exists (<[c := Some (rc, rt)]> (rr_reads r)). split_and!; [done|by rewrite length_insert| |].
          + rewrite Nat.add_1_r, (take_S_r _ _ (Some (rc, rt))) by by rewrite list_lookup_insert_eq.
            rewrite take_insert_ge by lia. by rewrite HF, fmap_app.
          + intros j Hj. by rewrite list_lookup_insert_ne by lia. }
      simpl. destruct (IH (S i) (mkRaceRecord l' (rr_numReads r) (rr_writeThread r) (rr_writeClock r)) (c + 1) (F ++ [(rc, rt)]))
        as (r' & c' & -> & H1 & H2 & H3 & H4 & H5 & H6); simpl; [lia|lia|lia|done|rewrite length_app; simpl; lia| |].
      { intros j e Hle He. rewrite Hj by lia. apply Hrest; [lia|done]. }
      exists r', c'. rewrite <- (assoc_L (++)) in *. simpl in *. split_and!; try done; [lia|congruence].
    + destruct (IH (S i) r c F) as (r' & c' & -> & H1 & H2 & H3 & H4 & H5 & H6); try done; [lia|lia| |].
      { intros j e Hle He. apply Hrest; [lia|done]. }
      exists r', c'. split_and!; try done. lia.
Qed.

Lemma fullRaceCheckRead_spec r :
  shadow_wf (Full r) → 0 < length (rr_reads r) →
  ∃ evs s', fullRaceCheckRead thread location currClock newaction r = Ok (evs ++ [EStore s']) ∧
    shadow_wf s' ∧ reports evs = read_races (abs (Full r)) ∧ abs s' = after_read (abs (Full r)).
Proof.
  intros (L & HL & Hlen) Hcap. unfold fullRaceCheckRead.
  assert (rr_numReads r ≤ length (rr_reads r)) as Hnr.
  { pose proof (f_equal length HL) as H. rewrite length_take, length_fmap in H. lia. }
  destruct (shorten_spec L (rr_numReads r) 0 r 0 []) as (r' & c & -> & H1 & H2 & H3 & H4 & H5 & H6); try done; try lia.
  { intros j e _ He. assert ((Some <$> L) !! j = Some (Some e)) as H by by rewrite list_lookup_fmap, He.
    rewrite <- HL in H. by apply lookup_take_Some in H as [? _]. }
  cbn. rewrite drop_0, (take_ge L) in H1, H2 by lia. simpl in H1, H2.
  set (reads := if length (rr_reads r') <=? c then _ else _).
  assert (c < length reads ∧ take c reads = take c (rr_reads r')) as [Hcl Htk].
  { unfold reads. destruct (Nat.leb_spec (length (rr_reads r')) c); [|done].
    rewrite length_app, length_replicate. split; [lia|]. by rewrite take_app_le by lia. }
  unfold set_at. destruct (Nat.ltb_spec c (length reads)); [|lia]. simpl.
  assert (take (c + 1) (<[c := Some (getClock currClock thread, thread)]> reads) =
          Some <$> (filter may_race L ++ [(ourClock, thread)])) as Hnew.
  { rewrite Nat.add_1_r, (take_S_r _ _ (Some (ourClock, thread))) by by rewrite list_lookup_insert_eq.
    rewrite take_insert_ge, Htk, H1, fmap_app by lia. done. }
  eexists _, _. split; [done|]. split_and!.
  - eexists. split; [exact Hnew|]. rewrite length_app. simpl. lia.
  - rewrite reports_report. by unfold read_races.
  - unfold abs, after_read. simpl. rewrite Hnew, HL, H5, H6, !omap_id_Some. done.
Qed.
End refinement.

Lemma masked_lt x n : (N.land x (2 ^ n - 1) < 2 ^ n)%N.
Proof. rewrite N.sub_1_r, <- N.ones_equiv, N.land_ones. apply N.mod_lt, N.pow_nonzero. lia. Qed.

Lemma word_fields_lt w :
  (RDTHREADID w < 2 ^ 8 ∧ READVECTOR w < 2 ^ 23 ∧ WRTHREADID w < 2 ^ 8 ∧ WRITEVECTOR w < 2 ^ 23)%N.
Proof.
  unfold RDTHREADID, READVECTOR, WRTHREADID, WRITEVECTOR, THREADMASK, WRITEMASK, READMASK.
  split_and!; [apply (masked_lt _ 8)|apply (masked_lt _ 23)|apply (masked_lt _ 8)|apply (masked_lt _ 23)].
Qed.

Section word.
Context (thread : thread_id_t) (location : N) (currClock : ClockVector) (newaction : ptr).
Notation ourClock := (getClock currClock thread).

(** The compact word written by an access stands for the history after it. *)
Lemma abs_encode rt rc wt wc :
  (rt < 2 ^ 8)%N → (rc < 2 ^ 23)%N → (wt < 2 ^ 8)%N → (wc < 2 ^ 23)%N →
  abs (Word (ENCODEOP rt rc wt wc)) =
    mkHistory (N.to_nat wt, wc) (if (rc =? 0)%N then [] else [(rc, N.to_nat rt)]).
Proof.
  intros. destruct (decode_encode rt rc wt wc) as (E1 & E2 & E3 & E4 & _); [done..|].
  unfold abs. by rewrite E1, E2, E3, E4.
Qed.

Lemma expandRecord_spec w :
  ∃ r, expandRecord (Word w) = Full r ∧ shadow_wf (Full r) ∧ abs (Full r) = abs (Word w) ∧
    (READVECTOR w ≠ 0%N → 0 < length (rr_reads r)).
Proof.
  unfold expandRecord, abs. destruct (N.eqb_spec (READVECTOR w) 0); eexists; (split; [done|]); split_and!; try done.
  - by exists [].
  - by eexists [_].
  - simpl. lia.
Qed.
End word.

Lemma raceCheckWrite_spec thread location currClock newaction s :
  shadow_wf s →
  ∃ evs s', raceCheckWrite thread location currClock newaction s = Ok (evs ++ [EStore s']) ∧ shadow_wf s' ∧
    reports evs = write_races thread location currClock newaction (abs s) ∧
    abs s' = after_write thread currClock (abs s).
Proof.
  intros Hwf. destruct s as [w|r]; [|by apply fullRaceCheckWrite_spec].
  unfold raceCheckWrite, id_to_int. destruct (_ || _)%bool eqn:Ebig.
  - destruct (expandRecord_spec w) as (r & -> & Hr & Habs & _).
    destruct (fullRaceCheckWrite_spec thread location currClock newaction r Hr) as (evs & s' & -> & ? & ? & ?).
    exists (EStore (Full r) :: evs), s'. rewrite <- Habs. done.
  - apply orb_false_iff in Ebig as [E1%N.ltb_ge E2%N.ltb_ge]. unfold MAXTHREADID, MAXWRITEVECTOR, WRITEMASK, THREADMASK, READMASK in *.
    eexists _, _. split; [done|]. split_and!; [done| |].
    + rewrite reports_app, !reports_report. unfold write_races, abs. simpl.
      destruct (N.eqb_spec (READVECTOR w) 0) as [->|]; [|done].
      rewrite filter_cons. simpl. by rewrite clock0_no_race.
    + rewrite abs_encode by lia. unfold after_write. by rewrite Nat2N.id.
Qed.

(** ** Properties *)

(** The compact encoding of a shadow entry is a round trip: the four fields are
    recovered for every thread id below 256 and clock below 2^23, the word is marked
    as a short record, and it fits in 64 bits. *)
Theorem ENCODEOP_roundtrip rdthread rdtime wrthread wrtime :
  (rdthread <= THREADMASK)%N → (rdtime <= READMASK)%N → (wrthread <= THREADMASK)%N → (wrtime <= WRITEMASK)%N →
  let w := ENCODEOP rdthread rdtime wrthread wrtime in
  RDTHREADID w = rdthread ∧ READVECTOR w = rdtime ∧ WRTHREADID w = wrthread ∧ WRITEVECTOR w = wrtime ∧
  ISSHORTRECORD w = true ∧ (w < 2 ^ 64)%N.
Proof. unfold THREADMASK, WRITEMASK, READMASK. intros. apply decode_encode; lia. Qed.

Lemma ENCODEOP_roundtrip_witness : WRITEVECTOR (ENCODEOP 3 77 5 1000) = 1000%N.
Proof. apply (ENCODEOP_roundtrip 3 77 5 1000); vm_compute; discriminate. Defined.

(** Distinct addresses below 2^48 have distinct shadow entries. *)
Theorem shadow_index_injective a b :
  (a < 2 ^ 48)%N → (b < 2 ^ 48)%N → shadow_index a = shadow_index b → a = b.
Proof.
  intros Ha Hb. unfold shadow_index, MASK16BIT. change 0xffff%N with (2 ^ 16 - 1)%N.
  rewrite <- (N.shiftr_0_r a) at 3. rewrite <- (N.shiftr_0_r b) at 3. rewrite !land_shiftr_bits.
  intros [= H1 H2 H3]. rewrite !N.pow_0_r, !N.div_1_r in H3.
  assert (∀ x, (x < 2 ^ 48)%N →
    x = (x / 2 ^ 32) mod 2 ^ 16 * 2 ^ 32 + (x / 2 ^ 16) mod 2 ^ 16 * 2 ^ 16 + x mod 2 ^ 16)%N as Hsplit.
  { intros x Hx. rewrite (N.mod_small (x / 2 ^ 32)) by (apply N.Div0.div_lt_upper_bound; lia).
    change (2 ^ 32)%N with (2 ^ 16 * 2 ^ 16)%N. rewrite <- N.Div0.div_div.
    pose proof (N.div_mod x (2 ^ 16) ltac:(lia)). pose proof (N.div_mod (x / 2 ^ 16) (2 ^ 16) ltac:(lia)). lia. }
  rewrite (Hsplit a Ha), (Hsplit b Hb). congruence.
Qed.

Lemma shadow_index_injective_witness : shadow_index 0x7fff00000010 ≠ shadow_index 0x7ffe00000010.
Proof.
  intros H. apply shadow_index_injective in H; [discriminate H|vm_compute; reflexivity|vm_compute; reflexivity].
Defined.

(** C21. The write check refines its specification. On every well-formed shadow entry,
    compact or full, it ends by storing an entry whose history is the new write with no
    reads, after reporting exactly the remembered reads and the write that may race
    with the current clock, in that order. *)
Theorem raceCheckWrite_refines thread location currClock newaction s :
  shadow_wf s →
  ∃ evs s', raceCheckWrite thread location currClock newaction s = Ok (evs ++ [EStore s']) ∧ shadow_wf s' ∧
    reports evs = write_races thread location currClock newaction (abs s) ∧
    abs s' = after_write thread currClock (abs s).
Proof. apply raceCheckWrite_spec. Qed.

(** A first write, by thread 2 at clock 9, to untouched memory. *)
Lemma raceCheckWrite_refines_witness :
  ∃ evs s', raceCheckWrite 2 0x1000 (mkClockVector [0; 3; 9]%N) 1 (Word 0) = Ok (evs ++ [EStore s']) ∧
    abs s' = mkHistory (2, 9%N) [].
Proof.
  destruct (raceCheckWrite_refines 2 0x1000 (mkClockVector [0; 3; 9]%N) 1 (Word 0) I) as (evs & s' & H & _ & _ & Ha).
  exists evs, s'. split; [exact H|exact Ha].
Defined.



(** C38. The read check overruns its record. When untouched memory is first read by a
    thread whose clock exceeds what the compact form can hold, the entry is expanded to
    a record of capacity 0; doubling that capacity leaves it 0, and the new read is
    stored outside the arrays. *)
Theorem first_read_overrun thread location currClock newaction :
  (MAXWRITEVECTOR < getClock currClock thread)%N →
  raceCheckRead thread location currClock newaction (Word 0) = Err OutOfBounds.
Proof.
  intros Hbig. unfold raceCheckRead. rewrite (proj2 (N.ltb_lt _ _) Hbig), orb_true_r. reflexivity.
Qed.

Lemma first_read_overrun_witness :
  raceCheckRead 1 0x1000 (mkClockVector [0; 0x800000]%N) 1 (Word 0) = Err OutOfBounds.
Proof. apply first_read_overrun. vm_compute. reflexivity. Defined.
