(* ===== verification/ExecState.v ===== *)
(** * The state of one execution (execution.h, include/mutex)

    [Exec] gathers the members of ModelExecution and of its [priv] structure, the
    heaps of the objects they point to (actions, promises; the nodes are inside the
    node stack), the shadow memory and reports of the race detector, and the user's
    memory: the state of mutexes, the [priv] pointers of [thrd_t]s and the plain bytes
    accessed through librace. The operations are written in a
    state and error monad, [exec]. *)

From S2P Require Import Prelude ClockVector Action HashTable Promise CycleGraph NodeStack Schedule DataRace.

(** ** Data *)

(** include/mutex *)
Record mutex_state := mkMutexState {
  ms_locked : option thread_id_t;
  ms_alloc_tid : thread_id_t;
  ms_alloc_clock : modelclock_t
}.

(** A pending release sequence. *)
Record release_seq := mkReleaseSeq {
  rs_acquire : ptr;
  rs_read : ptr;
  rs_rf : option ptr;
  rs_release : option ptr;
  rs_writes : list ptr
}.

(** The reports the checker can make (their text is not modelled). *)
Inductive bug :=
  | BugUninitializedRead (reader : ptr)
  | BugLockBeforeInit (lock : ptr)
  | BugDataRace (race : DataRace)
  | BugDeadlock
  | BugUser.

Record Exec := mkExec {
  x_acts : gmap ptr ModelAction;
  x_next_act : ptr;
  x_proms : gmap ptr Promise;
  x_next_prom : ptr;
  x_sched : Scheduler;
  x_stack : NodeStack;
  x_action_trace : list ptr;
  x_thread_map : list (option Thread);
  x_obj_map : gmap N (list ptr);
  x_condvar_waiters_map : gmap N (list ptr);
  x_obj_thrd_map : gmap N (list (list ptr));
  x_promises : list ptr;
  x_futurevalues : list (ptr * ptr);
  x_pending_rel_seqs : list release_seq;
  x_thrd_last_action : list (option ptr);
  x_thrd_last_fence_release : list (option ptr);
  x_mo_graph : CycleGraph;
  x_next_thread_id : nat;
  x_used_sequence_numbers : modelclock_t;
  x_next_backtrack : option ptr;
  x_bugs : list bug;
  x_failed_promise : bool;
  x_hard_failed_promise : bool;
  x_too_many_reads : bool;
  x_no_valid_reads : bool;
  x_bad_synchronization : bool;
  x_bad_sc_read : bool;
  x_asserted : bool;
  x_mutexes : gmap N mutex_state;
  x_thrds : gmap N thread_id_t;
  x_races : list DataRace;
  x_shadow : shadow_memory;
  x_memory : gmap N N
}.

Definition put_acts (v : gmap ptr ModelAction) (s : Exec) : Exec :=
  mkExec v (x_next_act s) (x_proms s) (x_next_prom s) (x_sched s) (x_stack s) (x_action_trace s)
    (x_thread_map s) (x_obj_map s) (x_condvar_waiters_map s) (x_obj_thrd_map s) (x_promises s)
    (x_futurevalues s) (x_pending_rel_seqs s) (x_thrd_last_action s)
    (x_thrd_last_fence_release s) (x_mo_graph s) (x_next_thread_id s)
    (x_used_sequence_numbers s) (x_next_backtrack s) (x_bugs s) (x_failed_promise s)
    (x_hard_failed_promise s) (x_too_many_reads s) (x_no_valid_reads s)
    (x_bad_synchronization s) (x_bad_sc_read s) (x_asserted s) (x_mutexes s) (x_thrds s)
    (x_races s) (x_shadow s) (x_memory s).
Definition put_next_act (v : ptr) (s : Exec) : Exec :=
  mkExec (x_acts s) v (x_proms s) (x_next_prom s) (x_sched s) (x_stack s) (x_action_trace s)
    (x_thread_map s) (x_obj_map s) (x_condvar_waiters_map s) (x_obj_thrd_map s) (x_promises s)
    (x_futurevalues s) (x_pending_rel_seqs s) (x_thrd_last_action s)
    (x_thrd_last_fence_release s) (x_mo_graph s) (x_next_thread_id s)
    (x_used_sequence_numbers s) (x_next_backtrack s) (x_bugs s) (x_failed_promise s)
    (x_hard_failed_promise s) (x_too_many_reads s) (x_no_valid_reads s)
    (x_bad_synchronization s) (x_bad_sc_read s) (x_asserted s) (x_mutexes s) (x_thrds s)
    (x_races s) (x_shadow s) (x_memory s).
Definition put_proms (v : gmap ptr Promise) (s : Exec) : Exec :=
  mkExec (x_acts s) (x_next_act s) v (x_next_prom s) (x_sched s) (x_stack s) (x_action_trace s)
    (x_thread_map s) (x_obj_map s) (x_condvar_waiters_map s) (x_obj_thrd_map s) (x_promises s)
    (x_futurevalues s) (x_pending_rel_seqs s) (x_thrd_last_action s)
    (x_thrd_last_fence_release s) (x_mo_graph s) (x_next_thread_id s)
    (x_used_sequence_numbers s) (x_next_backtrack s) (x_bugs s) (x_failed_promise s)
    (x_hard_failed_promise s) (x_too_many_reads s) (x_no_valid_reads s)
    (x_bad_synchronization s) (x_bad_sc_read s) (x_asserted s) (x_mutexes s) (x_thrds s)
    (x_races s) (x_shadow s) (x_memory s).
Definition put_next_prom (v : ptr) (s : Exec) : Exec :=
  mkExec (x_acts s) (x_next_act s) (x_proms s) v (x_sched s) (x_stack s) (x_action_trace s)
    (x_thread_map s) (x_obj_map s) (x_condvar_waiters_map s) (x_obj_thrd_map s) (x_promises s)
    (x_futurevalues s) (x_pending_rel_seqs s) (x_thrd_last_action s)
    (x_thrd_last_fence_release s) (x_mo_graph s) (x_next_thread_id s)
    (x_used_sequence_numbers s) (x_next_backtrack s) (x_bugs s) (x_failed_promise s)
    (x_hard_failed_promise s) (x_too_many_reads s) (x_no_valid_reads s)
    (x_bad_synchronization s) (x_bad_sc_read s) (x_asserted s) (x_mutexes s) (x_thrds s)
    (x_races s) (x_shadow s) (x_memory s).
Definition put_sched (v : Scheduler) (s : Exec) : Exec :=
  mkExec (x_acts s) (x_next_act s) (x_proms s) (x_next_prom s) v (x_stack s) (x_action_trace s)
    (x_thread_map s) (x_obj_map s) (x_condvar_waiters_map s) (x_obj_thrd_map s) (x_promises s)
    (x_futurevalues s) (x_pending_rel_seqs s) (x_thrd_last_action s)
    (x_thrd_last_fence_release s) (x_mo_graph s) (x_next_thread_id s)
    (x_used_sequence_numbers s) (x_next_backtrack s) (x_bugs s) (x_failed_promise s)
    (x_hard_failed_promise s) (x_too_many_reads s) (x_no_valid_reads s)
    (x_bad_synchronization s) (x_bad_sc_read s) (x_asserted s) (x_mutexes s) (x_thrds s)
    (x_races s) (x_shadow s) (x_memory s).
Definition put_stack (v : NodeStack) (s : Exec) : Exec :=
  mkExec (x_acts s) (x_next_act s) (x_proms s) (x_next_prom s) (x_sched s) v (x_action_trace s)
    (x_thread_map s) (x_obj_map s) (x_condvar_waiters_map s) (x_obj_thrd_map s) (x_promises s)
    (x_futurevalues s) (x_pending_rel_seqs s) (x_thrd_last_action s)
    (x_thrd_last_fence_release s) (x_mo_graph s) (x_next_thread_id s)
    (x_used_sequence_numbers s) (x_next_backtrack s) (x_bugs s) (x_failed_promise s)
    (x_hard_failed_promise s) (x_too_many_reads s) (x_no_valid_reads s)
    (x_bad_synchronization s) (x_bad_sc_read s) (x_asserted s) (x_mutexes s) (x_thrds s)
    (x_races s) (x_shadow s) (x_memory s).
Definition put_action_trace (v : list ptr) (s : Exec) : Exec :=
  mkExec (x_acts s) (x_next_act s) (x_proms s) (x_next_prom s) (x_sched s) (x_stack s) v
    (x_thread_map s) (x_obj_map s) (x_condvar_waiters_map s) (x_obj_thrd_map s) (x_promises s)
    (x_futurevalues s) (x_pending_rel_seqs s) (x_thrd_last_action s)
    (x_thrd_last_fence_release s) (x_mo_graph s) (x_next_thread_id s)
    (x_used_sequence_numbers s) (x_next_backtrack s) (x_bugs s) (x_failed_promise s)
    (x_hard_failed_promise s) (x_too_many_reads s) (x_no_valid_reads s)
    (x_bad_synchronization s) (x_bad_sc_read s) (x_asserted s) (x_mutexes s) (x_thrds s)
    (x_races s) (x_shadow s) (x_memory s).
Definition put_thread_map (v : list (option Thread)) (s : Exec) : Exec :=
  mkExec (x_acts s) (x_next_act s) (x_proms s) (x_next_prom s) (x_sched s) (x_stack s)
    (x_action_trace s) v (x_obj_map s) (x_condvar_waiters_map s) (x_obj_thrd_map s)
    (x_promises s) (x_futurevalues s) (x_pending_rel_seqs s) (x_thrd_last_action s)
    (x_thrd_last_fence_release s) (x_mo_graph s) (x_next_thread_id s)
    (x_used_sequence_numbers s) (x_next_backtrack s) (x_bugs s) (x_failed_promise s)
    (x_hard_failed_promise s) (x_too_many_reads s) (x_no_valid_reads s)
    (x_bad_synchronization s) (x_bad_sc_read s) (x_asserted s) (x_mutexes s) (x_thrds s)
    (x_races s) (x_shadow s) (x_memory s).
Definition put_obj_map (v : gmap N (list ptr)) (s : Exec) : Exec :=
  mkExec (x_acts s) (x_next_act s) (x_proms s) (x_next_prom s) (x_sched s) (x_stack s)
    (x_action_trace s) (x_thread_map s) v (x_condvar_waiters_map s) (x_obj_thrd_map s)
    (x_promises s) (x_futurevalues s) (x_pending_rel_seqs s) (x_thrd_last_action s)
    (x_thrd_last_fence_release s) (x_mo_graph s) (x_next_thread_id s)
    (x_used_sequence_numbers s) (x_next_backtrack s) (x_bugs s) (x_failed_promise s)
    (x_hard_failed_promise s) (x_too_many_reads s) (x_no_valid_reads s)
    (x_bad_synchronization s) (x_bad_sc_read s) (x_asserted s) (x_mutexes s) (x_thrds s)
    (x_races s) (x_shadow s) (x_memory s).
Definition put_condvar_waiters_map (v : gmap N (list ptr)) (s : Exec) : Exec :=
  mkExec (x_acts s) (x_next_act s) (x_proms s) (x_next_prom s) (x_sched s) (x_stack s)
    (x_action_trace s) (x_thread_map s) (x_obj_map s) v (x_obj_thrd_map s) (x_promises s)
    (x_futurevalues s) (x_pending_rel_seqs s) (x_thrd_last_action s)
    (x_thrd_last_fence_release s) (x_mo_graph s) (x_next_thread_id s)
    (x_used_sequence_numbers s) (x_next_backtrack s) (x_bugs s) (x_failed_promise s)
    (x_hard_failed_promise s) (x_too_many_reads s) (x_no_valid_reads s)
    (x_bad_synchronization s) (x_bad_sc_read s) (x_asserted s) (x_mutexes s) (x_thrds s)
    (x_races s) (x_shadow s) (x_memory s).
Definition put_obj_thrd_map (v : gmap N (list (list ptr))) (s : Exec) : Exec :=
  mkExec (x_acts s) (x_next_act s) (x_proms s) (x_next_prom s) (x_sched s) (x_stack s)
    (x_action_trace s) (x_thread_map s) (x_obj_map s) (x_condvar_waiters_map s) v (x_promises s)
    (x_futurevalues s) (x_pending_rel_seqs s) (x_thrd_last_action s)
    (x_thrd_last_fence_release s) (x_mo_graph s) (x_next_thread_id s)
    (x_used_sequence_numbers s) (x_next_backtrack s) (x_bugs s) (x_failed_promise s)
    (x_hard_failed_promise s) (x_too_many_reads s) (x_no_valid_reads s)
    (x_bad_synchronization s) (x_bad_sc_read s) (x_asserted s) (x_mutexes s) (x_thrds s)
    (x_races s) (x_shadow s) (x_memory s).
Definition put_promises (v : list ptr) (s : Exec) : Exec :=
  mkExec (x_acts s) (x_next_act s) (x_proms s) (x_next_prom s) (x_sched s) (x_stack s)
    (x_action_trace s) (x_thread_map s) (x_obj_map s) (x_condvar_waiters_map s)
    (x_obj_thrd_map s) v (x_futurevalues s) (x_pending_rel_seqs s) (x_thrd_last_action s)
    (x_thrd_last_fence_release s) (x_mo_graph s) (x_next_thread_id s)
    (x_used_sequence_numbers s) (x_next_backtrack s) (x_bugs s) (x_failed_promise s)
    (x_hard_failed_promise s) (x_too_many_reads s) (x_no_valid_reads s)
    (x_bad_synchronization s) (x_bad_sc_read s) (x_asserted s) (x_mutexes s) (x_thrds s)
    (x_races s) (x_shadow s) (x_memory s).
Definition put_futurevalues (v : list (ptr * ptr)) (s : Exec) : Exec :=
  mkExec (x_acts s) (x_next_act s) (x_proms s) (x_next_prom s) (x_sched s) (x_stack s)
    (x_action_trace s) (x_thread_map s) (x_obj_map s) (x_condvar_waiters_map s)
    (x_obj_thrd_map s) (x_promises s) v (x_pending_rel_seqs s) (x_thrd_last_action s)
    (x_thrd_last_fence_release s) (x_mo_graph s) (x_next_thread_id s)
    (x_used_sequence_numbers s) (x_next_backtrack s) (x_bugs s) (x_failed_promise s)
    (x_hard_failed_promise s) (x_too_many_reads s) (x_no_valid_reads s)
    (x_bad_synchronization s) (x_bad_sc_read s) (x_asserted s) (x_mutexes s) (x_thrds s)
    (x_races s) (x_shadow s) (x_memory s).
Definition put_pending_rel_seqs (v : list release_seq) (s : Exec) : Exec :=
  mkExec (x_acts s) (x_next_act s) (x_proms s) (x_next_prom s) (x_sched s) (x_stack s)
    (x_action_trace s) (x_thread_map s) (x_obj_map s) (x_condvar_waiters_map s)
    (x_obj_thrd_map s) (x_promises s) (x_futurevalues s) v (x_thrd_last_action s)
    (x_thrd_last_fence_release s) (x_mo_graph s) (x_next_thread_id s)
    (x_used_sequence_numbers s) (x_next_backtrack s) (x_bugs s) (x_failed_promise s)
    (x_hard_failed_promise s) (x_too_many_reads s) (x_no_valid_reads s)
    (x_bad_synchronization s) (x_bad_sc_read s) (x_asserted s) (x_mutexes s) (x_thrds s)
    (x_races s) (x_shadow s) (x_memory s).
Definition put_thrd_last_action (v : list (option ptr)) (s : Exec) : Exec :=
  mkExec (x_acts s) (x_next_act s) (x_proms s) (x_next_prom s) (x_sched s) (x_stack s)
    (x_action_trace s) (x_thread_map s) (x_obj_map s) (x_condvar_waiters_map s)
    (x_obj_thrd_map s) (x_promises s) (x_futurevalues s) (x_pending_rel_seqs s) v
    (x_thrd_last_fence_release s) (x_mo_graph s) (x_next_thread_id s)
    (x_used_sequence_numbers s) (x_next_backtrack s) (x_bugs s) (x_failed_promise s)
    (x_hard_failed_promise s) (x_too_many_reads s) (x_no_valid_reads s)
    (x_bad_synchronization s) (x_bad_sc_read s) (x_asserted s) (x_mutexes s) (x_thrds s)
    (x_races s) (x_shadow s) (x_memory s).
Definition put_thrd_last_fence_release (v : list (option ptr)) (s : Exec) : Exec :=
  mkExec (x_acts s) (x_next_act s) (x_proms s) (x_next_prom s) (x_sched s) (x_stack s)
    (x_action_trace s) (x_thread_map s) (x_obj_map s) (x_condvar_waiters_map s)
    (x_obj_thrd_map s) (x_promises s) (x_futurevalues s) (x_pending_rel_seqs s)
    (x_thrd_last_action s) v (x_mo_graph s) (x_next_thread_id s) (x_used_sequence_numbers s)
    (x_next_backtrack s) (x_bugs s) (x_failed_promise s) (x_hard_failed_promise s)
    (x_too_many_reads s) (x_no_valid_reads s) (x_bad_synchronization s) (x_bad_sc_read s)
    (x_asserted s) (x_mutexes s) (x_thrds s) (x_races s) (x_shadow s) (x_memory s).
Definition put_mo_graph (v : CycleGraph) (s : Exec) : Exec :=
  mkExec (x_acts s) (x_next_act s) (x_proms s) (x_next_prom s) (x_sched s) (x_stack s)
    (x_action_trace s) (x_thread_map s) (x_obj_map s) (x_condvar_waiters_map s)
    (x_obj_thrd_map s) (x_promises s) (x_futurevalues s) (x_pending_rel_seqs s)
    (x_thrd_last_action s) (x_thrd_last_fence_release s) v (x_next_thread_id s)
    (x_used_sequence_numbers s) (x_next_backtrack s) (x_bugs s) (x_failed_promise s)
    (x_hard_failed_promise s) (x_too_many_reads s) (x_no_valid_reads s)
    (x_bad_synchronization s) (x_bad_sc_read s) (x_asserted s) (x_mutexes s) (x_thrds s)
    (x_races s) (x_shadow s) (x_memory s).
Definition put_next_thread_id (v : nat) (s : Exec) : Exec :=
  mkExec (x_acts s) (x_next_act s) (x_proms s) (x_next_prom s) (x_sched s) (x_stack s)
    (x_action_trace s) (x_thread_map s) (x_obj_map s) (x_condvar_waiters_map s)
    (x_obj_thrd_map s) (x_promises s) (x_futurevalues s) (x_pending_rel_seqs s)
    (x_thrd_last_action s) (x_thrd_last_fence_release s) (x_mo_graph s) v
    (x_used_sequence_numbers s) (x_next_backtrack s) (x_bugs s) (x_failed_promise s)
    (x_hard_failed_promise s) (x_too_many_reads s) (x_no_valid_reads s)
    (x_bad_synchronization s) (x_bad_sc_read s) (x_asserted s) (x_mutexes s) (x_thrds s)
    (x_races s) (x_shadow s) (x_memory s).
Definition put_used_sequence_numbers (v : modelclock_t) (s : Exec) : Exec :=
  mkExec (x_acts s) (x_next_act s) (x_proms s) (x_next_prom s) (x_sched s) (x_stack s)
    (x_action_trace s) (x_thread_map s) (x_obj_map s) (x_condvar_waiters_map s)
    (x_obj_thrd_map s) (x_promises s) (x_futurevalues s) (x_pending_rel_seqs s)
    (x_thrd_last_action s) (x_thrd_last_fence_release s) (x_mo_graph s) (x_next_thread_id s) v
    (x_next_backtrack s) (x_bugs s) (x_failed_promise s) (x_hard_failed_promise s)
    (x_too_many_reads s) (x_no_valid_reads s) (x_bad_synchronization s) (x_bad_sc_read s)
    (x_asserted s) (x_mutexes s) (x_thrds s) (x_races s) (x_shadow s) (x_memory s).
Definition put_next_backtrack (v : option ptr) (s : Exec) : Exec :=
  mkExec (x_acts s) (x_next_act s) (x_proms s) (x_next_prom s) (x_sched s) (x_stack s)
    (x_action_trace s) (x_thread_map s) (x_obj_map s) (x_condvar_waiters_map s)
    (x_obj_thrd_map s) (x_promises s) (x_futurevalues s) (x_pending_rel_seqs s)
    (x_thrd_last_action s) (x_thrd_last_fence_release s) (x_mo_graph s) (x_next_thread_id s)
    (x_used_sequence_numbers s) v (x_bugs s) (x_failed_promise s) (x_hard_failed_promise s)
    (x_too_many_reads s) (x_no_valid_reads s) (x_bad_synchronization s) (x_bad_sc_read s)
    (x_asserted s) (x_mutexes s) (x_thrds s) (x_races s) (x_shadow s) (x_memory s).
Definition put_bugs (v : list bug) (s : Exec) : Exec :=
  mkExec (x_acts s) (x_next_act s) (x_proms s) (x_next_prom s) (x_sched s) (x_stack s)
    (x_action_trace s) (x_thread_map s) (x_obj_map s) (x_condvar_waiters_map s)
    (x_obj_thrd_map s) (x_promises s) (x_futurevalues s) (x_pending_rel_seqs s)
    (x_thrd_last_action s) (x_thrd_last_fence_release s) (x_mo_graph s) (x_next_thread_id s)
    (x_used_sequence_numbers s) (x_next_backtrack s) v (x_failed_promise s)
    (x_hard_failed_promise s) (x_too_many_reads s) (x_no_valid_reads s)
    (x_bad_synchronization s) (x_bad_sc_read s) (x_asserted s) (x_mutexes s) (x_thrds s)
    (x_races s) (x_shadow s) (x_memory s).
Definition put_failed_promise (v : bool) (s : Exec) : Exec :=
  mkExec (x_acts s) (x_next_act s) (x_proms s) (x_next_prom s) (x_sched s) (x_stack s)
    (x_action_trace s) (x_thread_map s) (x_obj_map s) (x_condvar_waiters_map s)
    (x_obj_thrd_map s) (x_promises s) (x_futurevalues s) (x_pending_rel_seqs s)
    (x_thrd_last_action s) (x_thrd_last_fence_release s) (x_mo_graph s) (x_next_thread_id s)
    (x_used_sequence_numbers s) (x_next_backtrack s) (x_bugs s) v (x_hard_failed_promise s)
    (x_too_many_reads s) (x_no_valid_reads s) (x_bad_synchronization s) (x_bad_sc_read s)
    (x_asserted s) (x_mutexes s) (x_thrds s) (x_races s) (x_shadow s) (x_memory s).
Definition put_hard_failed_promise (v : bool) (s : Exec) : Exec :=
  mkExec (x_acts s) (x_next_act s) (x_proms s) (x_next_prom s) (x_sched s) (x_stack s)
    (x_action_trace s) (x_thread_map s) (x_obj_map s) (x_condvar_waiters_map s)
    (x_obj_thrd_map s) (x_promises s) (x_futurevalues s) (x_pending_rel_seqs s)
    (x_thrd_last_action s) (x_thrd_last_fence_release s) (x_mo_graph s) (x_next_thread_id s)
    (x_used_sequence_numbers s) (x_next_backtrack s) (x_bugs s) (x_failed_promise s) v
    (x_too_many_reads s) (x_no_valid_reads s) (x_bad_synchronization s) (x_bad_sc_read s)
    (x_asserted s) (x_mutexes s) (x_thrds s) (x_races s) (x_shadow s) (x_memory s).
Definition put_too_many_reads (v : bool) (s : Exec) : Exec :=
  mkExec (x_acts s) (x_next_act s) (x_proms s) (x_next_prom s) (x_sched s) (x_stack s)
    (x_action_trace s) (x_thread_map s) (x_obj_map s) (x_condvar_waiters_map s)
    (x_obj_thrd_map s) (x_promises s) (x_futurevalues s) (x_pending_rel_seqs s)
    (x_thrd_last_action s) (x_thrd_last_fence_release s) (x_mo_graph s) (x_next_thread_id s)
    (x_used_sequence_numbers s) (x_next_backtrack s) (x_bugs s) (x_failed_promise s)
    (x_hard_failed_promise s) v (x_no_valid_reads s) (x_bad_synchronization s) (x_bad_sc_read s)
    (x_asserted s) (x_mutexes s) (x_thrds s) (x_races s) (x_shadow s) (x_memory s).
Definition put_no_valid_reads (v : bool) (s : Exec) : Exec :=
  mkExec (x_acts s) (x_next_act s) (x_proms s) (x_next_prom s) (x_sched s) (x_stack s)
    (x_action_trace s) (x_thread_map s) (x_obj_map s) (x_condvar_waiters_map s)
    (x_obj_thrd_map s) (x_promises s) (x_futurevalues s) (x_pending_rel_seqs s)
    (x_thrd_last_action s) (x_thrd_last_fence_release s) (x_mo_graph s) (x_next_thread_id s)
    (x_used_sequence_numbers s) (x_next_backtrack s) (x_bugs s) (x_failed_promise s)
    (x_hard_failed_promise s) (x_too_many_reads s) v (x_bad_synchronization s) (x_bad_sc_read s)
    (x_asserted s) (x_mutexes s) (x_thrds s) (x_races s) (x_shadow s) (x_memory s).
Definition put_bad_synchronization (v : bool) (s : Exec) : Exec :=
  mkExec (x_acts s) (x_next_act s) (x_proms s) (x_next_prom s) (x_sched s) (x_stack s)
    (x_action_trace s) (x_thread_map s) (x_obj_map s) (x_condvar_waiters_map s)
    (x_obj_thrd_map s) (x_promises s) (x_futurevalues s) (x_pending_rel_seqs s)
    (x_thrd_last_action s) (x_thrd_last_fence_release s) (x_mo_graph s) (x_next_thread_id s)
    (x_used_sequence_numbers s) (x_next_backtrack s) (x_bugs s) (x_failed_promise s)
    (x_hard_failed_promise s) (x_too_many_reads s) (x_no_valid_reads s) v (x_bad_sc_read s)
    (x_asserted s) (x_mutexes s) (x_thrds s) (x_races s) (x_shadow s) (x_memory s).
Definition put_bad_sc_read (v : bool) (s : Exec) : Exec :=
  mkExec (x_acts s) (x_next_act s) (x_proms s) (x_next_prom s) (x_sched s) (x_stack s)
    (x_action_trace s) (x_thread_map s) (x_obj_map s) (x_condvar_waiters_map s)
    (x_obj_thrd_map s) (x_promises s) (x_futurevalues s) (x_pending_rel_seqs s)
    (x_thrd_last_action s) (x_thrd_last_fence_release s) (x_mo_graph s) (x_next_thread_id s)
    (x_used_sequence_numbers s) (x_next_backtrack s) (x_bugs s) (x_failed_promise s)
    (x_hard_failed_promise s) (x_too_many_reads s) (x_no_valid_reads s)
    (x_bad_synchronization s) v (x_asserted s) (x_mutexes s) (x_thrds s) (x_races s)
    (x_shadow s) (x_memory s).
Definition put_asserted (v : bool) (s : Exec) : Exec :=
  mkExec (x_acts s) (x_next_act s) (x_proms s) (x_next_prom s) (x_sched s) (x_stack s)
    (x_action_trace s) (x_thread_map s) (x_obj_map s) (x_condvar_waiters_map s)
    (x_obj_thrd_map s) (x_promises s) (x_futurevalues s) (x_pending_rel_seqs s)
    (x_thrd_last_action s) (x_thrd_last_fence_release s) (x_mo_graph s) (x_next_thread_id s)
    (x_used_sequence_numbers s) (x_next_backtrack s) (x_bugs s) (x_failed_promise s)
    (x_hard_failed_promise s) (x_too_many_reads s) (x_no_valid_reads s)
    (x_bad_synchronization s) (x_bad_sc_read s) v (x_mutexes s) (x_thrds s) (x_races s)
    (x_shadow s) (x_memory s).
Definition put_mutexes (v : gmap N mutex_state) (s : Exec) : Exec :=
  mkExec (x_acts s) (x_next_act s) (x_proms s) (x_next_prom s) (x_sched s) (x_stack s)
    (x_action_trace s) (x_thread_map s) (x_obj_map s) (x_condvar_waiters_map s)
    (x_obj_thrd_map s) (x_promises s) (x_futurevalues s) (x_pending_rel_seqs s)
    (x_thrd_last_action s) (x_thrd_last_fence_release s) (x_mo_graph s) (x_next_thread_id s)
    (x_used_sequence_numbers s) (x_next_backtrack s) (x_bugs s) (x_failed_promise s)
    (x_hard_failed_promise s) (x_too_many_reads s) (x_no_valid_reads s)
    (x_bad_synchronization s) (x_bad_sc_read s) (x_asserted s) v (x_thrds s) (x_races s)
    (x_shadow s) (x_memory s).
Definition put_thrds (v : gmap N thread_id_t) (s : Exec) : Exec :=
  mkExec (x_acts s) (x_next_act s) (x_proms s) (x_next_prom s) (x_sched s) (x_stack s)
    (x_action_trace s) (x_thread_map s) (x_obj_map s) (x_condvar_waiters_map s)
    (x_obj_thrd_map s) (x_promises s) (x_futurevalues s) (x_pending_rel_seqs s)
    (x_thrd_last_action s) (x_thrd_last_fence_release s) (x_mo_graph s) (x_next_thread_id s)
    (x_used_sequence_numbers s) (x_next_backtrack s) (x_bugs s) (x_failed_promise s)
    (x_hard_failed_promise s) (x_too_many_reads s) (x_no_valid_reads s)
    (x_bad_synchronization s) (x_bad_sc_read s) (x_asserted s) (x_mutexes s) v (x_races s)
    (x_shadow s) (x_memory s).
Definition put_races (v : list DataRace) (s : Exec) : Exec :=
  mkExec (x_acts s) (x_next_act s) (x_proms s) (x_next_prom s) (x_sched s) (x_stack s)
    (x_action_trace s) (x_thread_map s) (x_obj_map s) (x_condvar_waiters_map s)
    (x_obj_thrd_map s) (x_promises s) (x_futurevalues s) (x_pending_rel_seqs s)
    (x_thrd_last_action s) (x_thrd_last_fence_release s) (x_mo_graph s) (x_next_thread_id s)
    (x_used_sequence_numbers s) (x_next_backtrack s) (x_bugs s) (x_failed_promise s)
    (x_hard_failed_promise s) (x_too_many_reads s) (x_no_valid_reads s)
    (x_bad_synchronization s) (x_bad_sc_read s) (x_asserted s) (x_mutexes s) (x_thrds s) v
    (x_shadow s) (x_memory s).
Definition put_shadow (v : shadow_memory) (s : Exec) : Exec :=
  mkExec (x_acts s) (x_next_act s) (x_proms s) (x_next_prom s) (x_sched s) (x_stack s)
    (x_action_trace s) (x_thread_map s) (x_obj_map s) (x_condvar_waiters_map s)
    (x_obj_thrd_map s) (x_promises s) (x_futurevalues s) (x_pending_rel_seqs s)
    (x_thrd_last_action s) (x_thrd_last_fence_release s) (x_mo_graph s) (x_next_thread_id s)
    (x_used_sequence_numbers s) (x_next_backtrack s) (x_bugs s) (x_failed_promise s)
    (x_hard_failed_promise s) (x_too_many_reads s) (x_no_valid_reads s)
    (x_bad_synchronization s) (x_bad_sc_read s) (x_asserted s) (x_mutexes s) (x_thrds s)
    (x_races s) v (x_memory s).
Definition put_memory (v : gmap N N) (s : Exec) : Exec :=
  mkExec (x_acts s) (x_next_act s) (x_proms s) (x_next_prom s) (x_sched s) (x_stack s)
    (x_action_trace s) (x_thread_map s) (x_obj_map s) (x_condvar_waiters_map s)
    (x_obj_thrd_map s) (x_promises s) (x_futurevalues s) (x_pending_rel_seqs s)
    (x_thrd_last_action s) (x_thrd_last_fence_release s) (x_mo_graph s) (x_next_thread_id s)
    (x_used_sequence_numbers s) (x_next_backtrack s) (x_bugs s) (x_failed_promise s)
    (x_hard_failed_promise s) (x_too_many_reads s) (x_no_valid_reads s)
    (x_bad_synchronization s) (x_bad_sc_read s) (x_asserted s) (x_mutexes s) (x_thrds s)
    (x_races s) (x_shadow s) v.
(** ** The monad *)

Definition exec (A : Type) : Type := Exec → result (Exec * A).

#[global] Instance exec_ret : MRet exec := λ A a s, Ok (s, a).
#[global] Instance exec_bind : MBind exec := λ A B k m s,
  match m s with Ok (s, a) => k a s | Err f => Err f end.

Definition get : exec Exec := λ s, Ok (s, s).
Definition gets {A} (f : Exec → A) : exec A := λ s, Ok (s, f s).
Definition modify (f : Exec → Exec) : exec unit := λ s, Ok (f s, tt).
Definition lift {A} (r : result A) : exec A := λ s, match r with Ok a => Ok (s, a) | Err f => Err f end.
Definition assertM (b : bool) : exec unit := lift (ASSERT b).
Definition derefM {A} (o : option A) : exec A := lift (deref o).

Section loops.
Context {A : Type}.

(** [for (x : l) f(x)] *)
Fixpoint for_each (f : A → exec unit) (l : list A) : exec unit :=
  match l with
  | [] => mret tt
  | x :: l => f x ;; for_each f l
  end.

(** A loop with a local state; the flag of the body's result is [break]. *)
Fixpoint loop {S} (f : A → S → exec (S * bool)) (l : list A) (st : S) : exec S :=
  match l with
  | [] => mret st
  | x :: l =>
      '(st, brk) ← f x st;
      if (brk : bool) then mret st else loop f l st
  end.

(** A loop that may [return] a value. *)
Fixpoint search {B} (f : A → exec (option B)) (l : list A) : exec (option B) :=
  match l with
  | [] => mret None
  | x :: l =>
      r ← f x;
      match r with Some b => mret (Some b) | None => search f l end
  end.
End loops.

(** ** Heap access *)

Definition act_at (p : ptr) : exec ModelAction := s ← get; derefM (x_acts s !! p).
Definition upd_act (p : ptr) (f : ModelAction → ModelAction) : exec unit :=
  a ← act_at p; modify (λ s, put_acts (<[p := f a]> (x_acts s)) s).
(** A method of an action that may fail and returns a value. *)
Definition on_act {A} (p : ptr) (f : ModelAction → result (ModelAction * A)) : exec A :=
  a ← act_at p; '(a, r) ← lift (f a); modify (λ s, put_acts (<[p := a]> (x_acts s)) s) ;; mret r.
Definition prom_at (p : ptr) : exec Promise := s ← get; derefM (x_proms s !! p).
Definition store_prom (p : ptr) (x : Promise) : exec unit :=
  modify (λ s, put_proms (<[p := x]> (x_proms s)) s).
Definition Node_at (p : ptr) : exec Node := s ← get; derefM (ns_nodes (x_stack s) !! p).
Definition store_node (p : ptr) (x : Node) : exec unit :=
  modify (λ s, put_stack (store_Node p x (x_stack s)) s).

(** [new ModelAction(...)], [delete act]. *)
Definition new_act (a : ModelAction) : exec ptr :=
  s ← get;
  let p := x_next_act s in
  modify (λ s, put_next_act (Pos.succ p) (put_acts (<[p := a]> (x_acts s)) s)) ;;
  mret p.
Definition delete_act (p : ptr) : exec unit := modify (λ s, put_acts (delete p (x_acts s)) s).

(** The node of an action, as the code obtains it with [get_node()]. *)
Definition get_node_of (p : ptr) : exec ptr :=
  a ← act_at p; n ← lift (get_node a); derefM n.

(** A method of the graph that may fail. *)
Definition on_graph {A} (f : CycleGraph → result (CycleGraph * A)) : exec A :=
  s ← get;
  '(g, r) ← lift (f (x_mo_graph s));
  modify (put_mo_graph g) ;; mret r.
Definition mo_startChanges : exec unit := s ← get; lift (startChanges (x_mo_graph s)).
Definition mo_commitChanges : exec unit := modify (λ s, put_mo_graph (commitChanges (x_mo_graph s)) s).
Definition mo_rollbackChanges : exec unit := modify (λ s, put_mo_graph (rollbackChanges (x_mo_graph s)) s).
Definition mo_addEdge (from to : obj) : exec bool := on_graph (addEdge from to).
Definition mo_checkReachable (from to : obj) : exec bool := gets (λ s, checkReachable (x_mo_graph s) from to).

(** [happens_before] between two actions of the heap. *)
Definition hb (a b : ptr) : exec bool :=
  x ← act_at a; y ← act_at b; lift (happens_before x y).

(** ** Tables of actions: a NULL key makes the hash table stop at its assertion. *)

Definition table_get {A} (loc : N) (m : gmap N A) : exec (option A) :=
  assertM (negb (loc =? 0)%N) ;; mret (m !! loc).

(** [obj_map.get(loc)], dereferenced by the caller. *)
Definition obj_list (loc : N) : exec (list ptr) :=
  s ← get; l ← table_get loc (x_obj_map s); derefM l.
Definition obj_thrd_lists (loc : N) : exec (list (list ptr)) :=
  s ← get; l ← table_get loc (x_obj_thrd_map s); derefM l.

(** [get_safe_ptr_action] and [get_safe_ptr_vect_action]: the current contents, empty
    if the table had none; the caller stores the updated list. *)
Definition get_safe_ptr_action (m : gmap N (list ptr)) (loc : N) : exec (list ptr) :=
  l ← table_get loc m; mret (default [] l).
Definition get_safe_ptr_vect_action (m : gmap N (list (list ptr))) (loc : N) : exec (list (list ptr)) :=
  l ← table_get loc m; mret (default [] l).

Definition get_actions_on_obj (s : Exec) (obj : N) (tid : thread_id_t) : result (option (list ptr)) :=
  _ ← ASSERT (negb (obj =? 0)%N);
  Ok (wrv ← x_obj_thrd_map s !! obj; wrv !! id_to_int tid).

(** ** Threads *)

Definition get_num_threads (s : Exec) : nat := x_next_thread_id s.
Definition get_next_id : exec thread_id_t :=
  s ← get; modify (put_next_thread_id (x_next_thread_id s + 1)) ;; mret (x_next_thread_id s).
Definition get_next_seq_num : exec modelclock_t :=
  s ← get;
  let n := wrap32 (x_used_sequence_numbers s + 1) in
  modify (put_used_sequence_numbers n) ;; mret n.

Definition get_thread (s : Exec) (tid : thread_id_t) : option Thread :=
  default None (x_thread_map s !! id_to_int tid).
Definition thread_at (tid : thread_id_t) : exec Thread := s ← get; derefM (get_thread s tid).
Definition store_thread (tid : thread_id_t) (t : Thread) : exec unit :=
  s ← get;
  m ← lift (set_at (id_to_int tid) (Some t) (x_thread_map s));
  modify (put_thread_map m).

Definition is_enabled (s : Exec) (tid : thread_id_t) : bool := sc_is_enabled (x_sched s) tid.

Definition get_last_action (s : Exec) (tid : thread_id_t) : option ptr :=
  default None (x_thrd_last_action s !! id_to_int tid).
Definition get_last_fence_release (s : Exec) (tid : thread_id_t) : option ptr :=
  default None (x_thrd_last_fence_release s !! id_to_int tid).
Definition get_parent_action (tid : thread_id_t) : exec (option ptr) :=
  s ← get;
  match get_last_action s tid with
  | Some p => mret (Some p)
  | None => t ← thread_at tid; mret (th_creation t)
  end.
Definition get_cv (tid : thread_id_t) : exec (option ClockVector) :=
  p ← get_parent_action tid; p ← derefM p; a ← act_at p; mret (a_cv a).
Definition get_promise_number (s : Exec) (promise : ptr) : Z :=
  match list_find (λ p, p = promise) (x_promises s) with Some (i, _) => Z.of_nat i | None => (-1)%Z end.

(** ** Feasibility *)

Definition promises_expired (s : Exec) : bool :=
  existsb (λ p, match x_proms s !! p with
                | Some pr => (get_expiration pr <? x_used_sequence_numbers s)%N
                | None => false
                end) (x_promises s).

Definition is_infeasible (s : Exec) : bool :=
  checkForCycles (x_mo_graph s) || x_no_valid_reads s || x_too_many_reads s ||
  x_bad_synchronization s || x_bad_sc_read s || x_hard_failed_promise s || promises_expired s.

Definition is_feasible_prefix_ignore_relseq (s : Exec) : bool :=
  negb (is_infeasible s) && bool_decide (x_promises s = []) && negb (x_failed_promise s).

Definition isfeasibleprefix (s : Exec) : bool :=
  bool_decide (length (x_pending_rel_seqs s) = 0) && is_feasible_prefix_ignore_relseq s.

Definition set_bad_synchronization : exec unit := modify (put_bad_synchronization true).
Definition set_bad_sc_read : exec unit := modify (put_bad_sc_read true).
Definition has_asserted (s : Exec) : bool := x_asserted s.
Definition set_assert : exec unit := modify (put_asserted true).
Definition have_bug_reports (s : Exec) : bool := negb (bool_decide (length (x_bugs s) = 0)).

Definition assert_bug (msg : bug) : exec bool :=
  modify (λ s, put_bugs (x_bugs s ++ [msg]) s) ;;
  s ← get;
  if isfeasibleprefix s then set_assert ;; mret true else mret false.

Definition too_many_steps (params : model_params) (s : Exec) : bool :=
  negb (bound params =? 0)%N && (bound params <? x_used_sequence_numbers s)%N.

Definition is_deadlocked : exec bool :=
  s ← get;
  (fix go l blocking :=
     match l with
     | [] => mret blocking
     | i :: l =>
         let tid := int_to_id i in
         if is_enabled s tid then mret false
         else
           t ← thread_at tid;
           go l (blocking || (negb (th_model_thread t) && bool_decide (is_Some (th_pending t))))
     end) (seq 0 (get_num_threads s)) false.

Definition is_yieldblocked (params : model_params) : exec bool :=
  if negb (yieldblock params) then mret false
  else
    s ← get;
    r ← search (λ i, t ← thread_at (int_to_id i);
                     match th_pending t with
                     | None => mret None
                     | Some p => a ← act_at p; mret (if is_yield a then Some tt else None)
                     end) (seq 0 (get_num_threads s));
    mret (bool_decide (is_Some r)).

Definition is_complete_execution (params : model_params) : exec bool :=
  yb ← is_yieldblocked params;
  if (yb : bool) then mret false
  else s ← get; mret (forallb (λ i, negb (is_enabled s (int_to_id i))) (seq 0 (get_num_threads s))).

(** ** Scheduler calls with their effect on the promises *)

Definition check_promises_thread_disabled : exec unit :=
  s ← get;
  r ← search (λ p, pr ← prom_at p; mret (if has_failed pr then Some tt else None)) (x_promises s);
  match r with Some _ => modify (put_failed_promise true) | None => mret tt end.

Definition scheduler_wake (tid : thread_id_t) : exec unit :=
  t ← thread_at tid; s ← get;
  '(sc, t) ← lift (sc_wake tid t (x_sched s));
  modify (put_sched sc) ;; store_thread tid t.

Definition scheduler_sleep (tid : thread_id_t) : exec unit :=
  t ← thread_at tid; s ← get;
  modify (put_sched (set_enabled tid THREAD_DISABLED (x_sched s))) ;;
  check_promises_thread_disabled ;;
  t ← lift (set_state THREAD_BLOCKED t);
  store_thread tid t.

Definition scheduler_remove_thread (tid : thread_id_t) : exec unit :=
  modify (λ s, put_sched (sc_remove_thread tid (x_sched s)) s) ;; check_promises_thread_disabled.

(** [ModelExecution::add_thread] *)
Definition add_Thread (tid : thread_id_t) (t : Thread) : exec unit :=
  s ← get;
  let i := id_to_int tid in
  let m := if length (x_thread_map s) <=? i then grow (i + 1) None (x_thread_map s) else x_thread_map s in
  modify (put_thread_map (<[i := Some t]> m)) ;;
  if negb (th_model_thread t) then
    s ← get; sc ← lift (sc_add_thread tid t (x_sched s)); modify (put_sched sc)
  else mret tt.

(** The constructor of ModelExecution, with the scheduler and the node stack it is
    given and the user's memory; the model-checker thread gets id 0. *)
Definition new_Exec (sc : Scheduler) (ns : NodeStack) (acts : gmap ptr ModelAction) (next : ptr) : result Exec :=
  let s := mkExec acts next ∅ 1 sc ns [] [None; None] ∅ ∅ ∅ [] [] [] [None] [] new_CycleGraph
             0 0 None [] false false false false false false false ∅ ∅ [] ∅ ∅ in
  match (tid ← get_next_id; add_Thread tid new_model_Thread) s with Ok (s, _) => Ok s | Err f => Err f end.

(** ** Data races *)

Definition haveUnrealizedRaces (s : Exec) : bool := negb (bool_decide (x_races s = [])).

(** [checkDataRaces]: on a feasible prefix, assert the realized races and forget all. *)
Definition checkDataRaces : exec bool :=
  s ← get;
  if isfeasibleprefix s then
    r ← loop (λ race asserted,
                a ← act_at (dr_newaction race);
                cv ← derefM (a_cv a);
                if clock_may_race cv (a_tid a) (dr_oldclock race) (dr_oldthread race)
                then assert_bug (BugDataRace race) ;; mret (true, false)
                else mret (asserted, false)) (x_races s) false;
    modify (put_races []) ;; mret r
  else mret false.

(** ** Mutexes (mutex.cc) and waiting threads (threads.cc) *)

(** [mutex::mutex()] at address [loc], run by thread [tid]. *)
Definition new_mutex (loc : N) (tid : thread_id_t) : exec unit :=
  cv ← get_cv tid; cv ← derefM cv;
  modify (λ s, put_mutexes (<[loc := mkMutexState None tid (getClock cv tid)]> (x_mutexes s)) s).

Definition mutex_at (loc : N) : exec mutex_state := s ← get; derefM (x_mutexes s !! loc).

Section threads.
(** Where Thread objects are allocated: the Thread at an address, by its id. *)
Context (thread_of_addr : N → option thread_id_t).

Definition get_thread_operand (a : ModelAction) : exec (option thread_id_t) :=
  if is_type a THREAD_CREATE then s ← get; mret (x_thrds s !! a_location a)
  else if is_type a THREAD_JOIN then mret (thread_of_addr (a_location a))
  else mret None.

Definition waiting_on (tid : thread_id_t) : exec (option thread_id_t) :=
  t ← thread_at tid;
  match th_pending t with
  | None => mret None
  | Some p =>
      a ← act_at p;
      if is_type a THREAD_JOIN then get_thread_operand a
      else if is_lock a then m ← mutex_at (get_mutex a); mret (ms_locked m)
      else mret None
  end.

(** The loop of [is_waiting_on] follows the chain of waiting threads. *)
Fixpoint is_waiting_on (fuel : nat) (this t : thread_id_t) : exec bool :=
  match fuel with
  | O => lift (Err OutOfFuel)
  | S fuel =>
      w ← waiting_on this;
      match w with
      | None => mret false
      | Some w => if bool_decide (w = t) then mret true else is_waiting_on fuel w t
      end
  end.
End threads.

(** ** Reasoning about the monad *)

Lemma exec_bind_Ok {A B} (m : exec A) (k : A → exec B) s s' b :
  (m ≫= k) s = Ok (s', b) ↔ ∃ s1 a, m s = Ok (s1, a) ∧ k a s1 = Ok (s', b).
Proof. unfold mbind, exec_bind. destruct (m s) as [[s1 a]|]; naive_solver. Qed.

Lemma lift_Ok {A} (r : result A) s s' a : lift r s = Ok (s', a) ↔ s' = s ∧ r = Ok a.
Proof. unfold lift. destruct r; naive_solver. Qed.

(** [inv_exec] decomposes the hypotheses that say a computation succeeded. *)
Ltac inv_exec :=
  repeat match goal with
  | H : mbind _ _ _ = Ok _ |- _ =>
      let s1 := fresh "s" in let a := fresh "a" in let H1 := fresh "H" in let H2 := fresh "H" in
      apply exec_bind_Ok in H as (s1 & a & H1 & H2)
  | H : lift _ _ = Ok _ |- _ => apply lift_Ok in H as [? ?]
  | H : assertM _ _ = Ok _ |- _ => apply lift_Ok in H as [? ?]
  | H : derefM _ _ = Ok _ |- _ => apply lift_Ok in H as [? ?]
  | H : mret _ _ = Ok _ |- _ => unfold mret, exec_ret in H; simplify_eq
  | H : get _ = Ok _ |- _ => unfold get in H; simplify_eq
  | H : gets _ _ = Ok _ |- _ => unfold gets in H; simplify_eq
  | H : modify _ _ = Ok _ |- _ => unfold modify in H; simplify_eq
  | H : ASSERT _ = Ok _ |- _ => apply ASSERT_Ok in H
  | H : deref _ = Ok _ |- _ => apply deref_Ok in H
  | H : Err _ = Ok _ |- _ => discriminate H
  | p : prod _ _ |- _ => destruct p
  | _ => progress simplify_eq
  end.

Lemma obj_list_Ok loc s s' l : obj_list loc s = Ok (s', l) ↔ s' = s ∧ loc ≠ 0%N ∧ x_obj_map s !! loc = Some l.
Proof.
  unfold obj_list, table_get. split.
  - intros H. inv_exec. split_and!; [done| |done]. intros ->. done.
  - intros (-> & Hne & Hl). unfold mbind, exec_bind, get, assertM, derefM, lift, ASSERT, mret, exec_ret.
    destruct (N.eqb_spec loc 0); [done|]. simpl. by rewrite Hl.
Qed.

Lemma act_at_Ok p s s' a : act_at p s = Ok (s', a) ↔ s' = s ∧ x_acts s !! p = Some a.
Proof.
  unfold act_at, derefM. split.
  - intros H. inv_exec. done.
  - intros [-> H]. unfold mbind, exec_bind, get, lift. by rewrite H.
Qed.

Lemma mutex_at_Ok p s s' m : mutex_at p s = Ok (s', m) ↔ s' = s ∧ x_mutexes s !! p = Some m.
Proof.
  unfold mutex_at, derefM. split.
  - intros H. inv_exec. done.
  - intros [-> H]. unfold mbind, exec_bind, get, lift. by rewrite H.
Qed.

Lemma store_thread_Ok t x s s' u :
  store_thread t x s = Ok (s', u) →
  s' = put_thread_map (<[id_to_int t := Some x]> (x_thread_map s)) s ∧ get_thread s' t = Some x.
Proof.
  unfold store_thread. intros (s1 & s0 & [= <- <-] & H)%exec_bind_Ok.
  apply exec_bind_Ok in H as (s2 & m & [-> Hm]%lift_Ok & [= <-]).
  unfold set_at in Hm. destruct (Nat.ltb_spec (id_to_int t) (length (x_thread_map s))); simplify_eq.
  split; [done|]. unfold get_thread. simpl. by rewrite list_lookup_insert_eq.
Qed.

Lemma obj_thrd_lists_Ok loc s s' v :
  obj_thrd_lists loc s = Ok (s', v) → s' = s ∧ x_obj_thrd_map s !! loc = Some v.
Proof. intros H. unfold obj_thrd_lists, table_get in H. inv_exec. done. Qed.

Lemma Node_at_Ok p s s' x : Node_at p s = Ok (s', x) ↔ s' = s ∧ ns_nodes (x_stack s) !! p = Some x.
Proof.
  unfold Node_at. rewrite exec_bind_Ok. split.
  - intros (s1 & t & [= <- <-] & H). apply lift_Ok in H as [-> H%deref_Ok]. done.
  - intros [-> H]. exists s, s. split; [done|]. apply lift_Ok. by rewrite H.
Qed.
