(* ===== verification/ModOrder.v ===== *)
(** * Modification order, reads and release sequences (execution.cc)

    The part of ModelExecution that turns one action into constraints: which earlier
    stores it may read from, which edges it adds to the modification-order graph,
    which promises it can or cannot meet, and which release sequences it heads. *)

From S2P Require Import Prelude ClockVector Action HashTable Promise CycleGraph NodeStack Schedule DataRace ExecState.

(** ** Searches in the action lists *)

(** The first element of [l] satisfying [f]. *)
Definition find_act (f : ptr → ModelAction → bool) (l : list ptr) : exec (option ptr) :=
  search (λ p, a ← act_at p; mret (if f p a then Some p else None)) l.

(** The elements from the first occurrence of [p] on. *)
Fixpoint from_elem (p : ptr) (l : list ptr) : list ptr :=
  match l with
  | [] => []
  | x :: l => if bool_decide (x = p) then x :: l else from_elem p l
  end.

(** The loop of [get_last_seq_cst_write] runs past the end if [curr] is not listed. *)
Definition get_last_seq_cst_write (curr : ptr) : exec (option ptr) :=
  c ← act_at curr;
  l ← obj_list (a_location c);
  match from_elem curr (rev l) with
  | [] => lift (Err BadPointer)
  | _ :: l => find_act (λ _ a, is_write a && is_seqcst a) l
  end.

Definition get_last_seq_cst_fence (tid : thread_id_t) (before_fence : option ptr) : exec (option ptr) :=
  s ← get;
  l ← table_get FENCE_LOCATION (x_obj_map s);
  match l with
  | None => mret None
  | Some l =>
      l ← match before_fence with
          | None => mret (rev l)
          | Some b => match from_elem b (rev l) with [] => lift (Err AssertFailed) | _ :: l => mret l end
          end;
      find_act (λ _ a, is_fence a && bool_decide (tid = a_tid a) && is_seqcst a) l
  end.

Definition get_last_unlock (curr : ptr) : exec (option ptr) :=
  c ← act_at curr;
  l ← obj_list (a_location c);
  find_act (λ _ a, is_unlock a || is_wait a) (rev l).

(** [*a < *b] for two actions of the heap. *)
Definition before (a b : ptr) : exec bool := x ← act_at a; y ← act_at b; mret (act_lt x y).

(** [f && *a < *f] for a possibly-NULL [f]. *)
Definition before_opt (a : ptr) (f : option ptr) : exec bool :=
  match f with None => mret false | Some f => before a f end.

(** ** Waking sleeping threads *)

Definition should_wake_up (curr : ptr) (tid : thread_id_t) : exec bool :=
  t ← thread_at tid;
  c ← act_at curr;
  if is_rmwr c then mret false
  else
    p ← derefM (th_pending t);
    asleep ← act_at p;
    if could_synchronize_with asleep c then mret true
    else if is_fence asleep && is_acquire asleep && is_release c then mret true
    else if is_read asleep && is_acquire asleep && same_var c asleep && is_write c then
      s ← get;
      match get_last_fence_release s (a_tid c) with
      | None => mret false
      | Some fr => last ← derefM (get_last_action s tid); before last fr
      end
    else mret false.

Definition wake_up_sleeping_actions (curr : ptr) : exec unit :=
  s ← get;
  for_each (λ i,
    let tid := int_to_id i in
    s ← get;
    sl ← lift (is_sleep_set (x_sched s) tid);
    if (sl : bool) then
      w ← should_wake_up curr tid;
      if (w : bool) then modify (λ s, put_sched (remove_sleep tid (x_sched s)) s) else mret tt
    else mret tt) (seq 0 (get_num_threads s)).

(** ** Backtracking *)

Definition set_latest_backtrack (act : ptr) : exec bool :=
  s ← get;
  b ← match x_next_backtrack s with
      | None => mret true
      | Some nb => before nb act
      end;
  if (b : bool) then modify (put_next_backtrack (Some act)) ;; mret true else mret false.

Definition get_next_backtrack_act : exec (option ptr) :=
  s ← get; modify (put_next_backtrack None) ;; mret (x_next_backtrack s).

(** The second loop of [get_last_fence_conflict], over the trace from the release
    backwards; [None] when it returns NULL early. *)
Fixpoint fence_conflict_loop (act : ModelAction) (l : list ptr)
    (acquire_fences prior_loads : list (option ptr)) (found : bool)
    : exec (option (list (option ptr) * list (option ptr))) :=
  match l with
  | [] => mret (Some (acquire_fences, prior_loads))
  | p :: l =>
      prev ← act_at p;
      if same_thread act prev then fence_conflict_loop act l acquire_fences prior_loads found
      else
        let tid := id_to_int (a_tid prev) in
        if is_read prev && same_var act prev && is_acquire prev && negb found then mret None
        else
          prior_loads ← (if is_read prev && same_var act prev && negb (is_acquire prev)
                         then lift (set_at tid (Some p) prior_loads) else mret prior_loads);
          if is_acquire prev && is_fence prev then
            f ← lift (at_index acquire_fences tid);
            match f with
            | None =>
                acquire_fences ← lift (set_at tid (Some p) acquire_fences);
                fence_conflict_loop act l acquire_fences prior_loads true
            | Some _ => fence_conflict_loop act l acquire_fences prior_loads found
            end
          else fence_conflict_loop act l acquire_fences prior_loads found
  end.

Definition get_last_fence_conflict (act : ptr) : exec (option ptr) :=
  a ← act_at act;
  if negb (is_write a) then mret None
  else
    s ← get;
    match (if is_release a then Some act else get_last_fence_release s (a_tid a)) with
    | None => mret None
    | Some last_release =>
        let l := from_elem last_release (rev (x_action_trace s)) in
        assertM (negb (bool_decide (l = []))) ;;
        let none := replicate (get_num_threads s) None in
        r ← fence_conflict_loop a l none none false;
        match r with
        | None => mret None
        | Some (acquire_fences, prior_loads) =>
            loop (λ fl latest,
                    match fl with
                    | (Some f, Some _) =>
                        b ← match latest with None => mret true | Some lb => before lb f end;
                        mret (if (b : bool) then Some f else latest, false)
                    | _ => mret (latest, false)
                    end) (zip acquire_fences prior_loads) None
        end
    end.

Definition get_last_conflict (act : ptr) : exec (option ptr) :=
  a ← act_at act;
  let sync_conflict :=
    l ← obj_list (a_location a);
    ret ← find_act (λ p prev, negb (bool_decide (p = act)) && could_synchronize_with prev a) (rev l);
    ret2 ← get_last_fence_conflict act;
    match ret, ret2 with
    | _, None => mret ret
    | None, Some r2 => mret (Some r2)
    | Some r, Some r2 => b ← before r r2; mret (if (b : bool) then Some r2 else Some r)
    end in
  match a_type a with
  | ATOMIC_FENCE => if negb (is_seqcst a) then mret None else sync_conflict
  | ATOMIC_READ | ATOMIC_WRITE | ATOMIC_RMW => sync_conflict
  | ATOMIC_LOCK | ATOMIC_TRYLOCK =>
      l ← obj_list (a_location a); find_act (λ _ prev, is_conflicting_lock a prev) (rev l)
  | ATOMIC_UNLOCK =>
      l ← obj_list (a_location a);
      find_act (λ _ prev, negb (same_thread a prev) && is_failed_trylock prev) (rev l)
  | ATOMIC_WAIT =>
      l ← obj_list (a_location a);
      find_act (λ _ prev, negb (same_thread a prev) && (is_failed_trylock prev || is_notify prev)) (rev l)
  | ATOMIC_NOTIFY_ALL | ATOMIC_NOTIFY_ONE =>
      l ← obj_list (a_location a);
      find_act (λ _ prev, negb (same_thread a prev) && is_wait prev) (rev l)
  | _ => mret None
  end.

Section with_params.
Context (params : model_params).

(** Does some enabled thread of [node] satisfy [f]? *)
Definition some_enabled (node : Node) (f : thread_id_t → result bool) : result bool :=
  r ← until (λ t, e ← node_is_enabled node (int_to_id t);
                  if (e : bool) then p ← f (int_to_id t); Ok (if (p : bool) then Some tt else None)
                  else Ok None) (seq 0 (n_num_threads node));
  Ok (bool_decide (is_Some r)).

(** One iteration of the loop of [set_backtracking]; the flag is [break]. *)
Definition backtrack_step (prev nodep : ptr) (i : nat) : exec bool :=
  let tid := int_to_id i in
  node ← Node_at nodep;
  if n_num_threads node <=? i then mret true
  else
    st ← lift (enabled_status node tid);
    if negb (bool_decide (st = THREAD_ENABLED)) then mret false
    else
      ex ← lift (has_been_explored node tid);
      if (ex : bool) then mret false
      else
        unfair ← (if (fairwindow params =? 0)%N then mret false
                  else p ← lift (has_priority node tid);
                       if (p : bool) then mret false
                       else lift (some_enabled node (has_priority node)));
        if (unfair : bool) then mret false
        else
          unfair ← (if yieldon params then lift (some_enabled node (has_priority_over node tid))
                    else mret false);
          if (unfair : bool) then mret false
          else
            set_latest_backtrack prev ;;
            '(node, _) ← lift (set_backtrack tid node);
            store_node nodep node ;; mret false.

Definition set_backtracking (act : ptr) : exec unit :=
  a ← act_at act;
  prev ← get_last_conflict act;
  match prev with
  | None => mret tt
  | Some prev =>
      pn ← get_node_of prev;
      pnode ← Node_at pn;
      nodep ← derefM (n_parent pnode);
      node ← Node_at nodep;
      st ← lift (enabled_status node (a_tid a));
      s ← get;
      let '(low_tid, high_tid) :=
        if bool_decide (st = THREAD_ENABLED) then (id_to_int (a_tid a), id_to_int (a_tid a) + 1)
        else (0, get_num_threads s) in
      loop (λ i _, b ← backtrack_step prev nodep i; mret (tt, b)) (seq low_tid (high_tid - low_tid)) tt
  end.

Definition check_curr_backtracking (curr : ptr) : exec unit :=
  n ← get_node_of curr;
  currnode ← Node_at n;
  par ← match n_parent currnode with
        | None => mret false
        | Some p => pn ← Node_at p; mret (negb (backtrack_empty pn))
        end;
  if (par : bool) || negb (misc_empty currnode) || negb (read_from_empty currnode)
     || negb (promise_empty currnode) || negb (relseq_break_empty currnode)
  then set_latest_backtrack curr ;; mret tt
  else mret tt.

(** ** Promises *)

(** The threads that synchronization makes unable to resolve promises; the inner loop
    returns from the whole function when a promise fails. *)
Definition check_promises (tid : thread_id_t) (old_cv merge_cv : option ClockVector) : exec unit :=
  s ← get;
  search (λ p,
    pr ← prom_at p;
    if negb (thread_is_available pr tid) then mret None
    else
      search (λ r,
        act ← act_at r;
        let old := match old_cv with None => false | Some c => synchronized_since c (a_tid act) (a_seq_number act) end in
        if (old : bool) then mret None
        else
          m ← derefM merge_cv;
          if synchronized_since m (a_tid act) (a_seq_number act) then
            pr ← prom_at p;
            let '(pr, failed) := eliminate_thread tid pr in
            store_prom p pr ;;
            if (failed : bool) then modify (put_failed_promise true) ;; mret (Some tt) else mret None
          else mret None) (p_readers pr)) (x_promises s) ;;
  mret tt.

Definition synchronize (first second : ptr) : exec bool :=
  f ← act_at first; sc ← act_at second;
  if act_lt sc f then set_bad_synchronization ;; mret false
  else
    check_promises (a_tid f) (a_cv sc) (a_cv f) ;;
    f ← act_at first;
    on_act second (synchronize_with f).

(** [mo_graph->checkPromise(write, promise)] *)
Definition mo_checkPromise (write promise : ptr) : exec bool :=
  s ← get;
  pr ← prom_at promise;
  '(pr, r) ← lift (checkPromise (x_acts s) write promise pr (x_mo_graph s));
  store_prom promise pr ;; mret r.

(** The body of the loop of [mo_check_promises]; [Some] when it returns. *)
Definition mo_check_promise (act write : ptr) (p : ptr) : exec (option unit) :=
  s ← get;
  a ← act_at act;
  w ← act_at write;
  pr ← prom_at p;
  same ← lift (same_location (x_acts s) pr w);
  if negb same then mret None
  else
    found ← search (λ r, h ← hb r act; mret (if (h : bool) then Some tt else None)) (p_readers pr);
    failed ← match found with
             | None => mret false
             | Some _ => mo_checkPromise write p
             end;
    if (failed : bool) then modify (put_hard_failed_promise true) ;; mret (Some tt)
    else
      pr ← prom_at p;
      if negb (thread_is_available pr (a_tid a)) then mret None
      else
        r ← mo_checkReachable (OProm p) (OAct write);
        if (r : bool) then
          failed ← mo_checkPromise write p;
          if (failed : bool) then modify (put_hard_failed_promise true) ;; mret (Some tt) else mret None
        else mret None.

(** With no pending promise the store is not looked at, so [write] may be NULL. *)
Definition mo_check_promises (act : ptr) (is_read_check : bool) : exec unit :=
  a ← act_at act;
  let write := if is_read_check then a_reads_from a else Some act in
  s ← get;
  match x_promises s with
  | [] => mret tt
  | _ => write ← derefM write; search (mo_check_promise act write) (x_promises s) ;; mret tt
  end.

(** The [return] after a first elimination that does not fail leaves the whole function. *)
Definition thread_blocking_check_promises (blocker waiting : thread_id_t) : exec unit :=
  s ← get;
  search (λ p,
    pr ← prom_at p;
    if negb (thread_is_available pr waiting) then mret None
    else
      search (λ r,
        reader ← act_at r;
        if negb (bool_decide (a_tid reader = blocker)) then mret None
        else
          pr ← prom_at p;
          let '(pr, failed) := eliminate_thread waiting pr in
          store_prom p pr ;;
          if (failed : bool) then modify (put_failed_promise true) ;; mret None
          else mret (Some tt)) (p_readers pr)) (x_promises s) ;;
  mret tt.

(** The promises a write could meet are marked in its node. *)
Definition compute_promises (curr : ptr) : exec unit :=
  s ← get;
  for_each (λ ip : nat * ptr,
    let '(i, p) := ip in
    s ← get;
    c ← act_at curr;
    pr ← prom_at p;
    compatible ← lift (is_compatible (x_acts s) pr c);
    same ← (if (compatible : bool) then lift (same_value pr c) else mret false);
    if negb same then mret tt
    else
      unsat ← search (λ r, act ← act_at r; h ← lift (happens_before act c);
                           mret (if h || could_synchronize_with act c then Some tt else None)) (p_readers pr);
      match unsat with
      | Some _ => mret tt
      | None => n ← get_node_of curr; node ← Node_at n; store_node n (set_promise i node)
      end) (zip (seq 0 (length (x_promises s))) (x_promises s)).

Definition pop_promise_to_resolve (curr : ptr) : exec (option ptr) :=
  s ← get;
  r ← search (λ ip : nat * ptr,
        n ← get_node_of curr; node ← Node_at n;
        mret (if get_promise node ip.1 then Some ip else None))
        (zip (seq 0 (length (x_promises s))) (x_promises s));
  match r with
  | None => mret None
  | Some (i, p) => modify (λ s, put_promises (delete i (x_promises s)) s) ;; mret (Some p)
  end.

(** ** Modification order of a read *)

Definition obj_is_act (p : ptr) (rf : obj) : bool := bool_decide (OAct p = rf).
Definition obj_is_prom (p : ptr) (rf : obj) : bool := bool_decide (OProm p = rf).

(** One action of another list; the result is [added] and whether to stop. *)
Definition r_mo_step (curr : ptr) (rf : obj)
    (last_sc_fence_local last_sc_fence_thread_local last_sc_fence_thread_before : option ptr)
    (p : ptr) (added : bool) : exec (bool * bool) :=
  if bool_decide (p = curr) then mret (added, false)
  else if obj_is_act p rf then h ← hb p curr; mret (added, h)
  else
    act ← act_at p; c ← act_at curr;
    b1 ← (if is_write act && is_seqcst c then before_opt p last_sc_fence_thread_local else mret false);
    b2 ← (if is_write act && is_seqcst act then before_opt p last_sc_fence_local else mret false);
    b3 ← (if is_write act then before_opt p last_sc_fence_thread_before else mret false);
    if (b1 : bool) || b2 || b3 then e ← mo_addEdge (OAct p) rf; mret (e || added, true)
    else
      h ← hb p curr;
      if (h : bool) then
        if is_write act then e ← mo_addEdge (OAct p) rf; mret (e || added, true)
        else
          match a_reads_from act with
          | Some prevrf =>
              if obj_is_act prevrf rf then mret (added, true)
              else e ← mo_addEdge (OAct prevrf) rf; mret (e || added, true)
          | None =>
              prevrf_promise ← derefM (a_reads_from_promise act);
              if obj_is_prom prevrf_promise rf then mret (added, true)
              else e ← mo_addEdge (OProm prevrf_promise) rf; mret (e || added, true)
          end
      else mret (added, false).

Definition r_mo_thread (curr : ptr) (rf : obj) (last_sc_fence_local : option ptr)
    (il : nat * list ptr) (added : bool) : exec (bool * bool) :=
  let '(i, l) := il in
  c ← act_at curr;
  last_sc_fence_thread_local ←
    (if negb (bool_decide (int_to_id i = a_tid c)) then get_last_seq_cst_fence (int_to_id i) None else mret None);
  last_sc_fence_thread_before ←
    match last_sc_fence_local with
    | None => mret None
    | Some f => get_last_seq_cst_fence (int_to_id i) (Some f)
    end;
  added ← loop (r_mo_step curr rf last_sc_fence_local last_sc_fence_thread_local last_sc_fence_thread_before)
            (rev l) added;
  mret (added, false).

(** Thread-exclusive promises compatible with [curr] are ordered after [from]. *)
Definition order_exclusive_promises (curr : ptr) (from : obj) (added : bool) : exec bool :=
  s ← get;
  loop (λ p added,
          s ← get; c ← act_at curr; pr ← prom_at p;
          e ← lift (is_compatible_exclusive (x_acts s) pr c);
          if (e : bool) then e ← mo_addEdge from (OProm p); mret (e || added, false)
          else mret (added, false)) (x_promises s) added.

Definition r_modification_order (curr : ptr) (rf : obj) : exec bool :=
  c ← act_at curr;
  thrd_lists ← obj_thrd_lists (a_location c);
  assertM (is_read c) ;;
  last_sc_fence_local ← get_last_seq_cst_fence (a_tid c) None;
  (* last_sc_write is computed for its possible failure only *)
  (if is_seqcst c then get_last_seq_cst_write curr else mret None) ;;
  added ← loop (r_mo_thread curr rf last_sc_fence_local)
            (zip (seq 0 (length thrd_lists)) thrd_lists) false;
  order_exclusive_promises curr rf added.

(** ** Future values *)

(** The walk of [thin_air_constraint_may_allow] along the RMW chain of the writer. *)
Fixpoint thin_air_walk (fuel : nat) (reader : ptr) (search : option ptr) : exec bool :=
  match search with
  | None => mret true
  | Some p =>
      match fuel with
      | O => lift (Err OutOfFuel)
      | S fuel =>
          if bool_decide (p = reader) then mret false
          else
            a ← act_at p; r ← act_at reader;
            stop ← (if bool_decide (a_tid a = a_tid r) then lift (happens_before a r) else mret false);
            if (stop : bool) then mret true else thin_air_walk fuel reader (a_reads_from a)
      end
  end.

Definition thin_air_constraint_may_allow (writer reader : ptr) : exec bool :=
  w ← act_at writer; r ← act_at reader; s ← get;
  if negb (is_rmw w) then mret true
  else if negb (is_rmw r) then mret true
  else thin_air_walk (S (size (x_acts s))) reader (a_reads_from w).

(** The scan of one thread list by [mo_may_allow], most recent action first. *)
Fixpoint write_after_read (reader : ptr) (l : list ptr) (war : option ptr) : exec (option ptr) :=
  match l with
  | [] => mret war
  | p :: l =>
      h ← hb reader p;
      if negb h || bool_decide (reader = p) then mret war
      else
        act ← act_at p;
        if is_write act then write_after_read reader l (Some p)
        else if is_read act && bool_decide (is_Some (a_reads_from act))
        then write_after_read reader l (a_reads_from act)
        else write_after_read reader l war
  end.

Definition mo_may_allow (writer reader : ptr) : exec bool :=
  r ← act_at reader;
  thrd_lists ← obj_thrd_lists (a_location r);
  bad ← search (λ l,
    war ← write_after_read reader (rev l) None;
    match war with
    | None => mret None
    | Some w =>
        if bool_decide (w = writer) then mret None
        else c ← mo_checkReachable (OAct w) (OAct writer); mret (if (c : bool) then Some tt else None)
    end) thrd_lists;
  mret (negb (bool_decide (is_Some bad))).

Definition promises_may_allow (writer reader : ptr) : exec bool :=
  s ← get;
  r ← search (λ p,
        pr ← prom_at p;
        prr ← derefM (get_reader pr 0);
        after ← before prr reader;
        if (after : bool) then mret (Some true)
        else bad ← before prr writer; mret (if (bad : bool) then Some false else None))
        (rev (x_promises s));
  mret (default true r).

(** The ancestor of [tid] that exists among [n] threads. *)
Fixpoint ancestor_thread (fuel : nat) (n : nat) (tid : thread_id_t) : exec thread_id_t :=
  match fuel with
  | O => lift (Err OutOfFuel)
  | S fuel =>
      if n <=? id_to_int tid then t ← thread_at tid; par ← derefM (th_parent t); ancestor_thread fuel n par
      else mret tid
  end.

Definition exec_add_future_value (writer reader : ptr) : exec unit :=
  ok ← mo_may_allow writer reader;
  if negb ok then mret tt
  else
    n ← get_node_of reader;
    node ← Node_at n;
    w ← act_at writer;
    s ← get;
    write_thread ← ancestor_thread (S (get_num_threads s)) (n_num_threads node) (a_tid w);
    v ← lift (get_write_value w);
    let expiration := Z.to_N ((Z.of_N (a_seq_number w) + maxfuturedelay params) mod 2 ^ 32) in
    let '(node, added) := add_future_value params (mkFutureValue v expiration write_thread) node in
    store_node n node ;;
    if (added : bool) then set_latest_backtrack reader ;; mret tt else mret tt.

(** The walk of [check_coherence_promise] down the node stack from [read] to the
    promise's reader: is there a read of the same thread in between? *)
Fixpoint read_between (fuel : nat) (read prreader tmp : ptr) : exec bool :=
  if bool_decide (tmp = prreader) then mret false
  else
    match fuel with
    | O => lift (Err OutOfFuel)
    | S fuel =>
        n ← get_node_of tmp;
        node ← Node_at n;
        par ← derefM (n_parent node);
        pnode ← Node_at par;
        let tmp := n_action pnode in
        a ← act_at tmp; r ← act_at read;
        if is_read a && same_thread a r then mret true else read_between fuel read prreader tmp
    end.

Definition check_coherence_promise (write read : ptr) : exec bool :=
  s ← get;
  w ← act_at write; r ← act_at read;
  bad ← search (λ p,
    pr ← prom_at p;
    same ← lift (same_location (x_acts s) pr w);
    if negb same then mret None
    else if (p_num_was_available_threads pr =? 1)%Z && thread_was_available pr (a_tid r) then
      search (λ rd,
        prreader ← act_at rd;
        if bool_decide (a_tid prreader = a_tid w) && act_lt prreader w then
          if act_gt r prreader then
            okay ← read_between (S (length (ns_node_list (x_stack s)))) read rd read;
            mret (if (okay : bool) then None else Some tt)
          else mret (Some tt)
        else mret None) (p_readers pr)
    else mret None) (rev (x_promises s));
  mret (negb (bool_decide (is_Some bad))).

(** ** Modification order of a write *)

(** One action; the state is [added] and the readers collected in [send_fv]
    ([None] when the caller passes NULL). *)
Definition w_mo_step (curr : ptr) (last_sc_fence_thread_before : option ptr)
    (p : ptr) (st : bool * option (list ptr)) : exec ((bool * option (list ptr)) * bool) :=
  let '(added, send_fv) := st in
  c ← act_at curr;
  if bool_decide (p = curr) then
    mret (st, is_rmw c && bool_decide (is_Some (a_reads_from c)))
  else
    act ← act_at p;
    b ← (if is_write act then before_opt p last_sc_fence_thread_before else mret false);
    if (b : bool) then e ← mo_addEdge (OAct p) (OAct curr); mret ((e || added, send_fv), true)
    else
      h ← hb p curr;
      if (h : bool) then
        if is_write act then e ← mo_addEdge (OAct p) (OAct curr); mret ((e || added, send_fv), true)
        else if is_read act then
          from ← match a_reads_from act with
                 | Some r => mret (OAct r)
                 | None => pr ← derefM (a_reads_from_promise act); mret (OProm pr)
                 end;
          e ← mo_addEdge from (OAct curr); mret ((e || added, send_fv), true)
        else mret (st, true)
      else if is_read act && negb (could_synchronize_with act c) && negb (same_thread act c) then
        match send_fv with
        | None => mret (st, false)
        | Some fv =>
            ok ← thin_air_constraint_may_allow curr p;
            ok ← (if (ok : bool) then check_coherence_promise curr p else mret false);
            if negb ok then mret (st, false)
            else
              s ← get;
              if negb (is_infeasible s) then mret ((added, Some (fv ++ [p])), false)
              else if is_rmw c && is_rmw act && bool_decide (is_Some (a_reads_from c))
                      && bool_decide (a_reads_from c = a_reads_from act)
              then exec_add_future_value curr p ;; mret (st, false)
              else mret (st, false)
        end
      else mret (st, false).

Definition w_mo_thread (curr : ptr) (last_sc_fence_local : option ptr)
    (il : nat * list ptr) (st : bool * option (list ptr)) : exec ((bool * option (list ptr)) * bool) :=
  let '(i, l) := il in
  c ← act_at curr;
  last_sc_fence_thread_before ←
    match last_sc_fence_local with
    | Some f => if negb (bool_decide (int_to_id i = a_tid c))
                then get_last_seq_cst_fence (int_to_id i) (Some f) else mret None
    | None => mret None
    end;
  st ← loop (w_mo_step curr last_sc_fence_thread_before) (rev l) st;
  mret (st, false).

Definition w_modification_order (curr : ptr) (send_fv : option (list ptr)) : exec (bool * option (list ptr)) :=
  c ← act_at curr;
  thrd_lists ← obj_thrd_lists (a_location c);
  assertM (is_write c) ;;
  added ← (if is_seqcst c then
             last ← get_last_seq_cst_write curr;
             match last with
             | Some l => mo_addEdge (OAct l) (OAct curr)
             | None => mret false
             end
           else mret false);
  last_sc_fence_local ← get_last_seq_cst_fence (a_tid c) None;
  '(added, send_fv) ← loop (w_mo_thread curr last_sc_fence_local)
                        (zip (seq 0 (length thrd_lists)) thrd_lists) (added, send_fv);
  added ← order_exclusive_promises curr (OAct curr) added;
  mret (added, send_fv).

(** ** Recency *)

(** [ModelAction::may_read_from] *)
Definition may_read_from (act : ptr) (o : obj) : exec bool :=
  a ← act_at act; n ← derefM (a_node a); node ← Node_at n; s ← get;
  match o with
  | OAct w => mret (bool_decide (w ∈ n_read_from_past node))
  | OProm p =>
      r ← search (λ i, q ← lift (get_read_from_promise_at (x_acts s) node i);
                       mret (if bool_decide (q = Some p) then Some tt else None))
            (seq 0 (get_read_from_promise_size node));
      mret (bool_decide (is_Some r))
  end.

(** The actions of [curr]'s thread at its location, most recent first, after [curr]. *)
Definition own_list_after (curr : ptr) : exec (list ptr) :=
  c ← act_at curr;
  thrd_lists ← obj_thrd_lists (a_location c);
  l ← lift (at_index thrd_lists (id_to_int (a_tid c)));
  match rev l with
  | [] => lift (Err BadPointer)
  | x :: l => assertM (bool_decide (x = curr)) ;; mret l
  end.

Definition should_read_instead (curr : ptr) (rf other_rf : obj) : exec bool :=
  if bool_decide (other_rf = rf) then mret false
  else
    newer ← mo_checkReachable rf other_rf;
    if negb newer then mret false
    else
      l ← own_list_after curr;
      bad ← search (λ i, p ← lift (at_index l i);
                         ok ← may_read_from p other_rf;
                         mret (if (ok : bool) then None else Some tt))
              (seq 0 (Z.to_nat (maxreads params)));
      mret (negb (bool_decide (is_Some bad))).

Definition few_choices (node : Node) : bool :=
  get_read_from_past_size node + get_read_from_promise_size node <=? 1.

(** One step of the first loop of [check_recency]: is this previous read no evidence
    of having read too often from [rf]? *)
Definition recency_ok (l : list ptr) (rf : obj) (i : nat) : exec (option unit) :=
  match l !! i with
  | None => mret (Some tt)
  | Some p =>
      act ← act_at p;
      let other := match a_reads_from_promise act with Some q => negb (obj_is_prom q rf) | None => false end
                   || match a_reads_from act with Some w => negb (obj_is_act w rf) | None => false end in
      if negb (is_read act) || other then mret (Some tt)
      else n ← get_node_of p; node ← Node_at n; mret (if few_choices node then Some tt else None)
  end.

Definition check_recency (curr : ptr) (rf : obj) : exec bool :=
  if (maxreads params =? 0)%Z then mret true
  else
    n ← get_node_of curr; node ← Node_at n;
    if few_choices node then mret true
    else
      c ← act_at curr;
      thrd_lists ← obj_thrd_lists (a_location c);
      assertM (id_to_int (a_tid c) <? length thrd_lists) ;;
      l ← own_list_after curr;
      ok ← search (recency_ok l rf) (seq 0 (Z.to_nat (maxreads params)));
      match ok with
      | Some _ => mret true
      | None =>
          bad ← search (λ w, b ← should_read_instead curr rf (OAct w); mret (if (b : bool) then Some tt else None))
                  (n_read_from_past node);
          match bad with
          | Some _ => mret false
          | None =>
              s ← get;
              bad ← search (λ i, p ← lift (get_read_from_promise_at (x_acts s) node i);
                                 p ← derefM p;
                                 b ← should_read_instead curr rf (OProm p);
                                 mret (if (b : bool) then Some tt else None))
                      (seq 0 (get_read_from_promise_size node));
              mret (negb (bool_decide (is_Some bad)))
          end
      end.

(** ** Release sequences *)

(** The RMW-chain loop of [release_seq_heads]: the write it stops at ([None] for a
    read from the future) and the heads; the flag tells that an acquire-release RMW
    completed the search. *)
Fixpoint rmw_heads (fuel : nat) (rf : option ptr) (heads : list ptr) : exec (option ptr * list ptr * bool) :=
  match rf with
  | None => mret (None, heads, false)
  | Some p =>
      match fuel with
      | O => lift (Err OutOfFuel)
      | S fuel =>
          a ← act_at p;
          assertM (is_write a) ;;
          let heads := if is_release a then heads ++ [p]
                       else match a_last_fence_release a with Some f => heads ++ [f] | None => heads end in
          if negb (is_rmw a) then mret (Some p, heads, false)
          else if is_acquire a && is_release a then mret (Some p, heads, true)
          else rmw_heads fuel (a_reads_from a) heads
      end
  end.

(** The search for the last release at or before [rf] in its thread. *)
Fixpoint last_release (fence_release : option ptr) (l : list ptr) : exec (list ptr) :=
  match l with
  | [] => mret []
  | p :: l' =>
      b ← before_opt p fence_release;
      if (b : bool) then mret l
      else a ← act_at p; if is_release a then mret l else last_release fence_release l'
  end.

(** The actions of another thread against the sequence [release ... rf]. The state is
    [future_ordered], [certain] and the writes that may break the sequence; the result
    is [None] when the sequence is known to be broken. *)
Fixpoint relseq_thread (release rf : ptr) (l : list ptr) (fo certain : bool) (writes : list ptr)
    : exec (option (bool * bool * list ptr)) :=
  match l with
  | [] => mret (Some (fo, certain, writes))
  | p :: l =>
      h ← hb p release;
      if (h : bool) then mret (Some (fo, certain, writes))
      else
        h ← hb rf p;
        if (h : bool) then relseq_thread release rf l true certain writes
        else
          act ← act_at p;
          if negb (is_write act) || is_rmw act then relseq_thread release rf l fo certain writes
          else
            c1 ← mo_checkReachable (OAct rf) (OAct p);
            if (c1 : bool) then relseq_thread release rf l true certain writes
            else
              c2 ← mo_checkReachable (OAct p) (OAct release);
              if (c2 : bool) then mret (Some (fo, certain, writes))
              else
                c3 ← mo_checkReachable (OAct release) (OAct p);
                c4 ← mo_checkReachable (OAct p) (OAct rf);
                if (c3 : bool) && c4 then mret None
                else relseq_thread release rf l fo false (writes ++ [p])
  end.

(** The loop over the threads. *)
Fixpoint relseq_threads (release rf : ptr) (ils : list (nat * list ptr)) (certain : bool) (writes : list ptr)
    : exec (option (bool * list ptr)) :=
  match ils with
  | [] => mret (Some (certain, writes))
  | (i, l) :: ils =>
      r ← act_at rf;
      if id_to_int (a_tid r) =? i then relseq_threads release rf ils certain writes
      else
        s ← get;
        th ← thread_at (int_to_id i);
        h ← match get_last_action s (int_to_id i) with None => mret false | Some last => hb rf last end;
        let fo := (h : bool) || negb (is_enabled s (int_to_id i)) || is_complete th in
        assertM (negb (th_model_thread th) || fo) ;;
        r ← relseq_thread release rf (rev l) fo certain writes;
        match r with
        | None => mret None
        | Some (fo, certain, writes) =>
            relseq_threads release rf ils (if (fo : bool) then certain else false) writes
        end
  end.

(** [release_seq_heads]: the heads, the pending sequence as updated, and certainty. *)
Definition release_seq_heads (rf : option ptr) (pending : release_seq) : exec (list ptr * release_seq * bool) :=
  s ← get;
  if checkForCycles (x_mo_graph s) then mret ([], pending, false)
  else
    '(rf, heads, complete) ← rmw_heads (S (size (x_acts s))) rf [];
    if (complete : bool) then mret (heads, pending, true)
    else
      match rf with
      | None => mret (heads, mkReleaseSeq (rs_acquire pending) (rs_read pending) None
                               (rs_release pending) (rs_writes pending), false)
      | Some rf =>
          a ← act_at rf;
          if is_release a then mret (heads, pending, true)
          else
            let fence_release := a_last_fence_release a in
            let heads := match fence_release with Some f => heads ++ [f] | None => heads end in
            thrd_lists ← obj_thrd_lists (a_location a);
            l ← lift (at_index thrd_lists (id_to_int (a_tid a)));
            let l := from_elem rf (rev l) in
            assertM (negb (bool_decide (l = []))) ;;
            l ← last_release fence_release l;
            match l with
            | [] => mret (heads, pending, true)
            | release :: _ =>
                b ← before_opt release fence_release;
                if (b : bool) then mret (heads, pending, true)
                else
                  rel ← act_at release;
                  assertM (same_thread a rel) ;;
                  r ← relseq_threads release rf (zip (seq 0 (length thrd_lists)) thrd_lists) true [];
                  match r with
                  | None => mret (heads, pending, true)
                  | Some (true, _) =>
                      mret (heads ++ [release],
                            mkReleaseSeq (rs_acquire pending) (rs_read pending) (rs_rf pending) (rs_release pending) [],
                            true)
                  | Some (false, writes) =>
                      mret (heads,
                            mkReleaseSeq (rs_acquire pending) (rs_read pending) (Some rf) (Some release) writes,
                            false)
                  end
            end
      end.

Definition get_release_seq_heads (acquire read : ptr) : exec (list ptr) :=
  r ← act_at read;
  '(heads, sequence, complete) ← release_seq_heads (a_reads_from r) (mkReleaseSeq acquire read None None []);
  (if negb complete then modify (λ s, put_pending_rel_seqs (x_pending_rel_seqs s ++ [sequence]) s) else mret tt) ;;
  mret heads.

(** Establish [rf] for [act]; true if the read synchronized. *)
Definition read_from (act rf : ptr) : exec bool :=
  w ← act_at rf;
  assertM (is_write w) ;;
  uninit ← on_act act (λ a, Ok (set_read_from rf w a));
  (if (uninit : bool) then assert_bug (BugUninitializedRead act) else mret false) ;;
  a ← act_at act;
  if is_acquire a then
    heads ← get_release_seq_heads act act;
    n ← loop (λ h n, b ← synchronize h act; mret (if (b : bool) then n else (n - 1)%Z, false))
          heads (Z.of_nat (length heads));
    mret (0 <? n)%Z
  else mret false.

(** ** The work queue (workqueue.h) *)

Inductive work_entry :=
  | WORK_CHECK_CURR_ACTION (action : ptr)
  | WORK_CHECK_RELEASE_SEQ (location : N)      (* 0 for all locations *)
  | WORK_CHECK_MO_EDGES (action : ptr).

(** Propagate a changed clock vector to later actions; the work to queue. *)
Fixpoint propagate_loop (acquire : ptr) (l : list ptr) (work : list work_entry) : exec (list work_entry) :=
  match l with
  | [] => lift (Err BadPointer)
  | p :: l =>
      if bool_decide (p = acquire) then mret work
      else
        h ← hb acquire p;
        if (h : bool) then
          synchronize acquire p ;;
          propagate_loop acquire l (work ++ [WORK_CHECK_MO_EDGES p])
        else propagate_loop acquire l work
  end.

Definition propagate_clockvector (acquire : ptr) (work : list work_entry) : exec (list work_entry) :=
  s ← get;
  propagate_loop acquire (rev (x_action_trace s))
    (work ++ [WORK_CHECK_RELEASE_SEQ 0; WORK_CHECK_MO_EDGES acquire]).

(** The loop of [resolve_release_sequences]; [kept] are the sequences left pending. *)
Fixpoint resolve_loop (location : N) (pending : list release_seq) (kept : list release_seq)
    (updated : bool) (work : list work_entry) : exec (bool * list work_entry) :=
  match pending with
  | [] => modify (put_pending_rel_seqs kept) ;; mret (updated, work)
  | sq :: pending =>
      read ← act_at (rs_read sq);
      if negb (location =? 0)%N && negb (a_location read =? location)%N
      then resolve_loop location pending (kept ++ [sq]) updated work
      else
        '(heads, sq, complete) ← release_seq_heads (a_reads_from read) sq;
        updated ← loop (λ h updated,
            acq ← act_at (rs_acquire sq); hd ← act_at h;
            done ← lift (has_synchronized_with acq hd);
            if (done : bool) then mret (updated, false)
            else b ← synchronize h (rs_acquire sq); mret (if (b : bool) then true else updated, false))
          heads updated;
        work ← (if (updated : bool) then propagate_clockvector (rs_acquire sq) work else mret work);
        resolve_loop location pending (if (complete : bool) then kept else kept ++ [sq]) updated work
  end.

Definition resolve_release_sequences (location : N) (work : list work_entry) : exec (bool * list work_entry) :=
  s ← get;
  '(updated, work) ← resolve_loop location (x_pending_rel_seqs s) [] false work;
  checkDataRaces ;;
  mret (updated, work).

Definition compute_relseq_breakwrites (curr : ptr) : exec unit :=
  s ← get;
  match last (x_pending_rel_seqs s) with
  | None => mret tt
  | Some pending =>
      n ← get_node_of curr; node ← Node_at n;
      let node := foldl (λ nd w, add_relseq_break (Some w) nd) node (rs_writes pending) in
      store_node n (add_relseq_break None node)
  end.

(** ** The may-read-from set *)

Fixpoint sleep_can_read_from (fuel : nat) (curr : ptr) (write : option ptr) : exec bool :=
  match write with
  | None => mret true
  | Some p =>
      match fuel with
      | O => lift (Err OutOfFuel)
      | S fuel =>
          w ← act_at p;
          if is_uninitialized w then mret true
          else
            n ← get_node_of p; node ← Node_at n;
            par ← derefM (n_parent node); prevnode ← Node_at par;
            c ← act_at curr;
            st ← lift (enabled_status prevnode (a_tid c));
            if is_release w && bool_decide (st = THREAD_SLEEP_SET) then mret true
            else if negb (is_rmw w) then mret false
            else sleep_can_read_from fuel curr (a_reads_from w)
      end
  end.

(** Try reading from [o]: keep it in [curr]'s node if it is feasible, and undo. *)
Definition try_read_from (curr : ptr) (o : obj) (add : Node → Node) : exec unit :=
  mo_startChanges ;;
  r_modification_order curr o ;;
  s ← get;
  (if negb (is_infeasible s) then n ← get_node_of curr; node ← Node_at n; store_node n (add node)
   else mret tt) ;;
  mo_rollbackChanges.

Definition may_read_step (curr : ptr) (last_sc_write : option ptr) (p : ptr) (_ : unit) : exec (unit * bool) :=
  act ← act_at p;
  if negb (is_write act) || bool_decide (p = curr) then mret (tt, false)
  else
    c ← act_at curr; s ← get;
    sc_hidden ← (if negb (is_seqcst c) then mret false
                 else
                   older ← (if is_seqcst act then mret true
                            else match last_sc_write with Some w => hb p w | None => mret false end);
                   mret (older && negb (bool_decide (Some p = last_sc_write))));
    hidden ← (if (sc_hidden : bool) then mret true
              else if a_sleep_flag c && negb (is_seqcst c)
              then ok ← sleep_can_read_from (S (size (x_acts s))) curr (Some p); mret (negb ok)
              else mret false);
    (if (hidden : bool) then mret tt else try_read_from curr (OAct p) (add_read_from_past p)) ;;
    h ← hb p curr;
    mret (tt, h).

Definition build_may_read_from (curr : ptr) : exec unit :=
  c ← act_at curr;
  thrd_lists ← obj_thrd_lists (a_location c);
  assertM (is_read c) ;;
  last_sc_write ← (if is_seqcst c then get_last_seq_cst_write curr else mret None);
  for_each (λ l, loop (may_read_step curr last_sc_write) (rev l) tt) thrd_lists ;;
  s ← get;
  for_each (λ p,
    pr ← prom_at p;
    rd ← derefM (get_reader pr 0);
    promise_read ← act_at rd; c ← act_at curr;
    if same_var promise_read c then try_read_from curr (OProm p) (add_read_from_promise rd) else mret tt)
    (x_promises s) ;;
  n ← get_node_of curr; node ← Node_at n;
  if read_from_size node =? 0 then modify (put_no_valid_reads true) ;; set_assert else mret tt.

(** [get_uninitialized_action]: the UNINIT action of a location, kept in the node of
    the first action on it; it belongs to the model-checker thread. *)
Definition get_uninitialized_action (curr : ptr) : exec ptr :=
  n ← get_node_of curr; node ← Node_at n;
  c ← act_at curr;
  u ← match n_uninit_action node with
      | Some u => mret u
      | None =>
          a ← lift (new_ModelAction ATOMIC_UNINIT memory_order_relaxed (a_location c) (uninitvalue params) 0);
          u ← new_act a;
          store_node n (set_n_uninit_action (Some u) node) ;; mret u
      end;
  upd_act u (create_cv None) ;; mret u.
End with_params.
