(* ===== verification/Step.v ===== *)
(** * Executing one action (execution.cc)

    The handlers of ModelExecution for each kind of action, the bookkeeping of the
    action lists, the work queue that propagates their consequences, and the step
    function that the model checker calls for each action of the user program. *)

From S2P Require Import Prelude ClockVector Action HashTable Promise CycleGraph NodeStack Schedule DataRace ExecState ModOrder.

Section step.
Context (params : model_params) (thread_of_addr : N → option thread_id_t).

(** ** Bookkeeping *)

Definition push_to_vect (loc : N) (tid : nat) (f : list ptr → list ptr) : exec unit :=
  s ← get;
  vec ← get_safe_ptr_vect_action (x_obj_thrd_map s) loc;
  let vec := if length vec <=? tid then grow (x_next_thread_id s) [] vec else vec in
  l ← lift (at_index vec tid);
  vec ← lift (set_at tid (f l) vec);
  modify (put_obj_thrd_map (<[loc := vec]> (x_obj_thrd_map s))).

(** [v[i] = p] in a vector of last actions that grows to the number of threads. *)
Definition set_last (n i : nat) (p : ptr) (l : list (option ptr)) : result (list (option ptr)) :=
  set_at i (Some p) (if length l <=? i then grow n None l else l).

Definition add_action_to_lists (act : ptr) : exec unit :=
  a ← act_at act;
  let tid := id_to_int (a_tid a) in
  s ← get;
  l ← get_safe_ptr_action (x_obj_map s) (a_location a);
  uninit ← (if bool_decide (l = []) && is_atomic_var a
            then u ← get_uninitialized_action params act; mret (Some u) else mret None);
  modify (λ s, put_obj_map (<[a_location a := match uninit with Some u => [u; act] | None => l ++ [act] end]>
                              (x_obj_map s)) s) ;;
  modify (λ s, put_action_trace (match uninit with Some u => u :: x_action_trace s ++ [act]
                                 | None => x_action_trace s ++ [act] end) s) ;;
  push_to_vect (a_location a) tid (λ l, l ++ [act]) ;;
  s ← get;
  la ← lift (set_last (get_num_threads s) tid act (x_thrd_last_action s));
  modify (put_thrd_last_action la) ;;
  match uninit with
  | None => mret tt
  | Some u =>
      ua ← act_at u;
      let uninit_id := id_to_int (a_tid ua) in
      s ← get;
      vec ← get_safe_ptr_vect_action (x_obj_thrd_map s) (a_location a);
      ul ← lift (at_index vec uninit_id);
      vec ← lift (set_at uninit_id (u :: ul) vec);
      modify (put_obj_thrd_map (<[a_location a := vec]> (x_obj_thrd_map s))) ;;
      la ← lift (set_at uninit_id (Some u) la);
      modify (put_thrd_last_action la)
  end ;;
  (if is_fence a && is_release a then
     s ← get;
     lf ← lift (set_last (get_num_threads s) tid act (x_thrd_last_fence_release s));
     modify (put_thrd_last_fence_release lf)
   else mret tt) ;;
  if is_wait a then
    let mutex_loc := a_value a in
    s ← get;
    l ← get_safe_ptr_action (x_obj_map s) mutex_loc;
    modify (put_obj_map (<[mutex_loc := l ++ [act]]> (x_obj_map s))) ;;
    push_to_vect mutex_loc tid (λ l, l ++ [act])
  else mret tt.

(** ** Reads *)

(** [get_thread(curr)->set_return_value(curr->get_return_value())] *)
Definition set_thread_return (curr : ptr) : exec unit :=
  c ← act_at curr; s ← get;
  v ← lift (get_return_value (x_acts s) (λ p, get_value <$> x_proms s !! p) c);
  t ← thread_at (a_tid c);
  store_thread (a_tid c) (set_return_value v t).

(** The loop of [process_read]: each [continue] moves to the next store to read from. *)
Fixpoint process_read_loop (fuel : nat) (curr : ptr) : exec bool :=
  match fuel with
  | O => lift (Err OutOfFuel)
  | S fuel =>
      n ← get_node_of curr;
      node ← Node_at n;
      let '(node, status) := get_read_from_status node in
      store_node n node ;;
      match status with
      | READ_FROM_PAST =>
          rf ← lift (match get_read_from_past node with Some rf => Ok rf | None => Err AssertFailed end);
          mo_startChanges ;;
          s ← get;
          assertM (negb (is_infeasible s)) ;;
          recent ← check_recency params curr (OAct rf);
          again ← (if (recent : bool) then mret false
                   else
                     node ← Node_at n;
                     let '(node, more) := increment_read_from node in
                     store_node n node ;;
                     if (more : bool) then mo_rollbackChanges ;; mret true
                     else modify (put_too_many_reads true) ;; mret false);
          if (again : bool) then process_read_loop fuel curr
          else
            updated ← r_modification_order curr (OAct rf);
            read_from curr rf ;;
            mo_commitChanges ;;
            mo_check_promises curr true ;;
            set_thread_return curr ;; mret updated
      | READ_FROM_PROMISE =>
          s ← get;
          promise ← lift (get_read_from_promise (x_acts s) node);
          promise ← derefM promise;
          c ← act_at curr;
          pr ← prom_at promise;
          let '(pr, failed) := add_reader curr (a_tid c) pr in
          store_prom promise pr ;;
          (if (failed : bool) then modify (put_failed_promise true) else mret tt) ;;
          on_act curr (λ c, c ← set_read_from_promise promise c; Ok (c, tt)) ;;
          mo_startChanges ;;
          recent ← check_recency params curr (OProm promise);
          (if (recent : bool) then mret tt else modify (put_too_many_reads true)) ;;
          updated ← r_modification_order curr (OProm promise);
          mo_commitChanges ;;
          set_thread_return curr ;; mret updated
      | READ_FROM_FUTURE =>
          fv ← lift (get_future_value node);
          c ← act_at curr;
          s ← get;
          let promise := x_next_prom s in
          modify (put_next_prom (Pos.succ promise)) ;;
          store_prom promise (new_Promise curr (a_tid c) fv) ;;
          on_act curr (λ c, c ← set_read_from_promise promise c; Ok (c, tt)) ;;
          modify (λ s, put_promises (x_promises s ++ [promise]) s) ;;
          mo_startChanges ;;
          updated ← r_modification_order curr (OProm promise);
          mo_commitChanges ;;
          set_thread_return curr ;; mret updated
      | READ_FROM_NONE => lift (Err AssertFailed)
      end
  end.

Definition process_read (curr : ptr) : exec bool :=
  n ← get_node_of curr;
  node ← Node_at n;
  process_read_loop (S (read_from_size node)) curr.

(** ** Mutexes and condition variables *)

Definition store_mutex (loc : N) (m : mutex_state) : exec unit :=
  modify (λ s, put_mutexes (<[loc := m]> (x_mutexes s)) s).

(** The lock case, which a successful trylock falls into. *)
Definition process_lock (curr : ptr) : exec bool :=
  c ← act_at curr;
  state ← mutex_at (get_mutex c);
  cv ← derefM (a_cv c);
  (if (getClock cv (ms_alloc_tid state) <=? ms_alloc_clock state)%N
   then assert_bug (BugLockBeforeInit curr) else mret false) ;;
  store_mutex (get_mutex c) (mkMutexState (Some (a_tid c)) (ms_alloc_tid state) (ms_alloc_clock state)) ;;
  unlock ← get_last_unlock curr;
  match unlock with
  | Some u => synchronize u curr ;; mret true
  | None => mret false
  end.

(** The wait and unlock cases. *)
Definition process_unlock (curr : ptr) : exec bool :=
  c ← act_at curr;
  s ← get;
  for_each (λ i,
    let tid := int_to_id i in
    w ← waiting_on thread_of_addr tid;
    if bool_decide (w = Some (a_tid c)) then
      t ← thread_at tid; p ← derefM (th_pending t); pa ← act_at p;
      if is_lock pa then scheduler_wake tid else mret tt
    else mret tt) (seq 0 (get_num_threads s)) ;;
  state ← mutex_at (get_mutex c);
  store_mutex (get_mutex c) (mkMutexState None (ms_alloc_tid state) (ms_alloc_clock state)) ;;
  if negb (is_wait c) then mret false
  else
    n ← get_node_of curr; node ← Node_at n;
    if (get_misc node =? 0)%Z then
      s ← get;
      l ← get_safe_ptr_action (x_condvar_waiters_map s) (a_location c);
      modify (put_condvar_waiters_map (<[a_location c := l ++ [curr]]> (x_condvar_waiters_map s))) ;;
      scheduler_sleep (a_tid c) ;; mret false
    else mret false.

Definition process_mutex (curr : ptr) : exec bool :=
  c ← act_at curr;
  match a_type c with
  | ATOMIC_TRYLOCK =>
      state ← mutex_at (get_mutex c);
      let success := bool_decide (ms_locked state = None) in
      upd_act curr (set_try_lock success) ;;
      t ← thread_at (a_tid c);
      if negb success then store_thread (a_tid c) (set_return_value 0 t) ;; mret false
      else store_thread (a_tid c) (set_return_value 1 t) ;; process_lock curr
  | ATOMIC_LOCK => process_lock curr
  | ATOMIC_WAIT | ATOMIC_UNLOCK => process_unlock curr
  | ATOMIC_NOTIFY_ALL =>
      s ← get;
      waiters ← get_safe_ptr_action (x_condvar_waiters_map s) (a_location c);
      for_each (λ p, w ← act_at p; scheduler_wake (a_tid w)) waiters ;;
      modify (λ s, put_condvar_waiters_map (<[a_location c := []]> (x_condvar_waiters_map s)) s) ;;
      mret false
  | ATOMIC_NOTIFY_ONE =>
      s ← get;
      waiters ← get_safe_ptr_action (x_condvar_waiters_map s) (a_location c);
      n ← get_node_of curr; node ← Node_at n;
      let wakeupthread := Z.to_nat (get_misc node) in
      p ← lift (at_index waiters wakeupthread);
      w ← act_at p;
      scheduler_wake (a_tid w) ;;
      modify (λ s, put_condvar_waiters_map (<[a_location c := delete wakeupthread waiters]> (x_condvar_waiters_map s)) s) ;;
      mret false
  | _ => lift (Err AssertFailed)
  end.

(** ** Writes *)

(** The readers a promise is resolved for, in order. *)
Fixpoint resolve_readers (write : ptr) (readers : list ptr) (work : list work_entry) : exec (list work_entry) :=
  match readers with
  | [] => mret work
  | read :: readers =>
      b ← read_from read write;
      work ← (if (b : bool) then propagate_clockvector read work else mret work);
      resolve_readers write readers work
  end.

Definition resolve_promise (write promise : ptr) (work : list work_entry) : exec (bool * list work_entry) :=
  pr ← prom_at promise;
  work ← resolve_readers write (p_readers pr) work;
  s ← get;
  w ← act_at write; pr ← prom_at promise;
  compatible ← lift (is_compatible (x_acts s) pr w);
  same ← (if (compatible : bool) then lift (same_value pr w) else mret false);
  assertM ((compatible : bool) && same) ;;
  ok ← on_graph (resolvePromise (x_acts s) (x_proms s) promise write);
  (if (ok : bool) then mret tt else modify (put_hard_failed_promise true)) ;;
  for_each (λ r, mo_check_promises r true) (p_readers pr) ;;
  mret (true, work).

(** The pending future values, from the last one; [kept] are those that must wait. *)
Fixpoint flush_futurevalues (l kept : list (ptr * ptr)) : exec (list (ptr * ptr)) :=
  match l with
  | [] => mret kept
  | (writer, reader) :: l =>
      ok ← promises_may_allow writer reader;
      if (ok : bool) then exec_add_future_value params writer reader ;; flush_futurevalues l kept
      else flush_futurevalues l ((writer, reader) :: kept)
  end.

Definition process_write (curr : ptr) (work : list work_entry) : exec (bool * list work_entry) :=
  '(updated_mod_order, send_fv) ← w_modification_order params curr (Some []);
  promise ← pop_promise_to_resolve curr;
  '(earliest, updated_promises, work) ←
    match promise with
    | Some p =>
        pr ← prom_at p;
        let earliest := get_reader pr 0 in
        '(u, work) ← resolve_promise curr p work;
        mret (earliest, u, work)
    | None => mret (None, false, work)
    end;
  for_each (λ read,
    early ← match earliest with None => mret true | Some e => before read e end;
    if (early : bool) then
      ok ← promises_may_allow curr read;
      if (ok : bool) then exec_add_future_value params curr read
      else modify (λ s, put_futurevalues (x_futurevalues s ++ [(curr, read)]) s)
    else mret tt) (default [] send_fv) ;;
  s ← get;
  kept ← flush_futurevalues (rev (x_futurevalues s)) [];
  modify (put_futurevalues kept) ;;
  mo_commitChanges ;;
  mo_check_promises curr false ;;
  c ← act_at curr;
  t ← thread_at (a_tid c);
  store_thread (a_tid c) (set_return_value VALUE_NONE t) ;;
  mret (updated_mod_order || updated_promises, work).

(** ** Fences *)

(** One earlier action of the trace for a fence-acquire. *)
Definition fence_step (curr p : ptr) (updated : bool) : exec (bool * bool) :=
  act ← act_at p; c ← act_at curr;
  if bool_decide (p = curr) then mret (updated, false)
  else if negb (bool_decide (a_tid act = a_tid c)) then mret (updated, false)
  else if is_thread_start act then mret (updated, true)
  else if is_fence act && is_acquire act then mret (updated, true)
  else if negb (is_read act) then mret (updated, false)
  else if is_acquire act then mret (updated, false)
  else
    heads ← get_release_seq_heads curr p;
    for_each (λ h, synchronize h curr ;; mret tt) heads ;;
    mret (updated || negb (bool_decide (length heads = 0)), false).

Definition process_fence (curr : ptr) : exec bool :=
  c ← act_at curr;
  if is_acquire c then s ← get; loop (fence_step curr) (rev (x_action_trace s)) false
  else mret false.

(** ** Threads *)

Definition process_thread_action (curr : ptr) : exec bool :=
  c ← act_at curr;
  match a_type c with
  | THREAD_CREATE =>
      tid ← get_next_id;
      modify (λ s, put_thrds (<[a_location c := tid]> (x_thrds s)) s) ;;
      add_Thread tid (new_Thread (Some (a_tid c))) ;;
      t ← thread_at tid;
      store_thread tid (set_creation curr t) ;;
      s ← get;
      for_each (λ p, pr ← prom_at p;
                     if thread_is_available pr (a_tid c) then store_prom p (add_thread tid pr) else mret tt)
        (x_promises s) ;;
      mret false
  | THREAD_JOIN =>
      blocking ← get_thread_operand thread_of_addr c;
      blocking ← derefM blocking;
      s ← get;
      act ← derefM (get_last_action s blocking);
      synchronize act curr ;; mret true
  | THREAD_FINISH =>
      s ← get;
      for_each (λ i,
        let tid := int_to_id i in
        w ← waiting_on thread_of_addr tid;
        if bool_decide (w = Some (a_tid c)) then
          t ← thread_at tid; p ← derefM (th_pending t); pa ← act_at p;
          if is_thread_join pa then scheduler_wake tid else mret tt
        else mret tt) (seq 0 (get_num_threads s)) ;;
      t ← thread_at (a_tid c);
      t ← lift (complete t);
      store_thread (a_tid c) t ;;
      s ← get;
      for_each (λ p, pr ← prom_at p;
                     if thread_is_available pr (a_tid c) then
                       let '(pr, failed) := eliminate_thread (a_tid c) pr in
                       store_prom p pr ;;
                       if (failed : bool) then modify (put_failed_promise true) else mret tt
                     else mret tt) (x_promises s) ;;
      mret true
  | THREAD_START => check_promises (a_tid c) None (a_cv c) ;; mret false
  | _ => mret false
  end.

(** ** Release sequence fixups *)

Definition process_relseq_fixup (curr : ptr) (work : list work_entry) : exec (list work_entry) :=
  n ← get_node_of curr; node ← Node_at n;
  write ← lift (get_relseq_break node);
  s ← get;
  sq ← derefM (last (x_pending_rel_seqs s));
  modify (put_pending_rel_seqs (removelast (x_pending_rel_seqs s))) ;;
  release ← lift (match rs_release sq with Some r => Ok r | None => Err AssertFailed end);
  rf ← lift (match rs_rf sq with Some r => Ok r | None => Err AssertFailed end);
  rel ← act_at release; rfa ← act_at rf;
  assertM (same_thread rel rfa) ;;
  match write with
  | None =>
      b ← synchronize release (rs_acquire sq);
      if negb b then mret work
      else work ← propagate_clockvector (rs_acquire sq) work; checkDataRaces ;; mret work
  | Some w =>
      mo_addEdge (OAct release) (OAct w) ;;
      mo_addEdge (OAct w) (OAct rf) ;;
      checkDataRaces ;; mret work
  end.

(** ** The current action *)

(** [ModelExecution::process_rmw]: close the pending read part. *)
Definition process_rmw (act : ptr) : exec ptr :=
  a ← act_at act;
  s ← get;
  lastread ← derefM (get_last_action s (a_tid a));
  upd_act lastread (act_process_rmw a) ;;
  (if is_rmw a then
     lr ← act_at lastread;
     from ← match a_reads_from lr with
            | Some w => mret (OAct w)
            | None =>
                (* addRMWEdge asserts that the promise is not NULL *)
                p ← lift (match a_reads_from_promise lr with Some p => Ok p | None => Err AssertFailed end);
                mret (OProm p)
            end;
     on_graph (λ g, g ← addRMWEdge from lastread g; Ok (g, tt)) ;;
     mo_commitChanges
   else mret tt) ;;
  mret lastread.

Definition compute_cv (p : ptr) : exec unit :=
  a ← act_at p;
  parent ← get_parent_action (a_tid a);
  pa ← match parent with None => mret None | Some q => x ← act_at q; mret (Some x) end;
  upd_act p (create_cv pa).

(** [initialize_curr_action]: the action that is really executed, and whether it is new. *)
Definition initialize_curr_action (curr : ptr) : exec (ptr * bool) :=
  c ← act_at curr;
  if is_rmwc c || is_rmw c then
    newcurr ← process_rmw curr;
    delete_act curr ;;
    a ← act_at newcurr;
    (if is_rmw a then compute_promises newcurr else mret tt) ;;
    mret (newcurr, false)
  else
    n ← get_next_seq_num;
    on_act curr (λ c, c ← set_seq_number n c; Ok (c, tt)) ;;
    c ← act_at curr;
    s ← get;
    '(ns, acts, recorded) ← lift (explore_action params (get_num_threads s) curr
        (match sc_enabled (x_sched s) with [] => None | e => Some e end) (x_acts s) (x_stack s));
    modify (λ s, put_acts acts (put_stack ns s)) ;;
    match recorded with
    | Some newcurr =>
        (if is_rmwr c then upd_act newcurr (copy_typeandorder c) else mret tt) ;;
        a ← act_at newcurr;
        assertM (a_location c =? a_location a)%N ;;
        upd_act newcurr (copy_from_new c) ;;
        delete_act curr ;;
        compute_cv newcurr ;;
        mret (newcurr, false)
    | None =>
        compute_cv curr ;;
        s ← get;
        upd_act curr (set_last_fence_release (get_last_fence_release s (a_tid c))) ;;
        (if is_write c then compute_promises curr
         else if is_relseq_fixup c then compute_relseq_breakwrites curr
         else if is_wait c then
           nd ← get_node_of curr; node ← Node_at nd; store_node nd (set_misc_max 2 node)
         else if is_notify_one c then
           nd ← get_node_of curr; node ← Node_at nd;
           s ← get;
           l ← get_safe_ptr_action (x_condvar_waiters_map s) (a_location c);
           store_node nd (set_misc_max (Z.of_nat (length l)) node)
         else mret tt) ;;
        mret (curr, true)
    end.

Definition check_action_enabled (curr : ptr) : exec bool :=
  c ← act_at curr;
  if is_lock c then
    m ← mutex_at (get_mutex c);
    mret (bool_decide (ms_locked m = None))
  else if is_thread_join c then
    blocking ← get_thread_operand thread_of_addr c;
    blocking ← derefM blocking;
    t ← thread_at blocking;
    if negb (is_complete t) then thread_blocking_check_promises blocking (a_tid c) ;; mret false
    else mret true
  else mret (negb (yieldblock params && is_yield c)).

(** The first work item of a step: run the handlers that apply to the action. *)
Definition work_check_curr (curr act : ptr) (second_part_of_rmw : bool) (work : list work_entry)
    : exec (list work_entry) :=
  all1 ← process_thread_action curr;
  a ← act_at act;
  upd1 ← (if is_read a && negb second_part_of_rmw then process_read act else mret false);
  a ← act_at act;
  '(upd2, work) ← (if is_write a then process_write act work else mret (false, work));
  all2 ← (if is_fence a then process_fence act else mret false);
  all3 ← (if is_mutex_op a then process_mutex act else mret false);
  work ← (if is_relseq_fixup a then process_relseq_fixup curr work else mret work);
  mret (if (all1 : bool) || all2 || all3 then work ++ [WORK_CHECK_RELEASE_SEQ 0]
        else if (upd1 : bool) || upd2 then work ++ [WORK_CHECK_RELEASE_SEQ (a_location a)]
        else work).

(** Re-check an action whose clock vector changed for new modification-order edges. *)
Definition work_check_mo (act : ptr) (work : list work_entry) : exec (list work_entry) :=
  a ← act_at act;
  updated ← (if is_read a then
    match a_reads_from a with
    | Some rf =>
        u ← r_modification_order act (OAct rf);
        (if is_seqcst a then
           lw ← get_last_seq_cst_write act;
           match lw with
           | Some w => h ← hb rf w; if (h : bool) then set_bad_sc_read else mret tt
           | None => mret tt
           end
         else mret tt) ;;
        mret u
    | None =>
        match a_reads_from_promise a with
        | Some p => r_modification_order act (OProm p)
        | None => mret false
        end
    end
    else mret false);
  updated2 ← (if is_write a then '(u, _) ← w_modification_order params act None; mret u else mret false);
  mo_commitChanges ;;
  mret (if (updated : bool) || updated2 then work ++ [WORK_CHECK_RELEASE_SEQ (a_location a)] else work).

(** The loop over the work queue. *)
Fixpoint work_loop (fuel : nat) (curr : ptr) (second_part_of_rmw : bool) (work : list work_entry) : exec unit :=
  s ← get;
  if has_asserted s then mret tt
  else
    match work with
    | [] => mret tt
    | w :: work =>
        match fuel with
        | O => lift (Err OutOfFuel)
        | S fuel =>
            work ← match w with
                   | WORK_CHECK_CURR_ACTION act => work_check_curr curr act second_part_of_rmw work
                   | WORK_CHECK_RELEASE_SEQ location =>
                       '(_, work) ← resolve_release_sequences location work; mret work
                   | WORK_CHECK_MO_EDGES act => work_check_mo act work
                   end;
            work_loop fuel curr second_part_of_rmw work
        end
    end.

(** [check_current_action]; [fuel] bounds the work queue. *)
Definition check_current_action (fuel : nat) (curr : ptr) : exec ptr :=
  c ← act_at curr;
  let second_part_of_rmw := is_rmwc c || is_rmw c in
  '(curr, newly_explored) ← initialize_curr_action curr;
  wake_up_sleeping_actions curr ;;
  (if yieldon params then
     n ← get_node_of curr; node ← Node_at n; s ← get;
     node ← lift (update_yield (sc_is_enabled (x_sched s)) (ns_nodes (x_stack s)) (x_acts s) node);
     store_node n node
   else mret tt) ;;
  (if negb second_part_of_rmw then add_action_to_lists curr else mret tt) ;;
  a ← act_at curr;
  (if (newly_explored : bool) && is_read a then build_may_read_from curr else mret tt) ;;
  work_loop fuel curr second_part_of_rmw [WORK_CHECK_CURR_ACTION curr] ;;
  check_curr_backtracking curr ;;
  set_backtracking params curr ;;
  mret curr.

Definition action_select_next_thread (curr : ptr) : exec (option thread_id_t) :=
  c ← act_at curr;
  if is_rmwr c then mret (Some (a_tid c))
  else if is_type c THREAD_CREATE then get_thread_operand thread_of_addr c
  else mret None.

(** [take_step]: run one action and say which thread must run next, if any. *)
Definition take_step (fuel : nat) (curr : ptr) : exec (option thread_id_t) :=
  c ← act_at curr;
  let curr_thrd := a_tid c in
  t ← thread_at curr_thrd;
  assertM (bool_decide (th_state t = THREAD_READY)) ;;
  en ← check_action_enabled curr;
  assertM en ;;
  curr ← check_current_action fuel curr;
  t ← thread_at curr_thrd;
  (if is_blocked t || is_complete t then scheduler_remove_thread curr_thrd else mret tt) ;;
  action_select_next_thread curr.

(** One round of [fixup_release_sequences]: a fixup action of the model-checker thread. *)
Definition fixup_release_sequences_step (fuel : nat) : exec bool :=
  s ← get;
  if negb (bool_decide (length (x_pending_rel_seqs s) = 0)) && is_feasible_prefix_ignore_relseq s && haveUnrealizedRaces s then
    a ← lift (new_ModelAction MODEL_FIXUP_RELSEQ memory_order_seq_cst 0 VALUE_NONE 0);
    p ← new_act a;
    take_step fuel p ;; mret true
  else mret false.
End step.
