(* ===== verification/Evolution.v ===== *)
(** * How a step may change the state

    A relational logic for the monad of ExecState: [preserves R m] says that every
    successful run of [m] relates its first and last state by the preorder [R]. It is
    used with three relations. [keeps f] holds along a computation that leaves one component
    of the state alone. [evolves] holds along everything the work queue does:
    clock vectors only grow, so happens-before is never retracted, infeasibility flags
    and bug reports stay, and the lists of past actions are not touched. [graph_only]
    holds along [r_modification_order], which changes nothing but the graph, and there
    only by adding edges. *)

From S2P Require Import Prelude ClockVector Action HashTable Promise CycleGraph NodeStack Schedule DataRace ExecState ModOrder Step.

(** ** The logic *)

Definition preserves {A} (R : relation Exec) (m : exec A) : Prop :=
  ∀ s s' a, m s = Ok (s', a) → R s s'.

Section preserves.
Context (R : relation Exec) `{!PreOrder R}.

Lemma preserves_ret {A} (a : A) : preserves R (mret a).
Proof. intros s s' a' [= <- _]. done. Qed.

Lemma preserves_bind {A B} (m : exec A) (k : A → exec B) :
  preserves R m → (∀ a, preserves R (k a)) → preserves R (m ≫= k).
Proof.
  intros Hm Hk s s' b (s1 & a & H1 & H2)%exec_bind_Ok. etrans; [by eapply Hm|by eapply Hk].
Qed.

Lemma preserves_lift {A} (r : result A) : preserves R (lift r).
Proof. intros s s' a [-> _]%lift_Ok. done. Qed.

Lemma preserves_assertM b : preserves R (assertM b).
Proof. apply preserves_lift. Qed.

Lemma preserves_derefM {A} (o : option A) : preserves R (derefM o).
Proof. apply preserves_lift. Qed.

Lemma preserves_get : preserves R get.
Proof. intros s s' a [= <- _]. done. Qed.

Lemma preserves_gets {A} (f : Exec → A) : preserves R (gets f).
Proof. intros s s' a [= <- _]. done. Qed.

Lemma preserves_modify f : (∀ s, R s (f s)) → preserves R (modify f).
Proof. intros Hf s s' a [= <- _]. apply Hf. Qed.

Lemma preserves_for_each {A} (f : A → exec unit) l :
  (∀ x, preserves R (f x)) → preserves R (for_each f l).
Proof. intros Hf. induction l; cbn [for_each]; [apply preserves_ret|]. apply preserves_bind; auto. Qed.

Lemma preserves_loop {A S} (f : A → S → exec (S * bool)) l st :
  (∀ x st, preserves R (f x st)) → preserves R (loop f l st).
Proof.
  intros Hf. revert st. induction l as [|x l IH]; intros st; cbn [loop]; [apply preserves_ret|].
  apply preserves_bind; [done|]. intros [st' []]; [apply preserves_ret|done].
Qed.

Lemma preserves_search {A B} (f : A → exec (option B)) l :
  (∀ x, preserves R (f x)) → preserves R (search f l).
Proof.
  intros Hf. induction l as [|x l IH]; cbn [search]; [apply preserves_ret|].
  apply preserves_bind; [done|]. intros []; [apply preserves_ret|done].
Qed.
End preserves.

#[export] Hint Extern 1 (PreOrder _) => typeclasses eauto : cds.

(** [preserve] runs through the structure of a computation; what a named operation
    preserves is looked up in the hint database. *)
Ltac preserve_step :=
  first
    [ assumption
    | solve [auto with cds nocore]
    | lazymatch goal with
      | |- preserves _ (mbind _ _) => apply preserves_bind; [typeclasses eauto| |intros ?]
      | |- preserves _ (mret _) => apply preserves_ret; typeclasses eauto
      | |- preserves _ (lift _) => apply preserves_lift; typeclasses eauto
      | |- preserves _ (assertM _) => apply preserves_assertM; typeclasses eauto
      | |- preserves _ (derefM _) => apply preserves_derefM; typeclasses eauto
      | |- preserves _ get => apply preserves_get; typeclasses eauto
      | |- preserves _ (gets _) => apply preserves_gets; typeclasses eauto
      | |- preserves _ (for_each _ _) => apply preserves_for_each; [typeclasses eauto|intros ?]
      | |- preserves _ (loop _ _ _) => apply preserves_loop; [typeclasses eauto|intros ? ?]
      | |- preserves _ (search _ _) => apply preserves_search; [typeclasses eauto|intros ?]
      | |- preserves _ (match ?x with _ => _ end) => destruct x
      | |- preserves _ (let _ := _ in _) => cbv zeta
      end ].
Ltac preserve := repeat preserve_step.

(** The reading operations preserve every preorder. *)
Section readers.
Context (R : relation Exec) `{!PreOrder R}.

Lemma preserves_act_at p : preserves R (act_at p).
Proof. unfold act_at. preserve. Qed.
Lemma preserves_prom_at p : preserves R (prom_at p).
Proof. unfold prom_at. preserve. Qed.
Lemma preserves_Node_at p : preserves R (Node_at p).
Proof. unfold Node_at. preserve. Qed.
Lemma preserves_thread_at p : preserves R (thread_at p).
Proof. unfold thread_at. preserve. Qed.
Lemma preserves_mutex_at p : preserves R (mutex_at p).
Proof. unfold mutex_at. preserve. Qed.
Lemma preserves_table_get {A} loc (m : gmap N A) : preserves R (table_get loc m).
Proof. unfold table_get. preserve. Qed.
Lemma preserves_checkReachable a b : preserves R (mo_checkReachable a b).
Proof. unfold mo_checkReachable. preserve. Qed.
Lemma preserves_startChanges : preserves R mo_startChanges.
Proof. unfold mo_startChanges. preserve. Qed.
End readers.
#[export] Hint Resolve preserves_act_at preserves_prom_at preserves_Node_at preserves_thread_at
  preserves_mutex_at preserves_table_get preserves_checkReachable preserves_startChanges : cds.

Section readers2.
Context (R : relation Exec) `{!PreOrder R}.

Lemma preserves_get_node_of p : preserves R (get_node_of p).
Proof. unfold get_node_of. preserve. Qed.
Lemma preserves_hb a b : preserves R (hb a b).
Proof. unfold hb. preserve. Qed.
Lemma preserves_before a b : preserves R (before a b).
Proof. unfold before. preserve. Qed.
Lemma preserves_obj_list a : preserves R (obj_list a).
Proof. unfold obj_list. preserve. Qed.
Lemma preserves_obj_thrd_lists a : preserves R (obj_thrd_lists a).
Proof. unfold obj_thrd_lists. preserve. Qed.
Lemma preserves_get_safe a b : preserves R (get_safe_ptr_action a b).
Proof. unfold get_safe_ptr_action. preserve. Qed.
Lemma preserves_find_act f l : preserves R (find_act f l).
Proof. unfold find_act. preserve. Qed.
End readers2.
#[export] Hint Resolve preserves_get_node_of preserves_hb preserves_before preserves_obj_list
  preserves_obj_thrd_lists preserves_get_safe preserves_find_act : cds.

Section readers3.
Context (R : relation Exec) `{!PreOrder R} (params : model_params).

Lemma preserves_before_opt a f : preserves R (before_opt a f).
Proof. unfold before_opt. preserve. Qed.
Lemma preserves_last_sc_write c : preserves R (get_last_seq_cst_write c).
Proof. unfold get_last_seq_cst_write. preserve. Qed.
Lemma preserves_last_sc_fence t f : preserves R (get_last_seq_cst_fence t f).
Proof. unfold get_last_seq_cst_fence. preserve. Qed.
Lemma preserves_last_unlock c : preserves R (get_last_unlock c).
Proof. unfold get_last_unlock. preserve. Qed.
Lemma preserves_thread_operand f a : preserves R (get_thread_operand f a).
Proof. unfold get_thread_operand. preserve. Qed.
Lemma preserves_thin_air_walk n r w : preserves R (thin_air_walk n r w).
Proof. revert w. induction n; intros [w|]; cbn [thin_air_walk]; preserve. Qed.
Lemma preserves_write_after_read r l w : preserves R (write_after_read r l w).
Proof. revert w. induction l; intros w; cbn [write_after_read]; preserve. Qed.
Lemma preserves_ancestor_thread n m t : preserves R (ancestor_thread n m t).
Proof. revert t. induction n; intros t; cbn [ancestor_thread]; preserve. Qed.
Lemma preserves_read_between n r p t : preserves R (read_between n r p t).
Proof. revert t. induction n; intros t; cbn [read_between]; preserve. Qed.
Lemma preserves_own_list_after c : preserves R (own_list_after c).
Proof. unfold own_list_after. preserve. Qed.
Lemma preserves_may_read_from a o : preserves R (may_read_from a o).
Proof. unfold may_read_from. preserve. Qed.
Lemma preserves_rmw_heads n rf hs : preserves R (rmw_heads n rf hs).
Proof. revert rf hs. induction n; intros [rf|] hs; cbn [rmw_heads]; preserve. Qed.
Lemma preserves_relseq_thread r f l fo c w : preserves R (relseq_thread r f l fo c w).
Proof. revert fo c w. induction l; intros fo c w; cbn [relseq_thread]; preserve. Qed.
Lemma preserves_sleep_can_read_from n c w : preserves R (sleep_can_read_from n c w).
Proof. revert w. induction n; intros [w|]; cbn [sleep_can_read_from]; preserve. Qed.
End readers3.
#[export] Hint Resolve preserves_before_opt preserves_last_sc_write preserves_last_sc_fence
  preserves_last_unlock preserves_thread_operand preserves_thin_air_walk preserves_write_after_read
  preserves_ancestor_thread preserves_read_between preserves_own_list_after preserves_may_read_from
  preserves_rmw_heads preserves_relseq_thread preserves_sleep_can_read_from : cds.

Section readers4.
Context (R : relation Exec) `{!PreOrder R} (params : model_params).

Lemma preserves_waiting_on f t : preserves R (waiting_on f t).
Proof. unfold waiting_on. preserve. Qed.
Lemma preserves_thin_air w r : preserves R (thin_air_constraint_may_allow w r).
Proof. unfold thin_air_constraint_may_allow. preserve. Qed.
Lemma preserves_mo_may_allow w r : preserves R (mo_may_allow w r).
Proof. unfold mo_may_allow. preserve. Qed.
Lemma preserves_promises_may_allow w r : preserves R (promises_may_allow w r).
Proof. unfold promises_may_allow. preserve. Qed.
Lemma preserves_check_coherence w r : preserves R (check_coherence_promise w r).
Proof. unfold check_coherence_promise. preserve. Qed.
Lemma preserves_should_read_instead c a b : preserves R (should_read_instead params c a b).
Proof. unfold should_read_instead. preserve. Qed.
Lemma preserves_recency_ok l o i : preserves R (recency_ok l o i).
Proof. unfold recency_ok. preserve. Qed.
Lemma preserves_last_release f l : preserves R (last_release f l).
Proof. induction l; cbn [last_release]; preserve. Qed.
Lemma preserves_relseq_threads r f ils c w : preserves R (relseq_threads r f ils c w).
Proof. revert c w. induction ils as [|[i l] ils]; intros c w; cbn [relseq_threads]; preserve. Qed.
End readers4.
#[export] Hint Resolve preserves_waiting_on preserves_thin_air preserves_mo_may_allow
  preserves_promises_may_allow preserves_check_coherence preserves_should_read_instead
  preserves_recency_ok preserves_last_release preserves_relseq_threads : cds.

Section readers5.
Context (R : relation Exec) `{!PreOrder R} (params : model_params).

Lemma preserves_check_recency c o : preserves R (check_recency params c o).
Proof. unfold check_recency. preserve. Qed.
Lemma preserves_release_seq_heads rf pd : preserves R (release_seq_heads rf pd).
Proof. unfold release_seq_heads. preserve. Qed.
End readers5.
#[export] Hint Resolve preserves_check_recency preserves_release_seq_heads : cds.

(** ** [keeps] *)

(** A computation that leaves one component of the state alone. *)
Definition keeps {A} (f : Exec → A) (s s' : Exec) : Prop := f s' = f s.
#[global] Instance keeps_preorder {A} (f : Exec → A) : PreOrder (keeps f).
Proof. split; red; unfold keeps; congruence. Qed.

Ltac keep := preserve; by apply preserves_modify.

(** ** [evolves] *)

Definition cv_grows (c c' : option ClockVector) : Prop :=
  match c with
  | None => True
  | Some c => ∃ d, c' = Some d ∧ c ⊑cv d ∧ num_threads c ≤ num_threads d
  end.

(** An action may read from another store, change the outcome of its trylock and learn
    of more earlier actions; nothing else. *)
Record act_evolves (a b : ModelAction) : Prop := {
  ae_type : a_type b = a_type a;
  ae_order : a_order b = a_order a;
  ae_location : a_location b = a_location a;
  ae_tid : a_tid b = a_tid a;
  ae_node : a_node b = a_node a;
  ae_seq : a_seq_number b = a_seq_number a;
  ae_cv : cv_grows (a_cv a) (a_cv b)
}.

Record evolves (s s' : Exec) : Prop := {
  ev_acts : ∀ p a, x_acts s !! p = Some a → ∃ b, x_acts s' !! p = Some b ∧ act_evolves a b;
  ev_trace : x_action_trace s' = x_action_trace s;
  ev_obj_map : x_obj_map s' = x_obj_map s;
  ev_obj_thrd_map : x_obj_thrd_map s' = x_obj_thrd_map s;
  ev_last_action : x_thrd_last_action s' = x_thrd_last_action s;
  ev_used : x_used_sequence_numbers s' = x_used_sequence_numbers s;
  ev_bugs : x_bugs s `prefix_of` x_bugs s';
  ev_failed : x_failed_promise s = true → x_failed_promise s' = true;
  ev_hard_failed : x_hard_failed_promise s = true → x_hard_failed_promise s' = true;
  ev_too_many_reads : x_too_many_reads s = true → x_too_many_reads s' = true;
  ev_no_valid_reads : x_no_valid_reads s = true → x_no_valid_reads s' = true;
  ev_bad_sync : x_bad_synchronization s = true → x_bad_synchronization s' = true;
  ev_bad_sc : x_bad_sc_read s = true → x_bad_sc_read s' = true;
  ev_asserted : x_asserted s = true → x_asserted s' = true
}.

Lemma cv_grows_refl c : cv_grows c c.
Proof. destruct c; simpl; [|done]. eexists. split_and!; [done|reflexivity|lia]. Qed.

Lemma cv_grows_trans a b c : cv_grows a b → cv_grows b c → cv_grows a c.
Proof.
  destruct a as [a|]; [|done]. intros (d & -> & H1 & H2) (e & -> & H3 & H4).
  exists e. split_and!; [done|by etrans|lia].
Qed.

#[global] Instance act_evolves_preorder : PreOrder act_evolves.
Proof.
  split.
  - intros a. split; [done..|apply cv_grows_refl].
  - intros a b c [] []. split; [congruence..|by eapply cv_grows_trans].
Qed.

#[global] Instance evolves_preorder : PreOrder evolves.
Proof.
  split.
  - intros s. split; [|done..]. intros p a Ha. exists a. by split.
  - intros s t u [Ha ? ? ? ? ? ? ? ? ? ? ? ? ?] [Hb ? ? ? ? ? ? ? ? ? ? ? ? ?].
    split; [|solve [congruence | by etrans | auto]..].
    intros p a (b & H1 & H2)%Ha. destruct (Hb _ _ H1) as (c & ? & ?). exists c. split; [done|by etrans].
Qed.

(** A change of the fields [evolves] does not speak of. *)
Lemma evolves_frame s s' :
  x_acts s' = x_acts s → x_action_trace s' = x_action_trace s → x_obj_map s' = x_obj_map s →
  x_obj_thrd_map s' = x_obj_thrd_map s → x_thrd_last_action s' = x_thrd_last_action s →
  x_used_sequence_numbers s' = x_used_sequence_numbers s →
  x_bugs s `prefix_of` x_bugs s' →
  (x_failed_promise s = true → x_failed_promise s' = true) →
  (x_hard_failed_promise s = true → x_hard_failed_promise s' = true) →
  (x_too_many_reads s = true → x_too_many_reads s' = true) →
  (x_no_valid_reads s = true → x_no_valid_reads s' = true) →
  (x_bad_synchronization s = true → x_bad_synchronization s' = true) →
  (x_bad_sc_read s = true → x_bad_sc_read s' = true) →
  (x_asserted s = true → x_asserted s' = true) → evolves s s'.
Proof. intros Ha. intros. split; [|done..]. intros p a Hp. exists a. by rewrite Ha. Qed.

Ltac evolve_frame :=
  apply preserves_modify; intros ?; apply evolves_frame; solve [done | apply prefix_app_r; done].

Lemma evolves_insert s p a b :
  x_acts s !! p = Some a → act_evolves a b → evolves s (put_acts (<[p := b]> (x_acts s)) s).
Proof.
  intros Hp Hab. split; simpl; [|done..]. intros q c Hq.
  destruct (decide (q = p)) as [->|]; [rewrite lookup_insert_eq|rewrite lookup_insert_ne by done].
  - exists b. by simplify_eq.
  - by exists c.
Qed.

Lemma evolves_upd_act p f : (∀ a, act_evolves a (f a)) → preserves evolves (upd_act p f).
Proof. intros Hf s s' [] H. unfold upd_act, act_at in H. inv_exec. by eapply evolves_insert. Qed.

Lemma evolves_on_act {A} p (f : ModelAction → result (ModelAction * A)) :
  (∀ a b r, f a = Ok (b, r) → act_evolves a b) → preserves evolves (on_act p f).
Proof. intros Hf s s' r H. unfold on_act, act_at in H. inv_exec. eapply evolves_insert; eauto. Qed.

Lemma cv_merge_grows c c' : cv_grows (Some c) (Some (cv_merge c c').1).
Proof.
  eexists. split; [done|]. split.
  - intros t. rewrite getClock_merge. lia.
  - rewrite num_threads_merge. lia.
Qed.

Lemma synchronize_with_evolves a b b' r : synchronize_with a b = Ok (b', r) → act_evolves b b'.
Proof.
  unfold synchronize_with. destruct (act_lt b a); intros H; simplify_res; [done|].
  split; simpl; [done..|]. match goal with H : a_cv b = Some _ |- _ => rewrite H end. apply cv_merge_grows.
Qed.

Section evolution.
Context (params : model_params) (toa : N → option thread_id_t).

Lemma evolves_store_prom p x : preserves evolves (store_prom p x).
Proof. evolve_frame. Qed.
Lemma evolves_store_node p x : preserves evolves (store_node p x).
Proof. evolve_frame. Qed.
Lemma evolves_store_mutex l m : preserves evolves (store_mutex l m).
Proof. evolve_frame. Qed.
Lemma evolves_commit : preserves evolves mo_commitChanges.
Proof. evolve_frame. Qed.
Lemma evolves_rollback : preserves evolves mo_rollbackChanges.
Proof. evolve_frame. Qed.
Lemma evolves_put_graph g : preserves evolves (modify (put_mo_graph g)).
Proof. evolve_frame. Qed.
Lemma evolves_put_sched g : preserves evolves (modify (put_sched g)).
Proof. evolve_frame. Qed.
Lemma evolves_put_thread_map m : preserves evolves (modify (put_thread_map m)).
Proof. evolve_frame. Qed.
Lemma evolves_put_backtrack m : preserves evolves (modify (put_next_backtrack m)).
Proof. evolve_frame. Qed.
Lemma evolves_put_next_thread m : preserves evolves (modify (put_next_thread_id m)).
Proof. evolve_frame. Qed.
Lemma evolves_put_next_prom m : preserves evolves (modify (put_next_prom m)).
Proof. evolve_frame. Qed.
Lemma evolves_put_pending m : preserves evolves (modify (put_pending_rel_seqs m)).
Proof. evolve_frame. Qed.
Lemma evolves_put_waiters m : preserves evolves (modify (put_condvar_waiters_map m)).
Proof. evolve_frame. Qed.
Lemma evolves_put_futurevalues m : preserves evolves (modify (put_futurevalues m)).
Proof. evolve_frame. Qed.
Lemma evolves_put_races m : preserves evolves (modify (put_races m)).
Proof. evolve_frame. Qed.
Lemma evolves_put_failed : preserves evolves (modify (put_failed_promise true)).
Proof. evolve_frame. Qed.
Lemma evolves_put_hard_failed : preserves evolves (modify (put_hard_failed_promise true)).
Proof. evolve_frame. Qed.
Lemma evolves_put_too_many : preserves evolves (modify (put_too_many_reads true)).
Proof. evolve_frame. Qed.
Lemma evolves_set_assert : preserves evolves set_assert.
Proof. evolve_frame. Qed.
Lemma evolves_set_bad_sync : preserves evolves set_bad_synchronization.
Proof. evolve_frame. Qed.
Lemma evolves_set_bad_sc : preserves evolves set_bad_sc_read.
Proof. evolve_frame. Qed.
Lemma evolves_add_bug b : preserves evolves (modify (λ s, put_bugs (x_bugs s ++ [b]) s)).
Proof. evolve_frame. Qed.
End evolution.
#[export] Hint Resolve evolves_store_prom evolves_store_node evolves_store_mutex evolves_commit
  evolves_rollback evolves_put_graph evolves_put_sched evolves_put_thread_map evolves_put_backtrack
  evolves_put_next_thread evolves_put_next_prom evolves_put_pending evolves_put_waiters
  evolves_put_futurevalues evolves_put_races evolves_put_failed evolves_put_hard_failed
  evolves_put_too_many evolves_set_assert evolves_set_bad_sync evolves_set_bad_sc evolves_add_bug : cds.

(** Updates of the heap of actions, and the remaining updates of other fields, appear
    inside the operations: [evolve] tries them where [preserve] is stuck. *)
Ltac act_evolve :=
  intros; unfold set_read_from, set_read_from_promise in *; simplify_res;
  split; simpl; [done..|apply cv_grows_refl].
Ltac evolve :=
  preserve;
  repeat (first [ evolve_frame
                | apply evolves_on_act; solve [act_evolve]
                | apply evolves_upd_act; solve [act_evolve] ]; preserve).

Section evolution2.
Context (params : model_params) (toa : N → option thread_id_t).

Lemma evolves_on_graph {A} (f : CycleGraph → result (CycleGraph * A)) : preserves evolves (on_graph f).
Proof. unfold on_graph. evolve. Qed.
Lemma evolves_store_thread t x : preserves evolves (store_thread t x).
Proof. unfold store_thread. evolve. Qed.
Lemma evolves_get_next_id : preserves evolves get_next_id.
Proof. unfold get_next_id. evolve. Qed.
Lemma evolves_assert_bug b : preserves evolves (assert_bug b).
Proof. unfold assert_bug. evolve. Qed.
Lemma evolves_set_latest_backtrack p : preserves evolves (set_latest_backtrack p).
Proof. unfold set_latest_backtrack. evolve. Qed.
Lemma evolves_check_disabled : preserves evolves check_promises_thread_disabled.
Proof. unfold check_promises_thread_disabled. evolve. Qed.
Lemma evolves_check_promises t c c' : preserves evolves (check_promises t c c').
Proof. unfold check_promises. evolve. Qed.
Lemma evolves_checkPromise w p : preserves evolves (mo_checkPromise w p).
Proof. unfold mo_checkPromise. evolve. Qed.
Lemma evolves_pop_promise c : preserves evolves (pop_promise_to_resolve c).
Proof. unfold pop_promise_to_resolve. evolve. Qed.
Lemma evolves_get_release_seq_heads a r : preserves evolves (get_release_seq_heads a r).
Proof. unfold get_release_seq_heads. evolve. Qed.
End evolution2.
#[export] Hint Resolve evolves_on_graph evolves_store_thread evolves_get_next_id evolves_assert_bug
  evolves_set_latest_backtrack evolves_check_disabled evolves_check_promises evolves_checkPromise
  evolves_pop_promise evolves_get_release_seq_heads : cds.

Section evolution3.
Context (params : model_params) (toa : N → option thread_id_t).

Lemma evolves_synchronize a b : preserves evolves (synchronize a b).
Proof.
  unfold synchronize. evolve. apply evolves_on_act. intros c d r Hr. by eapply synchronize_with_evolves.
Qed.
Lemma evolves_addEdge a b : preserves evolves (mo_addEdge a b).
Proof. apply evolves_on_graph. Qed.
Lemma evolves_mo_check_promise a w p : preserves evolves (mo_check_promise a w p).
Proof. unfold mo_check_promise. evolve. Qed.
Lemma evolves_wake t : preserves evolves (scheduler_wake t).
Proof. unfold scheduler_wake. evolve. Qed.
Lemma evolves_sleep t : preserves evolves (scheduler_sleep t).
Proof. unfold scheduler_sleep. evolve. Qed.
Lemma evolves_add_Thread t x : preserves evolves (add_Thread t x).
Proof. unfold add_Thread. evolve. Qed.
Lemma evolves_exec_add_future_value w r : preserves evolves (exec_add_future_value params w r).
Proof. unfold exec_add_future_value. evolve. Qed.
Lemma evolves_checkDataRaces : preserves evolves checkDataRaces.
Proof. unfold checkDataRaces. evolve. Qed.
Lemma evolves_thread_return c : preserves evolves (set_thread_return c).
Proof. unfold set_thread_return. evolve. Qed.
End evolution3.
#[export] Hint Resolve evolves_synchronize evolves_addEdge evolves_mo_check_promise evolves_wake
  evolves_sleep evolves_add_Thread evolves_exec_add_future_value evolves_checkDataRaces
  evolves_thread_return : cds.

Section evolution4.
Context (params : model_params) (toa : N → option thread_id_t).

Lemma evolves_mo_check_promises a b : preserves evolves (mo_check_promises a b).
Proof. unfold mo_check_promises. evolve. Qed.
Lemma evolves_read_from a rf : preserves evolves (read_from a rf).
Proof. unfold read_from. evolve. Qed.
Lemma evolves_order_exclusive c o b : preserves evolves (order_exclusive_promises c o b).
Proof. unfold order_exclusive_promises. evolve. Qed.
Lemma evolves_r_mo_thread c rf f x b : preserves evolves (r_mo_thread c rf f x b).
Proof. unfold r_mo_thread, r_mo_step. evolve. Qed.
Lemma evolves_w_mo_thread c f x st : preserves evolves (w_mo_thread params c f x st).
Proof. unfold w_mo_thread, w_mo_step. evolve. Qed.
Lemma evolves_propagate_loop a l w : preserves evolves (propagate_loop a l w).
Proof. revert w. induction l; intros w; cbn [propagate_loop]; evolve. Qed.
Lemma evolves_process_lock c : preserves evolves (process_lock c).
Proof. unfold process_lock. evolve. Qed.
Lemma evolves_process_unlock c : preserves evolves (process_unlock toa c).
Proof. unfold process_unlock. evolve. Qed.
Lemma evolves_flush l k : preserves evolves (flush_futurevalues params l k).
Proof. revert k. induction l as [|[w r] l]; intros k; cbn [flush_futurevalues]; evolve. Qed.
Lemma evolves_fence_step c p u : preserves evolves (fence_step c p u).
Proof. unfold fence_step. evolve. Qed.
End evolution4.
#[export] Hint Resolve evolves_mo_check_promises evolves_read_from evolves_order_exclusive
  evolves_r_mo_thread evolves_w_mo_thread evolves_propagate_loop evolves_process_lock
  evolves_process_unlock evolves_flush evolves_fence_step : cds.

Section evolution5.
Context (params : model_params) (toa : N → option thread_id_t).

Lemma evolves_r_modification_order c rf : preserves evolves (r_modification_order c rf).
Proof. unfold r_modification_order. evolve. Qed.
Lemma evolves_w_modification_order c f : preserves evolves (w_modification_order params c f).
Proof. unfold w_modification_order. evolve. Qed.
Lemma evolves_propagate a w : preserves evolves (propagate_clockvector a w).
Proof. unfold propagate_clockvector. evolve. Qed.
Lemma evolves_process_fence c : preserves evolves (process_fence c).
Proof. unfold process_fence. evolve. Qed.
Lemma evolves_process_mutex c : preserves evolves (process_mutex toa c).
Proof. unfold process_mutex. evolve. Qed.
Lemma evolves_process_thread c : preserves evolves (process_thread_action toa c).
Proof. unfold process_thread_action. evolve. Qed.
End evolution5.
#[export] Hint Resolve evolves_r_modification_order evolves_w_modification_order evolves_propagate
  evolves_process_fence evolves_process_mutex evolves_process_thread : cds.

Section evolution6.
Context (params : model_params) (toa : N → option thread_id_t).

Lemma evolves_resolve_readers w l k : preserves evolves (resolve_readers w l k).
Proof. revert k. induction l; intros k; cbn [resolve_readers]; evolve. Qed.
Lemma evolves_resolve_loop l p k u w : preserves evolves (resolve_loop l p k u w).
Proof. revert k u w. induction p; intros k u w; cbn [resolve_loop]; evolve. Qed.
Lemma evolves_process_read_loop n c : preserves evolves (process_read_loop params n c).
Proof. induction n; cbn [process_read_loop]; evolve. Qed.
Lemma evolves_relseq_fixup c w : preserves evolves (process_relseq_fixup c w).
Proof. unfold process_relseq_fixup. evolve. Qed.
Lemma evolves_work_check_mo a w : preserves evolves (work_check_mo params a w).
Proof. unfold work_check_mo. evolve. Qed.
End evolution6.
#[export] Hint Resolve evolves_resolve_readers evolves_resolve_loop evolves_process_read_loop
  evolves_relseq_fixup evolves_work_check_mo : cds.

Section evolution7.
Context (params : model_params) (toa : N → option thread_id_t).

Lemma evolves_resolve_promise w p k : preserves evolves (resolve_promise w p k).
Proof. unfold resolve_promise. evolve. Qed.
Lemma evolves_resolve_release_sequences l w : preserves evolves (resolve_release_sequences l w).
Proof. unfold resolve_release_sequences. evolve. Qed.
Lemma evolves_process_read c : preserves evolves (process_read params c).
Proof. unfold process_read. evolve. Qed.
End evolution7.
#[export] Hint Resolve evolves_resolve_promise evolves_resolve_release_sequences evolves_process_read : cds.

Section evolution8.
Context (params : model_params) (toa : N → option thread_id_t).

Lemma evolves_process_write c w : preserves evolves (process_write params c w).
Proof. unfold process_write. evolve. Qed.
Lemma evolves_work_check_curr c a b w : preserves evolves (work_check_curr params toa c a b w).
Proof. unfold work_check_curr. evolve; apply evolves_process_write. Qed.
Lemma evolves_work_loop n c b w : preserves evolves (work_loop params toa n c b w).
Proof.
  revert w. induction n; intros w; cbn [work_loop]; evolve; apply evolves_work_check_curr.
Qed.
End evolution8.

(** ** [graph_only] *)

Definition edge_step (g g' : CycleGraph) : Prop := ∃ from to b, addEdge from to g = Ok (g', b).

(** Only the graph changes, by additions of edges. *)
Record graph_only (s s' : Exec) : Prop := {
  go_steps : rtc edge_step (x_mo_graph s) (x_mo_graph s');
  go_frame : s' = put_mo_graph (x_mo_graph s') s
}.

#[global] Instance graph_only_preorder : PreOrder graph_only.
Proof.
  split.
  - intros s. split; [done|by destruct s].
  - intros s t u [H1 H2] [H3 H4]. split; [by etrans|]. rewrite H4, H2. done.
Qed.

Lemma graph_only_addEdge a b : preserves graph_only (mo_addEdge a b).
Proof.
  intros s s' r H. unfold mo_addEdge, on_graph in H. inv_exec.
  split; [|done]. apply rtc_once. by exists a, b, r.
Qed.
#[export] Hint Resolve graph_only_addEdge : cds.

Lemma graph_only_r_modification_order c rf : preserves graph_only (r_modification_order c rf).
Proof. unfold r_modification_order, order_exclusive_promises, r_mo_thread, r_mo_step. preserve. Qed.
#[export] Hint Resolve graph_only_r_modification_order : cds.

Lemma edge_steps_since g0 g g' :
  rtc edge_step g g' → graph_wf g → since g0 g → cg_rmwrollbackvector g = [] →
  graph_wf g' ∧ since g0 g' ∧ cg_rmwrollbackvector g' = [].
Proof.
  induction 1 as [|g g1 g' (from & to & b & Hadd) _ IH]; intros Hwf Hsi Hnil; [done|].
  destruct (addEdge_spec from to g Hwf) as (h & g2 & S & n & n' & E & Hex & HL & _).
  assert (g2 = g1) as -> by congruence. apply IH.
  - by apply HL, Hex.
  - eapply since_logged; [|done]. by eapply since_extends.
  - by rewrite (lg_rmwvec _ _ _ HL), (ex_rmwvec _ _ Hex).
Qed.

(** ** Trial reads *)

(** A well-formed graph with no change pending. *)
Definition committed (g : CycleGraph) : Prop := graph_wf g ∧ startChanges g = Ok tt.

(** The choices of the current node and the end of the execution are all that a series
    of trial reads changes. *)
Record trial (s s' : Exec) : Prop := {
  tr_frame : s' = put_asserted (x_asserted s') (put_no_valid_reads (x_no_valid_reads s')
                    (put_stack (x_stack s') (put_mo_graph (x_mo_graph s') s)));
  tr_graph : committed (x_mo_graph s) →
    committed (x_mo_graph s') ∧ x_mo_graph s' ≡ x_mo_graph s ∧
    checkForCycles (x_mo_graph s') = checkForCycles (x_mo_graph s)
}.

#[global] Instance trial_preorder : PreOrder trial.
Proof.
  split.
  - intros s. split; [by destruct s|done].
  - intros s t u [H1 H2] [H3 H4]. split; [rewrite H3, H1; done|].
    intros (C1 & S1 & E1)%H2. destruct (H4 C1) as (C2 & S2 & E2).
    split; [done|]. split; [by etrans|congruence].
Qed.

Lemma trial_rollback s s1 :
  graph_only s s1 → startChanges (x_mo_graph s) = Ok tt →
  ∀ st, trial s (put_mo_graph (rollbackChanges (x_mo_graph s1)) (put_stack st s1)).
Proof.
  intros [Hsteps Hfr] Hst st. split; [rewrite Hfr; by destruct s|]. intros [Hwf _]. cbn [x_mo_graph put_mo_graph].
  pose proof Hst as (Hv & Hr & Ho)%startChanges_Ok.
  destruct (edge_steps_since (x_mo_graph s) _ _ Hsteps Hwf) as (Hwf' & Hsi & Hnil); [|done|].
  { by apply since_refl. }
  split; [split|].
  - by apply (rollback_wf (x_mo_graph s)).
  - by apply startChanges_Ok.
  - split; [by apply since_rollback|]. unfold checkForCycles. rewrite rollback_oldCycles, (si_old _ _ Hsi). done.
Qed.

Lemma trial_try_read_from c o f : preserves trial (try_read_from c o f).
Proof.
  intros s s' [] H. unfold try_read_from in H. inv_exec.
  match goal with H : mo_startChanges s = Ok _ |- _ => unfold mo_startChanges in H end. inv_exec.
  match goal with H : r_modification_order _ _ _ = Ok (?t, _) |- _ =>
    pose proof (graph_only_r_modification_order _ _ _ _ _ H) as Hgo; rename t into s1 end.
  match goal with H : mo_rollbackChanges ?t = _ |- _ => unfold mo_rollbackChanges in H; rename t into s2 end. inv_exec.
  assert (∃ st, s2 = put_stack st s1) as [st ->].
  { match goal with H : (if _ then _ else _) s1 = Ok (s2, _) |- _ => rename H into Hif end.
    case_match; unfold get_node_of, act_at, Node_at, store_node in Hif; inv_exec; [by eexists|].
    exists (x_stack s2). by destruct s2. }
  apply (trial_rollback _ s1); by repeat match goal with u : unit |- _ => destruct u end.
Qed.
#[export] Hint Resolve trial_try_read_from : cds.

Lemma trial_build_may_read_from c : preserves trial (build_may_read_from c).
Proof.
  unfold build_may_read_from, may_read_step. preserve.
  all: apply preserves_modify; intros s; split; [by destruct s|done].
Qed.
