(* ===== verification/Scenarios.v ===== *)
(** * Concrete executions

    Small user programs run through the model from the initial state of an execution.
    They supply the concrete states at which theorems with hypotheses are applied, and
    check on examples that the definitions compute what the checker computes. *)

From S2P Require Import Prelude ClockVector Action HashTable Promise CycleGraph NodeStack Schedule DataRace ExecState ModOrder Step.

(** A new execution with the thread of the user's main function, which gets id 1. *)
Definition boot : result Exec :=
  s ← new_Exec new_Scheduler new_NodeStack ∅ 1;
  match (tid ← get_next_id; add_Thread tid (new_Thread None)) s with Ok (s, _) => Ok s | Err f => Err f end.

(** Thread [tid] stops at an action and the checker lets it take that step. *)
Definition perform (tid : thread_id_t) (ty : action_type) (mo : memory_order) (loc value : N)
    : exec (option thread_id_t) :=
  a ← lift (new_ModelAction ty mo loc value tid);
  p ← new_act a;
  t ← thread_at tid;
  t ← lift (set_state THREAD_READY t);
  store_thread tid t ;;
  take_step default_params (λ l, Some (N.to_nat l)) 100 p.

Definition return_value (tid : thread_id_t) : exec N := t ← thread_at tid; mret (th_last_action_val t).

Definition run_from_boot {A} (m : exec A) : result (Exec * A) := s ← boot; m s.
Definition outcome {A} (m : exec A) : result A := r ← run_from_boot m; Ok r.2.

(** The state an execution has reached. *)
Definition blank_Exec : Exec :=
  mkExec ∅ 1 ∅ 1 new_Scheduler new_NodeStack [] [] ∅ ∅ ∅ [] [] [] [] [] new_CycleGraph
    0 0 None [] false false false false false false false ∅ ∅ [] ∅ ∅.
Definition state_after {A} (m : exec A) : Exec :=
  match run_from_boot m with Ok (s, _) => s | Err _ => blank_Exec end.

(** One thread: store 5 at [x], then load it with acquire. The actions are 1 (start),
    2 (store), 3 (the uninitialized value of [x]), 4 (load). *)
Definition store_then_load : exec (option thread_id_t) :=
  perform 1 THREAD_START memory_order_seq_cst 1 0 ;;
  perform 1 ATOMIC_WRITE memory_order_seq_cst 64 5 ;;
  perform 1 ATOMIC_READ memory_order_seq_cst 64 0.

Example load_sees_store : outcome (store_then_load ;; return_value 1) = Ok 5%N.
Proof. vm_compute. reflexivity. Qed.

(** Message passing: thread 1 writes the data and releases the flag, thread 2 acquires
    the flag (action 10 reads from the release 9). *)
Definition message_passing : exec (option thread_id_t) :=
  perform 1 THREAD_START memory_order_seq_cst 1 0 ;;
  perform 1 ATOMIC_WRITE memory_order_relaxed 64 0 ;;
  perform 1 ATOMIC_WRITE memory_order_relaxed 128 0 ;;
  perform 1 THREAD_CREATE memory_order_seq_cst 80 0 ;;
  perform 2 THREAD_START memory_order_seq_cst 2 0 ;;
  perform 1 ATOMIC_WRITE memory_order_relaxed 64 42 ;;
  perform 1 ATOMIC_WRITE memory_order_release 128 1 ;;
  perform 2 ATOMIC_READ memory_order_acquire 128 0.

(** Having acquired the flag, thread 2 can only see the data. *)
Example acquire_sees_data :
  outcome (message_passing ;; perform 2 ATOMIC_READ memory_order_relaxed 64 0 ;; return_value 2) = Ok 42%N.
Proof. vm_compute. reflexivity. Qed.

Example acquire_only_choice :
  outcome (message_passing ;; perform 2 ATOMIC_READ memory_order_relaxed 64 0 ;;
           n ← get_node_of 11; node ← Node_at n; mret (n_read_from_past node)) = Ok [8%positive].
Proof. vm_compute. reflexivity. Qed.

(** An atomic increment: the read part, then the write part, read back by a load. *)
Example increment_atomic :
  outcome (perform 1 THREAD_START memory_order_seq_cst 1 0 ;;
           perform 1 ATOMIC_WRITE memory_order_relaxed 64 5 ;;
           perform 1 ATOMIC_RMWR memory_order_acq_rel 64 0 ;;
           v ← return_value 1;
           perform 1 ATOMIC_RMW memory_order_acq_rel 64 (v + 1) ;;
           perform 1 ATOMIC_READ memory_order_relaxed 64 0 ;; return_value 1) = Ok 6%N.
Proof. vm_compute. reflexivity. Qed.

(** A mutex is created at address 200 and locked (action 2). *)
Definition lock_once : exec (option thread_id_t) :=
  perform 1 THREAD_START memory_order_seq_cst 1 0 ;;
  new_mutex 200 1 ;;
  perform 1 ATOMIC_LOCK memory_order_seq_cst 200 0.

(** The mutex is held by thread 1. *)
Example lock_holder : outcome (lock_once ;; m ← mutex_at 200; mret (ms_locked m)) = Ok (Some 1).
Proof. vm_compute. reflexivity. Qed.

(** Notifying a condition variable that nobody waits on stops the checker. *)
Example notify_one_no_waiter :
  outcome (perform 1 THREAD_START memory_order_seq_cst 1 0 ;;
           perform 1 ATOMIC_NOTIFY_ONE memory_order_seq_cst 300 0) = Err OutOfBounds.
Proof. vm_compute. reflexivity. Qed.
