(* ===== verification/Coherence.v ===== *)
(** * Coherence (execution.cc)

    The modification order of an object and happens-before must agree. Per thread,
    [r_modification_order] and [w_modification_order] only look at the most recent action
    that happens before the current one; this file shows that, since the earlier actions of a
    thread are ordered already, everything that happens before the current action is
    ordered before what it reads or writes. *)

From S2P Require Import Prelude ClockVector Action HashTable Promise CycleGraph NodeStack Schedule DataRace ExecState ModOrder Step Evolution Scenarios.

(** ** The order of the graph *)

(** [o] is [o'] or comes before it in the modification order. *)
Definition ordered (g : CycleGraph) (o o' : obj) : Prop := o = o' ∨ checkReachable g o o' = true.

Lemma checkReachable_nodes_of g o o' :
  checkReachable g o o' = true ↔ ∃ n n', getNode_noCreate g o = Some n ∧ getNode_noCreate g o' = Some n' ∧ reaches g n n'.
Proof.
  split.
  - intros H. destruct (getNode_noCreate g o) as [n|] eqn:E1; [|unfold checkReachable in H; by rewrite E1 in H].
    destruct (getNode_noCreate g o') as [n'|] eqn:E2; [|unfold checkReachable in H; by rewrite E1, E2 in H].
    exists n, n'. rewrite (checkReachable_spec _ _ _ n n') in H by done. done.
  - intros (n & n' & H1 & H2 & H). by rewrite (checkReachable_spec _ _ _ n n').
Qed.

Lemma ordered_trans g o1 o2 o3 : ordered g o1 o2 → ordered g o2 o3 → ordered g o1 o3.
Proof.
  intros [->|H12] [->|H23]; [by left|by right..|]. right. apply checkReachable_nodes_of in H12 as (n1 & n2 & E1 & E2 & H12).
  apply checkReachable_nodes_of in H23 as (n2' & n3 & E2' & E3 & H23). simplify_eq.
  apply checkReachable_nodes_of. exists n1, n3. split_and!; [done|done|]. by etrans.
Qed.

(** In a graph without cycles the order is strict. *)
Lemma ordered_acyclic g o o' :
  graph_wf g → acyclic g → ordered g o o' → o ≠ o' → checkReachable g o' o = false.
Proof.
  intros Hwf Hac [->|H] Hne; [done|]. apply checkReachable_nodes_of in H as (n & n' & E1 & E2 & H).
  destruct (checkReachable g o' o) eqn:E; [|done]. apply checkReachable_nodes_of in E as (m' & m & E2' & E1' & H').
  simplify_eq. destruct (decide (n = n')) as [->|Hn]; [destruct Hne; by eapply noCreate_inj|].
  apply rtc_tc in H as [->|H]; [done|]. destruct (Hac n). eapply tc_rtc_r; [exact H|exact H'].
Qed.

(** ** Operations that leave the actions alone and only add to the graph *)

Record grows (s s' : Exec) : Prop := {
  gr_acts : x_acts s' = x_acts s;
  gr_graph : mo_inv (x_mo_graph s) → mo_inv (x_mo_graph s') ∧
    ∀ o o', ordered (x_mo_graph s) o o' → ordered (x_mo_graph s') o o'
}.
#[global] Instance grows_preorder : PreOrder grows.
Proof.
  split; [by intros s; split|]. intros s t u [A1 G1] [A2 G2]. split; [congruence|]. intros (I1 & M1)%G1.
  destruct (G2 I1) as [I2 M2]. split; [done|]. auto.
Qed.

Lemma mo_addEdge_Ok a b s s' e :
  mo_addEdge a b s = Ok (s', e) → ∃ g', addEdge a b (x_mo_graph s) = Ok (g', e) ∧ s' = put_mo_graph g' s.
Proof.
  unfold mo_addEdge, on_graph, mbind, exec_bind, get, lift, modify, mret, exec_ret.
  destruct (addEdge a b (x_mo_graph s)) as [[g' e']|]; intros H; simplify_eq. by exists g'.
Qed.

Lemma mo_addEdge_ordered a b s s' e :
  mo_addEdge a b s = Ok (s', e) → mo_inv (x_mo_graph s) → ordered (x_mo_graph s') a b.
Proof.
  intros (g0 & Hadd & ->)%mo_addEdge_Ok Hinv.
  destruct (addEdge_spec a b (x_mo_graph s) (mi_wf _ Hinv)) as (g1 & g' & S & n & n' & Heq & Hex & HL & Hn & Hn' & He & _).
  rewrite Hadd in Heq. simplify_eq. simpl. right. apply checkReachable_nodes_of. exists n, n'. split_and!; [done|done|]. by apply rtc_once.
Qed.

Lemma grows_addEdge a b : preserves grows (mo_addEdge a b).
Proof.
  intros s s' e (g0 & Hadd & ->)%mo_addEdge_Ok. split; [done|]. simpl. intros Hinv.
  destruct (addEdge_spec a b (x_mo_graph s) (mi_wf _ Hinv)) as (g1 & g' & S & n & n' & Heq & Hex & HL & Hn & Hn' & He & Hat).
  rewrite Hadd in Heq. simplify_eq. pose proof (extends_inv _ _ Hex Hinv) as Hinv1. split.
  - eapply logged_inv; [done|done|]. apply Hat, Hinv1.
  - intros o o' [->|Ho]; [by left|right]. revert Ho. apply checkReachable_mono.
    + intros o1 n1 H1. rewrite (logged_noCreate _ _ _ _ HL). by apply Hex.
    + intros x y Hxy. apply (adds_mono _ _ _ (lg_adds _ _ _ HL)). by rewrite <- (ex_shape _ _ Hex).
Qed.
#[export] Hint Resolve grows_addEdge : cds.

Lemma grows_set_latest_backtrack a : preserves grows (set_latest_backtrack a).
Proof.
  unfold set_latest_backtrack. preserve. apply preserves_modify. by intros s; split.
Qed.
#[export] Hint Resolve grows_set_latest_backtrack : cds.

Lemma grows_store_node p x : preserves grows (store_node p x).
Proof. unfold store_node. apply preserves_modify. by intros s; split. Qed.
#[export] Hint Resolve grows_store_node : cds.
Lemma grows_exec_add_future_value params w r : preserves grows (exec_add_future_value params w r).
Proof. unfold exec_add_future_value. preserve. Qed.
#[export] Hint Resolve grows_exec_add_future_value : cds.
Lemma grows_order_exclusive c o b : preserves grows (order_exclusive_promises c o b).
Proof. unfold order_exclusive_promises. preserve. Qed.
Lemma grows_r_mo_step c rf f1 f2 f3 p b : preserves grows (r_mo_step c rf f1 f2 f3 p b).
Proof. unfold r_mo_step. preserve. Qed.
Lemma grows_w_mo_step params c f p st : preserves grows (w_mo_step params c f p st).
Proof. unfold w_mo_step. preserve. Qed.
#[export] Hint Resolve grows_r_mo_step grows_w_mo_step grows_order_exclusive : cds.
Lemma grows_r_mo_thread c rf f il b : preserves grows (r_mo_thread c rf f il b).
Proof. unfold r_mo_thread. preserve. Qed.
Lemma grows_w_mo_thread params c f il st : preserves grows (w_mo_thread params c f il st).
Proof. unfold w_mo_thread. preserve. Qed.
#[export] Hint Resolve grows_r_mo_thread grows_w_mo_thread : cds.

(** ** What an action stands for in the modification order *)

(** A write stands for itself, a read for what it reads from. *)
Definition mo_object (acts : gmap ptr ModelAction) (p : ptr) : option obj :=
  match acts !! p with
  | None => None
  | Some a =>
      if is_write a then Some (OAct p)
      else match a_reads_from a with Some w => Some (OAct w) | None => OProm <$> a_reads_from_promise a end
  end.
Definition happens (acts : gmap ptr ModelAction) (p q : ptr) : Prop :=
  ∃ a b, acts !! p = Some a ∧ acts !! q = Some b ∧ happens_before a b = Ok true.

Lemma hb_happens p q s s' b : hb p q s = Ok (s', b) → s' = s ∧ (b = true ↔ happens (x_acts s) p q).
Proof.
  unfold hb. intros H. inv_exec.
  repeat match goal with H : act_at _ _ = Ok _ |- _ => apply act_at_Ok in H as [-> ?] end. split; [done|]. split.
  - intros ->. eexists _, _. done.
  - intros (x & y & ? & ? & ?). congruence.
Qed.

Lemma before_opt_state p f s s' b : before_opt p f s = Ok (s', b) → s' = s.
Proof.
  unfold before_opt, before. destruct f; intros H; inv_exec; [|done].
  repeat match goal with H : act_at _ _ = Ok _ |- _ => apply act_at_Ok in H as [-> ?] end. done.
Qed.

Lemma mo_object_write acts p a : acts !! p = Some a → is_write a = true → mo_object acts p = Some (OAct p).
Proof. unfold mo_object. by intros -> ->. Qed.
Lemma mo_object_read acts p a w :
  acts !! p = Some a → is_write a = false → a_reads_from a = Some w → mo_object acts p = Some (OAct w).
Proof. unfold mo_object. by intros -> -> ->. Qed.
Lemma mo_object_promise acts p a w :
  acts !! p = Some a → is_write a = false → a_reads_from a = None → a_reads_from_promise a = Some w →
  mo_object acts p = Some (OProm w).
Proof. unfold mo_object. by intros -> -> -> ->. Qed.

Lemma cond_before_state (c : bool) p f s s' b : (if c then before_opt p f else mret false) s = Ok (s', b) → s' = s.
Proof. destruct c; [apply before_opt_state|]. intros H. by inv_exec. Qed.

(** ** One action *)

(** What a step of a scan that looks for constraints on [target] shows: where it stops, the
    action is ordered before [target]; what it passes does not happen before [curr]. *)
Definition step_shows (curr : ptr) (target : obj) (p : ptr) (stop : bool) (s s' : Exec) : Prop :=
  if stop then p ≠ curr ∧ ∃ o, mo_object (x_acts s) p = Some o ∧ ordered (x_mo_graph s') o target
  else p = curr ∨ ¬ happens (x_acts s) p curr.

Lemma step_shows_edge curr target p o s s1 e :
  p ≠ curr → mo_object (x_acts s) p = Some o → mo_inv (x_mo_graph s) → mo_addEdge o target s = Ok (s1, e) →
  step_shows curr target p true s s1.
Proof. intros Hp Ho Hinv He. split; [done|]. exists o. split; [done|]. by eapply mo_addEdge_ordered. Qed.

Ltac inv_act :=
  repeat match goal with
  | H : act_at _ _ = Ok _ |- _ => apply act_at_Ok in H as [-> ?]
  | H : (if _ then before_opt _ _ else mret false) _ = Ok _ |- _ => apply cond_before_state in H as ->
  | H : hb _ _ _ = Ok _ |- _ => apply hb_happens in H as [-> ?]
  end; simplify_eq.

Lemma r_mo_step_shows curr rf f1 f2 f3 p added s s' added' stop :
  r_mo_step curr rf f1 f2 f3 p added s = Ok (s', (added', stop)) → mo_inv (x_mo_graph s) →
  (∀ w, rf = OAct w → mo_object (x_acts s) w = Some rf) → step_shows curr rf p stop s s'.
Proof.
  unfold r_mo_step. intros H Hinv Hrf. case_bool_decide as Hc; [inv_exec; by left|].
  destruct (obj_is_act p rf) eqn:Er.
  { apply bool_decide_eq_true in Er. inv_exec. inv_act. destruct stop.
    - split; [done|]. exists (OAct p). split; [by apply Hrf|by left].
    - right. naive_solver. }
  apply exec_bind_Ok in H as (s1 & act & Hact & H). apply exec_bind_Ok in H as (s2 & c & Hcur & H).
  apply exec_bind_Ok in H as (s3 & b1 & Hb1 & H). apply exec_bind_Ok in H as (s4 & b2 & Hb2 & H).
  apply exec_bind_Ok in H as (s5 & b3 & Hb3 & H).
  assert (is_write act = false → b1 || b2 || b3 = false) as Hw.
  { intros E. rewrite E in Hb1, Hb2, Hb3. simpl in *. by inv_exec. }
  inv_act. destruct (b1 || b2 || b3) eqn:Eb.
  { destruct (is_write act) eqn:Ew; [|naive_solver]. inv_exec.
    eapply step_shows_edge; [done| |done|done]. by eapply mo_object_write. }
  apply exec_bind_Ok in H as (s6 & h & Hh & H). inv_act. destruct h; [|inv_exec; right; naive_solver].
  destruct (is_write act) eqn:Ew.
  { inv_exec. eapply step_shows_edge; [done| |done|done]. by eapply mo_object_write. }
  destruct (a_reads_from act) as [prevrf|] eqn:Erf.
  - assert (mo_object (x_acts s) p = Some (OAct prevrf)) as Ho by by eapply mo_object_read.
    destruct (obj_is_act prevrf rf) eqn:Eq; inv_exec; [|by eapply step_shows_edge].
    apply bool_decide_eq_true in Eq. split; [done|]. exists (OAct prevrf). split; [done|by left].
  - apply exec_bind_Ok in H as (s7 & pr & Hpr & H). inv_exec.
    match goal with E : a_reads_from_promise act = Some _ |- _ => rename E into Epr end.
    assert (mo_object (x_acts s) p = Some (OProm pr)) as Ho by by eapply mo_object_promise.
    destruct (obj_is_prom pr rf) eqn:Eq; inv_exec; [|by eapply step_shows_edge].
    apply bool_decide_eq_true in Eq. split; [done|]. exists (OProm pr). split; [done|by left].
Qed.

Lemma w_mo_step_shows params curr c f p st s s' st' stop :
  w_mo_step params curr f p st s = Ok (s', (st', stop)) → mo_inv (x_mo_graph s) →
  x_acts s !! curr = Some c → is_rmw c && bool_decide (is_Some (a_reads_from c)) = false →
  (∀ a, x_acts s !! p = Some a → is_write a = true ∨ is_read a = true) → step_shows curr (OAct curr) p stop s s'.
Proof.
  unfold w_mo_step. destruct st as [added send_fv]. intros H Hinv Hcur Hrmw Hkind.
  apply exec_bind_Ok in H as (s1 & c' & Hc' & H). inv_act.
  destruct (bool_decide (p = curr)) eqn:Hc; [apply bool_decide_eq_true in Hc; inv_exec; rewrite Hrmw; by left|apply bool_decide_eq_false in Hc].
  apply exec_bind_Ok in H as (s2 & act & Hact & H). apply exec_bind_Ok in H as (s3 & b & Hb & H).
  assert (is_write act = false → b = false) as Hw.
  { intros E. rewrite E in Hb. by inv_exec. }
  inv_act. destruct b.
  { destruct (is_write act) eqn:Ew; [|naive_solver]. inv_exec. eapply step_shows_edge; [done|by eapply mo_object_write|done|done]. }
  apply exec_bind_Ok in H as (s4 & h & Hh & H). inv_act. destruct h.
  - destruct (is_write act) eqn:Ew.
    { inv_exec. eapply step_shows_edge; [done|by eapply mo_object_write|done|done]. }
    destruct (is_read act) eqn:Erd; [|match goal with E : x_acts s !! p = Some act |- _ => destruct (Hkind act E) end; congruence].
    destruct (a_reads_from act) as [w|] eqn:Erf.
    + inv_exec. eapply step_shows_edge; [done|by eapply mo_object_read|done|done].
    + inv_exec. eapply step_shows_edge; [done|by eapply mo_object_promise|done|done].
  - assert (stop = false) as ->; [|right; naive_solver]. revert H.
    destruct (_ && _ && _); [|by intros; inv_exec]. destruct send_fv as [fv|]; [|by intros; inv_exec].
    intros H. apply exec_bind_Ok in H as (s5 & ok1 & _ & H). apply exec_bind_Ok in H as (s6 & ok2 & _ & H).
    destruct (negb ok2); [by inv_exec|]. apply exec_bind_Ok in H as (s7 & x & _ & H).
    destruct (negb _); [by inv_exec|]. destruct (_ && _ && _ && _); [|by inv_exec].
    apply exec_bind_Ok in H as (s8 & [] & _ & H). by inv_exec.
Qed.

(** ** The scan of a list, from its end *)

Section scan.
Context {S : Type} (f : ptr → S → exec (S * bool)) (curr : ptr) (target : obj) (acts0 : gmap ptr ModelAction).

(** Every action of [l] that happens before [curr] is at or before an action that is ordered
    before [target]. *)
Definition covered_by (l : list ptr) (acts : gmap ptr ModelAction) (g : CycleGraph) : Prop :=
  ∀ p, p ∈ l → p ≠ curr → happens acts p curr →
    ∃ l1 q l2 o, l = l1 ++ q :: l2 ∧ p ∈ l1 ++ [q] ∧ q ≠ curr ∧ mo_object acts q = Some o ∧ ordered g o target.

Lemma covered_by_grows l s s' :
  grows s s' → mo_inv (x_mo_graph s) → covered_by l (x_acts s) (x_mo_graph s) → covered_by l (x_acts s') (x_mo_graph s').
Proof.
  intros [Ha Hg] Hinv Hl p Hp Hne Hh. rewrite Ha in Hh |- *. destruct (Hl p Hp Hne Hh) as (l1 & q & l2 & o & ? & ? & ? & ? & Ho).
  exists l1, q, l2, o. split_and!; try done. by apply Hg.
Qed.

Lemma scan_covers k : ∀ st s s' st',
  (∀ p st, preserves grows (f p st)) →
  (∀ p st s s' st' stop, p ∈ k → f p st s = Ok (s', (st', stop)) → mo_inv (x_mo_graph s) → x_acts s = acts0 →
    step_shows curr target p stop s s') →
  mo_inv (x_mo_graph s) → x_acts s = acts0 → loop f k st s = Ok (s', st') → covered_by (rev k) (x_acts s') (x_mo_graph s').
Proof.
  induction k as [|q k IH]; intros st s s' st' Hgr Hstep Hinv Hacts Hrun; [by intros p Hp%elem_of_nil|].
  cbn [loop] in Hrun. apply exec_bind_Ok in Hrun as (s1 & [st1 stop] & Hf & Hrun).
  pose proof (Hgr _ _ _ _ _ Hf) as G. pose proof (Hstep q _ _ _ _ _ ltac:(left) Hf Hinv Hacts) as Hs.
  cbn [rev]. intros p Hp Hne Hh. apply elem_of_app in Hp. destruct stop.
  - inv_exec. destruct Hs as [Hq (o & Ho & Hord)]. exists (rev k), q, [], o.
    split_and!; [done|by apply elem_of_app|done|by rewrite (gr_acts _ _ G)|done].
  - assert (loop f k st1 s1 = Ok (s', st')) as Hrun' by exact Hrun.
    assert (grows s1 s') as G1 by (eapply (preserves_loop grows); [|exact Hrun']; done).
    assert (covered_by (rev k) (x_acts s') (x_mo_graph s')) as Hk.
    { eapply (IH st1 s1); [done| |by apply G|by rewrite (gr_acts _ _ G)|done]. intros p0 st0 s0 s0' st0' stop0 Hp0. apply Hstep. by right. }
    destruct Hp as [Hp|Hp].
    + destruct (Hk p Hp Hne Hh) as (l1 & q' & l2 & o & E & ? & ? & ? & ?). exists l1, q', (l2 ++ [q]), o.
      split_and!; try done. by rewrite E, <- app_assoc.
    + apply list_elem_of_singleton in Hp as ->. rewrite (gr_acts _ _ G1), (gr_acts _ _ G) in Hh. destruct Hs; done.
Qed.
End scan.

(** ** All threads *)

Lemma threads_covered {S} (f : nat * list ptr → S → exec (S * bool)) curr target acts k : ∀ st s s' st',
  (∀ x st, preserves grows (f x st)) →
  (∀ i l st s s' st' stop, (i, l) ∈ k → f (i, l) st s = Ok (s', (st', stop)) → mo_inv (x_mo_graph s) → x_acts s = acts →
    stop = false ∧ covered_by curr target l (x_acts s') (x_mo_graph s')) →
  mo_inv (x_mo_graph s) → x_acts s = acts → loop f k st s = Ok (s', st') →
  ∀ i l, (i, l) ∈ k → covered_by curr target l (x_acts s') (x_mo_graph s').
Proof.
  induction k as [|[j h] k IH]; intros st s s' st' Hgr Hf Hinv Hacts Hrun i l Hil; [by apply elem_of_nil in Hil|].
  cbn [loop] in Hrun. apply exec_bind_Ok in Hrun as (s1 & [st1 stop] & Hf1 & Hrun).
  destruct (Hf _ _ _ _ _ _ _ ltac:(left) Hf1 Hinv Hacts) as [-> Hcov]. pose proof (Hgr _ _ _ _ _ Hf1) as G.
  assert (loop f k st1 s1 = Ok (s', st')) as Hrun' by exact Hrun.
  assert (grows s1 s') as G1 by (eapply (preserves_loop grows); [|exact Hrun']; done).
  apply elem_of_cons in Hil as [[= -> ->]|Hil].
  - eapply covered_by_grows; [done|by apply G|done].
  - eapply (IH st1 s1); try done; [|by apply G|by rewrite (gr_acts _ _ G)].
    intros i' l' st0 s0 s0' st0' stop0 Hin. apply Hf. by right.
Qed.

Lemma elem_of_numbered {A} (l : list A) x : x ∈ l → ∃ i, (i, x) ∈ zip (seq 0 (length l)) l.
Proof.
  intros (i & Hi)%list_elem_of_lookup. exists i. apply list_elem_of_lookup. exists i. apply lookup_zip_with_Some.
  exists i, x. split_and!; [done| |done]. apply lookup_seq. apply lookup_lt_Some in Hi. lia.
Qed.

(** ** Reads and writes *)

(** In the lists of the threads, what an action stands for is ordered before what a later
    action of the same thread stands for, but for the action that is being placed. *)
Definition lists_ordered (curr : ptr) (lists : list (list ptr)) (s : Exec) : Prop :=
  ∀ l l1 q l2 p o o', l ∈ lists → l = l1 ++ q :: l2 → p ∈ l1 → p ≠ curr → q ≠ curr →
    mo_object (x_acts s) p = Some o → mo_object (x_acts s) q = Some o' → ordered (x_mo_graph s) o o'.

(** What happens before [curr] is ordered before [target], and [target] is not ordered
    before it unless there is a cycle. *)
Definition coherent_with (curr : ptr) (target : obj) (lists : list (list ptr)) (acts : gmap ptr ModelAction) (g : CycleGraph) : Prop :=
  ∀ l p o, l ∈ lists → p ∈ l → p ≠ curr → happens acts p curr → mo_object acts p = Some o →
    ordered g o target ∧ (checkForCycles g = false → o ≠ target → checkReachable g target o = false).

Lemma covered_coherent curr target lists s s' :
  grows s s' → mo_inv (x_mo_graph s) → lists_ordered curr lists s →
  (∀ l, l ∈ lists → covered_by curr target l (x_acts s') (x_mo_graph s')) →
  coherent_with curr target lists (x_acts s) (x_mo_graph s').
Proof.
  intros [Ha Hg] Hinv Hord Hcov l p o Hl Hp Hne Hh Ho. destruct (Hg Hinv) as [Hinv' Hmono].
  assert (ordered (x_mo_graph s') o target) as Hot.
  { destruct (Hcov l Hl p Hp Hne) as (l1 & q & l2 & o' & El & Hpq & Hq & Ho' & Hord'); [by rewrite Ha|]. rewrite Ha in Ho'.
    apply elem_of_app in Hpq as [Hpq|Hpq].
    - eapply ordered_trans; [|exact Hord']. apply Hmono. by eapply Hord.
    - apply list_elem_of_singleton in Hpq as ->. by simplify_eq. }
  split; [done|]. intros Hc Hdiff. apply ordered_acyclic; [apply Hinv'|by apply Hinv'|done|done].
Qed.

Lemma r_mo_thread_covers curr rf f i l b s s' b' stop :
  r_mo_thread curr rf f (i, l) b s = Ok (s', (b', stop)) → mo_inv (x_mo_graph s) →
  (∀ w, rf = OAct w → mo_object (x_acts s) w = Some rf) →
  stop = false ∧ covered_by curr rf l (x_acts s') (x_mo_graph s').
Proof.
  unfold r_mo_thread. intros H Hinv Hrf.
  apply exec_bind_Ok in H as (s1 & c & Hc & H). apply exec_bind_Ok in H as (s2 & f1 & Hf1 & H).
  apply exec_bind_Ok in H as (s3 & f2 & Hf2 & H). apply exec_bind_Ok in H as (s4 & b1 & Hloop & H). inv_exec. split; [done|].
  assert (grows s s3) as G.
  { etrans; [by eapply (preserves_act_at grows)|]. etrans.
    - refine ((_ : preserves grows _) _ _ _ Hf1). preserve.
    - refine ((_ : preserves grows _) _ _ _ Hf2). preserve. }
  rewrite <- (rev_involutive l). eapply (scan_covers _ curr rf (x_acts s)); [by intros; apply grows_r_mo_step| |by apply G|apply G|exact Hloop].
  intros p st t t' st' stop _ Hstep Hinv' Ea. eapply r_mo_step_shows; [exact Hstep|done|]. by rewrite Ea.
Qed.


Lemma w_mo_thread_covers params curr c f i l st s s' st' stop :
  w_mo_thread params curr f (i, l) st s = Ok (s', (st', stop)) → mo_inv (x_mo_graph s) →
  x_acts s !! curr = Some c → is_rmw c && bool_decide (is_Some (a_reads_from c)) = false →
  (∀ p a, p ∈ l → x_acts s !! p = Some a → is_write a = true ∨ is_read a = true) →
  stop = false ∧ covered_by curr (OAct curr) l (x_acts s') (x_mo_graph s').
Proof.
  unfold w_mo_thread. intros H Hinv Hcur Hrmw Hkind.
  apply exec_bind_Ok in H as (s1 & c' & Hc & H). apply exec_bind_Ok in H as (s2 & f1 & Hf1 & H).
  apply exec_bind_Ok in H as (s3 & b1 & Hloop & H). inv_exec. split; [done|].
  assert (grows s s2) as G.
  { etrans; [by eapply (preserves_act_at grows)|]. refine ((_ : preserves grows _) _ _ _ Hf1). preserve. }
  rewrite <- (rev_involutive l).
  eapply (scan_covers _ curr (OAct curr) (x_acts s)); [by intros; apply grows_w_mo_step| |by apply G|apply G|exact Hloop].
  intros p st0 t t' st0' stop Hp Hstep Hinv' Ea. eapply w_mo_step_shows; [exact Hstep|done|by rewrite Ea|done|].
  intros a. rewrite Ea. apply Hkind. by apply elem_of_rev.
Qed.


(** The order in the lists is restored with [curr]: if [curr] is the last action of its
    thread on the object and the earlier ones of its thread happen before it, then all
    actions of each thread are in order once [curr] stands for [target]. *)
Lemma lists_ordered_again curr target lists s s' acts' :
  lists_ordered curr lists s → grows s s' → mo_inv (x_mo_graph s) →
  coherent_with curr target lists (x_acts s) (x_mo_graph s') →
  (∀ l l1 l2, l ∈ lists → l = l1 ++ curr :: l2 → l2 = [] ∧ ∀ p, p ∈ l1 → p ≠ curr ∧ happens (x_acts s) p curr) →
  mo_object acts' curr = Some target → (∀ p, p ≠ curr → mo_object acts' p = mo_object (x_acts s) p) →
  ∀ l l1 q l2 p o o', l ∈ lists → l = l1 ++ q :: l2 → p ∈ l1 →
    mo_object acts' p = Some o → mo_object acts' q = Some o' → ordered (x_mo_graph s') o o'.
Proof.
  intros Hord [_ Hg] Hinv Hcoh Hlast Hcur Hsame l l1 q l2 p o o' Hl El Hp Ho Ho'. destruct (Hg Hinv) as [_ Hmono].
  destruct (decide (p = curr)) as [->|Hpc].
  - apply list_elem_of_split in Hp as (k1 & k2 & ->). rewrite <- app_assoc in El. simpl in El.
    destruct (Hlast l _ _ Hl El) as [[_ ?]%app_nil _]. done.
  - rewrite Hsame in Ho by done. destruct (decide (q = curr)) as [->|Hqc].
    + destruct (Hlast l l1 l2 Hl El) as [_ Hall]. destruct (Hall p Hp) as [_ Hh]. simplify_eq.
      eapply Hcoh; [exact Hl| |done|done|done]. apply elem_of_app. by left.
    + rewrite Hsame in Ho' by done. apply Hmono. by eapply Hord.
Qed.

(** ** A concrete state *)

(** Thread 1 has stored twice at location 64 (actions 1 and 2, in that order in the
    graph) and thread 0 once (action 4); thread 1 now reads (action 3) or stores (action 5). *)
Definition placed (ty : action_type) (tid : thread_id_t) (seq : modelclock_t) (cv : list modelclock_t) : ModelAction :=
  mkModelAction ty memory_order_relaxed memory_order_relaxed 64 tid 0 None None None None seq (Some (mkClockVector cv)) false.
Definition two_stores_graph : CycleGraph :=
  match addEdge (OAct 1) (OAct 2) new_CycleGraph with Ok (g, _) => g | Err _ => new_CycleGraph end.
Definition two_stores (curr : ptr) : Exec :=
  put_mo_graph two_stores_graph
    (put_obj_thrd_map {[ 64%N := [[4]; [1; 2; curr]]%positive ]}
      (put_acts (list_to_map [(1%positive, placed ATOMIC_WRITE 1 1 [0; 1]%N); (2%positive, placed ATOMIC_WRITE 1 2 [0; 2]%N);
                              (4%positive, placed ATOMIC_WRITE 0 3 [3]%N); (3%positive, placed ATOMIC_READ 1 4 [0; 4]%N);
                              (5%positive, placed ATOMIC_WRITE 1 4 [0; 4]%N)])
        (state_after (mret tt)))).

Lemma two_stores_inv curr : mo_inv (x_mo_graph (two_stores curr)).
Proof.
  assert (mo_inv new_CycleGraph) as H0
    by (split; [apply new_CycleGraph_wf|apply new_CycleGraph_atomic|intros _; apply new_CycleGraph_acyclic]).
  change (mo_inv two_stores_graph). unfold two_stores_graph.
  destruct (addEdge (OAct 1) (OAct 2) new_CycleGraph) as [[g b]|] eqn:E; [|done].
  assert (mo_addEdge (OAct 1) (OAct 2) blank_Exec = Ok (put_mo_graph g blank_Exec, b)) as Hm.
  { unfold mo_addEdge, on_graph, mbind, exec_bind, get, lift, modify, mret, exec_ret. change (x_mo_graph blank_Exec) with new_CycleGraph. by rewrite E. }
  destruct (grows_addEdge _ _ _ _ _ Hm) as [_ Hg]. by apply Hg.
Qed.

Lemma two_stores_ordered curr : curr = 3%positive ∨ curr = 5%positive →
  lists_ordered curr [[4]; [1; 2; curr]]%positive (two_stores curr).
Proof.
  intros Hcurr l l1 q l2 p o o' Hl El Hp Hpc Hqc Ho Ho'. apply list_elem_of_In in Hl, Hp.
  destruct Hl as [<-|[<-|[]]].
  - destruct l1 as [|? [|]]; [done|discriminate El..].
  - destruct l1 as [|x1 [|x2 [|x3 l1]]]; [done| | |destruct l1; discriminate El]; injection El as; simplify_eq.
    destruct Hp as [<-|[]]. destruct Hcurr as [-> | ->]; vm_compute in Ho, Ho'; simplify_eq; right; by vm_compute.
Qed.


