(* ===== verification/ActionLists.v ===== *)
(** * The lists of past actions (execution.cc)

    ModelExecution finds past actions through several indices: the trace, the actions on
    each object, those of each thread on each object, and the last action of each
    thread. [add_action_to_lists] maintains all of them; this file states what they have
    to do with one another and shows that adding an action keeps it so. *)

From S2P Require Import Prelude ClockVector Action HashTable Promise CycleGraph NodeStack Schedule DataRace ExecState ModOrder Step Evolution Scenarios.

(** ** Views *)

Definition tid_at (s : Exec) (p : ptr) : option thread_id_t := a_tid <$> x_acts s !! p.
(** The actions on an object, and those of a thread among them. *)
Definition olist (s : Exec) (loc : N) : list ptr := default [] (x_obj_map s !! loc).
Definition tview (m : gmap N (list (list ptr))) (loc : N) (t : nat) : list ptr :=
  default [] (default [] (m !! loc) !! t).
Definition tlist (s : Exec) (loc : N) (t : nat) : list ptr := tview (x_obj_thrd_map s) loc t.
(** The part of a list that belongs to a thread. *)
Definition of_thread (s : Exec) (t : nat) (l : list ptr) : list ptr := filter (λ p, tid_at s p = Some t) l.

(** The indices agree: the actions of a thread on an object are those of the object that
    belong to the thread, in the same order; every action of an object is in the trace;
    the last action of a user thread is its last one in the trace. *)
Record lists_wf (s : Exec) : Prop := {
  lw_threads : ∀ loc t, tlist s loc t = of_thread s t (olist s loc);
  lw_trace : ∀ loc p, p ∈ olist s loc → p ∈ x_action_trace s;
  lw_acts : ∀ p, p ∈ x_action_trace s → is_Some (tid_at s p);
  lw_last : ∀ t, t ≠ 0 → get_last_action s t = last (of_thread s t (x_action_trace s))
}.

(** ** Updates of the views *)

Lemma tview_insert m loc vec loc' t :
  tview (<[loc := vec]> m) loc' t = if decide (loc' = loc) then default [] (vec !! t) else tview m loc' t.
Proof.
  unfold tview. case_decide as E; [subst|]; [by rewrite lookup_insert_eq|by rewrite lookup_insert_ne].
Qed.

Lemma default_grow {A} n (d : A) (l : list A) (t : nat) : default d (grow n d l !! t) = default d (l !! t).
Proof.
  rewrite lookup_grow. repeat case_decide; try done; symmetry; by rewrite lookup_ge_None_2 by lia.
Qed.

Lemma get_safe_ptr_action_Ok m loc s s' l :
  get_safe_ptr_action m loc s = Ok (s', l) → s' = s ∧ l = default [] (m !! loc).
Proof. unfold get_safe_ptr_action, table_get. intros H. by inv_exec. Qed.

Lemma get_safe_ptr_vect_action_Ok m loc s s' l :
  get_safe_ptr_vect_action m loc s = Ok (s', l) → s' = s ∧ l = default [] (m !! loc).
Proof. unfold get_safe_ptr_vect_action, table_get. intros H. by inv_exec. Qed.

Lemma set_at_Ok {A} (d : A) i v l l' :
  set_at i v l = Ok l' → i < length l ∧ ∀ t, default d (l' !! t) = if decide (t = i) then v else default d (l !! t).
Proof.
  unfold set_at. destruct (Nat.ltb_spec i (length l)) as [Hi|]; [|done]. intros [= <-]. split; [done|].
  intros t. case_decide as E; [subst; by rewrite list_lookup_insert_eq|by rewrite list_lookup_insert_ne].
Qed.

Lemma set_last_Ok n i p l l' :
  set_last n i p l = Ok l' → ∀ t, default None (l' !! t) = if decide (t = i) then Some p else default None (l !! t).
Proof.
  unfold set_last. intros [_ H]%(set_at_Ok None) t. rewrite H. case_decide; [done|].
  destruct (length l <=? i); [apply default_grow|done].
Qed.

Lemma push_to_vect_Ok loc tid f s s' u :
  push_to_vect loc tid f s = Ok (s', u) →
  ∃ m, s' = put_obj_thrd_map m s ∧
    ∀ loc' t, tview m loc' t = if decide (loc' = loc ∧ t = tid) then f (tlist s loc tid) else tlist s loc' t.
Proof.
  unfold push_to_vect. intros (s1 & ? & [= <- <-] & H)%exec_bind_Ok.
  apply exec_bind_Ok in H as (s1 & vec & [-> Hvec]%get_safe_ptr_vect_action_Ok & H).
  set (v1 := if length vec <=? tid then _ else _) in H.
  apply exec_bind_Ok in H as (s1 & l & [-> Hl%at_index_Ok]%lift_Ok & H).
  apply exec_bind_Ok in H as (s1 & v2 & [-> [_ Hv2]%(set_at_Ok [])]%lift_Ok & [= <- _]).
  assert (∀ t, default [] (v1 !! t) = default [] (vec !! t)) as Hv.
  { intros t. unfold v1. destruct (length vec <=? tid); [apply default_grow|done]. }
  eexists. split; [done|]. intros loc' t. rewrite tview_insert. unfold tlist, tview at 1 2.
  destruct (decide (loc' = loc)) as [->|Hne]; [|rewrite decide_False by naive_solver; done].
  rewrite Hv2, <- Hvec, Hv. destruct (decide (t = tid)) as [->|Ht].
  - rewrite decide_True by done. by rewrite <- Hv, Hl.
  - rewrite decide_False by naive_solver. by rewrite Hvec.
Qed.

(** ** The action of the uninitialized value *)

(** Pointers to actions that are not yet allocated are unused, and the UNINIT actions
    kept in nodes belong to the model-checker thread. *)
Record heap_wf (s : Exec) : Prop := {
  hw_fresh : ∀ p, (x_next_act s ≤ p)%positive → x_acts s !! p = None;
  hw_uninit : ∀ n node u, ns_nodes (x_stack s) !! n = Some node → n_uninit_action node = Some u → tid_at s u = Some 0
}.

(** A step of the heap that leaves the indices alone and no action changes its thread. *)
Record same_lists (s s' : Exec) : Prop := {
  sl_obj : x_obj_map s' = x_obj_map s;
  sl_thrd : x_obj_thrd_map s' = x_obj_thrd_map s;
  sl_trace : x_action_trace s' = x_action_trace s;
  sl_last : x_thrd_last_action s' = x_thrd_last_action s;
  sl_tid : ∀ p t, tid_at s p = Some t → tid_at s' p = Some t
}.

Lemma upd_act_tid p f s s' u :
  (∀ a, a_tid (f a) = a_tid a) → upd_act p f s = Ok (s', u) →
  ∃ m, s' = put_acts m s ∧ dom m = dom (x_acts s) ∧ is_Some (m !! p) ∧ ∀ q, a_tid <$> m !! q = tid_at s q.
Proof.
  intros Hf. unfold upd_act. intros (s1 & a & [-> Ha]%act_at_Ok & [= <- _])%exec_bind_Ok.
  eexists. split; [done|]. split; [|split].
  - rewrite dom_insert_L. apply elem_of_dom_2 in Ha. set_solver.
  - by rewrite lookup_insert_eq.
  - intros q. unfold tid_at. destruct (decide (q = p)) as [->|Hne].
    + rewrite lookup_insert_eq, Ha. simpl. by rewrite Hf.
    + by rewrite lookup_insert_ne.
Qed.

Lemma new_act_wf a s s' u :
  heap_wf s → new_act a s = Ok (s', u) →
  heap_wf s' ∧ same_lists s s' ∧ x_stack s' = x_stack s ∧ x_acts s' !! u = Some a ∧ tid_at s u = None.
Proof.
  intros [Hf Hu]. unfold new_act. intros (s1 & ? & [= <- <-] & H)%exec_bind_Ok.
  apply exec_bind_Ok in H as (s1 & ? & [= <- _] & [= <- <-]).
  assert (tid_at s (x_next_act s) = None) as Hn. { unfold tid_at. by rewrite Hf by lia. }
  assert (∀ p t, tid_at s p = Some t → a_tid <$> (<[x_next_act s := a]> (x_acts s)) !! p = Some t) as Ht.
  { intros p t Hp. rewrite lookup_insert_ne; [done|]. intros <-. congruence. }
  split_and!; [| |done|apply lookup_insert_eq|done].
  - split; simpl; [|eauto]. intros p Hp. rewrite lookup_insert_ne by lia. apply Hf. lia.
  - done.
Qed.

Lemma get_uninitialized_action_wf params act s s' u :
  heap_wf s → get_uninitialized_action params act s = Ok (s', u) →
  heap_wf s' ∧ same_lists s s' ∧ tid_at s' u = Some 0.
Proof.
  intros Hwf. unfold get_uninitialized_action.
  intros (s1 & n & Hn & H)%exec_bind_Ok. apply (preserves_get_node_of eq) in Hn as <-.
  apply exec_bind_Ok in H as (s1 & node & [-> Hnode]%Node_at_Ok & H).
  apply exec_bind_Ok in H as (s1 & c & [-> Hc]%act_at_Ok & H).
  apply exec_bind_Ok in H as (s1 & v & Hv & H). apply exec_bind_Ok in H as (s2 & ? & Hup & [= <- <-]).
  assert (heap_wf s1 ∧ same_lists s s1 ∧ tid_at s1 v = Some 0) as (W1 & L1 & T1).
  { destruct (n_uninit_action node) as [u0|] eqn:Hu0.
    - injection Hv as <- <-. split; [done|]. split; [done|]. by eapply hw_uninit.
    - apply exec_bind_Ok in Hv as (t1 & a & [-> Ha]%lift_Ok & Hv).
      apply exec_bind_Ok in Hv as (t2 & w & Hnew & Hv).
      destruct (new_act_wf _ _ _ _ Hwf Hnew) as (W2 & L2 & Hst & Hw & _).
      apply exec_bind_Ok in Hv as (t3 & ? & [= <- _] & [= <- <-]).
      assert (tid_at t2 w = Some 0) as Tw.
      { unfold tid_at. rewrite Hw. unfold new_ModelAction in Ha. simplify_res. done. }
      split_and!; [|destruct L2; by split|done].
      destruct W2 as [F2 U2]. split; [done|]. simpl. intros n' node' u'.
      destruct (decide (n' = n)) as [->|Hne].
      + rewrite lookup_insert_eq. intros [= <-] [= <-]. done.
      + rewrite lookup_insert_ne by done. apply U2. }
  apply upd_act_tid in Hup as (m & -> & Hdom & Hv' & Hm); [|done].
  assert (∀ q, tid_at (put_acts m s1) q = tid_at s1 q) as Hq by done.
  destruct W1 as [F1 U1], L1 as [O1 M1 A1 B1 Q1]. split_and!.
  - split; [|intros; rewrite Hq; by eapply U1]. intros p Hp%F1. simpl.
    apply not_elem_of_dom. rewrite Hdom. by apply not_elem_of_dom.
  - split; try done. intros. rewrite Hq. by apply Q1.
  - by rewrite Hq.
Qed.

(** ** Adding an action *)

(** What an action adds to the list of an object: itself if it is on that object, and,
    for a wait, itself if the object is the mutex that the wait releases. *)
Definition added (a : ModelAction) (act : ptr) (loc : N) : list ptr :=
  (if decide (loc = a_location a) then [act] else []) ++
  (if decide (is_wait a = true ∧ loc = a_value a) then [act] else []).

(** The views after an action was added together with the UNINIT action [o], if any. *)
Record lists_added (a : ModelAction) (act : ptr) (o : option ptr) (s s' : Exec) : Prop := {
  la_tid : ∀ p t, tid_at s p = Some t → tid_at s' p = Some t;
  la_uninit : ∀ u, o = Some u → tid_at s' u = Some 0 ∧ olist s (a_location a) = [];
  la_trace : x_action_trace s' = option_list o ++ x_action_trace s ++ [act];
  la_obj : ∀ loc, olist s' loc =
    (if decide (loc = a_location a) then option_list o else []) ++ olist s loc ++ added a act loc;
  la_thrd : ∀ loc t, tlist s' loc t =
    (if decide (loc = a_location a ∧ t = 0) then option_list o else []) ++
    tlist s loc t ++ (if decide (t = a_tid a) then added a act loc else []);
  la_last : ∀ t, t ≠ 0 → get_last_action s' t = if decide (t = a_tid a) then Some act else get_last_action s t
}.

(** The part of [add_action_to_lists] for the object of the action. *)
Lemma uninit_lists params act a s s1 l o :
  heap_wf s → l = olist s (a_location a) →
  (if bool_decide (l = []) && is_atomic_var a
   then u ← get_uninitialized_action params act; mret (Some u) else mret None) s = Ok (s1, o) →
  heap_wf s1 ∧ same_lists s s1 ∧ (∀ u, o = Some u → tid_at s1 u = Some 0 ∧ olist s (a_location a) = []).
Proof.
  intros Hwf Hl. destruct (bool_decide (l = []) && is_atomic_var a) eqn:E.
  - apply andb_true_iff in E as [E%bool_decide_eq_true _].
    intros (s2 & u & Hu & [= <- <-])%exec_bind_Ok. apply get_uninitialized_action_wf in Hu as (W & L & T); [|done].
    split; [done|]. split; [done|]. intros u' [= <-]. split; [done|congruence].
  - intros [= <- <-]. split; [done|]. split; [done|]. done.
Qed.

Lemma heap_wf_indices s s' :
  x_acts s' = x_acts s → x_next_act s' = x_next_act s → x_stack s' = x_stack s → heap_wf s → heap_wf s'.
Proof.
  intros E1 E2 E3 [H1 H2]. unfold tid_at in H2. split; unfold tid_at; rewrite ?E1, ?E2, ?E3; done.
Qed.

Lemma tid_at_indices s s' p : x_acts s' = x_acts s → tid_at s' p = tid_at s p.
Proof. unfold tid_at. by intros ->. Qed.

(** The UNINIT action goes to the front of the list of the model-checker thread. *)
Lemma uninit_thrd_lists loc (la : list (option ptr)) o s s' r :
  (∀ u, o = Some u → tid_at s u = Some 0) → x_thrd_last_action s = la →
  match o with
  | None => mret tt
  | Some u =>
      ua ← act_at u;
      let uninit_id := id_to_int (a_tid ua) in
      s ← get;
      vec ← get_safe_ptr_vect_action (x_obj_thrd_map s) loc;
      ul ← lift (at_index vec uninit_id);
      vec ← lift (set_at uninit_id (u :: ul) vec);
      modify (put_obj_thrd_map (<[loc := vec]> (x_obj_thrd_map s))) ;;
      la ← lift (set_at uninit_id (Some u) la);
      modify (put_thrd_last_action la)
  end s = Ok (s', r) →
  ∃ m la', s' = put_thrd_last_action la' (put_obj_thrd_map m s) ∧
    (∀ loc' t, tview m loc' t = (if decide (loc' = loc ∧ t = 0) then option_list o else []) ++ tlist s loc' t) ∧
    (∀ t, t ≠ 0 → default None (la' !! t) = default None (la !! t)).
Proof.
  intros Hu Hla H. destruct o as [u|].
  - apply exec_bind_Ok in H as (s1 & ua & [-> Hua]%act_at_Ok & H).
    assert (a_tid ua = 0) as E0. { specialize (Hu u eq_refl). unfold tid_at in Hu. rewrite Hua in Hu. by injection Hu. }
    rewrite E0 in H. apply exec_bind_Ok in H as (s1 & ? & [= <- <-] & H).
    apply exec_bind_Ok in H as (s1 & vec & [-> Hvec]%get_safe_ptr_vect_action_Ok & H).
    apply exec_bind_Ok in H as (s1 & ul & [-> Hul%at_index_Ok]%lift_Ok & H).
    apply exec_bind_Ok in H as (s1 & v2 & [-> [_ Hv2]%(set_at_Ok [])]%lift_Ok & H).
    apply exec_bind_Ok in H as (s1 & ? & [= <- _] & H).
    apply exec_bind_Ok in H as (s1 & la2 & [-> [_ Hla2]%(set_at_Ok None)]%lift_Ok & [= <- _]).
    do 2 eexists. split; [done|]. split.
    + intros loc' t. rewrite tview_insert. unfold tlist. destruct (decide (loc' = loc)) as [->|Hne].
      2: { rewrite decide_False by naive_solver. done. }
      rewrite Hv2. unfold tview. rewrite <- Hvec. destruct (decide (t = id_to_int 0)) as [->|Ht].
      * rewrite decide_True by done. simpl. by rewrite Hul.
      * rewrite decide_False by naive_solver. done.
    + intros t Ht. rewrite Hla2. by rewrite decide_False.
  - injection H as <-. exists (x_obj_thrd_map s), la. split; [by destruct s; simpl in *; subst|]. split; [|done].
    intros loc' t. by case_decide.
Qed.

(** The fence and wait parts. *)
Lemma fence_lists a act tid s s' r :
  (if is_fence a && is_release a then
     s ← get;
     lf ← lift (set_last (get_num_threads s) tid act (x_thrd_last_fence_release s));
     modify (put_thrd_last_fence_release lf)
   else mret tt) s = Ok (s', r) → ∃ lf, s' = put_thrd_last_fence_release lf s.
Proof.
  destruct (is_fence a && is_release a).
  - intros H. inv_exec. eauto.
  - intros [= <- _]. exists (x_thrd_last_fence_release s). by destruct s.
Qed.

Lemma wait_lists a act tid s s' r :
  (if is_wait a then
     s ← get;
     l ← get_safe_ptr_action (x_obj_map s) (a_value a);
     modify (put_obj_map (<[a_value a := l ++ [act]]> (x_obj_map s))) ;;
     push_to_vect (a_value a) tid (λ l, l ++ [act])
   else mret tt) s = Ok (s', r) →
  ∃ om tm, s' = put_obj_thrd_map tm (put_obj_map om s) ∧
    (∀ loc, default [] (om !! loc) = olist s loc ++ (if decide (is_wait a = true ∧ loc = a_value a) then [act] else [])) ∧
    (∀ loc t, tview tm loc t = tlist s loc t ++
       (if decide (t = tid) then if decide (is_wait a = true ∧ loc = a_value a) then [act] else [] else [])).
Proof.
  destruct (is_wait a).
  - intros (s1 & ? & [= <- <-] & H)%exec_bind_Ok.
    apply exec_bind_Ok in H as (s1 & l & [-> ->]%get_safe_ptr_action_Ok & H).
    apply exec_bind_Ok in H as (s1 & ? & [= <- _] & H). apply push_to_vect_Ok in H as (m & -> & Hm).
    do 2 eexists. split; [done|]. split.
    + intros loc. unfold olist. destruct (decide (loc = a_value a)) as [->|Hne].
      * rewrite lookup_insert_eq. by rewrite decide_True.
      * rewrite lookup_insert_ne by done. rewrite decide_False by naive_solver. by rewrite app_nil_r.
    + intros loc t. rewrite Hm. destruct (decide (loc = a_value a)) as [->|Hne], (decide (t = tid)) as [->|Ht];
        repeat first [rewrite decide_True by done|rewrite decide_False by naive_solver]; by rewrite ?app_nil_r.
  - intros [= <- _]. exists (x_obj_map s), (x_obj_thrd_map s). split; [by destruct s|]. split.
    + intros loc. rewrite decide_False by naive_solver. by rewrite app_nil_r.
    + intros loc t. destruct (decide (t = tid)); [rewrite decide_False by naive_solver|]; by rewrite app_nil_r.
Qed.

Lemma add_action_to_lists_added params act a s s' r :
  x_acts s !! act = Some a → heap_wf s → add_action_to_lists params act s = Ok (s', r) →
  heap_wf s' ∧ ∃ o, lists_added a act o s s'.
Proof.
  intros Ha Hwf. unfold add_action_to_lists. intros (s1 & a1 & [-> Ha1]%act_at_Ok & H)%exec_bind_Ok.
  assert (a1 = a) as -> by congruence. apply exec_bind_Ok in H as (s1 & ? & [= <- <-] & H).
  apply exec_bind_Ok in H as (s1 & l & [-> Hl]%get_safe_ptr_action_Ok & H).
  apply exec_bind_Ok in H as (s1 & o & Ho & H). apply uninit_lists in Ho as (W1 & [O1 M1 A1 B1 T1] & U1); [|done..].
  apply exec_bind_Ok in H as (s2 & ? & [= <- _] & H). apply exec_bind_Ok in H as (s2 & ? & [= <- _] & H).
  apply exec_bind_Ok in H as (s3 & ? & (m3 & -> & H3)%push_to_vect_Ok & H).
  apply exec_bind_Ok in H as (s4 & ? & [= <- <-] & H).
  apply exec_bind_Ok in H as (s4 & la & [-> Hla]%lift_Ok & H). pose proof (set_last_Ok _ _ _ _ _ Hla) as H4.
  apply exec_bind_Ok in H as (s5 & ? & [= <- _] & H). apply exec_bind_Ok in H as (s5 & ? & H5 & H).
  apply uninit_thrd_lists in H5 as (m5 & la5 & -> & Hm5 & Hla5); [|naive_solver|done].
  apply exec_bind_Ok in H as (s6 & ? & [lf ->]%fence_lists & H).
  apply wait_lists in H as (om & tm & -> & Hom & Htm). split; [by eapply heap_wf_indices, W1|].
  exists o. split.
  - exact T1.
  - intros u Hu. exact (U1 u Hu).
  - simpl. rewrite A1. by destruct o.
  - intros loc. unfold olist at 1. simpl. rewrite Hom. unfold added. rewrite !app_assoc. f_equal.
    unfold olist. simpl. rewrite O1. destruct (decide (loc = a_location a)) as [->|Hne].
    + rewrite lookup_insert_eq. destruct o as [u|]; simpl; [|by rewrite Hl].
      destruct (U1 u eq_refl) as [_ E]. unfold olist in E. by rewrite E.
    + rewrite lookup_insert_ne by done. simpl. by rewrite app_nil_r.
  - intros loc t. unfold tlist at 1. simpl. rewrite Htm. unfold tlist at 1. simpl. rewrite Hm5.
    rewrite <- app_assoc. f_equal. unfold tlist at 1. simpl. rewrite H3. unfold tlist. simpl. rewrite M1.
    unfold added, id_to_int. destruct (decide (t = a_tid a)) as [->|Ht].
    + destruct (decide (loc = a_location a)) as [->|Hne].
      * rewrite decide_True by done. by rewrite <- app_assoc.
      * rewrite decide_False by naive_solver. done.
    + rewrite decide_False by naive_solver. done.
  - intros t Ht. unfold get_last_action, id_to_int. simpl. rewrite Hla5 by done. rewrite H4.
    unfold id_to_int. simpl. rewrite B1. by destruct (decide (t = a_tid a)).
Qed.

(** ** The invariant *)

Lemma of_thread_app s t l1 l2 : of_thread s t (l1 ++ l2) = of_thread s t l1 ++ of_thread s t l2.
Proof. apply filter_app. Qed.

Lemma of_thread_stable s s' t l :
  (∀ p t, tid_at s p = Some t → tid_at s' p = Some t) → (∀ p, p ∈ l → is_Some (tid_at s p)) →
  of_thread s' t l = of_thread s t l.
Proof.
  intros Ht. unfold of_thread. induction l as [|p l IH]; intros Hl; [done|].
  destruct (Hl p) as [t0 H0]; [by left|]. rewrite !filter_cons, (Ht _ _ H0), H0, IH by (intros q Hq; apply Hl; by right).
  done.
Qed.

(** The part of a list that consists of actions of one thread. *)
Lemma of_thread_all s t0 t l :
  (∀ p, p ∈ l → tid_at s p = Some t0) → of_thread s t l = if decide (t = t0) then l else [].
Proof.
  intros Hl. unfold of_thread. induction l as [|p l IH]; [by case_decide|].
  rewrite filter_cons, (Hl p) by by left. rewrite IH by (intros q Hq; apply Hl; by right).
  destruct (decide (t = t0)) as [->|Hne]; [by rewrite decide_True|]. rewrite decide_False; [done|congruence].
Qed.

Lemma added_elem a act loc p : p ∈ added a act loc → p = act.
Proof. unfold added. repeat case_decide; set_solver. Qed.

Lemma lists_added_wf a act o s s' :
  x_acts s !! act = Some a → lists_wf s → lists_added a act o s s' → lists_wf s'.
Proof.
  intros Ha [WT WR WA WL] [LT LU LR LO LH LL].
  assert (tid_at s' act = Some (a_tid a)) as Tact. { apply LT. unfold tid_at. by rewrite Ha. }
  assert (∀ p, p ∈ option_list o → tid_at s' p = Some 0) as Tu.
  { intros p. destruct o as [u|]; [|intros []%elem_of_nil]. intros ->%list_elem_of_singleton. by apply LU. }
  split.
  - intros loc t. rewrite LH, LO, !of_thread_app.
    rewrite (of_thread_all s' (a_tid a) t (added a act loc)) by by intros p ->%added_elem.
    rewrite (of_thread_stable s s' t (olist s loc) LT) by (intros p Hp; by eapply WA, WR). rewrite WT. f_equal.
    destruct (decide (loc = a_location a)) as [->|Hne]; [|rewrite decide_False by naive_solver; done].
    rewrite (of_thread_all s' 0) by done. destruct (decide (t = 0)); [by rewrite decide_True|].
    by rewrite decide_False by naive_solver.
  - intros loc p. rewrite LO, LR, !elem_of_app. intros [Hp|[Hp%WR|Hp%added_elem]]; [|set_solver..].
    destruct (decide (loc = a_location a)); [by left|by apply elem_of_nil in Hp].
  - intros p. rewrite LR, !elem_of_app. intros [Hp%Tu|[[t Hp%LT]%WA|Hp%list_elem_of_singleton]]; [by eexists..|subst; by eexists].
  - intros t Ht. rewrite LL, LR, !of_thread_app by done. rewrite (of_thread_all s' 0) by done.
    destruct (decide (t = 0)); [done|]. simpl. rewrite (of_thread_stable s s' t _ LT) by done.
    rewrite (of_thread_all s' (a_tid a)) by by intros p ->%list_elem_of_singleton.
    destruct (decide (t = a_tid a)); [by rewrite last_snoc|]. by rewrite app_nil_r, WL.
Qed.


(** A state in which nothing has been listed yet, as a new execution is. *)
Lemma lists_wf_empty s :
  x_obj_map s = ∅ → x_obj_thrd_map s = ∅ → x_action_trace s = [] → Forall (λ o, o = None) (x_thrd_last_action s) →
  lists_wf s.
Proof.
  intros EO ET EA EL. split; unfold tlist, tview, olist; rewrite ?EO, ?ET, ?EA.
  - intros loc t. by rewrite !lookup_empty.
  - intros loc p. rewrite lookup_empty. intros []%elem_of_nil.
  - intros p []%elem_of_nil.
  - intros t _. unfold get_last_action. destruct (x_thrd_last_action s !! id_to_int t) as [o|] eqn:E; [|done].
    by rewrite (Forall_lookup_1 _ _ _ _ EL E).
Qed.

(** The main thread has stopped at its first store, on an object nobody has used. *)
Definition first_store : ModelAction :=
  mkModelAction ATOMIC_WRITE memory_order_relaxed memory_order_relaxed 64 1 5 None None None (Some 1%positive) 2 None false.
Definition before_first_store : Exec :=
  put_stack (mkNodeStack {[ 1%positive := mkNode READ_FROM_PAST 1 None None 2 [] [] [] 0 None [] 0 [] (-1) [] (-1) [] (-1) [] 0 0 0 None ]}
               2 [1%positive] 0 1)
    (put_next_act 2 (put_acts {[ 1%positive := first_store ]} (state_after (mret tt)))).

