(* ===== verification/Librace.v ===== *)
(** * Instrumented memory accesses (librace.cc, and reportDataRace of datarace.cc)

    A plain store or load of 1, 2, 4 or 8 bytes checks each of its bytes for races, in
    address order, and then accesses memory (little-endian). A race that is realized
    ends the execution: the thread is switched out and never resumed. *)

From S2P Require Import Prelude ClockVector Action HashTable Promise CycleGraph NodeStack Schedule DataRace ExecState ModOrder Step Evolution Scenarios.

(** ** Race checks on the shadow memory *)

(** [reportDataRace]; true if the execution ends here. *)
Definition reportDataRace (r : DataRace) : exec bool :=
  modify (λ s, put_races (x_races s ++ [r]) s) ;;
  checkDataRaces.

(** What a check does to the entry of [location], until it ends or a race ends it. *)
Fixpoint run_events (location : N) (evs : list race_event) : exec bool :=
  match evs with
  | [] => mret false
  | EReport r :: evs =>
      ended ← reportDataRace r;
      if (ended : bool) then mret true else run_events location evs
  | EStore x :: evs =>
      modify (λ s, put_shadow (storeAddressEntry location x (x_shadow s)) s) ;;
      run_events location evs
  end.

(** [raceCheckWrite(thread, location)] and [raceCheckRead(thread, location)]. *)
Definition race_check (write : bool) (thread : thread_id_t) (location : N) : exec bool :=
  s ← get;
  let entry := lookupAddressEntry location (x_shadow s) in
  cv ← get_cv thread;
  currClock ← derefM cv;
  newaction ← get_parent_action thread;
  newaction ← derefM newaction;
  evs ← lift ((if write then raceCheckWrite else raceCheckRead) thread location currClock newaction entry);
  run_events location evs.

(** The checks of an access, byte by byte. *)
Fixpoint check_bytes (write : bool) (thread : thread_id_t) (addr : N) (i n : nat) : exec bool :=
  match n with
  | O => mret false
  | S n =>
      ended ← race_check write thread (wrap64 (addr + N.of_nat i));
      if (ended : bool) then mret true else check_bytes write thread addr (S i) n
  end.

(** ** Memory *)

Definition read_byte (s : Exec) (a : N) : N := default 0%N (x_memory s !! a).

(** The little-endian bytes of a value, and back. *)
Fixpoint to_bytes (n : nat) (v : N) : list N :=
  match n with O => [] | S n => (v mod 256)%N :: to_bytes n (v / 256) end.
Fixpoint of_bytes (l : list N) : N :=
  match l with [] => 0%N | b :: l => (b + 256 * of_bytes l)%N end.

Fixpoint write_bytes (addr : N) (i : nat) (l : list N) (m : gmap N N) : gmap N N :=
  match l with
  | [] => m
  | b :: l => write_bytes addr (S i) l (<[wrap64 (addr + N.of_nat i) := b]> m)
  end.
Definition read_bytes (s : Exec) (addr : N) (n : nat) : list N :=
  (λ i, read_byte s (wrap64 (addr + N.of_nat i))) <$> seq 0 n.

(** ** Accesses; [None] when a race ended the execution *)

Section accesses.
Context (thread : thread_id_t).

Definition store_n (n : nat) (addr val : N) : exec (option unit) :=
  ended ← check_bytes true thread addr 0 n;
  if (ended : bool) then mret None
  else modify (λ s, put_memory (write_bytes addr 0 (to_bytes n val) (x_memory s)) s) ;; mret (Some tt).
Definition load_n (n : nat) (addr : N) : exec (option N) :=
  ended ← check_bytes false thread addr 0 n;
  if (ended : bool) then mret None else s ← get; mret (Some (of_bytes (read_bytes s addr n))).

Definition store_8 (addr val : N) : exec (option unit) := store_n 1 addr val.
Definition store_16 (addr val : N) : exec (option unit) := store_n 2 addr val.
Definition store_32 (addr val : N) : exec (option unit) := store_n 4 addr val.
Definition store_64 (addr val : N) : exec (option unit) := store_n 8 addr val.
Definition load_8 (addr : N) : exec (option N) := load_n 1 addr.
Definition load_16 (addr : N) : exec (option N) := load_n 2 addr.
Definition load_32 (addr : N) : exec (option N) := load_n 4 addr.
Definition load_64 (addr : N) : exec (option N) := load_n 8 addr.
End accesses.

(** ** What a check leaves alone *)

(** The state a check depends on, apart from the shadow memory. *)
Definition race_view (s : Exec) := (x_acts s, x_thrd_last_action s, x_thread_map s, x_memory s).

Lemma keeps_checkDataRaces {A} (f : Exec → A) :
  (∀ m s, f (put_bugs m s) = f s) → (∀ m s, f (put_asserted m s) = f s) → (∀ m s, f (put_races m s) = f s) →
  preserves (keeps f) checkDataRaces.
Proof.
  intros H1 H2 H3. unfold checkDataRaces, assert_bug, set_assert. preserve.
  all: apply preserves_modify; intros s; unfold keeps; auto.
Qed.

Lemma keeps_reportDataRace {A} (f : Exec → A) r :
  (∀ m s, f (put_bugs m s) = f s) → (∀ m s, f (put_asserted m s) = f s) → (∀ m s, f (put_races m s) = f s) →
  preserves (keeps f) (reportDataRace r).
Proof.
  intros H1 H2 H3. unfold reportDataRace. apply preserves_bind; [apply _| |].
  - apply preserves_modify. intros s. apply H3.
  - intros _. by apply keeps_checkDataRaces.
Qed.

Lemma run_events_view location evs : preserves (keeps race_view) (run_events location evs).
Proof.
  induction evs as [|[r|x] evs IH]; cbn [run_events].
  - apply preserves_ret, _.
  - apply preserves_bind; [apply _|by apply keeps_reportDataRace|]. intros []; [apply preserves_ret, _|done].
  - apply preserves_bind; [apply _|by apply preserves_modify|done].
Qed.

(** A check that runs to its end leaves the entry it stores last. *)
Lemma run_events_last location evs x : ∀ s s',
  run_events location (evs ++ [EStore x]) s = Ok (s', false) →
  x_shadow s' = storeAddressEntry location x (x_shadow s).
Proof.
  induction evs as [|[r|y] evs IH]; intros s s' H; cbn [run_events app] in H.
  - apply exec_bind_Ok in H as (s1 & [] & [= <-] & [= <-]). done.
  - apply exec_bind_Ok in H as (s1 & b & Hb & H).
    apply (keeps_reportDataRace x_shadow) in Hb; [|done..]. destruct b; [by inv_exec|].
    apply IH in H. unfold keeps in Hb. by rewrite H, Hb.
  - apply exec_bind_Ok in H as (s1 & [] & [= <-] & H). apply IH in H. rewrite H. cbn [x_shadow put_shadow].
    apply insert_insert_eq.
Qed.

(** The parent action and the clock of a thread depend on that state only. *)
Lemma get_parent_action_Ok tid s s' p :
  get_parent_action tid s = Ok (s', p) →
  s' = s ∧ ∀ t, race_view t = race_view s → get_parent_action tid t = Ok (t, p).
Proof.
  unfold get_parent_action, thread_at, get_last_action, get_thread. intros H.
  apply exec_bind_Ok in H as (s1 & a & [= <- <-] & H). split.
  - destruct (default None (x_thrd_last_action s !! id_to_int tid)); inv_exec; done.
  - intros t [= E1 E2 E3 E4]. unfold mbind, exec_bind, get. rewrite E2.
    destruct (default None (x_thrd_last_action s !! id_to_int tid)); [by injection H as <- <-|].
    unfold mbind, exec_bind, get in H. rewrite E3.
    destruct (default None (x_thread_map s !! id_to_int tid)); [by injection H as <- <-|done].
Qed.

Lemma get_cv_Ok tid s s' cv :
  get_cv tid s = Ok (s', cv) →
  s' = s ∧ ∀ t, race_view t = race_view s → get_cv tid t = Ok (t, cv).
Proof.
  unfold get_cv. intros H.
  apply exec_bind_Ok in H as (s1 & p & Hp & H). apply get_parent_action_Ok in Hp as [-> Hp].
  apply exec_bind_Ok in H as (s2 & q & Hq & H). apply exec_bind_Ok in H as (s3 & a & Ha & H).
  destruct p as [p|]; [|done]. injection Hq as <- <-. apply act_at_Ok in Ha as [-> Ha].
  injection H as <- <-. split; [done|]. intros t Ht. unfold mbind, exec_bind. rewrite (Hp t Ht). simpl.
  injection Ht as E1 E2 E3 E4. unfold act_at, mbind, exec_bind, get. rewrite E1, Ha. done.
Qed.

(** ** What a store leaves in the shadow memory *)

Definition shadows_wf (s : Exec) : Prop := map_Forall (λ _, shadow_wf) (x_shadow s).

Lemma lookup_shadow_wf s location : shadows_wf s → shadow_wf (lookupAddressEntry location (x_shadow s)).
Proof.
  intros H. unfold lookupAddressEntry. destruct (x_shadow s !! shadow_index location) eqn:E; [|done].
  by apply (H _ _ E).
Qed.

Lemma lookup_storeAddressEntry l location x m :
  lookupAddressEntry l (storeAddressEntry location x m) =
    if decide (shadow_index l = shadow_index location) then x else lookupAddressEntry l m.
Proof.
  unfold lookupAddressEntry, storeAddressEntry, shadow_memory in *.
  case_decide as E; [by rewrite E, lookup_insert_eq|by rewrite lookup_insert_ne].
Qed.

Section store.
Context (thread : thread_id_t) (cv : ClockVector) (s0 : Exec).
Hypothesis (Hcv : get_cv thread s0 = Ok (s0, Some cv)).

Definition written (s : Exec) (location : N) : Prop :=
  abs (lookupAddressEntry location (x_shadow s)) = mkHistory (thread, getClock cv thread) [].

Lemma race_check_write location s s' :
  race_view s = race_view s0 → shadows_wf s → race_check true thread location s = Ok (s', false) →
  race_view s' = race_view s0 ∧ shadows_wf s' ∧ written s' location ∧ ∀ l, written s l → written s' l.
Proof.
  intros Hview Hwf H. unfold race_check in H.
  apply exec_bind_Ok in H as (s1 & ? & [= <- <-] & H). apply exec_bind_Ok in H as (s1 & c & Hc & H).
  destruct (get_cv_Ok _ _ _ _ Hcv) as [_ Hloc]. rewrite (Hloc s Hview) in Hc. injection Hc as <- <-.
  apply exec_bind_Ok in H as (s2 & ? & [= <- <-] & H). apply exec_bind_Ok in H as (s1 & p & Hp & H).
  apply get_parent_action_Ok in Hp as [-> _]. apply exec_bind_Ok in H as (s1 & q & Hq & H).
  destruct p as [p|]; [|done]. injection Hq as <- <-. apply exec_bind_Ok in H as (s1 & evs & He & H).
  apply lift_Ok in He as [-> He].
  destruct (raceCheckWrite_spec thread location cv p _ (lookup_shadow_wf s location Hwf))
    as (evs' & x & He' & Hx & _ & Habs). rewrite He in He'. injection He' as ->.
  pose proof (run_events_view _ _ _ _ _ H) as Hv. unfold keeps in Hv.
  apply run_events_last in H. split; [congruence|]. unfold shadows_wf, written. rewrite H. split_and!.
  - by apply map_Forall_insert_2.
  - rewrite lookup_storeAddressEntry, decide_True by done. exact Habs.
  - intros l Hl. rewrite lookup_storeAddressEntry. case_decide; [exact Habs|done].
Qed.

Lemma check_bytes_write addr n : ∀ i s s',
  race_view s = race_view s0 → shadows_wf s → check_bytes true thread addr i n s = Ok (s', false) →
  race_view s' = race_view s0 ∧ shadows_wf s' ∧ (∀ l, written s l → written s' l) ∧
  ∀ j, i ≤ j < i + n → written s' (wrap64 (addr + N.of_nat j)).
Proof.
  induction n as [|n IH]; intros i s s' Hv Hwf H; cbn [check_bytes] in H.
  - injection H as <-. split_and!; [done..|lia].
  - apply exec_bind_Ok in H as (s1 & b & Hb & H). destruct b; [by inv_exec|].
    apply race_check_write in Hb as (Hv1 & Hwf1 & Hw & Hmono); [|done..].
    apply IH in H as (Hv2 & Hwf2 & Hmono2 & Hr); [|done..]. split_and!; [done..|auto|].
    intros j Hj. destruct (decide (j = i)) as [->|]; [auto|]. apply Hr. lia.
Qed.
End store.

(** ** Memory *)

Lemma of_to_bytes n : ∀ v, of_bytes (to_bytes n v) = (v mod 2 ^ N.of_nat (8 * n))%N.
Proof.
  induction n as [|n IH]; intros v.
  - by rewrite N.mod_1_r.
  - cbn [to_bytes of_bytes]. rewrite IH. replace (N.of_nat (8 * S n)) with (8 + N.of_nat (8 * n))%N by lia.
    rewrite N.pow_add_r. change (2 ^ 8)%N with 256%N. rewrite N.Div0.mod_mul_r. lia.
Qed.

Lemma length_to_bytes n v : length (to_bytes n v) = n.
Proof. revert v. induction n; intros v; simpl; auto. Qed.

(** Below 2^64 the addresses of the bytes of an access are distinct, also where they wrap. *)
Lemma wrap64_offset_inj addr i j :
  (N.of_nat i < 2 ^ 64)%N → (N.of_nat j < 2 ^ 64)%N →
  wrap64 (addr + N.of_nat i) = wrap64 (addr + N.of_nat j) → i = j.
Proof.
  unfold wrap64. intros Hi Hj H.
  pose proof (N.div_mod (addr + N.of_nat i) (2 ^ 64) ltac:(lia)).
  pose proof (N.div_mod (addr + N.of_nat j) (2 ^ 64) ltac:(lia)). rewrite H in *. nia.
Qed.

Lemma lookup_write_bytes_ne addr a l : ∀ i m,
  (∀ j, j < length l → wrap64 (addr + N.of_nat (i + j)) ≠ a) → write_bytes addr i l m !! a = m !! a.
Proof.
  induction l as [|b l IH]; intros i m H; cbn [write_bytes]; [done|]. rewrite IH.
  - apply lookup_insert_ne. specialize (H 0 ltac:(simpl; lia)). by rewrite Nat.add_0_r in H.
  - intros j Hj. specialize (H (S j) ltac:(simpl; lia)). by rewrite Nat.add_succ_r in H.
Qed.

Lemma lookup_write_bytes addr l : ∀ i j b m,
  (N.of_nat (i + length l) < 2 ^ 64)%N → l !! j = Some b →
  write_bytes addr i l m !! wrap64 (addr + N.of_nat (i + j)) = Some b.
Proof.
  induction l as [|c l IH]; intros i j b m Hb Hj; [done|]. cbn [write_bytes].
  destruct j as [|j]; simplify_eq/=.
  - rewrite lookup_write_bytes_ne, Nat.add_0_r; [by rewrite lookup_insert_eq|].
    intros k Hk E. apply wrap64_offset_inj in E; lia.
  - replace (i + S j) with (S i + j) by lia. apply IH; [|done]. simpl. lia.
Qed.

Lemma read_write_bytes addr l m s :
  (N.of_nat (length l) < 2 ^ 64)%N → x_memory s = write_bytes addr 0 l m → read_bytes s addr (length l) = l.
Proof.
  intros Hl Hm. apply list_eq_same_length with (length l); [done|unfold read_bytes; by rewrite length_fmap, length_seq|].
  intros j x y Hj Hx Hy. unfold read_bytes in Hx.
  apply list_lookup_fmap_Some in Hx as (k & -> & Hk). apply lookup_seq in Hk as [-> _].
  unfold read_byte. rewrite Hm, (lookup_write_bytes addr l 0 j y); [done|simpl; lia|done].
Qed.

Lemma check_bytes_view write thread addr n : ∀ i, preserves (keeps race_view) (check_bytes write thread addr i n).
Proof.
  induction n as [|n IH]; intros i; cbn [check_bytes]; [apply preserves_ret, _|].
  apply preserves_bind; [apply _| |intros []; [apply preserves_ret, _|done]].
  unfold race_check, get_cv, get_parent_action. preserve. apply run_events_view.
Qed.

(** ** A store always returns *)

(** Every race waiting to be realized names an action with a clock. *)
Definition races_wf (s : Exec) : Prop :=
  Forall (λ r, ∃ a cv, x_acts s !! dr_newaction r = Some a ∧ a_cv a = Some cv) (x_races s).

Lemma checkDataRaces_total s :
  races_wf s → ∃ s' b, checkDataRaces s = Ok (s', b) ∧ races_wf s'.
Proof.
  intros Hwf. unfold checkDataRaces, mbind at 1, exec_bind at 1, get at 1.
  destruct (isfeasibleprefix s); [|by exists s, false].
  assert (∀ l b t, x_acts t = x_acts s → incl l (x_races s) → ∃ t' b',
    loop (λ race asserted, a ← act_at (dr_newaction race); cv ← derefM (a_cv a);
            if clock_may_race cv (a_tid a) (dr_oldclock race) (dr_oldthread race)
            then assert_bug (BugDataRace race) ;; mret (true, false)
            else mret (asserted, false)) l b t = Ok (t', b')) as Hloop.
  { induction l as [|r l IH]; intros b t Ht Hl; cbn [loop]; [by exists t, b|].
    destruct (proj1 (List.Forall_forall _ _) Hwf r) as (a & cv & Ha & Hcv); [apply Hl; by left|].
    assert (incl l (x_races s)) as Hl' by (intros x Hx; apply Hl; by right).
    unfold act_at, assert_bug, mbind, exec_bind, get. rewrite Ht, Ha. cbn. rewrite Hcv. cbn.
    destruct (clock_may_race cv (a_tid a) (dr_oldclock r) (dr_oldthread r)); [|by apply IH].
    destruct (isfeasibleprefix _); cbn; by apply IH. }
  destruct (Hloop (x_races s) false s eq_refl (incl_refl _)) as (t & b & Ht).
  exists (put_races [] t), b. unfold mbind, exec_bind in *. rewrite Ht. split; [done|]. by constructor.
Qed.

Lemma run_events_total location evs : ∀ s,
  races_wf s → (∀ r, r ∈ reports evs → ∃ a cv, x_acts s !! dr_newaction r = Some a ∧ a_cv a = Some cv) →
  ∃ s' b, run_events location evs s = Ok (s', b) ∧ races_wf s'.
Proof.
  induction evs as [|[r|x] evs IH]; intros s Hwf Hevs; cbn [run_events]; [by exists s, false| |].
  - assert (races_wf (put_races (x_races s ++ [r]) s)) as Hr.
    { apply Forall_app. split; [done|]. constructor; [|done]. apply Hevs. by left. }
    destruct (checkDataRaces_total _ Hr) as (s1 & b & H1 & Hwf1).
    assert (x_acts s1 = x_acts s) as Ea by apply (keeps_checkDataRaces x_acts ltac:(done) ltac:(done) ltac:(done) _ _ _ H1).
    unfold mbind, exec_bind, reportDataRace, modify, mbind, exec_bind. rewrite H1.
    destruct b; [by exists s1, true|]. apply IH; [done|]. rewrite Ea. intros q Hq. apply Hevs. by right.
  - apply (IH (put_shadow _ s)); done.
Qed.

(** What a thread with a clock knows of its parent action. *)
Lemma get_cv_parent tid s cv :
  get_cv tid s = Ok (s, Some cv) →
  ∃ p a, get_parent_action tid s = Ok (s, Some p) ∧ x_acts s !! p = Some a ∧ a_cv a = Some cv.
Proof.
  unfold get_cv. intros (s1 & p & Hp & H)%exec_bind_Ok.
  destruct (get_parent_action_Ok _ _ _ _ Hp) as [-> _]. apply exec_bind_Ok in H as (s2 & q & Hq & H).
  destruct p as [p|]; [|done]. injection Hq as <- <-. apply exec_bind_Ok in H as (s3 & a & [-> Ha]%act_at_Ok & H).
  injection H as H. eauto.
Qed.

Section total.
Context (thread : thread_id_t) (cv : ClockVector) (s0 : Exec).
Hypothesis (Hcv : get_cv thread s0 = Ok (s0, Some cv)).

Lemma race_check_total location s :
  race_view s = race_view s0 → shadows_wf s → races_wf s →
  ∃ s' b, race_check true thread location s = Ok (s', b) ∧ races_wf s'.
Proof.
  intros Hview Hwf Hraces. destruct (get_cv_Ok _ _ _ _ Hcv) as [_ Hloc]. specialize (Hloc s Hview).
  destruct (get_cv_parent _ _ _ Hloc) as (p & a & Hp & Ha & Hacv).
  destruct (raceCheckWrite_spec thread location cv p _ (lookup_shadow_wf s location Hwf))
    as (evs & x & He & _ & Hrep & _).
  destruct (run_events_total location (evs ++ [EStore x]) s Hraces) as (s' & b & Hrun & Hr).
  { intros r. rewrite reports_app, app_nil_r, Hrep. unfold write_races. rewrite elem_of_app, !list_elem_of_fmap.
    intros [(e & -> & _)|(e & -> & _)]; simpl; eauto. }
  exists s', b. unfold race_check. unfold mbind, exec_bind. cbn [get]. rewrite Hloc. cbn. rewrite Hp. cbn.
  by rewrite He.
Qed.

Lemma check_bytes_total addr n : ∀ i s,
  race_view s = race_view s0 → shadows_wf s → races_wf s →
  ∃ s' b, check_bytes true thread addr i n s = Ok (s', b).
Proof.
  induction n as [|n IH]; intros i s Hv Hwf Hr; cbn [check_bytes]; [by exists s, false|].
  destruct (race_check_total (wrap64 (addr + N.of_nat i)) s Hv Hwf Hr) as (s1 & b & H1 & Hr1).
  unfold mbind, exec_bind. rewrite H1. destruct b; [by exists s1, true|].
  destruct (race_check_write thread cv s0 Hcv _ _ _ Hv Hwf H1) as (Hv1 & Hwf1 & _). by apply IH.
Qed.
End total.

(** ** Properties *)

(** A plain store of a thread with a clock never fails: either a realized race ends
    the execution, or every byte it touches gets the history of a fresh write by this
    thread at its current clock, with all earlier reads forgotten, whatever races were
    reported on the way and wherever the access lies. *)
Theorem store_records_write thread n addr val cv s :
  get_cv thread s = Ok (s, Some cv) → shadows_wf s → races_wf s →
  ∃ s' r, store_n thread n addr val s = Ok (s', r) ∧
    (r = Some tt → shadows_wf s' ∧
      ∀ i, i < n → abs (lookupAddressEntry (wrap64 (addr + N.of_nat i)) (x_shadow s')) =
                     mkHistory (thread, getClock cv thread) []).
Proof.
  intros Hcv Hwf Hr. destruct (check_bytes_total thread cv s Hcv addr n 0 s eq_refl Hwf Hr) as (s1 & b & H1).
  unfold store_n, mbind, exec_bind. rewrite H1. destruct b; [by exists s1, None|].
  eexists _, (Some tt). split; [done|]. intros _.
  destruct (check_bytes_write thread cv s Hcv addr n 0 s s1 eq_refl Hwf H1) as (_ & Hwf1 & _ & Hw).
  split; [done|]. intros i Hi. apply (Hw i). lia.
Qed.

(** Thread 1 of the message-passing execution stores 4 bytes at address 4096. *)
Lemma store_records_write_witness :
  let s := state_after message_passing in
  ∃ s' r cv, get_cv 1 s = Ok (s, Some cv) ∧ store_n 1 4 4096 77 s = Ok (s', r) ∧ r = Some tt.
Proof.
  intros s.
  assert (∃ cv, get_cv 1 s = Ok (s, Some cv)) as [cv Hcv] by (eexists; vm_compute; reflexivity).
  destruct (store_records_write 1 4 4096 77 cv s Hcv) as (s' & r & H & _).
  - intros i x. vm_compute. discriminate.
  - vm_compute. constructor.
  - exists s', r, cv. split; [exact Hcv|]. split; [exact H|].
    assert (Ok (s', r) = store_n 1 4 4096 77 s) as E by (symmetry; exact H).
    apply (f_equal (λ x, match x with Ok (_, r) => r | Err _ => None end)) in E. rewrite E. vm_compute. reflexivity.
Defined.

(** What a plain store writes a plain load of the same size reads back, for every size up
    to 8 bytes, also where the access wraps around the address space: the value, reduced
    to that size. *)
Theorem store_load_roundtrip thread thread' n addr val s s1 s2 u v :
  n ≤ 8 → store_n thread n addr val s = Ok (s1, Some u) → load_n thread' n addr s1 = Ok (s2, Some v) →
  v = (val mod 2 ^ N.of_nat (8 * n))%N.
Proof.
  intros Hn Hs Hl. unfold store_n, load_n in *.
  apply exec_bind_Ok in Hs as (t1 & b & H1 & Hs). destruct b; [done|]. injection Hs as <- <-.
  apply exec_bind_Ok in Hl as (t2 & b & H2 & Hl). destruct b; [done|].
  apply check_bytes_view in H2. injection H2 as E1 E2 E3 E4.
  injection Hl as <- <-. rewrite <- (length_to_bytes n val) at 1.
  rewrite (read_write_bytes addr (to_bytes n val) (x_memory t1)), of_to_bytes; [done| |done].
  rewrite length_to_bytes. lia.
Qed.

(** A 16-bit store of 70000 at the top of the address space reads back as 70000 mod 2^16. *)
Lemma store_load_roundtrip_witness :
  ∃ s1 s2 v, store_n 1 2 (2 ^ 64 - 1) 70000 (state_after message_passing) = Ok (s1, Some tt) ∧
    load_n 1 2 (2 ^ 64 - 1) s1 = Ok (s2, Some v) ∧ v = 4464%N.
Proof.
  assert (∃ s1, store_n 1 2 (2 ^ 64 - 1) 70000 (state_after message_passing) = Ok (s1, Some tt)) as [s1 H1]
    by (eexists; vm_compute; reflexivity).
  assert (∃ s2 v, load_n 1 2 (2 ^ 64 - 1) s1 = Ok (s2, Some v)) as (s2 & v & H2).
  { vm_compute in H1. injection H1 as <-. eexists _, _. vm_compute. reflexivity. }
  exists s1, s2, v. split; [exact H1|]. split; [exact H2|].
  apply (store_load_roundtrip 1 1 2 (2 ^ 64 - 1) 70000 (state_after message_passing) s1 s2 tt v); [lia|exact H1|exact H2].
Defined.
