(* ===== verification/Interface.v ===== *)
(** * The user program and the interface it is written against (cmodelint.cc,
    impatomic.cc, include/impatomic.h, libthreads.cc, mutex.cc, conditionvariable.cc,
    libannotate.cc, librace.cc, threads.cc)

    A user thread is an interaction tree: it runs code in its own context ([ERun], which
    may read and change the state of the execution, as the race checks of a plain access
    do) and switches to the checker with the action it wants to take next ([ESwitch]),
    to be resumed with the value the action returns. Unbounded user loops are the
    library's [ITree.iter]. The functions of the interface are such programs. *)

From S2P Require Import Prelude ClockVector Action HashTable Promise CycleGraph NodeStack Schedule DataRace ExecState ModOrder Step Evolution Scenarios Librace.
From ITree Require Import ITree ITreeFacts.

(** ** User programs *)

(** The arguments of [new ModelAction(type, order, loc, value)]. *)
Record request := mkRequest {
  rq_type : action_type;
  rq_order : memory_order;
  rq_location : N;
  rq_value : N
}.

Inductive userE : Type → Type :=
  | ERun {X} (m : thread_id_t → exec X) : userE X
  | ESwitch (act : option request) : userE N.

Notation user := (itree userE).
#[global] Instance user_ret : MRet user := λ A a, Ret a.
#[global] Instance user_bind : MBind user := λ A B k t, ITree.bind t k.

Definition run_here {X} (m : thread_id_t → exec X) : user X := ITree.trigger (ERun m).

(** [model->switch_to_master(act)], seen from the user. *)
Definition switch (act : option request) : user N := ITree.trigger (ESwitch act).
Definition switch_act (ty : action_type) (ord : memory_order) (loc value : N) : user N :=
  switch (Some (mkRequest ty ord loc value)).

(** ** cmodelint.cc *)

Definition model_read_action (obj : N) (ord : memory_order) : user N :=
  switch_act ATOMIC_READ ord obj VALUE_NONE.
Definition model_write_action (obj : N) (ord : memory_order) (val : N) : user unit :=
  switch_act ATOMIC_WRITE ord obj val ;; mret tt.
Definition model_init_action (obj val : N) : user unit :=
  switch_act ATOMIC_INIT memory_order_relaxed obj val ;; mret tt.
Definition model_rmwr_action (obj : N) (ord : memory_order) : user N :=
  switch_act ATOMIC_RMWR ord obj VALUE_NONE.
Definition model_rmw_action (obj : N) (ord : memory_order) (val : N) : user unit :=
  switch_act ATOMIC_RMW ord obj val ;; mret tt.
Definition model_rmwc_action (obj : N) (ord : memory_order) : user unit :=
  switch_act ATOMIC_RMWC ord obj VALUE_NONE ;; mret tt.
Definition model_fence_action (ord : memory_order) : user unit :=
  switch_act ATOMIC_FENCE ord FENCE_LOCATION VALUE_NONE ;; mret tt.

(** ** include/impatomic.h

    The functions of the header are the same for every type but for the conversions
    between the type and [uint64_t], the representation of values in actions. A value of
    the type is an integer in its range; signed arithmetic wraps around. *)

Inductive ctype := TBool | TInt (bits : Z) (sgn : bool).

(** The value of the type an integer converts to. *)
Definition conv (t : ctype) (v : Z) : Z :=
  match t with
  | TBool => if (v =? 0)%Z then 0%Z else 1%Z
  | TInt bits sgn =>
      let m := (v mod 2 ^ bits)%Z in
      if sgn && (2 ^ (bits - 1) <=? m)%Z then (m - 2 ^ bits)%Z else m
  end.
Definition to_u64 (v : Z) : N := Z.to_N (v mod 2 ^ 64).
Definition of_u64 (t : ctype) (n : N) : Z := conv t (Z.of_N n).

Inductive rmw_op := OpSet | OpAdd | OpSub | OpAnd | OpOr | OpXor.

(** [__copy__ __o__ __v__]. *)
Definition apply_op (t : ctype) (op : rmw_op) (copy v : Z) : Z :=
  conv t match op with
         | OpSet => v
         | OpAdd => copy + v
         | OpSub => copy - v
         | OpAnd => Z.land copy v
         | OpOr => Z.lor copy v
         | OpXor => Z.lxor copy v
         end%Z.

Section atomics.
Context (t : ctype) (a : N).

Definition ATOMIC_LOAD (x : memory_order) : user Z := r ← model_read_action a x; mret (of_u64 t r).
Definition ATOMIC_STORE (m : Z) (x : memory_order) : user unit := model_write_action a x (to_u64 m).
Definition ATOMIC_INIT_ (m : Z) : user unit := model_init_action a (to_u64 m).
Definition ATOMIC_MODIFY (o : rmw_op) (m : Z) (x : memory_order) : user Z :=
  old ← model_rmwr_action a x;
  let old := of_u64 t old in
  let copy := apply_op t o old m in
  model_rmw_action a x (to_u64 copy) ;;
  mret old.
(** Returns the result and the new contents of the expected value. *)
Definition ATOMIC_CMPSWP (e m : Z) (x : memory_order) : user (bool * Z) :=
  r ← model_rmwr_action a x;
  let r := of_u64 t r in
  if (r =? e)%Z then model_rmw_action a x (to_u64 m) ;; mret (true, e)
  else model_rmwc_action a x ;; mret (false, r).

Definition atomic_load_explicit (x : memory_order) : user Z := ATOMIC_LOAD x.
Definition atomic_load : user Z := atomic_load_explicit memory_order_seq_cst.
Definition atomic_init (m : Z) : user unit := ATOMIC_INIT_ m.
Definition atomic_store_explicit (m : Z) (x : memory_order) : user unit := ATOMIC_STORE m x.
Definition atomic_store (m : Z) : user unit := atomic_store_explicit m memory_order_seq_cst.
Definition atomic_exchange_explicit (m : Z) (x : memory_order) : user Z := ATOMIC_MODIFY OpSet m x.
Definition atomic_exchange (m : Z) : user Z := atomic_exchange_explicit m memory_order_seq_cst.
(** The failure order [y] is ignored; the weak form never fails spuriously. *)
Definition atomic_compare_exchange_weak_explicit (e m : Z) (x y : memory_order) : user (bool * Z) :=
  ATOMIC_CMPSWP e m x.
Definition atomic_compare_exchange_strong_explicit (e m : Z) (x y : memory_order) : user (bool * Z) :=
  ATOMIC_CMPSWP e m x.
Definition atomic_compare_exchange_strong (e m : Z) : user (bool * Z) :=
  atomic_compare_exchange_strong_explicit e m memory_order_seq_cst memory_order_seq_cst.
Definition atomic_compare_exchange_weak (e m : Z) : user (bool * Z) :=
  atomic_compare_exchange_weak_explicit e m memory_order_seq_cst memory_order_seq_cst.
Definition atomic_fetch_add_explicit (m : Z) (x : memory_order) : user Z := ATOMIC_MODIFY OpAdd m x.
Definition atomic_fetch_sub_explicit (m : Z) (x : memory_order) : user Z := ATOMIC_MODIFY OpSub m x.
Definition atomic_fetch_and_explicit (m : Z) (x : memory_order) : user Z := ATOMIC_MODIFY OpAnd m x.
Definition atomic_fetch_or_explicit (m : Z) (x : memory_order) : user Z := ATOMIC_MODIFY OpOr m x.
Definition atomic_fetch_xor_explicit (m : Z) (x : memory_order) : user Z := ATOMIC_MODIFY OpXor m x.
Definition atomic_fetch_add (m : Z) : user Z := atomic_fetch_add_explicit m memory_order_seq_cst.
Definition atomic_fetch_sub (m : Z) : user Z := atomic_fetch_sub_explicit m memory_order_seq_cst.
End atomics.

Definition atomic_thread_fence (ord : memory_order) : user unit := model_fence_action ord.

(** Addresses are unsigned 64-bit integers. *)
Definition TAddress : ctype := TInt 64 false.

(** ** impatomic.cc *)

Definition atomic_flag_test_and_set_explicit (a : N) (x : memory_order) : user bool :=
  result ← switch_act ATOMIC_RMWR x a VALUE_NONE;
  switch_act ATOMIC_RMW x a 1 ;;
  mret (negb (result =? 0)%N).
Definition atomic_flag_test_and_set (a : N) : user bool :=
  atomic_flag_test_and_set_explicit a memory_order_seq_cst.
Definition atomic_flag_clear_explicit (a : N) (x : memory_order) : user unit :=
  switch_act ATOMIC_WRITE x a 0 ;; mret tt.
Definition atomic_flag_clear (a : N) : user unit := atomic_flag_clear_explicit a memory_order_seq_cst.
Definition atomic_flag_wait_explicit (a : N) (x : memory_order) : user unit :=
  ITree.iter (λ _ : unit, b ← atomic_flag_test_and_set_explicit a x;
                          mret (if (b : bool) then inl tt else inr tt)) tt.
Definition atomic_flag_wait (a : N) : user unit := atomic_flag_wait_explicit a memory_order_seq_cst.

(** ** Threads (libthreads.cc, threads.cc)

    A [thrd_t] is the address of its Thread object. *)

Section thread_api.
Context (thread_addr : thread_id_t → N) (thread_of_addr : N → option thread_id_t).

(** [params]: the address of the routine and its argument. *)
Definition thrd_create (t params : N) : user Z :=
  switch_act THREAD_CREATE memory_order_seq_cst t params ;; mret 0%Z.
Definition thrd_join (t : N) : user Z :=
  id ← run_here (λ _, derefM (thread_of_addr t));
  switch_act THREAD_JOIN memory_order_seq_cst t (N.of_nat (id_to_int id)) ;; mret 0%Z.
Definition thrd_yield : user unit :=
  this ← run_here (λ tid, mret (thread_addr tid));
  switch_act THREAD_YIELD memory_order_seq_cst this VALUE_NONE ;; mret tt.
Definition thrd_current : user N := run_here (λ tid, mret (thread_addr tid)).

Definition thread_startup (start_routine : user unit) : user unit :=
  this ← run_here (λ tid, mret (thread_addr tid));
  switch_act THREAD_START memory_order_seq_cst this VALUE_NONE ;;
  start_routine ;;
  switch_act THREAD_FINISH memory_order_seq_cst this VALUE_NONE ;; mret tt.
End thread_api.

(** The [priv] pointer of the [thrd_t] a thread was created with, at address [t]. *)
Definition read_thrd (thread_addr : thread_id_t → N) (t : N) : user N :=
  run_here (λ _, s ← get; id ← derefM (x_thrds s !! t); mret (thread_addr id)).

(** ** mutex.cc and conditionvariable.cc *)

Definition mutex_create (m : N) : user unit := run_here (new_mutex m).
Definition mutex_lock (m : N) : user unit := switch_act ATOMIC_LOCK memory_order_seq_cst m VALUE_NONE ;; mret tt.
Definition mutex_try_lock (m : N) : user bool :=
  r ← switch_act ATOMIC_TRYLOCK memory_order_seq_cst m VALUE_NONE; mret (negb (r =? 0)%N).
Definition mutex_unlock (m : N) : user unit := switch_act ATOMIC_UNLOCK memory_order_seq_cst m VALUE_NONE ;; mret tt.
Definition condvar_notify_one (c : N) : user unit :=
  switch_act ATOMIC_NOTIFY_ONE memory_order_seq_cst c VALUE_NONE ;; mret tt.
Definition condvar_notify_all (c : N) : user unit :=
  switch_act ATOMIC_NOTIFY_ALL memory_order_seq_cst c VALUE_NONE ;; mret tt.
Definition condvar_wait (c lock : N) : user unit :=
  switch_act ATOMIC_WAIT memory_order_seq_cst c lock ;;
  mutex_lock lock.

(** ** libannotate.cc and the assertions of user programs *)

Definition cdsannotate (analysistype annotation : N) : user unit :=
  switch_act ATOMIC_ANNOTATION memory_order_seq_cst annotation analysistype ;; mret tt.

(** [ModelChecker::assert_user_bug]; a feasible bug ends the execution here. *)
Definition assert_user_bug : user unit :=
  now ← run_here (λ _, assert_bug BugUser);
  if (now : bool) then switch None ;; mret tt else mret tt.
Definition model_assert (expr : bool) : user unit := if expr then mret tt else assert_user_bug.

(** ** Plain accesses (librace.cc): a realized race ends the execution *)

Definition user_store (n : nat) (addr val : N) : user unit :=
  r ← run_here (λ tid, store_n tid n addr val);
  match r with Some _ => mret tt | None => switch None ;; mret tt end.
Definition user_load (n : nat) (addr : N) : user N :=
  r ← run_here (λ tid, load_n tid n addr);
  match r with Some v => mret v | None => switch None ;; mret 0%N end.

(** ** Values *)

(** The values of a type, and the types that fit in 64 bits. *)
Definition in_range (t : ctype) (v : Z) : Prop :=
  match t with
  | TBool => (0 <= v <= 1)%Z
  | TInt bits true => (- 2 ^ (bits - 1) <= v < 2 ^ (bits - 1))%Z
  | TInt bits false => (0 <= v < 2 ^ bits)%Z
  end.
Definition fits (t : ctype) : Prop := match t with TBool => True | TInt bits _ => (1 <= bits <= 64)%Z end.

Lemma pow2_split bits : (1 <= bits)%Z → (2 ^ bits = 2 * 2 ^ (bits - 1) ∧ 0 < 2 ^ (bits - 1))%Z.
Proof.
  intros H. split; [|apply Z.pow_pos_nonneg; lia].
  replace bits with (Z.succ (bits - 1)) at 1 by lia. apply Z.pow_succ_r. lia.
Qed.

Lemma conv_in_range t v : fits t → in_range t (conv t v).
Proof.
  destruct t as [|bits []]; simpl; intros Hf.
  - destruct (v =? 0)%Z; lia.
  - destruct (pow2_split bits) as [H2 Hp]; [lia|]. pose proof (Z.mod_pos_bound v (2 ^ bits) ltac:(lia)).
    destruct (Z.leb_spec (2 ^ (bits - 1)) (v mod 2 ^ bits)); lia.
  - destruct (pow2_split bits) as [H2 Hp]; [lia|]. apply Z.mod_pos_bound. lia.
Qed.

(** Conversion keeps the value modulo the size of the type, *)
Lemma conv_mod bits sgn v : (1 <= bits)%Z → (conv (TInt bits sgn) v mod 2 ^ bits = v mod 2 ^ bits)%Z.
Proof.
  intros Hb. simpl. destruct (sgn && _); [|apply Z.mod_mod; lia].
  rewrite <- (Z.mod_add _ 1) by lia. rewrite Z.mul_1_l, Z.sub_add. apply Z.mod_mod. lia.
Qed.

(** and leaves the values of the type alone. *)
Lemma conv_id t v : fits t → in_range t v → conv t v = v.
Proof.
  destruct t as [|bits []]; simpl; intros Hf Hv.
  - destruct (Z.eqb_spec v 0); lia.
  - destruct (pow2_split bits) as [H2 Hp]; [lia|]. destruct (Z.leb_spec 0 v).
    + rewrite Z.mod_small by lia. destruct (Z.leb_spec (2 ^ (bits - 1)) v); lia.
    + rewrite <- (Z.mod_add v 1), Z.mul_1_l, Z.mod_small by lia.
      destruct (Z.leb_spec (2 ^ (bits - 1)) (v + 2 ^ bits)); lia.
  - by rewrite Z.mod_small.
Qed.

(** It depends on that remainder only. *)
Lemma conv_wrap t v : fits t → in_range t v → conv t (v mod 2 ^ 64) = conv t v.
Proof.
  destruct t as [|bits sgn]; intros Hf Hv.
  - simpl in Hv. by rewrite Z.mod_small by lia.
  - unfold conv. simpl in Hf. replace (2 ^ 64)%Z with (2 ^ bits * 2 ^ (64 - bits))%Z.
    + assert (0 < 2 ^ bits)%Z by (apply Z.pow_pos_nonneg; lia). assert (0 < 2 ^ (64 - bits))%Z by (apply Z.pow_pos_nonneg; lia).
      rewrite Z.rem_mul_r by lia. by rewrite (Z.mul_comm (2 ^ bits)), Z.mod_add, Z.mod_mod by lia.
    + rewrite <- Z.pow_add_r by lia. f_equal. lia.
Qed.

(** ** Equivalences of programs *)

Lemma of_u64_bool n : of_u64 TBool n = if (n =? 0)%N then 0%Z else 1%Z.
Proof. by destruct n. Qed.

(** ** Properties *)



(** Testing and setting a flag is exchanging a [bool] with [true]: the two programs
    take the same actions with the same orders and return the same value, whatever the
    checker answers. *)
Theorem test_and_set_is_exchange a x :
  eq_itree eq (atomic_flag_test_and_set_explicit a x)
    (old ← atomic_exchange_explicit TBool a 1 x; mret (negb (old =? 0)%Z)).
Proof.
  unfold atomic_flag_test_and_set_explicit, atomic_exchange_explicit, ATOMIC_MODIFY,
    model_rmwr_action, model_rmw_action, mbind, user_bind, mret, user_ret.
  rewrite !bind_bind. apply eq_itree_clo_bind with (UU := eq); [reflexivity|]. intros r ? <-.
  rewrite !bind_bind. apply eq_itree_clo_bind with (UU := eq); [reflexivity|]. intros r' ? <-.
  rewrite !bind_ret_l, of_u64_bool. by destruct r.
Qed.
