(* ===== verification/Atomics.v ===== *)
(** * The atomic types (include/impatomic.h)

    The header spells out, for each of its types, the same free functions, member
    functions and operators. A record gathers each group, once for all types, and each
    type of the header is an instance. A pointer type differs in its arithmetic. *)

From S2P Require Import Prelude ClockVector Action HashTable Promise CycleGraph NodeStack Schedule DataRace ExecState ModOrder Step Evolution Scenarios Librace Interface.
From ITree Require Import ITree ITreeFacts.

(** ** The groups of functions *)

(** The free functions every type has. *)
Record atomic_functions := mkAtomicFunctions {
  af_is_lock_free : bool;
  af_load_explicit : N → memory_order → user Z;
  af_load : N → user Z;
  af_init : N → Z → user unit;
  af_store_explicit : N → Z → memory_order → user unit;
  af_store : N → Z → user unit;
  af_exchange_explicit : N → Z → memory_order → user Z;
  af_exchange : N → Z → user Z;
  af_compare_exchange_weak_explicit : N → Z → Z → memory_order → memory_order → user (bool * Z);
  af_compare_exchange_strong_explicit : N → Z → Z → memory_order → memory_order → user (bool * Z);
  af_compare_exchange_weak : N → Z → Z → user (bool * Z);
  af_compare_exchange_strong : N → Z → Z → user (bool * Z)
}.
Definition functions_of (t : ctype) : atomic_functions :=
  mkAtomicFunctions false (atomic_load_explicit t) (atomic_load t) atomic_init atomic_store_explicit atomic_store
    (atomic_exchange_explicit t) (atomic_exchange t)
    (atomic_compare_exchange_weak_explicit t) (atomic_compare_exchange_strong_explicit t)
    (atomic_compare_exchange_weak t) (atomic_compare_exchange_strong t).

(** The arithmetic of the integral types, with an explicit order and without. *)
Record atomic_fetches := mkAtomicFetches {
  fe_explicit : rmw_op → N → Z → memory_order → user Z;
  fe_seq_cst : rmw_op → N → Z → user Z
}.
Definition fetches_of (t : ctype) : atomic_fetches :=
  let f o a m x := ATOMIC_MODIFY t a o m x in
  mkAtomicFetches f (λ o a m, f o a m memory_order_seq_cst).

(** The member functions; the failure order of the three-argument forms is derived. *)
Definition failure_order (x : memory_order) : memory_order :=
  if bool_decide (x = memory_order_acq_rel) then memory_order_acquire
  else if bool_decide (x = memory_order_release) then memory_order_relaxed else x.
Record atomic_members := mkAtomicMembers {
  am_is_lock_free : bool;
  am_store : N → Z → memory_order → user unit;
  am_load : N → memory_order → user Z;
  am_exchange : N → Z → memory_order → user Z;
  am_compare_exchange_weak : N → Z → Z → memory_order → memory_order → user (bool * Z);
  am_compare_exchange_strong : N → Z → Z → memory_order → memory_order → user (bool * Z);
  am_compare_exchange_weak_1 : N → Z → Z → memory_order → user (bool * Z);
  am_compare_exchange_strong_1 : N → Z → Z → memory_order → user (bool * Z)
}.
Definition members_of (f : atomic_functions) : atomic_members :=
  mkAtomicMembers false (af_store_explicit f) (af_load_explicit f) (af_exchange_explicit f)
    (af_compare_exchange_weak_explicit f) (af_compare_exchange_strong_explicit f)
    (λ a e m x, af_compare_exchange_weak_explicit f a e m x (failure_order x))
    (λ a e m x, af_compare_exchange_strong_explicit f a e m x (failure_order x)).

(** The member functions of the arithmetic. *)
Definition fetch_members_of (f : atomic_fetches) : rmw_op → N → Z → memory_order → user Z := fe_explicit f.

(** The operators, with the default order. *)
Record atomic_operators := mkAtomicOperators {
  ao_assign : N → Z → user Z;
  ao_post_inc : N → user Z;
  ao_post_dec : N → user Z;
  ao_pre_inc : N → user Z;
  ao_pre_dec : N → user Z;
  ao_add_assign : N → Z → user Z;
  ao_sub_assign : N → Z → user Z;
  ao_and_assign : N → Z → user Z;
  ao_or_assign : N → Z → user Z;
  ao_xor_assign : N → Z → user Z
}.
Definition operators_of (t : ctype) (f : atomic_functions) (g : atomic_fetches) : atomic_operators :=
  let fetch o a v := fe_seq_cst g o a v in
  mkAtomicOperators
    (λ a v, af_store f a v ;; mret v)
    (λ a, fetch OpAdd a 1%Z) (λ a, fetch OpSub a 1%Z)
    (λ a, r ← fetch OpAdd a 1%Z; mret (conv t (r + 1)))
    (λ a, r ← fetch OpSub a 1%Z; mret (conv t (r - 1)))
    (λ a v, r ← fetch OpAdd a v; mret (conv t (r + v)))
    (λ a v, r ← fetch OpSub a v; mret (conv t (r - v)))
    (λ a v, r ← fetch OpAnd a v; mret (conv t (Z.land r v)))
    (λ a v, r ← fetch OpOr a v; mret (conv t (Z.lor r v)))
    (λ a v, r ← fetch OpXor a v; mret (conv t (Z.lxor r v))).
(** [atomic_bool] has the assignment only. *)
Definition bool_assign (f : atomic_functions) (a : N) (v : Z) : user Z := af_store f a v ;; mret v.

(** ** The types *)

Definition atomic_bool_t : ctype := TBool.
Definition atomic_bool_functions : atomic_functions := functions_of atomic_bool_t.
Definition atomic_bool_members : atomic_members := members_of atomic_bool_functions.
Definition atomic_bool_assign : N → Z → user Z := bool_assign atomic_bool_functions.

Definition atomic_char_t : ctype := TInt 8 true.
Definition atomic_char_functions : atomic_functions := functions_of atomic_char_t.
Definition atomic_char_members : atomic_members := members_of atomic_char_functions.
Definition atomic_char_fetches : atomic_fetches := fetches_of atomic_char_t.
Definition atomic_char_fetch_members : rmw_op → N → Z → memory_order → user Z := fetch_members_of atomic_char_fetches.
Definition atomic_char_operators : atomic_operators := operators_of atomic_char_t atomic_char_functions atomic_char_fetches.

Definition atomic_schar_t : ctype := TInt 8 true.
Definition atomic_schar_functions : atomic_functions := functions_of atomic_schar_t.
Definition atomic_schar_members : atomic_members := members_of atomic_schar_functions.
Definition atomic_schar_fetches : atomic_fetches := fetches_of atomic_schar_t.
Definition atomic_schar_fetch_members : rmw_op → N → Z → memory_order → user Z := fetch_members_of atomic_schar_fetches.
Definition atomic_schar_operators : atomic_operators := operators_of atomic_schar_t atomic_schar_functions atomic_schar_fetches.

Definition atomic_uchar_t : ctype := TInt 8 false.
Definition atomic_uchar_functions : atomic_functions := functions_of atomic_uchar_t.
Definition atomic_uchar_members : atomic_members := members_of atomic_uchar_functions.
Definition atomic_uchar_fetches : atomic_fetches := fetches_of atomic_uchar_t.
Definition atomic_uchar_fetch_members : rmw_op → N → Z → memory_order → user Z := fetch_members_of atomic_uchar_fetches.
Definition atomic_uchar_operators : atomic_operators := operators_of atomic_uchar_t atomic_uchar_functions atomic_uchar_fetches.

Definition atomic_short_t : ctype := TInt 16 true.
Definition atomic_short_functions : atomic_functions := functions_of atomic_short_t.
Definition atomic_short_members : atomic_members := members_of atomic_short_functions.
Definition atomic_short_fetches : atomic_fetches := fetches_of atomic_short_t.
Definition atomic_short_fetch_members : rmw_op → N → Z → memory_order → user Z := fetch_members_of atomic_short_fetches.
Definition atomic_short_operators : atomic_operators := operators_of atomic_short_t atomic_short_functions atomic_short_fetches.

Definition atomic_ushort_t : ctype := TInt 16 false.
Definition atomic_ushort_functions : atomic_functions := functions_of atomic_ushort_t.
Definition atomic_ushort_members : atomic_members := members_of atomic_ushort_functions.
Definition atomic_ushort_fetches : atomic_fetches := fetches_of atomic_ushort_t.
Definition atomic_ushort_fetch_members : rmw_op → N → Z → memory_order → user Z := fetch_members_of atomic_ushort_fetches.
Definition atomic_ushort_operators : atomic_operators := operators_of atomic_ushort_t atomic_ushort_functions atomic_ushort_fetches.

Definition atomic_int_t : ctype := TInt 32 true.
Definition atomic_int_functions : atomic_functions := functions_of atomic_int_t.
Definition atomic_int_members : atomic_members := members_of atomic_int_functions.
Definition atomic_int_fetches : atomic_fetches := fetches_of atomic_int_t.
Definition atomic_int_fetch_members : rmw_op → N → Z → memory_order → user Z := fetch_members_of atomic_int_fetches.
Definition atomic_int_operators : atomic_operators := operators_of atomic_int_t atomic_int_functions atomic_int_fetches.

Definition atomic_uint_t : ctype := TInt 32 false.
Definition atomic_uint_functions : atomic_functions := functions_of atomic_uint_t.
Definition atomic_uint_members : atomic_members := members_of atomic_uint_functions.
Definition atomic_uint_fetches : atomic_fetches := fetches_of atomic_uint_t.
Definition atomic_uint_fetch_members : rmw_op → N → Z → memory_order → user Z := fetch_members_of atomic_uint_fetches.
Definition atomic_uint_operators : atomic_operators := operators_of atomic_uint_t atomic_uint_functions atomic_uint_fetches.

Definition atomic_long_t : ctype := TInt 64 true.
Definition atomic_long_functions : atomic_functions := functions_of atomic_long_t.
Definition atomic_long_members : atomic_members := members_of atomic_long_functions.
Definition atomic_long_fetches : atomic_fetches := fetches_of atomic_long_t.
Definition atomic_long_fetch_members : rmw_op → N → Z → memory_order → user Z := fetch_members_of atomic_long_fetches.
Definition atomic_long_operators : atomic_operators := operators_of atomic_long_t atomic_long_functions atomic_long_fetches.

Definition atomic_ulong_t : ctype := TInt 64 false.
Definition atomic_ulong_functions : atomic_functions := functions_of atomic_ulong_t.
Definition atomic_ulong_members : atomic_members := members_of atomic_ulong_functions.
Definition atomic_ulong_fetches : atomic_fetches := fetches_of atomic_ulong_t.
Definition atomic_ulong_fetch_members : rmw_op → N → Z → memory_order → user Z := fetch_members_of atomic_ulong_fetches.
Definition atomic_ulong_operators : atomic_operators := operators_of atomic_ulong_t atomic_ulong_functions atomic_ulong_fetches.

Definition atomic_llong_t : ctype := TInt 64 true.
Definition atomic_llong_functions : atomic_functions := functions_of atomic_llong_t.
Definition atomic_llong_members : atomic_members := members_of atomic_llong_functions.
Definition atomic_llong_fetches : atomic_fetches := fetches_of atomic_llong_t.
Definition atomic_llong_fetch_members : rmw_op → N → Z → memory_order → user Z := fetch_members_of atomic_llong_fetches.
Definition atomic_llong_operators : atomic_operators := operators_of atomic_llong_t atomic_llong_functions atomic_llong_fetches.

Definition atomic_ullong_t : ctype := TInt 64 false.
Definition atomic_ullong_functions : atomic_functions := functions_of atomic_ullong_t.
Definition atomic_ullong_members : atomic_members := members_of atomic_ullong_functions.
Definition atomic_ullong_fetches : atomic_fetches := fetches_of atomic_ullong_t.
Definition atomic_ullong_fetch_members : rmw_op → N → Z → memory_order → user Z := fetch_members_of atomic_ullong_fetches.
Definition atomic_ullong_operators : atomic_operators := operators_of atomic_ullong_t atomic_ullong_functions atomic_ullong_fetches.

Definition atomic_wchar_t_t : ctype := TInt 32 true.
Definition atomic_wchar_t_functions : atomic_functions := functions_of atomic_wchar_t_t.
Definition atomic_wchar_t_members : atomic_members := members_of atomic_wchar_t_functions.
Definition atomic_wchar_t_fetches : atomic_fetches := fetches_of atomic_wchar_t_t.
Definition atomic_wchar_t_fetch_members : rmw_op → N → Z → memory_order → user Z := fetch_members_of atomic_wchar_t_fetches.
Definition atomic_wchar_t_operators : atomic_operators := operators_of atomic_wchar_t_t atomic_wchar_t_functions atomic_wchar_t_fetches.
(** Pointers: [atomic_address] has its own arithmetic, in bytes; its compound assignments
    return what the arithmetic returns. *)
Definition address_functions : atomic_functions := functions_of TAddress.
Definition address_members : atomic_members := members_of address_functions.
Definition address_fetch (sub : bool) (a : N) (m : Z) (x : memory_order) : user Z :=
  old ← model_rmwr_action a x;
  let old := of_u64 TAddress old in
  let copy := conv TAddress (if sub then old - m else old + m)%Z in
  model_rmw_action a x (to_u64 copy) ;;
  mret old.
Definition address_fetch_add (a : N) (m : Z) (x : memory_order) : user Z := address_fetch false a m x.
Definition address_fetch_sub (a : N) (m : Z) (x : memory_order) : user Z := address_fetch true a m x.
Definition address_assign (a : N) (v : Z) : user Z := af_store address_functions a v ;; mret v.
Definition address_add_assign (a : N) (v : Z) : user Z := address_fetch_add a v memory_order_seq_cst.
Definition address_sub_assign (a : N) (v : Z) : user Z := address_fetch_sub a v memory_order_seq_cst.

(** [atomic<T*>]: the arithmetic counts in elements of [size] bytes. *)
Definition pointer_fetch_add (size : Z) (a : N) (v : Z) (x : memory_order) : user Z :=
  address_fetch_add a (size * v) x.
Definition pointer_fetch_sub (size : Z) (a : N) (v : Z) (x : memory_order) : user Z :=
  address_fetch_sub a (size * v) x.

(** ** Compound assignments *)

(** The specification: read, modify, write, and return what was written. *)
Definition modify_and_return (t : ctype) (a : N) (o : rmw_op) (v : Z) : user Z :=
  old ← model_rmwr_action a memory_order_seq_cst;
  let new := apply_op t o (of_u64 t old) v in
  model_rmw_action a memory_order_seq_cst (to_u64 new) ;;
  mret new.

Lemma fetch_then_return t a o v (k : Z → Z) :
  (∀ old, k old = apply_op t o old v) →
  eq_itree eq (old ← fe_seq_cst (fetches_of t) o a v; mret (k old)) (modify_and_return t a o v).
Proof.
  intros Hk. unfold modify_and_return. simpl. unfold ATOMIC_MODIFY, mbind, user_bind, mret, user_ret.
  rewrite !bind_bind. apply eq_itree_clo_bind with (UU := eq); [reflexivity|]. intros r ? <-.
  rewrite !bind_bind. apply eq_itree_clo_bind with (UU := eq); [reflexivity|]. intros u ? <-.
  rewrite bind_ret_l, Hk. reflexivity.
Qed.

(** ** Properties *)

(** C36. The compound assignments and the prefix operators of every integral type are one
    atomic read-modify-write that returns the value it has written, for all answers of
    the checker. *)
Theorem compound_assignments_return_stored t a v :
  let o := operators_of t (functions_of t) (fetches_of t) in
  eq_itree eq (ao_add_assign o a v) (modify_and_return t a OpAdd v) ∧
  eq_itree eq (ao_sub_assign o a v) (modify_and_return t a OpSub v) ∧
  eq_itree eq (ao_and_assign o a v) (modify_and_return t a OpAnd v) ∧
  eq_itree eq (ao_or_assign o a v) (modify_and_return t a OpOr v) ∧
  eq_itree eq (ao_xor_assign o a v) (modify_and_return t a OpXor v) ∧
  eq_itree eq (ao_pre_inc o a) (modify_and_return t a OpAdd 1) ∧
  eq_itree eq (ao_pre_dec o a) (modify_and_return t a OpSub 1).
Proof. intros o. split_and!; by apply fetch_then_return. Qed.

(** The compound assignment of [atomic_address] returns the value it has read instead. *)
Lemma address_add_assign_returns_old a v :
  eq_itree eq (address_add_assign a v)
    (old ← model_rmwr_action a memory_order_seq_cst;
     let old := of_u64 TAddress old in
     model_rmw_action a memory_order_seq_cst (to_u64 (conv TAddress (old + v))) ;;
     mret old).
Proof. reflexivity. Qed.
