(* ===== verification/Model.v ===== *)
(** * The model checker driver (model.h, model.cc, main.cc, snapshot-interface.cc)

    ModelChecker runs the user program again and again: each execution starts from the
    snapshot taken before the first one, replays the recorded choices up to the point
    where it diverges, and goes on under the scheduler. The actions and the node stack
    live in memory that the snapshot does not cover; everything else of an execution is
    restored by the rollback.

    The user program (its main function and the routine of each [params] address that
    threads are created with), the address of each Thread object and the plugins are
    parameters. *)

From S2P Require Import Prelude ClockVector Action HashTable Promise CycleGraph NodeStack Schedule DataRace ExecState ModOrder Step Evolution Scenarios Librace Interface.
From ITree Require Import ITree.

(** ** Data *)

Record execution_stats := mkStats {
  num_total : Z;
  num_infeasible : Z;
  num_buggy_executions : Z;
  num_complete : Z;
  num_redundant : Z
}.
Definition zero_stats : execution_stats := mkStats 0 0 0 0 0.

(** The snapshots taken, oldest first, and their sequence index. In the code a snapshot is
    an identifier; here it is the state itself, which SnapshotStack justifies. *)
Record snapshot_entry {S : Type} := mkSnapshot { sn_state : S; sn_index : Z }.
Arguments snapshot_entry : clear implicits.
Arguments mkSnapshot {S} sn_state sn_index.

(** The members of ModelChecker, the continuations of the user threads (what a thread
    does with the value its last action returns; none before it has started) and the
    stack of snapshots. *)
Record ModelChecker := mkModelChecker {
  mc_restart_flag : bool;
  mc_exit_flag : bool;
  mc_execution : Exec;
  mc_execution_number : Z;
  mc_diverge : option ptr;
  mc_earliest_diverge : option ptr;
  mc_stats : execution_stats;
  mc_threads : gmap thread_id_t (N → user unit);
  mc_snapshots : list (snapshot_entry Exec)
}.

Definition put_restart_flag v m := mkModelChecker v (mc_exit_flag m) (mc_execution m) (mc_execution_number m) (mc_diverge m) (mc_earliest_diverge m) (mc_stats m) (mc_threads m) (mc_snapshots m).
Definition put_execution v m := mkModelChecker (mc_restart_flag m) (mc_exit_flag m) v (mc_execution_number m) (mc_diverge m) (mc_earliest_diverge m) (mc_stats m) (mc_threads m) (mc_snapshots m).
Definition put_execution_number v m := mkModelChecker (mc_restart_flag m) (mc_exit_flag m) (mc_execution m) v (mc_diverge m) (mc_earliest_diverge m) (mc_stats m) (mc_threads m) (mc_snapshots m).
Definition put_diverge v m := mkModelChecker (mc_restart_flag m) (mc_exit_flag m) (mc_execution m) (mc_execution_number m) v (mc_earliest_diverge m) (mc_stats m) (mc_threads m) (mc_snapshots m).
Definition put_earliest_diverge v m := mkModelChecker (mc_restart_flag m) (mc_exit_flag m) (mc_execution m) (mc_execution_number m) (mc_diverge m) v (mc_stats m) (mc_threads m) (mc_snapshots m).
Definition put_stats v m := mkModelChecker (mc_restart_flag m) (mc_exit_flag m) (mc_execution m) (mc_execution_number m) (mc_diverge m) (mc_earliest_diverge m) v (mc_threads m) (mc_snapshots m).
Definition put_threads v m := mkModelChecker (mc_restart_flag m) (mc_exit_flag m) (mc_execution m) (mc_execution_number m) (mc_diverge m) (mc_earliest_diverge m) (mc_stats m) v (mc_snapshots m).
Definition put_snapshots v m := mkModelChecker (mc_restart_flag m) (mc_exit_flag m) (mc_execution m) (mc_execution_number m) (mc_diverge m) (mc_earliest_diverge m) (mc_stats m) (mc_threads m) v.

(** ** The monad of the driver *)

Definition mc (A : Type) : Type := ModelChecker → result (ModelChecker * A).
#[global] Instance mc_ret : MRet mc := λ A a m, Ok (m, a).
#[global] Instance mc_bind : MBind mc := λ A B k c m, match c m with Ok (m, a) => k a m | Err f => Err f end.
Definition get_mc : mc ModelChecker := λ m, Ok (m, m).
Definition modify_mc (f : ModelChecker → ModelChecker) : mc unit := λ m, Ok (f m, tt).
Definition fail_mc {A} (f : fault) : mc A := λ _, Err f.

(** An operation of the execution. *)
Definition on_exec {A} (c : exec A) : mc A :=
  λ m, match c (mc_execution m) with Ok (s, a) => Ok (put_execution s m, a) | Err f => Err f end.
Definition look {A} (f : Exec → A) : mc A := λ m, Ok (m, f (mc_execution m)).

Fixpoint for_each_mc {A} (f : A → mc unit) (l : list A) : mc unit :=
  match l with [] => mret tt | x :: l => f x ;; for_each_mc f l end.

(** ** Snapshots (snapshot-interface.cc) *)

(** [SnapshotStack::backTrackBeforeStep]: the loop starts at the last snapshot and counts
    upwards, so a second round reads past the vector it has just shortened. *)
Fixpoint backtrack_loop {A} (fuel : nat) (i : nat) (seqindex : Z) (stack : list (snapshot_entry A))
    : result (list (snapshot_entry A) * nat) :=
  match fuel with
  | O => Err OutOfFuel
  | S fuel =>
      e ← at_index stack i;
      if (sn_index e <=? seqindex)%Z then Ok (stack, i)
      else backtrack_loop fuel (i + 1) seqindex (removelast stack)
  end.
Definition backTrackBeforeStep {A} (seqindex : Z) (stack : list (snapshot_entry A))
    : result (list (snapshot_entry A) * snapshot_entry A) :=
  match length stack with
  | O => Err AssertFailed
  | S i =>
      '(stack, i) ← backtrack_loop (S (S i)) i seqindex stack;
      e ← at_index stack i;
      Ok (stack, e)
  end.
Definition snapshot_record (seqindex : Z) : mc unit :=
  modify_mc (λ m, put_snapshots (mc_snapshots m ++ [mkSnapshot (mc_execution m) seqindex]) m).

(** What survives a rollback: the actions and the node stack. The clock vectors of the
    actions lived in the memory that is rolled back; using one of them before it is
    computed anew is a fault. *)
Definition roll_back (snap s : Exec) : Exec :=
  put_acts (set_cv None <$> x_acts s) (put_next_act (x_next_act s) (put_stack (x_stack s) snap)).

(** The contexts of the user threads are restored as well: none had started. *)
Definition snapshot_backtrack_before (seqindex : Z) : mc unit :=
  m ← get_mc;
  match backTrackBeforeStep seqindex (mc_snapshots m) with
  | Err f => fail_mc f
  | Ok (stack, e) =>
      modify_mc (λ m, put_threads ∅ (put_snapshots stack (put_execution (roll_back (sn_state e) (mc_execution m)) m)))
  end.

(** ** Operations *)

(** [ModelExecution::get_next_backtrack]. *)
Definition exec_get_next_backtrack : exec (option ptr) :=
  s ← get; modify (put_next_backtrack None) ;; mret (x_next_backtrack s).

Definition delete_acts (l : list ptr) : exec unit :=
  modify (λ s, put_acts (foldr delete (x_acts s) l) s).

(** [fixup_release_sequences]; [rounds] bounds the loop, [fuel] each step. *)
Fixpoint fixup_release_sequences (params : model_params) (toa : N → option thread_id_t) (fuel rounds : nat) : exec unit :=
  match rounds with
  | O => lift (Err OutOfFuel)
  | S rounds =>
      again ← fixup_release_sequences_step params toa fuel;
      if (again : bool) then fixup_release_sequences params toa fuel rounds else mret tt
  end.

(** The plugins: trace analyses, and the one that may inspect the run. *)
Record plugins := mkPlugins {
  pl_analyze : mc unit;
  pl_inspect : option (mc unit * (option request → mc unit) * mc unit)
    (* analyze, inspectModelAction, actionAtModelCheckingFinish *)
}.
Definition no_plugins : plugins := mkPlugins (mret tt) None.

Section driver.
Context (params : model_params).
Context (thread_addr : thread_id_t → N) (thread_of_addr : N → option thread_id_t).
Context (user_main : user unit) (routine : N → user unit).
Context (plugin : plugins).
(** Bounds: user steps between two switches, the work queue of a step. *)
Context (fuel : nat).

Definition new_ModelChecker : result ModelChecker :=
  s ← new_Exec new_Scheduler new_NodeStack ∅ 1;
  Ok (mkModelChecker false false s 1 None None zero_stats ∅ []).

Definition reset_to_initial_state : mc unit :=
  on_exec (modify (λ s, put_stack (ns_reset_execution (x_stack s)) s)) ;;
  n ← look get_num_threads;
  for_each_mc (λ i, on_exec (t ← thread_at (int_to_id i);
                             match th_pending t with Some p => delete_acts [p] | None => mret tt end))
    (seq 0 n) ;;
  snapshot_backtrack_before 0.

(** [execute_sleep_set]. *)
Definition execute_sleep_set : mc unit :=
  n ← look get_num_threads;
  for_each_mc (λ i, on_exec (
    let tid := int_to_id i in
    thr ← thread_at tid;
    s ← get;
    sleeping ← lift (is_sleep_set (x_sched s) tid);
    match (sleeping : bool), th_pending thr with
    | true, Some p => upd_act p set_sleep_flag
    | _, _ => mret tt
    end)) (seq 0 n).

(** [*diverge < *earliest_diverge]. *)
Definition seq_before (p q : ptr) : exec bool :=
  a ← act_at p; b ← act_at q; mret (a_seq_number a <? a_seq_number b)%N.

(** At the divergence point: execute the same thread with a new behaviour, *)
Definition same_thread_again (next : ptr) : exec thread_id_t :=
  a ← act_at next; s ← get;
  '(ns, freed) ← lift (pop_restofstack 2 (x_stack s));
  modify (put_stack ns) ;; delete_acts freed ;; mret (a_tid a).
(** or make a different thread execute. *)
Definition another_thread (next : ptr) (prevnode : option ptr) : exec thread_id_t :=
  pn ← derefM prevnode;
  a ← act_at next;
  modify (λ s, put_sched (add_sleep (a_tid a) (x_sched s)) s) ;;
  pnode ← Node_at pn;
  '(pnode, tid) ← lift (get_next_backtrack pnode);
  store_node pn pnode ;;
  s ← get;
  '(ns, freed) ← lift (pop_restofstack 1 (x_stack s));
  modify (put_stack ns) ;; delete_acts freed ;; mret tid.

(** The earliest divergence point since the last feasible execution. *)
Definition note_earliest (next : ptr) : mc unit :=
  m ← get_mc;
  earlier ← match mc_earliest_diverge m with
            | None => mret true
            | Some e => on_exec (seq_before next e)
            end;
  if (earlier : bool) then modify_mc (put_earliest_diverge (Some next)) else mret tt.
Definition retract_earliest (prevnode : option ptr) : mc unit :=
  m ← get_mc;
  if bool_decide (mc_diverge m = mc_earliest_diverge m)
  then pnode ← on_exec (pn ← derefM prevnode; Node_at pn);
       modify_mc (put_earliest_diverge (Some (n_action pnode)))
  else mret tt.
(** [scheduler->update_sleep_set(prevnode)]. *)
Definition inherit_sleep_set (prevnode : option ptr) : exec unit :=
  pn ← derefM prevnode; pnode ← Node_at pn; s ← get;
  sc ← lift (update_sleep_set pnode (x_sched s)); modify (put_sched sc).

(** The body of [get_next_thread] at the divergence point. *)
Definition diverge_here (next : ptr) : mc thread_id_t :=
  note_earliest next ;;
  nextnode ← on_exec (get_node_of next);
  node ← on_exec (Node_at nextnode);
  let prevnode := n_parent node in
  on_exec (inherit_sleep_set prevnode) ;;
  let '(node', more) := increment_behaviors node in
  on_exec (store_node nextnode node') ;;
  tid ← (if (more : bool) then on_exec (same_thread_again next)
         else tid ← on_exec (another_thread next prevnode); retract_earliest prevnode ;; mret tid);
  on_exec (modify (λ s, put_sched (set_scheduler_thread tid (x_sched s)) s)) ;;
  execute_sleep_set ;;
  modify_mc (put_diverge None) ;;
  mret tid.

(** [get_next_thread]. *)
Definition get_next_thread : mc (option thread_id_t) :=
  m ← get_mc;
  match mc_diverge m with
  | None =>
      on_exec (s ← get;
               h ← lift (get_head (x_stack s)); h ← derefM h; node ← Node_at h;
               '(sc, t) ← lift (select_next_thread params node (x_sched s));
               modify (put_sched sc) ;; mret t)
  | Some diverge =>
      next ← on_exec (s ← get; n ← lift (get_next (x_stack s)); n ← derefM n; node ← Node_at n; mret (n_action node));
      tid ← (if bool_decide (next = diverge) then diverge_here next
             else on_exec (a ← act_at next; mret (a_tid a)));
      thr ← look (λ s, get_thread s tid);
      mret (match thr with Some _ => Some tid | None => None end)
  end.

(** ** Switching between the checker and the user threads *)

(** [switch_to_master(act)], up to the swap; the continuation is kept for the resumption. *)
Definition switch_to_master (tid : thread_id_t) (act : option request) (k : N → user unit) : mc unit :=
  p ← on_exec (match act with
               | None => mret None
               | Some r => a ← lift (new_ModelAction (rq_type r) (rq_order r) (rq_location r) (rq_value r) tid);
                           p ← new_act a; mret (Some p)
               end);
  on_exec (s ← get; sc ← lift (set_current_thread None (x_sched s)); modify (put_sched sc) ;;
           t ← thread_at tid; assertM (bool_decide (th_pending t = None))) ;;
  match pl_inspect plugin with Some (_, inspectModelAction, _) => inspectModelAction act | None => mret tt end ;;
  on_exec (t ← thread_at tid; t ← lift (set_state THREAD_READY (set_pending p t)); store_thread tid t) ;;
  modify_mc (λ m, put_threads (<[tid := k]> (mc_threads m)) m).

(** The user thread runs until it switches back, or returns from its context. *)
Fixpoint run_user (n : nat) (tid : thread_id_t) (t : user unit) : mc unit :=
  match n with
  | O => fail_mc OutOfFuel
  | S n =>
      match observe t with
      | RetF _ => modify_mc (λ m, put_threads (<[tid := λ _, t]> (mc_threads m)) m)
      | TauF t => run_user n tid t
      | VisF e k =>
          match e in userE X return (X → user unit) → mc unit with
          | ERun m => λ k, x ← on_exec (m tid); run_user n tid (k x)
          | ESwitch act => λ k, switch_to_master tid act k
          end k
      end
  end.

(** What a thread does when it is resumed: its continuation, or its start routine. *)
Definition resumption (tid : thread_id_t) : mc (user unit) :=
  thr ← on_exec (thread_at tid);
  m ← get_mc;
  match mc_threads m !! tid with
  | Some k => mret (k (th_last_action_val thr))
  | None =>
      body ← match th_creation thr with
             | None => mret user_main
             | Some c => a ← on_exec (act_at c); mret (routine (a_value a))
             end;
      mret (thread_startup thread_addr body)
  end.

(** [switch_from_master]. *)
Definition switch_from_master (tid : thread_id_t) : mc unit :=
  on_exec (thr ← thread_at tid; s ← get;
           sc ← lift (set_current_thread (Some (tid, thr)) (x_sched s)); modify (put_sched sc) ;;
           thr ← lift (set_state THREAD_RUNNING thr); store_thread tid thr) ;;
  t ← resumption tid;
  run_user fuel tid t.

(** ** The end of an execution *)

Definition record_stats : mc unit :=
  modify_mc (λ m, put_stats (let s := mc_stats m in
    mkStats (num_total s + 1) (num_infeasible s) (num_buggy_executions s) (num_complete s) (num_redundant s)) m) ;;
  feasible ← look isfeasibleprefix;
  bugs ← look have_bug_reports;
  if negb feasible then
    modify_mc (λ m, put_stats (let s := mc_stats m in
      mkStats (num_total s) (num_infeasible s + 1) (num_buggy_executions s) (num_complete s) (num_redundant s)) m)
  else if (bugs : bool) then
    modify_mc (λ m, put_stats (let s := mc_stats m in
      mkStats (num_total s) (num_infeasible s) (num_buggy_executions s + 1) (num_complete s) (num_redundant s)) m)
  else
    complete ← on_exec (is_complete_execution params);
    if (complete : bool) then
      modify_mc (λ m, put_stats (let s := mc_stats m in
        mkStats (num_total s) (num_infeasible s) (num_buggy_executions s) (num_complete s + 1) (num_redundant s)) m)
    else
      modify_mc (λ m, put_stats (let s := mc_stats m in
        mkStats (num_total s) (num_infeasible s) (num_buggy_executions s) (num_complete s) (num_redundant s + 1)) m).

Definition do_restart : mc unit :=
  modify_mc (λ m, put_restart_flag false (put_diverge None (put_earliest_diverge None m))) ;;
  reset_to_initial_state ;;
  on_exec (s ← get; let '(ns, freed) := full_reset (x_stack s) in modify (put_stack ns) ;; delete_acts freed) ;;
  modify_mc (λ m, put_stats zero_stats (put_execution_number 1%Z m)).

Definition next_execution : mc bool :=
  feasible ← look isfeasibleprefix;
  bugs ← look have_bug_reports;
  complete ← (if (feasible : bool) then
                c ← on_exec (is_complete_execution params); mret ((c : bool) || bugs)
              else mret false);
  (if (complete : bool) then
     d ← on_exec is_deadlocked;
     (if (d : bool) then on_exec (assert_bug BugDeadlock) ;; mret tt else mret tt) ;;
     on_exec checkDataRaces ;;
     pl_analyze plugin
   else match pl_inspect plugin with
        | Some (analyze, _, _) =>
            c ← on_exec (is_complete_execution params);
            many ← look (too_many_steps params);
            if negb c && many then analyze else mret tt
        | None => mret tt
        end) ;;
  record_stats ;;
  (if (complete : bool) then modify_mc (put_earliest_diverge None) else mret tt) ;;
  m ← get_mc;
  if mc_restart_flag m then do_restart ;; mret true
  else if mc_exit_flag m then mret false
  else
    d ← on_exec exec_get_next_backtrack;
    modify_mc (put_diverge d) ;;
    match d with
    | None => mret false
    | Some _ =>
        modify_mc (λ m, put_execution_number (mc_execution_number m + 1)%Z m) ;;
        m ← get_mc;
        if negb (maxexecutions params =? 0)%Z && (maxexecutions params <=? num_complete (mc_stats m))%Z
        then mret false
        else reset_to_initial_state ;; mret true
    end.

Definition should_terminate_execution : mc bool :=
  s ← look id;
  if is_infeasible s then mret true
  else if isfeasibleprefix s && have_bug_reports s then on_exec set_assert ;; mret true
  else mret (too_many_steps params s).

(** ** The main loop *)

(** Stash the next pending action of every thread that has none. *)
Definition stash_thread (i : nat) : mc unit :=
  let tid := int_to_id i in
  thr ← on_exec (thread_at tid);
  if negb (th_model_thread thr) && negb (is_complete thr) && bool_decide (th_pending thr = None) then
    switch_from_master tid ;;
    w ← on_exec (is_waiting_on thread_of_addr fuel tid tid);
    if (w : bool) then on_exec (assert_bug BugDeadlock) ;; mret tt else mret tt
  else mret tt.
Definition stash_pending : mc unit := n ← look get_num_threads; for_each_mc stash_thread (seq 0 n).

(** Don't schedule threads which should be disabled. *)
Definition disable_blocked : mc unit :=
  n ← look get_num_threads;
  for_each_mc (λ i, on_exec (
    th ← thread_at (int_to_id i);
    match th_pending th with
    | Some act =>
        s ← get;
        if is_enabled s (int_to_id i) then
          ok ← check_action_enabled params thread_of_addr act;
          if negb ok then scheduler_sleep (int_to_id i) else mret tt
        else mret tt
    | None => mret tt
    end)) (seq 0 n).

(** One round of the inner loop; [None] is [break]. *)
Definition round (t : option thread_id_t) : mc (option (option thread_id_t)) :=
  stash_pending ;;
  disable_blocked ;;
  stop ← look has_asserted;
  if (stop : bool) then mret None
  else
    t ← match t with Some t => mret (Some t) | None => get_next_thread end;
    match t with
    | None => mret None
    | Some t =>
        thr ← on_exec (thread_at t);
        if th_model_thread thr then mret None
        else
          curr ← on_exec (curr ← derefM (th_pending thr); store_thread t (set_pending None thr) ;; mret curr);
          t ← on_exec (take_step params thread_of_addr fuel curr);
          mret (Some t)
    end.

(** The inner loop; [rounds] bounds it. *)
Fixpoint run_rounds (rounds : nat) (t : option thread_id_t) : mc unit :=
  match rounds with
  | O => fail_mc OutOfFuel
  | S rounds =>
      r ← round t;
      match r with
      | None => mret tt
      | Some t =>
          stop ← should_terminate_execution;
          if (stop : bool) then mret tt else run_rounds rounds t
      end
  end.

(** One execution of the user program, and whether there is another one. *)
Definition run_once (rounds : nat) : mc bool :=
  t ← on_exec (tid ← get_next_id; add_Thread tid (new_Thread None) ;; mret tid);
  run_rounds rounds (Some t) ;;
  has_next ← next_execution;
  match pl_inspect plugin, has_next with
  | Some (_, _, actionAtModelCheckingFinish), false =>
      actionAtModelCheckingFinish ;;
      m ← get_mc;
      if mc_restart_flag m then do_restart ;; mret true else mret false
  | _, _ => mret has_next
  end.

(** [run]; [executions] bounds the number of executions. *)
Fixpoint run_executions (rounds executions : nat) : mc unit :=
  match executions with
  | O => fail_mc OutOfFuel
  | S executions =>
      has_next ← run_once rounds;
      if (has_next : bool) then run_executions rounds executions else mret tt
  end.
Definition run (rounds executions : nat) : mc unit :=
  run_executions rounds executions ;;
  on_exec (fixup_release_sequences params thread_of_addr fuel rounds).

(** [model_main]: the checker is constructed and the first snapshot taken. *)
Definition model_main (rounds executions : nat) : result ModelChecker :=
  m ← new_ModelChecker;
  '(m, _) ← (snapshot_record 0 ;; run rounds executions) m;
  Ok m.
End driver.
