(* ===== verification/Litmus.v ===== *)
(** * Whole runs of the checker

    Small user programs, written against the interface, run through the whole model:
    driver, scheduler, execution, race detector. They show that the definitions compute
    what the checker computes (the numbers of executions, the bugs found) and supply the
    concrete states at which theorems about the driver are applied. *)

From S2P Require Import Prelude ClockVector Action HashTable Promise CycleGraph NodeStack Schedule DataRace ExecState ModOrder Step Evolution Scenarios Librace Interface Model.
From ITree Require Import ITree.

(** Thread objects are allocated from address 4096. *)
Definition thread_address (t : thread_id_t) : N := (4096 + N.of_nat t)%N.
Definition thread_at_address (a : N) : option thread_id_t :=
  if (4096 <=? a)%N then Some (N.to_nat (a - 4096)) else None.

Definition int : ctype := TInt 32 true.
Definition join (t : N) : user unit := th ← read_thrd thread_address t; thrd_join thread_at_address th ;; mret tt.

(** A run with generous bounds and the default parameters. *)
Definition check (user_main : user unit) (routine : N → user unit) : result ModelChecker :=
  model_main default_params thread_address thread_at_address user_main routine no_plugins 200 100 100.
Definition statistics (r : result ModelChecker) : result execution_stats := m ← r; Ok (mc_stats m).
Definition final_bugs (r : result ModelChecker) : result (list bug) := m ← r; Ok (x_bugs (mc_execution m)).

(** The end of the first execution of a program. *)
Definition first_execution_of (user_main : user unit) (routine : N → user unit) : Exec :=
  match (m0 ← new_ModelChecker;
         (snapshot_record 0 ;;
          t ← on_exec (tid ← get_next_id; add_Thread tid (new_Thread None) ;; mret tid);
          run_rounds default_params thread_address thread_at_address user_main routine no_plugins 200 100 (Some t)) m0) with
  | Ok (m, _) => mc_execution m
  | Err _ => blank_Exec
  end.

(** One store and one load by two threads: the load sees the store or it does not. *)
Definition store_load_main : user unit :=
  atomic_init 64 0 ;; thrd_create 80 1 ;; atomic_store 64 7 ;; join 80.
Definition store_load_thread (p : N) : user unit := atomic_load int 64 ;; mret tt.
Example store_load_runs : statistics (check store_load_main store_load_thread) = Ok (mkStats 2 0 0 2 0).
Proof. vm_compute. reflexivity. Qed.

(** Store buffering. Each thread stores to its variable, loads the other one and leaves
    what it saw at 96 or 104; the main thread asserts that one of them saw a store. *)
Definition sb_main : user unit :=
  atomic_init 64 0 ;; atomic_init 72 0 ;;
  thrd_create 80 1 ;; thrd_create 88 2 ;; join 80 ;; join 88 ;;
  r1 ← user_load 4 96; r2 ← user_load 4 104;
  model_assert (negb ((r1 =? 0)%N && (r2 =? 0)%N)).
Definition sb_thread (ord : memory_order) (p : N) : user unit :=
  if (p =? 1)%N then
    atomic_store_explicit 64 1 ord ;; r ← atomic_load_explicit int 72 ord; user_store 4 96 (to_u64 r)
  else
    atomic_store_explicit 72 1 ord ;; r ← atomic_load_explicit int 64 ord; user_store 4 104 (to_u64 r).

(** Two threads increment atomically: the sum is never wrong. *)
Definition inc_main : user unit :=
  atomic_init 64 0 ;; thrd_create 80 1 ;; thrd_create 88 1 ;; join 80 ;; join 88 ;;
  v ← atomic_load int 64; model_assert (v =? 2)%Z.
Definition inc_thread (p : N) : user unit := atomic_fetch_add_explicit int 64 1 memory_order_relaxed ;; mret tt.
(** With a load and a store instead, an increment can be lost. *)
Definition lossy_thread (p : N) : user unit := v ← atomic_load int 64; atomic_store 64 (v + 1).

Example inc_runs : num_buggy_executions <$> statistics (check inc_main inc_thread) = Ok 0%Z.
Proof. vm_compute. reflexivity. Qed.
Example lossy_runs : num_buggy_executions <$> statistics (check inc_main lossy_thread) = Ok 2%Z.
Proof. vm_compute. reflexivity. Qed.

(** A thread that locks a mutex twice waits for itself. *)
Example self_deadlock :
  final_bugs (check (mutex_create 200 ;; mutex_lock 200 ;; mutex_lock 200 ;; mret tt) (λ _, mret tt)) =
    Ok [BugDeadlock; BugDeadlock].
Proof. vm_compute. reflexivity. Qed.

(** A critical section; and a spinning flag in its place. *)
Definition guarded (enter leave : user unit) : user unit :=
  enter ;; v ← user_load 4 96; user_store 4 96 (v + 1) ;; leave.
Definition guarded_main (enter leave : user unit) : user unit :=
  mutex_create 200 ;; atomic_flag_clear 208 ;; thrd_create 80 1 ;;
  guarded enter leave ;; join 80 ;; v ← user_load 4 96; model_assert (v =? 2)%N.
Example mutex_protects :
  num_buggy_executions <$> statistics
    (check (guarded_main (mutex_lock 200) (mutex_unlock 200)) (λ _, guarded (mutex_lock 200) (mutex_unlock 200))) = Ok 0%Z.
Proof. vm_compute. reflexivity. Qed.
Example unguarded_races :
  num_buggy_executions <$> statistics (check (guarded_main (mret tt) (mret tt)) (λ _, guarded (mret tt) (mret tt))) = Ok 1%Z.
Proof. vm_compute. reflexivity. Qed.

(** ** Properties *)

(** Store buffering is told apart. With relaxed atomics the checker finds the one
    execution in which both loads miss the stores, besides the three others; with
    acquire-release it finds it as well; with sequentially consistent atomics it explores
    the three others and reports no bug. *)
Theorem store_buffering :
  statistics (check sb_main (sb_thread memory_order_relaxed)) = Ok (mkStats 6 2 1 3 0) ∧
  statistics (check sb_main (sb_thread memory_order_acq_rel)) = Ok (mkStats 4 0 1 3 0) ∧
  statistics (check sb_main (sb_thread memory_order_seq_cst)) = Ok (mkStats 3 0 0 3 0).
Proof. split_and!; vm_compute; reflexivity. Qed.
