(* ===== verification/TestPrograms.v ===== *)
(** * The test programs of the repository (test/, test/litmus/)

    The programs the checker is tested with, written against its interface, and what the
    checker finds when it runs them. A plain variable that the program accesses without
    librace is a cell of the memory, and so is a value that the program prints, where the
    outcome of a test is told by it; other output is left out. *)

From S2P Require Import Prelude ClockVector Action HashTable Promise CycleGraph NodeStack Schedule DataRace ExecState ModOrder Step Evolution Scenarios Librace Interface Model Litmus.
From ITree Require Import ITree.

(** ** Programs *)

(** [user_main] and the routines of the threads, which are created by their number from 1. *)
Record program := mkProgram { pg_main : user unit; pg_routines : list (user unit) }.

Definition set_plain (addr : N) (v : Z) : user unit := run_here (λ _, modify (λ s, put_memory (<[addr := to_u64 v]> (x_memory s)) s)).
Definition get_plain (addr : N) : user Z := run_here (λ _, s ← get; mret (of_u64 int (default 0%N (x_memory s !! addr)))).

(** Variables: the atomics [x], [y], [z], a [thrd_t] per routine, results, plain data,
    mutexes and a condition variable. *)
Definition x : N := 64.
Definition y : N := 72.
Definition z : N := 56.
Definition t (i : nat) : N := (1024 + 8 * N.of_nat i)%N.
Definition r (i : nat) : N := (512 + 8 * N.of_nat i)%N.
Definition print (i : nat) (n : Z) : user unit := set_plain (r i) n.
Definition var : N := 96.
Definition m : N := 200.
Definition m2 : N := 216.
Definition v : N := 232.

Definition rlx : memory_order := memory_order_relaxed.
Definition acq : memory_order := memory_order_acquire.
Definition rel : memory_order := memory_order_release.
Definition sc : memory_order := memory_order_seq_cst.
Abbreviation load := (atomic_load_explicit int).
Abbreviation store := atomic_store_explicit.
Abbreviation fetch_add := (atomic_fetch_add_explicit int).
Abbreviation fetch_sub := (atomic_fetch_sub_explicit int).
Definition skip {A} (c : user A) : user unit := c ;; mret tt.
Definition while {A} (c : user (option A)) : user A := ITree.iter (λ _ : unit, o ← c; mret (match o with Some a => inr a | None => inl tt end)) tt.

(** The threads [i] … [i + n - 1] are created, and joined. *)
Definition fork_join (i n : nat) : user unit :=
  foldr (λ i k, thrd_create (t i) (N.of_nat i) ;; k) (foldr (λ i k, join (t i) ;; k) (mret tt) (seq i n)) (seq i n).

(** The result of a program is that of the checker, with bounds that are large enough. *)
Definition run_test (params : model_params) (p : program) : result ModelChecker :=
  model_main params thread_address thread_at_address (pg_main p) (λ i, default (mret tt) (pg_routines p !! (N.to_nat i - 1)))
    no_plugins 500 2000 2000.

Definition test_userprog : program := mkProgram (atomic_init x 0 ;; atomic_init y 0 ;; fork_join 1 2)
  [r1 ← load y rlx; store x r1 rlx; load x rlx ;; store y 42 rlx].
Definition test_rmwprog : program :=
  let a := fetch_add x 1 rlx ;; skip (fetch_add x 1 rlx) in
  mkProgram (atomic_init x 0 ;; fork_join 1 2 ;; n ← atomic_load int x; model_assert (n =? 4)%Z) [a; a].
Definition test_rmw2prog : program := mkProgram (atomic_init x 0 ;; atomic_init y 0 ;; fork_join 1 2)
  [fetch_add x 1 rlx ;; skip (fetch_add y 1 rlx); fetch_add y 1 rlx ;; skip (fetch_add x 1 rlx)].
Definition test_fences : program := mkProgram (atomic_init x 0 ;; atomic_init y 0 ;; fork_join 1 2)
  [store x 1 rlx ;; store x 2 rlx ;; atomic_thread_fence sc ;; skip (load y rlx);
   store y 1 rlx ;; store y 2 rlx ;; atomic_thread_fence sc ;; skip (load x rlx)].
Definition test_fences2 : program := mkProgram (atomic_init x 0 ;; atomic_init y 0 ;; fork_join 1 2)
  [store x 1 rlx ;; atomic_thread_fence rel ;; store x 2 rlx;
   r1 ← load x rlx; atomic_thread_fence acq ;; r2 ← load x rlx;
   if (r1 =? 2)%Z then model_assert (negb (r2 =? 1)%Z) else mret tt].
Definition test_uninit : program := mkProgram (atomic_init x 0 ;; fork_join 1 3)
  [flag ← load x acq; (if (flag =? 2)%Z then skip (load y rlx) else mret tt);
   skip (fetch_add x 1 rlx);
   store y 3 rlx ;; store x 1 rel].
Definition test_deadlock : program := mkProgram (mutex_create m ;; mutex_create m2 ;; fork_join 1 2)
  [mutex_lock m ;; mutex_lock m2 ;; user_load 4 var ;; mutex_unlock m2 ;; mutex_unlock m;
   mutex_lock m2 ;; mutex_lock m ;; user_store 4 var 16 ;; mutex_unlock m ;; mutex_unlock m2].
Definition test_mutextest : program :=
  let a := mutex_lock m ;; user_store 4 var 0 ;; mutex_unlock m ;;
           while (b ← mutex_try_lock m; if (b : bool) then mret (Some tt) else thrd_yield thread_address ;; mret None) ;;
           user_store 4 var 1 ;; mutex_unlock m in
  mkProgram (mutex_create m ;; fork_join 1 2) [a; a].
Definition test_condvar : program := mkProgram (user_store 4 var 0 ;; mutex_create m ;; fork_join 1 2)
  [mutex_lock m ;; while (d ← user_load 4 var; if (d =? 0)%N then condvar_wait v m ;; mret None else mret (Some tt)) ;; mutex_unlock m;
   mutex_lock m ;; user_store 4 var 1 ;; condvar_notify_all v ;; mutex_unlock m].
Definition test_releaseseq : program := mkProgram (atomic_init x 0 ;; fork_join 1 3)
  [user_store 4 var 1 ;; store x 1 rel ;; store x 42 rlx;
   load x acq ;; skip (user_load 4 var);
   store x 2 rlx].
Definition test_double_relseq : program :=
  let b := load x acq ;; skip (user_load 4 var) in
  mkProgram (atomic_init x 0 ;; fork_join 1 4) [user_store 4 var 1 ;; store x 1 rel ;; store x 42 rlx; b; b; store x 2 rlx].
Definition test_sctest : program := mkProgram (atomic_init x 0 ;; atomic_init y 0 ;; atomic_init z 0 ;; fork_join 1 4)
  [store z 1 rlx;
   store x 1 rlx ;; store y 1 rlx ;; r1 ← load z rlx; print 1 r1;
   store z 2 rlx ;; store x 2 rlx ;; r2 ← load y rlx; print 2 r2;
   store z 3 rlx ;; store y 2 rlx ;; r3 ← load x rlx; print 3 r3].
Definition test_thinair : program := mkProgram (atomic_init x (-1) ;; atomic_init y 0 ;; fork_join 1 2)
  [r1 ← load x rlx; store y r1 rlx; r2 ← load y rlx; store x r2 rlx ;; store x (r2 + 1) rlx].
Definition test_nestedpromise : program := mkProgram (atomic_init x 0 ;; atomic_init y 0 ;; atomic_init z 0 ;; fork_join 1 2)
  [load z rlx ;; load x rlx ;; store y 1 rlx; t2 ← load y rlx; store x t2 rlx].
Definition test_csetest : program :=
  let a := x in let b := y in
  mkProgram (atomic_init a 0 ;; atomic_init b 1 ;; fork_join 1 2)
    [r1 ← load a rlx; r2 ← load a rlx; (if (r1 =? r2)%Z then store b 2 rlx else mret tt); r3 ← load b rlx; store a r3 rlx].
Definition test_double_read_fv : program := mkProgram (atomic_init x 0 ;; atomic_init y 0 ;; fork_join 1 2)
  [r1 ← load x rlx; r2 ← load x rlx; print 1 r1 ;; print 2 r2; store y 43 rlx ;; store x 42 rlx].

Definition idx : N := 80.
(** [x[0]] is [x] and [x[1]] is [x + 4]. *)
Definition elem (i : Z) : N := (x + 4 * Z.to_N i)%N.
Definition test_addr_satcycle : program := mkProgram
  (atomic_init x 1 ;; atomic_init idx 0 ;; atomic_init y 0 ;; fork_join 1 2 ;;
   r1 ← get_plain (r 1); r2 ← get_plain (r 2); r3 ← get_plain (r 3);
   model_assert (negb ((r1 =? 1) && (r2 =? 1) && (r3 =? 1))%Z))
  [r1 ← load idx rlx; print 1 r1 ;; store (elem r1) 0 rlx ;; r2 ← load x rlx; print 2 r2 ;; store y r2 sc;
   r3 ← load y rlx; print 3 r3 ;; store idx r3 rlx].
Definition test_mo_satcycle : program := mkProgram
  (atomic_init x 0 ;; atomic_init y 0 ;; fork_join 1 3 ;;
   r0 ← get_plain (r 0); r1 ← get_plain (r 1); r2 ← get_plain (r 2); r3 ← get_plain (r 3);
   model_assert (negb ((r0 =? 1) && (r1 =? 0) && (r2 =? 11) && (r3 =? 10))%Z))
  [store y 10 rlx ;; store x 1 rel;
   r0 ← load x rlx; print 0 r0 ;; r1 ← load x acq; print 1 r1 ;; store y 11 rlx;
   r2 ← load y rlx; print 2 r2 ;; r3 ← load y rlx; print 3 r3 ;;
   if ((r2 =? 11) && (r3 =? 10))%Z then store x 0 rlx else mret tt].
Definition test_iriw : program := mkProgram
  (atomic_init x 0 ;; atomic_init y 0 ;; fork_join 1 4 ;;
   r1 ← get_plain (r 1); r2 ← get_plain (r 2); r3 ← get_plain (r 3); r4 ← get_plain (r 4);
   model_assert (negb ((r1 =? 1) && (r2 =? 0) && (r3 =? 1) && (r4 =? 0))%Z))
  [store x 1 sc; store y 1 sc;
   r1 ← load x acq; print 1 r1 ;; r2 ← load y sc; print 2 r2;
   r3 ← load y acq; print 3 r3 ;; r4 ← load x sc; print 4 r4].
(** insanesync.cc: [z] and [z2] hold addresses of atomics. *)
Definition z2 : N := 88.
Definition intptr : ctype := TInt 64 true.
Definition test_insanesync : program := mkProgram
  (atomic_init x 0 ;; atomic_init y 0 ;; atomic_init z (Z.of_N x) ;; atomic_init z2 (Z.of_N x) ;; fork_join 1 3)
  [store z (Z.of_N y) rlx ;; r1 ← fetch_add y 1 rel; print 1 r1 ;; store z (Z.of_N x) rlx ;; r2 ← fetch_add y 1 rel; print 2 r2;
   r3 ← fetch_add y 1 acq; print 3 r3 ;; ptr ← atomic_load_explicit intptr z rlx; store z2 ptr rlx;
   ptr2 ← atomic_load_explicit intptr z2 rlx; store (Z.to_N ptr2) 5 rlx].

(** wrc.c and wrcs.c: a chain of seven variables. *)
Definition chain (i : nat) : N := (64 + 8 * N.of_nat i)%N.
Definition wrc_program (ord : memory_order) : program := mkProgram
  (foldr (λ i k, atomic_init (chain i) 0 ;; k) (fork_join 1 8) (seq 1 7))
  ([store (chain 1) 1 ord] ++ map (λ i, load (chain i) ord ;; store (chain (S i)) 1 ord) (seq 1 6) ++
   [load (chain 7) ord ;; skip (load (chain 1) ord)]).
Definition test_wrc : program := wrc_program rlx.
Definition test_wrcs : program := wrc_program sc.

Definition litmus_load_buffer : program := mkProgram (atomic_init x 0 ;; atomic_init y 0 ;; fork_join 1 2)
  [a ← load x rlx; print 1 a ;; store y 1 rlx; b ← load y rlx; print 2 b ;; store x 1 rlx].
Definition litmus_store_buffer : program := mkProgram (atomic_init x 0 ;; atomic_init y 0 ;; fork_join 1 2)
  [store x 1 rlx ;; a ← load y rlx; print 1 a; store y 1 rlx ;; b ← load x rlx; print 2 b].
Definition litmus_message_passing : program := mkProgram (atomic_init x 0 ;; atomic_init y 0 ;; fork_join 1 3)
  [store x 1 rlx ;; store y 1 rlx;
   y1 ← load y rlx; print 1 y1 ;; x1 ← load x rlx; print 2 x1;
   x2 ← load x rlx; print 3 x2 ;; y2 ← load y rlx; print 4 y2].
Definition litmus_iriw (store_mo load_mo : memory_order) : program := mkProgram (atomic_init x 0 ;; atomic_init y 0 ;; fork_join 1 4)
  [store x 1 store_mo; store y 1 store_mo;
   x1 ← load x load_mo; print 1 x1 ;; y1 ← load y load_mo; print 2 y1;
   y2 ← load y load_mo; print 3 y2 ;; x2 ← load x load_mo; print 4 x2].
(** seq-lock.cc with its [N] as given; the loop is unrolled. *)
Definition litmus_seq_lock (n : nat) : program := mkProgram (atomic_init x 0 ;; atomic_init y 0 ;; atomic_init z 0 ;; fork_join 1 2)
  [foldr (λ i k, store x (2 * Z.of_nat i + 1) rel ;; store y (Z.of_nat i + 1) rel ;; store z (Z.of_nat i + 1) rel ;;
                 store x (2 * Z.of_nat i + 2) rel ;; k) (mret tt) (seq 0 n);
   x1 ← load x acq; y1 ← load y acq; z1 ← load z acq; x2 ← load x acq;
   model_assert (negb (x1 =? x2) || negb (Z.land x1 1 =? 0) || (y1 =? z1))%Z].
(** wrc.cc with its [N] as given. *)
Definition litmus_wrc (n : nat) : program := mkProgram
  (foldr (λ i k, atomic_init (chain i) 0 ;; k) (fork_join 1 (n + 1)) (seq 0 n))
  (map (λ i, (if 0 <? i then skip (load (chain (i - 1)) rlx) else mret tt) ;;
             if i <? n then store (chain i) 1 rlx else skip (load (chain 0) rlx)) (seq 0 (n + 1))).

(** ** What the checker finds *)

(** The result of a run: how many executions end normally, and how many have a bug. *)
Definition outcome (p : program) : result (Z * Z) :=
  st ← statistics (run_test default_params p); Ok (num_complete st, num_buggy_executions st).

(** Whether the values printed first, second, … are as given, and the program with an assertion that they are not as
    given, so that an execution with these values is reported. *)
Definition printed (values : list Z) : user bool :=
  foldr (λ '(i, n) k, v ← get_plain (r (S i)); if (v =? n)%Z then k else mret false) (mret true) (imap pair values).
Definition excluding (values : list Z) (p : program) : program :=
  mkProgram (pg_main p ;; b ← printed values; model_assert (negb b)) (pg_routines p).

(** The tests with an assertion, and the one on uninitialized loads. *)
Lemma asserting_tests_pass :
  outcome test_rmwprog = Ok (6, 0)%Z ∧ outcome test_fences2 = Ok (6, 0)%Z ∧ outcome test_uninit = Ok (6, 0)%Z ∧
  outcome test_addr_satcycle = Ok (4, 0)%Z ∧ outcome test_mo_satcycle = Ok (21, 0)%Z ∧ outcome test_iriw = Ok (12, 0)%Z ∧
  outcome (litmus_seq_lock 1) = Ok (18, 0)%Z.
Proof. split_and!; vm_compute; reflexivity. Qed.

(** The weak outcomes of the litmus tests. *)
Lemma litmus_outcomes :
  outcome (excluding [1; 1]%Z litmus_load_buffer) = Ok (3, 1)%Z ∧
  outcome (excluding [0; 0]%Z litmus_store_buffer) = Ok (3, 1)%Z ∧
  outcome (excluding [1; 0]%Z litmus_message_passing) = Ok (12, 4)%Z ∧
  outcome (excluding [1; 0; 1; 0]%Z (litmus_iriw rel acq)) = Ok (15, 1)%Z ∧
  outcome (excluding [1; 0; 1; 0]%Z (litmus_iriw sc sc)) = Ok (15, 0)%Z.
Proof. split_and!; vm_compute; reflexivity. Qed.

(** Outcomes that comments exclude. *)
Lemma excluded_outcomes_occur :
  outcome (excluding [42; 42]%Z test_double_read_fv) = Ok (2, 1)%Z ∧
  outcome (excluding [0; 1; 5]%Z test_insanesync) = Ok (18, 1)%Z.
Proof. split; vm_compute; reflexivity. Qed.


(** The remaining tests that end: two of them have a data race, one a deadlock. *)
Example other_tests :
  map outcome [test_userprog; test_rmw2prog; test_fences; test_deadlock; test_releaseseq; test_double_relseq; test_nestedpromise;
    test_csetest; litmus_wrc 2] =
  map Ok [(4, 0); (4, 0); (6, 0); (2, 1); (1, 2); (1, 6); (4, 0); (4, 0); (8, 0)]%Z.
Proof. vm_compute. reflexivity. Qed.

(** With a bound on the length of executions, as option -b sets it, the programs whose
    loops make the executions infinite in number are explored as well. *)
Definition bounded (n : N) : model_params := mkParams 0 6 false false 0 1 n 0 0 0 4 0.
Example bounded_tests :
  map (λ p, num_buggy_executions <$> statistics (run_test (bounded 20) p)) [test_mutextest; test_condvar] = [Ok 0; Ok 0]%Z.
Proof. vm_compute. reflexivity. Qed.
