(* ===== verification/SCAnalysis.v ===== *)
(** * SC trace analysis (scanalysis.h, scanalysis.cc)

    A plugin that tries to explain a finished trace by a total order of its actions that
    respects program order and in which every read reads from the last write before it.
    It keeps clock vectors of its own, for the order it has found so far. They are
    objects shared by reference in the source; here they are named by the action they
    belong to, and every update goes through the table. *)

From stdpp Require Import strings.
From S2P Require Import Prelude ClockVector Action HashTable Promise CycleGraph NodeStack Schedule DataRace ExecState ModOrder Step Evolution Scenarios Librace Interface Model Litmus.

(** ** Data *)

Record sc_statistics := mkSCStatistics {
  sc_sccount : N;
  sc_nonsccount : N;
  sc_actions : N
}.

Record SCAnalysis := mkSCAnalysis {
  sa_maxthreads : nat;
  sa_cvmap : gmap ptr ClockVector;          (* a NULL entry is an absent one *)
  sa_cyclic : bool;
  sa_badrfset : gmap ptr (option ptr);
  sa_lastwrmap : gmap N ptr;
  sa_threadlists : list (list ptr);
  sa_stats : sc_statistics
}.
Definition new_SCAnalysis : SCAnalysis := mkSCAnalysis 0 ∅ false ∅ ∅ [[]] (mkSCStatistics 0 0 0).

(** The options, which only say what is printed; [sc_option] returns true for help. *)
Record sc_options := mkSCOptions { so_print_always : bool; so_print_buggy : bool; so_print_nonsc : bool; so_time : bool }.
Definition default_sc_options : sc_options := mkSCOptions false true false false.
Definition sc_option (opt : string) (o : sc_options) : sc_options * bool :=
  if decide (opt = "verbose") then (mkSCOptions true (so_print_buggy o) (so_print_nonsc o) (so_time o), false)
  else if decide (opt = "buggy") then (o, false)
  else if decide (opt = "quiet") then (mkSCOptions (so_print_always o) false (so_print_nonsc o) (so_time o), false)
  else if decide (opt = "nonsc") then (mkSCOptions (so_print_always o) (so_print_buggy o) true (so_time o), false)
  else if decide (opt = "time") then (mkSCOptions (so_print_always o) (so_print_buggy o) (so_print_nonsc o) true, false)
  else (o, true).

Definition put_maxthreads v x := mkSCAnalysis v (sa_cvmap x) (sa_cyclic x) (sa_badrfset x) (sa_lastwrmap x) (sa_threadlists x) (sa_stats x).
Definition put_cvmap v x := mkSCAnalysis (sa_maxthreads x) v (sa_cyclic x) (sa_badrfset x) (sa_lastwrmap x) (sa_threadlists x) (sa_stats x).
Definition put_cyclic v x := mkSCAnalysis (sa_maxthreads x) (sa_cvmap x) v (sa_badrfset x) (sa_lastwrmap x) (sa_threadlists x) (sa_stats x).
Definition put_badrfset v x := mkSCAnalysis (sa_maxthreads x) (sa_cvmap x) (sa_cyclic x) v (sa_lastwrmap x) (sa_threadlists x) (sa_stats x).
Definition put_lastwrmap v x := mkSCAnalysis (sa_maxthreads x) (sa_cvmap x) (sa_cyclic x) (sa_badrfset x) v (sa_threadlists x) (sa_stats x).
Definition put_threadlists v x := mkSCAnalysis (sa_maxthreads x) (sa_cvmap x) (sa_cyclic x) (sa_badrfset x) (sa_lastwrmap x) v (sa_stats x).
Definition put_sc_stats v x := mkSCAnalysis (sa_maxthreads x) (sa_cvmap x) (sa_cyclic x) (sa_badrfset x) (sa_lastwrmap x) (sa_threadlists x) v.

(** ** The monad of the analysis *)

Definition sca (A : Type) : Type := SCAnalysis → result (SCAnalysis * A).
#[global] Instance sca_ret : MRet sca := λ A a x, Ok (x, a).
#[global] Instance sca_bind : MBind sca := λ A B k c x, match c x with Ok (x, a) => k a x | Err f => Err f end.
Definition the : sca SCAnalysis := λ x, Ok (x, x).
Definition change (f : SCAnalysis → SCAnalysis) : sca unit := λ x, Ok (f x, tt).
Definition from {A} (r : result A) : sca A := λ x, match r with Ok a => Ok (x, a) | Err f => Err f end.

(** A [for] loop with a local state; the flag of the body's result is [break]. *)
Fixpoint sc_loop {A S} (f : A → S → sca (S * bool)) (l : list A) (st : S) : sca S :=
  match l with
  | [] => mret st
  | x :: l => '(st, brk) ← f x st; if (brk : bool) then mret st else sc_loop f l st
  end.

(** [vector::resize]. *)
Definition resize_lists (n : nat) (l : list (list ptr)) : list (list ptr) := grow n [] (take n l).

Section analysis.
(** The execution whose trace is analysed. *)
Context (s : Exec) (thread_of_addr : N → option thread_id_t).

Definition act_of (p : ptr) : result ModelAction := deref (x_acts s !! p).
(** A lookup with a NULL key stops at the assertion of the hash table. *)
Definition nonnull (p : option ptr) : result ptr :=
  match p with Some p => Ok p | None => Err AssertFailed end.
Definition cv_of (p : ptr) (x : SCAnalysis) : option ClockVector := sa_cvmap x !! p.
Definition list_of (t : nat) (x : SCAnalysis) : result (list ptr) := at_index (sa_threadlists x) t.
Definition threads (x : SCAnalysis) : list nat := seq 0 (S (sa_maxthreads x)).

(** [merge(cv, act, act2)], where [cv] is the clock vector of [act] in the table. *)
Definition sc_merge (act act2 : ptr) : sca bool :=
  x ← the;
  match cv_of act2 x with
  | None => mret true
  | Some cv2 =>
      a ← from (act_of act);
      if (a_seq_number a <=? getClock cv2 (a_tid a))%N && negb (a_seq_number a =? 0)%N then
        change (put_cyclic true) ;; mret false
      else
        cv ← from (deref (cv_of act x));
        let '(cv, changed) := cv_merge cv cv2 in
        change (put_cvmap (<[act := cv]> (sa_cvmap x))) ;; mret changed
  end.

(** [cv->synchronized_since(act)]. *)
Definition synced (cv : option ClockVector) (p : ptr) : result bool :=
  cv ← deref cv; a ← act_of p; Ok (synchronized_since cv (a_tid a) (a_seq_number a)).

(** ** Thread lists *)

(** One step of [buildVectors]. *)
Definition build_step (act : ptr) (numactions : nat) : sca (nat * bool) :=
  a ← from (act_of act);
  let threadid := id_to_int (a_tid a) in
  x ← the;
  (if sa_maxthreads x <? threadid
   then change (λ x, put_maxthreads threadid (put_threadlists (resize_lists (threadid + 1) (sa_threadlists x)) x))
   else mret tt) ;;
  x ← the;
  l ← from (list_of threadid x);
  change (put_threadlists (<[threadid := l ++ [act]]> (sa_threadlists x))) ;;
  mret (numactions + 1, false).

Definition buildVectors (list : list ptr) : sca nat :=
  change (put_maxthreads 0) ;; sc_loop build_step list 0.

Definition sc_reset (list : list ptr) : sca unit :=
  x ← the;
  ls ← from (foldM (λ t ls, set_at t [] ls) (threads x) (sa_threadlists x));
  change (λ x, put_cyclic false (put_cvmap (foldr delete (sa_cvmap x) list) (put_threadlists ls x))).

(** ** Clock vectors *)

(** The writes [write2] of one other thread on the location of a read, newest first. *)
Definition processRead_write (read write : ptr) (have_writecv : bool) (write2 : ptr) (changed : bool) : sca (bool * bool) :=
  w2 ← from (act_of write2);
  x ← the;
  if negb (is_write w2) then mret (changed, false)
  else
    match cv_of write2 x with
    | None => mret (changed, false)
    | Some write2cv =>
        after ← from (synced (Some write2cv) write);
        changed ← (if (after : bool) then c ← sc_merge write2 read; mret (changed || c) else mret changed);
        x ← the;
        before ← from (synced (cv_of read x) write2);
        if (before : bool) then
          c ← (if negb have_writecv then mret true else sc_merge write write2);
          mret (changed || c, true)
        else mret (changed, false)
    end.

Definition processRead (read : ptr) : sca bool :=
  r ← from (act_of read);
  write ← from (nonnull (a_reads_from r));
  x ← the;
  let have_writecv := bool_decide (is_Some (cv_of write x)) in
  c ← sc_merge read write;
  w ← from (act_of write);
  let changed := (c : bool) && (a_seq_number r <? a_seq_number w)%N in
  sc_loop (λ i changed,
    let tid := int_to_id i in
    if bool_decide (tid = a_tid r) || bool_decide (tid = a_tid w) then mret (changed, false)
    else
      l ← from (get_actions_on_obj s (a_location r) tid);
      match l with
      | None => mret (changed, false)
      | Some l => c ← sc_loop (processRead_write read write have_writecv) (rev l) changed; mret (c, false)
      end) (threads x) changed.

(** One action in a round of [computeCV]; the state is [last_act] and [changed]. *)
Definition computeCV_act (act : ptr) (st : list (option ptr) * bool) : sca (list (option ptr) * bool * bool) :=
  let '(last_act, changed) := st in
  a ← from (act_of act);
  let t := id_to_int (a_tid a) in
  lastact ← from (at_index last_act t);
  lastact ← (if is_thread_start a
             then thr ← from (deref (get_thread s (a_tid a))); mret (th_creation thr) else mret lastact);
  last_act ← from (set_at t (Some act) last_act);
  x ← the;
  (match cv_of act x with
   | None => change (put_cvmap (<[act := new_ClockVector None (a_tid a) (a_seq_number a)]> (sa_cvmap x)))
   | Some _ => mret tt
   end) ;;
  (match lastact with Some l => sc_merge act l ;; mret tt | None => mret tt end) ;;
  changed ← (if is_thread_join a then
               joinedthr ← from (deref (thread_of_addr (a_location a)));
               finish ← from (nonnull (get_last_action s joinedthr));
               c ← sc_merge act finish; mret (changed || c)
             else mret changed);
  changed ← (if is_read a then c ← processRead act; mret (changed || c) else mret changed);
  mret ((last_act, changed), false).

(** The rounds of [computeCV]; [fuel] bounds them. *)
Fixpoint computeCV_rounds (fuel : nat) (list : list ptr) (firsttime : bool) : sca unit :=
  match fuel with
  | O => from (Err OutOfFuel)
  | S fuel =>
      x ← the;
      '(_, changed) ← sc_loop computeCV_act list (replicate (S (sa_maxthreads x)) None, firsttime);
      if (changed : bool) then computeCV_rounds fuel list false else mret tt
  end.
Definition computeCV (fuel : nat) (list : list ptr) : sca unit := computeCV_rounds fuel list true.

(** ** The order *)

(** The first action of thread [t] if no first action of another thread comes before it;
    [own] selects the clock vectors of the analysis, or those of the actions. *)
Definition unblocked (own : bool) (x : SCAnalysis) (t : nat) : result (list ptr) :=
  tlt ← list_of t x;
  match tlt with
  | [] => Ok []
  | act :: _ =>
      a ← act_of act;
      let cv := if own then cv_of act x else a_cv a in
      blocked ← until (λ i, if i =? t then Ok None
                            else l ← list_of i x;
                                 match l with
                                 | [] => Ok None
                                 | first :: _ => b ← synced cv first; Ok (if (b : bool) then Some tt else None)
                                 end) (threads x);
      Ok (match blocked with Some _ => [] | None => [act] end)
  end.
Definition candidates_by (own : bool) (x : SCAnalysis) : result (list ptr) :=
  foldM (λ t acc, l ← unblocked own x t; Ok (acc ++ l)) (threads x) [].

Definition getNextActions : sca (list ptr) :=
  x ← the;
  array ← from (candidates_by true x);
  if negb (bool_decide (array = [])) then mret array
  else
    array ← from (candidates_by false x);
    from (ASSERT (bool_decide (array = []) || sa_cyclic x)) ;;
    mret array.

(** The one with the smallest sequence number, the first of those. *)
Definition earlier (best : option ptr) (p : ptr) : result (option ptr) :=
  match best with
  | None => Ok (Some p)
  | Some b => x ← act_of b; y ← act_of p; Ok (if (a_seq_number y <? a_seq_number x)%N then Some p else best)
  end.

(** Is a write of another thread to the location of [act] still to come? The loop over
    one list stops at a write that is ordered after [act]. *)
Fixpoint conflict_in (a : ModelAction) (act : ptr) (x : SCAnalysis) (l : list ptr) : result (option ptr) :=
  match l with
  | [] => Ok None
  | write :: l =>
      w ← act_of write;
      if negb (is_write w) then conflict_in a act x l
      else
        b ← synced (cv_of write x) act;
        if (b : bool) then Ok None
        else if (a_location w =? a_location a)%N then Ok (Some write) else conflict_in a act x l
  end.
Definition conflicts (act : ptr) (x : SCAnalysis) : result bool :=
  a ← act_of act;
  r ← until (λ i, if bool_decide (int_to_id i = a_tid a) then Ok None
                  else l ← list_of i x; conflict_in a act x l) (threads x);
  Ok (bool_decide (is_Some r)).

Definition pruneArray (array : list ptr) (x : SCAnalysis) : result (option ptr) :=
  match array with
  | [act] => Ok (Some act)
  | _ =>
      nonwrite ← foldM (λ p best, a ← act_of p; if negb (is_write a) then earlier best p else Ok best) array None;
      match nonwrite with
      | Some p => Ok (Some p)
      | None => foldM (λ p best, c ← conflicts p x; if (c : bool) then Ok best else earlier best p) array None
      end
  end.

Definition updateConstraints (act : ptr) : sca bool :=
  a ← from (act_of act);
  x ← the;
  sc_loop (λ i changed,
    if bool_decide (int_to_id i = a_tid a) then mret (changed, false)
    else
      x ← the;
      l ← from (list_of i x);
      w ← from (conflict_in a act x l);
      match w with
      | Some write => sc_merge write act ;; mret (true, false)
      | None => mret (changed, false)
      end) (threads x) false.

(** The choices made where nothing else decides: the array, [endchoice], [currchoice] and
    [lastchoice]. *)
Record choice_state := mkChoices {
  ch_choices : list nat;
  ch_end : nat;
  ch_curr : nat;
  ch_last : option nat
}.

Definition choose (array : list ptr) (c : choice_state) : result (ptr * choice_state) :=
  if ch_curr c <? ch_end c then
    n ← at_index (ch_choices c) (ch_curr c);
    act ← at_index array n;
    Ok (act, mkChoices (ch_choices c) (ch_end c) (ch_curr c + 1)
               (if n + 1 <? length array then Some (ch_curr c) else ch_last c))
  else
    act ← at_index array 0;
    ch ← set_at (ch_curr c) 0 (ch_choices c);
    Ok (act, mkChoices ch (ch_end c) (ch_curr c + 1) (if 1 <? length array then Some (ch_curr c) else ch_last c)).

(** The loop of [generateSC]; [fuel] bounds its rounds and those of [computeCV]. *)
Fixpoint generateSC_loop (fuel : nat) (list : list ptr) (c : choice_state) (sclist : Datatypes.list ptr)
    : sca (Datatypes.list ptr) :=
  match fuel with
  | O => from (Err OutOfFuel)
  | S fuel' =>
      array ← getNextActions;
      if bool_decide (array = []) then mret sclist
      else
        x ← the;
        p ← from (pruneArray array x);
        '(act, c) ← from (match p with Some act => Ok (act, c) | None => choose array c end);
        a ← from (act_of act);
        l ← from (list_of (id_to_int (a_tid a)) x);
        change (put_threadlists (<[id_to_int (a_tid a) := tail l]> (sa_threadlists x))) ;;
        updated ← updateConstraints act;
        if negb updated then generateSC_loop fuel' list c (sclist ++ [act])
        else
          x ← the;
          computeCV fuel list ;;
          x' ← the;
          match negb (sa_cyclic x) && sa_cyclic x', ch_last c with
          | true, Some lastchoice =>
              n ← from (at_index (ch_choices c) lastchoice);
              sc_reset list ;;
              buildVectors list ;;
              computeCV fuel list ;;
              generateSC_loop fuel' list
                (mkChoices (<[lastchoice := n + 1]> (ch_choices c)) (lastchoice + 1) 0 None) []
          | _, _ => generateSC_loop fuel' list c (sclist ++ [act])
          end
  end.

Definition generateSC (fuel : nat) (list : list ptr) : sca (Datatypes.list ptr) :=
  numactions ← buildVectors list;
  change (λ x, put_sc_stats (mkSCStatistics (sc_sccount (sa_stats x)) (sc_nonsccount (sa_stats x))
                               (sc_actions (sa_stats x) + N.of_nat numactions)%N) x) ;;
  computeCV fuel list ;;
  generateSC_loop fuel list (mkChoices (replicate numactions 0) 0 0 None) [].

(** ** The check of the reads *)

Definition check_rf_act (act : ptr) : sca unit :=
  a ← from (act_of act);
  (if is_read a then
     x ← the;
     from (ASSERT (negb (a_location a =? 0)%N)) ;;
     let lastwr := sa_lastwrmap x !! a_location a in
     if bool_decide (a_reads_from a = lastwr) then mret tt
     else change (put_badrfset (<[act := lastwr]> (sa_badrfset x)))
   else mret tt) ;;
  (if is_write a then
     from (ASSERT (negb (a_location a =? 0)%N)) ;;
     change (λ x, put_lastwrmap (<[a_location a := act]> (sa_lastwrmap x)) x)
   else mret tt).
Definition check_rf (list : list ptr) : sca unit :=
  sc_loop (λ act _, check_rf_act act ;; mret (tt, false)) list tt.

Definition update_stats : sca unit :=
  change (λ x, put_sc_stats (let st := sa_stats x in
    if sa_cyclic x then mkSCStatistics (sc_sccount st) (sc_nonsccount st + 1) (sc_actions st)
    else mkSCStatistics (sc_sccount st + 1) (sc_nonsccount st) (sc_actions st)) x).

Definition analyze (fuel : nat) (actions : list ptr) : sca (list ptr) :=
  list ← generateSC fuel actions;
  check_rf list ;;
  update_stats ;;
  mret list.
End analysis.

(** ** What the computation of clock vectors leaves alone *)

Lemma sca_bind_Ok {A B} (c : sca A) (k : A → sca B) x x' b :
  (c ≫= k) x = Ok (x', b) ↔ ∃ x1 a, c x = Ok (x1, a) ∧ k a x1 = Ok (x', b).
Proof. unfold mbind, sca_bind. destruct (c x) as [[x1 a]|]; naive_solver. Qed.

Lemma from_Ok {A} (r : result A) x x' a : from r x = Ok (x', a) ↔ x' = x ∧ r = Ok a.
Proof. unfold from. destruct r; naive_solver. Qed.

(** [sc_keeps f c]: the component [f] of the state is the same after [c]. *)
Definition sc_keeps {A B} (f : SCAnalysis → B) (c : sca A) : Prop := ∀ x x' a, c x = Ok (x', a) → f x' = f x.

(** A component that does not depend on the clock vectors of the analysis. *)
Class ClockFree {B} (f : SCAnalysis → B) := {
  free_cvmap v x : f (put_cvmap v x) = f x;
  free_cyclic v x : f (put_cyclic v x) = f x
}.

#[export] Hint Extern 1 (ClockFree _) => typeclasses eauto : cds.

Section keeps.
Context {B} (f : SCAnalysis → B).

Lemma kl_ret {A} (a : A) : sc_keeps f (mret a).
Proof. by intros x x' a' [= <- _]. Qed.
Lemma kl_bind {A A'} (c : sca A) (k : A → sca A') : sc_keeps f c → (∀ a, sc_keeps f (k a)) → sc_keeps f (c ≫= k).
Proof. intros Hc Hk x x' b (x1 & a & H1 & H2)%sca_bind_Ok. apply Hk in H2. apply Hc in H1. congruence. Qed.
Lemma kl_from {A} (r : result A) : sc_keeps f (from r).
Proof. by intros x x' a [-> _]%from_Ok. Qed.
Lemma kl_the : sc_keeps f the.
Proof. by intros x x' a [= <- _]. Qed.
Lemma kl_change g : (∀ x, f (g x) = f x) → sc_keeps f (change g).
Proof. intros Hf x x' a [= <- _]. apply Hf. Qed.
Lemma kl_loop {A S} (g : A → S → sca (S * bool)) l st :
  (∀ x st, sc_keeps f (g x st)) → sc_keeps f (sc_loop g l st).
Proof.
  intros Hf. revert st. induction l as [|x l IH]; intros st; cbn [sc_loop]; [apply kl_ret|].
  apply kl_bind; [done|]. intros [st' []]; [apply kl_ret|done].
Qed.
End keeps.

Ltac sc_keep :=
  repeat first
    [ solve [auto with cds nocore]
    | lazymatch goal with
      | |- sc_keeps _ (mbind _ _) => apply kl_bind; [|intros ?]
      | |- sc_keeps _ (mret _) => apply kl_ret
      | |- sc_keeps _ (from _) => apply kl_from
      | |- sc_keeps _ the => apply kl_the
      | |- sc_keeps _ (change _) => apply kl_change; intros ?; first [done|apply free_cvmap|apply free_cyclic]
      | |- sc_keeps _ (sc_loop _ _ _) => apply kl_loop; intros ? ?
      | |- sc_keeps _ (match ?x with _ => _ end) => destruct x
      | |- sc_keeps _ (let _ := _ in _) => cbv zeta
      end ].

Section clocks.
Context (s : Exec) (thread_of_addr : N → option thread_id_t) {B} (f : SCAnalysis → B) `{!ClockFree f}.

Lemma kl_merge p q : sc_keeps f (sc_merge s p q).
Proof. unfold sc_merge. sc_keep. Qed.
Hint Resolve kl_merge : cds.
Lemma kl_processRead p : sc_keeps f (processRead s p).
Proof. unfold processRead, processRead_write. sc_keep. Qed.
Hint Resolve kl_processRead : cds.
Lemma kl_computeCV fuel l : sc_keeps f (computeCV s thread_of_addr fuel l).
Proof.
  unfold computeCV. generalize true. induction fuel as [|fuel IH]; intros b; cbn [computeCV_rounds]; [apply kl_from|].
  unfold computeCV_act. sc_keep.
Qed.
Lemma kl_updateConstraints p : sc_keeps f (updateConstraints s p).
Proof. unfold updateConstraints. sc_keep. Qed.
Lemma kl_getNextActions : sc_keeps f (getNextActions s).
Proof. unfold getNextActions. sc_keep. Qed.
End clocks.

(** The thread lists, which only the order itself consumes, and the tables of the check
    of the reads, which it does not touch at all. *)
Definition lists (x : SCAnalysis) := (sa_maxthreads x, sa_threadlists x).
Definition tables (x : SCAnalysis) := (sa_badrfset x, sa_lastwrmap x).
#[global] Instance lists_free : ClockFree lists.
Proof. done. Qed.
#[global] Instance tables_free : ClockFree tables.
Proof. done. Qed.

Section analysis.
Context (s : Exec) (thread_of_addr : N → option thread_id_t).

Hint Resolve kl_computeCV kl_updateConstraints kl_getNextActions : cds.
Lemma generateSC_tables fuel actions : sc_keeps tables (generateSC s thread_of_addr fuel actions).
Proof.
  assert (∀ n c l, sc_keeps tables (generateSC_loop s thread_of_addr n actions c l)) as Hloop.
  { induction n as [|n IH]; intros c l; cbn [generateSC_loop]; [apply kl_from|].
    unfold sc_reset, buildVectors, build_step. sc_keep. }
  unfold generateSC, buildVectors, build_step. sc_keep.
Qed.

(** ** Program order *)

Definition tid_of (p : ptr) : option nat := a_tid <$> x_acts s !! p.
(** The actions of thread [t] in a list, in order. *)
Definition thread_part (t : nat) (l : list ptr) : list ptr := filter (λ p, tid_of p = Some t) l.

(** The lists hold, for every thread, what is left of the trace after [done]. *)
Record remaining (actions done : list ptr) (x : SCAnalysis) : Prop := {
  rm_len : length (sa_threadlists x) = S (sa_maxthreads x);
  rm_parts : ∀ t l, sa_threadlists x !! t = Some l → thread_part t done ++ l = thread_part t actions;
  rm_bound : ∀ p t, p ∈ actions → tid_of p = Some t → t ≤ sa_maxthreads x;
  rm_max : sa_maxthreads x = 0 ∨ ∃ p, p ∈ actions ∧ tid_of p = Some (sa_maxthreads x);
  rm_acts : ∀ p, p ∈ actions → is_Some (tid_of p);
  rm_done : ∀ p, p ∈ done → p ∈ actions
}.

Lemma remaining_lists actions done x x' : lists x' = lists x → remaining actions done x → remaining actions done x'.
Proof. intros [= E1 E2] [H1 H2 H3 H4 H5 H6]. by split; rewrite ?E1, ?E2. Qed.

Lemma thread_part_snoc t l p : thread_part t (l ++ [p]) = thread_part t l ++ (if decide (tid_of p = Some t) then [p] else []).
Proof. unfold thread_part. rewrite filter_app, filter_cons, filter_nil. by case_decide. Qed.

Lemma length_resize_lists n l : length (resize_lists n l) = n.
Proof. unfold resize_lists. rewrite length_grow, length_take. lia. Qed.

Lemma lookup_resize_lists n l (i : nat) r :
  resize_lists n l !! i = Some r → l !! i = Some r ∨ (length l ≤ i ∧ r = []).
Proof.
  unfold resize_lists. rewrite lookup_grow. rewrite length_take. case_decide.
  - rewrite lookup_take_lt by lia. auto.
  - case_decide; [|done]. intros [= <-]. right. split; [lia|done].
Qed.

(** A prefix of the trace has been distributed over the lists, which had [L] elements. *)
Record built (L : nat) (done : list ptr) (x : SCAnalysis) : Prop := {
  bu_len : length (sa_threadlists x) = if sa_maxthreads x =? 0 then L else S (sa_maxthreads x);
  bu_parts : ∀ t l, sa_threadlists x !! t = Some l → l = thread_part t done;
  bu_bound : ∀ p t, p ∈ done → tid_of p = Some t → t ≤ sa_maxthreads x;
  bu_max : sa_maxthreads x = 0 ∨ ∃ p, p ∈ done ∧ tid_of p = Some (sa_maxthreads x);
  bu_acts : ∀ p, p ∈ done → is_Some (tid_of p)
}.

Lemma thread_part_none t l : (∀ p, p ∈ l → tid_of p ≠ Some t) → thread_part t l = [].
Proof.
  intros H. induction l as [|p l IH]; [done|]. unfold thread_part in *. rewrite filter_cons.
  rewrite decide_False by (apply H; set_solver). apply IH. set_solver.
Qed.

Lemma built_above L done x t : built L done x → sa_maxthreads x < t → thread_part t done = [].
Proof. intros Hb Ht. apply thread_part_none. intros p Hp E. pose proof (bu_bound _ _ _ Hb p t Hp E). lia. Qed.

(** Room is made for a new thread. *)
Lemma built_resize L done x t :
  0 < L → built L done x → sa_maxthreads x < t →
  let x' := put_maxthreads t (put_threadlists (resize_lists (t + 1) (sa_threadlists x)) x) in
  length (sa_threadlists x') = S t ∧ ∀ i l, sa_threadlists x' !! i = Some l → l = thread_part i done.
Proof.
  intros HL Hb Ht. simpl. split; [rewrite length_resize_lists; lia|]. intros i l Hl.
  destruct (lookup_resize_lists _ _ _ _ Hl) as [H|[H ->]]; [by apply (bu_parts _ _ _ Hb)|].
  symmetry. apply (built_above L done x i Hb). pose proof (bu_len _ _ _ Hb) as Hlen.
  destruct (Nat.eqb_spec (sa_maxthreads x) 0); lia.
Qed.

Lemma build_step_spec L done act n x x' r :
  0 < L → built L done x → build_step s act n x = Ok (x', r) → built L (done ++ [act]) x' ∧ r = (n + 1, false).
Proof.
  intros HL Hb H. unfold build_step in H. apply sca_bind_Ok in H as (x1 & a & [-> Ha%deref_Ok]%from_Ok & H).
  apply sca_bind_Ok in H as (x1 & ? & [= <- <-] & H). unfold id_to_int in H.
  assert (tid_of act = Some (a_tid a)) as Htid by (unfold tid_of; by rewrite Ha).
  apply sca_bind_Ok in H as (x1 & u & Hgrow & H). apply sca_bind_Ok in H as (x2 & ? & [= <- <-] & H).
  apply sca_bind_Ok in H as (x2 & l & [-> Hl%at_index_Ok]%from_Ok & H). injection H as <- <-.
  set (t := a_tid a) in *. set (M := sa_maxthreads x).
  assert (sa_maxthreads x1 = M `max` t ∧ length (sa_threadlists x1) = (if (M `max` t =? 0) then L else S (M `max` t)) ∧
          ∀ i l, sa_threadlists x1 !! i = Some l → l = thread_part i done) as (HM & Hlen & Hparts).
  { destruct (Nat.ltb_spec (sa_maxthreads x) t) as [Hlt|Hge]; injection Hgrow as <-.
    - destruct (built_resize L done x t HL Hb Hlt) as [H1 H2]. simpl. unfold M. rewrite Nat.max_r by lia.
      split_and!; [done| |done]. destruct (Nat.eqb_spec t 0); [lia|done].
    - unfold M. rewrite Nat.max_l by lia. split_and!; [done|apply Hb|apply Hb]. }
  split; [|done]. split; simpl.
  - rewrite length_insert, HM. done.
  - intros i l' Hi. rewrite thread_part_snoc, Htid. apply list_lookup_insert_Some in Hi as [(-> & <- & _)|[Hne Hi]].
    + rewrite decide_True by done. f_equal. by apply Hparts.
    + rewrite decide_False by congruence. rewrite app_nil_r. by apply Hparts.
  - intros p i Hp Hi. rewrite HM. apply elem_of_app in Hp as [Hp|Hp%list_elem_of_singleton].
    + pose proof (bu_bound _ _ _ Hb p i Hp Hi). lia.
    + subst p. rewrite Htid in Hi. injection Hi as <-. lia.
  - rewrite HM. destruct (decide (M < t)).
    + right. exists act. rewrite Nat.max_r by lia. set_solver.
    + rewrite Nat.max_l by lia. destruct (bu_max _ _ _ Hb) as [?|(p & Hp & ?)]; [by left|right]. exists p. set_solver.
  - intros p Hp. apply elem_of_app in Hp as [Hp|Hp%list_elem_of_singleton]; [by apply (bu_acts _ _ _ Hb)|].
    subst p. by eexists.
Qed.

Lemma build_loop_spec L l : ∀ done n x x' n',
  0 < L → built L done x → sc_loop (build_step s) l n x = Ok (x', n') → built L (done ++ l) x' ∧ n' = n + length l.
Proof.
  induction l as [|p l IH]; intros done n x x' n' HL Hb H; cbn [sc_loop] in H.
  - injection H as <- <-. rewrite app_nil_r. split; [done|simpl; lia].
  - apply sca_bind_Ok in H as (x1 & r & H1 & H). apply (build_step_spec L done) in H1 as [Hb1 ->]; [|done..].
    apply (IH (done ++ [p])) in H as [H ->]; [|done..]. rewrite <- (assoc_L (++)) in H. split; [done|simpl; lia].
Qed.

Lemma buildVectors_spec actions x x' n :
  0 < length (sa_threadlists x) → (∀ t l, sa_threadlists x !! t = Some l → l = []) →
  (length (sa_threadlists x) = 1 ∨ ∃ p t, p ∈ actions ∧ tid_of p = Some t ∧ 0 < t ∧ length (sa_threadlists x) = S t) →
  buildVectors s actions x = Ok (x', n) → remaining actions [] x' ∧ n = length actions.
Proof.
  intros HL Hnil Hlen (x1 & [] & [= <-] & H)%sca_bind_Ok.
  apply (build_loop_spec (length (sa_threadlists x)) actions []) in H as [[B1 B2 B3 B4 B5] ->]; [|done|].
  2: { split; simpl; [done|apply Hnil|set_solver|by left|set_solver]. }
  split; [|done]. split; [|done..|set_solver]. simpl in B1, B3. rewrite B1. destruct (Nat.eqb_spec (sa_maxthreads x') 0) as [E0|]; [|done].
  destruct Hlen as [?|(p & t & Hp & Ht & Hpos & _)]; [lia|]. pose proof (B3 p t Hp Ht). lia.
Qed.

Lemma clear_lists_spec l : ∀ ls ls' : list (list ptr),
  foldM (λ t ls, set_at t [] ls) l ls = Ok ls' →
  length ls' = length ls ∧ ∀ (i : nat) r, ls' !! i = Some r → r = [] ∨ (i ∉ l ∧ ls !! i = Some r).
Proof.
  induction l as [|t l IH]; intros ls ls' H; cbn [foldM] in H; [injection H as <-; split; [done|set_solver]|].
  apply bind_Ok in H as (ls1 & H1 & H). unfold set_at in H1. destruct (Nat.ltb_spec t (length ls)); simplify_eq.
  apply IH in H as [Hlen H]. rewrite length_insert in Hlen. split; [done|]. intros i r Hi.
  destruct (H i r Hi) as [?|[Hn Hl]]; [by left|].
  apply list_lookup_insert_Some in Hl as [(-> & <- & _)|[? ?]]; [by left|right; set_solver].
Qed.

(** Resetting and distributing again starts over. *)
Lemma rebuild_spec actions done x x1 x' n u :
  remaining actions done x → sc_reset actions x = Ok (x1, u) → buildVectors s actions x1 = Ok (x', n) →
  remaining actions [] x'.
Proof.
  intros [R1 R2 R3 R4 R5 R6] (x2 & ? & [= <- <-] & H)%sca_bind_Ok Hb.
  apply sca_bind_Ok in H as (x2 & ls & [-> Hls]%from_Ok & [= <-]). apply clear_lists_spec in Hls as [Hlen Hls].
  apply buildVectors_spec in Hb as [? _]; [done|simpl; lia| |]; simpl.
  - intros t l Hl. destruct (Hls t l Hl) as [->|[Hn _]]; [done|]. apply lookup_lt_Some in Hl.
    destruct Hn. apply elem_of_seq. lia.
  - rewrite Hlen, R1. destruct R4 as [->|(p & Hp & Ht)]; [by left|].
    destruct (decide (sa_maxthreads x = 0)) as [->|]; [by left|]. right. exists p, (sa_maxthreads x). split_and!; [done..|lia|done].
Qed.

(** ** The order is an interleaving *)

Definition is_front (x : SCAnalysis) (p : ptr) : Prop := ∃ t l, sa_threadlists x !! t = Some (p :: l).

Lemma unblocked_front own x t l p : unblocked s own x t = Ok l → p ∈ l → is_front x p.
Proof.
  unfold unblocked, list_of. intros H Hp. simplify_res. destruct a as [|act rest]; [by simplify_res; set_solver|].
  simplify_res. case_match; [set_solver|]. apply list_elem_of_singleton in Hp as ->. by exists t, rest.
Qed.

Lemma candidates_front own x l p : candidates_by s own x = Ok l → p ∈ l → is_front x p.
Proof.
  intros H. revert p. refine (foldM_inv (λ acc, ∀ p, p ∈ acc → is_front x p) _ _ [] l _ _ H); [set_solver|].
  intros t acc acc' _ Hacc Hstep p. simplify_res. rewrite elem_of_app. intros [?|?]; [auto|by eapply unblocked_front].
Qed.

Lemma getNextActions_front x x' l p : getNextActions s x = Ok (x', l) → p ∈ l → is_front x p ∧ x' = x.
Proof.
  unfold getNextActions. intros (x1 & ? & [= <- <-] & H)%sca_bind_Ok Hp.
  apply sca_bind_Ok in H as (x1 & l1 & [-> H1]%from_Ok & H). case_bool_decide; simpl in H.
  - apply sca_bind_Ok in H as (x1 & l2 & [-> H2]%from_Ok & H). apply sca_bind_Ok in H as (x1 & ? & [-> _]%from_Ok & H).
    injection H as <- <-. split; [by eapply candidates_front|done].
  - injection H as <- <-. split; [by eapply candidates_front|done].
Qed.

Lemma earlier_elem best p r b : earlier s best p = Ok r → r = Some b → b = p ∨ best = Some b.
Proof. unfold earlier. intros H ->. destruct best; simplify_res; [case_match; simplify_eq; auto|auto]. Qed.

Lemma pruneArray_elem array x p : pruneArray s array x = Ok (Some p) → p ∈ array.
Proof.
  intros H. unfold pruneArray in H.
  assert (∀ f : ptr → option ptr → result (option ptr),
    (∀ q best r, f q best = Ok r → r = best ∨ earlier s best q = Ok r) →
    ∀ r, foldM f array None = Ok r → ∀ b, r = Some b → b ∈ array) as Hfold.
  { intros f Hf r Hr. refine (foldM_inv (λ best, ∀ b, best = Some b → b ∈ array) f array None r _ _ Hr); [done|].
    intros q best best' Hq Hbest Hstep b ->. apply Hf in Hstep as [<-|He]; [by apply Hbest|].
    apply (earlier_elem _ _ _ b) in He as [->|?]; auto. }
  assert (∀ l : list ptr, l = array →
    (nonwrite ← foldM (λ p best, a ← act_of s p; if negb (is_write a) then earlier s best p else Ok best) l None;
     match nonwrite with
     | Some p => Ok (Some p)
     | None => foldM (λ p best, c ← conflicts s p x; if (c : bool) then Ok best else earlier s best p) l None
     end) = Ok (Some p) → p ∈ array) as Hmain.
  { intros l -> Hm. apply bind_Ok in Hm as (nw & Hnw & Hm). destruct nw as [q|].
    - injection Hm as ->. refine (Hfold _ _ _ Hnw p eq_refl). intros q best r Hq. simplify_res. case_match; [by right|left; congruence].
    - refine (Hfold _ _ _ Hm p eq_refl). intros q best r Hq. simplify_res. case_match; [left; congruence|by right]. }
  destruct array as [|q [|q' l]]; [by apply (Hmain [])|injection H as ->; set_solver|by apply (Hmain (q :: q' :: l))].
Qed.

Lemma choose_elem array c p c' : choose array c = Ok (p, c') → p ∈ array.
Proof.
  unfold choose. intros H. destruct (ch_curr c <? ch_end c); simplify_res; by eapply list_elem_of_lookup_2.
Qed.

(** Taking the first action of a thread and appending it to the order. *)
Lemma remaining_step actions sclist x act a l :
  remaining actions sclist x → is_front x act → x_acts s !! act = Some a →
  sa_threadlists x !! id_to_int (a_tid a) = Some l →
  remaining actions (sclist ++ [act]) (put_threadlists (<[id_to_int (a_tid a) := tail l]> (sa_threadlists x)) x).
Proof.
  intros [R1 R2 R3 R4 R5 R6] (t & rest & Hf) Ha Hl. unfold id_to_int in *.
  assert (tid_of act = Some (a_tid a)) as Htid by (unfold tid_of; by rewrite Ha).
  assert (act ∈ thread_part t actions) as Hin by (rewrite <- (R2 _ _ Hf); set_solver).
  apply list_elem_of_filter in Hin as [Htid' Hin].
  assert (t = a_tid a) as -> by congruence. assert (l = act :: rest) as -> by congruence.
  split; simpl; [by rewrite length_insert| |done|done|done|set_solver].
  intros i l' Hi. rewrite thread_part_snoc, Htid. apply list_lookup_insert_Some in Hi as [(<- & <- & _)|[Hne Hi]].
  - rewrite decide_True by done. rewrite <- (assoc_L (++)). exact (R2 _ _ Hf).
  - rewrite decide_False by congruence. rewrite app_nil_r. by apply R2.
Qed.

(** ** Nothing is left *)

(** What is known to happen before an action of another thread has a smaller sequence
    number. *)
Definition clocks_respect (actions : list ptr) : bool :=
  forallb (λ p, forallb (λ q,
    match x_acts s !! p, x_acts s !! q with
    | Some a, Some b =>
        bool_decide (a_tid a = a_tid b) ||
        match a_cv a with
        | Some cv => implb (synchronized_since cv (a_tid b) (a_seq_number b)) (a_seq_number b <? a_seq_number a)%N
        | None => true
        end
    | _, _ => true
    end) actions) actions.

Lemma clocks_respect_spec actions p q a b cv :
  clocks_respect actions = true → p ∈ actions → q ∈ actions → x_acts s !! p = Some a → x_acts s !! q = Some b →
  a_tid a ≠ a_tid b → a_cv a = Some cv → synchronized_since cv (a_tid b) (a_seq_number b) = true →
  (a_seq_number b < a_seq_number a)%N.
Proof.
  intros H Hp Hq Ha Hb Hne Hcv Hs. unfold clocks_respect in H. rewrite forallb_forall in H.
  specialize (H p (proj1 (list_elem_of_In _ _) Hp)). rewrite forallb_forall in H.
  specialize (H q (proj1 (list_elem_of_In _ _) Hq)). rewrite Ha, Hb, Hcv, Hs, bool_decide_false in H by done.
  by apply N.ltb_lt.
Qed.

Lemma until_Some {A B} (f : A → result (option B)) l b : until f l = Ok (Some b) → ∃ x, x ∈ l ∧ f x = Ok (Some b).
Proof.
  induction l as [|x l IH]; simpl; [done|]. intros (r & Hr & H)%bind_Ok. destruct r as [b'|].
  - injection H as ->. exists x. split; [by left|done].
  - destruct (IH H) as (y & Hy & ?). exists y. split; [by right|done].
Qed.

Lemma candidates_nil own x t :
  candidates_by s own x = Ok [] → t ∈ threads x → unblocked s own x t = Ok [].
Proof.
  unfold candidates_by. intros H.
  assert (∀ l acc r, foldM (λ t acc, l ← unblocked s own x t; Ok (acc ++ l)) l acc = Ok r → r = [] →
    acc = [] ∧ ∀ t, t ∈ l → unblocked s own x t = Ok []) as Hf.
  { induction l as [|u l IH]; intros acc r; simpl; [intros [= ->] ->; split; [done|by intros ? []%elem_of_nil]|].
    intros (acc1 & (r1 & Hr1 & [= <-])%bind_Ok & H2)%bind_Ok E. destruct (IH _ _ H2 E) as [[-> ->]%app_eq_nil Hl].
    split; [done|]. intros t' [->|?]%elem_of_cons; auto. }
  by apply (Hf _ _ _ H eq_refl).
Qed.

Lemma min_seq (l : list ptr) (f : ptr → N) : l ≠ [] → ∃ p, p ∈ l ∧ ∀ q, q ∈ l → (f p ≤ f q)%N.
Proof.
  induction l as [|p l IH]; [done|]. intros _. destruct l as [|p' l].
  - exists p. split; [by left|]. intros q ->%list_elem_of_singleton. done.
  - destruct IH as (m & Hm & Hmin); [done|]. destruct (N.le_gt_cases (f p) (f m)).
    + exists p. split; [by left|]. intros q [->|Hq]%elem_of_cons; [done|]. etrans; [done|by apply Hmin].
    + exists m. split; [by right|]. intros q [->|Hq]%elem_of_cons; [lia|by apply Hmin].
Qed.

(** The first actions of the threads, with what is known of them. *)
Lemma front_act actions done x t p l :
  remaining actions done x → sa_threadlists x !! t = Some (p :: l) →
  p ∈ actions ∧ ∃ a, x_acts s !! p = Some a ∧ a_tid a = t ∧ t ∈ threads x.
Proof.
  intros [R1 R2 R3 R4 R5 R6] Hl. assert (p ∈ thread_part t actions) as Hin by (rewrite <- (R2 _ _ Hl); set_solver).
  apply list_elem_of_filter in Hin as [Ht Hin]. split; [done|]. unfold tid_of in Ht.
  destruct (x_acts s !! p) as [a|]; [|done]. injection Ht as Ht. exists a. split_and!; [done..|].
  unfold threads. apply elem_of_seq. apply lookup_lt_Some in Hl. lia.
Qed.

(** A thread that has no candidate is blocked by the first action of another one. *)
Lemma unblocked_nil x t p l a :
  sa_threadlists x !! t = Some (p :: l) → x_acts s !! p = Some a → unblocked s false x t = Ok [] →
  ∃ i q lq, i ≠ t ∧ sa_threadlists x !! i = Some (q :: lq) ∧ synced s (a_cv a) q = Ok true.
Proof.
  intros Hl Ha H. unfold unblocked in H. apply bind_Ok in H as (tl & Htl%at_index_Ok & H). rewrite Hl in Htl.
  injection Htl as <-. apply bind_Ok in H as (a' & Ha'%deref_Ok & H). assert (a' = a) as -> by congruence.
  apply bind_Ok in H as (bl & Hbl & H). destruct bl as [[]|]; [|done]. apply until_Some in Hbl as (i & Hi & Hf).
  destruct (Nat.eqb_spec i t) as [|Hne]; [done|]. apply bind_Ok in Hf as (li & Hli%at_index_Ok & Hf).
  destruct li as [|q lq]; [done|]. apply bind_Ok in Hf as ([] & Hs & Hf); [|done]. by exists i, q, lq.
Qed.

Lemma drained actions done x x' :
  remaining actions done x → clocks_respect actions = true → getNextActions s x = Ok (x', []) →
  ∀ t l, sa_threadlists x !! t = Some l → l = [].
Proof.
  intros Hr Hcr Hn. assert (candidates_by s false x = Ok []) as Hc.
  { unfold getNextActions in Hn. apply sca_bind_Ok in Hn as (x1 & ? & [= <- <-] & Hn).
    apply sca_bind_Ok in Hn as (x1 & l1 & [-> _]%from_Ok & Hn). case_bool_decide; simpl in Hn; [|by injection Hn].
    apply sca_bind_Ok in Hn as (x1 & l2 & [-> H2]%from_Ok & Hn). apply sca_bind_Ok in Hn as (x1 & ? & [-> _]%from_Ok & Hn).
    by injection Hn as _ ->. }
  intros t0 l0 Hl0. destruct l0 as [|p0 l0]; [done|]. exfalso.
  destruct (min_seq (omap head (sa_threadlists x)) (λ p, default 0%N (a_seq_number <$> x_acts s !! p))) as (p & Hp & Hmin).
  { intros E. assert (p0 ∈ omap head (sa_threadlists x)) as Hin; [|by rewrite E in Hin; apply elem_of_nil in Hin].
    apply list_elem_of_omap. exists (p0 :: l0). split; [by eapply list_elem_of_lookup_2|done]. }
  apply list_elem_of_omap in Hp as ([|p' l] & Hpl & Hh); [done|]. injection Hh as ->.
  apply list_elem_of_lookup in Hpl as [t Hl]. destruct (front_act _ _ _ _ _ _ Hr Hl) as (Hpa & a & Ha & Hat & Ht).
  destruct (unblocked_nil _ _ _ _ _ Hl Ha (candidates_nil _ _ _ Hc Ht)) as (i & q & lq & Hne & Hq & Hs).
  destruct (front_act _ _ _ _ _ _ Hr Hq) as (Hqa & b & Hb & Hbt & _).
  apply bind_Ok in Hs as (cv & Hcv%deref_Ok & Hs). apply bind_Ok in Hs as (b' & Hb'%deref_Ok & Hs).
  assert (b' = b) as -> by congruence. injection Hs as Hs.
  pose proof (clocks_respect_spec _ _ _ _ _ _ Hcr Hpa Hqa Ha Hb ltac:(congruence) Hcv Hs) as Hlt.
  assert (q ∈ omap head (sa_threadlists x)) as Hqin.
  { apply list_elem_of_omap. exists (q :: lq). split; [by eapply list_elem_of_lookup_2|done]. }
  specialize (Hmin q Hqin). simpl in Hmin. rewrite Ha, Hb in Hmin. simpl in Hmin. lia.
Qed.

(** With sensible clocks the lists have been used up. *)
Definition exhausted (actions : list ptr) (x : SCAnalysis) : Prop :=
  clocks_respect actions = true → ∀ t l, sa_threadlists x !! t = Some l → l = [].

Lemma generateSC_loop_spec actions fuel : ∀ c sclist x x' l,
  remaining actions sclist x →
  generateSC_loop s thread_of_addr fuel actions c sclist x = Ok (x', l) → remaining actions l x' ∧ exhausted actions x'.
Proof.
  induction fuel as [|fuel IH]; intros c sclist x x' l Hr H; cbn [generateSC_loop] in H; [done|].
  apply sca_bind_Ok in H as (x0 & array & Hn & H). case_bool_decide as Earr.
  { subst array. injection H as <- <-. pose proof (λ Hc, drained _ _ _ _ Hr Hc Hn) as Hd. pose proof Hn as Hk.
    apply (kl_getNextActions s lists) in Hk. split; [by eapply remaining_lists|]. injection Hk as _ Hk.
    intros Hcr. rewrite Hk. by apply Hd. }
  apply sca_bind_Ok in H as (x1 & u1 & [= <- <-] & H). apply sca_bind_Ok in H as (x1 & p & [-> Hp]%from_Ok & H).
  apply sca_bind_Ok in H as (x1 & [act c1] & [-> Hact]%from_Ok & H).
  assert (act ∈ array) as Hin.
  { destruct p as [p|]; [|by eapply choose_elem]. injection Hact as -> _. by eapply pruneArray_elem. }
  destruct (getNextActions_front _ _ _ _ Hn Hin) as [Hfront ->].
  apply sca_bind_Ok in H as (x1 & a & [-> Ha%deref_Ok]%from_Ok & H).
  apply sca_bind_Ok in H as (x1 & tl & [-> Htl%at_index_Ok]%from_Ok & H).
  apply sca_bind_Ok in H as (x1 & u2 & [= <- _] & H).
  pose proof (remaining_step actions sclist x act a tl Hr Hfront Ha Htl) as Hr1.
  apply sca_bind_Ok in H as (x2 & updated & Hu%(kl_updateConstraints s lists) & H).
  assert (remaining actions (sclist ++ [act]) x2) as Hr2 by (by eapply remaining_lists). clear Hr1 Hu.
  destruct updated; simpl in H; [|by eapply IH].
  apply sca_bind_Ok in H as (x3 & u3 & [= <- <-] & H). apply sca_bind_Ok in H as (x3 & u4 & Hc%(kl_computeCV s thread_of_addr lists) & H).
  assert (remaining actions (sclist ++ [act]) x3) as Hr3 by (by eapply remaining_lists). clear Hc.
  apply sca_bind_Ok in H as (x4 & u5 & [= <- <-] & H).
  destruct (negb (sa_cyclic x2) && sa_cyclic x3); [|by eapply IH]. destruct (ch_last c1); [|by eapply IH].
  apply sca_bind_Ok in H as (x4 & k4 & [-> _]%from_Ok & H).
  apply sca_bind_Ok in H as (x4 & u6 & Hreset & H). apply sca_bind_Ok in H as (x5 & u7 & Hbuild & H).
  apply sca_bind_Ok in H as (x6 & u8 & Hc%(kl_computeCV s thread_of_addr lists) & H).
  pose proof (rebuild_spec _ _ _ _ _ _ _ Hr3 Hreset Hbuild) as Hr5.
  refine (IH _ _ _ _ _ _ H). by eapply remaining_lists.
Qed.

Lemma NoDup_parts l : (∀ t, NoDup (thread_part t l)) → (∀ p, p ∈ l → is_Some (tid_of p)) → NoDup l.
Proof.
  induction l as [|p l IH]; intros Hnd Hs; [constructor|]. destruct (Hs p) as [t Ht]; [set_solver|]. constructor.
  - intros Hp. specialize (Hnd t). unfold thread_part in Hnd. rewrite filter_cons, decide_True in Hnd by done.
    apply NoDup_cons in Hnd as [Hn _]. apply Hn. by apply list_elem_of_filter.
  - apply IH; [|set_solver]. intros t'. specialize (Hnd t'). unfold thread_part in *. rewrite filter_cons in Hnd.
    case_decide; [by apply NoDup_cons in Hnd as [_ ?]|done].
Qed.

Lemma remaining_part actions l x p t : remaining actions l x → p ∈ actions → tid_of p = Some t → ∃ lt,
  sa_threadlists x !! t = Some lt ∧ thread_part t l ++ lt = thread_part t actions.
Proof.
  intros [R1 R2 R3 R4 R5 R6] Hp Ht. destruct (lookup_lt_is_Some_2 (sa_threadlists x) t) as [lt Hlt].
  { pose proof (R3 _ _ Hp Ht). lia. }
  exists lt. auto.
Qed.

Lemma remaining_NoDup actions l x : NoDup actions → remaining actions l x → NoDup l.
Proof.
  intros Hnd Hr. apply NoDup_parts; [|intros p Hp; by eapply rm_acts, rm_done]. intros t.
  destruct (decide (Exists (λ p, tid_of p = Some t) l)) as [(p & Hp & Ht)%Exists_exists|Hno].
  - destruct (remaining_part _ _ _ p t Hr (rm_done _ _ _ Hr p Hp) Ht) as (lt & _ & E).
    assert (NoDup (thread_part t actions)) as H by by apply NoDup_filter. rewrite <- E in H. by apply NoDup_app in H as [? _].
  - rewrite thread_part_none; [constructor|]. intros p Hp Ht. apply Hno, Exists_exists. eauto.
Qed.

(** With nothing left, the order is a permutation of the trace. *)
Lemma remaining_done actions l x :
  NoDup actions → remaining actions l x → (∀ t lt, sa_threadlists x !! t = Some lt → lt = []) → l ≡ₚ actions.
Proof.
  intros Hnd Hr Hnil. apply NoDup_Permutation; [by eapply remaining_NoDup|done|]. intros p. split; [by apply (rm_done _ _ _ Hr)|].
  intros Hp. destruct (rm_acts _ _ _ Hr p Hp) as [t Ht]. destruct (remaining_part _ _ _ p t Hr Hp Ht) as (lt & Hlt & E).
  rewrite (Hnil _ _ Hlt), app_nil_r in E. assert (p ∈ thread_part t actions) as Hin by by apply list_elem_of_filter.
  rewrite <- E in Hin. by apply list_elem_of_filter in Hin as [_ ?].
Qed.

Lemma generateSC_spec fuel actions x l :
  generateSC s thread_of_addr fuel actions new_SCAnalysis = Ok (x, l) → remaining actions l x ∧ exhausted actions x.
Proof.
  unfold generateSC. intros (x1 & n & Hb & H)%sca_bind_Ok. apply sca_bind_Ok in H as (x2 & u & [= <- _] & H).
  apply sca_bind_Ok in H as (x3 & u' & Hc%(kl_computeCV s thread_of_addr lists) & H).
  apply buildVectors_spec in Hb as [Hr _]; simpl; [|lia|by intros [|t] l'; [intros [= <-]|]|by left].
  apply (generateSC_loop_spec actions) in H; [done|]. eapply remaining_lists; [exact Hc|]. by apply (remaining_lists actions [] x1).
Qed.
End analysis.

(** ** The check of the reads *)

Section check.
Context (s : Exec).

Definition writes_to (loc : N) (p : ptr) : bool :=
  match x_acts s !! p with Some a => is_write a && (a_location a =? loc)%N | None => false end.
(** The last write to [loc] in a prefix of the order. *)
Definition last_write (loc : N) (pre : list ptr) : option ptr := last (filter (λ p, writes_to loc p = true) pre).

Lemma last_write_snoc loc pre p :
  last_write loc (pre ++ [p]) = if writes_to loc p then Some p else last_write loc pre.
Proof.
  unfold last_write. rewrite filter_app, filter_cons, filter_nil. destruct (writes_to loc p); simpl.
  - by rewrite last_snoc.
  - by rewrite app_nil_r.
Qed.

(** [p] is a read in the order that does not read from [w], the last write before it. *)
Definition misread (w : option ptr) (p : ptr) (pre : list ptr) : Prop :=
  ∃ a, x_acts s !! p = Some a ∧ is_read a = true ∧ w = last_write (a_location a) pre ∧ a_reads_from a ≠ w.
Definition bad_read (order : list ptr) (p : ptr) (w : option ptr) : Prop :=
  ∃ l1 l2, order = l1 ++ p :: l2 ∧ misread w p l1.

Lemma bad_read_snoc order p q w : bad_read (order ++ [p]) q w ↔ bad_read order q w ∨ (q = p ∧ misread w p order).
Proof.
  split.
  - intros (l1 & l2 & E & Hm). induction l2 as [|z l2 _] using rev_ind.
    + apply app_inj_tail in E as [-> ->]. by right.
    + left. rewrite app_comm_cons, (assoc_L (++)) in E. apply app_inj_tail in E as [-> _]. by exists l1, l2.
  - intros [(l1 & l2 & -> & Hm)|[-> Hm]]; [|by exists order, []].
    exists l1, (l2 ++ [p]). by rewrite <- (assoc_L (++)).
Qed.

(** The state after a prefix of the order. *)
Record checked (pre : list ptr) (x : SCAnalysis) : Prop := {
  ck_last : ∀ loc, sa_lastwrmap x !! loc = last_write loc pre;
  ck_bad : ∀ p w, sa_badrfset x !! p = Some w ↔ bad_read pre p w
}.

(** The two halves of the body of the loop. *)
Lemma check_read pre p a x x' u :
  p ∉ pre → checked pre x → x_acts s !! p = Some a →
  (if is_read a then
     x ← the;
     from (ASSERT (negb (a_location a =? 0)%N)) ;;
     let lastwr := sa_lastwrmap x !! a_location a in
     if bool_decide (a_reads_from a = lastwr) then mret tt
     else change (put_badrfset (<[p := lastwr]> (sa_badrfset x)))
   else mret tt) x = Ok (x', u) →
  (∀ loc, sa_lastwrmap x' !! loc = last_write loc pre) ∧
  ∀ q w, sa_badrfset x' !! q = Some w ↔ bad_read (pre ++ [p]) q w.
Proof.
  intros Hp [C1 C2] Ha H. setoid_rewrite bad_read_snoc.
  assert (∀ w, ¬ bad_read pre p w) as Hno by (intros w (l1 & l2 & -> & _); set_solver).
  destruct (is_read a) eqn:Er.
  2: { injection H as <-. split; [done|]. intros q w. rewrite C2. split; [by left|].
       intros [?|[_ (a' & Ha' & Hr & _)]]; [done|]. congruence. }
  apply sca_bind_Ok in H as (x1 & u1 & [= <- <-] & H). apply sca_bind_Ok in H as (x1 & u2 & [-> _]%from_Ok & H).
  cbv zeta in H. rewrite C1 in H. case_bool_decide as E; injection H as <-; (split; [done|]); intros q w; simpl.
  - rewrite C2. split; [by left|]. intros [?|[_ (a' & Ha' & _ & -> & Hne)]]; [done|]. congruence.
  - destruct (decide (q = p)) as [->|Hne].
    + rewrite lookup_insert_eq. split.
      * intros [= <-]. right. split; [done|]. by exists a.
      * intros [[]%Hno|[_ (a' & Ha' & _ & -> & _)]]. congruence.
    + rewrite lookup_insert_ne by done. rewrite C2. naive_solver.
Qed.

Lemma check_rf_act_spec pre p x x' u :
  p ∉ pre → checked pre x → check_rf_act s p x = Ok (x', u) → checked (pre ++ [p]) x'.
Proof.
  intros Hp Hc H. unfold check_rf_act in H. apply sca_bind_Ok in H as (x1 & a & [-> Ha%deref_Ok]%from_Ok & H).
  apply sca_bind_Ok in H as (x1 & u1 & H1 & H). apply (check_read pre) in H1 as [H1 H2]; [|done..].
  assert (∀ loc, writes_to loc p = is_write a && (a_location a =? loc)%N) as Hw by (intros loc; unfold writes_to; by rewrite Ha).
  destruct (is_write a) eqn:Ew.
  - apply sca_bind_Ok in H as (x2 & u2 & [-> _]%from_Ok & [= <-]). split; [|done]. intros loc. simpl.
    rewrite last_write_snoc, Hw. simpl. destruct (N.eqb_spec (a_location a) loc) as [<-|Hne].
    + by rewrite lookup_insert_eq.
    + by rewrite lookup_insert_ne.
  - injection H as <-. split; [|done]. intros loc. by rewrite last_write_snoc, Hw, H1.
Qed.

Lemma check_rf_spec l : ∀ pre x x' u,
  NoDup (pre ++ l) → checked pre x → check_rf s l x = Ok (x', u) → checked (pre ++ l) x'.
Proof.
  induction l as [|p l IH]; intros pre x x' u Hnd Hc H; unfold check_rf in H; cbn [sc_loop] in H.
  - injection H as <- _. by rewrite app_nil_r.
  - apply sca_bind_Ok in H as (x1 & [u1 b] & H1 & H). apply sca_bind_Ok in H1 as (x2 & u2 & H1 & [= <- <- <-]).
    apply (check_rf_act_spec pre) in H1; [|apply NoDup_app in Hnd as (_ & Hd & _); set_solver|done].
    rewrite (cons_middle p pre l), (assoc_L (++)) in Hnd |- *. by eapply IH.
Qed.
End check.

(** ** Properties *)

(** C25. The analysis orders the trace. Whatever choices and rollbacks it goes through, the
    order it computes respects the program order of every thread: for each thread it is
    a prefix of that thread's actions, the rest is left in the thread's list. If what
    happens before an action of another thread has a smaller sequence number, nothing is
    left and the order is a permutation of the trace. The reads it reports are
    exactly those of the order that do not read from the last write before them to
    their location, each with that write. *)
Theorem analyze_correct s thread_of_addr fuel actions x order :
  NoDup actions → analyze s thread_of_addr fuel actions new_SCAnalysis = Ok (x, order) →
  (∀ t l, sa_threadlists x !! t = Some l → thread_part s t order ++ l = thread_part s t actions) ∧
  (clocks_respect s actions = true → order ≡ₚ actions) ∧
  (∀ p w, sa_badrfset x !! p = Some w ↔ bad_read s order p w).
Proof.
  intros Hnd (x1 & l1 & Hgen & H)%sca_bind_Ok. apply sca_bind_Ok in H as (x2 & u & Hck & H).
  apply sca_bind_Ok in H as (x3 & u' & [= <-] & [= <- <-]).
  destruct (generateSC_spec _ _ _ _ _ _ Hgen) as [Hr Hex]. apply generateSC_tables in Hgen. injection Hgen as Hbad Hlw.
  assert (lists x2 = lists x1) as [= E1 E2].
  { revert Hck. apply kl_loop. intros p st. unfold check_rf_act. sc_keep. }
  apply (check_rf_spec s l1 []) in Hck as [_ Hb]; [|by eapply remaining_NoDup|].
  2: { split; [intros loc; by rewrite Hlw|]. intros p w. rewrite Hbad. split; [done|].
       by intros ([|] & l2 & E & _). }
  simpl. rewrite E2. split; [apply Hr|]. split; [|done].
  intros Hcr. eapply (remaining_done s); [done..|by apply Hex].
Qed.

(** The first execution of the store-buffering program has the weak outcome: the analysis
    finds a cycle and reports the read that is not sequentially consistent. *)
Lemma analyze_correct_witness :
  let s := first_execution_of sb_main (sb_thread memory_order_relaxed) in
  ∃ x order, analyze s thread_at_address 100 (x_action_trace s) new_SCAnalysis = Ok (x, order) ∧
    order ≡ₚ x_action_trace s ∧ sa_cyclic x = true ∧ bad_read s order 10 (Some 13%positive).
Proof.
  intros s.
  assert (∃ x order, analyze s thread_at_address 100 (x_action_trace s) new_SCAnalysis = Ok (x, order) ∧
    sa_cyclic x = true ∧ sa_badrfset x !! 10%positive = Some (Some 13%positive)) as (x & order & H & Hc & Hb).
  { eexists _, _. split; [vm_compute; reflexivity|]. split; reflexivity. }
  destruct (analyze_correct s thread_at_address 100 (x_action_trace s) x order) as (_ & Hp & Hbad).
  - apply (bool_decide_unpack _). vm_compute. exact I.
  - exact H.
  - exists x, order. split; [exact H|]. split; [|split; [exact Hc|exact (proj1 (Hbad _ _) Hb)]].
    apply Hp. vm_compute. reflexivity.
Defined.
