(* ===== verification/SCGen.v ===== *)
(** * The generator of SC orders (scfence/scgen.h, scgen.cc, sc_annotation.h)

    The fence inference plugin has its own version of the SC analysis. It first runs the
    analysis as it is; if the constraints are cyclic it starts over in a slow version
    that adds the constraints of the execution before those of sequential consistency,
    so that the order it finds is close to the execution. Reads can be annotated to be
    exempt from the constraints. The parts that are the same as in scanalysis.cc are the
    definitions of SCAnalysis on the part of the state that both classes have. *)

From S2P Require Import Prelude ClockVector Action HashTable Promise CycleGraph NodeStack Schedule DataRace ExecState ModOrder Step Evolution Scenarios Librace Interface Model Litmus SCAnalysis.

(** ** Annotations (sc_annotation.h) *)

Definition SC_ANNOTATION : N := 2.
Definition ANNO_BEGIN : N := 1.
Definition ANNO_END : N := 2.
Definition ANNO_KEEP : N := 3.
Definition IS_SC_ANNO (a : ModelAction) : bool :=
  is_annotation a && (a_value a =? SC_ANNOTATION)%N.
Definition IS_ANNO_BEGIN (a : ModelAction) : bool := (ANNO_BEGIN =? a_location a)%N.
Definition IS_ANNO_END (a : ModelAction) : bool := (ANNO_END =? a_location a)%N.
Definition IS_ANNO_KEEP (a : ModelAction) : bool := (ANNO_KEEP =? a_location a)%N.

(** ** Data *)

Record SCGenerator := mkSCGenerator {
  sg_base : SCAnalysis;                 (* the fields SCAnalysis has as well *)
  sg_fastVersion : bool;
  sg_allowNonSC : bool;
  sg_hasBadRF : bool;
  sg_dup_threadlists : list (list ptr);
  sg_annotatedReadSet : gset ptr;
  sg_annotatedReadSetSize : Z;
  sg_annotationMode : bool;
  sg_annotationError : bool;
  sg_print_always : bool;
  sg_print_buggy : bool;
  sg_print_nonsc : bool
}.

(** The constructor leaves [allowNonSC] and [annotationError], which are read before they
    are written, and fields that are written first, without a value. *)
Definition new_SCGenerator (allowNonSC annotationError : bool) : SCGenerator :=
  mkSCGenerator new_SCAnalysis false allowNonSC false [[]] ∅ 0 false annotationError false false false.

Definition put_base v x := mkSCGenerator v (sg_fastVersion x) (sg_allowNonSC x) (sg_hasBadRF x) (sg_dup_threadlists x)
  (sg_annotatedReadSet x) (sg_annotatedReadSetSize x) (sg_annotationMode x) (sg_annotationError x) (sg_print_always x) (sg_print_buggy x) (sg_print_nonsc x).
Definition put_fastVersion v x := mkSCGenerator (sg_base x) v (sg_allowNonSC x) (sg_hasBadRF x) (sg_dup_threadlists x)
  (sg_annotatedReadSet x) (sg_annotatedReadSetSize x) (sg_annotationMode x) (sg_annotationError x) (sg_print_always x) (sg_print_buggy x) (sg_print_nonsc x).
Definition put_allowNonSC v x := mkSCGenerator (sg_base x) (sg_fastVersion x) v (sg_hasBadRF x) (sg_dup_threadlists x)
  (sg_annotatedReadSet x) (sg_annotatedReadSetSize x) (sg_annotationMode x) (sg_annotationError x) (sg_print_always x) (sg_print_buggy x) (sg_print_nonsc x).
Definition put_hasBadRF v x := mkSCGenerator (sg_base x) (sg_fastVersion x) (sg_allowNonSC x) v (sg_dup_threadlists x)
  (sg_annotatedReadSet x) (sg_annotatedReadSetSize x) (sg_annotationMode x) (sg_annotationError x) (sg_print_always x) (sg_print_buggy x) (sg_print_nonsc x).
Definition put_dup_threadlists v x := mkSCGenerator (sg_base x) (sg_fastVersion x) (sg_allowNonSC x) (sg_hasBadRF x) v
  (sg_annotatedReadSet x) (sg_annotatedReadSetSize x) (sg_annotationMode x) (sg_annotationError x) (sg_print_always x) (sg_print_buggy x) (sg_print_nonsc x).
Definition put_annotated v n x := mkSCGenerator (sg_base x) (sg_fastVersion x) (sg_allowNonSC x) (sg_hasBadRF x) (sg_dup_threadlists x)
  v n (sg_annotationMode x) (sg_annotationError x) (sg_print_always x) (sg_print_buggy x) (sg_print_nonsc x).
Definition put_annotationError v x := mkSCGenerator (sg_base x) (sg_fastVersion x) (sg_allowNonSC x) (sg_hasBadRF x) (sg_dup_threadlists x)
  (sg_annotatedReadSet x) (sg_annotatedReadSetSize x) (sg_annotationMode x) v (sg_print_always x) (sg_print_buggy x) (sg_print_nonsc x).
Definition setAnnotationMode v x := mkSCGenerator (sg_base x) (sg_fastVersion x) (sg_allowNonSC x) (sg_hasBadRF x) (sg_dup_threadlists x)
  (sg_annotatedReadSet x) (sg_annotatedReadSetSize x) v (sg_annotationError x) (sg_print_always x) (sg_print_buggy x) (sg_print_nonsc x).
Definition setPrintAlways v x := mkSCGenerator (sg_base x) (sg_fastVersion x) (sg_allowNonSC x) (sg_hasBadRF x) (sg_dup_threadlists x)
  (sg_annotatedReadSet x) (sg_annotatedReadSetSize x) (sg_annotationMode x) (sg_annotationError x) v (sg_print_buggy x) (sg_print_nonsc x).
Definition setPrintBuggy v x := mkSCGenerator (sg_base x) (sg_fastVersion x) (sg_allowNonSC x) (sg_hasBadRF x) (sg_dup_threadlists x)
  (sg_annotatedReadSet x) (sg_annotatedReadSetSize x) (sg_annotationMode x) (sg_annotationError x) (sg_print_always x) v (sg_print_nonsc x).
Definition setPrintNonSC v x := mkSCGenerator (sg_base x) (sg_fastVersion x) (sg_allowNonSC x) (sg_hasBadRF x) (sg_dup_threadlists x)
  (sg_annotatedReadSet x) (sg_annotatedReadSetSize x) (sg_annotationMode x) (sg_annotationError x) (sg_print_always x) (sg_print_buggy x) v.

Definition getCyclic (x : SCGenerator) : bool := sa_cyclic (sg_base x) || sg_hasBadRF x.
Definition getDupThreadLists (x : SCGenerator) : list (list ptr) := sg_dup_threadlists x.
Definition getStats (x : SCGenerator) : sc_statistics := sa_stats (sg_base x).
Definition getPrintAlways (x : SCGenerator) : bool := sg_print_always x.
Definition getHasBadRF (x : SCGenerator) : bool := sg_hasBadRF x.
Definition getBadrfset (x : SCGenerator) : gmap ptr (option ptr) := sa_badrfset (sg_base x).
Definition getAnnotatedReadSet (x : SCGenerator) : gset ptr := sg_annotatedReadSet x.

(** ** The monad of the generator *)

Definition scg (A : Type) : Type := SCGenerator → result (SCGenerator * A).
#[global] Instance scg_ret : MRet scg := λ A a x, Ok (x, a).
#[global] Instance scg_bind : MBind scg := λ A B k c x, match c x with Ok (x, a) => k a x | Err f => Err f end.
Definition gen : scg SCGenerator := λ x, Ok (x, x).
Definition changeg (f : SCGenerator → SCGenerator) : scg unit := λ x, Ok (f x, tt).
Definition fromg {A} (r : result A) : scg A := λ x, match r with Ok a => Ok (x, a) | Err f => Err f end.
(** The code shared with SCAnalysis. *)
Definition on_base {A} (c : sca A) : scg A := λ x,
  match c (sg_base x) with Ok (b, a) => Ok (put_base b x, a) | Err f => Err f end.

Fixpoint sg_loop {A S} (f : A → S → scg (S * bool)) (l : list A) (st : S) : scg S :=
  match l with
  | [] => mret st
  | x :: l => '(st, brk) ← f x st; if (brk : bool) then mret st else sg_loop f l st
  end.

Section generator.
(** The execution whose trace is analysed. *)
Context (s : Exec) (thread_of_addr : N → option thread_id_t).

(** [*p < *q]: the actions are compared by sequence number. *)
Definition act_before (a b : ModelAction) : bool := (a_seq_number a <? a_seq_number b)%N.

(** [merge(cv, act, act2)], where [cv] is the clock vector of [act] in the table. *)
Definition sg_merge (act act2 : ptr) : scg bool :=
  x ← gen;
  let b := sg_base x in
  match cv_of act2 b with
  | None => mret true
  | Some cv2 =>
      a ← fromg (act_of s act);
      if (a_seq_number a <=? getClock cv2 (a_tid a))%N && negb (a_seq_number a =? 0)%N then
        on_base (change (put_cyclic true)) ;; mret false
      else
        let merge_in : scg bool :=
          cv ← fromg (deref (cv_of act b));
          let '(cv, changed) := cv_merge cv cv2 in
          on_base (change (put_cvmap (<[act := cv]> (sa_cvmap b)))) ;; mret changed in
        if sg_fastVersion x then merge_in
        else if sg_allowNonSC x then
          merged ← merge_in;
          (if (merged : bool) then changeg (put_allowNonSC false) else mret tt) ;; mret merged
        else
          a2 ← fromg (act_of s act2);
          h ← fromg (happens_before a2 a);
          if h || (is_seqcst a && is_seqcst a2 && act_before a2 a) then merge_in else mret false
  end.

(** ** Annotated reads *)

(** The inner loop of [collectAnnotatedReads], at the element before [l]; it stops at an
    END, or runs off the end of the list. The condition and the action recorded are those
    of the first element, which the loop does not advance. *)
Fixpoint annotated_block (act : ptr) (a : ModelAction) (l : list ptr) : scg (list ptr) :=
  if IS_ANNO_END a then mret l
  else
    match l with
    | [] => fromg (Err OutOfBounds)
    | nextAct :: l =>
        n ← fromg (act_of s nextAct);
        if IS_ANNO_KEEP n then annotated_block act a l
        else
          changeg (λ x, put_annotated ({[act]} ∪ sg_annotatedReadSet x) (sg_annotatedReadSetSize x + 1) x) ;;
          if IS_ANNO_END n then mret l else annotated_block act a l
    end.

(** The loop over one thread list; the flag tells that an error was found. The list gets
    shorter by at least one element in each round. *)
Fixpoint collect_thread (fuel : nat) (l : list ptr) : scg bool :=
  match fuel with
  | O => fromg (Err OutOfFuel)
  | S fuel =>
      match l with
      | [] => mret false
      | act :: l =>
          a ← fromg (act_of s act);
          if negb (IS_SC_ANNO a) then collect_thread fuel l
          else if negb (IS_ANNO_BEGIN a) then changeg (put_annotationError true) ;; mret true
          else
            match l with
            | [] => fromg (Err OutOfBounds)
            | act :: l =>
                a ← fromg (act_of s act);
                l ← annotated_block act a l;
                collect_thread fuel l
            end
      end
  end.

Definition collectAnnotatedReads : scg unit :=
  x ← gen;
  sg_loop (λ i _,
    l ← fromg (list_of i (sg_base x));
    e ← collect_thread (S (length l)) l;
    mret (tt, e)) (seq 1 (length (sa_threadlists (sg_base x)) - 1)) tt.

(** ** Clock vectors *)

(** The writes to the location of a read, newest first, in the fast version. *)
Definition readFast_write (read write : ptr) (have_writecv : bool) (write2 : ptr) (changed : bool) : scg (bool * bool) :=
  w2 ← fromg (act_of s write2);
  x ← gen;
  if negb (is_write w2) || bool_decide (write2 = write) || bool_decide (write2 = read) then mret (changed, false)
  else
    match cv_of write2 (sg_base x) with
    | None => mret (changed, false)
    | Some write2cv =>
        after ← fromg (synced s (Some write2cv) write);
        changed ← (if (after : bool) then c ← sg_merge write2 read; mret (changed || c) else mret changed);
        x ← gen;
        before ← fromg (synced s (cv_of read (sg_base x)) write2);
        if (before : bool) then
          c ← (if negb have_writecv then mret true else sg_merge write write2);
          mret (changed || c, true)
        else mret (changed, false)
    end.

Definition processReadFast (read : ptr) : scg bool :=
  r ← fromg (act_of s read);
  match a_reads_from r with
  | None => mret false
  | Some write =>
      x ← gen;
      let have_writecv := bool_decide (is_Some (cv_of write (sg_base x))) in
      c ← sg_merge read write;
      w ← fromg (act_of s write);
      sg_loop (λ i changed,
        l ← fromg (get_actions_on_obj s (a_location r) (int_to_id i));
        match l with
        | None => mret (changed, false)
        | Some l => c ← sg_loop (readFast_write read write have_writecv) (rev l) changed; mret (c, false)
        end) (threads (sg_base x)) ((c : bool) && act_before r w)
  end.

(** The same in the slow version; the state is [changed] and [updateFuture]. *)
Definition readSlow_write (read write : ptr) (r w : ModelAction) (have_writecv : bool) (write2 : ptr) (st : bool * bool)
    : scg (bool * bool * bool) :=
  let '(changed, updateFuture) := st in
  w2 ← fromg (act_of s write2);
  x ← gen;
  if negb (is_write w2) || bool_decide (write2 = write) || bool_decide (write2 = read) then mret ((changed, updateFuture), false)
  else
    match cv_of write2 (sg_base x) with
    | None => mret ((changed, updateFuture), false)
    | Some write2cv =>
        after ← fromg (synced s (Some write2cv) write);
        '(changed, updateFuture) ←
          (if (after : bool) && (act_before r w2 || negb updateFuture) then
             status ← sg_merge write2 read;
             mret (changed || status, updateFuture || (status && act_before w2 r))
           else mret (changed, updateFuture));
        x ← gen;
        before ← fromg (synced s (cv_of read (sg_base x)) write2);
        if (before : bool) then
          '(changed, updateFuture) ←
            (if act_before w2 w || negb updateFuture then
               status ← (if negb have_writecv then mret true else sg_merge write write2);
               mret (changed || status, updateFuture || (status && act_before w w2))
             else mret (changed, updateFuture));
          mret ((changed, updateFuture), true)
        else mret ((changed, updateFuture), false)
    end.

(** The merge from the write that a read in the slow version starts with. *)
Definition readSlow_merge (read write : ptr) (r w : ModelAction) (updateFuture : bool) : scg (bool * bool) :=
  if act_before w r || negb updateFuture then
    c ← sg_merge read write;
    let status := (c : bool) && act_before r w in
    mret (status, status)
  else mret (false, updateFuture).

Definition processReadSlow (read : ptr) (updateFuture : bool) : scg (bool * bool) :=
  r ← fromg (act_of s read);
  write ← fromg (nonnull (a_reads_from r));
  x ← gen;
  let have_writecv := bool_decide (is_Some (cv_of write (sg_base x))) in
  w ← fromg (act_of s write);
  st ← readSlow_merge read write r w updateFuture;
  sg_loop (λ i st,
    l ← fromg (get_actions_on_obj s (a_location r) (int_to_id i));
    match l with
    | None => mret (st, false)
    | Some l => st ← sg_loop (readSlow_write read write r w have_writecv) (rev l) st; mret (st, false)
    end) (threads (sg_base x)) st.

Definition processAnnotatedReadSlow (read : ptr) (updateFuture : bool) : scg (bool * bool) :=
  r ← fromg (act_of s read);
  write ← fromg (deref (a_reads_from r));
  w ← fromg (act_of s write);
  readSlow_merge read write r w updateFuture.

(** One action in a round of [computeCV]; the state is [last_act], [changed] and
    [updateFuture]. *)
Definition sg_computeCV_act (act : ptr) (st : list (option ptr) * bool * bool)
    : scg (list (option ptr) * bool * bool * bool) :=
  let '(last_act, changed, updateFuture) := st in
  a ← fromg (act_of s act);
  let t := id_to_int (a_tid a) in
  lastact ← fromg (at_index last_act t);
  lastact ← (if is_thread_start a
             then thr ← fromg (deref (get_thread s (a_tid a))); mret (th_creation thr) else mret lastact);
  last_act ← fromg (set_at t (Some act) last_act);
  x ← gen;
  (match cv_of act (sg_base x) with
   | None => on_base (change (λ b, put_cvmap (<[act := new_ClockVector (a_cv a) (a_tid a) (a_seq_number a)]> (sa_cvmap b)) b))
   | Some _ => mret tt
   end) ;;
  (match lastact with Some l => sg_merge act l ;; mret tt | None => mret tt end) ;;
  changed ← (if is_thread_join a then
               joinedthr ← fromg (deref (thread_of_addr (a_location a)));
               finish ← fromg (nonnull (get_last_action s joinedthr));
               c ← sg_merge act finish; mret (changed || c)
             else mret changed);
  '(changed, updateFuture) ←
    (if is_read a then
       if sg_fastVersion x then c ← processReadFast act; mret (changed || c, updateFuture)
       else
         '(c, updateFuture) ← (if bool_decide (act ∈ sg_annotatedReadSet x)
                               then processAnnotatedReadSlow act updateFuture else processReadSlow act updateFuture);
         mret (changed || c, updateFuture)
     else mret (changed, updateFuture));
  mret ((last_act, changed, updateFuture), false).

(** The rounds of [computeCV]; [fuel] bounds them. In the slow version a round without
    changes is followed by one in which a constraint of SC may be added; [last_act] is
    not cleared before that one. *)
Fixpoint sg_computeCV_rounds (fuel : nat) (list : list ptr) (firsttime : bool) (last_act : Datatypes.list (option ptr)) : scg unit :=
  match fuel with
  | O => fromg (Err OutOfFuel)
  | S fuel =>
      '(last_act, changed, _) ← sg_loop sg_computeCV_act list (last_act, firsttime, false);
      x ← gen;
      if (changed : bool) then sg_computeCV_rounds fuel list false (replicate (length last_act) None)
      else if sg_fastVersion x then mret tt
      else if negb (sg_allowNonSC x) then
        changeg (put_allowNonSC true) ;; sg_computeCV_rounds fuel list false last_act
      else mret tt
  end.
Definition sg_computeCV (fuel : nat) (list : list ptr) : scg unit :=
  x ← gen; sg_computeCV_rounds fuel list true (replicate (S (sa_maxthreads (sg_base x))) None).

(** ** The order *)

Definition sg_updateConstraints (act : ptr) : scg bool :=
  a ← fromg (act_of s act);
  x ← gen;
  sg_loop (λ i changed,
    if bool_decide (int_to_id i = a_tid a) then mret (changed, false)
    else
      x ← gen;
      l ← fromg (list_of i (sg_base x));
      w ← fromg (conflict_in s a act (sg_base x) l);
      match w with
      | Some write => sg_merge write act ;; mret (true, false)
      | None => mret (changed, false)
      end) (threads (sg_base x)) false.

(** [buildVectors], [getNextActions], [pruneArray] and [reset] as in SCAnalysis. *)
Definition sg_buildVectors (list : list ptr) : scg nat := on_base (buildVectors s list).
Definition sg_getNextActions : scg (list ptr) := on_base (getNextActions s).
Definition sg_pruneArray (array : list ptr) : scg (option ptr) :=
  x ← gen; fromg (pruneArray s array (sg_base x)).
Definition sg_reset (list : list ptr) : scg unit := on_base (sc_reset list).
(** [buildVectors] with the duplicate of the thread lists and a local counter. *)
Definition build_dup (list : list ptr) : scg unit :=
  x ← gen;
  '(b, _) ← fromg (buildVectors s list (put_threadlists (sg_dup_threadlists x) (sg_base x)));
  changeg (put_dup_threadlists (sa_threadlists b)).

(** The loop of [generateSC]; [fuel] bounds its rounds and those of [computeCV]. *)
Fixpoint sg_generateSC_loop (fuel : nat) (list : list ptr) (c : choice_state) (sclist : Datatypes.list ptr)
    : scg (Datatypes.list ptr) :=
  match fuel with
  | O => fromg (Err OutOfFuel)
  | S fuel' =>
      array ← sg_getNextActions;
      if bool_decide (array = []) then mret sclist
      else
        p ← sg_pruneArray array;
        '(act, c) ← fromg (match p with Some act => Ok (act, c) | None => choose array c end);
        a ← fromg (act_of s act);
        x ← gen;
        l ← fromg (list_of (id_to_int (a_tid a)) (sg_base x));
        on_base (change (λ b, put_threadlists (<[id_to_int (a_tid a) := tail l]> (sa_threadlists b)) b)) ;;
        updated ← sg_updateConstraints act;
        if negb updated then sg_generateSC_loop fuel' list c (sclist ++ [act])
        else
          x ← gen;
          sg_computeCV fuel list ;;
          x' ← gen;
          match negb (sa_cyclic (sg_base x)) && sa_cyclic (sg_base x'), ch_last c with
          | true, Some lastchoice =>
              n ← fromg (at_index (ch_choices c) lastchoice);
              sg_reset list ;;
              sg_buildVectors list ;;
              sg_computeCV fuel list ;;
              sg_generateSC_loop fuel' list
                (mkChoices (<[lastchoice := n + 1]> (ch_choices c)) (lastchoice + 1) 0 None) []
          | _, _ => sg_generateSC_loop fuel' list c (sclist ++ [act])
          end
  end.

(** [generateSC]; [None] is the NULL it returns for an error in the annotations. *)
Definition sg_generateSC (fuel : nat) (list : list ptr) : scg (option (Datatypes.list ptr)) :=
  numactions ← sg_buildVectors list;
  on_base (change (λ b, put_sc_stats (mkSCStatistics (sc_sccount (sa_stats b)) (sc_nonsccount (sa_stats b))
                                        (sc_actions (sa_stats b) + N.of_nat numactions)%N) b)) ;;
  x ← gen;
  (if sg_annotationMode x then collectAnnotatedReads else mret tt) ;;
  x ← gen;
  if sg_annotationMode x && sg_annotationError x then mret None
  else
    sg_computeCV fuel list ;;
    l ← sg_generateSC_loop fuel list (mkChoices (replicate numactions 0) 0 0 None) [];
    mret (Some l).

(** ** The check of the reads *)

Definition sg_check_rf_act (act : ptr) : scg unit :=
  a ← fromg (act_of s act);
  (if is_read a then
     match a_reads_from a with
     | None => mret tt
     | Some write =>
         x ← gen;
         fromg (ASSERT (negb (a_location a =? 0)%N)) ;;
         let lastwr := sa_lastwrmap (sg_base x) !! a_location a in
         if bool_decide (Some write = lastwr) then mret tt
         else
           on_base (change (λ b, put_badrfset (<[act := lastwr]> (sa_badrfset b)) b)) ;;
           changeg (put_hasBadRF true)
     end
   else mret tt) ;;
  (if is_write a then
     fromg (ASSERT (negb (a_location a =? 0)%N)) ;;
     on_base (change (λ b, put_lastwrmap (<[a_location a := act]> (sa_lastwrmap b)) b))
   else mret tt).

Definition sg_check_rf (list : list ptr) : scg unit :=
  changeg (put_hasBadRF false) ;;
  sg_loop (λ act _, sg_check_rf_act act ;; mret (tt, false)) list tt ;;
  x ← gen;
  if negb (sg_annotationMode x)
  then fromg (ASSERT (bool_decide (sa_cyclic (sg_base x) = sg_hasBadRF x))) else mret tt.

(** The variant of the check with tables of its own, in which a read from a promise
    counts as reading from no write. *)
Definition check_rf1_act (act : ptr) (st : bool * gmap ptr (option ptr) * gmap N ptr)
    : scg (bool * gmap ptr (option ptr) * gmap N ptr * bool) :=
  let '(hasBadRF1, badrfset1, lastwrmap1) := st in
  a ← fromg (act_of s act);
  '(hasBadRF1, badrfset1) ←
    (if is_read a then
       fromg (ASSERT (negb (a_location a =? 0)%N)) ;;
       let lastwr := lastwrmap1 !! a_location a in
       if bool_decide (a_reads_from a = lastwr) then mret (hasBadRF1, badrfset1)
       else mret (true, <[act := lastwr]> badrfset1)
     else mret (hasBadRF1, badrfset1));
  lastwrmap1 ←
    (if is_write a then
       fromg (ASSERT (negb (a_location a =? 0)%N)) ;; mret (<[a_location a := act]> lastwrmap1)
     else mret lastwrmap1);
  mret ((hasBadRF1, badrfset1, lastwrmap1), false).

Definition check_rf1 (list : list ptr) : scg unit :=
  '(hasBadRF1, _, _) ← sg_loop check_rf1_act list (false, ∅, ∅);
  x ← gen;
  if negb (sg_annotationMode x)
  then fromg (ASSERT (bool_decide (sa_cyclic (sg_base x) = hasBadRF1))) else mret tt.

Definition sg_update_stats : scg unit := on_base update_stats.

(** [getSCList]; the measurement of time is left out. *)
Definition getSCList (fuel : nat) (actions : list ptr) : scg (list ptr) :=
  build_dup actions ;;
  changeg (put_fastVersion true) ;;
  list ← sg_generateSC fuel actions;
  x ← gen;
  list ← (if sa_cyclic (sg_base x) then
            sg_reset actions ;;
            changeg (put_fastVersion false) ;;
            sg_generateSC fuel actions
          else mret list);
  list ← fromg (deref list);
  sg_check_rf list ;;
  sg_update_stats ;;
  mret list.
End generator.

(** ** What the computation of clock vectors leaves alone *)

Lemma scg_bind_Ok {A B} (c : scg A) (k : A → scg B) x x' b :
  (c ≫= k) x = Ok (x', b) ↔ ∃ x1 a, c x = Ok (x1, a) ∧ k a x1 = Ok (x', b).
Proof. unfold mbind, scg_bind. destruct (c x) as [[x1 a]|]; naive_solver. Qed.

Lemma fromg_Ok {A} (r : result A) x x' a : fromg r x = Ok (x', a) ↔ x' = x ∧ r = Ok a.
Proof. unfold fromg. destruct r; naive_solver. Qed.

Lemma on_base_Ok {A} (c : sca A) x x' a :
  on_base c x = Ok (x', a) ↔ ∃ b, c (sg_base x) = Ok (b, a) ∧ x' = put_base b x.
Proof. unfold on_base. destruct (c (sg_base x)) as [[b a']|]; naive_solver. Qed.

(** [sg_keeps f c]: the component [f] of the state is the same after [c]. *)
Definition sg_keeps {A B} (f : SCGenerator → B) (c : scg A) : Prop := ∀ x x' a, c x = Ok (x', a) → f x' = f x.

(** A component that does not depend on the clock vectors. *)
Class GenFree {B} (f : SCGenerator → B) := {
  gen_cvmap v x : f (put_base (put_cvmap v (sg_base x)) x) = f x;
  gen_cyclic v x : f (put_base (put_cyclic v (sg_base x)) x) = f x;
  gen_allow v x : f (put_allowNonSC v x) = f x
}.

#[export] Hint Extern 1 (GenFree _) => typeclasses eauto : cds.

Section keeps.
Context {B} (f : SCGenerator → B).

Lemma gk_ret {A} (a : A) : sg_keeps f (mret a).
Proof. by intros x x' a' [= <- _]. Qed.
Lemma gk_bind {A A'} (c : scg A) (k : A → scg A') : sg_keeps f c → (∀ a, sg_keeps f (k a)) → sg_keeps f (c ≫= k).
Proof. intros Hc Hk x x' b (x1 & a & H1 & H2)%scg_bind_Ok. apply Hk in H2. apply Hc in H1. congruence. Qed.
Lemma gk_from {A} (r : result A) : sg_keeps f (fromg r).
Proof. by intros x x' a [-> _]%fromg_Ok. Qed.
Lemma gk_gen : sg_keeps f gen.
Proof. by intros x x' a [= <- _]. Qed.
Lemma gk_change g : (∀ x, f (g x) = f x) → sg_keeps f (changeg g).
Proof. intros Hf x x' a [= <- _]. apply Hf. Qed.
Lemma gk_on_change g : (∀ x, f (put_base (g (sg_base x)) x) = f x) → sg_keeps f (on_base (change g)).
Proof. intros Hf x x' a (b & [= <- _] & ->)%on_base_Ok. apply Hf. Qed.
Lemma gk_on_base {A} (c : sca A) :
  (∀ b b' a, c b = Ok (b', a) → b' = b) → (∀ x, f (put_base (sg_base x) x) = f x) → sg_keeps f (on_base c).
Proof. intros Hc Hf x x' a (b & Hb & ->)%on_base_Ok. by rewrite (Hc _ _ _ Hb). Qed.
Lemma gk_loop {A S} (g : A → S → scg (S * bool)) l st :
  (∀ x st, sg_keeps f (g x st)) → sg_keeps f (sg_loop g l st).
Proof.
  intros Hf. revert st. induction l as [|x l IH]; intros st; cbn [sg_loop]; [apply gk_ret|].
  apply gk_bind; [done|]. intros [st' []]; [apply gk_ret|done].
Qed.
End keeps.

Ltac sg_keep :=
  repeat first
    [ solve [auto with cds nocore]
    | lazymatch goal with
      | |- sg_keeps _ (mbind _ _) => apply gk_bind; [|intros ?]
      | |- sg_keeps _ (mret _) => apply gk_ret
      | |- sg_keeps _ (fromg _) => apply gk_from
      | |- sg_keeps _ gen => apply gk_gen
      | |- sg_keeps _ (changeg _) => apply gk_change; intros ?; first [done|apply gen_allow]
      | |- sg_keeps _ (on_base (change _)) => apply gk_on_change; intros ?; first [done|apply gen_cvmap|apply gen_cyclic]
      | |- sg_keeps _ (sg_loop _ _ _) => apply gk_loop; intros ? ?
      | |- sg_keeps _ (match ?x with _ => _ end) => destruct x
      | |- sg_keeps _ (let _ := _ in _) => cbv zeta
      end ].

Section clocks.
Context (s : Exec) (thread_of_addr : N → option thread_id_t) {B} (f : SCGenerator → B) `{!GenFree f}.

Lemma gk_merge p q : sg_keeps f (sg_merge s p q).
Proof. unfold sg_merge. sg_keep. Qed.
Hint Resolve gk_merge : cds.
Lemma gk_readSlow_merge p q a b u : sg_keeps f (readSlow_merge s p q a b u).
Proof. unfold readSlow_merge. sg_keep. Qed.
Hint Resolve gk_readSlow_merge : cds.
Lemma gk_processReadFast p : sg_keeps f (processReadFast s p).
Proof. unfold processReadFast, readFast_write. sg_keep. Qed.
Lemma gk_processReadSlow p u : sg_keeps f (processReadSlow s p u).
Proof. unfold processReadSlow, readSlow_write. sg_keep. Qed.
Lemma gk_processAnnotatedReadSlow p u : sg_keeps f (processAnnotatedReadSlow s p u).
Proof. unfold processAnnotatedReadSlow. sg_keep. Qed.
Hint Resolve gk_processReadFast gk_processReadSlow gk_processAnnotatedReadSlow : cds.
Lemma gk_computeCV fuel l : sg_keeps f (sg_computeCV s thread_of_addr fuel l).
Proof.
  unfold sg_computeCV. apply gk_bind; [apply gk_gen|]. intros x. generalize true, (replicate (S (sa_maxthreads (sg_base x))) (@None ptr)).
  induction fuel as [|fuel IH]; intros b la; cbn [sg_computeCV_rounds]; [apply gk_from|].
  unfold sg_computeCV_act. sg_keep.
Qed.
Lemma gk_updateConstraints p : sg_keeps f (sg_updateConstraints s p).
Proof. unfold sg_updateConstraints. sg_keep. Qed.
End clocks.

(** The components that the order consumes, and those it does not touch. *)
Definition base_lists (x : SCGenerator) := lists (sg_base x).
Definition base_rest (x : SCGenerator) :=
  (tables (sg_base x), sg_fastVersion x, sg_dup_threadlists x, sg_hasBadRF x, sg_annotationMode x).
#[global] Instance base_lists_free : GenFree base_lists.
Proof. done. Qed.
#[global] Instance base_rest_free : GenFree base_rest.
Proof. done. Qed.

(** ** The order is an interleaving *)

Section order.
Context (s : Exec) (thread_of_addr : N → option thread_id_t).

Hint Resolve gk_computeCV gk_updateConstraints : cds.

Lemma gk_getNextActions {B} (f : SCGenerator → B) : (∀ x, f (put_base (sg_base x) x) = f x) → sg_keeps f (sg_getNextActions s).
Proof.
  apply gk_on_base. intros b b' a H. unfold getNextActions in H. apply sca_bind_Ok in H as (b1 & ? & [= <- <-] & H).
  apply sca_bind_Ok in H as (b1 & l1 & [-> _]%from_Ok & H). case_bool_decide; simpl in H; [|by injection H as <- _].
  apply sca_bind_Ok in H as (b1 & l2 & [-> _]%from_Ok & H). apply sca_bind_Ok in H as (b1 & u & [-> _]%from_Ok & H).
  by injection H as <- _.
Qed.

Lemma sg_remaining_lists actions done x x' :
  base_lists x' = base_lists x → remaining s actions done (sg_base x) → remaining s actions done (sg_base x').
Proof. apply remaining_lists. Qed.

Lemma sg_generateSC_loop_spec actions fuel : ∀ c sclist x x' l,
  remaining s actions sclist (sg_base x) →
  sg_generateSC_loop s thread_of_addr fuel actions c sclist x = Ok (x', l) →
  remaining s actions l (sg_base x') ∧ exhausted s actions (sg_base x').
Proof.
  induction fuel as [|fuel IH]; intros c sclist x x' l Hr H; cbn [sg_generateSC_loop] in H; [done|].
  apply scg_bind_Ok in H as (x0 & array & Hn & H). assert (x0 = x) as ->.
  { apply (gk_getNextActions id) in Hn; [done|]. by intros []. }
  apply on_base_Ok in Hn as (b & Hn & Eb). case_bool_decide as Earr.
  { subst array. injection H as <- <-. split; [done|]. intros Hcr. by eapply drained. }
  apply scg_bind_Ok in H as (x1 & p & Hp & H). apply scg_bind_Ok in Hp as (x2 & ? & [= <- <-] & [-> Hp]%fromg_Ok).
  apply scg_bind_Ok in H as (x1 & [act c1] & [-> Hact]%fromg_Ok & H).
  assert (act ∈ array) as Hin.
  { destruct p as [p|]; [|by eapply choose_elem]. injection Hact as -> _. by eapply pruneArray_elem. }
  destruct (getNextActions_front _ _ _ _ _ Hn Hin) as [Hfront _].
  apply scg_bind_Ok in H as (x1 & a & [-> Ha%deref_Ok]%fromg_Ok & H).
  apply scg_bind_Ok in H as (x1 & ? & [= <- <-] & H).
  apply scg_bind_Ok in H as (x1 & tl & [-> Htl%at_index_Ok]%fromg_Ok & H).
  apply scg_bind_Ok in H as (x1 & ? & (b1 & [= <- _] & ->)%on_base_Ok & H).
  pose proof (remaining_step s actions sclist (sg_base x) act a tl Hr Hfront Ha Htl) as Hr1.
  apply scg_bind_Ok in H as (x2 & updated & Hu%(gk_updateConstraints s base_lists) & H).
  assert (remaining s actions (sclist ++ [act]) (sg_base x2)) as Hr2 by (by eapply remaining_lists). clear Hr1 Hu.
  destruct updated; simpl in H; [|by eapply IH].
  apply scg_bind_Ok in H as (x3 & ? & [= <- <-] & H).
  apply scg_bind_Ok in H as (x3 & ? & Hc%(gk_computeCV s thread_of_addr base_lists) & H).
  assert (remaining s actions (sclist ++ [act]) (sg_base x3)) as Hr3 by (by eapply remaining_lists). clear Hc.
  apply scg_bind_Ok in H as (x4 & ? & [= <- <-] & H).
  destruct (negb (sa_cyclic (sg_base x2)) && sa_cyclic (sg_base x3)); [|by eapply IH].
  destruct (ch_last c1); [|by eapply IH]. apply scg_bind_Ok in H as (x4 & k4 & [-> _]%fromg_Ok & H).
  apply scg_bind_Ok in H as (x4 & u6 & (b4 & Hreset & ->)%on_base_Ok & H).
  apply scg_bind_Ok in H as (x5 & u7 & (b5 & Hbuild & ->)%on_base_Ok & H).
  apply scg_bind_Ok in H as (x6 & u8 & Hc%(gk_computeCV s thread_of_addr base_lists) & H).
  pose proof (rebuild_spec _ _ _ _ _ _ _ _ Hr3 Hreset Hbuild) as Hr5.
  refine (IH _ _ _ _ _ _ H). by eapply remaining_lists.
Qed.

(** Collecting annotations does not touch the lists. *)
Lemma gk_annotated_block {B} (f : SCGenerator → B) act a l :
  (∀ v n x, f (put_annotated v n x) = f x) → sg_keeps f (annotated_block s act a l).
Proof.
  intros Hf. induction l as [|q l IH]; simpl; destruct (IS_ANNO_END a); [apply gk_ret|apply gk_from|apply gk_ret|].
  apply gk_bind; [apply gk_from|]. intros n. destruct (IS_ANNO_KEEP n); [done|].
  apply gk_bind; [by apply gk_change|]. intros _. destruct (IS_ANNO_END n); [apply gk_ret|done].
Qed.

Lemma gk_collect {B} (f : SCGenerator → B) :
  (∀ v n x, f (put_annotated v n x) = f x) → (∀ v x, f (put_annotationError v x) = f x) →
  sg_keeps f (collectAnnotatedReads s).
Proof.
  intros H1 H2. unfold collectAnnotatedReads. apply gk_bind; [apply gk_gen|]. intros x. apply gk_loop. intros i _.
  apply gk_bind; [apply gk_from|]. intros l. apply gk_bind; [|intros e; apply gk_ret].
  generalize (S (length l)). intros n. revert l. induction n as [|n IH]; intros l; simpl; [apply gk_from|].
  destruct l as [|act l]; [apply gk_ret|]. apply gk_bind; [apply gk_from|]. intros a.
  destruct (IS_SC_ANNO a); simpl; [|done]. destruct (IS_ANNO_BEGIN a); simpl.
  - destruct l as [|act' l]; [apply gk_from|]. apply gk_bind; [apply gk_from|]. intros a'.
    apply gk_bind; [by apply gk_annotated_block|done].
  - apply gk_bind; [by apply gk_change|]. intros _. apply gk_ret.
Qed.

(** From lists that can be built on. *)
Definition buildable (actions : list ptr) (x : SCAnalysis) : Prop :=
  ∀ x' n, buildVectors s actions x = Ok (x', n) → remaining s actions [] x'.

Lemma sg_generateSC_spec actions fuel x x' r :
  buildable actions (sg_base x) → sg_generateSC s thread_of_addr fuel actions x = Ok (x', r) →
  match r with
  | Some l => remaining s actions l (sg_base x') ∧ exhausted s actions (sg_base x')
  | None => remaining s actions [] (sg_base x')
  end.
Proof.
  intros Hb H. unfold sg_generateSC in H. apply scg_bind_Ok in H as (x1 & n & (b1 & Hb1 & ->)%on_base_Ok & H).
  apply Hb in Hb1 as Hr. apply scg_bind_Ok in H as (x2 & ? & (b2 & [= <- _] & ->)%on_base_Ok & H).
  apply scg_bind_Ok in H as (x3 & ? & [= <- <-] & H). apply scg_bind_Ok in H as (x4 & ? & H4 & H).
  assert (base_lists x4 = lists b1) as E4.
  { case_match; [|by injection H4 as <-]. by apply (gk_collect base_lists) in H4. }
  apply scg_bind_Ok in H as (x5 & ? & [= <- <-] & H). destruct (sg_annotationMode x4 && sg_annotationError x4).
  { injection H as <- <-. by eapply remaining_lists. }
  apply scg_bind_Ok in H as (x6 & ? & H6%(gk_computeCV s thread_of_addr base_lists) & H).
  apply scg_bind_Ok in H as (x7 & l & H7 & [= <- <-]).
  refine (sg_generateSC_loop_spec _ _ _ _ _ _ _ _ H7). eapply remaining_lists; [|exact Hr].
  change (base_lists x6 = lists b1). congruence.
Qed.

(** The tables of the check and the settings are left alone. *)
Lemma gk_rest_on_base {A} (c : sca A) : sc_keeps tables c → sg_keeps base_rest (on_base c).
Proof. intros Hc x x' a (b & Hb & ->)%on_base_Ok. unfold base_rest. simpl. by rewrite (Hc _ _ _ Hb). Qed.

Lemma sg_rest_getNext : sg_keeps base_rest (sg_getNextActions s).
Proof. by apply gk_getNextActions. Qed.
Lemma sg_rest_build actions : sg_keeps base_rest (sg_buildVectors s actions).
Proof. apply gk_rest_on_base. unfold buildVectors, build_step. sc_keep. Qed.
Lemma sg_rest_reset actions : sg_keeps base_rest (sg_reset actions).
Proof. apply gk_rest_on_base. unfold sc_reset. sc_keep. Qed.
Lemma sg_rest_collect : sg_keeps base_rest (collectAnnotatedReads s).
Proof. by apply gk_collect. Qed.
Hint Resolve sg_rest_getNext sg_rest_build sg_rest_reset sg_rest_collect : cds.

Lemma sg_generateSC_rest actions fuel : sg_keeps base_rest (sg_generateSC s thread_of_addr fuel actions).
Proof.
  assert (∀ n c l, sg_keeps base_rest (sg_generateSC_loop s thread_of_addr n actions c l)) as Hloop.
  { induction n as [|n IH]; intros c l; cbn [sg_generateSC_loop]; [apply gk_from|]. unfold sg_pruneArray. sg_keep. }
  unfold sg_generateSC. sg_keep.
Qed.
End order.

(** ** The check of the reads *)

Section check.
Context (s : Exec).

(** A bad read that reads from a store, not from a promise. *)
Definition bad_store_read (order : list ptr) (p : ptr) (w : option ptr) : Prop :=
  bad_read s order p w ∧ ∃ a v, x_acts s !! p = Some a ∧ a_reads_from a = Some v.

Record sg_checked (pre : list ptr) (x : SCGenerator) : Prop := {
  sk_last : ∀ loc, sa_lastwrmap (sg_base x) !! loc = last_write s loc pre;
  sk_bad : ∀ p w, sa_badrfset (sg_base x) !! p = Some w ↔ bad_store_read pre p w;
  sk_flag : sg_hasBadRF x = true ↔ ∃ p w, bad_store_read pre p w
}.

Lemma bad_store_read_snoc order p q w :
  bad_store_read (order ++ [p]) q w ↔
  bad_store_read order q w ∨ (q = p ∧ misread s w p order ∧ ∃ a v, x_acts s !! p = Some a ∧ a_reads_from a = Some v).
Proof. unfold bad_store_read. rewrite bad_read_snoc. naive_solver. Qed.

(** The read and the write half of the loop's body. *)
Lemma sg_check_read pre p a x x' u :
  p ∉ pre → sg_checked pre x → x_acts s !! p = Some a →
  (if is_read a then
     match a_reads_from a with
     | None => mret tt
     | Some write =>
         x ← gen;
         fromg (ASSERT (negb (a_location a =? 0)%N)) ;;
         let lastwr := sa_lastwrmap (sg_base x) !! a_location a in
         if bool_decide (Some write = lastwr) then mret tt
         else
           on_base (change (λ b, put_badrfset (<[p := lastwr]> (sa_badrfset b)) b)) ;;
           changeg (put_hasBadRF true)
     end
   else mret tt) x = Ok (x', u) →
  (∀ loc, sa_lastwrmap (sg_base x') !! loc = last_write s loc pre) ∧
  (∀ q w, sa_badrfset (sg_base x') !! q = Some w ↔ bad_store_read (pre ++ [p]) q w) ∧
  (sg_hasBadRF x' = true ↔ ∃ q w, bad_store_read (pre ++ [p]) q w).
Proof.
  intros Hp [C1 C2 C3] Ha H. setoid_rewrite bad_store_read_snoc.
  assert (∀ w, ¬ bad_store_read pre p w) as Hno by (intros w [(l1 & l2 & -> & _) _]; set_solver).
  assert ((¬ ∃ w, misread s w p pre ∧ ∃ a v, x_acts s !! p = Some a ∧ a_reads_from a = Some v) → x' = x →
    (∀ loc, sa_lastwrmap (sg_base x') !! loc = last_write s loc pre) ∧
    (∀ q w, sa_badrfset (sg_base x') !! q = Some w ↔ bad_store_read pre q w ∨
       (q = p ∧ misread s w p pre ∧ ∃ a v, x_acts s !! p = Some a ∧ a_reads_from a = Some v)) ∧
    (sg_hasBadRF x' = true ↔ ∃ q w, bad_store_read pre q w ∨
       (q = p ∧ misread s w p pre ∧ ∃ a v, x_acts s !! p = Some a ∧ a_reads_from a = Some v))) as Hsame.
  { intros Hm ->. split_and!; [done| |].
    - intros q w. rewrite C2. naive_solver.
    - rewrite C3. split; [naive_solver|]. intros (q & w & [?|(-> & ? & ?)]); [by exists q, w|]. destruct Hm. by exists w. }
  destruct (is_read a) eqn:Er.
  2: { apply Hsame; [|by injection H]. intros (w & (a' & Ha' & Hr & _) & _). congruence. }
  destruct (a_reads_from a) as [v|] eqn:Erf.
  2: { apply Hsame; [|by injection H]. intros (w & _ & a' & v & Ha' & Hv). congruence. }
  apply scg_bind_Ok in H as (x1 & ? & [= <- <-] & H). apply scg_bind_Ok in H as (x1 & ? & [-> _]%fromg_Ok & H).
  cbv zeta in H. rewrite C1 in H. case_bool_decide as E.
  { apply Hsame; [|by injection H]. intros (w & (a' & Ha' & _ & -> & Hne) & _). congruence. }
  apply scg_bind_Ok in H as (x1 & ? & (b & [= <- _] & ->)%on_base_Ok & [= <- _]). simpl.
  assert (misread s (last_write s (a_location a) pre) p pre) as Hmis.
  { exists a. rewrite Erf. done. }
  split_and!; [done| |].
  - intros q w. destruct (decide (q = p)) as [->|Hne].
    + rewrite lookup_insert_eq. split; [intros [= <-]; right; by eauto 6|].
      intros [[]%Hno|(_ & (a' & Ha' & _ & -> & _) & _)]. congruence.
    + rewrite lookup_insert_ne by done. rewrite C2. naive_solver.
  - split; [|done]. intros _. eexists p, _. right. eauto 6.
Qed.

Lemma sg_check_rf_act_spec pre p x x' u :
  p ∉ pre → sg_checked pre x → sg_check_rf_act s p x = Ok (x', u) → sg_checked (pre ++ [p]) x'.
Proof.
  intros Hp Hc H. unfold sg_check_rf_act in H. apply scg_bind_Ok in H as (x1 & a & [-> Ha%deref_Ok]%fromg_Ok & H).
  apply scg_bind_Ok in H as (x1 & u1 & H1 & H). apply (sg_check_read pre) in H1 as (H1 & H2 & H3); [|done..].
  assert (∀ loc, writes_to s loc p = is_write a && (a_location a =? loc)%N) as Hw by (intros loc; unfold writes_to; by rewrite Ha).
  destruct (is_write a) eqn:Ew.
  - apply scg_bind_Ok in H as (x2 & u2 & [-> _]%fromg_Ok & (b & [= <- _] & ->)%on_base_Ok). split; [|done..].
    intros loc. simpl. rewrite last_write_snoc, Hw. simpl. destruct (N.eqb_spec (a_location a) loc) as [<-|Hne].
    + by rewrite lookup_insert_eq.
    + by rewrite lookup_insert_ne.
  - injection H as <-. split; [|done..]. intros loc. by rewrite last_write_snoc, Hw, H1.
Qed.

Lemma sg_check_loop_spec l : ∀ pre x x' u,
  NoDup (pre ++ l) → sg_checked pre x →
  sg_loop (λ act _, sg_check_rf_act s act ;; mret (tt, false)) l tt x = Ok (x', u) → sg_checked (pre ++ l) x'.
Proof.
  induction l as [|p l IH]; intros pre x x' u Hnd Hc H; cbn [sg_loop] in H.
  - injection H as <- _. by rewrite app_nil_r.
  - apply scg_bind_Ok in H as (x1 & [u1 b] & H1 & H). apply scg_bind_Ok in H1 as (x2 & u2 & H1 & [= <- <- <-]).
    apply (sg_check_rf_act_spec pre) in H1; [|apply NoDup_app in Hnd as (_ & Hd & _); set_solver|done].
    rewrite (cons_middle p pre l), (assoc_L (++)) in Hnd |- *. by eapply IH.
Qed.
End check.

(** ** Annotated blocks *)

Section annotations.
Context (s : Exec).

Definition ends_block (q : ptr) : bool := if x_acts s !! q is Some n then IS_ANNO_END n else false.
Definition keeps_action (q : ptr) : bool := if x_acts s !! q is Some n then IS_ANNO_KEEP n else false.

(** The block that starts at [act] goes up to the first END after it. However many reads
    the block has, only its first action is recorded, and it is counted once for every
    action of the block that is not a KEEP, the END included. Without an END the loop
    goes past the end of the list: the check for that, after the loop, is not reached. *)
Lemma annotated_block_exact act a l x :
  IS_ANNO_END a = false → Forall (λ q, is_Some (x_acts s !! q)) l →
  annotated_block s act a l x =
  match list_find (λ q, ends_block q = true) l with
  | None => Err OutOfBounds
  | Some (i, _) =>
      Ok (put_annotated ({[act]} ∪ sg_annotatedReadSet x)
            (sg_annotatedReadSetSize x + 1 + Z.of_nat (length (filter (λ q, keeps_action q = false) (take i l)))) x,
          drop (S i) l)
  end.
Proof.
  intros Ea Hl. revert x. induction Hl as [|q l [n Hn] Hl IH]; intros x; cbn [annotated_block list_find]; rewrite Ea; [done|].
  assert (ends_block q = IS_ANNO_END n) as Ee by (unfold ends_block; by rewrite Hn).
  assert (keeps_action q = IS_ANNO_KEEP n) as Ek by (unfold keeps_action; by rewrite Hn).
  unfold act_of at 1. rewrite Hn. unfold mbind at 1, scg_bind at 1. simpl.
  destruct (IS_ANNO_KEEP n) eqn:Ekn.
  - rewrite IH, decide_False.
    2: { rewrite Ee. apply N.eqb_eq in Ekn. unfold IS_ANNO_END. by rewrite <- Ekn. }
    destruct (list_find _ l) as [[i q']|]; simpl; [|done]. rewrite filter_cons_False; [done|]. by rewrite Ek.
  - unfold mbind, scg_bind. simpl. destruct (IS_ANNO_END n) eqn:Een.
    + rewrite decide_True by done. simpl. by rewrite drop_0, Z.add_0_r.
    + rewrite IH, decide_False by (by rewrite Ee). destruct (list_find _ l) as [[i q']|]; simpl; [|done].
      rewrite filter_cons_True by done. simpl. f_equal. f_equal. unfold put_annotated. simpl. f_equal; [set_solver|lia].
Qed.
End annotations.

(** ** Properties *)

Lemma build_dup_spec s actions x x' u :
  sg_dup_threadlists x = [[]] → build_dup s actions x = Ok (x', u) →
  x' = put_dup_threadlists (sg_dup_threadlists x') x ∧
  ∀ t l, sg_dup_threadlists x' !! t = Some l → l = thread_part s t actions.
Proof.
  intros Hd H. unfold build_dup in H. apply scg_bind_Ok in H as (x1 & ? & [= <- <-] & H).
  apply scg_bind_Ok in H as (x1 & [b n] & [-> Hb]%fromg_Ok & [= <- _]). rewrite Hd in Hb.
  apply buildVectors_spec in Hb as [[_ Hp _ _ _ _] _]; simpl; [|lia|by intros [|t] l; [intros [= <-]|]|by left]. done.
Qed.

(** The two attempts of [getSCList]. *)
Lemma getSCList_order s toa fuel actions x x' r :
  sg_base x = new_SCAnalysis →
  (list ← sg_generateSC s toa fuel actions;
   x ← gen;
   if sa_cyclic (sg_base x) then
     sg_reset actions ;;
     changeg (put_fastVersion false) ;;
     sg_generateSC s toa fuel actions
   else mret list) x = Ok (x', Some r) →
  remaining s actions r (sg_base x') ∧ exhausted s actions (sg_base x') ∧
  (tables (sg_base x'), sg_dup_threadlists x', sg_annotationMode x') =
  (tables (sg_base x), sg_dup_threadlists x, sg_annotationMode x).
Proof.
  intros Hx H. apply scg_bind_Ok in H as (x1 & l1 & H1 & H). pose proof (sg_generateSC_rest _ _ _ _ _ _ _ H1) as K1.
  apply sg_generateSC_spec in H1.
  2: { rewrite Hx. intros b n Hb. apply buildVectors_spec in Hb as [? _]; simpl; [done|lia|by intros [|t] l; [intros [= <-]|]|by left]. }
  apply scg_bind_Ok in H as (x2 & ? & [= <- <-] & H). injection K1 as K11 K12 K13 K14 K15.
  destruct (sa_cyclic (sg_base x1)).
  2: { injection H as <- ->. destruct H1 as [H1 H1']. split_and!; [done..|]. unfold tables in *. congruence. }
  apply scg_bind_Ok in H as (x2 & ? & (b2 & Hreset & ->)%on_base_Ok & H).
  assert (tables b2 = tables (sg_base x1)) as K2. {
    assert (sc_keeps tables (sc_reset actions)) as K by (unfold sc_reset; sc_keep). exact (K _ _ _ Hreset). }
  apply scg_bind_Ok in H as (x3 & ? & [= <- _] & H). pose proof (sg_generateSC_rest _ _ _ _ _ _ _ H) as K3.
  injection K3 as K31 K32 K33 K34 K35.
  apply sg_generateSC_spec in H as [H H'].
  2: { intros b n Hb. destruct l1 as [l1|]; [destruct H1 as [H1 _]|]; by eapply rebuild_spec. }
  split_and!; [done..|]. simpl in *. injection K2 as K21 K22. unfold tables in *. congruence.
Qed.

(** The check by itself. *)
Definition unchecked (x : SCGenerator) :=
  (base_lists x, sa_cyclic (sg_base x), sg_annotationMode x, sg_dup_threadlists x).

Lemma sg_check_rf_spec s l x x' u :
  NoDup l → tables (sg_base x) = (∅, ∅) → sg_check_rf s l x = Ok (x', u) →
  sg_checked s l x' ∧ unchecked x' = unchecked x ∧ (sg_annotationMode x' = false → sa_cyclic (sg_base x') = sg_hasBadRF x').
Proof.
  intros Hnd [= Hbad Hlw] H. unfold sg_check_rf in H. apply scg_bind_Ok in H as (x1 & u1 & [= <- _] & H).
  apply scg_bind_Ok in H as (x2 & u2 & Hloop & H). apply scg_bind_Ok in H as (x3 & x3' & [= <- <-] & H).
  assert (x' = x2 ∧ (sg_annotationMode x2 = false → sa_cyclic (sg_base x2) = sg_hasBadRF x2)) as [-> Hassert].
  { destruct (sg_annotationMode x2); simpl in H; [by injection H as <-|]. apply fromg_Ok in H as [-> Ha]. split; [done|].
    intros _. unfold ASSERT in Ha. by case_bool_decide. }
  split_and!; [|by apply (gk_loop unchecked) in Hloop; [|intros p st; unfold sg_check_rf_act; sg_keep]|done].
  apply (sg_check_loop_spec s l []) in Hloop; [done..|].
  split; simpl; [intros loc; by rewrite Hlw| |].
  - intros p w. rewrite Hbad. split; [done|]. by intros [([|] & l2 & E & _) _].
  - split; [done|]. by intros (p & w & ([|] & l2 & E & _) & _).
Qed.

(** C26. The list that [getSCList] returns, whichever of the two versions it took, respects
    the program order of every thread, and if what happens before an action of another
    thread has a smaller sequence number it is a permutation of the trace. The reads it
    marks are exactly those that do not read from the last write before them in that
    order. Outside annotation mode [getCyclic] is the answer to the question: it is true
    exactly if there is such a read, so that false means that the list is a sequentially
    consistent explanation of the trace. The duplicate of the thread lists holds the
    trace by threads. None of this depends on the fields the constructor does not set. *)
Theorem getSCList_correct s toa fuel actions b1 b2 m x order :
  NoDup actions →
  getSCList s toa fuel actions (setAnnotationMode m (new_SCGenerator b1 b2)) = Ok (x, order) →
  (∀ t l, sa_threadlists (sg_base x) !! t = Some l → thread_part s t order ++ l = thread_part s t actions) ∧
  (clocks_respect s actions = true → order ≡ₚ actions) ∧
  (∀ p w, sa_badrfset (sg_base x) !! p = Some w ↔ bad_store_read s order p w) ∧
  ((∃ p w, bad_store_read s order p w) → getCyclic x = true) ∧
  (m = false → getCyclic x = true → ∃ p w, bad_store_read s order p w) ∧
  (∀ t l, sg_dup_threadlists x !! t = Some l → l = thread_part s t actions).
Proof.
  intros Hnd H. unfold getSCList in H. apply scg_bind_Ok in H as (x1 & u1 & H1 & H).
  apply build_dup_spec in H1 as [E1 Hdup]; [|done]. apply scg_bind_Ok in H as (x2 & u2 & [= <- _] & H).
  apply scg_bind_Ok in H as (x3 & l1 & H1 & H). apply scg_bind_Ok in H as (x4 & g4 & [= <- <-] & H).
  apply scg_bind_Ok in H as (x5 & r & H2 & H). apply scg_bind_Ok in H as (x6 & l & [-> ->%deref_Ok]%fromg_Ok & H).
  destruct (getSCList_order s toa fuel actions (put_fastVersion true x1) x5 l) as (Hr & Hex & Hrest).
  { by rewrite E1. }
  { apply scg_bind_Ok. eexists _, _. split; [exact H1|]. apply scg_bind_Ok. by eexists _, _. }
  injection Hrest as Hbad Hlw Hd Hm. apply scg_bind_Ok in H as (x7 & ? & Hck & H).
  apply scg_bind_Ok in H as (x8 & ? & (b8 & [= <- _] & ->)%on_base_Ok & [= <- <-]).
  assert (sg_annotationMode x5 = m) as Em by by rewrite Hm, E1.
  apply sg_check_rf_spec in Hck as ([_ Hb Hf] & [= E2 E3 Ec Em' Ed] & Hass);
    [|by eapply remaining_NoDup|by unfold tables; rewrite Hbad, Hlw, E1].
  unfold getCyclic. simpl. rewrite E3, Ed, Hd. split; [apply Hr|]. split_and!; [|done| | |done].
  - intros Hcr. eapply (remaining_done s); [done..|by apply Hex].
  - intros ->%Hf. by rewrite orb_true_r.
  - intros Hm0. rewrite Hass by congruence. rewrite orb_diag. apply Hf.
Qed.

(** The weak outcome of store buffering takes the slow version, which finds an order of
    the whole trace with one read that is not sequentially consistent. *)
Lemma getSCList_correct_witness :
  let s := first_execution_of sb_main (sb_thread memory_order_relaxed) in
  ∃ x order, getSCList s thread_at_address 100 (x_action_trace s) (setAnnotationMode false (new_SCGenerator false false)) = Ok (x, order) ∧
    order ≡ₚ x_action_trace s ∧ getCyclic x = true ∧ sg_fastVersion x = false ∧ ∃ p w, bad_store_read s order p w.
Proof.
  intros s.
  assert (∃ x order, getSCList s thread_at_address 100 (x_action_trace s) (setAnnotationMode false (new_SCGenerator false false)) = Ok (x, order) ∧
    getCyclic x = true ∧ sg_fastVersion x = false) as (x & order & H & Hc & Hv).
  { eexists _, _. split; [vm_compute; reflexivity|]. split; reflexivity. }
  destruct (getSCList_correct s thread_at_address 100 (x_action_trace s) false false false x order) as (_ & Hp & _ & _ & Hbad & _).
  - apply (bool_decide_unpack _). vm_compute. exact I.
  - exact H.
  - exists x, order. split; [exact H|]. split; [apply Hp; vm_compute; reflexivity|].
    split; [exact Hc|]. split; [exact Hv|]. exact (Hbad eq_refl Hc).
Defined.
