(* ===== verification/Inference.v ===== *)
(** * Inferences of memory orders (include/wildcard.h, scfence/inference.cc, patch.cc)

    The fence inference plugin works on programs in which some operations have a
    wildcard for their memory order. An [Inference] assigns orders to the wildcards; a
    [Patch] is a list of requirements that certain operations be at least as strong as
    given orders. *)

From S2P Require Import Prelude ClockVector Action.

(** ** Wildcards (include/wildcard.h) *)

(** The numeric value of a [memory_order]; the enumeration is unsigned. *)
Definition mo_code (mo : memory_order) : N :=
  match mo with
  | memory_order_relaxed => 0 | memory_order_acquire => 1 | memory_order_release => 2
  | memory_order_acq_rel => 3 | memory_order_seq_cst => 4 | memory_order_other c => c
  end.

Definition MAX_WILDCARD_NUM : Z := 50.
Definition memory_order_normal : memory_order := memory_order_other 0x2000.
Definition wildcard (x : N) : memory_order := memory_order_other (0x1000 + x).
Definition WILDCARD_NONEXIST : memory_order := memory_order_other 0xffffffff.

(** [(int) (x - 0x1000)]: the subtraction is one of unsigned integers. *)
Definition get_wildcard_id (mo : memory_order) : Z :=
  let d := ((Z.of_N (mo_code mo) - 0x1000) mod 2 ^ 32)%Z in
  if (d <? 2 ^ 31)%Z then d else (d - 2 ^ 32)%Z.
Definition get_wildcard_id_zero (mo : memory_order) : Z :=
  if (0 <? get_wildcard_id mo)%Z then get_wildcard_id mo else 0%Z.

(** The enumerators lie between [memory_order_relaxed] and [memory_order_seq_cst]. *)
Definition in_enum (mo : memory_order) : bool := (mo_code mo <=? mo_code memory_order_seq_cst)%N.
Definition is_wildcard (mo : memory_order) : bool := negb (in_enum mo) && bool_decide (mo ≠ memory_order_normal).
Definition is_normal_mo_infer (mo : memory_order) : bool :=
  in_enum mo || bool_decide (mo = WILDCARD_NONEXIST) || bool_decide (mo = memory_order_normal).
Definition is_normal_mo (mo : memory_order) : bool := in_enum mo || bool_decide (mo = memory_order_normal).

(** [!(-1 <= x <= 1)]: the first comparison yields 0 or 1, which is compared with 1. *)
Definition INFERENCE_INCOMPARABLE (x : Z) : bool := negb ((if (-1 <=? x)%Z then 1 else 0) <=? 1)%Z.

(** ** Inferences *)

(** [orders] has [size + 1] entries, the first for no wildcard. *)
Record Inference := mkInference {
  i_orders : list memory_order;
  i_size : nat;
  i_initialInfer : ptr;
  i_buggy : bool;
  i_explored : bool;
  i_leaf : bool;
  i_hasFixes : bool;
  i_shouldFix : bool
}.

#[global] Instance Inference_eq_dec : EqDecision Inference.
Proof. solve_decision. Defined.

Definition set_orders (l : list memory_order) (n : nat) (this : Inference) : Inference :=
  mkInference l n (i_initialInfer this) (i_buggy this) (i_explored this) (i_leaf this) (i_hasFixes this) (i_shouldFix this).
Definition setInitialInfer (p : ptr) (this : Inference) : Inference :=
  mkInference (i_orders this) (i_size this) p (i_buggy this) (i_explored this) (i_leaf this) (i_hasFixes this) (i_shouldFix this).
Definition setShouldFix (b : bool) (this : Inference) : Inference :=
  mkInference (i_orders this) (i_size this) (i_initialInfer this) (i_buggy this) (i_explored this) (i_leaf this) (i_hasFixes this) b.
Definition setHasFixes (b : bool) (this : Inference) : Inference :=
  mkInference (i_orders this) (i_size this) (i_initialInfer this) (i_buggy this) (i_explored this) (i_leaf this) b (i_shouldFix this).
Definition setBuggy (b : bool) (this : Inference) : Inference :=
  mkInference (i_orders this) (i_size this) (i_initialInfer this) b (i_explored this) (i_leaf this) (i_hasFixes this) (i_shouldFix this).
Definition setExplored (b : bool) (this : Inference) : Inference :=
  mkInference (i_orders this) (i_size this) (i_initialInfer this) (i_buggy this) b (i_leaf this) (i_hasFixes this) (i_shouldFix this).
Definition setLeaf (b : bool) (this : Inference) : Inference :=
  mkInference (i_orders this) (i_size this) (i_initialInfer this) (i_buggy this) (i_explored this) b (i_hasFixes this) (i_shouldFix this).

(** [Inference()]: the object at [this] is its own initial inference. *)
Definition new_Inference (this : ptr) : Inference :=
  mkInference (replicate 5 WILDCARD_NONEXIST) 4 this false false false false true.

(** [Inference(infer)] *)
Definition copy_Inference (infer : Inference) : result Inference :=
  _ ← ASSERT ((0 <? i_size infer) && (Z.of_nat (i_size infer) <=? MAX_WILDCARD_NUM)%Z);
  Ok (mkInference (take (S (i_size infer)) (i_orders infer)) (i_size infer) (i_initialInfer infer)
        false false false false true).

Definition resize (newsize : Z) (this : Inference) : result Inference :=
  _ ← ASSERT ((Z.of_nat (i_size this) <? newsize)%Z && (newsize <=? MAX_WILDCARD_NUM)%Z);
  let n := Z.to_nat newsize in
  Ok (set_orders (take (S (i_size this)) (i_orders this) ++ replicate (n - i_size this) WILDCARD_NONEXIST) n this).

(** [operator[]]: the reference to the entry is the entry's index. *)
Definition op_index (idx : Z) (this : Inference) : result (Inference * nat) :=
  if (0 <? idx)%Z && (idx <=? Z.of_nat (i_size this))%Z then Ok (this, Z.to_nat idx)
  else
    this ← resize idx this;
    l ← set_at (Z.to_nat idx) WILDCARD_NONEXIST (i_orders this);
    Ok (set_orders l (i_size this) this, Z.to_nat idx).
(** The entry at [idx] as a value and as the target of an assignment. *)
Definition read_order (idx : Z) (this : Inference) : result (Inference * memory_order) :=
  '(this, i) ← op_index idx this; mo ← at_index (i_orders this) i; Ok (this, mo).
Definition write_order (idx : Z) (mo : memory_order) (this : Inference) : result Inference :=
  '(this, i) ← op_index idx this; l ← set_at i mo (i_orders this); Ok (set_orders l (i_size this) this).

(** The [switch] of [strengthen]: the new order, or none for [return 0]. *)
Definition strengthened (cur mo : memory_order) : option memory_order :=
  match cur with
  | memory_order_seq_cst => None
  | memory_order_relaxed => if bool_decide (mo = memory_order_relaxed) then None else Some mo
  | memory_order_acquire =>
      if bool_decide (mo = memory_order_acquire) || bool_decide (mo = memory_order_relaxed) then None
      else if bool_decide (mo = memory_order_release) then Some memory_order_acq_rel
      else if (mo_code memory_order_acq_rel <=? mo_code mo)%N && (mo_code mo <=? mo_code memory_order_seq_cst)%N
      then Some mo else Some cur
  | memory_order_release =>
      if bool_decide (mo = memory_order_release) || bool_decide (mo = memory_order_relaxed) then None
      else if bool_decide (mo = memory_order_acquire) then Some memory_order_acq_rel
      else if (mo_code memory_order_acq_rel <=? mo_code mo)%N then Some mo else Some cur
  | memory_order_acq_rel => if bool_decide (mo = memory_order_seq_cst) then Some mo else None
  | memory_order_other _ => Some mo
  end.

(** [strengthen]: -1 if the operation has no wildcard, 0 if nothing changes, 1 otherwise. *)
Definition strengthen (act : ModelAction) (mo : memory_order) (this : Inference) : result (Inference * Z) :=
  let wildcard := a_original_order act in
  let wildcardID := get_wildcard_id_zero wildcard in
  if negb (is_wildcard wildcard) then Ok (this, -1)%Z
  else
    this ← (if (Z.of_nat (i_size this) <? wildcardID)%Z then resize wildcardID this else Ok this);
    _ ← ASSERT (is_normal_mo mo);
    cur ← at_index (i_orders this) (Z.to_nat wildcardID);
    _ ← ASSERT (is_normal_mo_infer cur);
    match strengthened cur mo with
    | None => Ok (this, 0%Z)
    | Some mo' => l ← set_at (Z.to_nat wildcardID) mo' (i_orders this); Ok (set_orders l (i_size this) this, 1%Z)
    end.

(** [strengthen] with two flags: [canUpdate] is cleared and [hasUpdated] set by it. *)
Definition strengthen_flags (act : ModelAction) (mo : memory_order) (canUpdate hasUpdated : bool) (this : Inference)
    : result (Inference * (bool * bool)) :=
  '(this, res) ← strengthen act mo this;
  Ok (this, (if (res =? -1)%Z then false else canUpdate, if (res =? 1)%Z then true else hasUpdated)).

(** ** Comparing *)

Definition nonexist_relaxed (mo : memory_order) : memory_order :=
  if bool_decide (mo = WILDCARD_NONEXIST) then memory_order_relaxed else mo.

Definition compareMemoryOrder (mo1 mo2 : memory_order) : Z :=
  let mo1 := nonexist_relaxed mo1 in
  let mo2 := nonexist_relaxed mo2 in
  if bool_decide (mo1 = mo2) then 0%Z
  else match mo1 with
  | memory_order_relaxed => (-1)%Z
  | memory_order_acquire =>
      match mo2 with memory_order_relaxed => 1%Z | memory_order_release => 2%Z | _ => (-1)%Z end
  | memory_order_release =>
      match mo2 with memory_order_relaxed => 1%Z | memory_order_acquire => 2%Z | _ => (-1)%Z end
  | memory_order_acq_rel => match mo2 with memory_order_seq_cst => (-1)%Z | _ => 1%Z end
  | _ => 1%Z
  end.

Definition nextWeakOrder (mo1 mo2 : memory_order) : memory_order :=
  let res := match mo1 with
             | memory_order_seq_cst => memory_order_acq_rel
             | memory_order_acq_rel => memory_order_acquire
             | _ => memory_order_relaxed
             end in
  let compVal := compareMemoryOrder res mo2 in
  if (compVal =? 2)%Z || (compVal =? -1)%Z then mo2 else res.

(** The comparison of one entry in [compareTo]. *)
Definition compare_entry (mo1 mo2 : memory_order) : Z :=
  let none1 := bool_decide (mo1 = WILDCARD_NONEXIST) in
  let none2 := bool_decide (mo2 = WILDCARD_NONEXIST) in
  if (none1 && negb none2) || (none1 && bool_decide (mo2 = memory_order_relaxed))
     || (bool_decide (mo1 = memory_order_relaxed) && none2) then 1%Z
  else if negb none1 && none2 then (-1)%Z
  else if (mo_code mo2 <? mo_code mo1)%N then 1%Z
  else if bool_decide (mo1 = mo2) then 0%Z else (-1)%Z.

(** The loop of [compareTo]; -2 stands for incomparable. *)
Fixpoint compare_loop (l : list (memory_order * memory_order)) (result : Z) : Z :=
  match l with
  | [] => result
  | (mo1, mo2) :: l =>
      if (bool_decide (mo1 = memory_order_acquire) && bool_decide (mo2 = memory_order_release))
         || (bool_decide (mo1 = memory_order_release) && bool_decide (mo2 = memory_order_acquire))
      then (-2)%Z
      else
        let subResult := compare_entry mo1 mo2 in
        if ((0 <? subResult)%Z && (result <? 0)%Z) || ((subResult <? 0)%Z && (0 <? result)%Z) then (-2)%Z
        else compare_loop l (if (subResult =? 0)%Z then result else subResult)
  end.

Definition compareTo (this infer : Inference) : Z :=
  let result := if i_size this =? i_size infer then 0%Z
                else if i_size infer <? i_size this then 1%Z else (-1)%Z in
  let smallerSize := if i_size infer <? i_size this then i_size infer else i_size this in
  compare_loop (zip (take (S smallerSize) (i_orders this)) (take (S smallerSize) (i_orders infer))) result.

(** [getHash]: entries 1 to [size]. *)
Definition getHash (this : Inference) : N :=
  foldl (λ hash mo, wrap64 (hash * 37 + (mo_code (nonexist_relaxed mo) + 4096))) 0%N
    (take (i_size this) (drop 1 (i_orders this))).

(** [isTheInference] *)
Definition isTheInference (this : Inference) : result (Inference * bool) :=
  '(this, r) ← foldM (λ i '(this, r),
      match r with
      | Some b => Ok (this, r)
      | None =>
          '(this, mo1) ← read_order (Z.of_nat i) this;
          let mo2 := match i with 3 => memory_order_acquire | 11 => memory_order_release | _ => memory_order_relaxed end in
          Ok (this, if bool_decide (nonexist_relaxed mo1 = mo2) then None else Some false)
      end) (seq 0 (i_size this)) (this, None);
  Ok (this, default true r).

(** ** Weakening *)

Section weaker.
(** The wildcards that [this] has strengthened with respect to [infer], which is extended
    to the size of [this]. *)
Definition strengthened_wildcards (this infer : Inference) : result (Inference * list nat) :=
  foldM (λ i '(infer, l),
      mo1 ← at_index (i_orders this) i;
      '(infer, mo2) ← read_order (Z.of_nat i) infer;
      let compVal := compareMemoryOrder mo1 mo2 in
      _ ← ASSERT ((compVal =? 0)%Z || (compVal =? 1)%Z);
      Ok (infer, if (compVal =? 0)%Z then l else l ++ [i]))
    (seq 1 (i_size this)) (infer, []).

(** The objects of the recursion: the list of results, [tmpRes], [infer1] and [infer2]. *)
Definition weaker_state : Type := list Inference * Inference * Inference * Inference.

(** The [do ... while] over the orders of wildcard [w]. *)
Fixpoint weaken_orders (fuel : nat) (rec : weaker_state → result weaker_state) (w : nat)
    (mo2 weakenedMO : memory_order) (st : weaker_state) : result (weaker_state * memory_order) :=
  match fuel with
  | O => Err OutOfFuel
  | S fuel =>
      let '(res, tmp, i1, i2) := st in
      tmp ← write_order (Z.of_nat w) weakenedMO tmp;
      st ← rec (res, tmp, i1, i2);
      st ← (if bool_decide (weakenedMO = memory_order_acq_rel) then
              let '(res, tmp, i1, i2) := st in
              tmp ← write_order (Z.of_nat w) memory_order_release tmp;
              rec (res, tmp, i1, i2)
            else Ok st);
      let weakenedMO := nextWeakOrder weakenedMO mo2 in
      if bool_decide (weakenedMO = mo2) then Ok (st, weakenedMO)
      else weaken_orders fuel rec w mo2 weakenedMO st
  end.

(** The recursive [getWeakerInferences]; [idx] is the position in the list of
    strengthened wildcards, of which the rest is passed. *)
Fixpoint getWeakerInferences_rec (ws : list nat) (st : weaker_state) : result weaker_state :=
  match ws with
  | [] =>
      let '(res, tmp, i1, i2) := st in
      r ← copy_Inference tmp;
      Ok (res ++ [setShouldFix false r], tmp, i1, i2)
  | w :: ws =>
      let '(res, tmp, i1, i2) := st in
      '(i1, mo1) ← read_order (Z.of_nat w) i1;
      '(i2, mo2) ← read_order (Z.of_nat w) i2;
      let mo2 := nonexist_relaxed mo2 in
      '(st, weakenedMO) ← weaken_orders 5 (getWeakerInferences_rec ws) w mo2 mo1 (res, tmp, i1, i2);
      let '(res, tmp, i1, i2) := st in
      tmp ← write_order (Z.of_nat w) weakenedMO tmp;
      getWeakerInferences_rec ws (res, tmp, i1, i2)
  end.

(** [pop_front] and [pop_back] of an empty list are undefined. *)
Definition pop_front {A} (l : list A) : result (list A) :=
  match l with [] => Err OutOfBounds | _ :: l => Ok l end.
Definition pop_back {A} (l : list A) : result (list A) :=
  match l with [] => Err OutOfBounds | _ => Ok (removelast l) end.

Definition getWeakerInferences (this infer : Inference) : result (Inference * list Inference) :=
  '(infer, ws) ← strengthened_wildcards this infer;
  tmpRes ← copy_Inference this;
  if bool_decide (ws = []) then Ok (infer, [])
  else
    '(res, _, _, infer) ← getWeakerInferences_rec ws ([], tmpRes, this, infer);
    res ← pop_front res;
    res ← pop_back res;
    Ok (infer, res).
End weaker.

(** ** Patches (scfence/patch.cc) *)

Record PatchUnit := mkPatchUnit { pu_act : ModelAction; pu_mo : memory_order }.
Definition Patch : Type := list PatchUnit.
Definition new_Patch (act : ModelAction) (mo : memory_order) : Patch := [mkPatchUnit act mo].
Definition new_Patch2 (act1 : ModelAction) (mo1 : memory_order) (act2 : ModelAction) (mo2 : memory_order) : Patch :=
  [mkPatchUnit act1 mo1; mkPatchUnit act2 mo2].
Definition addPatchUnit (act : ModelAction) (mo : memory_order) (p : Patch) : Patch := p ++ [mkPatchUnit act mo].

Definition isApplicable (p : Patch) : bool :=
  forallb (λ u,
    let wildcard := a_original_order (pu_act u) in
    if is_wildcard wildcard then true
    else
      let compVal := compareMemoryOrder wildcard (pu_mo u) in
      negb ((compVal =? 2)%Z || (compVal =? -1)%Z)) p.

Definition canStrengthen (p : Patch) (curInfer : Inference) : result (Inference * bool) :=
  if negb (isApplicable p) then Ok (curInfer, false)
  else foldM (λ u '(this, res),
      '(this, curMO) ← read_order (get_wildcard_id (a_original_order (pu_act u))) this;
      Ok (this, if bool_decide (pu_mo u ≠ curMO) then true else res)) p (curInfer, false).

(** [applyPatch] of scfence/inferlist.cc on one inference: the units are imposed in
    turn until one cannot be; the flag tells whether some unit changed something. *)
Definition applyPatch1 (newInfer : Inference) (p : Patch) : result (Inference * bool) :=
  '(this, updateState, _) ← foldM (λ u '(this, updateState, broken),
      if (broken : bool) then Ok (this, updateState, broken)
      else
        '(this, (canUpdate, hasUpdated)) ← strengthen_flags (pu_act u) (pu_mo u) true false this;
        Ok (this, if (canUpdate : bool) && (hasUpdated : bool) then true else updateState, negb canUpdate))
    p (newInfer, false, false);
  Ok (this, updateState).

(** ** The order on memory orders *)

(** The five orders of the language; an entry of an inference is one of them or unset. *)
Definition is_order (mo : memory_order) : bool :=
  match mo with memory_order_other _ => false | _ => true end.
Definition is_entry (mo : memory_order) : bool := is_order mo || bool_decide (mo = WILDCARD_NONEXIST).

(** Unset is below relaxed; acquire and release are incomparable. *)
Definition mo_le (a b : memory_order) : bool :=
  bool_decide (a = b) || bool_decide (a = WILDCARD_NONEXIST) ||
  match a, b with
  | memory_order_relaxed, (memory_order_acquire | memory_order_release | memory_order_acq_rel | memory_order_seq_cst)
  | (memory_order_acquire | memory_order_release), (memory_order_acq_rel | memory_order_seq_cst)
  | memory_order_acq_rel, memory_order_seq_cst => true
  | _, _ => false
  end.
#[global] Instance mo_sqsubseteq : SqSubsetEq memory_order := λ a b, mo_le a b = true.
#[global] Instance mo_sqsubseteq_dec : RelDecision (⊑@{memory_order}).
Proof. intros a b. unfold sqsubseteq, mo_sqsubseteq. apply _. Defined.

(** Case analysis on memory orders, the unset one apart. *)
Ltac mo_cases :=
  unfold sqsubseteq, mo_sqsubseteq, mo_le, is_entry, is_order, WILDCARD_NONEXIST, memory_order_normal in *;
  repeat match goal with
  | mo : memory_order |- _ => destruct mo
  | H : context [bool_decide ?P] |- _ => destruct (bool_decide_reflect P)
  | |- context [bool_decide ?P] => destruct (bool_decide_reflect P)
  end; simplify_eq/=; try done.

#[global] Instance mo_partial_order : PartialOrder (⊑@{memory_order}).
Proof.
  split; [split|].
  - intros a. mo_cases.
  - intros [| | | | |x] [| | | | |y] [| | | | |z] H1 H2; first [reflexivity|discriminate H1|discriminate H2|mo_cases].
  - intros a b. mo_cases.
Qed.

Lemma WILDCARD_NONEXIST_least mo : WILDCARD_NONEXIST ⊑ mo.
Proof. mo_cases. Qed.

(** The entries are six values: a decidable statement about them is checked by evaluation. *)
Lemma is_entry_cases mo (P : memory_order → Prop) :
  is_entry mo = true →
  P WILDCARD_NONEXIST → P memory_order_relaxed → P memory_order_acquire → P memory_order_release →
  P memory_order_acq_rel → P memory_order_seq_cst → P mo.
Proof. intros H. mo_cases. Qed.
Lemma is_order_entry mo : is_order mo = true → is_entry mo = true.
Proof. unfold is_entry. by intros ->. Qed.
Ltac entry_cases mo H := pattern mo; refine (is_entry_cases mo _ H _ _ _ _ _ _).
Ltac decide_goal := refine (bool_decide_unpack _ _); vm_compute; exact Logic.I.

(** The [switch] of [strengthen] computes the least upper bound. *)
Lemma strengthened_lub cur mo x :
  is_entry cur = true → is_order mo = true → is_entry x = true →
  default cur (strengthened cur mo) ⊑ x ↔ cur ⊑ x ∧ mo ⊑ x.
Proof.
  intros Hc Ho Hx. pose proof (is_order_entry _ Ho) as Hm. revert Ho.
  entry_cases cur Hc; entry_cases mo Hm; entry_cases x Hx; decide_goal.
Qed.

Lemma strengthened_entry cur mo mo' :
  is_entry cur = true → is_order mo = true → strengthened cur mo = Some mo' → is_order mo' = true ∧ mo' ≠ cur.
Proof.
  intros Hc Ho. pose proof (is_order_entry _ Ho) as Hm. revert mo' Ho.
  entry_cases cur Hc; entry_cases mo Hm; intros mo' Ho H; vm_compute in H; first [discriminate H|injection H as <-; by vm_compute].
Qed.

(** [compareMemoryOrder] decides the order, with unset read as relaxed. *)
Lemma compareMemoryOrder_correct a b :
  is_entry a = true → is_entry b = true →
  let x := nonexist_relaxed a in let y := nonexist_relaxed b in
  (compareMemoryOrder a b = 0%Z ↔ x = y) ∧ (compareMemoryOrder a b = 1%Z ↔ y ⊑ x ∧ x ≠ y) ∧
  (compareMemoryOrder a b = (-1)%Z ↔ x ⊑ y ∧ x ≠ y) ∧ (compareMemoryOrder a b = 2%Z ↔ ¬ x ⊑ y ∧ ¬ y ⊑ x).
Proof. intros Ha Hb. cbv zeta. entry_cases a Ha; entry_cases b Hb; decide_goal. Qed.

(** ** Well-formed inferences *)

Record wf_Inference (this : Inference) : Prop := {
  wf_length : length (i_orders this) = S (i_size this);
  wf_size : 0 < i_size this ∧ (Z.of_nat (i_size this) ≤ MAX_WILDCARD_NUM)%Z;
  wf_entries : Forall (λ mo, is_entry mo = true) (i_orders this)
}.

(** The order of a wildcard; unset beyond the size. *)
Definition order (this : Inference) (w : nat) : memory_order := default WILDCARD_NONEXIST (i_orders this !! w).

Lemma order_entry this w : wf_Inference this → is_entry (order this w) = true.
Proof.
  intros H. unfold order. destruct (i_orders this !! w) as [mo|] eqn:E; [|reflexivity].
  exact (Forall_lookup_1 _ _ _ _ (wf_entries _ H) E).
Qed.

Lemma new_Inference_wf p : wf_Inference (new_Inference p).
Proof. split; [done|simpl; unfold MAX_WILDCARD_NUM; lia|]. by apply Forall_replicate. Qed.

Lemma copy_Inference_spec this :
  wf_Inference this →
  copy_Inference this = Ok (mkInference (i_orders this) (i_size this) (i_initialInfer this) false false false false true).
Proof.
  intros [Hl [H1 H2] _]. unfold copy_Inference. rewrite (proj2 (Nat.ltb_lt _ _) H1), (proj2 (Z.leb_le _ _) H2). simpl.
  by rewrite firstn_all2 by lia.
Qed.

Lemma inference_resize_spec n this :
  wf_Inference this → (Z.of_nat (i_size this) < n ≤ MAX_WILDCARD_NUM)%Z →
  ∃ this', resize n this = Ok this' ∧ wf_Inference this' ∧ i_size this' = Z.to_nat n ∧
    this' = set_orders (i_orders this') (i_size this') this ∧ ∀ w, order this' w = order this w.
Proof.
  intros [Hl [H1 H2] He] [Hn1 Hn2]. unfold resize.
  rewrite (proj2 (Z.ltb_lt _ _) Hn1), (proj2 (Z.leb_le _ _) Hn2). simpl. rewrite firstn_all2 by lia.
  eexists. split; [done|]. split_and!; [split| | |]; simpl.
  - rewrite length_app, length_replicate. lia.
  - lia.
  - apply Forall_app. split; [done|]. by apply Forall_replicate.
  - done.
  - done.
  - intros w. unfold order. simpl. destruct (decide (w < S (i_size this))) as [Hw|Hw].
    + by rewrite lookup_app_l by lia.
    + rewrite lookup_app_r, (lookup_ge_None_2 (i_orders this)) by lia. simpl.
      destruct (replicate _ _ !! _) eqn:E; [|done]. by apply lookup_replicate in E as [-> _].
Qed.

(** Writing an entry that exists. *)
Lemma set_order_spec w mo this :
  wf_Inference this → w ≤ i_size this → is_entry mo = true →
  ∃ l, set_at w mo (i_orders this) = Ok l ∧ wf_Inference (set_orders l (i_size this) this) ∧
    ∀ v, order (set_orders l (i_size this) this) v = if decide (v = w) then mo else order this v.
Proof.
  intros [Hl Hs He] Hw Hmo. unfold set_at. rewrite (proj2 (Nat.ltb_lt _ _)) by lia.
  eexists. split; [done|]. split; [split; simpl|].
  - by rewrite length_insert.
  - done.
  - by apply Forall_insert.
  - intros v. unfold order. simpl. destruct (decide (v = w)) as [->|Hv].
    + by rewrite list_lookup_insert_eq by lia.
    + by rewrite list_lookup_insert_ne.
Qed.

(** ** Strengthening *)

(** Pointwise order of inferences. *)
#[global] Instance inference_sqsubseteq : SqSubsetEq Inference := λ a b, ∀ w, order a w ⊑ order b w.
#[global] Instance inference_preorder : PreOrder (⊑@{Inference}).
Proof. split; [by intros a w|intros a b c H1 H2 w; etrans; [apply H1|apply H2]]. Qed.

(** The wildcard of an operation; its number has to be within the bound. *)
Definition wildcard_of (act : ModelAction) : nat := Z.to_nat (get_wildcard_id_zero (a_original_order act)).
Definition has_wildcard (act : ModelAction) : Prop :=
  is_wildcard (a_original_order act) = true ∧ (get_wildcard_id_zero (a_original_order act) ≤ MAX_WILDCARD_NUM)%Z.

(** Imposing an order on an operation with a wildcard raises that wildcard to the least
    upper bound, changes nothing else, and reports whether there was a change. *)
Lemma strengthen_least act mo this :
  wf_Inference this → has_wildcard act → is_order mo = true →
  ∃ this' r, strengthen act mo this = Ok (this', r) ∧ wf_Inference this' ∧
    this' = set_orders (i_orders this') (i_size this') this ∧
    (∀ v, v ≠ wildcard_of act → order this' v = order this v) ∧
    (∀ x, is_entry x = true → order this' (wildcard_of act) ⊑ x ↔ order this (wildcard_of act) ⊑ x ∧ mo ⊑ x) ∧
    (r = 0%Z ∧ this' = this ∨ r = 1%Z ∧ order this' (wildcard_of act) ≠ order this (wildcard_of act)).
Proof.
  intros Hwf [Hw Hb] Hmo. unfold strengthen. rewrite Hw. cbn [negb].
  assert (0 ≤ get_wildcard_id_zero (a_original_order act))%Z as H0.
  { unfold get_wildcard_id_zero. destruct (Z.ltb_spec 0 (get_wildcard_id (a_original_order act))); lia. }
  fold (wildcard_of act). set (w := wildcard_of act).
  assert (∃ this1, (if (Z.of_nat (i_size this) <? get_wildcard_id_zero (a_original_order act))%Z
      then resize (get_wildcard_id_zero (a_original_order act)) this else Ok this) = Ok this1 ∧ wf_Inference this1 ∧
      w ≤ i_size this1 ∧ this1 = set_orders (i_orders this1) (i_size this1) this ∧ (∀ v, order this1 v = order this v) ∧
      (order this w ≠ WILDCARD_NONEXIST → this1 = this)) as (this1 & -> & W1 & Hs1 & E1 & O1 & U1).
  { destruct (Z.ltb_spec (Z.of_nat (i_size this)) (get_wildcard_id_zero (a_original_order act))) as [Hlt|Hge].
    - destruct (inference_resize_spec _ _ Hwf (conj Hlt Hb)) as (t & Ht & W & Hs & E & O).
      exists t. split_and!; try done; [unfold w, wildcard_of; lia|]. intros []. unfold order.
      rewrite lookup_ge_None_2; [done|]. rewrite (wf_length _ Hwf). unfold w, wildcard_of. lia.
    - exists this. split_and!; try done; [unfold w, wildcard_of; lia|]. by destruct this. }
  assert (i_orders this1 !! w = Some (order this w)) as El.
  { rewrite <- O1. unfold order. destruct (lookup_lt_is_Some_2 (i_orders this1) w) as [x Hx]; [|by rewrite Hx].
    rewrite (wf_length _ W1). lia. }
  pose proof (order_entry this w Hwf) as Hent.
  unfold mbind, result_bind. unfold at_index. rewrite El.
  assert (is_normal_mo mo = true) as -> by by (unfold is_normal_mo; mo_cases).
  assert (is_normal_mo_infer (order this w) = true) as -> by (entry_cases (order this w) Hent; reflexivity).
  cbn [ASSERT]. pose proof (λ x, strengthened_lub (order this w) mo x Hent Hmo) as Hlub.
  destruct (strengthened (order this w) mo) as [mo'|] eqn:Es.
  - destruct (strengthened_entry _ _ _ Hent Hmo Es) as [Hmo' Hne].
    destruct (set_order_spec w mo' this1 W1 Hs1 (is_order_entry _ Hmo')) as (l & -> & W2 & O2).
    eexists _, _. split; [done|]. split_and!; [done|by rewrite E1| | |].
    + intros v Hv. rewrite O2, decide_False by done. apply O1.
    + intros x Hx. rewrite O2, decide_True by done. by apply Hlub.
    + right. split; [done|]. by rewrite O2, decide_True.
  - exists this1, 0%Z. split; [done|]. split_and!; [done|done|done| |].
    + intros x Hx. rewrite O1. by apply Hlub.
    + left. split; [done|]. apply U1. intros E. by rewrite E in Es.
Qed.

(** ** Applying patches *)

Definition unit_ok (u : PatchUnit) : Prop := has_wildcard (pu_act u) ∧ is_order (pu_mo u) = true.
(** An inference satisfies a unit if the operation is at least as strong as required. *)
Definition satisfies (this : Inference) (u : PatchUnit) : Prop := pu_mo u ⊑ order this (wildcard_of (pu_act u)).

(** The body of the loop of [applyPatch1]. *)
Definition applyPatch_step (u : PatchUnit) (st : Inference * bool * bool) : result (Inference * bool * bool) :=
  let '(this, updateState, broken) := st in
  if (broken : bool) then Ok (this, updateState, broken)
  else
    '(this, (canUpdate, hasUpdated)) ← strengthen_flags (pu_act u) (pu_mo u) true false this;
    Ok (this, if (canUpdate : bool) && (hasUpdated : bool) then true else updateState, negb canUpdate).

Lemma applyPatch1_step this p :
  applyPatch1 this p = ('(this, updateState, _) ← foldM applyPatch_step p (this, false, false); Ok (this, updateState)).
Proof. done. Qed.

Lemma set_orders_trans l1 n1 l2 n2 this : set_orders l2 n2 (set_orders l1 n1 this) = set_orders l2 n2 this.
Proof. done. Qed.

(** What one unit does. *)
Lemma applyPatch_step_spec u this upd :
  wf_Inference this → unit_ok u →
  ∃ this' b, applyPatch_step u (this, upd, false) = Ok (this', upd || b, false) ∧ wf_Inference this' ∧
    this' = set_orders (i_orders this') (i_size this') this ∧ this ⊑ this' ∧ satisfies this' u ∧
    (∀ X, wf_Inference X → this ⊑ X → satisfies X u → this' ⊑ X) ∧
    (b = true ↔ ∃ v, order this' v ≠ order this v).
Proof.
  intros Hwf [Hw Ho]. destruct (strengthen_least _ _ _ Hwf Hw Ho) as (this' & r & Hs & W & E & Hv & Hlub & Hr).
  exists this', (bool_decide (r = 1%Z)). set (w := wildcard_of (pu_act u)) in *.
  assert (order this w ⊑ order this' w ∧ pu_mo u ⊑ order this' w) as [H1 H2].
  { apply Hlub; [by apply order_entry|done]. }
  split_and!; [|done|done| |done| |].
  - unfold applyPatch_step, strengthen_flags. rewrite Hs. simpl. by destruct Hr as [[-> _]|[-> _]]; destruct upd.
  - intros v. destruct (decide (v = w)) as [->|Hne]; [done|]. by rewrite Hv.
  - intros X WX HX Hu v. destruct (decide (v = w)) as [->|Hne]; [|rewrite Hv by done; apply HX].
    apply Hlub; [by apply order_entry|]. split; [apply HX|done].
  - destruct Hr as [[-> ->]|[-> Hne]]; [|split; [by eexists|done]]. split; [done|]. by intros [v []].
Qed.

Lemma applyPatch_loop p this upd :
  wf_Inference this → Forall unit_ok p →
  ∃ this' b, foldM applyPatch_step p (this, upd, false) = Ok (this', upd || b, false) ∧ wf_Inference this' ∧
    this' = set_orders (i_orders this') (i_size this') this ∧ this ⊑ this' ∧ (∀ u, u ∈ p → satisfies this' u) ∧
    (∀ X, wf_Inference X → this ⊑ X → (∀ u, u ∈ p → satisfies X u) → this' ⊑ X) ∧
    (b = true ↔ ∃ v, order this' v ≠ order this v).
Proof.
  intros Hwf Hp. revert this upd Hwf. induction Hp as [|u p Hu Hp IH]; intros this upd Hwf.
  - exists this, false. rewrite orb_false_r. split_and!; try done; [by destruct this|by intros u []%elem_of_nil|].
    split; [done|]. by intros [v []].
  - destruct (applyPatch_step_spec u this upd Hwf Hu) as (t1 & b1 & E1 & W1 & S1 & L1 & Su & M1 & B1).
    destruct (IH t1 (upd || b1) W1) as (t2 & b2 & E2 & W2 & S2 & L2 & Sp & M2 & B2).
    exists t2, (b1 || b2). cbn [foldM]. rewrite E1. cbn [mbind result_bind]. rewrite E2, orb_assoc. split_and!; try done.
    + rewrite S2 at 1. by rewrite S1, set_orders_trans.
    + by etrans.
    + intros u' [->|Hu']%elem_of_cons; [|by apply Sp]. unfold satisfies in *. etrans; [apply Su|apply L2].
    + intros X WX HX HXp. apply M2; [done|apply M1; [done..|apply HXp; by left]|]. intros u' Hu'. apply HXp. by right.
    + rewrite orb_true_iff, B1, B2. split.
      * intros [[v Hv]|[v Hv]]; exists v; intros E; apply Hv; apply (anti_symm (⊑)).
        { rewrite <- E. apply L2. } { apply L1. } { rewrite E. apply L1. } { apply L2. }
      * intros [v Hv]. destruct (decide (order t1 v = order this v)) as [E|E]; [right|left; by exists v].
        exists v. by rewrite E.
Qed.

(** C28. Applying a patch to a well-formed inference computes the least inference that is
    at least as strong as before and satisfies every requirement of the patch, provided
    that all operations of the patch have wildcards within the bound; it never fails,
    and it reports a change exactly if some order changed. *)
Theorem applyPatch_least p this :
  wf_Inference this → Forall unit_ok p →
  ∃ this' b, applyPatch1 this p = Ok (this', b) ∧ wf_Inference this' ∧
    this' = set_orders (i_orders this') (i_size this') this ∧ this ⊑ this' ∧ (∀ u, u ∈ p → satisfies this' u) ∧
    (∀ X, wf_Inference X → this ⊑ X → (∀ u, u ∈ p → satisfies X u) → this' ⊑ X) ∧
    (b = true ↔ ∃ v, order this' v ≠ order this v).
Proof.
  intros Hwf Hp. rewrite applyPatch1_step.
  destruct (applyPatch_loop p this false Hwf Hp) as (t & b & -> & W). by exists t, b.
Qed.

(** A load with wildcard 3 and a store with wildcard 7. *)
Definition sample_op (ty : action_type) (mo : memory_order) : ModelAction :=
  mkModelAction ty mo mo 64 1 0 None None None None 1 None false.
Definition sample_patch : Patch :=
  new_Patch2 (sample_op ATOMIC_READ (wildcard 3)) memory_order_acquire (sample_op ATOMIC_WRITE (wildcard 7)) memory_order_release.

Lemma applyPatch_least_witness :
  ∃ this', applyPatch1 (new_Inference 1) sample_patch = Ok (this', true) ∧ wf_Inference this' ∧
    order this' 3 = memory_order_acquire ∧ order this' 7 = memory_order_release ∧ order this' 4 = WILDCARD_NONEXIST.
Proof.
  destruct (applyPatch_least sample_patch (new_Inference 1)) as (t & b & E & W & _).
  - apply new_Inference_wf.
  - repeat constructor; vm_compute; discriminate.
  - pose proof E as E'. vm_compute in E'. injection E' as <- <-. eexists. split; [exact E|]. split; [exact W|]. done.
Defined.

(** An operation with a fixed order never blocks a patch in [isApplicable] if that
    order is strong enough, but [applyPatch] gives up at it: nothing is imposed on the
    operations after it, and the patch counts as useless if it comes first, although
    the same patch with its units exchanged is applied. *)
Theorem applyPatch_fixed_order this u v r :
  is_wildcard (a_original_order (pu_act u)) = false → a_original_order (pu_act u) = pu_mo u →
  isApplicable [v] = true → applyPatch1 this [v] = Ok r →
  isApplicable [u; v] = true ∧ applyPatch1 this [u; v] = Ok (this, false) ∧ applyPatch1 this [v; u] = Ok r.
Proof.
  intros Hw Hmo Hv. rewrite !applyPatch1_step. intros Hr. split_and!.
  - unfold isApplicable in *. simpl in *. rewrite Hw, Hmo. unfold compareMemoryOrder. by rewrite bool_decide_true.
  - simpl. unfold strengthen_flags, strengthen. by rewrite Hw.
  - cbn [foldM] in *. destruct (applyPatch_step v (this, false, false)) as [[[t b] c]|] eqn:E; simpl in *; [|done].
    destruct c; simpl; [done|]. unfold strengthen_flags, strengthen. by rewrite Hw.
Qed.

(** The load is an acquire already, the store could be made a release. *)
Lemma applyPatch_fixed_order_witness :
  let u := mkPatchUnit (sample_op ATOMIC_READ memory_order_acquire) memory_order_acquire in
  let v := mkPatchUnit (sample_op ATOMIC_WRITE (wildcard 1)) memory_order_release in
  ∃ r, isApplicable [u; v] = true ∧ applyPatch1 (new_Inference 1) [u; v] = Ok (new_Inference 1, false) ∧
    applyPatch1 (new_Inference 1) [v; u] = Ok (r, true) ∧ order r 1 = memory_order_release.
Proof.
  intros u v.
  destruct (applyPatch1 (new_Inference 1) [v]) as [[r b]|] eqn:E; [|vm_compute in E; discriminate E].
  destruct (applyPatch_fixed_order (new_Inference 1) u v (r, b)) as (H1 & H2 & H3);
    [reflexivity..|exact E|]. exists r. vm_compute in E. injection E as <- <-. split_and!; [exact H1|exact H2|exact H3|done].
Defined.

(** ** Comparing inferences *)

(** What a three-way comparison says: 0 for both directions, 1 for [ge], -1 for [le], -2
    for neither. *)
Definition cmp_spec (le ge : Prop) (z : Z) : Prop :=
  (z = 0%Z ∧ le ∧ ge) ∨ (z = 1%Z ∧ ge ∧ ¬ le) ∨ (z = (-1)%Z ∧ le ∧ ¬ ge) ∨ (z = (-2)%Z ∧ ¬ le ∧ ¬ ge).

#[global] Instance cmp_spec_proper : Proper (iff ==> iff ==> eq ==> iff) cmp_spec.
Proof. intros le le' H1 ge ge' H2 z ? <-. unfold cmp_spec. tauto. Qed.

(** Two entries that are both set or both unset. *)
Definition entries_ok (p : memory_order * memory_order) : Prop :=
  is_entry p.1 = true ∧ is_entry p.2 = true ∧ (p.1 = WILDCARD_NONEXIST ↔ p.2 = WILDCARD_NONEXIST).

Lemma compare_entry_spec a b :
  entries_ok (a, b) →
  if (bool_decide (a = memory_order_acquire) && bool_decide (b = memory_order_release))
     || (bool_decide (a = memory_order_release) && bool_decide (b = memory_order_acquire))
  then ¬ a ⊑ b ∧ ¬ b ⊑ a
  else cmp_spec (a ⊑ b) (b ⊑ a) (compare_entry a b) ∧ compare_entry a b ≠ (-2)%Z.
Proof.
  intros (Ha & Hb & Hn). simpl in *. unfold cmp_spec. revert Hn.
  entry_cases a Ha; entry_cases b Hb; cbn [bool_decide decide andb orb]; decide_goal.
Qed.

Lemma compare_loop_spec l r :
  Forall entries_ok l → r = 0%Z ∨ r = 1%Z ∨ r = (-1)%Z →
  cmp_spec ((r ≤ 0)%Z ∧ Forall (λ p, p.1 ⊑ p.2) l) ((0 ≤ r)%Z ∧ Forall (λ p, p.2 ⊑ p.1) l) (compare_loop l r).
Proof.
  intros Hl. revert r. induction Hl as [|[a b] l Hp Hl IH]; intros r Hr.
  - unfold cmp_spec. simpl. rewrite !Forall_nil. destruct Hr as [-> | [-> | ->]]; intuition lia.
  - cbn [compare_loop]. pose proof (compare_entry_spec a b Hp) as He.
    destruct (_ || _) in He |- *.
    { right; right; right. rewrite !Forall_cons. simpl. tauto. }
    rewrite !Forall_cons. simpl. destruct He as [He Hne].
    assert (∀ r', cmp_spec (r' ≤ 0 ∧ Forall (λ p, p.1 ⊑ p.2) l)%Z (0 ≤ r' ∧ Forall (λ p, p.2 ⊑ p.1) l)%Z (compare_loop l r') →
      ((r' ≤ 0)%Z ↔ (r ≤ 0)%Z ∧ a ⊑ b) → ((0 ≤ r')%Z ↔ (0 ≤ r)%Z ∧ b ⊑ a) →
      cmp_spec ((r ≤ 0)%Z ∧ a ⊑ b ∧ Forall (λ p, p.1 ⊑ p.2) l) ((0 ≤ r)%Z ∧ b ⊑ a ∧ Forall (λ p, p.2 ⊑ p.1) l)
        (compare_loop l r')) as Hstep.
    { intros r' H E1 E2. eapply cmp_spec_proper, H; [tauto..|done]. }
    destruct He as [(-> & H1 & H2)|[(-> & H1 & H2)|[(-> & H1 & H2)|[? _]]]]; [| | |done];
      destruct Hr as [-> | [-> | ->]]; simpl;
      first [apply Hstep; [apply IH; tauto|intuition lia..]|right; right; right; intuition lia].
Qed.

Lemma compare_loop_zero l r :
  Forall (λ p, is_entry p.1 = true ∧ is_entry p.2 = true) l →
  compare_loop l r = 0%Z ↔ r = 0%Z ∧ Forall (λ p, p.1 = p.2) l.
Proof.
  intros Hl. revert r. induction Hl as [|[a b] l [Ha Hb] Hl IH]; intros r; [simpl; rewrite Forall_nil; tauto|].
  cbn [compare_loop]. rewrite Forall_cons. simpl in *.
  assert (if (bool_decide (a = memory_order_acquire) && bool_decide (b = memory_order_release))
     || (bool_decide (a = memory_order_release) && bool_decide (b = memory_order_acquire)) then a ≠ b
     else (compare_entry a b = 0%Z ↔ a = b)) as He.
  { entry_cases a Ha; entry_cases b Hb; cbn [bool_decide decide andb orb]; decide_goal. }
  destruct (_ || _) in He |- *; [naive_solver|]. destruct (Z.eqb_spec (compare_entry a b) 0) as [E|E].
  - rewrite E. simpl. rewrite IH. tauto.
  - destruct (_ || _) eqn:Eb; [naive_solver|]. rewrite IH. naive_solver.
Qed.

(** Inferences of the same size that set the same wildcards. *)
Definition same_shape (a b : Inference) : Prop :=
  i_size a = i_size b ∧ ∀ w, order a w = WILDCARD_NONEXIST ↔ order b w = WILDCARD_NONEXIST.

Lemma lookup_same_size (a b : Inference) w :
  wf_Inference a → wf_Inference b → i_size a = i_size b → i_orders a !! w = None ↔ i_orders b !! w = None.
Proof. intros [La _ _] [Lb _ _] Hs. rewrite !lookup_ge_None, La, Lb, Hs. done. Qed.

Lemma order_inj (a b : Inference) :
  wf_Inference a → wf_Inference b → i_size a = i_size b → (∀ w, order a w = order b w) → i_orders a = i_orders b.
Proof.
  intros Ha Hb Hs H. apply list_eq. intros w. specialize (H w). unfold order in H.
  pose proof (lookup_same_size a b w Ha Hb Hs) as Hn.
  destruct (i_orders a !! w), (i_orders b !! w); simpl in *; naive_solver congruence.
Qed.

(** The pairs of entries [compareTo] looks at, when the sizes agree. *)
Lemma compareTo_same_size a b :
  wf_Inference a → wf_Inference b → i_size a = i_size b →
  compareTo a b = compare_loop (zip (i_orders a) (i_orders b)) 0.
Proof.
  intros Ha Hb Hs. unfold compareTo. rewrite <- Hs, Nat.eqb_refl, Nat.ltb_irrefl.
  rewrite !firstn_all2; [done|rewrite (wf_length _ Hb); lia|rewrite (wf_length _ Ha); lia].
Qed.

Lemma Forall_zip_order (P : memory_order → memory_order → Prop) a b :
  wf_Inference a → wf_Inference b → i_size a = i_size b → P WILDCARD_NONEXIST WILDCARD_NONEXIST →
  Forall (λ p, P p.1 p.2) (zip (i_orders a) (i_orders b)) ↔ ∀ w, P (order a w) (order b w).
Proof.
  intros Ha Hb Hs HP. rewrite Forall_lookup. unfold order. split; intros H w.
  - pose proof (lookup_same_size a b w Ha Hb Hs) as Hn.
    destruct (i_orders a !! w) as [x|] eqn:E1, (i_orders b !! w) as [y|] eqn:E2; simpl; [|naive_solver..].
    apply (H w (x, y)). apply lookup_zip_Some. done.
  - intros [x y] [E1 E2]%lookup_zip_Some. specialize (H w). simpl in *. by rewrite E1, E2 in H.
Qed.

Lemma compareTo_zero a b : wf_Inference a → wf_Inference b → compareTo a b = 0%Z ↔ i_orders a = i_orders b.
Proof.
  intros Ha Hb. split.
  - unfold compareTo. rewrite compare_loop_zero.
    + intros [Hr Hl]. destruct (Nat.eqb_spec (i_size a) (i_size b)) as [Hs|Hs]; [|by case_match].
      apply order_inj; [done..|]. apply (Forall_zip_order eq); [done..|].
      rewrite <- Hs, Nat.ltb_irrefl, !firstn_all2 in Hl; [done|rewrite (wf_length _ Hb); lia|rewrite (wf_length _ Ha); lia].
    + apply Forall_lookup. intros i [x y] [E1 E2]%lookup_zip_Some.
      apply lookup_take_Some in E1 as [E1 _]. apply lookup_take_Some in E2 as [E2 _].
      split; [exact (Forall_lookup_1 _ _ _ _ (wf_entries _ Ha) E1)|exact (Forall_lookup_1 _ _ _ _ (wf_entries _ Hb) E2)].
  - intros E. assert (i_size a = i_size b) as Hs.
    { pose proof (wf_length _ Ha) as L1. pose proof (wf_length _ Hb) as L2. rewrite E in L1. lia. }
    rewrite compareTo_same_size by done. apply compare_loop_zero.
    + apply (Forall_zip_order (λ x y, is_entry x = true ∧ is_entry y = true)); [done..|].
      intros w. by split; apply order_entry.
    + split; [done|]. apply (Forall_zip_order eq); [done..|]. intros w. unfold order. by rewrite E.
Qed.

(** [compareTo] returns 0 exactly for inferences with the same entries. On
    inferences of one size that set the same wildcards it decides the pointwise order:
    1 for stronger, -1 for weaker and -2 for incomparable. *)
Theorem compareTo_correct a b :
  wf_Inference a → wf_Inference b →
  (compareTo a b = 0%Z ↔ i_orders a = i_orders b) ∧ (same_shape a b → cmp_spec (a ⊑ b) (b ⊑ a) (compareTo a b)).
Proof.
  intros Ha Hb. split; [by apply compareTo_zero|]. intros [Hs Hn]. rewrite compareTo_same_size by done.
  pose proof (compare_loop_spec (zip (i_orders a) (i_orders b)) 0) as H.
  rewrite (Forall_zip_order (⊑) a b Ha Hb Hs), (Forall_zip_order (λ x y, y ⊑ x) a b Ha Hb Hs) in H by done.
  eapply cmp_spec_proper, H; [split; [by intros|by intros [_ ?]]..|done| |by left].
  apply (Forall_zip_order (λ x y, entries_ok (x, y))); [done..|]. intros w. split_and!; [by apply order_entry..|apply Hn].
Qed.

Lemma compareTo_correct_witness :
  let a := set_orders [WILDCARD_NONEXIST; memory_order_acq_rel; memory_order_release; memory_order_relaxed; memory_order_seq_cst] 4 (new_Inference 1) in
  let b := set_orders [WILDCARD_NONEXIST; memory_order_acquire; memory_order_release; memory_order_relaxed; memory_order_seq_cst] 4 (new_Inference 2) in
  compareTo a b = 1%Z ∧ b ⊑ a ∧ ¬ a ⊑ b.
Proof.
  intros a b. destruct (compareTo_correct a b) as [_ H].
  - split; [done|vm_compute; by split; [lia|]|by repeat constructor].
  - split; [done|vm_compute; by split; [lia|]|by repeat constructor].
  - assert (same_shape a b) as Hs. { split; [done|]. intros [|[|[|[|[|w]]]]]; by vm_compute. }
    destruct (H Hs) as [[E _]|[[E [H1 H2]]|[[E _]|[E _]]]]; try (vm_compute in E; discriminate E).
    split_and!; [exact E|exact H1|exact H2].
Defined.

(** Lists that differ in one entry. *)
Lemma compare_loop_refl l r : compare_loop (zip l l) r = r.
Proof.
  induction l as [|x l IH]; [done|]. cbn [zip zip_with compare_loop].
  assert (compare_entry x x = 0%Z) as ->.
  { unfold compare_entry. rewrite N.ltb_irrefl. mo_cases. }
  replace (_ || _) with false by by destruct x. cbn. exact IH.
Qed.

Lemma compare_loop_insert l l' (w : nat) x y :
  l !! w = Some x → l' = <[w := y]> l → x = WILDCARD_NONEXIST ∨ y = WILDCARD_NONEXIST →
  compare_loop (zip l l') 0 = compare_entry x y.
Proof.
  intros Hx -> Hxy. revert w Hx. induction l as [|z l IH]; intros [|w] Hx; simplify_eq/=.
  - replace (_ || _) with false by by destruct Hxy as [-> | ->]; destruct x || destruct y; done.
    rewrite !andb_false_r. cbn. rewrite compare_loop_refl. by destruct (Z.eqb_spec (compare_entry x y) 0).
  - assert (compare_entry z z = 0%Z) as ->.
    { unfold compare_entry. rewrite N.ltb_irrefl. mo_cases. }
    replace (_ || _) with false by by destruct z. cbn. by apply IH.
Qed.

(** A wildcard that one inference does not set makes it compare as stronger, although
    its operations run with relaxed order: setting an unset wildcard to any order gives an
    inference that is at least as strong, and [compareTo] answers that the old one is
    stronger than the new one; for relaxed it answers so in both directions. *)
Theorem compareTo_unset_reversed a w mo :
  wf_Inference a → w ≤ i_size a → order a w = WILDCARD_NONEXIST → is_order mo = true →
  let b := set_orders (<[w := mo]> (i_orders a)) (i_size a) a in
  a ⊑ b ∧ compareTo a b = 1%Z ∧ compareTo b a = if bool_decide (mo = memory_order_relaxed) then 1%Z else (-1)%Z.
Proof.
  intros Ha Hw Hn Ho b. assert (i_orders a !! w = Some WILDCARD_NONEXIST) as El.
  { destruct (lookup_lt_is_Some_2 (i_orders a) w) as [x Hx]; [rewrite (wf_length _ Ha); lia|].
    unfold order in Hn. rewrite Hx in Hn. simpl in Hn. by subst. }
  destruct (set_order_spec w mo a Ha Hw (is_order_entry _ Ho)) as (l & Hl & Wb & Ob).
  unfold set_at in Hl. rewrite (proj2 (Nat.ltb_lt _ _)) in Hl by (rewrite (wf_length _ Ha); lia). injection Hl as <-.
  fold b in Wb, Ob. rewrite !compareTo_same_size by done. split_and!.
  - intros v. rewrite Ob. case_decide; [subst; rewrite Hn; apply WILDCARD_NONEXIST_least|done].
  - rewrite (compare_loop_insert _ _ w WILDCARD_NONEXIST mo); [|done|done|by left].
    unfold compare_entry. mo_cases.
  - rewrite (compare_loop_insert _ _ w mo WILDCARD_NONEXIST); [| | |by right].
    + unfold compare_entry. mo_cases.
    + simpl. apply list_lookup_insert_eq. by eapply lookup_lt_Some.
    + simpl. by rewrite list_insert_insert_eq, list_insert_id.
Qed.

Lemma compareTo_unset_reversed_witness :
  let a := new_Inference 1 in
  let b := set_orders [WILDCARD_NONEXIST; WILDCARD_NONEXIST; memory_order_seq_cst; WILDCARD_NONEXIST; WILDCARD_NONEXIST] 4 a in
  a ⊑ b ∧ compareTo a b = 1%Z ∧ compareTo b a = (-1)%Z.
Proof.
  intros a b. exact (compareTo_unset_reversed a 2 memory_order_seq_cst (new_Inference_wf 1) ltac:(simpl; lia) eq_refl eq_refl).
Defined.

(** ** Weakening *)

(** Weakening an order step by step arrives at any order below it within four steps, so
    five rounds of [weaken_orders] are enough. *)
Lemma nextWeakOrder_reaches mo1 mo2 :
  is_order mo1 = true → is_order mo2 = true → mo2 ⊑ mo1 →
  Exists (λ n, Nat.iter n (λ mo, nextWeakOrder mo mo2) mo1 = mo2) [0; 1; 2; 3; 4].
Proof.
  intros H1%is_order_entry H2. pose proof (is_order_entry _ H2) as H2'. revert H2.
  entry_cases mo1 H1; entry_cases mo2 H2'; decide_goal.
Qed.

(** Each step stays between the two orders. *)
Lemma nextWeakOrder_between mo1 mo2 :
  is_order mo1 = true → is_order mo2 = true → mo2 ⊑ mo1 → mo2 ⊑ nextWeakOrder mo1 mo2 ∧ nextWeakOrder mo1 mo2 ⊑ mo1.
Proof.
  intros H1. pose proof (is_order_entry _ H1) as H1'. intros H2. pose proof (is_order_entry _ H2) as H2'.
  revert H1 H2. entry_cases mo1 H1'; entry_cases mo2 H2'; decide_goal.
Qed.

(** Between acq_rel and acquire, [getWeakerInferences] offers release, which is not
    stronger than acquire. *)
Example getWeakerInferences_below :
  let strong := set_orders (replicate 4 memory_order_relaxed ++ [memory_order_acq_rel]) 4 (new_Inference 1) in
  let weak := set_orders (replicate 4 memory_order_relaxed ++ [memory_order_acquire]) 4 (new_Inference 2) in
  ∃ r, (λ x, x.2) <$> getWeakerInferences strong weak = Ok [r] ∧ order r 4 = memory_order_release ∧ ¬ weak ⊑ r.
Proof. eexists. split; [vm_compute; reflexivity|]. split; [done|]. intros H. specialize (H 4). vm_compute in H. done. Qed.

(** [isTheInference] starts at entry 0, which [operator[]] refuses. *)
Lemma isTheInference_fails this : wf_Inference this → isTheInference this = Err AssertFailed.
Proof.
  intros [_ [Hs _] _]. unfold isTheInference. destruct (i_size this) as [|n] eqn:E; [lia|]. cbn [seq foldM].
  unfold read_order, op_index, resize. simpl. rewrite E. done.
Qed.
