(* ===== verification/InferSet.v ===== *)
(** * The search space of inferences (scfence/inferlist.cc, inferset.cc)

    The plugin explores inferences from weak to strong. The objects are shared between
    the lists of discovered inferences, candidates and results, and flags set through
    one list are seen through the others, so they live in a heap and the lists hold
    pointers. *)

From S2P Require Import Prelude ClockVector Action Inference.

(** ** State *)

Record InferState := mkInferState {
  is_infers : gmap ptr Inference;   (* the heap of Inference objects *)
  is_next : ptr;                    (* the next address handed out by new *)
  is_discoveredSet : list ptr;
  is_results : list ptr;
  is_candidates : list ptr;
  is_notAddedAtFirstPlace : Z
}.

Definition new_InferenceSet : InferState := mkInferState ∅ 1 [] [] [] 0.

Definition put_infers (m : gmap ptr Inference) (st : InferState) : InferState :=
  mkInferState m (is_next st) (is_discoveredSet st) (is_results st) (is_candidates st) (is_notAddedAtFirstPlace st).
Definition put_discovered (l : list ptr) (st : InferState) : InferState :=
  mkInferState (is_infers st) (is_next st) l (is_results st) (is_candidates st) (is_notAddedAtFirstPlace st).
Definition put_results (l : list ptr) (st : InferState) : InferState :=
  mkInferState (is_infers st) (is_next st) (is_discoveredSet st) l (is_candidates st) (is_notAddedAtFirstPlace st).
Definition put_candidates (l : list ptr) (st : InferState) : InferState :=
  mkInferState (is_infers st) (is_next st) (is_discoveredSet st) (is_results st) l (is_notAddedAtFirstPlace st).
Definition put_notAdded (n : Z) (st : InferState) : InferState :=
  mkInferState (is_infers st) (is_next st) (is_discoveredSet st) (is_results st) (is_candidates st) n.

Definition infer_at (p : ptr) (st : InferState) : result Inference := deref (is_infers st !! p).
Definition upd_infer (p : ptr) (f : Inference → Inference) (st : InferState) : result InferState :=
  x ← infer_at p st; Ok (put_infers (<[p := f x]> (is_infers st)) st).
(** [new] and [delete]; deleting what is not allocated is undefined. *)
Definition new_infer (x : Inference) (st : InferState) : InferState * ptr :=
  (mkInferState (<[is_next st := x]> (is_infers st)) (Pos.succ (is_next st)) (is_discoveredSet st) (is_results st)
     (is_candidates st) (is_notAddedAtFirstPlace st), is_next st).
Definition delete_infer (p : ptr) (st : InferState) : result InferState :=
  _ ← infer_at p st; Ok (put_infers (delete p (is_infers st)) st).

(** [p->compareTo(q)] *)
Definition compare_at (p q : ptr) (st : InferState) : result Z :=
  x ← infer_at p st; y ← infer_at q st; Ok (compareTo x y).

(** ** InferenceList *)

(** A copy of an inference with a patch applied, kept if that changed something. *)
Definition patched_copy (p : ptr) (patch : Patch) (acc : InferState * list ptr) : result (InferState * list ptr) :=
  let '(st, l) := acc in
  x ← infer_at p st;
  x ← copy_Inference x;
  '(x, changed) ← applyPatch1 x patch;
  if (changed : bool) then let '(st, q) := new_infer x st in Ok (st, l ++ [q]) else Ok (st, l).

Definition applyPatch (curInfer : ptr) (patch : Patch) (acc : InferState * list ptr) : result (InferState * list ptr) :=
  let '(st, l) := acc in
  if bool_decide (l = []) then patched_copy curInfer patch (st, [])
  else
    '(st, newList) ← foldM (λ old, patched_copy old patch) l (st, []);
    st ← foldM delete_infer l st;
    Ok (st, newList).

Definition applyPatches (curInfer : ptr) (patches : list Patch) (acc : InferState * list ptr)
    : result (InferState * list ptr) :=
  let '(st, l) := acc in
  if bool_decide (l = []) then foldM (patched_copy curInfer) patches (st, [])
  else
    '(st, newList) ← foldM (λ old acc, foldM (patched_copy old) patches acc) l (st, []);
    st ← foldM delete_infer l st;
    Ok (st, newList).

(** [append]: both lists then hold the inferences of the second. *)
Definition append (l : list ptr) (inferList : option (list ptr)) : list ptr * bool :=
  match inferList with None => (l, false) | Some l' => (l ++ l', true) end.

(** The inner loop of [pruneCandidates]: those already added that are as strong as the
    candidate are deleted. (The code steps back after an [erase], also before the first
    element, which in a circular list is the position before [begin].) *)
Definition drop_stronger (cand : ptr) (l : list ptr) (st : InferState) : result (InferState * list ptr) :=
  foldM (λ addedInfer '(st, kept),
      compVal ← compare_at addedInfer cand st;
      if (compVal =? 0)%Z || (compVal =? 1)%Z then st ← delete_infer addedInfer st; Ok (st, kept)
      else Ok (st, kept ++ [addedInfer])) l (st, []).

Definition pruneCandidates (curInfer : ptr) (l : list ptr) (st : InferState) : result (InferState * list ptr) :=
  foldM (λ cand '(st, newCandidates),
      compVal ← compare_at cand curInfer st;
      if (compVal =? 0)%Z then st ← delete_infer cand st; Ok (st, newCandidates)
      else '(st, kept) ← drop_stronger cand newCandidates st; Ok (st, kept ++ [cand])) l (st, []).

(** ** InferenceSet *)

Definition addResult (infer : ptr) (st : InferState) : result InferState :=
  kept ← foldM (λ existResult kept,
      compVal ← compare_at existResult infer st;
      Ok (if (compVal =? 0)%Z || (compVal =? 1)%Z then kept else kept ++ [existResult])) (is_results st) [];
  Ok (put_results (kept ++ [infer]) st).

Definition commitInference (infer : ptr) (feasible : bool) (st : InferState) : result InferState :=
  st ← upd_infer infer (setExplored true) st;
  if feasible then addResult infer st else Ok st.

Definition hasBeenDiscovered (infer : ptr) (st : InferState) : result bool :=
  r ← until (λ p,
      compVal ← compare_at p infer st;
      d ← infer_at p st;
      Ok (if (compVal =? 0)%Z then Some true
          else if (compVal =? -1)%Z && i_leaf d && i_explored d then Some true else None)) (is_discoveredSet st);
  Ok (default false r).

Definition hasBeenExplored (infer : ptr) (st : InferState) : result bool :=
  r ← until (λ p,
      d ← infer_at p st;
      if negb (i_explored d) then Ok None
      else
        compVal ← compare_at p infer st;
        Ok (if (compVal =? 0)%Z || (compVal =? -1)%Z then Some true else None)) (is_discoveredSet st);
  Ok (default false r).

Definition addInference (infer : ptr) (st : InferState) : result (InferState * bool) :=
  d ← hasBeenDiscovered infer st;
  if (d : bool) then Ok (put_notAdded (is_notAddedAtFirstPlace st + 1) st, false)
  else
    st ← upd_infer infer (setLeaf true) st;
    let st := put_candidates (is_candidates st ++ [infer]) st in
    Ok (put_discovered (is_discoveredSet st ++ [infer]) st, true).

Definition addCurInference (infer : ptr) (st : InferState) : result InferState :=
  st ← upd_infer infer (setLeaf false) st;
  Ok (put_candidates (is_candidates st ++ [infer]) st).

(** [addCandidates]; the candidates that are not added stay allocated. *)
Definition addCandidates (curInfer : ptr) (inferList : option (list ptr)) (st : InferState) : result (InferState * bool) :=
  match inferList with
  | None => Ok (st, false)
  | Some l =>
      '(st, cands) ← pruneCandidates curInfer l st;
      st ← addCurInference curInfer st;
      foldM (λ candidate '(st, added),
          c ← infer_at curInfer st;
          st ← upd_infer candidate (setInitialInfer (i_initialInfer c)) st;
          '(st, tmpAdded) ← addInference candidate st;
          Ok (st, (added : bool) || tmpAdded)) cands (st, false)
  end.

(** The loop of [getNextInference] over the candidates from the back. *)
Fixpoint next_inference (l : list ptr) (st : InferState) : result (InferState * option ptr) :=
  match l with
  | [] => Ok (st, None)
  | infer :: l =>
      let st := put_candidates (rev l) st in
      x ← infer_at infer st;
      if negb (i_leaf x) then st ← commitInference infer false st; next_inference l st
      else
        explored ← (if i_shouldFix x then hasBeenExplored infer st else Ok false);
        if (explored : bool) then next_inference l st else Ok (st, Some infer)
  end.
Definition getNextInference (st : InferState) : result (InferState * option ptr) :=
  next_inference (rev (is_candidates st)) st.

(** ** Weakening a result *)

(** An entry of an inference of the heap, which may have to grow. *)
Definition read_order_at (p : ptr) (w : nat) (st : InferState) : result (InferState * memory_order) :=
  x ← infer_at p st;
  '(x, mo) ← read_order (Z.of_nat w) x;
  Ok (put_infers (<[p := x]> (is_infers st)) st, mo).

(** The wildcards that are stronger in [curInfer] than in the inference it started from. *)
Definition strengthened_at (curInfer initialInfer : ptr) (st : InferState) : result (InferState * list nat) :=
  c ← infer_at curInfer st;
  foldM (λ i '(st, l),
      '(st, mo1) ← read_order_at curInfer i st;
      '(st, mo2) ← read_order_at initialInfer i st;
      let compVal := compareMemoryOrder mo1 mo2 in
      _ ← ASSERT ((compVal =? 0)%Z || (compVal =? 1)%Z);
      Ok (st, if (compVal =? 0)%Z then l else l ++ [i])) (seq 1 (i_size c)) (st, []).

(** A copy of [curInfer] with an entry changed, to be explored but not to be fixed. *)
Definition weaker_copy (curInfer : ptr) (w : nat) (mo : option memory_order) (st : InferState) : result (InferState * ptr) :=
  x ← infer_at curInfer st;
  x ← copy_Inference x;
  x ← match mo with Some mo => write_order (Z.of_nat w) mo x | None => Ok x end;
  Ok (new_infer (setLeaf true (setShouldFix false x)) st).

(** The search of [addWeakerInference] for an equal inference that is not a leaf; the
    copy is added if there is none. *)
Definition add_weaker (weakerInfer : ptr) (st : InferState) : result InferState :=
  foundIt ← until (λ p,
      compVal ← compare_at p weakerInfer st;
      d ← infer_at p st;
      Ok (if (compVal =? 0)%Z && negb (i_leaf d) then Some tt else None)) (is_discoveredSet st);
  match foundIt with
  | Some _ => Ok st
  | None => '(st, _) ← addInference weakerInfer st; Ok st
  end.

Definition addWeakerInference (curInfer : ptr) (st : InferState) : result InferState :=
  c ← infer_at curInfer st;
  let initialInfer := i_initialInfer c in
  '(st, strengthened) ← strengthened_at curInfer initialInfer st;
  foldM (λ w st,
      '(st, mo1) ← read_order_at curInfer w st;
      '(st, mo2) ← read_order_at initialInfer w st;
      let weakerMO := nextWeakOrder mo1 mo2 in
      let '(new1, new2) :=
        if bool_decide (mo1 = memory_order_acq_rel) then
          if bool_decide (mo2 = memory_order_acquire) then (Some memory_order_acquire, None)
          else if bool_decide (mo2 = memory_order_release) then (Some memory_order_release, None)
          else (Some memory_order_acquire, Some memory_order_release)
        else (if bool_decide (mo2 ≠ weakerMO) then Some weakerMO else None, None) in
      '(st, weakerInfer1) ← weaker_copy curInfer w new1 st;
      '(st, weakerInfer2) ← match new2 with
                            | Some mo => '(st, p) ← weaker_copy curInfer w (Some mo) st; Ok (st, Some p)
                            | None => Ok (st, None)
                            end;
      st ← add_weaker weakerInfer1 st;
      match weakerInfer2 with Some p => add_weaker p st | None => Ok st end) strengthened st.

(** ** Invariant *)

(** Live pointers to well-formed inferences. *)
Definition live (st : InferState) (p : ptr) : Prop := ∃ x, is_infers st !! p = Some x ∧ wf_Inference x.
Definition entries (st : InferState) (p : ptr) : list memory_order := default [] (i_orders <$> is_infers st !! p).

(** With [d] false only the pointers have to be live: looking up a wildcard for the first
    time changes a discovered inference, which can become equal to another one. *)
Record wf_set (d : Prop) (st : InferState) : Prop := {
  ws_discovered : Forall (live st) (is_discoveredSet st);
  ws_results : Forall (live st) (is_results st);
  ws_candidates : Forall (live st) (is_candidates st);
  (* discovered inferences have pairwise different entries *)
  ws_distinct : d → NoDup (entries st <$> is_discoveredSet st)
}.

Lemma infer_at_Ok p st x : infer_at p st = Ok x ↔ is_infers st !! p = Some x.
Proof. apply deref_Ok. Qed.

Lemma delete_infer_Ok p st x : is_infers st !! p = Some x → delete_infer p st = Ok (put_infers (delete p (is_infers st)) st).
Proof. intros H. unfold delete_infer, infer_at. by rewrite H. Qed.

Lemma compare_at_live p q st :
  live st p → live st q → ∃ x y, is_infers st !! p = Some x ∧ is_infers st !! q = Some y ∧
    wf_Inference x ∧ wf_Inference y ∧ compare_at p q st = Ok (compareTo x y).
Proof. intros (x & Hx & Wx) (y & Hy & Wy). exists x, y. unfold compare_at, infer_at. by rewrite Hx, Hy. Qed.

(** The comparison of two live inferences is 0 exactly if they have the same entries. *)
Lemma compare_at_zero p q st z :
  live st p → live st q → compare_at p q st = Ok z → z = 0%Z ↔ entries st p = entries st q.
Proof.
  intros Hp Hq. destruct (compare_at_live p q st Hp Hq) as (x & y & Hx & Hy & Wx & Wy & ->). intros [= <-].
  unfold entries. rewrite Hx, Hy. by apply compareTo_zero.
Qed.

(** ** Operations on the heap *)

(** Nothing that was live dies or changes its entries. *)
Definition same_entries (st st' : InferState) : Prop :=
  ∀ q, live st q → live st' q ∧ entries st' q = entries st q.

#[global] Instance same_entries_preorder : PreOrder same_entries.
Proof.
  split; [by intros st q|]. intros s1 s2 s3 H1 H2 q Hq. destruct (H1 q Hq) as [L1 E1], (H2 q L1) as [L2 E2].
  split; [done|congruence].
Qed.

Lemma wf_set_transport {d : Prop} st st' :
  wf_set d st → same_entries st st' → is_discoveredSet st' = is_discoveredSet st → is_results st' = is_results st →
  Forall (live st') (is_candidates st') → wf_set d st'.
Proof.
  intros [Hd Hr Hc Hn] Hs Ed Er Hc'. split; rewrite ?Ed, ?Er; [| |done|].
  - eapply Forall_impl; [exact Hd|]. intros q Hq. by apply Hs.
  - eapply Forall_impl; [exact Hr|]. intros q Hq. by apply Hs.
  - intros Hdist. erewrite list_fmap_ext; [exact (Hn Hdist)|]. intros i q Hq. apply Hs. exact (Forall_lookup_1 _ _ _ _ Hd Hq).
Qed.

(** Flags and the initial inference do not matter for liveness. *)
Lemma upd_infer_spec p f st :
  live st p → (∀ x, i_orders (f x) = i_orders x ∧ i_size (f x) = i_size x) →
  ∃ x, is_infers st !! p = Some x ∧ upd_infer p f st = Ok (put_infers (<[p := f x]> (is_infers st)) st) ∧
    same_entries st (put_infers (<[p := f x]> (is_infers st)) st).
Proof.
  intros (x & Hx & Wx) Hf. exists x. destruct (Hf x) as [E1 E2]. split; [done|]. split.
  - unfold upd_infer, infer_at. by rewrite Hx.
  - intros q (y & Hy & Wy). unfold live, entries. simpl. destruct (decide (q = p)) as [->|Hne].
    + rewrite lookup_insert_eq. assert (y = x) as -> by congruence. split; [|rewrite Hx; simpl; by rewrite E1].
      exists (f x). split; [done|]. destruct Wx as [W1 W2 W3]. split; rewrite ?E1, ?E2; done.
    + rewrite lookup_insert_ne by done. split; [by exists y|done].
Qed.

(** ** Discovered and explored inferences *)

(** A discovered inference makes another one pointless: it is the same, or a weaker leaf
    that has been explored. *)
Definition covers (st : InferState) (q p : ptr) : Prop :=
  ∃ x y, is_infers st !! q = Some x ∧ is_infers st !! p = Some y ∧
    (i_orders x = i_orders y ∨ compareTo x y = (-1)%Z ∧ i_leaf x = true ∧ i_explored x = true).
(** An explored inference that is the same or weaker. *)
Definition explored_below (st : InferState) (q p : ptr) : Prop :=
  ∃ x y, is_infers st !! q = Some x ∧ is_infers st !! p = Some y ∧ i_explored x = true ∧
    (i_orders x = i_orders y ∨ compareTo x y = (-1)%Z).

Lemma hasBeenDiscovered_spec {d : Prop} p st :
  wf_set d st → live st p →
  ∃ b, hasBeenDiscovered p st = Ok b ∧ (b = true ↔ ∃ q, q ∈ is_discoveredSet st ∧ covers st q p).
Proof.
  intros Hwf Hp. unfold hasBeenDiscovered.
  edestruct (until_exists (λ q, covers st q p)) as (r & Hr & Hb); [|rewrite Hr; simpl; by exists (default false r)].
  intros q Hq. simpl.
  pose proof (proj1 (Forall_forall _ _) (ws_discovered _ _ Hwf) q Hq) as Lq.
  destruct (compare_at_live q p st Lq Hp) as (x & y & Hx & Hy & Wx & Wy & ->). simpl. unfold infer_at. rewrite Hx. simpl.
  pose proof (compareTo_zero x y Wx Wy) as Hz. unfold covers. rewrite Hx, Hy.
  destruct (Z.eqb_spec (compareTo x y) 0) as [E|E].
  - exists true. split; [done|]. split; [|done]. intros _. exists x, y. split_and!; [done..|]. left. by apply Hz.
  - exists ((compareTo x y =? -1)%Z && i_leaf x && i_explored x). split; [done|].
    rewrite !andb_true_iff, Z.eqb_eq. split; [|naive_solver]. intros [[? ?] ?]. exists x, y. tauto.
Qed.

Lemma hasBeenExplored_spec {d : Prop} p st :
  wf_set d st → live st p →
  ∃ b, hasBeenExplored p st = Ok b ∧ (b = true ↔ ∃ q, q ∈ is_discoveredSet st ∧ explored_below st q p).
Proof.
  intros Hwf Hp. unfold hasBeenExplored.
  edestruct (until_exists (λ q, explored_below st q p)) as (r & Hr & Hb); [|rewrite Hr; simpl; by exists (default false r)].
  intros q Hq. simpl.
  pose proof (proj1 (Forall_forall _ _) (ws_discovered _ _ Hwf) q Hq) as Lq.
  destruct (compare_at_live q p st Lq Hp) as (x & y & Hx & Hy & Wx & Wy & ->). unfold infer_at. rewrite Hx. simpl.
  pose proof (compareTo_zero x y Wx Wy) as Hz. unfold explored_below. rewrite Hx, Hy.
  exists (i_explored x && ((compareTo x y =? 0)%Z || (compareTo x y =? -1)%Z)). split; [by destruct (i_explored x)|].
  rewrite andb_true_iff, orb_true_iff, !Z.eqb_eq, Hz. split; [|naive_solver]. intros [? ?]. exists x, y. tauto.
Qed.

(** Adding an inference: exactly if no discovered one covers it. *)
Lemma addInference_spec {d : Prop} p st :
  wf_set d st → live st p →
  ∃ st' b, addInference p st = Ok (st', b) ∧ wf_set d st' ∧ same_entries st st' ∧
    (b = false ↔ ∃ q, q ∈ is_discoveredSet st ∧ covers st q p) ∧ is_results st' = is_results st ∧
    is_discoveredSet st' = is_discoveredSet st ++ (if b then [p] else []) ∧
    is_candidates st' = is_candidates st ++ (if b then [p] else []) ∧
    (∀ q, is_infers st' !! q = if b && bool_decide (q = p) then setLeaf true <$> is_infers st !! p else is_infers st !! q).
Proof.
  intros Hwf Hp. unfold addInference. destruct (hasBeenDiscovered_spec p st Hwf Hp) as (found & -> & Hd). simpl. destruct found.
  - exists (put_notAdded (is_notAddedAtFirstPlace st + 1) st), false. split; [done|]. simpl. rewrite !app_nil_r.
    split_and!; try done; [|split; [|done]; intros _; by apply Hd].
    destruct Hwf as [H1 H2 H3 H4]. by split.
  - destruct (upd_infer_spec p (setLeaf true) st Hp) as (x & Hx & -> & Hs); [done|]. simpl.
    set (st' := put_infers _ st) in *. eexists _, true. split; [done|]. destruct (Hs p Hp) as [Lp Ep].
    assert (wf_set d st') as [H1 H2 H3 H4].
    { eapply wf_set_transport; [done..|]. eapply Forall_impl; [apply (ws_candidates _ _ Hwf)|]. intros q Hq. by apply Hs. }
    split_and!; [split| | |done..|]; try done.
    + apply Forall_app. split; [done|]. by apply Forall_singleton.
    + apply Forall_app. split; [done|]. by apply Forall_singleton.
    + intros Hdist. simpl. rewrite fmap_app. apply NoDup_app. split_and!; [by apply H4| |apply NoDup_singleton].
      intros e (q & -> & Hq)%list_elem_of_fmap. intros E%list_elem_of_singleton. enough (false = true) by done. apply Hd.
      exists q. split; [done|]. pose proof (proj1 (Forall_forall _ _) (ws_discovered _ _ Hwf) q Hq) as Lq.
      destruct (Hs q Lq) as [_ Eq]. destruct Lq as (y & Hy & _). exists y, x. split_and!; [done..|]. left.
      change (entries st' q = entries st' p) in E. rewrite Eq, Ep in E. unfold entries in E. by rewrite Hy, Hx in E.
    + split; [done|]. intros H%Hd. done.
    + intros q. simpl. case_bool_decide; [subst; by rewrite lookup_insert_eq, Hx|by rewrite lookup_insert_ne].
Qed.

(** ** Pruning *)

(** [compareTo] finds the first inference as strong as the second. *)
Definition stronger (st : InferState) (q c : ptr) : bool :=
  match is_infers st !! q, is_infers st !! c with
  | Some x, Some y => (compareTo x y =? 0)%Z || (compareTo x y =? 1)%Z
  | _, _ => false
  end.

(** No element is as strong as one after it. *)
Definition ascending (st : InferState) : list ptr → Prop := ForallOrdPairs (λ p q, stronger st p q = false).

Lemma FOP_sublist {A} (R : A → A → Prop) l1 l2 : l1 `sublist_of` l2 → ForallOrdPairs R l2 → ForallOrdPairs R l1.
Proof.
  induction 1 as [|x l1 l2 Hs IH|x l1 l2 Hs IH]; inv 1; [constructor| |auto]. constructor; [|auto].
  apply Forall_forall. intros y Hy. eapply (proj1 (Forall_forall _ _)); [done|]. by eapply elem_of_sublist.
Qed.

Lemma FOP_snoc {A} (R : A → A → Prop) l x :
  ForallOrdPairs R l → Forall (λ y, R y x) l → ForallOrdPairs R (l ++ [x]).
Proof.
  induction 1 as [|y l Hy Hl IH]; intros Hx; simpl; [repeat constructor|]. apply Forall_cons in Hx as [Hx1 Hx2].
  constructor; [|by apply IH]. apply Forall_app. split; [done|]. by apply Forall_singleton.
Qed.

Lemma compare_at_same (m : gmap ptr Inference) st p q :
  m !! p = is_infers st !! p → m !! q = is_infers st !! q → compare_at p q (put_infers m st) = compare_at p q st.
Proof. unfold compare_at, infer_at. simpl. by intros -> ->. Qed.

Lemma stronger_compare st p q z :
  compare_at p q st = Ok z → stronger st p q = ((z =? 0)%Z || (z =? 1)%Z).
Proof.
  unfold compare_at, infer_at, stronger. intros H. destruct (is_infers st !! p); [|done]. simpl in H.
  destruct (is_infers st !! q); [|done]. simpl in H. by injection H as <-.
Qed.

(** The inner loop deletes what is as strong as the candidate. *)
Lemma drop_stronger_spec (cand : ptr) l (m : gmap ptr Inference) st :
  NoDup l → cand ∉ l → Forall (live st) l → live st cand →
  m !! cand = is_infers st !! cand → (∀ q, q ∈ l → m !! q = is_infers st !! q) →
  ∃ m', drop_stronger cand l (put_infers m st) = Ok (put_infers m' st, filter (λ q, stronger st q cand = false) l) ∧
    ∀ q, q ∉ l ∨ q ∈ filter (λ q, stronger st q cand = false) l → m' !! q = m !! q.
Proof.
  intros Hnd Hc Hl Lc Ec Em. unfold drop_stronger.
  edestruct (foldM_ind (λ l1 (s : InferState * list ptr), ∃ m', s = (put_infers m' st, filter (λ q, stronger st q cand = false) l1) ∧
    ∀ q, q ∉ l1 ∨ q ∈ filter (λ q, stronger st q cand = false) l1 → m' !! q = m !! q)) as (s' & -> & m' & -> & Hm').
  - by exists m.
  - intros l1 x l2 s El (m1 & -> & Hm1). rewrite El in Hnd.
    assert (x ∉ l1) as Hx. { apply NoDup_app in Hnd as (_ & Hd & _). intros Hx. apply (Hd x Hx). by left. }
    assert (x ∈ l) as Hxl by (rewrite El; apply elem_of_app; right; by left).
    assert (x ≠ cand) as Hne by congruence.
    rewrite compare_at_same; [|rewrite Hm1 by (by left); by apply Em|rewrite Hm1; [done|left; rewrite El in Hc; set_solver]].
    pose proof (proj1 (Forall_forall _ _) Hl x Hxl) as Lx.
    destruct (compare_at_live x cand st Lx Lc) as (a & b & Ha & _ & _ & _ & Hcmp). rewrite Hcmp. simpl.
    rewrite filter_app, <- (stronger_compare _ _ _ _ Hcmp).
    destruct (stronger st x cand) eqn:Es.
    + rewrite (delete_infer_Ok x (put_infers m1 st) a); [|simpl; by rewrite Hm1, Em by (done || by left)].
      eexists. split; [done|]. exists (delete x m1). rewrite filter_cons_False, filter_nil, app_nil_r by by rewrite Es.
      split; [done|]. intros q Hq. assert (q ≠ x) as Hqx.
      { intros ->. destruct Hq as [Hq|Hq]; [set_solver|]. by apply list_elem_of_filter in Hq as [_ ?]. }
      rewrite lookup_delete_ne by done. apply Hm1. set_solver.
    + eexists. split; [done|]. exists m1. rewrite filter_cons_True, filter_nil by done.
      split; [done|]. intros q Hq. apply Hm1. rewrite elem_of_app, list_elem_of_singleton in Hq.
      destruct (decide (q = x)) as [->|]; [by left|]. set_solver.
  - by exists m'.
Qed.

(** Why a candidate is dropped: it is the current inference, or as strong as another one. *)
Definition pruned_for (st : InferState) (cur : ptr) (l : list ptr) (p : ptr) : Prop :=
  entries st p = entries st cur ∨ ∃ q, q ∈ l ∧ q ≠ p ∧ stronger st p q = true.

(** The state of the outer loop after the candidates [l1] of [l]. *)
Record prune_inv (st : InferState) (cur : ptr) (l l1 : list ptr) (m : gmap ptr Inference) (kept : list ptr) : Prop := {
  pi_sub : kept `sublist_of` l1;
  pi_asc : ascending st kept;
  pi_cur : Forall (λ p, entries st p ≠ entries st cur) kept;
  pi_heap : ∀ q, q ∉ l1 ∨ q ∈ kept → m !! q = is_infers st !! q;
  pi_drop : ∀ q, q ∈ l1 → q ∈ kept ∨ pruned_for st cur l q
}.

(** A candidate replaces those that are as strong. *)
Lemma prune_push st cur l l1 x m kept m' :
  prune_inv st cur l l1 m kept → x ∉ l1 → x ∈ l → entries st x ≠ entries st cur →
  (∀ q, q ∉ kept ∨ q ∈ filter (λ q, stronger st q x = false) kept → m' !! q = m !! q) →
  prune_inv st cur l (l1 ++ [x]) m' (filter (λ q, stronger st q x = false) kept ++ [x]).
Proof.
  intros [Hsub Hasc Hcur Hm Hdrop] Hx Hxl Hne Hm'. set (k := filter _ kept) in *.
  assert (k `sublist_of` kept) as Hkk by apply sublist_filter.
  assert (∀ q, q ∈ kept → q ∈ l1) as Hk by (intros q Hq; by eapply elem_of_sublist).
  split.
  - apply sublist_app; [by etrans|done].
  - apply FOP_snoc; [by eapply FOP_sublist|]. apply Forall_forall. by intros q [? _]%list_elem_of_filter.
  - apply Forall_app. split; [|by apply Forall_singleton].
    apply Forall_forall. intros q [_ Hq]%list_elem_of_filter. by apply (proj1 (Forall_forall _ _) Hcur).
  - intros q Hq. rewrite !elem_of_app, !list_elem_of_singleton in Hq.
    assert (q ∉ kept ∨ q ∈ k) as Hqk. { destruct (decide (q = x)) as [->|]; [left|]; set_solver. }
    rewrite Hm' by done. apply Hm. destruct (decide (q = x)) as [->|]; [by left|].
    destruct Hq as [Hq|[Hq|Hq]]; [left; tauto|right; exact (elem_of_sublist _ _ _ Hq Hkk)|done].
  - intros q [Hq| ->%list_elem_of_singleton]%elem_of_app; [|left; set_solver].
    destruct (Hdrop q Hq) as [Hqk|?]; [|by right]. destruct (stronger st q x) eqn:Es.
    + right. right. exists x. split; [done|]. split; [by intros ->|done].
    + left. apply elem_of_app. left. by apply list_elem_of_filter.
Qed.

(** A candidate that is the current inference is deleted. *)
Lemma prune_delete st cur l l1 x m kept :
  prune_inv st cur l l1 m kept → x ∉ l1 → entries st x = entries st cur →
  prune_inv st cur l (l1 ++ [x]) (delete x m) kept.
Proof.
  intros [Hsub Hasc Hcur Hm Hdrop] Hx He.
  assert (∀ q, q ∈ kept → q ∈ l1) as Hk by (intros q Hq; by eapply elem_of_sublist).
  split; [by apply sublist_inserts_r|done..| |].
  - intros q Hq. rewrite lookup_delete_ne by set_solver. apply Hm. set_solver.
  - intros q [Hq| ->%list_elem_of_singleton]%elem_of_app; [by apply Hdrop|]. right. by left.
Qed.

Lemma pruneCandidates_spec cur l st :
  NoDup l → cur ∉ l → Forall (live st) l → live st cur →
  ∃ m kept, pruneCandidates cur l st = Ok (put_infers m st, kept) ∧ prune_inv st cur l l m kept.
Proof.
  intros Hnd Hc Hl Lc. unfold pruneCandidates.
  edestruct (foldM_ind (λ l1 (s : InferState * list ptr), ∃ m kept, s = (put_infers m st, kept) ∧ prune_inv st cur l l1 m kept))
    as (s' & -> & m & kept & -> & H); [| |by exists m, kept].
  - exists (is_infers st), []. split; [by destruct st|]. split; [done|constructor|done..|]. by intros q []%elem_of_nil.
  - intros l1 x l2 s El (m1 & kept & -> & Hi). pose proof Hi as [Hsub _ _ Hm1 _]. rewrite El in Hnd.
    assert (x ∉ l1) as Hx. { apply NoDup_app in Hnd as (_ & Hd & _). intros Hx. apply (Hd x Hx). by left. }
    assert (x ∈ l ∧ cur ∉ l1) as [Hxl Hc1] by (subst l; set_solver).
    assert (∀ q, q ∈ kept → q ∈ l1) as Hk by (intros q Hq; by eapply elem_of_sublist).
    pose proof (proj1 (Forall_forall _ _) Hl x Hxl) as Lx.
    rewrite compare_at_same; [|by apply Hm1; left..].
    destruct (compare_at_live x cur st Lx Lc) as (a & b & Ha & _ & _ & _ & Hcmp).
    pose proof (compare_at_zero x cur st _ Lx Lc Hcmp) as Hz. rewrite Hcmp. simpl.
    destruct (Z.eqb_spec (compareTo a b) 0) as [E|E].
    + rewrite (delete_infer_Ok x (put_infers m1 st) a) by (simpl; by rewrite Hm1 by by left).
      eexists. split; [done|]. exists (delete x m1), kept. split; [done|]. apply prune_delete; [done..|by apply Hz].
    + destruct (drop_stronger_spec x kept m1 st) as (m2 & -> & Hm2); [| |apply Forall_forall|done|by apply Hm1; left| |].
      * eapply sublist_NoDup; [|exact Hsub]. by apply NoDup_app in Hnd as (? & _).
      * set_solver.
      * intros q Hq%Hk. apply (proj1 (Forall_forall _ _) Hl). subst l. set_solver.
      * intros q Hq. apply Hm1. by right.
      * simpl. eexists. split; [done|]. eexists m2, _. split; [done|]. eapply prune_push; try done. by rewrite <- Hz.
Qed.

(** ** Adding candidates *)

(** Between two states objects keep their entries and explored flags, and leaves stay leaves. *)
Definition leaves_grow (st st' : InferState) : Prop :=
  ∀ q x, is_infers st !! q = Some x →
    ∃ x', is_infers st' !! q = Some x' ∧ i_orders x' = i_orders x ∧ i_size x' = i_size x ∧
      i_explored x' = i_explored x ∧ (i_leaf x = true → i_leaf x' = true).

#[global] Instance leaves_grow_preorder : PreOrder leaves_grow.
Proof.
  split.
  - intros st q x Hx. by exists x.
  - intros s1 s2 s3 H1 H2 q x Hx. destruct (H1 q x Hx) as (y & Hy & ? & ? & ? & ?).
    destruct (H2 q y Hy) as (z & Hz & ? & ? & ? & ?). exists z. split_and!; [done|congruence..|auto].
Qed.

Lemma leaves_grow_insert p x x' st :
  is_infers st !! p = Some x → i_orders x' = i_orders x → i_size x' = i_size x → i_explored x' = i_explored x →
  (i_leaf x = true → i_leaf x' = true) → ∀ m, m = <[p := x']> (is_infers st) → leaves_grow st (put_infers m st).
Proof.
  intros Hx E1 E2 E3 E4 m -> q y Hy. simpl. destruct (decide (q = p)) as [->|Hne].
  - rewrite lookup_insert_eq. assert (y = x) as -> by congruence. by exists x'.
  - rewrite lookup_insert_ne by done. by exists y.
Qed.

Lemma compareTo_entries a b a' b' :
  i_orders a' = i_orders a → i_size a' = i_size a → i_orders b' = i_orders b → i_size b' = i_size b →
  compareTo a' b' = compareTo a b.
Proof. unfold compareTo. by intros -> -> -> ->. Qed.

Lemma covers_grow st st' q p : leaves_grow st st' → covers st q p → covers st' q p.
Proof.
  intros Hg (x & y & Hx & Hy & Hc). destruct (Hg q x Hx) as (x' & Hx' & Ex1 & Ex2 & Ex3 & Ex4).
  destruct (Hg p y Hy) as (y' & Hy' & Ey1 & Ey2 & _). exists x', y'. split_and!; [done..|].
  rewrite (compareTo_entries x y), Ex1, Ey1, Ex3 by done. naive_solver.
Qed.

(** The state of the loop of [addCandidates] after the candidates [l1]. *)
Record add_inv (d : Prop) (init : ptr) (cur : ptr) (st0 : InferState) (l1 : list ptr) (st : InferState) (b : bool) (added : list ptr) : Prop := {
  ai_wf : wf_set d st;
  ai_same : same_entries st0 st;
  ai_grow : leaves_grow st0 st;
  ai_sub : added `sublist_of` l1;
  ai_flag : b = true ↔ added ≠ [];
  ai_disc : is_discoveredSet st = is_discoveredSet st0 ++ added;
  ai_cand : is_candidates st = is_candidates st0 ++ added;
  ai_res : is_results st = is_results st0;
  ai_cur : is_infers st !! cur = is_infers st0 !! cur;
  ai_new : Forall (λ p, ∃ x, is_infers st !! p = Some x ∧ i_leaf x = true ∧ i_initialInfer x = init) added;
  ai_rest : ∀ p, p ∈ l1 → p ∈ added ∨ ∃ q, q ∈ is_discoveredSet st ∧ covers st q p
}.

Lemma add_step {d : Prop} init cur st0 l1 st b added p c :
  add_inv d init cur st0 l1 st b added → live st0 p → p ∉ l1 → p ≠ cur →
  is_infers st !! cur = Some c → i_initialInfer c = init →
  ∃ st' b' added', (c ← infer_at cur st;
      st ← upd_infer p (setInitialInfer (i_initialInfer c)) st;
      '(st, tmpAdded) ← addInference p st;
      Ok (st, b || tmpAdded)) = Ok (st', b') ∧ add_inv d init cur st0 (l1 ++ [p]) st' b' added'.
Proof.
  intros [Hwf Hsame Hgrow Hsub Hflag Hdisc Hcand Hres Hcur Hnew Hrest] Lp Hp Hpc Hc Hinit.
  unfold infer_at at 1. rewrite Hc. simpl. rewrite Hinit.
  destruct (upd_infer_spec p (setInitialInfer init) st) as (x & Hx & -> & Hs); [by apply Hsame|done|].
  simpl. set (st1 := put_infers _ st) in *.
  assert (leaves_grow st st1) as Hg1 by by apply (leaves_grow_insert p x (setInitialInfer init x)).
  assert (wf_set d st1) as W1.
  { eapply wf_set_transport; [done..|]. eapply Forall_impl; [apply (ws_candidates _ _ Hwf)|]. intros q Hq. by apply Hs. }
  destruct (addInference_spec p st1 W1) as (st2 & t & -> & W2 & S2 & Ht & R2 & D2 & C2 & H2); [by apply Hs, Hsame|]. simpl.
  assert (is_infers st1 !! p = Some (setInitialInfer init x)) as Hp1 by apply lookup_insert_eq.
  assert (leaves_grow st1 st2) as Hg2.
  { intros q y Hy. rewrite H2. destruct (t && bool_decide (q = p)) eqn:Et; [|by exists y].
    apply andb_true_iff in Et as [_ ->%bool_decide_eq_true]. exists (setLeaf true y). by rewrite Hy. }
  assert (∀ q, q ≠ p → is_infers st2 !! q = is_infers st !! q) as Hother.
  { intros q Hq. rewrite H2. rewrite bool_decide_false, andb_false_r by done. by apply lookup_insert_ne. }
  assert (∀ q, q ∈ added → q ∈ l1) as Hk by (intros q Hq; by eapply elem_of_sublist).
  exists st2, (b || t), (added ++ if t then [p] else []). split; [done|]. split; try done.
  - etrans; [|exact S2]. by etrans.
  - etrans; [|exact Hg2]. by etrans.
  - apply sublist_app; [done|]. by destruct t; [|apply sublist_nil_l].
  - rewrite orb_true_iff, Hflag. destruct t; [|rewrite app_nil_r; naive_solver]. split; [by destruct added|by right].
  - rewrite D2. simpl. by rewrite Hdisc, assoc by apply _.
  - rewrite C2. simpl. by rewrite Hcand, assoc by apply _.
  - by rewrite R2.
  - by rewrite Hother.
  - apply Forall_app. split.
    + apply Forall_forall. intros q Hq. destruct (proj1 (Forall_forall _ _) Hnew q Hq) as (y & Hy & ?). exists y. rewrite Hother; [done|]. intros ->. by apply Hp, Hk.
    + destruct t; [|done]. apply Forall_singleton. exists (setLeaf true (setInitialInfer init x)).
      rewrite H2, bool_decide_true by done. cbn [andb]. by rewrite Hp1.
  - intros q [Hq| ->%list_elem_of_singleton]%elem_of_app.
    + destruct (Hrest q Hq) as [?|(r & Hr & Hcov)]; [left; set_solver|]. right. exists r. rewrite D2. split; [set_solver|].
      eapply covers_grow, Hcov. by etrans.
    + destruct t; [left; set_solver|]. right. destruct (proj1 Ht eq_refl) as (r & Hr & Hcov).
      exists r. rewrite D2. split; [set_solver|]. by eapply covers_grow.
Qed.

(** Pruning leaves the rest of the set alone. *)
Lemma prune_same {d : Prop} st cur l m kept :
  prune_inv st cur l l m kept → (∀ p, p ∈ l → p ∉ is_discoveredSet st ++ is_results st ++ is_candidates st) →
  wf_set d st → wf_set d (put_infers m st) ∧ (∀ p, p ∉ l ∨ p ∈ kept → live st p → live (put_infers m st) p ∧
    entries (put_infers m st) p = entries st p).
Proof.
  intros [_ _ _ Hm _] Hd [W1 W2 W3 W4].
  assert (∀ p, p ∉ l ∨ p ∈ kept → live st p → live (put_infers m st) p ∧ entries (put_infers m st) p = entries st p) as Hs.
  { intros p Hp (x & Hx & Wx). unfold live, entries. simpl. rewrite Hm by done. split; [by exists x|done]. }
  split; [|done].
  assert (∀ l', (∀ p, p ∈ l' → p ∉ l) → Forall (live st) l' → Forall (live (put_infers m st)) l') as Hf.
  { intros l' Hl' HF. apply Forall_forall. intros p Hp. apply Hs; [left; by apply Hl'|by apply (proj1 (Forall_forall _ _) HF)]. }
  split; simpl.
  - apply Hf; [|done]. intros p Hp Hpl. apply (Hd p Hpl). set_solver.
  - apply Hf; [|done]. intros p Hp Hpl. apply (Hd p Hpl). set_solver.
  - apply Hf; [|done]. intros p Hp Hpl. apply (Hd p Hpl). set_solver.
  - intros Hdist. erewrite list_fmap_ext; [exact (W4 Hdist)|]. intros i p Hp. apply Hs.
    + left. intros Hpl. apply (Hd p Hpl). apply list_elem_of_lookup_2 in Hp. set_solver.
    + exact (Forall_lookup_1 _ _ _ _ W1 Hp).
Qed.

Lemma addCurInference_spec {d : Prop} cur c st :
  wf_set d st → live st cur → is_infers st !! cur = Some c →
  let st' := put_candidates (is_candidates st ++ [cur]) (put_infers (<[cur := setLeaf false c]> (is_infers st)) st) in
  addCurInference cur st = Ok st' ∧ wf_set d st' ∧ same_entries st st'.
Proof.
  intros W L Hc st'. unfold addCurInference.
  destruct (upd_infer_spec cur (setLeaf false) st L) as (x & Hx & -> & S); [done|]. assert (x = c) as -> by congruence.
  assert (same_entries st st') as S' by done. split; [done|]. split; [|done].
  eapply wf_set_transport; [done..|]. simpl. apply Forall_app. split; [|apply Forall_singleton; by apply S'].
  eapply Forall_impl; [apply (ws_candidates _ _ W)|]. intros q Hq. by apply S'.
Qed.

(** C29. Adding the fixes found for the current inference: the current inference becomes an
    inner node and goes back to the candidates, followed by those of its fixes that are
    new, which are marked as leaves and inherit its initial inference. If the discovered
    inferences are pairwise different they stay so, and no fix is lost: one that is not
    added is the current inference, as strong as another fix, or covered by a discovered
    inference. *)
Theorem addCandidates_correct {d : Prop} cur c l st :
  wf_set d st → is_infers st !! cur = Some c → wf_Inference c → NoDup l → cur ∉ l → Forall (live st) l →
  (∀ p, p ∈ l → p ∉ is_discoveredSet st ++ is_results st ++ is_candidates st) →
  ∃ st' b added, addCandidates cur (Some l) st = Ok (st', b) ∧ wf_set d st' ∧ added `sublist_of` l ∧
    ascending st added ∧ (b = true ↔ added ≠ []) ∧
    is_discoveredSet st' = is_discoveredSet st ++ added ∧ is_candidates st' = is_candidates st ++ cur :: added ∧
    is_results st' = is_results st ∧ is_infers st' !! cur = Some (setLeaf false c) ∧
    Forall (λ p, entries st p ≠ entries st cur) added ∧
    Forall (λ p, ∃ x, is_infers st' !! p = Some x ∧ i_leaf x = true ∧ i_initialInfer x = i_initialInfer c) added ∧
    (∀ p, p ∈ l → p ∈ added ∨ pruned_for st cur l p ∨ ∃ q, q ∈ is_discoveredSet st' ∧ covers st' q p).
Proof.
  intros W Hc Wc Hnd Hcur Hl Hd. assert (live st cur) as Lc by by exists c. unfold addCandidates.
  destruct (pruneCandidates_spec cur l st Hnd Hcur Hl Lc) as (m & kept & -> & Hp). simpl.
  destruct (prune_same _ _ _ _ _ Hp Hd W) as [W1 S1]. destruct Hp as [Psub Pasc Pcur Pheap Pdrop].
  destruct (addCurInference_spec cur c (put_infers m st) W1) as (-> & W2 & S2).
  { by apply S1; [left|]. } { simpl. rewrite Pheap by by left. done. }
  cbn [mbind result_bind]. set (st2 := put_candidates _ _) in *.
  assert (is_infers st2 !! cur = Some (setLeaf false c)) as Hc2 by apply lookup_insert_eq.
  assert (NoDup kept) as Hk by by eapply sublist_NoDup.
  assert (∀ p, p ∈ kept → live st2 p ∧ p ≠ cur) as Hkl.
  { intros p Hp. assert (p ∈ l) as Hpl by by eapply elem_of_sublist. split; [|by intros ->].
    apply S2, S1; [by right|]. by apply (proj1 (Forall_forall _ _) Hl). }
  edestruct (foldM_ind (λ l1 (s : InferState * bool), ∃ added, add_inv d (i_initialInfer c) cur st2 l1 s.1 s.2 added))
    as ([st' b] & Hf & added & [A1 A2 A3 A4 A5 A6 A7 A8 A9 A10 A11]); [| |exists st', b, added; split; [exact Hf|]].
  - exists []. split; simpl; try done; [by rewrite app_nil_r..|by intros p []%elem_of_nil].
  - intros l1 p l2 [s b] El (added & Hi). simpl in Hi. pose proof (ai_cur _ _ _ _ _ _ _ _ Hi) as E. rewrite Hc2 in E.
    destruct (Hkl p) as [Lp Hpc]; [rewrite El; set_solver|].
    destruct (add_step _ _ _ _ _ _ _ p (setLeaf false c) Hi Lp) as (s' & b' & added' & Hs & Hi'); [|done|exact E|done|].
    { rewrite El in Hk. apply NoDup_app in Hk as (_ & Hk & _). intros Hpl. apply (Hk p Hpl). by left. }
    exists (s', b'). split; [exact Hs|by exists added'].
  - simpl in *. split_and!; try done.
    + by etrans.
    + by eapply FOP_sublist.
    + rewrite A7. simpl. by rewrite <- app_assoc.
    + by rewrite A9.
    + apply Forall_forall. intros p Hp. apply (proj1 (Forall_forall _ _) Pcur). by eapply elem_of_sublist.
    + intros p Hp. destruct (Pdrop p Hp) as [Hpk|?]; [|by right; left]. destruct (A11 p Hpk); tauto.
Qed.

(** Two stronger variants of an all-relaxed inference; the second makes the first superfluous. *)
Definition sample_infer (mo : memory_order) : Inference :=
  set_orders [WILDCARD_NONEXIST; memory_order_relaxed; mo; memory_order_relaxed; memory_order_relaxed] 4 (new_Inference 1).
Definition sample_set : InferState :=
  mkInferState {[ 1%positive := sample_infer memory_order_relaxed; 2%positive := sample_infer memory_order_acq_rel;
                  3%positive := sample_infer memory_order_acquire ]} 4 [1%positive] [] [] 0.

Lemma sample_infer_wf mo : is_entry mo = true → wf_Inference (sample_infer mo).
Proof. intros H. split; [done|simpl; unfold MAX_WILDCARD_NUM; lia|]. simpl. rewrite !Forall_cons. done. Qed.

Lemma sample_set_live p mo : is_infers sample_set !! p = Some (sample_infer mo) → is_entry mo = true → live sample_set p.
Proof. intros H1 H2. exists (sample_infer mo). split; [done|by apply sample_infer_wf]. Qed.

Lemma sample_set_wf : wf_set True sample_set.
Proof.
  split; simpl; [|constructor..|].
  - apply Forall_singleton. by apply (sample_set_live _ memory_order_relaxed).
  - intros _. apply NoDup_singleton.
Qed.

Lemma addCandidates_correct_witness :
  ∃ st', addCandidates 1 (Some [2; 3]%positive) sample_set = Ok (st', true) ∧ wf_set True st' ∧
    is_discoveredSet st' = [1; 3]%positive ∧ is_candidates st' = [1; 3]%positive ∧ is_infers st' !! 2%positive = None.
Proof.
  destruct (addCandidates_correct (d := True) 1 (sample_infer memory_order_relaxed) [2; 3]%positive sample_set)
    as (st' & b & added & E & W & _).
  - apply sample_set_wf.
  - reflexivity.
  - by apply sample_infer_wf.
  - by apply (bool_decide_unpack _).
  - by apply (bool_decide_unpack _).
  - repeat apply Forall_cons_2; [| |by apply Forall_nil].
    + by apply (sample_set_live _ memory_order_acq_rel).
    + by apply (sample_set_live _ memory_order_acquire).
  - intros p Hp. by rewrite !elem_of_cons in Hp; destruct Hp as [->|[->|[]%elem_of_nil]]; apply (bool_decide_unpack _).
  - exists st'. pose proof E as E'. vm_compute in E'. injection E' as <- <-. split; [exact E|]. split; [exact W|]. done.
Defined.

(** ** Choosing the next inference *)

Lemma upd_infer_Ok p f st x :
  is_infers st !! p = Some x → upd_infer p f st = Ok (put_infers (<[p := f x]> (is_infers st)) st).
Proof. intros H. unfold upd_infer, infer_at. by rewrite H. Qed.

(** The flags after the inner nodes of [l] were committed. *)
Definition committed (l : list ptr) (q : ptr) (x : Inference) : Inference :=
  if bool_decide (q ∈ l) && negb (i_leaf x) then setExplored true x else x.

Lemma committed_app l1 l2 q x : committed l1 q (committed l2 q x) = committed (l1 ++ l2) q x.
Proof.
  unfold committed. repeat case_bool_decide; destruct (i_leaf x) eqn:E; simpl; rewrite ?E; simpl; try done; set_solver.
Qed.

Lemma committed_leaf l q x : i_leaf (committed l q x) = i_leaf x.
Proof. unfold committed. by destruct (_ && _). Qed.
Lemma committed_orders l q x : i_orders (committed l q x) = i_orders x.
Proof. unfold committed. by destruct (_ && _). Qed.
Lemma committed_size l q x : i_size (committed l q x) = i_size x.
Proof. unfold committed. by destruct (_ && _). Qed.
Lemma committed_shouldFix l q x : i_shouldFix (committed l q x) = i_shouldFix x.
Proof. unfold committed. by destruct (_ && _). Qed.
Lemma committed_explored l q x : i_explored x = true → i_explored (committed l q x) = true.
Proof. unfold committed. by destruct (_ && _). Qed.

(** [st'] is [st] with the inner nodes of [l] committed. *)
Definition commits (l : list ptr) (st st' : InferState) : Prop :=
  (∀ q, is_infers st' !! q = committed l q <$> is_infers st !! q) ∧
  is_discoveredSet st' = is_discoveredSet st ∧ is_results st' = is_results st.

Lemma explored_below_commits l st st' d q : commits l st st' → explored_below st d q → explored_below st' d q.
Proof.
  intros (H & _) (x & y & Hx & Hy & Ex & Hc). exists (committed l d x), (committed l q y).
  rewrite !H, Hx, Hy, !committed_orders. split_and!; [done..|by apply committed_explored|].
  by rewrite (compareTo_entries x y) by by rewrite ?committed_orders, ?committed_size.
Qed.

Lemma commits_same l st st' : commits l st st' → same_entries st st'.
Proof.
  intros (H & _) q (x & Hx & [W1 W2 W3]). unfold live, entries. rewrite H, Hx. simpl.
  rewrite committed_orders. split; [|done]. exists (committed l q x). split; [done|].
  split; rewrite ?committed_orders, ?committed_size; done.
Qed.

(** Why a candidate is passed over: it is an inner node, or something explored is below it. *)
Definition passed_over (st st' : InferState) (q : ptr) : Prop :=
  ∃ x, is_infers st !! q = Some x ∧
    (i_leaf x = false ∨ i_shouldFix x = true ∧ ∃ d, d ∈ is_discoveredSet st' ∧ explored_below st' d q).
(** A candidate worth checking. *)
Definition eligible (st st' : InferState) (p : ptr) : Prop :=
  ∃ x, is_infers st !! p = Some x ∧ i_leaf x = true ∧
    (i_shouldFix x = true → ¬ ∃ d, d ∈ is_discoveredSet st' ∧ explored_below st' d p).

Record next_spec (d : Prop) (st st' : InferState) (r : option ptr) (skipped : list ptr) : Prop := {
  nx_wf : wf_set d st';
  nx_commits : commits skipped st st';
  nx_cands : is_candidates st = is_candidates st' ++ option_list r ++ skipped;
  nx_none : r = None → is_candidates st' = [];
  nx_skipped : Forall (passed_over st st') skipped;
  nx_chosen : ∀ p, r = Some p → eligible st st' p
}.

(** Taking one candidate off the back. *)
Lemma wf_set_pop {d : Prop} st l p : wf_set d st → is_candidates st = l ++ [p] → wf_set d (put_candidates l st) ∧ live st p.
Proof.
  intros [H1 H2 H3 H4] E. rewrite E in H3. apply Forall_app in H3 as [H3 [H5 _]%Forall_cons]. split; [by split|done].
Qed.

(** The rest of the search after a candidate was passed over. *)
Lemma next_spec_cons {d : Prop} st st1 st' r skipped p l :
  wf_set d st → is_candidates st = l ++ [p] → is_candidates st1 = l → commits [p] st st1 →
  next_spec d st1 st' r skipped → passed_over st st' p → next_spec d st st' r (skipped ++ [p]).
Proof.
  intros W Hl Hl1 (Hc & Hd & Hr) [W' (Nc & Nd & Nr) Ncand Nnone Nskip Nch] Hp. split.
  - done.
  - split_and!; [|congruence..]. intros q. rewrite Nc, Hc. destruct (is_infers st !! q) as [x|]; [|done]. simpl.
    by rewrite committed_app.
  - rewrite Hl, <- Hl1, Ncand. by rewrite <- !app_assoc.
  - done.
  - apply Forall_app. split; [|by apply Forall_singleton]. eapply Forall_impl; [exact Nskip|].
    intros q (x & Hx & Hq). rewrite Hc in Hx. destruct (is_infers st !! q) as [y|] eqn:Ey; [|done].
    injection Hx as <-. rewrite committed_leaf, committed_shouldFix in Hq. by exists y.
  - intros q Hq. destruct (Nch q Hq) as (x & Hx & Hle). rewrite Hc in Hx. destruct (is_infers st !! q) as [y|] eqn:Ey; [|done].
    injection Hx as <-. rewrite committed_leaf, committed_shouldFix in Hle. by exists y.
Qed.

(** Passing over a leaf changes nothing; committing an inner node sets its flag. *)
Lemma commits_leaf p x st l :
  is_infers st !! p = Some x → i_leaf x = true → commits [p] st (put_candidates l st).
Proof.
  intros Hx Elf. split_and!; try done. intros q. simpl. unfold committed.
  destruct (is_infers st !! q) as [y|] eqn:Ey; [|done]. simpl. case_bool_decide as Hq; [|done].
  apply list_elem_of_singleton in Hq as ->. assert (y = x) as -> by congruence. by rewrite Elf.
Qed.

Lemma commits_inner p x st l :
  is_infers st !! p = Some x → i_leaf x = false →
  commits [p] st (put_infers (<[p := setExplored true x]> (is_infers st)) (put_candidates l st)).
Proof.
  intros Hx Elf. split_and!; try done. intros q. unfold committed. simpl. destruct (decide (q = p)) as [->|Hne].
  - rewrite lookup_insert_eq, Hx, bool_decide_true by set_solver. simpl. by rewrite Elf.
  - rewrite lookup_insert_ne by done. destruct (is_infers st !! q) as [y|]; [|done]. simpl.
    by rewrite bool_decide_false by set_solver.
Qed.

(** The test on a leaf. *)
Lemma explored_test {d : Prop} p x st :
  wf_set d st → live st p →
  ∃ e, (if i_shouldFix x then hasBeenExplored p st else Ok false) = Ok e ∧
    (e = true ↔ i_shouldFix x = true ∧ ∃ d, d ∈ is_discoveredSet st ∧ explored_below st d p).
Proof.
  intros W Lp. destruct (i_shouldFix x); [|exists false; naive_solver].
  destruct (hasBeenExplored_spec p st W Lp) as (e & -> & He). exists e. split; [done|]. tauto.
Qed.

Lemma next_inference_spec {d : Prop} l st :
  wf_set d st → is_candidates st = rev l → ∃ st' r skipped, next_inference l st = Ok (st', r) ∧ next_spec d st st' r skipped.
Proof.
  revert st. induction l as [|p l IH]; intros st W Hl.
  - exists st, None, []. split; [done|]. split; try done; [|by rewrite app_nil_r].
    split_and!; try done. intros q. by destruct (is_infers st !! q).
  - simpl in *. destruct (wf_set_pop st (rev l) p W Hl) as [W0 Lp]. pose proof Lp as (x & Hx & Wx).
    set (st0 := put_candidates (rev l) st) in *.
    unfold infer_at. simpl. rewrite Hx. simpl. destruct (i_leaf x) eqn:Elf; simpl.
    + destruct (explored_test p x st0 W0 Lp) as (e & -> & He). simpl. destruct e.
      * destruct (IH st0 W0 eq_refl) as (st' & r & sk & E & Hn). exists st', r, (sk ++ [p]). split; [exact E|].
        destruct (proj1 He eq_refl) as [Hsf (e & Hd & Hb)]. pose proof (nx_commits _ _ _ _ _ Hn) as Hcm.
        eapply (next_spec_cons st st0); try done; [by eapply commits_leaf|].
        exists x. split; [done|]. right. split; [done|]. exists e. split; [|by eapply explored_below_commits].
        by rewrite (proj1 (proj2 Hcm)).
      * exists st0, (Some p), []. split; [done|]. split; try done.
        { split_and!; try done. intros q. simpl. by destruct (is_infers st !! q). }
        intros q [= <-]. exists x. split_and!; [done..|]. intros Hsf Hex. enough (false = true) by done. by apply He.
    + unfold commitInference. rewrite (upd_infer_Ok p (setExplored true) st0 x Hx). simpl.
      pose proof (commits_inner p x st (rev l) Hx Elf) as C1. fold st0 in C1.
      change (is_infers st) with (is_infers st0) in C1. set (st1 := put_infers _ st0) in *.
      assert (wf_set d st1) as W1.
      { eapply (wf_set_transport st0); [done|by apply (commits_same [p] st st1)|done..|].
        eapply Forall_impl; [apply (ws_candidates _ _ W0)|]. intros q Hq. by apply (commits_same [p] st st1). }
      destruct (IH st1 W1 eq_refl) as (st' & r & sk & E & Hn). exists st', r, (sk ++ [p]). split; [exact E|].
      eapply (next_spec_cons st st1); try done. exists x. split; [done|by left].
Qed.

(** Choosing the next inference to check always terminates without fault. It takes the
    last candidate that is a leaf and has nothing explored that is the same or weaker
    (which does not matter for inferences that are not to be fixed), and leaves those
    before it. Of the candidates after it, the inner nodes are committed as explored, and
    every leaf is passed over because something explored is below it. It returns none
    only when all candidates are used up. *)
Theorem getNextInference_correct {d : Prop} st :
  wf_set d st → ∃ st' r skipped, getNextInference st = Ok (st', r) ∧ next_spec d st st' r skipped.
Proof. intros W. apply next_inference_spec; [done|]. by rewrite rev_involutive. Qed.

(** The all-relaxed inference as an inner node, with the acquire variant waiting. *)
Definition sample_search : InferState :=
  put_candidates [1; 3]%positive (put_infers
    (<[3%positive := setLeaf true (sample_infer memory_order_acquire)]> (is_infers sample_set)) sample_set).

Lemma getNextInference_correct_witness :
  ∃ st' skipped, getNextInference sample_search = Ok (st', Some 3%positive) ∧ is_candidates st' = [1%positive] ∧
    next_spec True sample_search st' (Some 3%positive) skipped.
Proof.
  destruct (getNextInference_correct (d := True) sample_search) as (st' & r & skipped & E & H).
  - split.
    + apply Forall_singleton. exists (sample_infer memory_order_relaxed). split; [reflexivity|by apply sample_infer_wf].
    + constructor.
    + repeat apply Forall_cons_2; [| |by apply Forall_nil].
      * exists (sample_infer memory_order_relaxed). split; [reflexivity|by apply sample_infer_wf].
      * exists (setLeaf true (sample_infer memory_order_acquire)). split; [reflexivity|].
        destruct (sample_infer_wf memory_order_acquire eq_refl) as [W1 W2 W3]. by split.
    + intros _. apply NoDup_singleton.
  - pose proof E as E'. vm_compute in E'. injection E' as <- <-. eexists _, skipped. split; [exact E|]. split; [done|exact H].
Defined.
