(* ===== verification/FencePaths.v ===== *)
(** * Paths and races in a trace (scfence/scfence.cc)

    To make one action happen before another, the fence inference looks for the paths
    of reads-from and sequenced-before edges between them: synchronization along any of
    them establishes the order. This file models that search and the plugin's search for
    data races, on the trace split by threads that the SC generator leaves behind. *)

From S2P Require Import Prelude ClockVector Action HashTable Promise CycleGraph NodeStack Schedule DataRace ExecState ModOrder Step Evolution Scenarios Librace Interface Model Litmus SCAnalysis Inference.

Section paths.
(** The execution and its trace by threads ([dup_threadlists]). *)
Context (s : Exec) (dup : list (list ptr)).

(** ** The search for paths *)

(** The loop that collects the reads of a thread up to the sequence number [n]. *)
Fixpoint reads_upto (n : N) (l : list ptr) : result (list ptr) :=
  match l with
  | [] => Ok []
  | act :: l =>
      a ← act_of s act;
      if (n <? a_seq_number a)%N then Ok []
      else rest ← reads_upto n l; Ok (if is_read a then act :: rest else rest)
  end.

(** The search for a read of the path that the write comes after in its own thread. *)
Fixpoint has_loop (w : ModelAction) (path : list ptr) : result bool :=
  match path with
  | [] => Ok false
  | addedRead :: path =>
      a ← act_of s addedRead;
      if bool_decide (id_to_int (a_tid w) = id_to_int (a_tid a)) && (a_seq_number a <=? a_seq_number w)%N
      then Ok true else has_loop w path
  end.

(** What becomes of the path on the top of the stack. *)
Inductive path_outcome := Dropped | Found | Extended (paths : list (list ptr)).
#[global] Instance path_outcome_eq_dec : EqDecision path_outcome.
Proof. solve_decision. Defined.

Definition path_step (idx1 : nat) (seq1 : N) (path : list ptr) : result path_outcome :=
  read ← at_index path 0;
  r ← act_of s read;
  write ← deref (a_reads_from r);
  w ← act_of s write;
  if (a_seq_number w =? 0)%N then Ok Dropped
  else
    loop ← has_loop w path;
    if (loop : bool) then Ok Dropped
    else if bool_decide (id_to_int (a_tid w) = idx1) && (seq1 <=? a_seq_number w)%N then Ok Found
    else
      list ← at_index dup (id_to_int (a_tid w));
      reads ← reads_upto (a_seq_number w) list;
      Ok (Extended (map (λ act, act :: path) reads)).

(** The loop over the stack, whose top is the head of the list; a path is a list of
    reads, the first one first. *)
Fixpoint rf_sb_loop (fuel : nat) (idx1 : nat) (seq1 : N) (stack paths : list (list ptr)) : result (list (list ptr)) :=
  match stack with
  | [] => Ok paths
  | path :: stack =>
      match fuel with
      | O => Err OutOfFuel
      | S fuel =>
          o ← path_step idx1 seq1 path;
          match o with
          | Dropped => rf_sb_loop fuel idx1 seq1 stack paths
          | Found => rf_sb_loop fuel idx1 seq1 stack (paths ++ [path])
          | Extended l => rf_sb_loop fuel idx1 seq1 (rev l ++ stack) paths
          end
      end
  end.

Definition get_rf_sb_paths (fuel : nat) (act1 act2 : ptr) : result (list (list ptr)) :=
  a1 ← act_of s act1;
  a2 ← act_of s act2;
  list1 ← at_index dup (id_to_int (a_tid a1));
  list2 ← at_index dup (id_to_int (a_tid a2));
  if bool_decide (list1 = []) || bool_decide (list2 = []) then Ok []
  else
    reads ← reads_upto (a_seq_number a2) list2;
    rf_sb_loop fuel (id_to_int (a_tid a1)) (a_seq_number a1) (rev (map (λ act, [act]) reads)) [].

(** Whether each read of a path but the first reads from the read before it, which is
    then a read-modify-write. *)
Fixpoint isReleaseSequence (path : list ptr) : result bool :=
  match path with
  | [] | [_] => Ok true
  | next_read :: (read :: _) as l =>
      rest ← isReleaseSequence l;
      if (rest : bool) then r ← act_of s read; Ok (bool_decide (a_reads_from r = Some next_read)) else Ok false
  end.

(** ** Data races *)

(** One list of the accesses collected so far: the access goes to the list of its location. *)
Definition add_to_list (act : ptr) (a : ModelAction) (list : list ptr) (st : Datatypes.list (Datatypes.list ptr) * bool)
    : result (Datatypes.list (Datatypes.list ptr) * bool) :=
  let '(opList, foundIt) := st in
  listAct ← at_index list 0;
  la ← act_of s listAct;
  if (a_location la =? a_location a)%N then Ok (opList ++ [list ++ [act]], true) else Ok (opList ++ [list], foundIt).

(** One round of the loop that collects the plain accesses by location. *)
Definition collect_op (act : ptr) (opList : list (list ptr)) : result (list (list ptr)) :=
  a ← act_of s act;
  if bool_decide (a_original_order a ≠ memory_order_normal) then Ok opList
  else
    '(opList, foundIt) ← foldM (add_to_list act a) opList ([], false);
    Ok (if (foundIt : bool) then opList else opList ++ [[act]]).

Definition unordered (p q : ptr) : result bool :=
  a ← act_of s p;
  b ← act_of s q;
  h ← happens_before a b;
  if (h : bool) then Ok false else h ← happens_before b a; Ok (negb h).

(** The first pair of a list that is not ordered by happens-before. *)
Fixpoint race_in (list : list ptr) : result (option (ptr * ptr)) :=
  match list with
  | [] => Ok None
  | raceAct1 :: list =>
      r ← until (λ raceAct2, u ← unordered raceAct1 raceAct2; Ok (if (u : bool) then Some (raceAct1, raceAct2) else None)) list;
      match r with Some x => Ok (Some x) | None => race_in list end
  end.

(** [checkDataRace]: the two accesses it stores through its arguments, or none. *)
Definition checkDataRace (list : list ptr) : result (option (ptr * ptr)) :=
  opList ← foldM collect_op list [];
  if bool_decide (opList = []) then Ok None else until race_in opList.

(** ** Neighbours in the program order *)

(** [std::find]; the length of the list stands for [end()]. *)
Definition find_index (p : ptr) (l : list ptr) : nat :=
  match list_find (λ q, q = p) l with Some (i, _) => i | None => length l end.

Definition sbPrevAction (act : ptr) : result ptr :=
  a ← act_of s act;
  list ← at_index dup (id_to_int (a_tid a));
  match find_index act list with O => Err OutOfBounds | S i => at_index list i end.
Definition sbNextAction (act : ptr) : result ptr :=
  a ← act_of s act;
  list ← at_index dup (id_to_int (a_tid a));
  at_index list (S (find_index act list)).
End paths.

(** ** The paths that are meant *)

Section spec.
Context (s : Exec) (dup : list (list ptr)).

(** The action that a read reads from. *)
Definition write_of (p : ptr) : option ModelAction := r ← x_acts s !! p; w ← a_reads_from r; x_acts s !! w.

(** A read of the trace that is not after [w] in the program order. *)
Definition read_before (p : ptr) (w : ModelAction) : Prop :=
  ∃ l a, dup !! a_tid w = Some l ∧ p ∈ l ∧ x_acts s !! p = Some a ∧ is_read a = true ∧ (a_seq_number a <= a_seq_number w)%N.
(** A write that is not before [a1] in the program order. *)
Definition from_start (a1 w : ModelAction) : Prop := a_tid w = a_tid a1 ∧ (a_seq_number a1 <= a_seq_number w)%N.
(** [w] is before all reads of its thread in [path]. *)
Definition acyclic (w : ModelAction) (path : list ptr) : Prop :=
  ∀ r a, r ∈ path → x_acts s !! r = Some a → a_tid a = a_tid w → (a_seq_number w < a_seq_number a)%N.

(** A path from [a1] to [a2]: its last read is not after [a2]; each of its reads reads
    from an initialized write, which the read before it in the path is not after; the
    write of the first read is the only one that belongs to the thread of [a1] and is not
    before it; and no write is after a read that follows it in the path. *)
Record rf_sb_path (a1 a2 : ModelAction) (path : list ptr) : Prop := {
  rp_last : ∃ r, last path = Some r ∧ read_before r a2;
  rp_write : ∀ i r, path !! i = Some r → ∃ w, write_of r = Some w ∧ a_seq_number w ≠ 0%N ∧
    acyclic w (drop i path) ∧ (from_start a1 w ↔ i = 0);
  rp_link : ∀ i p r w, path !! i = Some p → path !! S i = Some r → write_of r = Some w → read_before p w
}.

(** Traces for which the search is meant: the lists hold the actions of their threads in
    order of sequence numbers, and reads read from actions of the trace. *)
Record wf_lists : Prop := {
  wl_act : ∀ t l p, dup !! t = Some l → p ∈ l → ∃ a, x_acts s !! p = Some a ∧ a_tid a = t ∧
    (is_read a = true → ∃ w, write_of p = Some w ∧ (a_seq_number w ≠ 0%N → a_tid w < length dup));
  wl_sorted : ∀ t l i j p q a b, dup !! t = Some l → l !! i = Some p → l !! j = Some q → x_acts s !! p = Some a →
    x_acts s !! q = Some b → i < j → (a_seq_number a <= a_seq_number b)%N ∧ (is_read a = true → is_read b = true → a_seq_number a ≠ a_seq_number b)
}.

Context (a1 a2 : ModelAction).

(** The paths on the stack, which have yet to reach [a1]. *)
Inductive partial : list ptr → Prop :=
  | partial_last p : read_before p a2 → partial [p]
  | partial_cons p r path w :
      partial (r :: path) → write_of r = Some w → a_seq_number w ≠ 0%N → acyclic w (r :: path) → ¬ from_start a1 w →
      read_before p w → partial (p :: r :: path).

(** The first read of a path reads from a write that completes it. *)
Definition completed (path : list ptr) : Prop :=
  ∃ p l w, path = p :: l ∧ write_of p = Some w ∧ a_seq_number w ≠ 0%N ∧ acyclic w path ∧ from_start a1 w.

Lemma rf_sb_path_partial path : rf_sb_path a1 a2 path ↔ partial path ∧ completed path.
Proof.
  split.
  - intros [Hl Hw Hk]. destruct path as [|p path]; [by destruct Hl as (r & ? & _)|]. split.
    + assert (∀ i r, (p :: path) !! S i = Some r → ∃ w, write_of r = Some w ∧ a_seq_number w ≠ 0%N ∧
        acyclic w (drop (S i) (p :: path)) ∧ ¬ from_start a1 w) as Hw'.
      { intros i r Hr. destruct (Hw _ _ Hr) as (w & ? & ? & ? & Hs). exists w. split_and!; [done..|]. by intros ?%Hs. }
      clear Hw. revert p Hl Hw' Hk. induction path as [|r path IH]; intros p (q & Hq & Hb) Hw Hk.
      * injection Hq as ->. by constructor.
      * destruct (Hw 0 r eq_refl) as (w & H1 & H2 & H3 & H4). apply (partial_cons _ _ _ w); [|done..|by apply (Hk 0 p r)].
        apply IH; [by exists q|by intros i; apply (Hw (S i))|by intros i; apply (Hk (S i))].
    + destruct (Hw 0 p eq_refl) as (w & ? & ? & ? & Hs). exists p, path, w. split_and!; [done..|by apply Hs].
  - intros [Hp (p & l & w & -> & H1 & H2 & H3 & H4)]. 
    assert (∀ path, partial path → (∃ r, last path = Some r ∧ read_before r a2) ∧
      (∀ i r, path !! S i = Some r → ∃ w, write_of r = Some w ∧ a_seq_number w ≠ 0%N ∧ acyclic w (drop (S i) path) ∧ ¬ from_start a1 w) ∧
      (∀ i p r w, path !! i = Some p → path !! S i = Some r → write_of r = Some w → read_before p w)) as Hall.
    { induction 1 as [q Hq|q r path w' Hp' (IH1 & IH2 & IH3) E1 E2 E3 E4 E5].
      - split_and!; [by exists q|done|]. by intros [|i].
      - split_and!; [done| |].
        + intros [|i] r' Hr'; [|by apply IH2]. injection Hr' as <-. by exists w'.
        + intros [|i] p' r' w'' Hp'' Hr' Hw''; [|by eapply IH3]. injection Hp'' as <-. injection Hr' as <-. congruence. }
    destruct (Hall _ Hp) as (G1 & G2 & G3). split; [done| |done].
    intros [|i] r Hr.
    + injection Hr as <-. exists w. by split_and!.
    + destruct (G2 i r Hr) as (w' & ? & ? & ? & ?). exists w'. split_and!; [done..|]. split; [done|lia].
Qed.

Lemma partial_suffix l path : partial (l ++ path) → path ≠ [] → partial path.
Proof.
  induction l as [|p l IH]; intros H Hne; [done|]. apply IH; [|done]. simpl in H.
  inversion H; subst; [|congruence]. destruct l, path; simpl in *; congruence.
Qed.

(** Nothing occurs twice in a path, so paths are no longer than the trace has reads. *)
Lemma partial_elem path p : partial path → p ∈ path → p ∈ concat dup ∧ ∃ a, x_acts s !! p = Some a ∧ is_read a = true.
Proof.
  assert (∀ p w, read_before p w → p ∈ concat dup ∧ ∃ a, x_acts s !! p = Some a ∧ is_read a = true) as Hrb.
  { intros q w (l & a & Hl & Hq & Ha & Hr & _). split; [|by exists a]. apply list_elem_of_In, in_concat.
    exists l. rewrite <- !list_elem_of_In. split; [by eapply list_elem_of_lookup_2|done]. }
  induction 1 as [q Hq|q r path w Hp IH ? ? ? ? Hq]; intros [->|Hin]%elem_of_cons; try by eapply Hrb.
  - by apply elem_of_nil in Hin.
  - by apply IH.
Qed.

Lemma partial_NoDup path : wf_lists → partial path → NoDup path.
Proof.
  intros Hwf. induction 1 as [q Hq|q r path w Hp IH ? ? Hac ? (l & a & Hl & Hq & Ha & _ & Hle)]; [apply NoDup_singleton|].
  constructor; [|done]. intros Hin. destruct (wl_act Hwf _ _ _ Hl Hq) as (a' & Ha' & Ht & _).
  assert (a' = a) as -> by congruence. apply (Hac q a) in Hin; [lia|done..].
Qed.
End spec.

(** ** The search finds exactly these paths *)

Section search.
Context (s : Exec) (dup : list (list ptr)) (Hwf : wf_lists s dup).

Lemma act_of_Ok p a : x_acts s !! p = Some a → act_of s p = Ok a.
Proof. intros H. unfold act_of. by rewrite H. Qed.

(** Later elements of a thread list have no smaller sequence number, and reads differ. *)
Definition ordered (l : list ptr) : Prop :=
  ∀ i j p q a b, l !! i = Some p → l !! j = Some q → x_acts s !! p = Some a → x_acts s !! q = Some b → i < j →
    (a_seq_number a <= a_seq_number b)%N ∧ (is_read a = true → is_read b = true → a_seq_number a ≠ a_seq_number b).

Lemma reads_upto_ordered n l :
  (∀ p, p ∈ l → is_Some (x_acts s !! p)) → ordered l →
  ∃ rs, reads_upto s n l = Ok rs ∧ NoDup rs ∧
    ∀ p, p ∈ rs ↔ p ∈ l ∧ ∃ a, x_acts s !! p = Some a ∧ is_read a = true ∧ (a_seq_number a <= n)%N.
Proof.
  induction l as [|p l IH]; intros Hact Hord; cbn [reads_upto].
  { exists []. split; [done|]. split; [constructor|]. set_solver. }
  destruct (Hact p) as [a Ha]; [by left|]. rewrite (act_of_Ok _ _ Ha). simpl.
  assert (∀ q b, q ∈ l → x_acts s !! q = Some b → (a_seq_number a <= a_seq_number b)%N ∧
    (is_read a = true → is_read b = true → a_seq_number a ≠ a_seq_number b)) as Hlater.
  { intros q b (j & Hj)%list_elem_of_lookup Hb. by apply (Hord 0 (S j) p q a b); [..|lia]. }
  destruct (N.ltb_spec n (a_seq_number a)) as [Hn|Hn].
  { exists []. split; [done|]. split; [constructor|]. intros q. split; [by intros ?%elem_of_nil|].
    intros [[->|Hq]%elem_of_cons (b & Hb & _ & Hle)]; [assert (b = a) as -> by congruence; lia|].
    destruct (Hlater q b Hq Hb). lia. }
  destruct IH as (rs & -> & Hnd & Hrs).
  { intros q Hq. apply Hact. by right. } { intros i j q q' b b' H1 H2 H3 H4 H5. by apply (Hord (S i) (S j) q q' b b'); [..|lia]. }
  simpl. destruct (is_read a) eqn:Er.
  - exists (p :: rs). split; [done|]. split.
    + constructor; [|done]. intros (Hp & b & Hb & Hrb & _)%Hrs. assert (b = a) as -> by congruence.
      by destruct (Hlater p a Hp Ha) as [_ []].
    + intros q. rewrite !elem_of_cons, Hrs. naive_solver.
  - exists rs. split; [done|]. split; [done|]. intros q. rewrite elem_of_cons, Hrs. split; [intros [? ?]; split; [by right|done]|].
    intros [[->|Hq] (b & Hb & Hrb & ?)]; [congruence|]. split; [done|by exists b].
Qed.

Lemma reads_upto_spec l w :
  dup !! a_tid w = Some l →
  ∃ rs, reads_upto s (a_seq_number w) l = Ok rs ∧ NoDup rs ∧ ∀ p, p ∈ rs ↔ read_before s dup p w.
Proof.
  intros Hl. destruct (reads_upto_ordered (a_seq_number w) l) as (rs & Hrs & Hnd & H).
  - intros p Hp. destruct (wl_act s dup Hwf _ _ _ Hl Hp) as (a & Ha & _). by exists a.
  - intros i j p q a b H1 H2 H3 H4 H5. exact (wl_sorted s dup Hwf _ _ _ _ _ _ _ _ Hl H1 H2 H3 H4 H5).
  - exists rs. split; [done|]. split; [done|]. intros p. rewrite H. unfold read_before. naive_solver.
Qed.

Lemma has_loop_spec w path :
  (∀ p, p ∈ path → is_Some (x_acts s !! p)) → ∃ b, has_loop s w path = Ok b ∧ (b = false ↔ acyclic s w path).
Proof.
  induction path as [|p path IH]; intros Hact; cbn [has_loop].
  { exists false. split; [done|]. split; [|done]. by intros _ r a []%elem_of_nil. }
  destruct (Hact p) as [a Ha]; [by left|]. rewrite (act_of_Ok _ _ Ha). simpl.
  destruct IH as (b & Hb & Hac). { intros q Hq. apply Hact. by right. }
  case_bool_decide as Et; simpl.
  - destruct (N.leb_spec (a_seq_number a) (a_seq_number w)).
    + exists true. split; [done|]. split; [done|]. intros H'. specialize (H' p a ltac:(by left) Ha). unfold id_to_int in *. lia.
    + exists b. split; [done|]. rewrite Hac. split; intros H' r a' Hr Ha' Ht; [|apply (H' r); [by right|done..]].
      apply elem_of_cons in Hr as [->|Hr]; [|by apply (H' r)]. assert (a' = a) as -> by congruence. lia.
  - exists b. split; [done|]. rewrite Hac. split; intros H' r a' Hr Ha' Ht; [|apply (H' r); [by right|done..]].
    apply elem_of_cons in Hr as [->|Hr]; [|by apply (H' r)]. assert (a' = a) as -> by congruence. unfold id_to_int in *. congruence.
Qed.

Context (a1 a2 : ModelAction).
Notation partial := (partial s dup a1 a2).
Notation completed := (completed s a1).

#[local] Arguments has_loop : simpl never.
#[local] Arguments reads_upto : simpl never.

(** The reads by which an outcome extends a path. *)
Definition extensions (o : path_outcome) (path rs : list ptr) : Prop :=
  match o with Extended l => l = map (λ q, q :: path) rs | _ => rs = [] end.

Lemma partial_head p path : partial (p :: path) → ∃ a, read_before s dup p a.
Proof. inversion 1; eauto. Qed.

Lemma path_step_spec path :
  partial path →
  ∃ o rs, path_step s dup (a_tid a1) (a_seq_number a1) path = Ok o ∧ extensions o path rs ∧ NoDup rs ∧
    (o = Found ↔ completed path) ∧ ∀ q, q ∈ rs ↔ partial (q :: path).
Proof.
  intros Hp. destruct path as [|p path]; [inversion Hp|].
  destruct (partial_head _ _ Hp) as (a & l & r & Hl & Hin & Hr & Hrd & _).
  destruct (wl_act s dup Hwf _ _ _ Hl Hin) as (r' & Hr' & _ & Hw). assert (r' = r) as -> by congruence.
  destruct (Hw Hrd) as (w & Hwr & Hlen).
  assert (∀ q, partial (q :: p :: path) ↔ a_seq_number w ≠ 0%N ∧ acyclic s w (p :: path) ∧ ¬ from_start a1 w ∧ read_before s dup q w) as Hkids.
  { intros q. split; [|intros (?&?&?&?); by apply (partial_cons _ _ _ _ _ _ _ w)]. intros H. inversion H; subst. by simplify_eq. }
  assert (completed (p :: path) ↔ a_seq_number w ≠ 0%N ∧ acyclic s w (p :: path) ∧ from_start a1 w) as Hcomp.
  { split; [|intros (?&?&?); by exists p, path, w]. intros (q & l' & w' & [= <- <-] & ? & ? & ? & ?). by simplify_eq. }
  enough (∃ o rs, path_step s dup (a_tid a1) (a_seq_number a1) (p :: path) = Ok o ∧ extensions o (p :: path) rs ∧ NoDup rs ∧
    (o = Found ↔ a_seq_number w ≠ 0%N ∧ acyclic s w (p :: path) ∧ from_start a1 w) ∧
    ∀ q, q ∈ rs ↔ a_seq_number w ≠ 0%N ∧ acyclic s w (p :: path) ∧ ¬ from_start a1 w ∧ read_before s dup q w)
    as (o & rs & H1 & H2 & H3 & H4 & H5).
  { exists o, rs. split_and!; [done..|by rewrite Hcomp|]. intros q. by rewrite Hkids. }
  clear Hkids Hcomp.
  unfold path_step. simpl. rewrite (act_of_Ok _ _ Hr). simpl. unfold write_of in Hwr. rewrite Hr in Hwr. simpl in Hwr.
  destruct (a_reads_from r) as [wp|]; [|done]. simpl in Hwr |- *. rewrite (act_of_Ok _ _ Hwr). simpl.
  destruct (N.eqb_spec (a_seq_number w) 0) as [E0|E0].
  { exists Dropped, []. split_and!; [done..|constructor|naive_solver|]. set_solver. }
  destruct (has_loop_spec w (p :: path)) as (b & Hb & Hac).
  { intros q Hq. destruct (partial_elem _ _ _ _ _ _ Hp Hq) as (_ & b & Hb & _). by exists b. }
  rewrite Hb. simpl. destruct b.
  { exists Dropped, []. split_and!; [done..|constructor|naive_solver|]. set_solver. }
  apply proj1 in Hac. specialize (Hac eq_refl). 
  destruct (bool_decide _ && _) eqn:Es.
  { apply andb_true_iff in Es as [Et%bool_decide_eq_true Es%N.leb_le]. assert (from_start a1 w) as Hfs by (by split).
    exists Found, []. split_and!; [done..|constructor|naive_solver|]. set_solver. }
  assert (¬ from_start a1 w) as Hfs.
  { intros [Et Hs]. apply andb_false_iff in Es as [Es%bool_decide_eq_false|Es%N.leb_gt]; [done|lia]. }
  destruct (lookup_lt_is_Some_2 dup (a_tid w) (Hlen E0)) as [lw Hlw].
  unfold at_index, id_to_int. rewrite Hlw. simpl. destruct (reads_upto_spec lw w Hlw) as (rs & -> & Hnd & Hrs). simpl.
  eexists (Extended _), rs. split_and!; [done..|naive_solver|]. intros q. rewrite Hrs. naive_solver.
Qed.

(** The work for one path on the stack: after some rounds it is replaced by the complete
    paths that end with it. *)
Definition processed (cost : nat) (paths found : list (list ptr)) : Prop :=
  ∀ fuel stack acc,
    rf_sb_loop s dup (cost + fuel) (a_tid a1) (a_seq_number a1) (paths ++ stack) acc =
    rf_sb_loop s dup fuel (a_tid a1) (a_seq_number a1) stack (acc ++ found).

(** The complete paths that end with one of [paths]. *)
Definition found_from (paths found : list (list ptr)) : Prop :=
  NoDup found ∧ ∀ q, q ∈ found ↔ partial q ∧ completed q ∧ ∃ path, path ∈ paths ∧ path `suffix_of` q.

Lemma suffix_same_length (l1 l2 q : list ptr) : l1 `suffix_of` q → l2 `suffix_of` q → length l1 = length l2 → l1 = l2.
Proof. intros [k1 ->] [k2 E] H. by apply app_inj_2 in E as [_ ?]. Qed.

Lemma process_all n paths :
  NoDup paths → Forall (λ path, length path = n) paths →
  Forall (λ path, ∃ c found, processed c [path] found ∧ found_from [path] found) paths →
  ∃ c found, processed c paths found ∧ found_from paths found.
Proof.
  intros Hnd Hlen Hall. induction paths as [|path paths IH].
  { exists 0, []. split; [intros fuel stack acc; by rewrite app_nil_r|]. split; [constructor|]. set_solver. }
  apply NoDup_cons in Hnd as [Hni Hnd]. apply Forall_cons in Hlen as [Hn Hlen].
  apply Forall_cons in Hall as [(c1 & f1 & P1 & N1 & F1) Hall]. destruct (IH Hnd Hlen Hall) as (c2 & f2 & P2 & N2 & F2).
  exists (c1 + c2), (f1 ++ f2). split; [|split].
  - intros fuel stack acc. rewrite <- Nat.add_assoc. change ((path :: paths) ++ stack) with ([path] ++ (paths ++ stack)).
    by rewrite P1, P2, (assoc_L (++)).
  - apply NoDup_app. split_and!; [done| |done]. intros q (_ & _ & p1 & Hp1 & S1)%F1 (_ & _ & p2 & Hp2 & S2)%F2.
    apply list_elem_of_singleton in Hp1 as ->. apply Hni. rewrite (suffix_same_length path p2 q); [done..|].
    rewrite Hn. by rewrite (proj1 (Forall_forall _ _) Hlen p2).
  - intros q. rewrite elem_of_app, F1, F2. set_solver.
Qed.

(** Only reads of the trace can be in a path. *)
Lemma partial_length path : partial path → length path <= length (concat dup).
Proof.
  intros Hp. apply submseteq_length, NoDup_submseteq; [by eapply partial_NoDup|].
  intros p Hin. by eapply partial_elem.
Qed.

(** A path that has another as a proper suffix extends it. *)
Lemma suffix_extends path q : partial q → partial path → path `suffix_of` q → q = path ∨ ∃ r, partial (r :: path) ∧ r :: path `suffix_of` q.
Proof.
  intros Hq Hp [l ->]. destruct l as [|r l _] using rev_ind; [by left|right]. exists r. rewrite <- (assoc_L (++)) in *. simpl in *.
  split; [by eapply partial_suffix|by exists l].
Qed.

Lemma process_path n : ∀ path, length (concat dup) < n + length path → partial path →
  ∃ c found, processed c [path] found ∧ found_from [path] found.
Proof.
  induction n as [|n IH]; intros path Hn Hp; [apply partial_length in Hp; lia|].
  destruct (path_step_spec path Hp) as (o & rs & Ho & Hext & Hnd & Hcomp & Hkids).
  destruct (process_all (S (length path)) (rev (map (λ q, q :: path) rs))) as (c & found & Pf & Nf & Ff).
  { apply NoDup_ListNoDup, NoDup_rev, NoDup_ListNoDup, NoDup_fmap_2; [|done]. by intros ? ? [= ->]. }
  { apply Forall_forall. intros q Hq. rewrite elem_of_rev in Hq. by apply list_elem_of_fmap in Hq as (r & -> & _). }
  { apply Forall_forall. intros q Hq. rewrite elem_of_rev in Hq. apply list_elem_of_fmap in Hq as (r & -> & Hr%Hkids).
    apply IH; [simpl; lia|done]. }
  assert (∀ q, q ∈ found ↔ partial q ∧ completed q ∧ path `suffix_of` q ∧ q ≠ path) as Ff'.
  { intros q. rewrite Ff. split; intros (H1 & H2 & H3); split_and!; try done.
    - destruct H3 as (k & Hk & Hs). rewrite elem_of_rev in Hk. apply list_elem_of_fmap in Hk as (r & -> & Hr).
      etrans; [|done]. by exists [r].
    - destruct H3 as (k & Hk & [l ->]). rewrite elem_of_rev in Hk. apply list_elem_of_fmap in Hk as (r & -> & Hr).
      intros E%(f_equal length). rewrite length_app in E. simpl in E. lia.
    - destruct H3 as [Hs Hne]. destruct (suffix_extends path q) as [?|(r & Hr & Hs')]; [done..|].
      exists (r :: path). split; [|done]. rewrite elem_of_rev. apply list_elem_of_fmap. exists r. split; [done|by apply Hkids]. }
  clear Ff. exists (S c), (if decide (o = Found) then path :: found else found). split.
  - intros fuel stack acc. simpl. rewrite Ho. simpl. destruct o as [| |l]; simpl in Hext.
    + subst rs. rewrite decide_False by done. apply (Pf fuel stack acc).
    + subst rs. rewrite decide_True by done. specialize (Pf fuel stack (acc ++ [path])). simpl in Pf. by rewrite Pf, <- (assoc_L (++)).
    + subst l. rewrite decide_False by done. apply Pf.
  - destruct (decide (o = Found)) as [E|E].
    + split; [constructor; [rewrite Ff'; tauto|done]|]. intros q. rewrite elem_of_cons, Ff'. rewrite Hcomp in E.
      split; [intros [->|(?&?&?&?)]; [|by eauto using list_elem_of_here]|].
      * split_and!; [done..|]. exists path. split; [by left|done].
      * intros (? & ? & k & ->%list_elem_of_singleton & ?). destruct (decide (q = path)); [by left|by right].
    + split; [done|]. intros q. rewrite Ff'. rewrite Hcomp in E. split; [intros (?&?&?&?); split_and!; [done..|]; exists path; split; [by left|done]|].
      intros (? & ? & k & ->%list_elem_of_singleton & ?). split_and!; [done..|]. by intros ->.
Qed.
End search.

(** An action of the trace is in the list of its thread. *)
Lemma trace_list s dup p a : wf_lists s dup → p ∈ concat dup → x_acts s !! p = Some a → ∃ l, dup !! a_tid a = Some l ∧ p ∈ l.
Proof.
  intros Hwf (l & Hl & Hp)%list_elem_of_In%in_concat Ha. apply list_elem_of_In in Hl, Hp.
  apply list_elem_of_lookup in Hl as (t & Hl). exists l. split; [|done].
  destruct (wl_act _ _ Hwf _ _ _ Hl Hp) as (a' & Ha' & Ht & _). congruence.
Qed.

(** C7. The search for the paths of reads-from and sequenced-before edges between two
    actions terminates and is exact: from some number of rounds on it returns a list
    without duplicates of all the paths from the first action to the second, and of
    nothing else. *)
Theorem get_rf_sb_paths_correct s dup act1 act2 a1 a2 :
  wf_lists s dup → act1 ∈ concat dup → act2 ∈ concat dup → x_acts s !! act1 = Some a1 → x_acts s !! act2 = Some a2 →
  ∃ rounds paths, (∀ fuel, rounds <= fuel → get_rf_sb_paths s dup fuel act1 act2 = Ok paths) ∧ NoDup paths ∧
    ∀ path, path ∈ paths ↔ rf_sb_path s dup a1 a2 path.
Proof.
  intros Hwf T1 T2 H1 H2. destruct (trace_list s dup act1 a1 Hwf T1 H1) as (l1 & E1 & I1).
  destruct (trace_list s dup act2 a2 Hwf T2 H2) as (l2 & E2 & I2). unfold get_rf_sb_paths. rewrite (act_of_Ok _ _ _ H1), (act_of_Ok _ _ _ H2). simpl.
  unfold at_index, id_to_int. rewrite E1, E2. simpl. rewrite !bool_decide_eq_false_2 by (by intros ->; eapply not_elem_of_nil). simpl.
  destruct (reads_upto_spec s dup Hwf l2 a2 E2) as (rs & Hrs & Hnd & Hin).
  destruct (process_all s dup Hwf a1 a2 1 (rev (map (λ q, [q]) rs))) as (c & found & Pf & Nf & Ff).
  { apply NoDup_ListNoDup, NoDup_rev, NoDup_ListNoDup, NoDup_fmap_2; [|done]. by intros ? ? [= ->]. }
  { apply Forall_forall. intros q Hq. rewrite elem_of_rev in Hq. by apply list_elem_of_fmap in Hq as (r & -> & _). }
  { apply Forall_forall. intros q Hq. rewrite elem_of_rev in Hq. apply list_elem_of_fmap in Hq as (r & -> & Hr%Hin).
    apply (process_path s dup Hwf a1 a2 (S (length (concat dup)))); [simpl; lia|by constructor]. }
  exists c, found. split_and!; [|done|].
  - intros fuel Hf. rewrite Hrs. simpl. replace fuel with (c + (fuel - c)) by lia. specialize (Pf (fuel - c) [] []).
    rewrite app_nil_r in Pf. rewrite Pf. by destruct (fuel - c).
  - intros q. rewrite Ff, (rf_sb_path_partial s dup a1 a2). split; [tauto|]. intros [Hp Hc]. split_and!; [done..|].
    destruct q as [|r q _] using rev_ind; [inversion Hp|]. exists [r]. split; [|by exists q].
    rewrite elem_of_rev. apply list_elem_of_fmap. exists r. split; [done|]. apply Hin.
    apply partial_suffix in Hp; [|done]. by inversion Hp.
Qed.

(** The conditions on the trace can be checked. *)
Section check.
Context (s : Exec) (dup : list (list ptr)).

Definition check_act (t : nat) (p : ptr) : bool :=
  match x_acts s !! p with
  | Some a => bool_decide (a_tid a = t) &&
      (if is_read a then
         match write_of s p with Some w => (a_seq_number w =? 0)%N || (a_tid w <? length dup) | None => false end
       else true)
  | None => false
  end.
Definition check_pair (p q : ptr) : bool :=
  match x_acts s !! p, x_acts s !! q with
  | Some a, Some b => (a_seq_number a <=? a_seq_number b)%N && negb (is_read a && is_read b && (a_seq_number a =? a_seq_number b)%N)
  | _, _ => false
  end.
Fixpoint check_pairs (l : list ptr) : bool :=
  match l with [] => true | p :: l => forallb (check_pair p) l && check_pairs l end.
Definition check_lists : bool :=
  forallb (λ '(t, l), forallb (check_act t) l && check_pairs l) (imap pair dup).

Lemma check_pairs_spec l i j p q : check_pairs l = true → l !! i = Some p → l !! j = Some q → i < j → check_pair p q = true.
Proof.
  revert i j. induction l as [|r l IH]; intros i j H Hi Hj Hlt; [done|]. simpl in H. apply andb_true_iff in H as [H1 H2].
  destruct i as [|i], j as [|j]; [lia| |lia|].
  - injection Hi as ->. rewrite forallb_forall in H1. apply H1, list_elem_of_In. by eapply list_elem_of_lookup_2.
  - by apply (IH i j); [..|lia].
Qed.

Lemma check_lists_spec : check_lists = true → wf_lists s dup.
Proof.
  intros H. unfold check_lists in H. rewrite forallb_forall in H.
  assert (∀ t l, dup !! t = Some l → forallb (check_act t) l = true ∧ check_pairs l = true) as H'.
  { intros t l Hl. apply andb_true_iff, (H (t, l)), list_elem_of_In, elem_of_lookup_imap. by exists t, l. }
  split.
  - intros t l p Hl Hp. destruct (H' t l Hl) as [H1 _]. rewrite forallb_forall in H1. apply list_elem_of_In, H1 in Hp.
    unfold check_act in Hp. destruct (x_acts s !! p) as [a|] eqn:Ha; [|done]. exists a.
    apply andb_true_iff in Hp as [Ht%bool_decide_eq_true Hr]. split_and!; [done..|]. intros Er. rewrite Er in Hr.
    destruct (write_of s p) as [w|]; [|done]. exists w. split; [done|]. intros Hw.
    apply orb_true_iff in Hr as [Hr%N.eqb_eq|Hr%Nat.ltb_lt]; done.
  - intros t l i j p q a b Hl Hi Hj Ha Hb Hlt. destruct (H' t l Hl) as [_ H2].
    pose proof (check_pairs_spec l i j p q H2 Hi Hj Hlt) as Hc. unfold check_pair in Hc. rewrite Ha, Hb in Hc.
    apply andb_true_iff in Hc as [Hle%N.leb_le Hn]. split; [done|]. intros Ra Rb E. apply N.eqb_eq in E. by rewrite Ra, Rb, E in Hn.
Qed.
End check.

(** In the first execution of store buffering the second thread's load reads from the
    initialization by the main thread, and this is the one path between them. *)
Lemma get_rf_sb_paths_correct_witness :
  let s := first_execution_of sb_main (sb_thread memory_order_relaxed) in
  let dup := map (λ t, thread_part s t (x_action_trace s)) (seq 0 4) in
  ∃ rounds, (∀ fuel, rounds <= fuel → get_rf_sb_paths s dup fuel 2 15 = Ok [[15%positive]]) ∧
    ∃ a1 a2, rf_sb_path s dup a1 a2 [15%positive].
Proof.
  intros s dup.
  assert (∃ a1, x_acts s !! 2%positive = Some a1) as [a1 H1] by (eexists; vm_compute; reflexivity).
  assert (∃ a2, x_acts s !! 15%positive = Some a2) as [a2 H2] by (eexists; vm_compute; reflexivity).
  destruct (get_rf_sb_paths_correct s dup 2 15 a1 a2) as (n & paths & Hp & Hnd & Hin).
  - apply check_lists_spec. vm_compute. reflexivity.
  - apply (bool_decide_unpack _). vm_compute. exact I.
  - apply (bool_decide_unpack _). vm_compute. exact I.
  - exact H1.
  - exact H2.
  - assert (paths = [[15%positive]]) as ->.
    { pose proof (Hp (n + 100) ltac:(lia)) as E'. 
      assert (get_rf_sb_paths s dup (n + 100) 2 15 = Ok [[15%positive]]) as E2; [|congruence].
      rewrite Nat.add_comm. clear. vm_compute. reflexivity. }
    exists n. split; [exact Hp|]. exists a1, a2. apply Hin. by left.
Defined.

(** ** The search for data races is exact *)

Section races.
Context (s : Exec).

(** The actions exist and have a clock vector. *)
Definition clocked (p : ptr) : Prop := ∃ a, x_acts s !! p = Some a ∧ is_Some (a_cv a).
Definition location_of (p : ptr) : option N := a_location <$> x_acts s !! p.
Definition plain (p : ptr) : Prop := a_original_order <$> x_acts s !! p = Some memory_order_normal.
(** The plain accesses to a location. *)
Definition plain_ops (loc : N) (l : list ptr) : list ptr := filter (λ p, plain p ∧ location_of p = Some loc) l.
(** Neither access happens before the other. *)
Definition racing (p q : ptr) : Prop := unordered s p q = Ok true.

Lemma unordered_total p q : clocked p → clocked q → ∃ b, unordered s p q = Ok b.
Proof.
  intros (a & Ha & c & Hc) (b & Hb & d & Hd). unfold unordered, act_of. rewrite Ha, Hb. simpl.
  unfold happens_before. rewrite Hd. simpl. case_match; [by eexists|]. rewrite Hc. simpl. by eexists.
Qed.

Lemma race_in_spec l :
  Forall clocked l →
  ∃ r, race_in s l = Ok r ∧
    match r with
    | Some (p, q) => [p; q] `sublist_of` l ∧ racing p q
    | None => ∀ p q, [p; q] `sublist_of` l → ¬ racing p q
    end.
Proof.
  induction 1 as [|p l Hp Hl IH]; cbn [race_in]; [exists None; split; [done|]; intros p q H; inversion H|].
  assert (∃ r, until (λ q, u ← unordered s p q; Ok (if (u : bool) then Some (p, q) else None)) l = Ok r ∧
    match r with
    | Some (p', q) => p' = p ∧ q ∈ l ∧ racing p q
    | None => ∀ q, q ∈ l → ¬ racing p q
    end) as (r & Hr & Hspec).
  { clear IH. induction Hl as [|q l Hq Hl IH]; simpl; [exists None; split; [done|]; set_solver|].
    destruct (unordered_total p q Hp Hq) as (b & Hb). rewrite Hb. simpl. destruct b.
    - exists (Some (p, q)). split; [done|]. split_and!; [done|by left|done].
    - destruct IH as (r & -> & Hr). exists r. split; [done|]. destruct r as [[p' q']|].
      + destruct Hr as (-> & ? & ?). split_and!; [done|by right|done].
      + intros q' [->|Hq']%elem_of_cons; [|by apply Hr]. unfold racing. congruence. }
  rewrite Hr. simpl. destruct r as [[p' q]|].
  - destruct Hspec as (-> & Hq & Hrace). exists (Some (p, q)). split; [done|]. split; [|done].
    apply sublist_skip. by apply singleton_sublist_l.
  - destruct IH as (r & Hrr & IH). exists r. split; [done|]. destruct r as [[p' q]|].
    + destruct IH as [? ?]. split; [by apply sublist_cons|done].
    + intros p' q Hs. inversion Hs; subst; [|by apply IH]. apply Hspec. by apply singleton_sublist_l.
Qed.

(** The accesses collected from [pre], one list for each of [locs]. *)
Record collected (pre : list ptr) (locs : list N) (opList : list (list ptr)) : Prop := {
  co_lists : opList = (λ loc, plain_ops loc pre) <$> locs;
  co_locs : ∀ loc, loc ∈ locs ↔ plain_ops loc pre ≠ []
}.

Lemma plain_ops_head loc l p rest : plain_ops loc l = p :: rest → ∃ a, x_acts s !! p = Some a ∧ a_location a = loc.
Proof.
  intros E. assert (p ∈ plain_ops loc l) as Hp by (rewrite E; by left). unfold plain_ops in Hp.
  apply list_elem_of_filter in Hp as [[_ Hloc] _]. unfold location_of in Hloc.
  destruct (x_acts s !! p) as [a|]; [|done]. exists a. split; [done|]. by injection Hloc.
Qed.

Lemma plain_ops_snoc loc pre p :
  plain_ops loc (pre ++ [p]) = plain_ops loc pre ++ (if decide (plain p ∧ location_of p = Some loc) then [p] else []).
Proof. unfold plain_ops. rewrite filter_app. by f_equal. Qed.

(** The inner loop over the lists. *)
Lemma collect_inner pre p a locs :
  x_acts s !! p = Some a → plain p → (∀ loc, loc ∈ locs → plain_ops loc pre ≠ []) →
  ∀ acc found,
  foldM (add_to_list s p a) ((λ loc, plain_ops loc pre) <$> locs) (acc, found) =
  Ok (acc ++ ((λ loc, plain_ops loc (pre ++ [p])) <$> locs), found || bool_decide (a_location a ∈ locs)).
Proof.
  intros Ha Hp Hne. induction locs as [|loc locs IH]; intros acc found; cbn [foldM fmap list_fmap].
  { by rewrite app_nil_r, orb_false_r. }
  destruct (plain_ops loc pre) as [|q rest] eqn:E; [by destruct (Hne loc); [left|]|].
  destruct (plain_ops_head _ _ _ _ E) as (b & Hb & Hloc).
  assert (add_to_list s p a (q :: rest) (acc, found) =
    if (a_location b =? a_location a)%N then Ok (acc ++ [(q :: rest) ++ [p]], true) else Ok (acc ++ [q :: rest], found)) as ->
    by (unfold add_to_list; simpl; by rewrite (act_of_Ok _ _ _ Hb)).
  assert (location_of p = Some (a_location a)) as Hlp by (unfold location_of; by rewrite Ha).
  destruct (N.eqb_spec (a_location b) (a_location a)) as [El|El]; cbn [mbind result_bind];
    (rewrite IH; [|set_solver]); rewrite plain_ops_snoc, E.
  - rewrite decide_True by (split; [done|congruence]). rewrite <- (assoc_L (++)). simpl. f_equal. f_equal.
    rewrite (bool_decide_eq_true_2 (_ ∈ loc :: locs)) by (apply elem_of_cons; left; congruence). by rewrite orb_true_r.
  - rewrite decide_False by (intros [_ ?]; congruence). rewrite <- (assoc_L (++)). simpl. rewrite app_nil_r. f_equal. f_equal. f_equal.
    apply bool_decide_ext. rewrite elem_of_cons. naive_solver.
Qed.

Lemma collect_op_spec pre p locs opList :
  clocked p → collected pre locs opList →
  ∃ locs' opList', collect_op s p opList = Ok opList' ∧ collected (pre ++ [p]) locs' opList'.
Proof.
  intros (a & Ha & _) [-> Hlocs]. unfold collect_op, act_of at 1. rewrite Ha. simpl.
  assert (plain p ↔ a_original_order a = memory_order_normal) as Hpl by (unfold plain; rewrite Ha; simpl; split; congruence).
  assert (location_of p = Some (a_location a)) as Hlp by (unfold location_of; by rewrite Ha).
  case_bool_decide as En.
  { exists locs. eexists. split; [done|]. assert (∀ loc, plain_ops loc (pre ++ [p]) = plain_ops loc pre) as E.
    { intros loc. rewrite plain_ops_snoc, decide_False, app_nil_r by tauto. done. }
    split; [by apply list_fmap_ext; intros; rewrite E|]. intros loc. by rewrite E. }
  assert (plain p) as Hp by (apply Hpl; by destruct (decide (a_original_order a = memory_order_normal))).
  rewrite (collect_inner pre p a) by (done || (by intros ? ?%Hlocs)). simpl.
  assert (∀ loc, plain_ops loc (pre ++ [p]) ≠ [] ↔ loc ∈ locs ∨ loc = a_location a) as Hall.
  { intros loc. rewrite plain_ops_snoc, Hlocs. destruct (decide _) as [[_ E]|E].
    - assert (loc = a_location a) as -> by congruence. split; [by right|]. intros _ ?%app_nil. naive_solver.
    - rewrite app_nil_r. split; [by left|]. intros [Hin|Hin]; [done|]. subst loc. tauto. }
  case_bool_decide as Ein; eexists (if decide (a_location a ∈ locs) then locs else locs ++ [a_location a]), _; (split; [done|]).
  - rewrite decide_True by done. split; [done|]. intros loc. rewrite Hall. naive_solver.
  - rewrite decide_False by done. split; [|intros loc; rewrite Hall; set_solver].
    rewrite fmap_app. f_equal. simpl. f_equal. rewrite plain_ops_snoc, decide_True by done.
    destruct (plain_ops (a_location a) pre) as [|q r] eqn:E; [done|]. exfalso. apply Ein, Hlocs. congruence.
Qed.

Lemma collect_spec l :
  Forall clocked l → ∃ locs, foldM (collect_op s) l [] = Ok ((λ loc, plain_ops loc l) <$> locs) ∧
    ∀ loc, loc ∈ locs ↔ plain_ops loc l ≠ [].
Proof.
  intros Hl. destruct (foldM_ind (λ pre opList, ∃ locs, collected pre locs opList) (collect_op s) l []) as (o & Ho & locs & [-> Hlocs]).
  - exists []. split; [done|]. set_solver.
  - intros l1 p l2 o -> (locs & Hc). destruct (collect_op_spec l1 p locs o) as (locs' & o' & Ho & Hc'); [|done|by eauto].
    apply Forall_app in Hl as [_ Hl]. by apply Forall_cons in Hl as [? _].
  - exists locs. by split.
Qed.

Lemma filter_pair (P : ptr → Prop) `{∀ x, Decision (P x)} (p q : ptr) l :
  [p; q] `sublist_of` filter P l ↔ [p; q] `sublist_of` l ∧ P p ∧ P q.
Proof.
  split.
  - intros Hs. assert (∀ x, x ∈ [p; q] → P x) as HP.
    { intros x Hx. eapply elem_of_sublist in Hx; [|exact Hs]. by apply list_elem_of_filter in Hx as [? _]. }
    split; [etrans; [done|apply sublist_filter]|]. split; apply HP; set_solver.
  - intros ((k1 & k2 & -> & Hq%singleton_sublist_l)%sublist_cons_l & Pp & Pq). rewrite filter_app, filter_cons_True by done.
    apply sublist_cons_l. exists (filter P k1), (filter P k2). split; [done|]. apply singleton_sublist_l.
    by apply list_elem_of_filter.
Qed.

Lemma checkDataRace_spec l :
  Forall clocked l →
  ∃ r, checkDataRace s l = Ok r ∧
    match r with
    | Some (p, q) => [p; q] `sublist_of` l ∧ plain p ∧ plain q ∧ location_of p = location_of q ∧ racing p q
    | None => ∀ p q, [p; q] `sublist_of` l → plain p → plain q → location_of p = location_of q → ¬ racing p q
    end.
Proof.
  intros Hl. unfold checkDataRace. destruct (collect_spec l Hl) as (locs & -> & Hlocs). cbn [mbind result_bind].
  assert (∃ r, until (race_in s) ((λ loc, plain_ops loc l) <$> locs) = Ok r ∧
    match r with
    | Some (p, q) => ∃ loc, [p; q] `sublist_of` plain_ops loc l ∧ racing p q
    | None => ∀ loc p q, loc ∈ locs → [p; q] `sublist_of` plain_ops loc l → ¬ racing p q
    end) as (r & Hr & Hspec).
  { clear Hlocs. induction locs as [|loc locs IH]; cbn [until fmap list_fmap]; [exists None; set_solver|].
    destruct (race_in_spec (plain_ops loc l)) as (r & -> & Hr).
    { apply Forall_forall. intros p [_ Hp]%list_elem_of_filter. by apply (proj1 (Forall_forall _ _) Hl). }
    cbn [mbind result_bind].
    destruct r as [[p q]|]; [exists (Some (p, q)); split; [done|]; by exists loc|].
    destruct IH as (r & -> & IH). exists r. split; [done|]. destruct r as [[p q]|]; [done|].
    intros loc' p q [->|Hin]%elem_of_cons Hs; [by apply Hr|by eapply IH]. }
  exists r. split; [case_bool_decide as E; [|done]; destruct locs; [by injection Hr as <-|done]|].
  destruct r as [[p q]|].
  - destruct Hspec as (loc & Hs & Hrace). unfold plain_ops in Hs. apply filter_pair in Hs as (Hs & [Pp Lp] & [Pq Lq]).
    split_and!; [done..|congruence|done].
  - intros p q Hs Pp Pq E. destruct (location_of p) as [loc|] eqn:Lp.
    + assert ([p; q] `sublist_of` plain_ops loc l) as Hs' by (apply filter_pair; done).
      apply (Hspec loc); [|done]. apply Hlocs. intros En. rewrite En in Hs'. inversion Hs'.
    + unfold plain, location_of in *. by destruct (x_acts s !! p).
Qed.
End races.

(** C30. The plugin's search for data races is exact for what it calls a race: on a trace
    whose actions have clock vectors it always succeeds, and returns two plain accesses
    to the same location, in the order of the list, neither of which happens before the
    other, exactly if there are such accesses. Neither of them need be a write. *)
Theorem checkDataRace_exact s l :
  Forall (clocked s) l →
  ∃ r, checkDataRace s l = Ok r ∧
    match r with
    | Some (p, q) => [p; q] `sublist_of` l ∧ plain s p ∧ plain s q ∧ location_of s p = location_of s q ∧ racing s p q
    | None => ∀ p q, [p; q] `sublist_of` l → plain s p → plain s q → location_of s p = location_of s q → ¬ racing s p q
    end.
Proof. apply checkDataRace_spec. Qed.

(** Two threads that only read a location are reported. *)
Definition two_readers_main : user unit :=
  atomic_init 64 0 ;; thrd_create 80 1 ;; thrd_create 88 1 ;; join 80 ;; join 88.
Definition reader_thread (p : N) : user unit := atomic_load_explicit int 64 memory_order_normal ;; mret tt.
Definition two_readers : Exec := first_execution_of two_readers_main reader_thread.

Lemma checkDataRace_exact_witness :
  ∃ p q a b, checkDataRace two_readers (x_action_trace two_readers) = Ok (Some (p, q)) ∧ racing two_readers p q ∧
    x_acts two_readers !! p = Some a ∧ x_acts two_readers !! q = Some b ∧ is_write a = false ∧ is_write b = false.
Proof.
  destruct (checkDataRace_exact two_readers (x_action_trace two_readers)) as (r & Hr & Hspec).
  - apply Forall_forall. intros p Hp. unfold clocked.
    assert (forallb (λ p, match x_acts two_readers !! p with Some a => bool_decide (is_Some (a_cv a)) | None => false end)
      (x_action_trace two_readers) = true) as H by (vm_compute; reflexivity).
    rewrite forallb_forall in H. apply list_elem_of_In, H in Hp. destruct (x_acts two_readers !! p) as [a|]; [|discriminate Hp].
    exists a. split; [reflexivity|]. exact (bool_decide_eq_true_1 _ Hp).
  - assert (∃ p q a b, r = Some (p, q) ∧ x_acts two_readers !! p = Some a ∧ x_acts two_readers !! q = Some b ∧
      is_write a = false ∧ is_write b = false) as (p & q & a & b & E & Ha & Hb & Wa & Wb).
    { vm_compute in Hr. injection Hr as <-. eexists _, _, _, _. split; [reflexivity|]. vm_compute. repeat split. }
    rewrite E in Hr, Hspec. exists p, q, a, b. destruct Hspec as (_ & _ & _ & _ & Hrace). by repeat split.
Defined.
