(* ===== verification/SCFence.v ===== *)
(** * The fence inference plugin (scfence/scfence.h, scfence.cc)

    After each execution the plugin asks the SC generator for an order. If there is a
    cycle it looks for memory orders that would forbid the execution, adds the stronger
    inferences to the search space and restarts the checker with the next one; when an
    inference has survived all executions it is a result. *)

From S2P Require Import Prelude ClockVector Action HashTable Promise CycleGraph NodeStack Schedule DataRace ExecState ModOrder Step Evolution Scenarios Librace Interface Model Litmus SCAnalysis SCGen Inference InferSet FencePaths.

(** ** State *)

Definition DEFAULT_REPETITIVE_READ_BOUND : Z := 20.

(** What survives the rollback to the snapshot; times are in microseconds. *)
Record scfence_priv := mkPriv {
  fp_inferenceSet : InferState;
  fp_curInference : ptr;
  fp_candidateFile : option (list Ascii.ascii);
  fp_inferImplicitMO : bool;
  fp_implicitMOReadBound : Z;
  fp_hasRestarted : bool;
  fp_timeout : Z;
  fp_lastRecordedTime : Z
}.
Definition new_scfence_priv (now : Z) : scfence_priv :=
  let '(st, cur) := new_infer (new_Inference (is_next new_InferenceSet)) new_InferenceSet in
  mkPriv st cur None false DEFAULT_REPETITIVE_READ_BOUND false 0 now.

Inductive fix_type_t := BUGGY_EXECUTION | IMPLICIT_MO | NON_SC | DATA_RACE.

(** The last two fields are the flags of the model checker that the plugin sets. *)
Record SCFence := mkSCFence {
  sf_scgen : SCGenerator;
  sf_stats : sc_statistics;
  sf_time : bool;
  sf_weaken : bool;
  sf_priv : scfence_priv;
  sf_restart_flag : bool;
  sf_exit_flag : bool
}.
(** The generator and [time] have fields that the constructors do not set. *)
Definition new_SCFence (now : Z) (time : bool) (scgen : SCGenerator) : SCFence :=
  mkSCFence scgen (mkSCStatistics 0 0 0) time true (new_scfence_priv now) false false.

Definition put_scgen v x := mkSCFence v (sf_stats x) (sf_time x) (sf_weaken x) (sf_priv x) (sf_restart_flag x) (sf_exit_flag x).
Definition put_fence_stats v x := mkSCFence (sf_scgen x) v (sf_time x) (sf_weaken x) (sf_priv x) (sf_restart_flag x) (sf_exit_flag x).
Definition put_time v x := mkSCFence (sf_scgen x) (sf_stats x) v (sf_weaken x) (sf_priv x) (sf_restart_flag x) (sf_exit_flag x).
Definition put_weaken v x := mkSCFence (sf_scgen x) (sf_stats x) (sf_time x) v (sf_priv x) (sf_restart_flag x) (sf_exit_flag x).
Definition put_priv v x := mkSCFence (sf_scgen x) (sf_stats x) (sf_time x) (sf_weaken x) v (sf_restart_flag x) (sf_exit_flag x).
Definition put_restart_flag v x := mkSCFence (sf_scgen x) (sf_stats x) (sf_time x) (sf_weaken x) (sf_priv x) v (sf_exit_flag x).
Definition put_exit_flag v x := mkSCFence (sf_scgen x) (sf_stats x) (sf_time x) (sf_weaken x) (sf_priv x) (sf_restart_flag x) v.

Definition put_set v p := mkPriv v (fp_curInference p) (fp_candidateFile p) (fp_inferImplicitMO p) (fp_implicitMOReadBound p)
  (fp_hasRestarted p) (fp_timeout p) (fp_lastRecordedTime p).
Definition put_cur v p := mkPriv (fp_inferenceSet p) v (fp_candidateFile p) (fp_inferImplicitMO p) (fp_implicitMOReadBound p)
  (fp_hasRestarted p) (fp_timeout p) (fp_lastRecordedTime p).
Definition put_candidateFile v p := mkPriv (fp_inferenceSet p) (fp_curInference p) v (fp_inferImplicitMO p) (fp_implicitMOReadBound p)
  (fp_hasRestarted p) (fp_timeout p) (fp_lastRecordedTime p).
Definition put_inferImplicitMO v p := mkPriv (fp_inferenceSet p) (fp_curInference p) (fp_candidateFile p) v (fp_implicitMOReadBound p)
  (fp_hasRestarted p) (fp_timeout p) (fp_lastRecordedTime p).
Definition put_implicitMOReadBound v p := mkPriv (fp_inferenceSet p) (fp_curInference p) (fp_candidateFile p) (fp_inferImplicitMO p) v
  (fp_hasRestarted p) (fp_timeout p) (fp_lastRecordedTime p).
Definition put_hasRestarted v p := mkPriv (fp_inferenceSet p) (fp_curInference p) (fp_candidateFile p) (fp_inferImplicitMO p)
  (fp_implicitMOReadBound p) v (fp_timeout p) (fp_lastRecordedTime p).
Definition put_timeout v p := mkPriv (fp_inferenceSet p) (fp_curInference p) (fp_candidateFile p) (fp_inferImplicitMO p)
  (fp_implicitMOReadBound p) (fp_hasRestarted p) v (fp_lastRecordedTime p).
Definition put_lastRecordedTime v p := mkPriv (fp_inferenceSet p) (fp_curInference p) (fp_candidateFile p) (fp_inferImplicitMO p)
  (fp_implicitMOReadBound p) (fp_hasRestarted p) (fp_timeout p) v.

(** ** The monad of the plugin *)

Definition fence (A : Type) : Type := SCFence → result (SCFence * A).
#[global] Instance fence_ret : MRet fence := λ A a x, Ok (x, a).
#[global] Instance fence_bind : MBind fence := λ A B k c x, match c x with Ok (x, a) => k a x | Err f => Err f end.
Definition plugin : fence SCFence := λ x, Ok (x, x).
Definition setf (f : SCFence → SCFence) : fence unit := λ x, Ok (f x, tt).
Definition set_priv (f : scfence_priv → scfence_priv) : fence unit := setf (λ x, put_priv (f (sf_priv x)) x).
Definition fromf {A} (r : result A) : fence A := λ x, match r with Ok a => Ok (x, a) | Err f => Err f end.
Definition on_scgen {A} (c : scg A) : fence A := λ x,
  match c (sf_scgen x) with Ok (g, a) => Ok (put_scgen g x, a) | Err f => Err f end.
(** Operations of the inference set, [getSet()]. *)
Definition on_set {A} (c : InferState → result (InferState * A)) : fence A := λ x,
  match c (fp_inferenceSet (sf_priv x)) with
  | Ok (st, a) => Ok (put_priv (put_set st (sf_priv x)) x, a)
  | Err f => Err f
  end.
Definition on_set_ (c : InferState → result InferState) : fence unit := on_set (λ st, st ← c st; Ok (st, tt)).

Fixpoint foldF {A S} (f : A → S → fence S) (l : list A) (st : S) : fence S :=
  match l with [] => mret st | x :: l => st ← f x st; foldF f l st end.

(** ** The current inference *)

Definition getCurInference : fence ptr := x ← plugin; mret (fp_curInference (sf_priv x)).
Definition setCurInference (infer : ptr) : fence unit := set_priv (put_cur infer).
Definition curInfer : fence Inference :=
  cur ← getCurInference; x ← plugin; fromf (infer_at cur (fp_inferenceSet (sf_priv x))).
Definition on_cur (f : Inference → Inference) : fence unit := cur ← getCurInference; on_set_ (upd_infer cur f).
Definition fence_setHasFixes (val : bool) : fence unit := on_cur (setHasFixes val).
Definition hasFixes : fence bool := c ← curInfer; mret (i_hasFixes c).
Definition isBuggy : fence bool := c ← curInfer; mret (i_buggy c).
Definition fence_setBuggy (val : bool) : fence unit := on_cur (setBuggy val).

(** [( *curInfer)[idx]], which may make the inference larger, as a value and as a target. *)
Definition cur_order (idx : Z) : fence memory_order :=
  cur ← getCurInference;
  on_set (λ st, x ← infer_at cur st; '(x, mo) ← read_order idx x; Ok (put_infers (<[cur := x]> (is_infers st)) st, mo)).
Definition set_cur_order (idx : Z) (mo : memory_order) : fence unit :=
  cur ← getCurInference;
  on_set_ (λ st, x ← infer_at cur st; x ← write_order idx mo x; Ok (put_infers (<[cur := x]> (is_infers st)) st)).

Definition fence_commitInference (infer : ptr) (feasible : bool) : fence unit := on_set_ (commitInference infer feasible).
Definition fence_getNextInference : fence (option ptr) := on_set getNextInference.
Definition fence_addInference (infer : ptr) : fence bool := on_set (addInference infer).
Definition fence_addCandidates (candidates : option (list ptr)) : fence bool :=
  cur ← getCurInference; on_set (addCandidates cur candidates).
Definition fence_addCurInference : fence unit := cur ← getCurInference; on_set_ (addCurInference cur).
Definition setSize : fence nat := x ← plugin; mret (length (is_candidates (fp_inferenceSet (sf_priv x)))).

(** ** Operations with wildcards *)

(** [inspectModelAction] is called with each action before it is executed. *)
Definition inspectModelAction (act : option ModelAction) : fence (option ModelAction) :=
  match act with
  | None => mret None
  | Some a =>
      if in_enum (a_order a) then mret act
      else if bool_decide (a_order a = memory_order_normal) then mret (Some (set_mo memory_order_relaxed a))
      else
        let wildcardID := get_wildcard_id (a_order a) in
        order ← cur_order wildcardID;
        if bool_decide (order = WILDCARD_NONEXIST) then
          set_cur_order wildcardID memory_order_relaxed ;;
          mret (Some (set_mo memory_order_relaxed a))
        else order ← cur_order wildcardID; mret (Some (set_mo order a))
  end.

(** ** Restarting the checker *)

Definition exitModelChecker : fence unit := setf (put_exit_flag true).
Definition restartModelChecker : fence unit :=
  setf (put_restart_flag true) ;;
  x ← plugin;
  if negb (fp_hasRestarted (sf_priv x)) then set_priv (put_hasRestarted true) else mret tt.
Definition modelCheckerAtExitState : fence bool := x ← plugin; mret (sf_exit_flag x).

(** [isTimeout] at the time [now]. The quotient of doubles is compared with an [int]; it
    is exact enough that this is the comparison of integers. *)
Definition isTimeout (now : Z) : fence bool :=
  x ← plugin;
  let elapsedTime := ((now - fp_lastRecordedTime (sf_priv x)) mod 2 ^ 64)%Z in
  set_priv (put_lastRecordedTime now) ;;
  mret (fp_timeout (sf_priv x) * 1000000 <? elapsedTime)%Z.

Definition routineBacktrack (feasible : bool) : fence bool :=
  cur ← getCurInference;
  fence_commitInference cur feasible ;;
  (if feasible then
     x ← plugin;
     buggy ← isBuggy;
     if sf_weaken x && negb buggy then on_set_ (addWeakerInference cur) else mret tt
   else mret tt) ;;
  next ← fence_getNextInference;
  match next with
  | Some next => setCurInference next ;; restartModelChecker ;; mret true
  | None => exitModelChecker ;; mret false
  end.

Definition routineAfterAddFixes : fence unit :=
  next ← fence_getNextInference;
  match next with
  | Some next => setCurInference next ;; restartModelChecker
  | None => routineBacktrack false ;; mret tt
  end.

Definition actionAtModelCheckingFinish : fence unit :=
  exited ← modelCheckerAtExitState;
  if (exited : bool) then mret tt else routineBacktrack true ;; mret tt.

(** ** Imposing synchronization *)

Section fixes.
(** The execution; [fuel] bounds the rounds of a search for paths. *)
Context (s : Exec) (fuel : nat).

(** The fences from the head of the list on, up to [bound]. At the end of the list the
    loop reads one element too many, but does not use it. *)
Fixpoint fences_until (bound : option ptr) (l : list ptr) : result (list ptr) :=
  match l with
  | [] => Ok []
  | act :: l =>
      if bool_decide (Some act = bound) then Ok []
      else a ← act_of s act; rest ← fences_until bound l; Ok (if is_fence a then act :: rest else rest)
  end.
(** The list from the first occurrence of an action on, which [std::find] points to. *)
Definition from_act (p : ptr) (l : list ptr) : list ptr := drop (find_index p l) l.

(** The applicable ones of the patches that are tried in turn. *)
Definition applicable (ps : list Patch) : list Patch := filter (λ p, isApplicable p = true) ps.

Definition acts_of (l : list ptr) : result (list ModelAction) :=
  foldM (λ p acc, a ← act_of s p; Ok (acc ++ [a])) l [].

(** [getAcqRel] on the lists of fences, with the two actions themselves. *)
Definition acq_rel_patches (read write : ModelAction) (acqFences relFences : list ModelAction) : list Patch :=
  let acq_only := map (λ fence, new_Patch2 fence memory_order_acquire write memory_order_release) acqFences in
  let rel_only := map (λ fence, new_Patch2 fence memory_order_release read memory_order_acquire) relFences in
  let patches :=
    match acqFences, relFences with
    | [], [] => []
    | _, [] => applicable acq_only
    | [], _ => applicable rel_only
    | _, _ =>
        let both := applicable (concat (map (λ relFence, map (λ acqFence,
                      new_Patch2 relFence memory_order_release acqFence memory_order_acquire) acqFences) relFences)) in
        if bool_decide (both = []) then applicable acq_only ++ applicable rel_only else both
    end in
  if bool_decide (patches = []) then applicable [new_Patch2 read memory_order_acquire write memory_order_release]
  else patches.

Definition getAcqRel (dup : list (list ptr)) (read : ptr) (readBound : option ptr) (write : ptr) (writeBound : option ptr)
    : result (list Patch) :=
  r ← act_of s read;
  w ← act_of s write;
  readThrd ← at_index dup (a_tid r);
  writeThrd ← at_index dup (a_tid w);
  acqFences ← fences_until readBound (from_act read readThrd);
  relFences ← fences_until writeBound (from_act write (rev writeThrd));
  acqs ← acts_of acqFences;
  rels ← acts_of relFences;
  Ok (acq_rel_patches r w acqs rels).

(** [inferList->applyPatch(getCurInference(), patches)] *)
Definition fence_applyPatch (patches : list Patch) (inferList : list ptr) : fence (list ptr) :=
  cur ← getCurInference; on_set (λ st, applyPatches cur patches (st, inferList)).

(** The loop over the reads of a path that is not a release sequence; [prevRead] is set
    to NULL in each round. *)
Fixpoint sync_reads (dup : list (list ptr)) (begin end_ : ptr) (path : list ptr) (inferList : list ptr)
    : fence (list ptr * bool) :=
  match path with
  | [] => mret (inferList, true)
  | read :: path =>
      r ← fromf (act_of s read);
      write ← fromf (deref (a_reads_from r));
      let nextRead := head path in
      let readBound := Some end_ in
      let writeBound := match nextRead with Some n => Some n | None => Some begin end in
      patches ← fromf (getAcqRel dup read readBound write writeBound);
      if bool_decide (patches = []) then mret (inferList, false)
      else
        inferList ← fence_applyPatch patches inferList;
        sync_reads dup begin end_ path inferList
  end.

(** [imposeSync] along one path *)
Definition imposeSync_path (inferList : list ptr) (path : list ptr) (begin end_ : ptr) : fence (list ptr * bool) :=
  release_seq ← fromf (isReleaseSequence s path);
  x ← plugin;
  let dup := getDupThreadLists (sf_scgen x) in
  if (release_seq : bool) then
    front ← fromf (at_index path 0);
    f ← fromf (act_of s front);
    relHead ← fromf (deref (a_reads_from f));
    lastRead ← fromf (deref (last path));
    patches ← fromf (getAcqRel dup lastRead (Some end_) relHead (Some begin));
    if bool_decide (patches = []) then mret (inferList, false)
    else inferList ← fence_applyPatch patches inferList; mret (inferList, true)
  else sync_reads dup begin end_ path inferList.

(** [imposeSync] along each of several paths *)
Definition imposeSync (inferList : list ptr) (paths : list (list ptr)) (begin end_ : ptr) : fence (list ptr * bool) :=
  foldF (λ path '(inferList, res),
    '(cands, b) ← imposeSync_path [] path begin end_;
    mret ((append inferList (Some cands)).1, (res : bool) || b)) paths (inferList, false).

(** ** Imposing SC *)

(** The wildcard fences strictly between two actions of the order; the second is looked
    for from the first on, and if it is not there the search goes to the end. *)
Definition fences_between (actions : list ptr) (act1 act2 : ptr) : result (list ModelAction) :=
  match from_act act1 actions with
  | [] => Err OutOfBounds
  | p :: l =>
      if bool_decide (p = act2) then Err OutOfBounds
      else
        acts ← acts_of (take (find_index act2 l) l);
        Ok (filter (λ a, is_fence a = true ∧ is_wildcard (a_original_order a) = true) acts)
  end.

(** The pairs of fences that both can be SC; whether one of them is not yet. *)
Fixpoint fence_pairs (fences : list ModelAction) (acc : list Patch * bool) : fence (list Patch * bool) :=
  match fences with
  | [] => mret acc
  | fence1 :: fences =>
      acc ← foldF (λ fence2 '(patches, twoFences),
        let p := new_Patch2 fence1 memory_order_seq_cst fence2 memory_order_seq_cst in
        if isApplicable p then
          mo1 ← cur_order (get_wildcard_id (a_original_order fence1));
          mo2 ← cur_order (get_wildcard_id (a_original_order fence2));
          mret (patches ++ [p], (twoFences : bool) || bool_decide (mo1 ≠ memory_order_seq_cst) || bool_decide (mo2 ≠ memory_order_seq_cst))
        else mret (patches, twoFences)) fences acc;
      fence_pairs fences acc
  end.

Definition imposeSC (actions : list ptr) (inferList : list ptr) (act1 act2 : ptr) : fence (list ptr * bool) :=
  a1 ← fromf (act_of s act1);
  a2 ← fromf (act_of s act2);
  fences ← fromf (fences_between actions act1 act2);
  '(patches, twoFences) ← fence_pairs fences ([], false);
  let one_fence := concat (map (λ fence,
        applicable [new_Patch2 a1 memory_order_seq_cst fence memory_order_seq_cst;
                    new_Patch2 a2 memory_order_seq_cst fence memory_order_seq_cst]) fences) in
  let patches := if (twoFences : bool) then patches
                 else patches ++ one_fence ++ applicable [new_Patch2 a1 memory_order_seq_cst a2 memory_order_seq_cst] in
  if bool_decide (patches = []) then mret (inferList, false)
  else inferList ← fence_applyPatch patches inferList; mret (inferList, true).

(** ** Fixes for executions that are not SC *)

Definition rf_sb_paths (act1 act2 : ptr) : fence (list (list ptr)) :=
  x ← plugin; fromf (get_rf_sb_paths s (getDupThreadLists (sf_scgen x)) fuel act1 act2).

(** Make one action happen before another if there are paths, and otherwise SC before it. *)
Definition impose_order (list : list ptr) (inferList : Datatypes.list ptr) (act1 act2 : ptr) : fence (Datatypes.list ptr * bool) :=
  paths ← rf_sb_paths act1 act2;
  if bool_decide (paths = []) then '(l, _) ← imposeSC list inferList act1 act2; mret (l, true)
  else '(l, _) ← imposeSync inferList paths act1 act2; mret (l, false).

(** One write between the write and the read that reads from it. *)
Definition pattern_a_write2 (list : list ptr) (read write : ptr) (write2 : ptr) (candidates : Datatypes.list ptr)
    : fence (Datatypes.list ptr) :=
  r ← fromf (act_of s read);
  w ← fromf (act_of s write);
  w2 ← fromf (act_of s write2);
  '(tmpCandidates, isWritesMO) ←
    (if negb (checkReachable (x_mo_graph s) (OAct write) (OAct write2)) then
       '(l, _) ← impose_order list [] write write2; mret (l, false)
     else h ← fromf (happens_before w w2); mret ([], negb h));
  h ← fromf (happens_before w2 r);
  tmpCandidates ←
    (if negb h then
       '(l, sc) ← impose_order list tmpCandidates write2 read;
       if (sc : bool) && (isWritesMO : bool) then '(l, _) ← impose_order list l write write2; mret l else mret l
     else mret tmpCandidates);
  mret (append candidates (Some tmpCandidates)).1.

(** [getFixesFromPatternA]; [between] are the actions between the write and the read in
    the order, of which there has to be one. *)
Definition getFixesFromPatternA (list : list ptr) (read write : ptr) (between : Datatypes.list ptr) : fence (Datatypes.list ptr) :=
  w ← fromf (act_of s write);
  match between with
  | [] => fromf (Err OutOfBounds)
  | _ =>
      write2s ← fromf (foldM (λ p acc, a ← act_of s p;
                  Ok (if is_write a && (a_location a =? a_location w)%N then acc ++ [p] else acc)) between []);
      foldF (pattern_a_write2 list read write) write2s []
  end.

Definition getFixesFromPatternB (read write : ptr) : fence (list ptr) :=
  paths1 ← rf_sb_paths read write;
  '(res, _) ← (if bool_decide (paths1 = []) then mret ([], false) else imposeSync [] paths1 read write);
  paths2 ← rf_sb_paths write read;
  '(candidates, _) ← imposeSync [] paths2 write read;
  mret (append res (Some candidates)).1.

(** The loop over the order, of which [pre] has been passed. *)
Fixpoint non_sc_loop (list pre rest : list ptr) : fence bool :=
  match rest with
  | [] => mret false
  | act :: rest' =>
      a ← fromf (act_of s act);
      x ← plugin;
      if (0 <? a_seq_number a)%N && bool_decide (is_Some (getBadrfset (sf_scgen x) !! act))
         && negb (bool_decide (act ∈ getAnnotatedReadSet (sf_scgen x))) then
        write ← fromf (deref (a_reads_from a));
        candidates ←
          (if bool_decide (write ∈ pre) then getFixesFromPatternA list act write (drop 1 (from_act write pre))
           else if bool_decide (write ∈ list) then getFixesFromPatternB act write
           else fromf (Err OutOfBounds));
        fence_addCandidates (Some candidates)
      else non_sc_loop list (pre ++ [act]) rest'
  end.
Definition addFixesNonSC (list : list ptr) : fence bool := non_sc_loop list [] list.

(** ** Fixes for uninitialized reads *)

(** The inner loop; the list of candidates is deleted when it has been added, and
    appending to it again is undefined. *)
Fixpoint uninit_writes (uninitRead : ptr) (u : ModelAction) (list : list ptr) (candidates : option (Datatypes.list ptr))
    : fence (option (Datatypes.list ptr) * bool) :=
  match list with
  | [] => mret (candidates, false)
  | write :: list =>
      w ← fromf (act_of s write);
      if negb (same_var w u) then uninit_writes uninitRead u list candidates
      else
        paths1 ← rf_sb_paths write uninitRead;
        if bool_decide (paths1 = []) then uninit_writes uninitRead u list candidates
        else
          l ← fromf (deref candidates);
          '(l, _) ← imposeSync l paths1 write uninitRead;
          added ← fence_addCandidates (Some l);
          if (added : bool) then mret (None, true) else uninit_writes uninitRead u list None
  end.

Fixpoint buggy_loop (list : list ptr) (rest : Datatypes.list ptr) (candidates : option (Datatypes.list ptr)) : fence bool :=
  match rest with
  | [] => mret false
  | uninitRead :: rest =>
      u ← fromf (act_of s uninitRead);
      if negb (0 <? a_seq_number u)%N || negb (is_read u) then buggy_loop list rest candidates
      else
        rf ← fromf (deref (a_reads_from u));
        w ← fromf (act_of s rf);
        if negb (is_uninitialized w) then buggy_loop list rest candidates
        else
          '(candidates, added) ← uninit_writes uninitRead u list candidates;
          if (added : bool) then mret true else buggy_loop list rest candidates
  end.
Definition addFixesBuggyExecution (list : list ptr) : fence bool := buggy_loop list (rev list) (Some []).

(** ** Fixes for implicit modification orders *)

(** The reads of a location. *)
Definition count_reads (loc : N) (l : list ptr) : result nat :=
  foldM (λ p n, a ← act_of s p; Ok (if is_read a && (a_location a =? loc)%N then S n else n)) l 0.

(** The search backwards for the previous write to the location of [write2], with the
    actions passed on the way. *)
Fixpoint previous_write (w2 : ModelAction) (l passed : list ptr) : result (option (ptr * list ptr)) :=
  match l with
  | [] => Ok None
  | write1 :: l =>
      w1 ← act_of s write1;
      if is_write w1 && (a_location w1 =? a_location w2)%N then Ok (Some (write1, passed))
      else previous_write w2 l (passed ++ [write1])
  end.

Fixpoint implicit_loop (rest : list ptr) (candidates : option (list ptr)) : fence bool :=
  match rest with
  | [] => mret false
  | write2 :: rest =>
      w2 ← fromf (act_of s write2);
      if negb (is_write w2) then implicit_loop rest candidates
      else
        p ← fromf (previous_write w2 rest []);
        match p with
        | None => implicit_loop rest candidates
        | Some (write1, passed) =>
            readCnt ← fromf (count_reads (a_location w2) passed);
            x ← plugin;
            if negb (fp_implicitMOReadBound (sf_priv x) <? Z.of_nat readCnt)%Z
               || checkReachable (x_mo_graph s) (OAct write1) (OAct write2) then implicit_loop rest candidates
            else
              paths1 ← rf_sb_paths write1 write2;
              if bool_decide (paths1 = []) then implicit_loop rest candidates
              else
                l ← fromf (deref candidates);
                '(l, _) ← imposeSync l paths1 write1 write2;
                added ← fence_addCandidates (Some l);
                if (added : bool) then mret true else implicit_loop rest None
        end
  end.
Definition addFixesImplicitMO (list : list ptr) : fence bool := implicit_loop (rev list) (Some []).

(** ** Fixes for data races *)

(** The variable that the results of [addCandidates] go to is not the one returned. *)
Definition addFixesDataRace (list : list ptr) : fence bool :=
  race ← fromf (checkDataRace s list);
  match race with
  | None => mret false
  | Some (act1, act2) =>
      x ← plugin;
      let dup := getDupThreadLists (sf_scgen x) in
      n1 ← fromf (sbNextAction s dup act1);
      p2 ← fromf (sbPrevAction s dup act2);
      paths1 ← rf_sb_paths n1 p2;
      n2 ← fromf (sbNextAction s dup act2);
      p1 ← fromf (sbPrevAction s dup act1);
      paths2 ← rf_sb_paths n2 p1;
      (if bool_decide (paths1 = []) then mret tt
       else
         '(candidates1, _) ← imposeSync [] paths1 act1 act2;
         fence_addCandidates (Some candidates1) ;;
         if bool_decide (paths2 = []) then mret tt
         else
           '(candidates2, _) ← imposeSync [] paths2 act2 act1;
           fence_addCandidates (Some candidates2) ;; mret tt) ;;
      mret false
  end.

Definition addFixes (list : list ptr) (type : fix_type_t) : fence bool :=
  c ← curInfer;
  if negb (i_shouldFix c) then mret false
  else
    added ← match type with
            | BUGGY_EXECUTION => addFixesBuggyExecution list
            | IMPLICIT_MO => addFixesImplicitMO list
            | NON_SC => addFixesNonSC list
            | DATA_RACE => addFixesDataRace list
            end;
    buggy ← isBuggy;
    (if (added : bool) && (buggy : bool) then fence_setHasFixes true else mret tt) ;;
    mret added.

(** ** The analysis of an execution *)

Context (params : model_params) (thread_of_addr : N → option thread_id_t).

Definition add_stats (a b : sc_statistics) : sc_statistics :=
  mkSCStatistics (sc_sccount a + sc_sccount b) (sc_nonsccount a + sc_nonsccount b) (sc_actions a + sc_actions b).

Definition fence_analyze (now : Z) (actions : list ptr) : fence unit :=
  x ← plugin;
  timed_out ← (if (0 <? fp_timeout (sf_priv x))%Z then isTimeout now else mret false);
  if (timed_out : bool) then routineBacktrack false ;; mret tt
  else
    (if have_bug_reports s then fence_setBuggy true else mret tt) ;;
    list ← on_scgen (getSCList s thread_of_addr fuel actions);
    x ← plugin;
    let cyclic := getCyclic (sf_scgen x) in
    setf (put_fence_stats (add_stats (sf_stats x) (getStats (sf_scgen x)))) ;;
    if cyclic then
      added ← addFixes list NON_SC;
      if (added : bool) then routineAfterAddFixes else routineBacktrack false ;; mret tt
    else
      stuck ← (if fp_inferImplicitMO (sf_priv x) && too_many_steps params s
               then r ← fromf (is_complete_execution params s); mret (negb r.2) else mret false);
      added ← addFixes list (if (stuck : bool) then IMPLICIT_MO else DATA_RACE);
      if (added : bool) then routineAfterAddFixes else mret tt.
End fixes.
