(* ===== verification/FenceSearch.v ===== *)
(** * The invariant of the search for inferences (scfence/scfence.cc)

    The objects that the plugin searches are shared, grow, and are deleted when they turn
    out to be superfluous. This file shows that the pointers stay valid: no hook of the
    plugin leaves a pointer to a deleted inference behind, every inference remains at
    least as strong as the one the search started it from, and the routine that chooses
    the next inference never fails. *)

From S2P Require Import Prelude ClockVector Action HashTable Promise CycleGraph NodeStack Schedule DataRace ExecState ModOrder Step Evolution Scenarios Librace Interface Model Litmus SCAnalysis SCGen Inference InferSet FencePaths SCFence.

(** ** Strength of inferences *)

(** [y] is at least as strong as [z], where an unset order counts as relaxed. *)
Definition at_least (z y : Inference) : Prop := ∀ w, nonexist_relaxed (order z w) ⊑ nonexist_relaxed (order y w).

#[global] Instance at_least_preorder : PreOrder at_least.
Proof. split; [intros x w; reflexivity|]. intros x y z H1 H2 w. etrans; [apply H1|apply H2]. Qed.

Lemma nonexist_relaxed_mono a b :
  is_entry a = true → is_entry b = true → a ⊑ b → nonexist_relaxed a ⊑ nonexist_relaxed b.
Proof. intros Ha Hb. entry_cases a Ha; entry_cases b Hb; decide_goal. Qed.

Lemma at_least_le z y : wf_Inference z → wf_Inference y → z ⊑ y → at_least z y.
Proof. intros Wz Wy H w. apply nonexist_relaxed_mono; [by apply order_entry..|apply H]. Qed.

Lemma at_least_orders z z' y y' : (∀ w, order z' w = order z w) → (∀ w, order y' w = order y w) → at_least z y → at_least z' y'.
Proof. intros Ez Ey H w. by rewrite Ez, Ey. Qed.

(** The same inference but for orders and size. *)
Definition same_but_orders (x x' : Inference) : Prop := x' = set_orders (i_orders x') (i_size x') x.
Lemma same_but_orders_init x x' : same_but_orders x x' → i_initialInfer x' = i_initialInfer x.
Proof. by intros ->. Qed.
#[global] Instance same_but_orders_preorder : PreOrder same_but_orders.
Proof. split; [by intros []|]. unfold same_but_orders. intros x y z -> ->. done. Qed.

(** Imposing an order, if it does not fail, only makes an inference stronger. *)
Lemma strengthen_grows act mo this this' r :
  wf_Inference this → is_order mo = true → strengthen act mo this = Ok (this', r) →
  wf_Inference this' ∧ same_but_orders this this' ∧ at_least this this'.
Proof.
  intros Wf Ho H. destruct (is_wildcard (a_original_order act)) eqn:Ew.
  2: { unfold strengthen in H. rewrite Ew in H. injection H as <- _. by split_and!. }
  destruct (decide (get_wildcard_id_zero (a_original_order act) ≤ MAX_WILDCARD_NUM)%Z) as [Hb|Hb].
  - destruct (strengthen_least act mo this Wf (conj Ew Hb) Ho) as (t & r' & E & W & S & Hv & Hlub & _).
    assert (t = this') as -> by congruence. split_and!; [done..|]. apply at_least_le; [done..|]. intros v.
    destruct (decide (v = wildcard_of act)) as [->|Hne]; [|by rewrite Hv].
    by apply (Hlub (order this' (wildcard_of act))); [apply order_entry|].
  - exfalso. unfold strengthen in H. rewrite Ew in H. cbn [negb] in H. destruct (wf_size _ Wf) as [_ Hs].
    rewrite (proj2 (Z.ltb_lt _ _)) in H by lia. unfold resize in H.
    rewrite (proj2 (Z.leb_gt _ _)) in H by lia. by rewrite andb_false_r in H.
Qed.

Lemma applyPatch1_grows p this this' b :
  wf_Inference this → Forall (λ u, is_order (pu_mo u) = true) p → applyPatch1 this p = Ok (this', b) →
  wf_Inference this' ∧ same_but_orders this this' ∧ at_least this this'.
Proof.
  rewrite applyPatch1_step. intros Wf Hp (((t & u) & br) & H & [= <- <-])%bind_Ok.
  apply (foldM_inv (λ st : Inference * bool * bool, wf_Inference st.1.1 ∧ same_but_orders this st.1.1 ∧ at_least this st.1.1)) in H; [done|by split_and!|].
  intros q [[x1 u1] br1] [[x2 u2] br2] Hq (W & S & L) H1. simpl in *. destruct br1; [by injection H1 as <- _ _|].
  apply bind_Ok in H1 as ([x3 [c h]] & H1 & [= <- _ _]). unfold strengthen_flags in H1.
  apply bind_Ok in H1 as ([x3' r] & H1 & [= <- _ _]). apply strengthen_grows in H1 as (W' & S' & L'); [|done|].
  - split_and!; [done|by etrans..].
  - exact (proj1 (Forall_forall _ _) Hp q Hq).
Qed.

(** ** The invariant *)

Definition listed (st : InferState) : list ptr := is_discoveredSet st ++ is_results st ++ is_candidates st.

(** All listed inferences are live; addresses handed out are new; every inference has an
    initial inference, which is its own, and is at least as strong as that. *)
Record search_ok (st : InferState) : Prop := {
  so_listed : ∀ p, p ∈ listed st → is_Some (is_infers st !! p);
  so_fresh : ∀ p, is_Some (is_infers st !! p) → (p < is_next st)%positive;
  so_wf : ∀ p y, is_infers st !! p = Some y → wf_Inference y;
  so_init : ∀ p y, is_infers st !! p = Some y →
    ∃ z, is_infers st !! i_initialInfer y = Some z ∧ i_initialInfer z = i_initialInfer y ∧ at_least z y
}.

(** With a live current inference [cur] and candidates [l] that are only known to the
    routine that made them from it. *)
Record working (cur : ptr) (st : InferState) (l : list ptr) : Prop := {
  wk_ok : search_ok st;
  wk_nodup : NoDup l;
  wk_cur : cur ∉ l;
  wk_heap : ∃ c, is_infers st !! cur = Some c ∧
    ∀ p, p ∈ l → ∃ y, is_infers st !! p = Some y ∧ i_initialInfer y = i_initialInfer c ∧ i_initialInfer y ≠ p;
  wk_listed : ∀ p, p ∈ l → p ∉ listed st
}.

Lemma search_ok_live st p : search_ok st → live st p ↔ is_Some (is_infers st !! p).
Proof. intros H. split; [intros (y & Hy & _); by exists y|]. intros [y Hy]. exists y. split; [done|by eapply so_wf]. Qed.

Lemma search_ok_set st : search_ok st → wf_set False st.
Proof.
  intros H. split; [| | |done]; apply Forall_forall; intros p Hp; apply search_ok_live, so_listed; unfold listed; set_solver.
Qed.

(** Changes of the heap that keep it. *)
Definition same_strength (y y' : Inference) : Prop := ∀ w, nonexist_relaxed (order y' w) = nonexist_relaxed (order y w).

Lemma search_ok_upd st p y y' :
  search_ok st → is_infers st !! p = Some y → i_initialInfer y' = i_initialInfer y → wf_Inference y' → same_strength y y' →
  search_ok (put_infers (<[p := y']> (is_infers st)) st).
Proof.
  intros [H1 H2 H3 H4] Hp Hi Hw Hs.
  assert (∀ q, is_Some (<[p := y']> (is_infers st) !! q) ↔ is_Some (is_infers st !! q)) as Hdom.
  { intros q. destruct (decide (q = p)) as [->|]; [rewrite lookup_insert_eq, Hp; by split; eexists|by rewrite lookup_insert_ne]. }
  split; simpl.
  - intros q Hq. by apply Hdom, H1.
  - intros q Hq. by apply H2, Hdom.
  - intros q z. rewrite lookup_insert_Some. naive_solver.
  - assert (∀ q y0, is_infers st !! q = Some y0 → ∃ y1, <[p := y']> (is_infers st) !! q = Some y1 ∧ i_initialInfer y1 = i_initialInfer y0 ∧ same_strength y0 y1) as Hup.
    { intros q y0 Hq. destruct (decide (q = p)) as [->|]; [rewrite lookup_insert_eq; exists y'; naive_solver|].
      rewrite lookup_insert_ne by done. by exists y0. }
    assert (∀ q y1, <[p := y']> (is_infers st) !! q = Some y1 → ∃ y0, is_infers st !! q = Some y0 ∧ i_initialInfer y1 = i_initialInfer y0 ∧ same_strength y0 y1) as Hdown.
    { intros q y1. rewrite lookup_insert_Some. intros [[<- <-]|[? ?]]; [by exists y|by exists y1]. }
    intros q y1 (y0 & Hq & E & S)%Hdown. destruct (H4 q y0 Hq) as (z & Hz & Ez & Lz). destruct (Hup _ _ Hz) as (z1 & Hz1 & Ez1 & Sz).
    exists z1. rewrite E. split_and!; [done|congruence|]. intros w. rewrite Sz, S. apply Lz.
Qed.

Lemma search_ok_new st y :
  search_ok st → wf_Inference y →
  (∃ z, is_infers (new_infer y st).1 !! i_initialInfer y = Some z ∧ i_initialInfer z = i_initialInfer y ∧ at_least z y) →
  search_ok (new_infer y st).1 ∧ (new_infer y st).2 = is_next st ∧ is_infers st !! is_next st = None.
Proof.
  intros [H1 H2 H3 H4] Hw Hi.
  assert (is_infers st !! is_next st = None) as Hnone.
  { destruct (is_infers st !! is_next st) eqn:E; [|done]. assert (is_next st < is_next st)%positive by (apply H2; by eexists). lia. }
  assert (∀ q, is_Some (is_infers st !! q) → <[is_next st := y]> (is_infers st) !! q = is_infers st !! q) as Hold.
  { intros q [z Hz]. apply lookup_insert_ne. intros <-. congruence. }
  split_and!; [|done..]. split; simpl in *.
  - intros q Hq. specialize (H1 q Hq). by rewrite Hold.
  - intros q [z [[<- _]|[_ Hz]]%lookup_insert_Some]; [lia|]. assert (q < is_next st)%positive by (apply H2; by eexists). lia.
  - intros q z [[_ <-]|[_ Hz]]%lookup_insert_Some; [done|by eapply H3].
  - intros q z [[_ <-]|[_ Hz]]%lookup_insert_Some; [done|]. destruct (H4 q z Hz) as (z0 & Hz0 & ? & ?).
    exists z0. rewrite Hold by by eexists. done.
Qed.

Lemma search_ok_delete st p y :
  search_ok st → is_infers st !! p = Some y → i_initialInfer y ≠ p → p ∉ listed st →
  search_ok (put_infers (delete p (is_infers st)) st).
Proof.
  intros [H1 H2 H3 H4] Hp Hi Hl. split; simpl.
  - intros q Hq. rewrite lookup_delete_ne; [by apply H1|]. by intros ->.
  - intros q [z [_ Hz]%lookup_delete_Some]. apply H2. by eexists.
  - intros q z [_ Hz]%lookup_delete_Some. by eapply H3.
  - intros q z [Hne Hz]%lookup_delete_Some. destruct (H4 q z Hz) as (z0 & Hz0 & E & L). exists z0. split; [|done].
    rewrite lookup_delete_ne; [done|]. intros Heq. rewrite <- Heq in Hz0, E. congruence.
Qed.

(** Only the lists change. *)
Lemma search_ok_lists st st' :
  search_ok st → is_infers st' = is_infers st → is_next st' = is_next st → (∀ p, p ∈ listed st' → is_Some (is_infers st !! p)) →
  search_ok st'.
Proof. intros [H1 H2 H3 H4] E En Hl. split; rewrite ?E, ?En; done. Qed.

(** ** Working on candidates *)

Lemma working_perm cur st l l' : l ≡ₚ l' → working cur st l → working cur st l'.
Proof.
  intros Hp [H1 H2 H3 (c & Hc & H4) H5]. split; [done|by rewrite <- Hp|by rewrite <- Hp| |].
  - exists c. split; [done|]. intros p Hin. apply H4. by rewrite Hp.
  - intros p Hin. apply H5. by rewrite Hp.
Qed.

Lemma working_sub cur st l l' : l `sublist_of` l' → working cur st l' → working cur st l.
Proof.
  intros Hs [H1 H2 H3 (c & Hc & H4) H5].
  assert (∀ p, p ∈ l → p ∈ l') as Hin by (intros p Hp; by eapply elem_of_sublist).
  split; [done|by eapply sublist_NoDup|by intros ?%Hin| |].
  - exists c. split; [done|]. intros p Hp. by apply H4, Hin.
  - intros p Hp. by apply H5, Hin.
Qed.

(** The current inference and the candidates come from the same initial inference. *)
Lemma working_source cur st l p x :
  working cur st l → p = cur ∨ p ∈ l → is_infers st !! p = Some x →
  ∃ c, is_infers st !! cur = Some c ∧ i_initialInfer x = i_initialInfer c.
Proof.
  intros [_ _ _ (c & Hc & H4) _] [->|Hp] Hx; exists c; (split; [done|]); [congruence|].
  destruct (H4 p Hp) as (y & Hy & E & _). congruence.
Qed.

Lemma working_new cur st l p x y :
  working cur st l → p = cur ∨ p ∈ l → is_infers st !! p = Some x →
  wf_Inference y → i_initialInfer y = i_initialInfer x →
  (∀ z, is_infers st !! i_initialInfer x = Some z → at_least z x → at_least z y) →
  working cur (new_infer y st).1 (l ++ [(new_infer y st).2]).
Proof.
  intros Hwk Hp Hx Wy Ey Ly. destruct (working_source _ _ _ _ _ Hwk Hp Hx) as (c & Hc & Ec).
  pose proof Hwk as [H1 H2 H3 (c' & Hc' & H4) H5]. assert (c' = c) as -> by congruence. clear Hc'.
  destruct (so_init _ H1 p x Hx) as (z & Hz & Ez & Lz).
  assert (is_infers st !! is_next st = None) as Hnone.
  { destruct (is_infers st !! is_next st) eqn:E; [|done].
    assert (is_next st < is_next st)%positive by (apply (so_fresh _ H1); by eexists). lia. }
  assert (∀ q y0, is_infers st !! q = Some y0 → <[is_next st := y]> (is_infers st) !! q = Some y0 ∧ q ≠ is_next st) as Hold.
  { intros q y0 Hq. assert (q ≠ is_next st) by congruence. by rewrite lookup_insert_ne. }
  assert (∀ q, q ∈ l → q ≠ is_next st) as Hne.
  { intros q Hq. destruct (H4 q Hq) as (y0 & Hy0 & _). by eapply Hold. }
  destruct (search_ok_new st y H1 Wy) as (H1' & _ & _).
  { exists z. rewrite Ey. split; [by apply Hold|]. split; [done|by apply Ly]. }
  simpl in *. split; [done| | | |].
  - apply NoDup_app. split_and!; [done| |apply NoDup_singleton]. intros q Hq ->%list_elem_of_singleton. by apply (Hne _ Hq).
  - rewrite not_elem_of_app, list_elem_of_singleton. split; [done|]. by eapply Hold.
  - exists c. split; [by apply Hold|]. intros q [Hq|Hq%list_elem_of_singleton]%elem_of_app.
    + destruct (H4 q Hq) as (y0 & Hy0 & ? & ?). exists y0. split; [by apply Hold|done].
    + subst q. exists y. simpl. rewrite lookup_insert_eq. split_and!; [done|congruence|]. rewrite Ey. by eapply Hold.
  - intros q [Hq|Hq%list_elem_of_singleton]%elem_of_app; [by apply H5|]. subst q. intros Hl.
    apply (so_listed _ H1) in Hl as [? ?]. congruence.
Qed.

Lemma working_delete cur st st' l p : working cur st (p :: l) → delete_infer p st = Ok st' → working cur st' l.
Proof.
  intros [H1 [Hp H2]%NoDup_cons H3 (c & Hc & H4) H5] H. apply not_elem_of_cons in H3 as [Hcp H3].
  destruct (H4 p) as (y & Hy & _ & Hi); [by left|]. unfold delete_infer, infer_at in H. rewrite Hy in H. injection H as <-.
  split; [apply (search_ok_delete st p y); [done..|apply H5; by left]|done|done| |].
  - exists c. simpl. rewrite lookup_delete_ne by done. split; [done|]. intros q Hq. destruct (H4 q) as (y' & Hy' & ?); [by right|].
    exists y'. rewrite lookup_delete_ne; [done|]. by intros ->.
  - intros q Hq. apply H5. by right.
Qed.

Lemma working_delete_all cur l base : ∀ st st', working cur st (base ++ l) → foldM delete_infer l st = Ok st' → working cur st' base.
Proof.
  induction l as [|p l IH]; intros st st' Hw; simpl; [intros [= <-]; by rewrite app_nil_r in Hw|].
  intros (st1 & H1 & H2)%bind_Ok. eapply IH; [|exact H2]. eapply working_delete; [|exact H1].
  eapply working_perm; [|exact Hw]. by rewrite Permutation_middle.
Qed.

(** Patches that require one of the five orders. *)
Definition orders_of (patch : Patch) : Prop := Forall (λ u, is_order (pu_mo u) = true) patch.

Lemma patched_copy_working cur base p patch st l st' l' :
  orders_of patch → working cur st (base ++ l) → p = cur ∨ p ∈ base ++ l →
  patched_copy p patch (st, l) = Ok (st', l') → working cur st' (base ++ l').
Proof.
  intros Ho Hw Hp H. unfold patched_copy in H. apply bind_Ok in H as (x & Hx%infer_at_Ok & H).
  pose proof (so_wf _ (wk_ok _ _ _ Hw) _ _ Hx) as Wx. rewrite (copy_Inference_spec x Wx) in H. simpl in H.
  apply bind_Ok in H as ([y b] & Hy & H). apply applyPatch1_grows in Hy as (Wy & Sy & Ly); [| |done].
  2: { destruct Wx as [W1 W2 W3]. by split. }
  destruct b; [|by injection H as <- <-]. injection H as <- <-. rewrite (assoc_L (++)).
  eapply (working_new cur st (base ++ l) p x y); [done..| |].
  - apply same_but_orders_init in Sy. by rewrite Sy.
  - intros z _ Lz. by etrans.
Qed.

Lemma patched_copies_working cur base p patches : ∀ st l st' l',
  Forall orders_of patches → working cur st (base ++ l) → p = cur ∨ p ∈ base →
  foldM (patched_copy p) patches (st, l) = Ok (st', l') → working cur st' (base ++ l').
Proof.
  induction patches as [|patch patches IH]; intros st l st' l' Ho Hw Hp; simpl; [by intros [= <- <-]|].
  apply Forall_cons in Ho as [Ho Hos]. intros ([st1 l1] & H1 & H2)%bind_Ok. eapply IH; [done| |exact Hp|exact H2].
  eapply (patched_copy_working cur base p patch); [done..| |exact H1]. set_solver.
Qed.

Lemma applyPatches_working cur base patches st l st' l' :
  Forall orders_of patches → working cur st (base ++ l) → applyPatches cur patches (st, l) = Ok (st', l') →
  working cur st' (base ++ l').
Proof.
  intros Ho Hw H. unfold applyPatches in H. case_bool_decide as El.
  { subst l. rewrite app_nil_r in Hw. eapply (patched_copies_working cur base cur); [done| |by left|exact H]. by rewrite app_nil_r. }
  apply bind_Ok in H as ([st1 new] & H1 & H). apply bind_Ok in H as (st2 & H2 & [= <- <-]).
  assert (working cur st1 ((base ++ l) ++ new)) as Hw1.
  { apply (foldM_inv (λ s : InferState * list ptr, working cur s.1 ((base ++ l) ++ s.2))) in H1; [done| |].
    - simpl. by rewrite app_nil_r.
    - intros p [s1 n1] [s2 n2] Hp Hs H3. simpl in *. eapply (patched_copies_working cur (base ++ l) p patches); [done..| |exact H3]. set_solver. }
  eapply (working_delete_all cur l (base ++ new)); [|exact H2]. eapply working_perm; [|exact Hw1].
  rewrite <- !(assoc_L (++)). by rewrite (Permutation_app_comm l new).
Qed.

(** ** The operations of the set *)

(** Updates that only concern flags. *)
Definition flag_update (f : Inference → Inference) : Prop :=
  ∀ x, i_orders (f x) = i_orders x ∧ i_size (f x) = i_size x ∧ i_initialInfer (f x) = i_initialInfer x.

Lemma infer_flag_wf f x : flag_update f → wf_Inference x → wf_Inference (f x) ∧ same_strength x (f x).
Proof.
  intros Hf [W1 W2 W3]. destruct (Hf x) as (E1 & E2 & _). split; [split; rewrite ?E1, ?E2; done|].
  intros w. unfold order. by rewrite E1.
Qed.

(** An update of one inference that leaves its strength alone. *)
Lemma working_upd cur st l p y y' :
  working cur st l → is_infers st !! p = Some y → i_initialInfer y' = i_initialInfer y → wf_Inference y' → same_strength y y' →
  working cur (put_infers (<[p := y']> (is_infers st)) st) l.
Proof.
  intros [H1 H2 H3 (c & Hc & H4) H5] Hy Hi Hw Hs. split; [by eapply search_ok_upd|done|done| |done].
  assert (∀ q z, is_infers st !! q = Some z → ∃ z', <[p := y']> (is_infers st) !! q = Some z' ∧ i_initialInfer z' = i_initialInfer z) as Hup.
  { intros q z Hq. destruct (decide (q = p)) as [->|]; [rewrite lookup_insert_eq; exists y'; naive_solver|].
    rewrite lookup_insert_ne by done. by exists z. }
  destruct (Hup _ _ Hc) as (c' & Hc' & Ec). exists c'. split; [done|]. intros q Hq.
  destruct (H4 q Hq) as (z & Hz & E & Hne). destruct (Hup _ _ Hz) as (z' & Hz' & Ez). exists z'. split; [done|]. by rewrite Ez, Ec.
Qed.

Lemma working_flag cur st st' l p f :
  working cur st l → flag_update f → upd_infer p f st = Ok st' → working cur st' l.
Proof.
  intros Hw Hf H. unfold upd_infer in H. apply bind_Ok in H as (x & Hx%infer_at_Ok & [= <-]).
  destruct (infer_flag_wf f x Hf) as [Wx Sx]; [by eapply so_wf, Hx; eapply wk_ok|].
  eapply working_upd; [done|done|apply Hf|done|done].
Qed.

(** Only lists change; what is new in them is live and not one of the candidates. *)
Lemma working_lists cur st st' l :
  working cur st l → is_infers st' = is_infers st → is_next st' = is_next st →
  (∀ p, p ∈ listed st' → p ∈ listed st ∨ (is_Some (is_infers st !! p) ∧ p ∉ l)) → working cur st' l.
Proof.
  intros [H1 H2 H3 H4 H5] E En Hl. split; [|done..|by rewrite E|].
  - eapply search_ok_lists; [done..|]. intros p [Hp|[Hp _]]%Hl; [by apply so_listed|done].
  - intros p Hp [?|[_ ?]]%Hl; [by apply (H5 p)|done].
Qed.

Lemma drop_stronger_working cur cand l : ∀ base st kept st' kept',
  working cur st (base ++ kept ++ l) →
  foldM (λ addedInfer '(st, kept),
      compVal ← compare_at addedInfer cand st;
      if (compVal =? 0)%Z || (compVal =? 1)%Z then st ← delete_infer addedInfer st; Ok (st, kept)
      else Ok (st, kept ++ [addedInfer])) l (st, kept) = Ok (st', kept') → working cur st' (base ++ kept').
Proof.
  induction l as [|p l IH]; intros base st kept st' kept' Hw; simpl; [intros [= <- <-]; by rewrite app_nil_r in Hw|].
  intros ([st1 k1] & H1 & H2)%bind_Ok. eapply IH; [|exact H2]. apply bind_Ok in H1 as (z & _ & H1). case_match.
  - apply bind_Ok in H1 as (st2 & H1 & [= <- <-]). eapply working_delete; [|exact H1]. eapply working_perm; [|exact Hw].
    by rewrite <- !Permutation_middle.
  - injection H1 as <- <-. by rewrite <- (assoc_L (++) kept).
Qed.

Lemma pruneCandidates_working cur l st st' kept :
  working cur st l → pruneCandidates cur l st = Ok (st', kept) → working cur st' kept.
Proof.
  unfold pruneCandidates. intros Hw.
  assert (∀ l st new st' kept, working cur st (new ++ l) →
    foldM (λ cand '(st, newCandidates),
      compVal ← compare_at cand cur st;
      if (compVal =? 0)%Z then st ← delete_infer cand st; Ok (st, newCandidates)
      else '(st, kept) ← drop_stronger cand newCandidates st; Ok (st, kept ++ [cand])) l (st, new) = Ok (st', kept) →
    working cur st' kept) as Hloop; [|by apply Hloop].
  clear. induction l as [|p l IH]; intros st new st' kept Hw; simpl; [intros [= <- <-]; by rewrite app_nil_r in Hw|].
  intros ([st1 k1] & H1 & H2)%bind_Ok. eapply IH; [|exact H2]. apply bind_Ok in H1 as (z & _ & H1). case_match.
  - apply bind_Ok in H1 as (st2 & H1 & [= <- <-]). eapply working_delete; [|exact H1]. eapply working_perm; [|exact Hw].
    by rewrite Permutation_middle.
  - apply bind_Ok in H1 as ([st2 k2] & H1 & [= <- <-]). unfold drop_stronger in H1.
    apply (drop_stronger_working cur p new (p :: l)) in H1.
    + eapply working_perm; [|exact H1]. rewrite <- (assoc_L (++)). simpl. by rewrite <- Permutation_middle, (Permutation_app_comm l).
    + simpl. eapply working_perm; [|exact Hw]. by rewrite (Permutation_app_comm new).
Qed.

Lemma addInference_working cur st st' l p b : working cur st (p :: l) → addInference p st = Ok (st', b) → working cur st' l.
Proof.
  intros Hw H. unfold addInference in H. apply bind_Ok in H as (d & _ & H).
  assert (working cur st l) as Hl by (eapply working_sub, Hw; by apply sublist_cons).
  destruct d. { injection H as <- _. eapply working_lists; [exact Hl|done..|]. intros q Hq. by left. }
  apply bind_Ok in H as (st1 & H1 & [= <- _]). apply (working_flag cur _ _ (p :: l)) in H1 as Hw1; [|done..].
  assert (is_Some (is_infers st1 !! p)) as Hp.
  { destruct (wk_heap _ _ _ Hw1) as (c & _ & Hh). destruct (Hh p) as (y & Hy & _); [by left|]. by eexists. }
  pose proof (wk_nodup _ _ _ Hw1) as [Hpl _]%NoDup_cons.
  eapply working_lists; [eapply working_sub, Hw1; by apply sublist_cons|done..|].
  intros q. unfold listed. simpl. rewrite !elem_of_app, !list_elem_of_singleton.
  destruct (decide (q = p)) as [->|Hq]; [by right|]. intros H. left. naive_solver.
Qed.

Lemma addCandidates_working cur st st' l b :
  working cur st l → addCandidates cur (Some l) st = Ok (st', b) → working cur st' [].
Proof.
  intros Hw H. unfold addCandidates in H. apply bind_Ok in H as ([st1 kept] & H1%(pruneCandidates_working _ _ _ _ _ Hw) & H).
  clear Hw. apply bind_Ok in H as (st2 & H2 & H). unfold addCurInference in H2. apply bind_Ok in H2 as (st2' & H2 & [= <-]).
  apply (working_flag cur _ _ kept) in H2; [|done..].
  assert (working cur (put_candidates (is_candidates st2' ++ [cur]) st2') kept) as Hw.
  { eapply working_lists; [exact H2|done..|]. intros q. unfold listed. simpl. rewrite !elem_of_app, !list_elem_of_singleton.
    intros Hq. destruct (decide (q = cur)) as [->|]; [|left; naive_solver]. right. split; [|apply H2].
    destruct (wk_heap _ _ _ H2) as (c & Hc & _). by eexists. }
  clear H1 H2. revert H. generalize (put_candidates (is_candidates st2' ++ [cur]) st2') false Hw. clear Hw.
  induction kept as [|p kept IH]; intros s0 b0 Hw; simpl; [by intros [= <- _]|].
  intros ([s1 b1] & H1 & H2)%bind_Ok. eapply (IH s1 b1); [|exact H2]. clear H2.
  apply bind_Ok in H1 as (c & Hc%infer_at_Ok & H1). apply bind_Ok in H1 as (s2 & H2 & H1). apply bind_Ok in H1 as ([s3 b3] & H3 & [= <- _]).
  eapply addInference_working; [|exact H3]. clear H3. unfold upd_infer in H2. apply bind_Ok in H2 as (y & Hy%infer_at_Ok & [= <-]).
  destruct (working_source _ _ _ p y Hw) as (c' & Hc' & E); [right; by left|done|]. assert (c' = c) as -> by congruence.
  eapply working_upd; [done|done| | |]; simpl; [done| |done].
  destruct (so_wf _ (wk_ok _ _ _ Hw) _ _ Hy) as [W1 W2 W3]. by split.
Qed.

Lemma commitInference_working cur st st' p feasible :
  working cur st [] → commitInference p feasible st = Ok st' → working cur st' [].
Proof.
  intros Hw H. unfold commitInference in H. apply bind_Ok in H as (st1 & H1 & H).
  assert (is_Some (is_infers st1 !! p)) as Hp.
  { unfold upd_infer in H1. apply bind_Ok in H1 as (x & _ & [= <-]). simpl. rewrite lookup_insert_eq. by eexists. }
  apply (working_flag cur _ _ []) in H1; [|done..]. destruct feasible; [|by injection H as <-].
  unfold addResult in H. apply bind_Ok in H as (kept & Hk & [= <-]).
  assert (∀ q, q ∈ kept → q ∈ is_results st1) as Hkept.
  { assert (∀ l k k', (∀ q, q ∈ k → q ∈ is_results st1) → (∀ q, q ∈ l → q ∈ is_results st1) →
      foldM (λ existResult kept, compVal ← compare_at existResult p st1;
        Ok (if (compVal =? 0)%Z || (compVal =? 1)%Z then kept else kept ++ [existResult])) l k = Ok k' → ∀ q, q ∈ k' → q ∈ is_results st1) as Hl.
    { induction l as [|e l IH]; intros k k' Hin Hl; simpl; [by intros [= <-]|]. intros (k1 & H2 & H3)%bind_Ok.
      apply bind_Ok in H2 as (z & _ & [= <-]). eapply IH; [| |exact H3]; [case_match|]; set_solver. }
    eapply Hl; [| |exact Hk]; set_solver. }
  eapply working_lists; [exact H1|done..|]. intros q. unfold listed. simpl. rewrite !elem_of_app, list_elem_of_singleton.
  intros Hq. destruct (decide (q = p)) as [->|]; [right; split; [done|set_solver]|left; naive_solver].
Qed.

(** ** Looking up orders *)

Lemma read_order_Ok idx x x' mo :
  wf_Inference x → read_order idx x = Ok (x', mo) →
  (0 < idx <= MAX_WILDCARD_NUM)%Z ∧ wf_Inference x' ∧ same_but_orders x x' ∧ (∀ w, order x' w = order x w) ∧ mo = order x (Z.to_nat idx).
Proof.
  intros Wx H. unfold read_order in H. apply bind_Ok in H as ([y i] & Hop & H). apply bind_Ok in H as (m & Hm%at_index_Ok & [= <- <-]).
  assert ((0 < idx <= MAX_WILDCARD_NUM)%Z ∧ i = Z.to_nat idx ∧ wf_Inference y ∧ same_but_orders x y ∧ ∀ w, order y w = order x w) as (Hi & -> & Wy & Sy & Oy).
  { unfold op_index in Hop. destruct (wf_size _ Wx) as [_ Hs]. destruct ((0 <? idx)%Z && (idx <=? Z.of_nat (i_size x))%Z) eqn:E.
    - injection Hop as <- <-. apply andb_true_iff in E as [?%Z.ltb_lt ?%Z.leb_le]. split; [lia|]. split_and!; [done|done|reflexivity|done].
    - apply bind_Ok in Hop as (y1 & Hr & Hop). apply bind_Ok in Hop as (l & Hl & [= <- <-]).
      assert (Z.of_nat (i_size x) < idx <= MAX_WILDCARD_NUM)%Z as Hb.
      { unfold resize in Hr. apply bind_Ok in Hr as (? & Ha & _). unfold ASSERT in Ha.
        destruct ((Z.of_nat (i_size x) <? idx)%Z && (idx <=? MAX_WILDCARD_NUM)%Z) eqn:E'; [|done].
        apply andb_true_iff in E' as [?%Z.ltb_lt ?%Z.leb_le]. lia. }
      destruct (inference_resize_spec idx x Wx Hb) as (y2 & Hy2 & W2 & S2 & E2 & O2). assert (y2 = y1) as -> by congruence.
      destruct (set_order_spec (Z.to_nat idx) WILDCARD_NONEXIST y1 W2) as (l' & Hl' & W3 & O3); [lia|done|].
      assert (l' = l) as -> by congruence. split; [lia|]. split_and!; [done|done| |].
      + etrans; [exact E2|]. done.
      + intros w. rewrite O3. case_decide as Ew; [|done]. subst w. symmetry. unfold order.
        rewrite lookup_ge_None_2; [done|]. rewrite (wf_length _ Wx). lia. }
  split_and!; [lia|lia|done|done|done|]. rewrite <- Oy. unfold order. by rewrite Hm.
Qed.

Lemma read_order_total idx x : wf_Inference x → (0 < idx <= MAX_WILDCARD_NUM)%Z → ∃ x' mo, read_order idx x = Ok (x', mo).
Proof.
  intros Wx Hi. unfold read_order, op_index. pose proof (wf_length _ Wx) as Hlen.
  destruct ((0 <? idx)%Z && (idx <=? Z.of_nat (i_size x))%Z) eqn:E.
  - apply andb_true_iff in E as [?%Z.ltb_lt ?%Z.leb_le]. simpl. unfold at_index.
    destruct (lookup_lt_is_Some_2 (i_orders x) (Z.to_nat idx)) as [m ->]; [lia|]. simpl. by eexists _, _.
  - assert (Z.of_nat (i_size x) < idx)%Z by (apply andb_false_iff in E as [?%Z.ltb_ge|?%Z.leb_gt]; lia).
    destruct (inference_resize_spec idx x Wx) as (y & -> & Wy & Sy & _ & _); [lia|]. simpl. pose proof (wf_length _ Wy) as Hl.
    unfold set_at. rewrite (proj2 (Nat.ltb_lt _ _)) by lia. simpl. unfold at_index.
    rewrite list_lookup_insert_eq by lia. simpl. by eexists _, _.
Qed.

Lemma write_order_Ok idx mo x x' :
  wf_Inference x → is_entry mo = true → write_order idx mo x = Ok x' →
  wf_Inference x' ∧ same_but_orders x x' ∧ ∀ w, order x' w = if decide (w = Z.to_nat idx) then mo else order x w.
Proof.
  intros Wx Hmo H. unfold write_order in H. apply bind_Ok in H as ([y i] & Hop & H). apply bind_Ok in H as (l & Hl & [= <-]).
  assert (∃ m, read_order idx x = Ok (y, m) ∧ i = Z.to_nat idx ∧ Z.to_nat idx ≤ i_size y) as (m & Hrd & -> & Hle).
  { unfold read_order. rewrite Hop. simpl. unfold set_at in Hl. destruct (Nat.ltb_spec i (length (i_orders y))) as [Hi|]; [|done].
    unfold at_index. destruct (lookup_lt_is_Some_2 (i_orders y) i Hi) as [m Hm]. rewrite Hm. simpl. exists m. split; [done|].
    unfold op_index in Hop. case_match; [injection Hop as <- <-|].
    - split; [done|]. apply andb_true_iff in H as [?%Z.ltb_lt ?%Z.leb_le]. lia.
    - apply bind_Ok in Hop as (y1 & Hr & Hop). apply bind_Ok in Hop as (l1 & Hl1 & [= <- <-]). split; [done|]. simpl.
      unfold resize in Hr. apply bind_Ok in Hr as (? & _ & [= <-]). simpl. lia. }
  destruct (read_order_Ok _ _ _ _ Wx Hrd) as (_ & Wy & Sy & Oy & _).
  destruct (set_order_spec (Z.to_nat idx) mo y Wy Hle Hmo) as (l' & Hl' & W' & O'). assert (l' = l) as -> by congruence.
  split_and!; [done| |].
  - etrans; [exact Sy|]. done.
  - intros w. rewrite O'. by case_decide.
Qed.

(** ** Choosing the next inference *)

Lemma next_inference_next l : ∀ st st' r, next_inference l st = Ok (st', r) → is_next st' = is_next st.
Proof.
  induction l as [|p l IH]; intros st st' r; simpl; [by intros [= <- _]|]. intros (x & _ & H)%bind_Ok. destruct (i_leaf x); simpl in H.
  - apply bind_Ok in H as ([] & _ & H); [by apply IH in H|by injection H as <- _].
  - apply bind_Ok in H as (st1 & H1 & H). apply IH in H. rewrite H. unfold commitInference, upd_infer in H1.
    apply bind_Ok in H1 as (st2 & H2 & [= <-]). by apply bind_Ok in H2 as (y & _ & [= <-]).
Qed.

(** The next inference becomes the current one; without one the old stays current. *)
Lemma getNextInference_working cur st :
  working cur st [] →
  ∃ st' r skipped, getNextInference st = Ok (st', r) ∧ next_spec False st st' r skipped ∧ working (default cur r) st' [].
Proof.
  intros Hw. pose proof (wk_ok _ _ _ Hw) as Hok.
  destruct (next_inference_spec (d := False) (rev (is_candidates st)) st) as (st' & r & sk & E & Hn).
  { by apply search_ok_set. } { by rewrite rev_involutive. }
  exists st', r, sk. split; [exact E|]. split; [done|]. pose proof (next_inference_next _ _ _ _ E) as En.
  destruct Hn as [_ (Hheap & Hd & Hr) Hc _ _ _].
  assert (∀ q x, is_infers st !! q = Some x → is_infers st' !! q = Some (committed sk q x)) as Hup by (intros q x Hq; by rewrite Hheap, Hq).
  assert (∀ q, is_Some (is_infers st' !! q) ↔ is_Some (is_infers st !! q)) as Hdom by (intros q; rewrite Hheap; apply fmap_is_Some).
  assert (∀ x q, i_initialInfer (committed sk q x) = i_initialInfer x) as Hi by (intros x q; unfold committed; by case_match).
  assert (search_ok st') as Hok'.
  { destruct Hok as [H1 H2 H3 H4]. split.
    - intros p Hp. apply Hdom, H1. unfold listed in *. rewrite Hd, Hr in Hp. rewrite Hc. set_solver.
    - intros p Hp. rewrite En. by apply H2, Hdom.
    - intros p y. rewrite Hheap. intros (x & Hx & ->)%fmap_Some. destruct (H3 p x Hx) as [W1 W2 W3].
      split; rewrite ?committed_orders, ?committed_size; done.
    - intros p y. rewrite Hheap. intros (x & Hx & ->)%fmap_Some. destruct (H4 p x Hx) as (z & Hz & Ez & Lz).
      exists (committed sk (i_initialInfer x) z). rewrite !Hi. split; [by apply Hup|]. split; [done|].
      eapply at_least_orders, Lz; intros w; unfold order; by rewrite committed_orders. }
  assert (is_Some (is_infers st' !! default cur r)) as [c Hcur].
  { destruct r as [p|]; simpl.
    - apply Hdom, (so_listed _ Hok). unfold listed. rewrite Hc. simpl. set_solver.
    - apply Hdom. destruct (wk_heap _ _ _ Hw) as (c & Hcur & _). by eexists. }
  split; [done|constructor|set_solver| |set_solver]. exists c. split; [done|]. set_solver.
Qed.

(** ** Weakening a result *)

(** Between two states, inferences keep their strength and their initial inference, and
    remain explored; the results are the same. *)
Definition keeps_orders (st st' : InferState) : Prop :=
  is_results st' = is_results st ∧
  ∀ q y, is_infers st !! q = Some y → ∃ y', is_infers st' !! q = Some y' ∧
    (i_initialInfer y' = i_initialInfer y ∧ i_explored y' = i_explored y) ∧ ∀ w, order y' w = order y w.

#[global] Instance keeps_orders_preorder : PreOrder keeps_orders.
Proof.
  split; [intros st; split; [done|]; intros q y Hy; by exists y|]. intros s1 s2 s3 [R1 H1] [R2 H2]. split; [congruence|].
  intros q y (y1 & Hy1 & [E1 X1] & O1)%H1. destruct (H2 q y1 Hy1) as (y2 & Hy2 & [E2 X2] & O2). exists y2.
  split; [done|]. split; [split; congruence|]. intros w. by rewrite O2.
Qed.

Lemma keeps_orders_upd st p y y' :
  is_infers st !! p = Some y → i_initialInfer y' = i_initialInfer y → i_explored y' = i_explored y → (∀ w, order y' w = order y w) →
  keeps_orders st (put_infers (<[p := y']> (is_infers st)) st).
Proof.
  intros Hp Hi Hx Ho. split; [done|]. intros q z Hz. simpl. destruct (decide (q = p)) as [->|].
  - rewrite lookup_insert_eq. exists y'. assert (z = y) as -> by congruence. done.
  - rewrite lookup_insert_ne by done. by exists z.
Qed.

Lemma keeps_orders_new st y : search_ok st → keeps_orders st (new_infer y st).1.
Proof.
  intros Hok. split; [done|]. intros q z Hz. simpl. exists z. split; [|done]. rewrite lookup_insert_ne; [done|]. intros <-.
  assert (is_next st < is_next st)%positive by (apply (so_fresh _ Hok); by eexists). lia.
Qed.

Lemma read_order_at_working cur st l p x w :
  working cur st l → is_infers st !! p = Some x → (0 < Z.of_nat w <= MAX_WILDCARD_NUM)%Z →
  ∃ st', read_order_at p w st = Ok (st', order x w) ∧ working cur st' l ∧ keeps_orders st st'.
Proof.
  intros Hw Hp Hi. pose proof (so_wf _ (wk_ok _ _ _ Hw) _ _ Hp) as Wx. unfold read_order_at, infer_at. rewrite Hp. simpl.
  destruct (read_order_total (Z.of_nat w) x Wx Hi) as (x' & mo & Hrd). rewrite Hrd. simpl.
  destruct (read_order_Ok _ _ _ _ Wx Hrd) as (_ & W' & S' & O' & ->). rewrite Nat2Z.id. eexists. split; [done|].
  pose proof (same_but_orders_init _ _ S') as I'.
  split; [|eapply keeps_orders_upd; [done..| |done]; by rewrite S']. eapply working_upd; [done..|]. intros v. by rewrite O'.
Qed.

Section weaken.
Context (cur : ptr) (st0 : InferState) (c0 z0 : Inference).
Hypothesis Hok0 : working cur st0 [].
Hypothesis Hc0 : is_infers st0 !! cur = Some c0.
Hypothesis Hz0 : is_infers st0 !! i_initialInfer c0 = Some z0.

(** The states in between: the two inferences have the orders they started with. *)
Definition weakening (l : list ptr) (st : InferState) : Prop := working cur st l ∧ keeps_orders st0 st.

Lemma weakening_read_cur l st w :
  weakening l st → (0 < Z.of_nat w <= MAX_WILDCARD_NUM)%Z →
  ∃ st', read_order_at cur w st = Ok (st', order c0 w) ∧ weakening l st'.
Proof.
  intros [Hw Hk] Hi. destruct (proj2 Hk _ _ Hc0) as (c & Hc & _ & Oc).
  destruct (read_order_at_working cur st l cur c w Hw Hc Hi) as (st' & H & Hw' & Hk'). rewrite Oc in H. exists st'. split; [done|].
  split; [done|by etrans].
Qed.

Lemma weakening_read_init l st w :
  weakening l st → (0 < Z.of_nat w <= MAX_WILDCARD_NUM)%Z →
  ∃ st', read_order_at (i_initialInfer c0) w st = Ok (st', order z0 w) ∧ weakening l st'.
Proof.
  intros [Hw Hk] Hi. destruct (proj2 Hk _ _ Hz0) as (z & Hz & _ & Oz).
  destruct (read_order_at_working cur st l _ z w Hw Hz Hi) as (st' & H & Hw' & Hk'). rewrite Oz in H. exists st'. split; [done|].
  split; [done|by etrans].
Qed.

Lemma init_below w : nonexist_relaxed (order z0 w) ⊑ nonexist_relaxed (order c0 w).
Proof. destruct (so_init _ (wk_ok _ _ _ Hok0) _ _ Hc0) as (z & Hz & _ & L). assert (z = z0) as <- by congruence. apply L. Qed.
Lemma entry_c0 w : is_entry (order c0 w) = true.
Proof. apply order_entry. by eapply so_wf, Hc0; eapply wk_ok. Qed.
Lemma entry_z0 w : is_entry (order z0 w) = true.
Proof. apply order_entry. by eapply so_wf, Hz0; eapply wk_ok. Qed.

(** A wildcard that the current inference has strengthened. *)
Definition stronger_at (w : nat) : Prop :=
  (0 < Z.of_nat w <= MAX_WILDCARD_NUM)%Z ∧ nonexist_relaxed (order z0 w) ≠ nonexist_relaxed (order c0 w).

Lemma strengthened_at_ok :
  ∃ st' ws, strengthened_at cur (i_initialInfer c0) st0 = Ok (st', ws) ∧ weakening [] st' ∧ Forall stronger_at ws.
Proof.
  unfold strengthened_at, infer_at. rewrite Hc0. simpl.
  destruct (wf_size _ (so_wf _ (wk_ok _ _ _ Hok0) _ _ Hc0)) as [_ Hmax].
  edestruct (foldM_ind (λ (_ : list nat) (s : InferState * list nat), weakening [] s.1 ∧ Forall stronger_at s.2)) as ([st' ws] & E & H1 & H2);
    [| |exists st', ws; split; [exact E|done]].
  - simpl. split; [|constructor]. by split.
  - intros l1 i l2 [st l] Hl [Hw Hf]. simpl in *.
    assert (0 < Z.of_nat i <= MAX_WILDCARD_NUM)%Z as Hi.
    { assert (i ∈ seq 1 (i_size c0)) as Hin by (rewrite Hl; set_solver). apply elem_of_seq in Hin. lia. }
    destruct (weakening_read_cur [] st i Hw Hi) as (s1 & -> & Hw1). simpl.
    destruct (weakening_read_init [] s1 i Hw1 Hi) as (s2 & -> & Hw2). simpl.
    destruct (compareMemoryOrder_correct (order c0 i) (order z0 i) (entry_c0 i) (entry_z0 i)) as (C0 & C1 & _).
    destruct (decide (nonexist_relaxed (order z0 i) = nonexist_relaxed (order c0 i))) as [E|E].
    + rewrite (proj2 C0) by done. simpl. eexists. split; [done|]. by split.
    + rewrite (proj2 C1) by (split; [apply init_below|done]). simpl. eexists. split; [done|]. split; [done|].
      apply Forall_app. split; [done|]. apply Forall_singleton. by split.
Qed.

(** A weaker copy is still at least as strong as the initial inference. *)
Lemma weaker_copy_ok l st w mo :
  weakening l st → (0 < Z.of_nat w <= MAX_WILDCARD_NUM)%Z →
  (∀ m, mo = Some m → is_entry m = true ∧ nonexist_relaxed (order z0 w) ⊑ nonexist_relaxed m) →
  ∃ st' p, weaker_copy cur w mo st = Ok (st', p) ∧ weakening (l ++ [p]) st'.
Proof.
  intros [Hw Hk] Hi Hmo. destruct (proj2 Hk _ _ Hc0) as (c & Hc & [Ei _] & Oc). pose proof (so_wf _ (wk_ok _ _ _ Hw) _ _ Hc) as Wc.
  unfold weaker_copy, infer_at. rewrite Hc. simpl. rewrite (copy_Inference_spec c Wc). simpl. set (c1 := mkInference _ _ _ _ _ _ _ _).
  assert (wf_Inference c1) as Wc1 by (destruct Wc as [? ? ?]; by split).
  assert (∃ y, match mo with Some mo => write_order (Z.of_nat w) mo c1 | None => Ok c1 end = Ok y ∧ wf_Inference y ∧
    i_initialInfer y = i_initialInfer c ∧ ∀ v, nonexist_relaxed (order z0 v) ⊑ nonexist_relaxed (order y v)) as (y & -> & Wy & Iy & Ly).
  { destruct mo as [m|].
    - destruct (Hmo m eq_refl) as [Em Lm]. unfold write_order.
      destruct (read_order_total (Z.of_nat w) c1 Wc1 Hi) as (x' & mo' & Hrd). unfold read_order in Hrd.
      apply bind_Ok in Hrd as ([x1 i] & Hop & Hrd). apply bind_Ok in Hrd as (m1 & Hm1%at_index_Ok & [= <- <-]).
      assert (write_order (Z.of_nat w) m c1 = Ok (set_orders (<[i := m]> (i_orders x1)) (i_size x1) x1)) as Hwr.
      { unfold write_order. rewrite Hop. simpl. unfold set_at. rewrite (proj2 (Nat.ltb_lt _ _)) by by eapply lookup_lt_Some. done. }
      destruct (write_order_Ok _ _ _ _ Wc1 Em Hwr) as (W & S & O). unfold write_order in Hwr. eexists. split; [exact Hwr|].
      split_and!; [done|by apply same_but_orders_init in S|]. intros v. rewrite O, Nat2Z.id. case_decide; [by subst|].
      etrans; [apply init_below|]. change (order c1 v) with (order c v). by rewrite Oc.
    - exists c1. split_and!; [done..|]. intros v. etrans; [apply init_below|]. change (order c1 v) with (order c v). by rewrite Oc. }
  simpl. eexists _, _. split; [done|]. split.
  - eapply (working_new cur st l cur c (setLeaf true (setShouldFix false y))); [done|by left|done| | |].
    + destruct Wy as [? ? ?]. by split.
    + done.
    + intros z Hz _ v. rewrite Ei in Hz. destruct (proj2 Hk _ _ Hz0) as (z1 & Hz1 & _ & Oz). assert (z1 = z) as -> by congruence.
      rewrite Oz. apply Ly.
  - etrans; [exact Hk|]. apply keeps_orders_new. apply Hw.
Qed.

Lemma add_weaker_ok l st p :
  weakening (p :: l) st → ∃ st', add_weaker p st = Ok st' ∧ weakening l st'.
Proof.
  intros [Hw Hk]. pose proof (wk_ok _ _ _ Hw) as Hok. unfold add_weaker.
  assert (live st p) as Lp.
  { destruct (wk_heap _ _ _ Hw) as (c & _ & Hh). destruct (Hh p) as (y & Hy & _); [by left|]. apply search_ok_live; [done|by eexists]. }
  assert (∀ L, Forall (live st) L → ∃ r, until (λ q, compVal ← compare_at q p st; d ← infer_at q st;
      Ok (if (compVal =? 0)%Z && negb (i_leaf d) then Some tt else None)) L = Ok r) as Hu.
  { induction 1 as [|q L Lq _ [r IH]]; simpl; [by eexists|].
    destruct (compare_at_live q p st Lq Lp) as (x & y & Hx & _ & _ & _ & ->). simpl. unfold infer_at. rewrite Hx. simpl.
    case_match; [by eexists|]. by exists r. }
  destruct (Hu (is_discoveredSet st)) as (r & ->); [apply (search_ok_set _ Hok)|]. simpl.
  destruct r as [[]|].
  { exists st. split; [done|]. split; [|done]. eapply working_sub, Hw. by apply sublist_cons. }
  destruct (addInference_spec p st (search_ok_set _ Hok) Lp) as (st' & b & E & _ & _ & _ & Hres & _ & _ & Hh). rewrite E. simpl.
  exists st'. split; [done|]. split; [by eapply addInference_working|]. etrans; [exact Hk|].
  split; [done|]. intros q y Hy. rewrite Hh. case_match eqn:Eb; [|by exists y].
  apply andb_true_iff in Eb as [_ ->%bool_decide_eq_true]. rewrite Hy. by exists (setLeaf true y).
Qed.

(** The orders that are tried in place of [mo1] are between the initial order and [mo1]. *)
Lemma weaker_orders_ok mo1 mo2 :
  is_entry mo1 = true → is_entry mo2 = true → nonexist_relaxed mo2 ⊑ nonexist_relaxed mo1 →
  let '(new1, new2) :=
    if bool_decide (mo1 = memory_order_acq_rel) then
      if bool_decide (mo2 = memory_order_acquire) then (Some memory_order_acquire, None)
      else if bool_decide (mo2 = memory_order_release) then (Some memory_order_release, None)
      else (Some memory_order_acquire, Some memory_order_release)
    else (if bool_decide (mo2 ≠ nextWeakOrder mo1 mo2) then Some (nextWeakOrder mo1 mo2) else None, None) in
  mo2 ≠ mo1 →
  Forall (λ m, is_entry m = true ∧ nonexist_relaxed mo2 ⊑ nonexist_relaxed m) (option_list new1 ++ option_list new2).
Proof. intros H1 H2. entry_cases mo1 H1; entry_cases mo2 H2; decide_goal. Qed.

Lemma addWeakerInference_ok : ∃ st', addWeakerInference cur st0 = Ok st' ∧ working cur st' [] ∧ keeps_orders st0 st'.
Proof.
  unfold addWeakerInference, infer_at. rewrite Hc0. cbn [deref mbind result_bind].
  destruct strengthened_at_ok as (st1 & ws & -> & Hw1 & Hws). cbn [mbind result_bind].
  edestruct (foldM_ind (λ (_ : list nat) (s : InferState), weakening [] s)) as (st' & E & [H1 H2]);
    [| |exists st'; split; [exact E|split; [exact H1|exact H2]]]; [exact Hw1|].
  intros l1 w l2 st Hl Hw.
  assert (stronger_at w) as [Hi Hne] by (apply (proj1 (Forall_forall _ _) Hws); rewrite Hl; set_solver).
  destruct (weakening_read_cur [] st w Hw Hi) as (s1 & -> & W1). cbn [mbind result_bind].
  destruct (weakening_read_init [] s1 w W1 Hi) as (s2 & -> & W2). cbn [mbind result_bind]. cbv zeta.
  pose proof (weaker_orders_ok (order c0 w) (order z0 w) (entry_c0 w) (entry_z0 w) (init_below w)) as Hall.
  destruct (if bool_decide (order c0 w = memory_order_acq_rel) then _ else _) as [new1 new2].
  specialize (Hall ltac:(congruence)). apply Forall_app in Hall as [Hn1 Hn2].
  destruct (weaker_copy_ok [] s2 w new1 W2 Hi) as (s3 & p1 & -> & W3). { intros m ->. exact (proj1 (Forall_singleton _ _) Hn1). }
  cbn [mbind result_bind]. destruct new2 as [m|].
  - destruct (weaker_copy_ok [p1] s3 w (Some m) W3 Hi) as (s4 & p2 & -> & W4). { intros m' [= ->]. exact (proj1 (Forall_singleton _ _) Hn2). }
    cbn [mbind result_bind]. destruct (add_weaker_ok [p2] s4 p1 W4) as (s5 & -> & W5). cbn [mbind result_bind].
    by apply (add_weaker_ok []).
  - cbn [mbind result_bind]. destruct (add_weaker_ok [] s3 p1 W3) as (s5 & -> & W5). cbn [mbind result_bind]. by exists s5.
Qed.
End weaken.

(** ** The routines of the plugin *)

Lemma fence_bind_Ok {A B} (c : fence A) (k : A → fence B) x x' b :
  (c ≫= k) x = Ok (x', b) ↔ ∃ x1 a, c x = Ok (x1, a) ∧ k a x1 = Ok (x', b).
Proof. unfold mbind, fence_bind. destruct (c x) as [[x1 a]|]; naive_solver. Qed.
Lemma fromf_Ok {A} (r : result A) x x' a : fromf r x = Ok (x', a) ↔ x' = x ∧ r = Ok a.
Proof. unfold fromf. destruct r; naive_solver. Qed.
Lemma on_set_Ok {A} (c : InferState → result (InferState * A)) x x' a :
  on_set c x = Ok (x', a) ↔ ∃ st, c (fp_inferenceSet (sf_priv x)) = Ok (st, a) ∧ x' = put_priv (put_set st (sf_priv x)) x.
Proof. unfold on_set. destruct (c _) as [[st a']|]; naive_solver. Qed.
Lemma on_set__Ok (c : InferState → result InferState) x x' u :
  on_set_ c x = Ok (x', u) ↔ ∃ st, c (fp_inferenceSet (sf_priv x)) = Ok st ∧ x' = put_priv (put_set st (sf_priv x)) x.
Proof.
  unfold on_set_. rewrite on_set_Ok. destruct u. split.
  - intros (st & (st' & H & [= <-])%bind_Ok & ->). by exists st'.
  - intros (st & H & ->). exists st. rewrite H. done.
Qed.

(** The state of the plugin between two hooks, and within one that holds candidates. *)
Definition the_set (x : SCFence) : InferState := fp_inferenceSet (sf_priv x).
Definition the_cur (x : SCFence) : ptr := fp_curInference (sf_priv x).
Definition holds (x : SCFence) (l : list ptr) : Prop := working (the_cur x) (the_set x) l.

Lemma commitInference_ok cur st feasible c :
  working cur st [] → is_infers st !! cur = Some c →
  ∃ st', commitInference cur feasible st = Ok st' ∧ is_infers st' = <[cur := setExplored true c]> (is_infers st) ∧
    (if feasible then cur ∈ is_results st' else is_results st' = is_results st).
Proof.
  intros Hw Hc. unfold commitInference. rewrite (upd_infer_Ok cur _ st c Hc). simpl. destruct feasible; [|by eexists].
  unfold addResult. simpl. set (st1 := put_infers _ st).
  assert (working cur st1 []) as Hw1. { eapply (working_flag cur st st1 [] cur (setExplored true)); [done..|]. by apply upd_infer_Ok. }
  pose proof (search_ok_set _ (wk_ok _ _ _ Hw1)) as [_ Hres _ _]. change (is_results st1) with (is_results st) in Hres.
  assert (live st1 cur) as Lc by (apply search_ok_live; [apply Hw1|]; simpl; rewrite lookup_insert_eq; by eexists).
  assert (∀ k, ∃ kept, foldM (λ existResult kept, compVal ← compare_at existResult cur st1;
      Ok (if (compVal =? 0)%Z || (compVal =? 1)%Z then kept else kept ++ [existResult])) (is_results st) k = Ok kept) as Hkept.
  { induction Hres as [|p l Lp _ IH]; intros k; simpl; [by eexists|].
    destruct (compare_at_live p cur st1 Lp Lc) as (a & b & _ & _ & _ & _ & ->). simpl. apply IH. }
  destruct (Hkept []) as [kept ->]. simpl. eexists. split; [done|]. split; [done|]. simpl. set_solver.
Qed.

(** What [routineBacktrack] achieves. *)
Record backtracked (feasible : bool) (x x' : SCFence) (again : bool) : Prop := {
  bt_inv : holds x' [];
  bt_explored : ∃ y, is_infers (the_set x') !! the_cur x = Some y ∧ i_explored y = true;
  bt_result : if feasible then the_cur x ∈ is_results (the_set x') else is_results (the_set x') = is_results (the_set x);
  bt_again : again = true → sf_restart_flag x' = true ∧ sf_exit_flag x' = sf_exit_flag x ∧
    ∃ y, is_infers (the_set x') !! the_cur x' = Some y ∧ i_leaf y = true;
  bt_done : again = false → sf_exit_flag x' = true ∧ sf_restart_flag x' = sf_restart_flag x ∧
    the_cur x' = the_cur x ∧ is_candidates (the_set x') = []
}.

(** Committing the current inference, and adding weaker ones to try. *)
Lemma backtrack_commit feasible weaken cur st :
  working cur st [] →
  ∃ st1 st2, commitInference cur feasible st = Ok st1 ∧
    (∃ c1, is_infers st1 !! cur = Some c1 ∧
      (if feasible && (weaken && negb (i_buggy c1)) then addWeakerInference cur st1 else Ok st1) = Ok st2) ∧
    working cur st2 [] ∧ (∃ y, is_infers st2 !! cur = Some y ∧ i_explored y = true) ∧
    (if feasible then cur ∈ is_results st2 else is_results st2 = is_results st).
Proof.
  intros Hw. destruct (wk_heap _ _ _ Hw) as (c & Hc & _).
  destruct (commitInference_ok cur st feasible c Hw Hc) as (st1 & H1 & Hh1 & Hr1).
  pose proof (commitInference_working _ _ _ _ _ Hw H1) as Hw1.
  assert (is_infers st1 !! cur = Some (setExplored true c)) as Hc1 by (rewrite Hh1; apply lookup_insert_eq).
  destruct (feasible && (weaken && negb (i_buggy (setExplored true c)))) eqn:Eb.
  - destruct (so_init _ (wk_ok _ _ _ Hw1) _ _ Hc1) as (z & Hz & _).
    destruct (addWeakerInference_ok cur st1 _ z Hw1 Hc1 Hz) as (st2 & H2 & Hw2 & Hr2 & Hk2).
    exists st1, st2. split; [done|]. split; [exists (setExplored true c); by rewrite Eb|]. split; [done|].
    destruct (Hk2 _ _ Hc1) as (y & Hy & [_ Ey] & _). split; [by exists y|]. by rewrite Hr2.
  - exists st1, st1. split; [done|]. split; [exists (setExplored true c); by rewrite Eb|]. split; [done|]. split; [by eexists|done].
Qed.

Lemma routineBacktrack_spec feasible x :
  holds x [] → ∃ x' again, routineBacktrack feasible x = Ok (x', again) ∧ backtracked feasible x x' again.
Proof.
  intros Hw. destruct (backtrack_commit feasible (sf_weaken x) _ _ Hw) as (st1 & st2 & H1 & (c1 & Hc1 & H2) & Hw2 & (y & Hy & Ey) & Hr).
  destruct (getNextInference_working _ _ Hw2) as (st3 & r & sk & H3 & Hn & Hw3).
  destruct Hn as [_ (Hheap & _ & Hr3) Hcand Hnone _ Hch].
  set (x1 := put_priv (put_set st1 (sf_priv x)) x). set (x2 := put_priv (put_set st2 (sf_priv x)) x).
  set (x3 := put_priv (put_set st3 (sf_priv x)) x).
  assert (fence_commitInference (the_cur x) feasible x = Ok (x1, tt)) as E1 by (apply on_set__Ok; by exists st1).
  assert ((if feasible then p ← plugin; buggy ← isBuggy;
     if sf_weaken p && negb buggy then on_set_ (addWeakerInference (the_cur x)) else mret tt else mret tt) x1 = Ok (x2, tt)) as E2.
  { destruct feasible; [|by injection H2 as <-]. unfold isBuggy, curInfer, getCurInference.
    unfold mbind, fence_bind, plugin, mret, fence_ret, fromf, infer_at. simpl. unfold the_cur in Hc1. rewrite Hc1. simpl.
    simpl in H2. destruct (sf_weaken x && negb (i_buggy c1)); [|by injection H2 as <-]. apply on_set__Ok. by exists st2. }
  assert (fence_getNextInference x2 = Ok (x3, r)) as E3 by (apply on_set_Ok; by exists st3).
  assert (is_infers st3 !! the_cur x = Some (committed sk (the_cur x) y)) as Hy3 by by rewrite Hheap, Hy.
  pose proof (committed_explored sk (the_cur x) y Ey) as Ey3.
  assert (if feasible then the_cur x ∈ is_results st3 else is_results st3 = is_results (the_set x)) as Hr'.
  { rewrite Hr3. by destruct feasible. }
  destruct r as [p|].
  - assert (∃ h, routineBacktrack feasible x = Ok (put_priv (put_hasRestarted h (put_cur p (put_set st3 (sf_priv x)))) (put_restart_flag true x), true)) as [h E].
    { exists true. unfold routineBacktrack. apply fence_bind_Ok. eexists x, (the_cur x). split; [done|].
      apply fence_bind_Ok. eexists x1, tt. split; [exact E1|]. apply fence_bind_Ok. eexists x2, tt. split; [exact E2|].
      apply fence_bind_Ok. eexists x3, (Some p). split; [exact E3|].
      unfold restartModelChecker, setCurInference, set_priv, setf, plugin, mbind, fence_bind, mret, fence_ret. simpl.
      destruct (fp_hasRestarted (sf_priv x)) eqn:Eh; simpl; [|done]. unfold put_hasRestarted, put_cur, put_set. simpl. by rewrite Eh. }
    eexists _, true. split; [exact E|]. split; simpl; [exact Hw3|by eexists|done| |done].
    intros _. split_and!; [done..|]. destruct (Hch p eq_refl) as (z & Hz & Hl & _).
    exists (committed sk p z). unfold the_cur. simpl. rewrite Hheap, Hz, committed_leaf. done.
  - assert (routineBacktrack feasible x = Ok (put_exit_flag true x3, false)) as E.
    { unfold routineBacktrack. apply fence_bind_Ok. eexists x, (the_cur x). split; [done|].
      apply fence_bind_Ok. eexists x1, tt. split; [exact E1|]. apply fence_bind_Ok. eexists x2, tt. split; [exact E2|].
      apply fence_bind_Ok. eexists x3, None. split; [exact E3|done]. }
    eexists _, false. split; [exact E|]. split; simpl; [exact Hw3|by eexists|done|done|].
    intros _. split_and!; [done..|]. by apply Hnone.
Qed.

(** ** Hooks keep the invariant *)

(** [c] works on the candidates [pre] and leaves [post]; those of [base] are left alone. *)
Definition keeps_with {A} (base pre : list ptr) (c : fence A) (post : A → list ptr) : Prop :=
  ∀ x x' a, holds x (base ++ pre) → c x = Ok (x', a) → holds x' (base ++ post a).

Section rules.
Context (base : list ptr).

Lemma kw_ret {A} pre (a : A) post : post a = pre → keeps_with base pre (mret a) post.
Proof. by intros E x x' a' Hx [= <- <-]; rewrite E. Qed.
Lemma kw_bind {A B} pre mid post (c : fence A) (k : A → fence B) :
  keeps_with base pre c mid → (∀ a, keeps_with base (mid a) (k a) post) → keeps_with base pre (c ≫= k) post.
Proof. intros Hc Hk x x' b Hx (x1 & a & H1 & H2)%fence_bind_Ok. eapply Hk; [|exact H2]. by eapply Hc. Qed.
Lemma kw_from {A} pre (r : result A) post : (∀ a, r = Ok a → post a = pre) → keeps_with base pre (fromf r) post.
Proof. intros Hp x x' a Hx [-> Hr]%fromf_Ok. by rewrite Hp. Qed.
Lemma kw_plugin pre : keeps_with base pre plugin (λ _, pre).
Proof. by intros x x' a Hx [= <- _]. Qed.
Lemma kw_setf pre f : (∀ x, sf_priv (f x) = sf_priv x) → keeps_with base pre (setf f) (λ _, pre).
Proof. intros Hf x x' a Hx [= <- _]. unfold holds, the_cur, the_set in *. by rewrite Hf. Qed.
Lemma kw_scgen {A} pre (c : scg A) : keeps_with base pre (on_scgen c) (λ _, pre).
Proof. intros x x' a Hx H. unfold on_scgen in H. destruct (c (sf_scgen x)) as [[g a']|]; [|done]. by injection H as <- _. Qed.
Lemma kw_foldF {A S} (f : A → S → fence S) (g : S → list ptr) l st :
  (∀ x st, keeps_with base (g st) (f x st) g) → keeps_with base (g st) (foldF f l st) g.
Proof.
  intros Hf. revert st. induction l as [|x l IH]; intros st; cbn [foldF]; [by apply kw_ret|].
  eapply kw_bind; [apply Hf|apply IH].
Qed.
Lemma kw_err {A} pre f post : keeps_with (A := A) base pre (fromf (Err f)) post.
Proof. intros x x' a _ [_ H]%fromf_Ok. done. Qed.
End rules.

Lemma kw_frame {A} base l pre (c : fence A) post :
  keeps_with (base ++ l) pre c post → keeps_with base (l ++ pre) c (λ a, l ++ post a).
Proof. intros Hc x x' a Hx H. rewrite (assoc_L (++)) in *. by eapply Hc. Qed.

(** Operations on the current inference. *)
Lemma kw_cur base pre : keeps_with base pre getCurInference (λ _, pre).
Proof. by intros x x' a Hx [= <- _]. Qed.
Lemma kw_curInfer base pre : keeps_with base pre curInfer (λ _, pre).
Proof.
  unfold curInfer. eapply kw_bind; [apply kw_cur|]. intros c. eapply kw_bind; [apply kw_plugin|]. intros x. by apply kw_from.
Qed.
Lemma kw_on_cur base pre f : flag_update f → keeps_with base pre (on_cur f) (λ _, pre).
Proof.
  intros Hf x x' u Hx H. unfold on_cur in H. apply fence_bind_Ok in H as (x1 & cur & [= <- <-] & H).
  apply on_set__Ok in H as (st & H & ->). by eapply working_flag.
Qed.
Lemma kw_cur_order base pre idx : keeps_with base pre (cur_order idx) (λ _, pre).
Proof.
  intros x x' mo Hx H. unfold cur_order in H. apply fence_bind_Ok in H as (x1 & cur & [= <- <-] & H).
  apply on_set_Ok in H as (st & H & ->). apply bind_Ok in H as (c & Hc%infer_at_Ok & H). apply bind_Ok in H as ([c' m] & Hr & [= <- <-]).
  destruct (read_order_Ok _ _ _ _ (so_wf _ (wk_ok _ _ _ Hx) _ _ Hc) Hr) as (_ & W & S & O & _).
  eapply working_upd; [exact Hx|done|by apply same_but_orders_init|done|]. intros w. by rewrite O.
Qed.
Lemma kw_applyPatch base patches l : Forall orders_of patches → keeps_with base l (fence_applyPatch patches l) (λ l', l').
Proof.
  intros Ho x x' l' Hx H. unfold fence_applyPatch in H. apply fence_bind_Ok in H as (x1 & cur & [= <- <-] & H).
  apply on_set_Ok in H as (st & H & ->). by eapply applyPatches_working.
Qed.
Lemma kw_addCandidates l : keeps_with [] l (fence_addCandidates (Some l)) (λ _, []).
Proof.
  intros x x' b Hx H. unfold fence_addCandidates in H. apply fence_bind_Ok in H as (x1 & cur & [= <- <-] & H).
  apply on_set_Ok in H as (st & H & ->). by eapply addCandidates_working.
Qed.

(** ** Patches require orders *)

Definition all_orders (ps : list Patch) : Prop := Forall orders_of ps.
Lemma new_Patch2_orders a1 m1 a2 m2 : is_order m1 = true → is_order m2 = true → orders_of (new_Patch2 a1 m1 a2 m2).
Proof. intros H1 H2. by repeat constructor. Qed.
Lemma applicable_orders ps : all_orders ps → all_orders (applicable ps).
Proof. intros H. apply Forall_forall. intros p [_ Hp]%list_elem_of_filter. by apply (proj1 (Forall_forall _ _) H). Qed.
Lemma map_orders {A} (f : A → Patch) l : (∀ a, orders_of (f a)) → all_orders (map f l).
Proof. intros Hf. apply Forall_forall. intros p (a & -> & _)%list_elem_of_fmap. apply Hf. Qed.
Lemma concat_orders {A} (f : A → list Patch) l : (∀ a, all_orders (f a)) → all_orders (concat (map f l)).
Proof. intros Hf. induction l as [|a l IH]; simpl; [constructor|]. apply Forall_app. split; [apply Hf|exact IH]. Qed.

Lemma acq_rel_patches_orders r w acqs rels : all_orders (acq_rel_patches r w acqs rels).
Proof.
  unfold acq_rel_patches. cbv zeta.
  set (acq := map _ acqs). set (rel := map _ rels). set (both := concat _).
  assert (all_orders (applicable acq)) as Ha.
  { apply applicable_orders, map_orders. intros f. by apply new_Patch2_orders. }
  assert (all_orders (applicable rel)) as Hr.
  { apply applicable_orders, map_orders. intros f. by apply new_Patch2_orders. }
  assert (all_orders (applicable both)) as Hb.
  { apply applicable_orders, concat_orders. intros f. apply map_orders. intros f'. by apply new_Patch2_orders. }
  clearbody acq rel both. case_match eqn:E; [apply applicable_orders, Forall_singleton; by apply new_Patch2_orders|].
  destruct acqs, rels; [constructor|done|done|]. case_match; [by apply Forall_app|done].
Qed.

(** ** The searches for fixes *)

Lemma kw_bind_from {A B} base pre (r : result A) (k : A → fence B) post :
  (∀ a, r = Ok a → keeps_with base pre (k a) post) → keeps_with base pre (fromf r ≫= k) post.
Proof. intros Hk x x' b Hx (x1 & a & [-> Hr]%fromf_Ok & H2)%fence_bind_Ok. by eapply (Hk a). Qed.
Lemma kw_fromf {A} base pre (r : result A) : keeps_with base pre (fromf r) (λ _, pre).
Proof. by apply kw_from. Qed.

Create HintDb kw.
#[export] Hint Resolve kw_plugin kw_cur kw_curInfer kw_cur_order kw_scgen kw_fromf : kw.

(** Sequencing and case analysis; the rest is left to the lemmas on the operations. *)
Ltac kw :=
  repeat (cbv beta zeta;
    lazymatch goal with
    | |- keeps_with _ _ (mbind _ (fromf _)) _ => apply kw_bind_from; intros ? ?
    | |- keeps_with _ _ (mbind _ _) _ => eapply kw_bind; [solve [eauto with kw]|intros ?]
    | |- keeps_with _ _ (match ?x with _ => _ end) _ => destruct x eqn:?
    | |- keeps_with _ _ (mret _) _ => apply kw_ret; reflexivity
    end).

Section searches.
Context (s : Exec) (fuel : nat).

Lemma getAcqRel_orders dup read rb write wb ps : getAcqRel s dup read rb write wb = Ok ps → all_orders ps.
Proof.
  intros H. unfold getAcqRel in H. repeat (apply bind_Ok in H as (? & _ & H)). injection H as <-. apply acq_rel_patches_orders.
Qed.

Lemma kw_sync_reads base dup begin end_ path : ∀ l, keeps_with base l (sync_reads s dup begin end_ path l) fst.
Proof.
  induction path as [|read path IH]; intros l; cbn [sync_reads]; kw.
  eapply kw_bind; [eapply kw_applyPatch, getAcqRel_orders; eassumption|apply IH].
Qed.

Lemma kw_imposeSync_path base path begin end_ l : keeps_with base l (imposeSync_path s l path begin end_) fst.
Proof.
  unfold imposeSync_path. kw; [|apply kw_sync_reads].
  eapply kw_bind; [eapply kw_applyPatch, getAcqRel_orders; eassumption|]. intros l'. by apply kw_ret.
Qed.

Lemma kw_imposeSync base paths begin end_ l : keeps_with base l (imposeSync s l paths begin end_) fst.
Proof.
  unfold imposeSync. apply (kw_foldF base _ (λ st : list ptr * bool, st.1) paths (l, false)). intros path [l' res].
  pose proof (kw_frame base l' [] _ _ (kw_imposeSync_path (base ++ l') path begin end_ [])) as H. rewrite app_nil_r in H.
  eapply kw_bind; [exact H|]. intros [cands b]. by apply kw_ret.
Qed.

Lemma fence_pairs_orders fences : ∀ acc x x' r,
  all_orders acc.1 → fence_pairs fences acc x = Ok (x', r) → all_orders r.1.
Proof.
  assert (∀ fence1 fences acc x x' r, all_orders acc.1 →
    foldF (λ fence2 '(patches, twoFences),
        let p := new_Patch2 fence1 memory_order_seq_cst fence2 memory_order_seq_cst in
        if isApplicable p then
          mo1 ← cur_order (get_wildcard_id (a_original_order fence1));
          mo2 ← cur_order (get_wildcard_id (a_original_order fence2));
          mret (patches ++ [p], (twoFences : bool) || bool_decide (mo1 ≠ memory_order_seq_cst) || bool_decide (mo2 ≠ memory_order_seq_cst))
        else mret (patches, twoFences)) fences acc x = Ok (x', r) → all_orders r.1) as Hin.
  { intros fence1. induction fences0 as [|f fs IH]; intros [ps two] x x' r Hacc; cbn [foldF]; [by intros [= _ <-]|].
    intros (x1 & [ps1 two1] & H1 & H2)%fence_bind_Ok. eapply IH; [|exact H2]. clear H2 IH. simpl in *. case_match.
    - apply fence_bind_Ok in H1 as (? & ? & _ & H1). apply fence_bind_Ok in H1 as (? & ? & _ & [= _ <- _]).
      apply Forall_app. split; [done|]. apply Forall_singleton. by apply new_Patch2_orders.
    - by injection H1 as _ <- _. }
  induction fences as [|f fs IH]; intros acc x x' r Hacc; cbn [fence_pairs]; [by intros [= _ <-]|].
  intros (x1 & acc1 & H1 & H2)%fence_bind_Ok. eapply IH; [|exact H2]. by eapply Hin.
Qed.

Lemma kw_fence_pairs base l fences : ∀ acc, keeps_with base l (fence_pairs fences acc) (λ _, l).
Proof.
  induction fences as [|f fs IH]; intros acc; cbn [fence_pairs]; [by apply kw_ret|].
  eapply kw_bind; [|intros; apply IH]. apply (kw_foldF base _ (λ _, l) fs acc). intros f' [ps two]. kw.
Qed.

Lemma kw_imposeSC base actions l a1 a2 : keeps_with base l (imposeSC s actions l a1 a2) fst.
Proof.
  unfold imposeSC. apply kw_bind_from; intros b1 _. apply kw_bind_from; intros b2 _. apply kw_bind_from; intros fences _.
  intros x x' r Hx H. apply fence_bind_Ok in H as (x1 & [ps two] & H1 & H).
  pose proof (fence_pairs_orders fences ([], false) _ _ _ (Forall_nil_2 _) H1) as Hps.
  apply (kw_fence_pairs base l) in H1; [|done]. clear Hx x. revert x1 x' r H1 H.
  match goal with |- ∀ x1 x' r, _ → ?c x1 = _ → _ => change (keeps_with base l c fst) end.
  cbv zeta. case_match; [by apply kw_ret|]. eapply kw_bind; [apply kw_applyPatch|intros; by apply kw_ret].
  destruct two; [done|]. apply Forall_app. split; [done|]. apply Forall_app. split.
  - apply concat_orders. intros f. apply applicable_orders. repeat constructor; by apply new_Patch2_orders.
  - apply applicable_orders, Forall_singleton. by apply new_Patch2_orders.
Qed.

Hint Resolve kw_imposeSync kw_imposeSC : kw.

Lemma kw_rf_sb_paths base pre p q : keeps_with base pre (rf_sb_paths s fuel p q) (λ _, pre).
Proof. unfold rf_sb_paths. kw. apply kw_fromf. Qed.
Hint Resolve kw_rf_sb_paths : kw.

Lemma kw_impose_order base list l p q : keeps_with base l (impose_order s fuel list l p q) fst.
Proof. unfold impose_order. kw. Qed.
Hint Resolve kw_impose_order : kw.

Lemma kw_pattern_a_write2 base list read write write2 cands :
  keeps_with base cands (pattern_a_write2 s fuel list read write write2 cands) id.
Proof.
  unfold pattern_a_write2. do 3 (apply kw_bind_from; intros ? _). apply (kw_bind base _ (λ st : Datatypes.list ptr * bool, cands ++ st.1)).
  { rewrite <- (app_nil_r cands) at 1. apply (kw_frame base cands). kw. }
  intros [tmp mo]. simpl. apply kw_bind_from; intros h _. apply (kw_bind base _ (λ tmp, cands ++ tmp)).
  { apply (kw_frame base cands). kw. }
  intros tmp'. by apply kw_ret.
Qed.

Lemma kw_PatternA base list read write between : keeps_with base [] (getFixesFromPatternA s fuel list read write between) id.
Proof.
  unfold getFixesFromPatternA. kw; [apply kw_err|].
  apply (kw_foldF base _ (@id (Datatypes.list ptr)) _ []). intros w2 cands. apply kw_pattern_a_write2.
Qed.

Lemma kw_PatternB base read write : keeps_with base [] (getFixesFromPatternB s fuel read write) id.
Proof.
  unfold getFixesFromPatternB. eapply kw_bind; [apply kw_rf_sb_paths|]. intros paths1. apply (kw_bind base _ fst).
  { case_match; [by apply kw_ret|apply kw_imposeSync]. }
  intros [res u]. eapply kw_bind; [apply kw_rf_sb_paths|]. intros paths2. simpl.
  pose proof (kw_frame base res [] _ _ (kw_imposeSync (base ++ res) paths2 write read [])) as H. rewrite app_nil_r in H.
  eapply kw_bind; [exact H|]. intros [cands u']. by apply kw_ret.
Qed.

(** At the end of a search nothing is left over. *)
Lemma kw_give_up {A} pre (a : A) : keeps_with [] pre (mret a) (λ _, []).
Proof. intros x x' a' Hx [= <- _]. eapply working_sub, Hx. apply sublist_nil_l. Qed.
Lemma kw_add_last l : keeps_with [] l (fence_addCandidates (Some l)) (λ _, []).
Proof. apply kw_addCandidates. Qed.
Hint Resolve kw_addCandidates : kw.

Lemma kw_non_sc_loop list rest : ∀ pre, keeps_with [] [] (non_sc_loop s fuel list pre rest) (λ _, []).
Proof.
  induction rest as [|act rest IH]; intros pre; cbn [non_sc_loop]; [by apply kw_ret|].
  apply kw_bind_from; intros a _. eapply kw_bind; [apply kw_plugin|]. intros x. case_match; [|apply IH].
  apply kw_bind_from; intros write _. apply (kw_bind [] _ id); [|intros l; apply kw_addCandidates].
  case_match; [apply kw_PatternA|]. case_match; [apply kw_PatternB|apply kw_err].
Qed.

Lemma kw_uninit_writes p u list : ∀ cands,
  keeps_with [] (default [] cands) (uninit_writes s fuel p u list cands) (λ r, default [] r.1).
Proof.
  induction list as [|write list IH]; intros cands; cbn [uninit_writes]; [by apply kw_ret|].
  apply kw_bind_from; intros w _. case_match; [apply IH|]. eapply kw_bind; [apply kw_rf_sb_paths|]. intros paths.
  case_match; [apply IH|]. apply kw_bind_from; intros l ->%deref_Ok. simpl. eapply kw_bind; [apply kw_imposeSync|].
  intros [l' b]. eapply kw_bind; [apply kw_addCandidates|]. intros [|]; [by apply kw_ret|apply (IH None)].
Qed.

Lemma kw_buggy_loop list rest : ∀ cands, keeps_with [] (default [] cands) (buggy_loop s fuel list rest cands) (λ _, []).
Proof.
  induction rest as [|p rest IH]; intros cands; cbn [buggy_loop]; [apply kw_give_up|].
  apply kw_bind_from; intros u _. case_match; [apply IH|]. apply kw_bind_from; intros rf _. apply kw_bind_from; intros w _.
  case_match; [apply IH|]. eapply kw_bind; [apply kw_uninit_writes|]. intros [cands' [|]]; [apply kw_give_up|apply IH].
Qed.

Lemma kw_implicit_loop rest : ∀ cands, keeps_with [] (default [] cands) (implicit_loop s fuel rest cands) (λ _, []).
Proof.
  induction rest as [|write2 rest IH]; intros cands; cbn [implicit_loop]; [apply kw_give_up|].
  apply kw_bind_from; intros w2 _. case_match; [apply IH|]. apply kw_bind_from; intros [[write1 passed]|] _; [|apply IH].
  apply kw_bind_from; intros n _. eapply kw_bind; [apply kw_plugin|]. intros x. case_match; [apply IH|].
  eapply kw_bind; [apply kw_rf_sb_paths|]. intros paths. case_match; [apply IH|]. apply kw_bind_from; intros l ->%deref_Ok.
  simpl. eapply kw_bind; [apply kw_imposeSync|]. intros [l' b]. eapply kw_bind; [apply kw_addCandidates|].
  intros [|]; [by apply kw_ret|apply (IH None)].
Qed.

Lemma kw_dataRace list : keeps_with [] [] (addFixesDataRace s fuel list) (λ _, []).
Proof.
  unfold addFixesDataRace. apply kw_bind_from; intros [[act1 act2]|] _; [|by apply kw_ret].
  eapply kw_bind; [apply kw_plugin|]. intros x. cbv zeta. apply kw_bind_from; intros n1 _. apply kw_bind_from; intros p2 _. eapply kw_bind; [apply kw_rf_sb_paths|]. intros paths1.
  apply kw_bind_from; intros n2 _. apply kw_bind_from; intros p1 _. eapply kw_bind; [apply kw_rf_sb_paths|]. intros paths2.
  apply (kw_bind [] _ (λ _, [])); [|intros; by apply kw_ret]. case_match; [by apply kw_ret|].
  eapply kw_bind; [apply kw_imposeSync|]. intros [l1 b1]. eapply kw_bind; [apply kw_addCandidates|]. intros ?.
  case_match; [by apply kw_ret|]. eapply kw_bind; [apply kw_imposeSync|]. intros [l2 b2].
  eapply kw_bind; [apply kw_addCandidates|]. intros ?. by apply kw_ret.
Qed.

Lemma kw_addFixes list type : keeps_with [] [] (addFixes s fuel list type) (λ _, []).
Proof.
  unfold addFixes. eapply kw_bind; [apply kw_curInfer|]. intros c. case_match; [by apply kw_ret|].
  apply (kw_bind [] _ (λ _, [])).
  { destruct type; [apply (kw_buggy_loop _ _ (Some []))|apply (kw_implicit_loop _ (Some []))|apply kw_non_sc_loop|apply kw_dataRace]. }
  intros added. eapply kw_bind.
  { unfold isBuggy. eapply kw_bind; [apply kw_curInfer|]. intros c'. by apply (kw_ret [] [] _ (λ _, [])). }
  intros buggy. apply (kw_bind [] _ (λ _, [])); [|intros; by apply kw_ret]. case_match; [by apply kw_on_cur|by apply kw_ret].
Qed.
End searches.

(** ** The hooks *)

Lemma kw_routineBacktrack feasible : keeps_with [] [] (routineBacktrack feasible) (λ _, []).
Proof.
  intros x x' b Hx H. destruct (routineBacktrack_spec feasible x Hx) as (x1 & b1 & E & Hbt). assert (x1 = x') as -> by congruence.
  apply Hbt.
Qed.

Lemma kw_routineAfterAddFixes : keeps_with [] [] routineAfterAddFixes (λ _, []).
Proof.
  intros x x' u Hx H. unfold routineAfterAddFixes in H. apply fence_bind_Ok in H as (x1 & r & (st & H1 & ->)%on_set_Ok & H).
  destruct (getNextInference_working _ _ Hx) as (st' & r' & sk & E & _ & Hw).
  unfold the_set in E. rewrite H1 in E. injection E as <- <-.
  destruct r as [p|].
  - apply fence_bind_Ok in H as (x2 & ? & [= <- _] & H). unfold restartModelChecker in H.
    apply fence_bind_Ok in H as (x3 & ? & [= <- _] & H). apply fence_bind_Ok in H as (x4 & ? & [= <- <-] & H).
    simpl in H. case_match; by injection H as <- _.
  - apply fence_bind_Ok in H as (x2 & b & H2%kw_routineBacktrack & [= <- _]); done.
Qed.

Lemma kw_isTimeout base pre now : keeps_with base pre (isTimeout now) (λ _, pre).
Proof.
  unfold isTimeout. eapply kw_bind; [apply kw_plugin|]. intros x. cbv zeta. apply (kw_bind base _ (λ _, pre)); [|intros; by apply kw_ret].
  intros y y' u Hy [= <- _]. exact Hy.
Qed.

Lemma kw_analyze s fuel params toa now actions : keeps_with [] [] (fence_analyze s fuel params toa now actions) (λ _, []).
Proof.
  unfold fence_analyze. eapply kw_bind; [apply kw_plugin|]. intros x. apply (kw_bind [] _ (λ _, [])).
  { case_match; [apply kw_isTimeout|by apply kw_ret]. }
  intros timed_out. case_match.
  { eapply kw_bind; [apply kw_routineBacktrack|]. intros ?. by apply kw_ret. }
  apply (kw_bind [] _ (λ _, [])). { case_match; [by apply kw_on_cur|by apply kw_ret]. }
  intros _. eapply kw_bind; [apply kw_scgen|]. intros list. eapply kw_bind; [apply kw_plugin|]. intros x'. cbv zeta.
  apply (kw_bind [] _ (λ _, [])); [by apply kw_setf|]. intros _. case_match.
  - eapply kw_bind; [apply kw_addFixes|]. intros [|]; [apply kw_routineAfterAddFixes|].
    eapply kw_bind; [apply kw_routineBacktrack|]. intros ?. by apply kw_ret.
  - apply (kw_bind [] _ (λ _, [])). { case_match; [apply kw_bind_from; intros ? _|]; by apply kw_ret. }
    intros stuck. eapply kw_bind; [apply kw_addFixes|]. intros [|]; [apply kw_routineAfterAddFixes|by apply kw_ret].
Qed.

(** Looking up the order of a wildcard of the current inference. *)
Lemma cur_order_spec x c idx :
  holds x [] → is_infers (the_set x) !! the_cur x = Some c → (0 < idx <= MAX_WILDCARD_NUM)%Z →
  ∃ x' c', cur_order idx x = Ok (x', order c (Z.to_nat idx)) ∧ holds x' [] ∧ the_cur x' = the_cur x ∧
    is_infers (the_set x') !! the_cur x' = Some c' ∧ ∀ w, order c' w = order c w.
Proof.
  intros Hx Hc Hi. pose proof (so_wf _ (wk_ok _ _ _ Hx) _ _ Hc) as Wc.
  destruct (read_order_total idx c Wc Hi) as (c' & mo & Hr). destruct (read_order_Ok _ _ _ _ Wc Hr) as (_ & _ & _ & O & ->).
  assert (cur_order idx x = Ok (put_priv (put_set (put_infers (<[the_cur x := c']> (is_infers (the_set x))) (the_set x)) (sf_priv x)) x,
    order c (Z.to_nat idx))) as E.
  { unfold cur_order. apply fence_bind_Ok. exists x, (the_cur x). split; [done|]. apply on_set_Ok. eexists. split; [|done].
    unfold infer_at. unfold the_set in Hc. rewrite Hc. simpl. rewrite Hr. done. }
  eexists _, c'. split; [exact E|]. split_and!; [exact (kw_cur_order [] [] idx x _ _ Hx E)|done| |done]. apply lookup_insert_eq.
Qed.

Lemma set_cur_order_spec x c idx :
  holds x [] → is_infers (the_set x) !! the_cur x = Some c → (0 < idx <= MAX_WILDCARD_NUM)%Z →
  order c (Z.to_nat idx) = WILDCARD_NONEXIST →
  ∃ x' c', set_cur_order idx memory_order_relaxed x = Ok (x', tt) ∧ holds x' [] ∧ the_cur x' = the_cur x ∧
    is_infers (the_set x') !! the_cur x' = Some c' ∧
    ∀ w, order c' w = if decide (w = Z.to_nat idx) then memory_order_relaxed else order c w.
Proof.
  intros Hx Hc Hi Hn. pose proof (so_wf _ (wk_ok _ _ _ Hx) _ _ Hc) as Wc.
  destruct (read_order_total idx c Wc Hi) as (y & mo & Hr). unfold read_order in Hr. apply bind_Ok in Hr as ([y' i] & Hop & Hr).
  apply bind_Ok in Hr as (m & Hm%at_index_Ok & _).
  assert (write_order idx memory_order_relaxed c = Ok (set_orders (<[i := memory_order_relaxed]> (i_orders y')) (i_size y') y')) as Hwr.
  { unfold write_order. rewrite Hop. simpl. unfold set_at. by rewrite (proj2 (Nat.ltb_lt _ _)) by by eapply lookup_lt_Some. }
  destruct (write_order_Ok idx memory_order_relaxed _ _ Wc eq_refl Hwr) as (W & S & O). set (c' := set_orders _ _ y') in *.
  exists (put_priv (put_set (put_infers (<[the_cur x := c']> (is_infers (the_set x))) (the_set x)) (sf_priv x)) x), c'.
  split_and!; [|eapply (working_upd _ _ _ (the_cur x) c c')|done|apply lookup_insert_eq|done].
  - unfold set_cur_order. apply fence_bind_Ok. exists x, (the_cur x). split; [done|]. apply on_set__Ok. eexists. split; [|done].
    unfold infer_at. unfold the_set in Hc. rewrite Hc. simpl. by rewrite Hwr.
  - exact Hx.
  - exact Hc.
  - by apply same_but_orders_init.
  - exact W.
  - intros w. rewrite O. case_decide; [subst w; by rewrite Hn|done].
Qed.

(** Orders the plugin can deal with. *)
Definition admissible (mo : memory_order) : Prop :=
  in_enum mo = true ∨ mo = memory_order_normal ∨ (0 < get_wildcard_id mo <= MAX_WILDCARD_NUM)%Z.

Lemma inspect_spec x a :
  holds x [] → admissible (a_order a) →
  ∃ x' a', inspectModelAction (Some a) x = Ok (x', Some a') ∧ holds x' [] ∧ a' = set_mo (a_order a') a ∧ in_enum (a_order a') = true ∧
    (in_enum (a_order a) = true → a' = a ∧ x' = x) ∧ (a_order a = memory_order_normal → a_order a' = memory_order_relaxed ∧ x' = x) ∧
    (is_wildcard (a_order a) = true → ∃ c c', is_infers (the_set x) !! the_cur x = Some c ∧ is_infers (the_set x') !! the_cur x = Some c' ∧
       a_order a' = nonexist_relaxed (order c (Z.to_nat (get_wildcard_id (a_order a)))) ∧
       order c' (Z.to_nat (get_wildcard_id (a_order a))) = a_order a' ∧
       ∀ w, w ≠ Z.to_nat (get_wildcard_id (a_order a)) → order c' w = order c w).
Proof.
  intros Hx Ha. destruct (wk_heap _ _ _ Hx) as (c & Hc & _). unfold inspectModelAction.
  destruct (in_enum (a_order a)) eqn:Ein.
  { exists x, a. split_and!; [done|done|by destruct a|done|done| |].
    - intros E. rewrite E in Ein. done.
    - unfold is_wildcard. by rewrite Ein. }
  case_bool_decide as En.
  { exists x, (set_mo memory_order_relaxed a). split_and!; try done. unfold is_wildcard. rewrite En. done. }
  destruct Ha as [?|[?|Hi]]; [congruence|done|]. cbv zeta.
  set (idx := get_wildcard_id (a_order a)) in *. destruct (cur_order_spec x c idx Hx Hc Hi) as (x1 & c1 & E1 & H1 & Ecur & Hc1 & O1).
  pose proof (order_entry c (Z.to_nat idx) (so_wf _ (wk_ok _ _ _ Hx) _ _ Hc)) as Hent.
  destruct (decide (order c (Z.to_nat idx) = WILDCARD_NONEXIST)) as [Eno|Eno].
  - destruct (set_cur_order_spec x1 c1 idx H1 Hc1 Hi) as (x2 & c2 & E2 & H2 & Ecur2 & Hc2 & O2); [by rewrite O1|].
    exists x2, (set_mo memory_order_relaxed a). split_and!; try done.
    + apply fence_bind_Ok. exists x1, (order c (Z.to_nat idx)). split; [done|]. rewrite bool_decide_eq_true_2 by done.
      apply fence_bind_Ok. by exists x2, tt.
    + intros _. exists c, c2. split_and!; [done|congruence|by rewrite Eno|by rewrite O2, decide_True|].
      intros w Hw. by rewrite O2, decide_False, O1.
  - destruct (cur_order_spec x1 c1 idx H1 Hc1 Hi) as (x2 & c2 & E2 & H2 & Ecur2 & Hc2 & O2). rewrite O1 in E2.
    assert (nonexist_relaxed (order c (Z.to_nat idx)) = order c (Z.to_nat idx)) as Enr by (unfold nonexist_relaxed; by rewrite bool_decide_eq_false_2).
    exists x2, (set_mo (order c (Z.to_nat idx)) a). split_and!; try done.
    + apply fence_bind_Ok. exists x1, (order c (Z.to_nat idx)). split; [done|]. rewrite bool_decide_eq_false_2 by done.
      apply fence_bind_Ok. by exists x2, (order c (Z.to_nat idx)).
    + simpl. revert Eno. entry_cases (order c (Z.to_nat idx)) Hent; decide_goal.
    + intros _. exists c, c2. split_and!; [done|congruence|done|by rewrite O2, O1|]. intros w Hw. by rewrite O2, O1.
Qed.

Lemma kw_inspect act : keeps_with [] [] (inspectModelAction act) (λ _, []).
Proof.
  intros x x' r Hx H. destruct act as [a|]; [|by injection H as <- _].
  destruct (decide (admissible (a_order a))) as [Ha|Ha].
  { destruct (inspect_spec x a Hx Ha) as (x1 & a1 & E & Hx1 & _). assert (x1 = x') as -> by congruence. exact Hx1. }
  exfalso. unfold admissible in Ha. simpl in H. destruct (in_enum (a_order a)); [tauto|]. case_bool_decide; [tauto|].
  apply fence_bind_Ok in H as (x1 & mo & H & _). unfold cur_order in H. apply fence_bind_Ok in H as (x2 & cur & [= <- <-] & H).
  apply on_set_Ok in H as (st & H & _). apply bind_Ok in H as (c & Hc%infer_at_Ok & H). apply bind_Ok in H as ([c' m] & Hr & _).
  destruct (read_order_Ok _ _ _ _ (so_wf _ (wk_ok _ _ _ Hx) _ _ Hc) Hr) as (Hi & _). tauto.
Qed.

(** ** Reachable states *)

(** The hooks, and the rollback to a snapshot or a change of the checker's flags, which
    leave the private part alone. *)
Inductive hook_step : SCFence → SCFence → Prop :=
  | step_inspect x x' act act' : inspectModelAction act x = Ok (x', act') → hook_step x x'
  | step_analyze s fuel params toa now actions x x' :
      fence_analyze s fuel params toa now actions x = Ok (x', tt) → hook_step x x'
  | step_finish x x' : actionAtModelCheckingFinish x = Ok (x', tt) → hook_step x x'
  | step_checker x x' : sf_priv x' = sf_priv x → hook_step x x'.

Lemma new_SCFence_holds now time g : holds (new_SCFence now time g) [].
Proof.
  unfold holds, the_cur, the_set, new_SCFence, new_scfence_priv, new_infer, new_InferenceSet. simpl.
  split; [|constructor|set_solver| |set_solver].
  - split; simpl.
    + by intros p ?%elem_of_nil.
    + intros p [y [[<- _]|[_ ?]]%lookup_insert_Some]; [lia|done].
    + intros p y [[<- <-]|[_ ?]]%lookup_insert_Some; [apply new_Inference_wf|done].
    + intros p y [[<- <-]|[_ ?]]%lookup_insert_Some; [|done]. exists (new_Inference 1). simpl. rewrite lookup_insert_eq.
      split_and!; [done..|]. reflexivity.
  - exists (new_Inference 1). split; [reflexivity|]. set_solver.
Qed.

Lemma hook_step_holds x x' : hook_step x x' → holds x [] → holds x' [].
Proof.
  intros Hs Hx. destruct Hs as [x x' act act' H|s fuel params toa now actions x x' H|x x' H|x x' H].
  - exact (kw_inspect act x x' act' Hx H).
  - exact (kw_analyze _ _ _ _ _ _ x x' tt Hx H).
  - unfold actionAtModelCheckingFinish in H. apply fence_bind_Ok in H as (x1 & b & [= <- <-] & H). case_match; [by injection H as <-|].
    apply fence_bind_Ok in H as (x2 & b & H & [= <-]). exact (kw_routineBacktrack true x x2 b Hx H).
  - unfold holds, the_cur, the_set. by rewrite H.
Qed.


(** When the checker has finished with the current inference, or cannot fix it,
    backtracking always succeeds: the inference is marked as explored and, if it was
    feasible, recorded among the results; then either a waiting leaf becomes the current
    inference and the checker is told to restart, or no candidate is left and it is told
    to exit. *)
Theorem routineBacktrack_correct feasible x :
  holds x [] → ∃ x' again, routineBacktrack feasible x = Ok (x', again) ∧ backtracked feasible x x' again.
Proof. apply routineBacktrack_spec. Qed.

(** The plugin resolves the memory order of an action before it is executed. With a
    valid search state and an admissible order it always succeeds and changes nothing of
    the action but its order, which is then one of the language's five. Orders that are
    given are left alone, plain accesses are made relaxed, and a wildcard gets the order
    that the current inference has for it, relaxed if it has none; the inference then has
    that order for it and the same orders for all other wildcards. *)
Theorem inspect_correct x a :
  holds x [] → admissible (a_order a) →
  ∃ x' a', inspectModelAction (Some a) x = Ok (x', Some a') ∧ holds x' [] ∧ a' = set_mo (a_order a') a ∧ in_enum (a_order a') = true ∧
    (in_enum (a_order a) = true → a' = a ∧ x' = x) ∧ (a_order a = memory_order_normal → a_order a' = memory_order_relaxed ∧ x' = x) ∧
    (is_wildcard (a_order a) = true → ∃ c c', is_infers (the_set x) !! the_cur x = Some c ∧ is_infers (the_set x') !! the_cur x = Some c' ∧
       a_order a' = nonexist_relaxed (order c (Z.to_nat (get_wildcard_id (a_order a)))) ∧
       order c' (Z.to_nat (get_wildcard_id (a_order a))) = a_order a' ∧
       ∀ w, w ≠ Z.to_nat (get_wildcard_id (a_order a)) → order c' w = order c w).
Proof. apply inspect_spec. Qed.

(** ** Fixes for data races *)

(** [c] does not choose another inference and sets no flag of the checker. *)
Definition chosen (x : SCFence) := (the_cur x, sf_restart_flag x, sf_exit_flag x).
Definition quiet {A} (c : fence A) : Prop := ∀ x x' a, c x = Ok (x', a) → chosen x' = chosen x.

Lemma quiet_ret {A} (a : A) : quiet (mret a).
Proof. by intros x x' a' [= <- _]. Qed.
Lemma quiet_bind {A B} (c : fence A) (k : A → fence B) : quiet c → (∀ a, quiet (k a)) → quiet (c ≫= k).
Proof. intros Hc Hk x x' b (x1 & a & H1 & H2)%fence_bind_Ok. apply Hk in H2. apply Hc in H1. congruence. Qed.
Lemma quiet_from {A} (r : result A) : quiet (fromf r).
Proof. by intros x x' a [-> _]%fromf_Ok. Qed.
Lemma quiet_plugin : quiet plugin.
Proof. by intros x x' a [= <- _]. Qed.
Lemma quiet_set {A} (c : InferState → result (InferState * A)) : quiet (on_set c).
Proof. by intros x x' a (st & _ & ->)%on_set_Ok. Qed.
Lemma quiet_scgen {A} (c : scg A) : quiet (on_scgen c).
Proof. intros x x' a H. unfold on_scgen in H. destruct (c (sf_scgen x)) as [[g a']|]; [|done]. by injection H as <- _. Qed.
Lemma quiet_setf f : (∀ x, chosen (f x) = chosen x) → quiet (setf f).
Proof. intros Hf x x' a [= <- _]. apply Hf. Qed.
Lemma quiet_foldF {A S} (f : A → S → fence S) l st : (∀ x st, quiet (f x st)) → quiet (foldF f l st).
Proof.
  intros Hf. revert st. induction l as [|x l IH]; intros st; cbn [foldF]; [apply quiet_ret|]. by apply quiet_bind.
Qed.

Ltac quiet :=
  repeat (cbv beta zeta; first
    [ solve [eauto with quiet nocore]
    | lazymatch goal with
      | |- quiet (mbind _ _) => apply quiet_bind; [|intros ?]
      | |- quiet (mret _) => apply quiet_ret
      | |- quiet (fromf _) => apply quiet_from
      | |- quiet plugin => apply quiet_plugin
      | |- quiet (on_set _) => apply quiet_set
      | |- quiet (on_set_ _) => apply quiet_set
      | |- quiet (on_scgen _) => apply quiet_scgen
      | |- quiet (setf _) => by apply quiet_setf
      | |- quiet (foldF _ _ _) => apply quiet_foldF; intros ? ?
      | |- quiet (match ?x with _ => _ end) => destruct x
      end ]).
Create HintDb quiet.

Section quiet.
Context (s : Exec) (fuel : nat).

Lemma quiet_curInfer : quiet curInfer.
Proof. unfold curInfer, getCurInference. quiet. Qed.
Lemma quiet_on_cur f : quiet (on_cur f).
Proof. unfold on_cur, getCurInference. quiet. Qed.
Lemma quiet_addCandidates l : quiet (fence_addCandidates l).
Proof. unfold fence_addCandidates, getCurInference. quiet. Qed.
Lemma quiet_applyPatch ps l : quiet (fence_applyPatch ps l).
Proof. unfold fence_applyPatch, getCurInference. quiet. Qed.
Lemma quiet_rf_sb_paths p q : quiet (rf_sb_paths s fuel p q).
Proof. unfold rf_sb_paths. quiet. Qed.
Hint Resolve quiet_curInfer quiet_on_cur quiet_addCandidates quiet_applyPatch quiet_rf_sb_paths : quiet.
Lemma quiet_sync_reads dup b e path : ∀ l, quiet (sync_reads s dup b e path l).
Proof. induction path as [|read path IH]; intros l; cbn [sync_reads]; quiet. Qed.
Hint Resolve quiet_sync_reads : quiet.
Lemma quiet_imposeSync l paths b e : quiet (imposeSync s l paths b e).
Proof. unfold imposeSync, imposeSync_path. quiet. Qed.
Hint Resolve quiet_imposeSync : quiet.

Lemma quiet_dataRace list : quiet (addFixesDataRace s fuel list).
Proof. unfold addFixesDataRace. quiet. Qed.

Lemma dataRace_false list x x' b : addFixesDataRace s fuel list x = Ok (x', b) → b = false.
Proof.
  intros H. unfold addFixesDataRace in H. apply fence_bind_Ok in H as (x1 & [[p q]|] & _ & H); [|by injection H as _ <-].
  do 7 (apply fence_bind_Ok in H as (? & ? & _ & H); cbv zeta in H). by apply fence_bind_Ok in H as (? & ? & _ & [= _ <-]).
Qed.

Lemma addFixes_race list x x' b : addFixes s fuel list DATA_RACE x = Ok (x', b) → b = false ∧ chosen x' = chosen x.
Proof.
  intros H. split.
  - unfold addFixes in H. apply fence_bind_Ok in H as (x1 & c & _ & H). case_match; [by injection H as _ <-|].
    apply fence_bind_Ok in H as (x2 & added & H2%dataRace_false & H). apply fence_bind_Ok in H as (x3 & buggy & _ & H).
    apply fence_bind_Ok in H as (x4 & u & _ & [= _ <-]). done.
  - revert H. assert (quiet (addFixes s fuel list DATA_RACE)) as Hq; [|apply Hq].
    unfold addFixes, isBuggy, fence_setHasFixes. pose proof (quiet_dataRace list). quiet.
Qed.
End quiet.


(** ** Message passing *)

(** One thread stores the data and then the flag, the other loads the flag and then the
    data; the main thread asserts that the data was there if the flag was set. *)
Definition mp_main : user unit :=
  atomic_init 64 0 ;; atomic_init 72 0 ;; thrd_create 80 1 ;; thrd_create 88 2 ;; join 80 ;; join 88 ;;
  r1 ← user_load 4 96; r2 ← user_load 4 104;
  model_assert (negb ((r1 =? 1)%N && (r2 =? 0)%N)).
Definition mp_thread (data ord1 ord2 : memory_order) (p : N) : user unit :=
  if (p =? 1)%N then atomic_store_explicit 64 1 data ;; atomic_store_explicit 72 1 ord1
  else
    r1 ← atomic_load_explicit int 72 ord2; r2 ← atomic_load_explicit int 64 data;
    user_store 4 96 (to_u64 r1) ;; user_store 4 104 (to_u64 r2).
(** With wildcards for the flag and plain accesses to the data. *)
Definition mp_wild : N → user unit := mp_thread memory_order_normal (wildcard 1) (wildcard 2).

Fixpoint skip_executions (n : nat) (user_main : user unit) (routine : N → user unit) : mc unit :=
  match n with
  | O => mret tt
  | S n => run_once default_params thread_address thread_at_address user_main routine no_plugins 200 100 ;; skip_executions n user_main routine
  end.
(** The end of an execution, counted from 0. *)
Definition nth_execution (n : nat) (user_main : user unit) (routine : N → user unit) : Exec :=
  match (m0 ← new_ModelChecker;
         (snapshot_record 0 ;; skip_executions n user_main routine ;;
          t ← on_exec (tid ← get_next_id; add_Thread tid (new_Thread None) ;; mret tid);
          run_rounds default_params thread_address thread_at_address user_main routine no_plugins 200 100 (Some t)) m0) with
  | Ok (m, _) => mc_execution m
  | Err _ => blank_Exec
  end.

Definition mp_fence : SCFence := new_SCFence 0 false (new_SCGenerator false false).
Definition mp_exec (n : nat) : Exec := nth_execution n mp_main mp_wild.
Local Notation mp_analyze n :=
  (fence_analyze (mp_exec n) 100 default_params thread_at_address 0 (x_action_trace (mp_exec n)) mp_fence).

(** The current inference after an analysis. *)
Definition inferred (r : result (SCFence * unit)) : option Inference :=
  match r with Ok (x, _) => is_infers (the_set x) !! the_cur x | Err _ => None end.




Lemma routineBacktrack_correct_witness :
  ∃ x', routineBacktrack true mp_fence = Ok (x', false) ∧ backtracked true mp_fence x' false ∧
    is_results (the_set x') = [1%positive].
Proof.
  destruct (routineBacktrack_correct true mp_fence) as (x' & b & E & H).
  - apply new_SCFence_holds.
  - pose proof E as E'. vm_compute in E'. injection E' as <- <-. eexists. split; [exact E|]. split; [exact H|reflexivity].
Defined.

Lemma inspect_correct_witness :
  ∃ x' a', inspectModelAction (Some (sample_op ATOMIC_READ (wildcard 7))) mp_fence = Ok (x', Some a') ∧
    a_order a' = memory_order_relaxed ∧ holds x' [].
Proof.
  destruct (inspect_correct mp_fence (sample_op ATOMIC_READ (wildcard 7))) as (x' & a' & E & H & _).
  - apply new_SCFence_holds.
  - right. right. vm_compute. split; [reflexivity|discriminate].
  - exists x', a'. split; [exact E|]. split; [|exact H]. vm_compute in E. injection E as _ <-. reflexivity.
Defined.
