(* ===== verification/CStrings.v ===== *)
(** * Strings and formatted input of the C library

    What the options, the output and the candidate file of the fence inference use:
    strings, [atoi], [fscanf] with %s and %d on a stream with its end-of-file flag, and numbers and fields of
    [printf]. *)

From Stdlib Require Import Ascii String.
From S2P Require Import Prelude.

(** A C string without its terminating NUL. *)
Abbreviation cstr := (list ascii).
Definition lit (s : string) : cstr := list_ascii_of_string s.
Definition newline : cstr := [ascii_of_nat 10].

#[global] Instance ascii_eq_dec : EqDecision ascii := ascii_dec.

(** [s[i]]; the NUL can be read, what follows it cannot. *)
Definition char_at (s : cstr) (i : nat) : result ascii :=
  if i <? length s then at_index s i else if i =? length s then Ok zero else Err OutOfBounds.

(** A string written into an array of [n] characters, with the NUL. *)
Definition in_buffer (n : nat) (s : cstr) : result cstr := if length s <? n then Ok s else Err OutOfBounds.

Definition isspace (c : ascii) : bool := let n := nat_of_ascii c in (n =? 32) || ((9 <=? n) && (n <=? 13)).
Definition isdigit (c : ascii) : bool := let n := nat_of_ascii c in (48 <=? n) && (n <=? 57).
Definition digit_val (c : ascii) : Z := (Z.of_nat (nat_of_ascii c) - 48)%Z.

Fixpoint skip_space (s : cstr) : cstr :=
  match s with c :: s' => if isspace c then skip_space s' else s | [] => [] end.
(** The longest prefix of characters with a property, and the rest. *)
Fixpoint span (f : ascii → bool) (s : cstr) : cstr * cstr :=
  match s with
  | [] => ([], [])
  | c :: s' => if f c then let '(a, b) := span f s' in (c :: a, b) else ([], s)
  end.

Definition take_sign (s : cstr) : bool * cstr :=
  match s with
  | c :: s' => if bool_decide (c = "-"%char) then (true, s') else if bool_decide (c = "+"%char) then (false, s') else (false, s)
  | [] => (false, s)
  end.
Definition decimal (ds : cstr) : Z := foldl (λ n c, (10 * n + digit_val c)%Z) 0%Z ds.
(** The behaviour of the library is undefined if the number is no [int]. *)
Definition int_value (neg : bool) (ds : cstr) : result Z :=
  let z := if neg then (- decimal ds)%Z else decimal ds in
  if ((- 2 ^ 31 <=? z) && (z <? 2 ^ 31))%Z then Ok z else Err Undefined.

Definition atoi (s : cstr) : result Z :=
  let '(neg, s) := take_sign (skip_space s) in int_value neg (span isdigit s).1.

(** ** Streams *)

(** What is left to read, and what [feof] returns. *)
Record stream := mkStream { s_rest : cstr; s_eof : bool }.
Definition fopened (contents : cstr) : stream := mkStream contents false.
(** A directive that stops at [s] has seen the end of the file if nothing is left. *)
Definition stopped_at (s : cstr) : stream := mkStream s (bool_decide (s = [])).

(** [fscanf(fp, "%s", …)]: none if there is no word, when it returns EOF and stores nothing. *)
Definition scan_s (fp : stream) : stream * option cstr :=
  match skip_space (s_rest fp) with
  | [] => (mkStream [] true, None)
  | s => let '(word, s) := span (λ c, negb (isspace c)) s in (stopped_at s, Some word)
  end.

(** [fscanf(fp, "%d", …)]: none if there is no number; a sign alone is consumed. *)
Definition scan_d (fp : stream) : result (stream * option Z) :=
  match skip_space (s_rest fp) with
  | [] => Ok (mkStream [] true, None)
  | s =>
      let '(neg, s) := take_sign s in
      let '(ds, s) := span isdigit s in
      if bool_decide (ds = []) then Ok (stopped_at s, None)
      else z ← int_value neg ds; Ok (stopped_at s, Some z)
  end.

(** ** Printing *)

Definition digit (n : nat) : ascii := ascii_of_nat (48 + n).
(** The digits of a number; ten are enough for an [int]. *)
Fixpoint digits (fuel : nat) (n : N) : cstr :=
  match fuel with
  | O => []
  | S fuel => (if (n <? 10)%N then [] else digits fuel (n / 10)) ++ [digit (N.to_nat (n mod 10))]
  end.
Definition print_d (n : nat) : cstr := digits 10 (N.of_nat n).
(** %d of an [int], and the [int] that is passed for an [unsigned int]. *)
Definition print_z (z : Z) : cstr :=
  if (z <? 0)%Z then "-"%char :: digits 10 (Z.to_N (- z)) else digits 10 (Z.to_N z).
Definition signed (n : N) : Z := if (n <? 2 ^ 31)%N then Z.of_N n else (Z.of_N n - 2 ^ 32)%Z.
(** %u, for up to 64 bits, %#x and %p. *)
Definition print_u (n : N) : cstr := digits 20 n.
Definition hex_digit (n : nat) : ascii := if n <? 10 then digit n else ascii_of_nat (87 + n).
Fixpoint hex_digits (fuel : nat) (n : N) : cstr :=
  match fuel with
  | O => []
  | S fuel => (if (n <? 16)%N then [] else hex_digits fuel (n / 16)) ++ [hex_digit (N.to_nat (n mod 16))]
  end.
Definition print_x (n : N) : cstr := if (n =? 0)%N then lit "0" else (lit "0x" ++ hex_digits 16 n)%list.
Definition print_p (n : N) : cstr := if (n =? 0)%N then lit "(nil)" else (lit "0x" ++ hex_digits 16 n)%list.
(** A field of [w] characters, justified to the right, and to the left. *)
Definition rjust (w : nat) (s : cstr) : cstr := replicate (w - length s) " "%char ++ s.
Definition ljust (w : nat) (s : cstr) : cstr := s ++ replicate (w - length s) " "%char.

(** ** Lemmas *)

Lemma digit_cases (n : N) (P : ascii → Z → Prop) :
  (∀ m : nat, m < 10 → P (digit m) (Z.of_nat m)) → P (digit (N.to_nat (n mod 10))) (Z.of_N (n mod 10)).
Proof.
  intros H. pose proof (N.mod_lt n 10 ltac:(lia)) as Hlt. specialize (H (N.to_nat (n mod 10)) ltac:(lia)).
  by rewrite N_nat_Z in H.
Qed.

Lemma digit_char (n : nat) : n < 10 → isdigit (digit n) = true ∧ isspace (digit n) = false ∧ digit_val (digit n) = Z.of_nat n.
Proof. intros H. by do 10 (destruct n as [|n]; [vm_compute; split_and!; reflexivity|]); lia. Qed.

Lemma digits_chars fuel : ∀ n, Forall (λ c, isdigit c = true ∧ isspace c = false) (digits fuel n).
Proof.
  induction fuel as [|fuel IH]; intros n; simpl; [constructor|]. apply Forall_app. split.
  - case_match; [constructor|apply IH].
  - constructor; [|constructor]. apply (digit_cases n (λ c _, isdigit c = true ∧ isspace c = false)).
    intros m Hm. destruct (digit_char m Hm) as (? & ? & ?). done.
Qed.

Lemma digits_length fuel : ∀ n, length (digits fuel n) ≤ fuel.
Proof. induction fuel as [|fuel IH]; intros n; simpl; [done|]. rewrite length_app. simpl. case_match; simpl; [lia|]. specialize (IH (n / 10)%N). lia. Qed.

Lemma digits_value fuel : ∀ n, (n < 10 ^ N.of_nat fuel)%N → decimal (digits fuel n) = Z.of_N n.
Proof.
  induction fuel as [|fuel IH]; intros n Hn; simpl.
  { rewrite N.pow_0_r in Hn. assert (n = 0%N) as -> by lia. done. }
  unfold decimal. rewrite foldl_app. fold (decimal (if (n <? 10)%N then [] else digits fuel (n / 10))). simpl.
  rewrite (digit_cases n (λ c z, digit_val c = z) (λ m Hm, proj2 (proj2 (digit_char m Hm)))).
  pose proof (N.div_mod n 10 ltac:(lia)) as Hd. destruct (N.ltb_spec n 10).
  - rewrite (N.mod_small n 10) by lia. unfold decimal. simpl. done.
  - rewrite IH; [lia|]. apply N.Div0.div_lt_upper_bound. replace (N.of_nat (S fuel)) with (N.succ (N.of_nat fuel)) in Hn by lia.
    rewrite N.pow_succ_r' in Hn. lia.
Qed.

Lemma digits_nonempty fuel n : digits (S fuel) n ≠ [].
Proof. simpl. intros [_ [=]]%app_nil. Qed.

Lemma span_all f s c r : Forall (λ c, f c = true) s → f c = false → span f (s ++ c :: r) = (s, c :: r).
Proof. induction 1 as [|x s Hx _ IH]; intros Hc; simpl; [by rewrite Hc|]. by rewrite Hx, IH. Qed.

(** A word; after spaces and before one it is read by [scan_s]. *)
Definition word (w : cstr) : Prop := w ≠ [] ∧ Forall (λ c, isspace c = false) w.
#[global] Instance word_dec w : Decision (word w).
Proof. unfold word. apply _. Defined.
Definition spaces (s : cstr) : Prop := Forall (λ c, isspace c = true) s.

Lemma skip_space_word sp w r : spaces sp → word w → skip_space (sp ++ w ++ r) = w ++ r.
Proof.
  intros Hs [Hn Hw]. induction Hs as [|c sp Hc _ IH]; simpl; [|by rewrite Hc].
  destruct w as [|c w]; [done|]. simpl. inversion Hw as [|? ? Hc]; subst. by rewrite Hc.
Qed.

Lemma skip_space_end sp : spaces sp → skip_space sp = [].
Proof. induction 1 as [|c sp Hc _ IH]; simpl; [done|]. by rewrite Hc. Qed.

Lemma scan_s_word sp w c r b :
  spaces sp → word w → isspace c = true → scan_s (mkStream (sp ++ w ++ c :: r) b) = (mkStream (c :: r) false, Some w).
Proof.
  intros Hs Hw Hc. unfold scan_s. cbn [s_rest]. rewrite skip_space_word by done.
  destruct Hw as [Hn Hw]. destruct w as [|x w]; [done|]. cbn [app]. change (x :: w ++ c :: r) with ((x :: w) ++ c :: r).
  rewrite span_all; [reflexivity| |by rewrite Hc]. eapply Forall_impl; [exact Hw|]. intros y Hy. cbv beta in Hy. by rewrite Hy.
Qed.

Lemma scan_s_end sp b : spaces sp → scan_s (mkStream sp b) = (mkStream [] true, None).
Proof. intros Hs. unfold scan_s. simpl. by rewrite skip_space_end. Qed.

Lemma scan_d_end sp b : spaces sp → scan_d (mkStream sp b) = Ok (mkStream [] true, None).
Proof. intros Hs. unfold scan_d. simpl. by rewrite skip_space_end. Qed.

Lemma take_sign_digit s : Forall (λ c, isdigit c = true) s → ∀ r, s ≠ [] → take_sign (s ++ r) = (false, s ++ r).
Proof.
  intros Hs r Hn. destruct s as [|c s]; [done|]. inversion Hs as [|? ? Hc _]; subst. simpl.
  rewrite !bool_decide_eq_false_2; [done|intros ->; discriminate|intros ->; discriminate].
Qed.

Lemma print_d_word n : word (print_d n).
Proof. split; [apply digits_nonempty|]. eapply Forall_impl; [apply digits_chars|]. by intros ? [_ ?]. Qed.

Lemma print_d_length n : length (print_d n) ≤ 10.
Proof. apply digits_length. Qed.

(** Round trip of numbers. *)
Lemma scan_d_print_d sp n c r b :
  spaces sp → (Z.of_nat n < 2 ^ 31)%Z → isspace c = true →
  scan_d (mkStream (sp ++ print_d n ++ c :: r) b) = Ok (mkStream (c :: r) false, Some (Z.of_nat n)).
Proof.
  intros Hs Hn Hc. pose proof (print_d_word n) as Hw.
  assert (Forall (λ c, isdigit c = true) (print_d n)) as Hd by (eapply Forall_impl; [apply digits_chars|]; by intros ? [? _]).
  assert (isdigit c = false) as Hc'.
  { revert Hc. unfold isspace, isdigit. generalize (nat_of_ascii c). intros m. case_tests; simpl; try done; lia. }
  unfold scan_d. cbn [s_rest]. rewrite skip_space_word by done. destruct (print_d n) as [|x s] eqn:E; [by destruct Hw|].
  change ((x :: s) ++ c :: r) with (x :: s ++ c :: r). cbv iota beta. change (x :: s ++ c :: r) with ((x :: s) ++ c :: r).
  rewrite take_sign_digit by done. rewrite span_all by done. cbv iota beta. rewrite bool_decide_eq_false_2 by done. rewrite <- E.
  unfold int_value, print_d. rewrite digits_value by (change (10 ^ N.of_nat 10)%N with 10000000000%N; lia).
  rewrite nat_N_Z. destruct (Z.leb_spec (- 2 ^ 31) (Z.of_nat n)); [|lia]. destruct (Z.ltb_spec (Z.of_nat n) (2 ^ 31)); [|lia]. done.
Qed.
