(* ===== verification/FenceInput.v ===== *)
(** * Options and candidate files of the fence inference (scfence/scfence.cc, inference.cc, inferlist.cc)

    The inference plugin can start from inferences in a file, which has the form in which
    the plugin prints its results. *)

From Stdlib Require Import Ascii String.
From S2P Require Import Prelude Action CStrings SCGen Inference InferSet SCFence FenceSearch.

(** ** Printing *)

Definition get_mo_str (order : memory_order) : cstr :=
  match order with
  | memory_order_relaxed => lit "relaxed"
  | memory_order_acquire => lit "acquire"
  | memory_order_release => lit "release"
  | memory_order_acq_rel => lit "acq_rel"
  | memory_order_seq_cst => lit "seq_cst"
  | _ => lit "unknown"
  end.

(** The name of an order in the file. *)
Definition order_word (mo : memory_order) : cstr := (lit "memory_order_" ++ get_mo_str mo)%list.
Definition entry_line (i : nat) (mo : memory_order) : cstr :=
  (lit "wildcard " ++ print_d i ++ lit " -> " ++ order_word mo ++ newline)%list.

(** [Inference::print]; a hash has at most twenty digits. *)
Definition infer_print (hasHash : bool) (this : Inference) : result cstr :=
  _ ← ASSERT ((0 <? i_size this) && (Z.of_nat (i_size this) <=? MAX_WILDCARD_NUM)%Z);
  out ← foldM (λ i out,
    mo ← at_index (i_orders this) i;
    Ok (if bool_decide (mo ≠ WILDCARD_NONEXIST) then out ++ entry_line i mo else out)%list) (seq 1 (i_size this)) [];
  Ok (if hasHash then out ++ lit "Hash: " ++ digits 20 (getHash this) ++ newline else out)%list.

(** [InferenceList::print(inferList, msg)] *)
Definition list_print (msg : string) (inferList : list ptr) (st : InferState) : result cstr :=
  '(out, _) ← foldM (λ p '(out, idx),
    infer ← infer_at p st;
    text ← infer_print false infer;
    Ok (out ++ lit msg ++ lit " " ++ print_d idx ++ lit ":" ++ newline ++ text ++ newline, S idx)%list) inferList ([], 0);
  Ok out.

(** ** The candidate file *)

(** The local variables of [initializeByFile]; [str] has no value at first. *)
Record reader := mkReader {
  rd_fp : stream;
  rd_str : option cstr;
  rd_curNum : Z;
  rd_mo : memory_order
}.

(** [ret = fscanf(fp, "%s", str)], where [str] has room for 30 characters, and
    [fscanf(fp, "%d", &curNum)]; the file is a text without NULs. *)
Definition read_word (r : reader) : result (reader * Z) :=
  match scan_s (rd_fp r) with
  | (fp, None) => Ok (mkReader fp (rd_str r) (rd_curNum r) (rd_mo r), -1)%Z
  | (fp, Some w) => w ← in_buffer 31 w; Ok (mkReader fp (Some w) (rd_curNum r) (rd_mo r), 1)%Z
  end.
Definition read_num (r : reader) : result reader :=
  '(fp, n) ← scan_d (rd_fp r); Ok (mkReader fp (rd_str r) (default (rd_curNum r) n) (rd_mo r)).

(** [strcmp(str, s) == 0] *)
Definition str_is (r : reader) (s : cstr) : result bool :=
  match rd_str r with None => Err Undefined | Some w => Ok (bool_decide (w = s)) end.
(** The order named by [str]; another word leaves [mo] as it is. *)
Definition read_mo (r : reader) : result memory_order :=
  found ← until (λ mo, b ← str_is r (order_word mo); Ok (if (b : bool) then Some mo else None))
    [memory_order_relaxed; memory_order_acquire; memory_order_release; memory_order_acq_rel; memory_order_seq_cst];
  Ok (default (rd_mo r) found).

(** [( *infer)[idx] = mo] *)
Definition set_order_at (infer : ptr) (idx : Z) (mo : memory_order) : fence unit :=
  on_set_ (λ st, x ← infer_at infer st; x ← write_order idx mo x; Ok (put_infers (<[infer := x]> (is_infers st)) st)).

(** The rest of a line, after its first word. *)
Definition read_entry (infer : ptr) (r : reader) : fence reader :=
  r ← fromf (read_num r);
  '(r, ret) ← fromf (read_word r);
  if (ret <=? 0)%Z && negb (ret =? -1)%Z then fromf (Err Exited)
  else
    '(r, _) ← fromf (read_word r);
    mo ← fromf (read_mo r);
    set_order_at infer (rd_curNum r) mo ;;
    mret (mkReader (rd_fp r) (rd_str r) (rd_curNum r) mo).

(** The inner loop; the flag is [isProcessing]. Each round of a loop reads a character or
    finds the end of the file. *)
Fixpoint read_entries (fuel : nat) (infer : ptr) (r : reader) : fence (reader * bool) :=
  if s_eof (rd_fp r) then mret (r, false)
  else match fuel with
  | O => fromf (Err OutOfFuel)
  | S fuel =>
      '(r, _) ← fromf (read_word r);
      result ← fromf (str_is r (lit "Result"));
      if (result : bool) then mret (r, true)
      else r ← read_entry infer r; read_entries fuel infer r
  end.

(** Adding an inference that was read. *)
Definition add_or_delete (infer : ptr) : fence unit :=
  added ← fence_addInference infer;
  if (added : bool) then mret tt else on_set_ (delete_infer infer).

Fixpoint read_inferences (fuel : nat) (isProcessing : bool) (r : reader) : fence unit :=
  if s_eof (rd_fp r) then mret tt
  else match fuel with
  | O => fromf (Err OutOfFuel)
  | S fuel =>
      '(r, _) ← (if isProcessing then mret (r, 0%Z) else fromf (read_word r));
      result ← fromf (str_is r (lit "Result"));
      if (result : bool) || isProcessing then
        '(r, _) ← fromf (read_word r);
        infer ← on_set (λ st, Ok (new_infer (new_Inference (is_next st)) st));
        '(r, isProcessing) ← read_entries fuel infer r;
        add_or_delete infer ;;
        read_inferences fuel isProcessing r
      else read_inferences fuel isProcessing r
  end.

(** The first inference of the set becomes the current one. *)
Definition start_with_next : fence unit :=
  next ← fence_getNextInference;
  match next with Some next => setCurInference next | None => mret tt end.

Section files.
(** The contents of a file, if it can be opened. *)
Context (fopen : cstr → option cstr).

Definition initializeByFile : fence unit :=
  x ← plugin;
  name ← fromf (deref (fp_candidateFile (sf_priv x)));
  match fopen name with
  | None => fromf (Err Exited)
  | Some contents =>
      read_inferences (S (length contents)) false (mkReader (fopened contents) None 0 memory_order_relaxed) ;;
      start_with_next
  end.

(** ** Options *)

(** The characters up to a bar or the end; they are copied to an array of 1024. *)
Definition parseOptionHelper (opt : cstr) (optIdx : nat) : result (cstr * nat) :=
  if length opt <? optIdx then Err OutOfBounds
  else
    let res := (span (λ c, bool_decide (c ≠ "|"%char)) (drop optIdx opt)).1 in
    res ← in_buffer 1024 res;
    Ok (res, optIdx + length res).

(** One option with its value; the result is what [parseOption] returns, if it does. *)
Definition parse_one (option : ascii) (val : cstr) : fence bool :=
  if bool_decide (option = "f"%char) then
    set_priv (put_candidateFile (Some val)) ;; mret (bool_decide (val = []))
  else if bool_decide (option = "b"%char) then
    n ← fromf (atoi val); set_priv (put_implicitMOReadBound n) ;; mret (n <=? 0)%Z
  else if bool_decide (option = "m"%char) then
    set_priv (put_inferImplicitMO true) ;; mret (bool_decide (val ≠ []))
  else if bool_decide (option = "a"%char) then
    on_scgen (changeg (setAnnotationMode true)) ;; mret (bool_decide (val ≠ []))
  else if bool_decide (option = "t"%char) then
    n ← fromf (atoi val); set_priv (put_timeout n) ;; mret false
  else mret true.

(** Each round reads at least one character. *)
Fixpoint parse_loop (fuel : nat) (opt : cstr) (optIdx : nat) : fence bool :=
  match fuel with
  | O => fromf (Err OutOfFuel)
  | S fuel =>
      option ← fromf (char_at opt optIdx);
      '(val, optIdx) ← fromf (parseOptionHelper opt (S optIdx));
      error ← parse_one option val;
      if (error : bool) then mret true
      else
        c ← fromf (char_at opt optIdx);
        if bool_decide (c = "|"%char) then parse_loop fuel opt (S optIdx) else mret false
  end.
Definition parseOption (opt : cstr) : fence bool := parse_loop (S (length opt)) opt 0.

Fixpoint strip_prefix (p s : cstr) : option cstr :=
  match p, s with
  | [], _ => Some s
  | a :: p, b :: s => if bool_decide (a = b) then strip_prefix p s else None
  | _ :: _, [] => None
  end.

(** Both copy the rest to an array of 1024 characters. *)
Definition getInputFileName (opt : cstr) : result (option cstr) :=
  match strip_prefix (lit "file-") opt with
  | Some res => res ← in_buffer 1024 res; Ok (Some res)
  | None => Ok None
  end.
Definition getImplicitMOBound (opt : cstr) : result Z :=
  match strip_prefix (lit "bound-") opt with
  | Some num => num ← in_buffer 1024 num; atoi num
  | None => Ok 0%Z
  end.

(** [option]: whether the option is refused. The bound is tested as an unsigned number. *)
Definition fence_option (opt : cstr) : fence bool :=
  if bool_decide (opt = lit "verbose") then on_scgen (changeg (setPrintAlways true)) ;; mret false
  else if bool_decide (opt = lit "buggy") then mret false
  else if bool_decide (opt = lit "quiet") then on_scgen (changeg (setPrintBuggy false)) ;; mret false
  else if bool_decide (opt = lit "nonsc") then on_scgen (changeg (setPrintNonSC true)) ;; mret false
  else if bool_decide (opt = lit "time") then setf (put_time true) ;; mret false
  else if bool_decide (opt = lit "no-weaken") then setf (put_weaken false) ;; mret false
  else if bool_decide (opt = lit "anno") then on_scgen (changeg (setAnnotationMode true)) ;; mret false
  else if bool_decide (opt = lit "implicit-mo") then set_priv (put_inferImplicitMO true) ;; mret false
  else
    inputFileName ← fromf (getInputFileName opt);
    match inputFileName with
    | Some name =>
        if bool_decide (name = []) then mret true
        else set_priv (put_candidateFile (Some name)) ;; initializeByFile ;; mret false
    | None =>
        bound ← fromf (getImplicitMOBound opt);
        if (0 <? bound mod 2 ^ 32)%Z then set_priv (put_implicitMOReadBound bound) ;; mret false
        else mret true
    end.

End files.

(** ** Reading what was printed *)

(** The wildcards with an order, and an inference to which they are added. *)
Definition assigned (this : Inference) : list (nat * memory_order) :=
  filter (λ e, e.2 ≠ WILDCARD_NONEXIST) (zip (seq 1 (i_size this)) (drop 1 (i_orders this))).
Definition fill (es : list (nat * memory_order)) (x : Inference) : result Inference :=
  foldM (λ '(w, mo), write_order (Z.of_nat w) mo) es x.
Definition lines (es : list (nat * memory_order)) : cstr := concat (map (λ e, entry_line e.1 e.2) es).
Definition entry_ok (e : nat * memory_order) : Prop := 0 < e.1 ∧ (Z.of_nat e.1 ≤ MAX_WILDCARD_NUM)%Z ∧ is_order e.2 = true.

Lemma assigned_ok this : wf_Inference this → Forall entry_ok (assigned this).
Proof.
  intros [Hl Hs He]. unfold assigned. apply Forall_forall. intros [w mo] [Hne H]%list_elem_of_filter.
  apply list_elem_of_lookup in H as [k Hk]. apply lookup_zip_with_Some in Hk as (a & b & [= -> ->] & Ha & Hb).
  apply lookup_seq in Ha as [-> Hk]. rewrite lookup_drop in Hb. split_and!; simpl; [lia|lia|].
  pose proof (Forall_lookup_1 _ _ _ _ He Hb) as Hm. unfold is_entry in Hm. apply orb_true_iff in Hm as [?|?%bool_decide_eq_true]; done.
Qed.

Lemma elem_of_assigned this w mo :
  wf_Inference this → (w, mo) ∈ assigned this ↔ 0 < w ∧ order this w = mo ∧ mo ≠ WILDCARD_NONEXIST.
Proof.
  intros [Hl Hs He]. unfold assigned. rewrite list_elem_of_filter. simpl. split.
  - intros [Hne H]. apply list_elem_of_lookup in H as [k Hk]. apply lookup_zip_with_Some in Hk as (a & b & [= -> ->] & Ha & Hb).
    apply lookup_seq in Ha as [-> Hk]. rewrite lookup_drop in Hb. split_and!; [lia| |done]. unfold order. by rewrite Hb.
  - intros (Hw & Ho & Hne). split; [done|]. unfold order in Ho. destruct (i_orders this !! w) as [m|] eqn:E; simpl in Ho; [|congruence].
    subst m. apply list_elem_of_lookup. exists (w - 1). apply lookup_zip_with_Some. exists w, mo. split_and!; [done| |].
    + apply lookup_seq. apply lookup_lt_Some in E. lia.
    + rewrite lookup_drop. by replace (1 + (w - 1)) with w by lia.
Qed.

Lemma print_lines this : wf_Inference this → infer_print false this = Ok (lines (assigned this)).
Proof.
  intros [Hl [H1 H2] _]. unfold infer_print. rewrite (proj2 (Nat.ltb_lt _ _) H1), (proj2 (Z.leb_le _ _) H2). simpl.
  assert (∀ n k out, k + n ≤ S (i_size this) →
    foldM (λ i out, mo ← at_index (i_orders this) i;
      Ok (if bool_decide (mo ≠ WILDCARD_NONEXIST) then out ++ entry_line i mo else out)%list) (seq k n) out
    = Ok (out ++ lines (filter (λ e, e.2 ≠ WILDCARD_NONEXIST) (zip (seq k n) (drop k (i_orders this)))))) as H.
  { induction n as [|n IH]; intros k out Hk; simpl; [by rewrite app_nil_r|].
    destruct (lookup_lt_is_Some_2 (i_orders this) k) as [mo Hmo]; [lia|]. rewrite (proj2 (at_index_Ok _ _ _) Hmo). simpl.
    rewrite IH by lia. rewrite (drop_S _ _ _ Hmo). cbn [zip_with]. rewrite filter_cons. simpl.
    case_bool_decide as E; [rewrite decide_True by done|by rewrite decide_False by (intros ?; congruence)]. unfold lines. simpl. by rewrite <- app_assoc. }
  rewrite H by lia. done.
Qed.

Lemma write_order_total idx mo x : wf_Inference x → (0 < idx <= MAX_WILDCARD_NUM)%Z → ∃ x', write_order idx mo x = Ok x'.
Proof.
  intros Wx Hi. destruct (read_order_total idx x Wx Hi) as (y & m & Hr). unfold read_order in Hr. unfold write_order.
  apply bind_Ok in Hr as ([y' i] & -> & Hr). apply bind_Ok in Hr as (m' & Hm%at_index_Ok & [= -> ->]). simpl. unfold set_at.
  apply lookup_lt_Some in Hm. rewrite (proj2 (Nat.ltb_lt _ _) Hm). simpl. by eexists.
Qed.

(** Writing what is there already changes nothing. *)
Lemma write_order_again idx mo x x' :
  wf_Inference x → is_entry mo = true → write_order idx mo x = Ok x' → write_order idx mo x' = Ok x'.
Proof.
  intros Wx Hmo H. destruct (write_order_Ok _ _ _ _ Wx Hmo H) as (W' & _ & O').
  unfold write_order in H. apply bind_Ok in H as ([y i] & Hop & H). apply bind_Ok in H as (l & Hl & [= <-]).
  assert ((0 < idx)%Z ∧ i = Z.to_nat idx ∧ (idx ≤ Z.of_nat (i_size y))%Z) as (H0 & -> & H1).
  { unfold op_index in Hop. case_match eqn:E.
    - injection Hop as <- <-. apply andb_true_iff in E as [?%Z.ltb_lt ?%Z.leb_le]. lia.
    - apply bind_Ok in Hop as (y1 & Hr & Hop). apply bind_Ok in Hop as (l1 & _ & [= <- <-]). simpl.
      unfold resize in Hr. apply bind_Ok in Hr as (? & Ha%ASSERT_Ok & [= <-]). simpl.
      apply andb_true_iff in Ha as [?%Z.ltb_lt _]. lia. }
  unfold set_at in Hl. destruct (Nat.ltb_spec (Z.to_nat idx) (length (i_orders y))) as [Hlt|]; [|done]. injection Hl as <-.
  unfold write_order, op_index. simpl. rewrite (proj2 (Z.ltb_lt _ _) H0), (proj2 (Z.leb_le _ _) H1). simpl.
  unfold set_at. rewrite length_insert, (proj2 (Nat.ltb_lt _ _) Hlt). simpl. by rewrite list_insert_insert_eq.
Qed.

Lemma fill_ok es : ∀ x, wf_Inference x → Forall entry_ok es →
  ∃ y, fill es x = Ok y ∧ wf_Inference y ∧ same_but_orders x y ∧
    ∀ w, (w ∉ es.*1 → order y w = order x w) ∧ (∀ mo, (∀ m, (w, m) ∈ es → m = mo) → w ∈ es.*1 → order y w = mo).
Proof.
  induction es as [|[v m] es IH]; intros x Wx Hes.
  { exists x. split_and!; [done|done|reflexivity|]. intros w. split; [done|]. intros mo _ H. by apply elem_of_nil in H. }
  apply Forall_cons in Hes as [(Hv & Hm & Ho) Hes]. simpl in *.
  destruct (write_order_total (Z.of_nat v) m x Wx) as [x1 E1]; [lia|]. pose proof (is_order_entry _ Ho) as Hme.
  destruct (write_order_Ok _ _ _ _ Wx Hme E1) as (W1 & S1 & O1). destruct (IH x1 W1 Hes) as (y & Ey & Wy & Sy & Oy).
  exists y. split_and!; [unfold fill; cbn [foldM]; by rewrite E1|done|by etrans|]. intros w. rewrite Nat2Z.id in O1. destruct (Oy w) as [Oy1 Oy2]. split.
  - intros Hw. apply not_elem_of_cons in Hw as [Hw1 Hw2]. rewrite Oy1, O1 by done. by rewrite decide_False.
  - intros mo Hmo Hw. destruct (decide (w ∈ es.*1)) as [Hin|Hin].
    + apply Oy2; [|done]. intros m' H. apply Hmo. by right.
    + rewrite Oy1, O1 by done. apply elem_of_cons in Hw as [->|]; [|done]. rewrite decide_True by done. apply Hmo. by left.
Qed.

(** One word. *)
Lemma read_word_word sp w c rest b s n m :
  spaces sp → word w → length w ≤ 30 → isspace c = true →
  read_word (mkReader (mkStream (sp ++ w ++ c :: rest) b) s n m) = Ok (mkReader (mkStream (c :: rest) false) (Some w) n m, 1%Z).
Proof.
  intros Hs Hw Hl Hc. unfold read_word. cbn [rd_fp]. rewrite scan_s_word by done. unfold in_buffer.
  by rewrite (proj2 (Nat.ltb_lt _ _)) by lia.
Qed.

Lemma read_word_end sp b s n m :
  spaces sp → read_word (mkReader (mkStream sp b) s n m) = Ok (mkReader (mkStream [] true) s n m, (-1)%Z).
Proof. intros Hs. unfold read_word. cbn [rd_fp]. by rewrite scan_s_end. Qed.

Lemma order_word_ok mo : word (order_word mo) ∧ length (order_word mo) ≤ 30 ∧ order_word mo ≠ lit "Result".
Proof. destruct mo; (split_and!; [apply (bool_decide_unpack _); vm_compute; exact Logic.I|vm_compute; lia|discriminate]). Qed.

Lemma read_mo_word fp n m mo : is_order mo = true → read_mo (mkReader fp (Some (order_word mo)) n m) = Ok mo.
Proof. destruct mo; intros H; [reflexivity..|discriminate]. Qed.

(** The text of a line, word by word. *)
Lemma entry_text w mo tail :
  newline ++ entry_line w mo ++ tail =
  newline ++ lit "wildcard" ++ " "%char :: print_d w ++ " "%char :: lit "->" ++ " "%char :: order_word mo ++ newline ++ tail.
Proof. unfold entry_line. rewrite <- !app_assoc. reflexivity. Qed.

Definition after_entry (w : nat) (mo : memory_order) (tail : cstr) : reader :=
  mkReader (mkStream (newline ++ tail) false) (Some (order_word mo)) (Z.of_nat w) mo.

(** One round of the inner loop. *)
Lemma read_entry_line fuel p w mo tail s n m x :
  entry_ok (w, mo) →
  read_entries (S fuel) p (mkReader (mkStream (newline ++ entry_line w mo ++ tail) false) s n m) x =
  (set_order_at p (Z.of_nat w) mo ;; read_entries fuel p (after_entry w mo tail)) x.
Proof.
  intros (Hw & Hm & Ho). rewrite entry_text. cbn [read_entries rd_fp s_eof fst snd] in *.
  unfold mbind, fence_bind, fromf. assert (spaces newline) as Hnl by (repeat constructor). assert (spaces [" "%char]) as Hsp by (repeat constructor).
  rewrite (read_word_word newline (lit "wildcard") " "%char); [|done|by apply (bool_decide_unpack _)|vm_compute; lia|done].
  cbn [str_is rd_str]. rewrite bool_decide_eq_false_2 by discriminate. unfold read_entry, mbind, fence_bind, fromf.
  unfold read_num. cbn [rd_fp]. assert (Z.of_nat w < 2 ^ 31)%Z as Hw' by (unfold MAX_WILDCARD_NUM in Hm; lia).
  match goal with |- context [scan_d (mkStream (?c :: ?l) false)] => change (c :: l) with ([c] ++ l) end.
  rewrite (scan_d_print_d [" "%char] w " "%char) by done. cbn [mbind result_bind default rd_str rd_mo]. unfold id.
  match goal with |- context [read_word (mkReader (mkStream (?c :: ?l) false) _ _ _)] => change (c :: l) with ([c] ++ l) end.
  rewrite (read_word_word [" "%char] (lit "->") " "%char); [|done|by apply (bool_decide_unpack _)|vm_compute; lia|done].
  cbv iota beta. cbn [andb negb Z.leb Z.eqb Z.compare].
  match goal with |- context [read_word (mkReader (mkStream (?c :: ?l) false) _ _ _)] => change (c :: l) with ([c] ++ l) end.
  destruct (order_word_ok mo) as (W1 & W2 & _). change (newline ++ tail) with (ascii_of_nat 10 :: tail).
  rewrite (read_word_word [" "%char] (order_word mo) (ascii_of_nat 10) tail false _ _ _ Hsp W1 W2 eq_refl).
  cbv iota beta. rewrite read_mo_word by done. cbn [rd_curNum rd_fp rd_str]. unfold after_entry.
  destruct (set_order_at p (Z.of_nat w) mo x) as [[x' []]|f] eqn:E; unfold mbind, fence_bind; rewrite ?E; reflexivity.
Qed.

(** The plugin with an inference of its heap replaced. *)
Definition heap (x : SCFence) : gmap ptr Inference := is_infers (fp_inferenceSet (sf_priv x)).
Definition at_heap (p : ptr) (y : Inference) (x : SCFence) : SCFence :=
  let st := fp_inferenceSet (sf_priv x) in put_priv (put_set (put_infers (<[p := y]> (is_infers st)) st) (sf_priv x)) x.

Lemma heap_at_heap p y x : heap (at_heap p y x) = <[p := y]> (heap x).
Proof. done. Qed.
Lemma at_heap_twice p y y' x : at_heap p y' (at_heap p y x) = at_heap p y' x.
Proof. unfold at_heap. simpl. by rewrite insert_insert_eq. Qed.
Lemma at_heap_same p y x : heap x !! p = Some y → at_heap p y x = x.
Proof. intros H. unfold at_heap. rewrite insert_id by done. by destruct x as [? ? ? ? [[] ? ? ? ? ? ? ?] ? ?]. Qed.

Lemma set_order_run p idx mo x y y' :
  heap x !! p = Some y → write_order idx mo y = Ok y' → set_order_at p idx mo x = Ok (at_heap p y' x, tt).
Proof.
  intros Hy H. unfold set_order_at, on_set_, on_set. unfold infer_at. unfold heap in Hy. rewrite Hy. simpl. by rewrite H.
Qed.

(** Where the reader is after some lines. *)
Definition after_lines (es : list (nat * memory_order)) (tail : cstr) (s : option cstr) (n : Z) (m : memory_order) : reader :=
  match last es with
  | Some (w, mo) => after_entry w mo tail
  | None => mkReader (mkStream (newline ++ tail) false) s n m
  end.

Lemma read_lines es : ∀ fuel p y y' x tail s n m,
  Forall entry_ok es → heap x !! p = Some y → fill es y = Ok y' →
  read_entries (length es + fuel) p (mkReader (mkStream (newline ++ lines es ++ tail) false) s n m) x =
  read_entries fuel p (after_lines es tail s n m) (at_heap p y' x).
Proof.
  induction es as [|[w mo] es IH]; intros fuel p y y' x tail s n m Hes Hy Hf.
  { injection Hf as <-. by rewrite at_heap_same. }
  apply Forall_cons in Hes as [He Hes]. unfold fill in Hf. cbn [foldM] in Hf. apply bind_Ok in Hf as (y1 & H1 & Hf).
  change (lines ((w, mo) :: es)) with (entry_line w mo ++ lines es). rewrite <- app_assoc. cbn [length Nat.add].
  rewrite read_entry_line by done. unfold mbind, fence_bind. rewrite (set_order_run _ _ _ _ _ _ Hy H1).
  unfold after_entry. rewrite (IH fuel p y1 y' (at_heap p y1 x) tail); [|done|by rewrite heap_at_heap, lookup_insert_eq|done].
  rewrite at_heap_twice. destruct es as [|e es]; [done|]. unfold after_lines. change (last ((w, mo) :: e :: es)) with (last (e :: es)).
  destruct (last (e :: es)) as [[]|] eqn:E; [done|]. by apply last_None in E.
Qed.

(** The last line of the file: the loop runs once more, and writes the last order again. *)
Lemma read_entries_end fuel p w mo y x :
  is_order mo = true → heap x !! p = Some y → write_order (Z.of_nat w) mo y = Ok y →
  read_entries (S fuel) p (after_entry w mo newline) x =
  Ok (x, (mkReader (mkStream [] true) (Some (order_word mo)) (Z.of_nat w) mo, false)).
Proof.
  intros Ho Hy H. unfold after_entry. cbn [read_entries rd_fp s_eof]. unfold mbind, fence_bind, fromf.
  rewrite read_word_end by (repeat constructor). cbn [str_is rd_str]. destruct (order_word_ok mo) as (_ & _ & Hr).
  rewrite bool_decide_eq_false_2 by done. unfold read_entry, mbind, fence_bind, fromf. unfold read_num. cbn [rd_fp].
  rewrite scan_d_end by constructor. cbn [mbind result_bind default rd_str rd_mo rd_curNum].
  rewrite read_word_end by constructor. cbv iota beta. cbn [andb negb Z.leb Z.eqb Z.compare Pos.eqb].
  rewrite read_word_end by constructor. cbv iota beta. rewrite read_mo_word by done. cbn [rd_curNum rd_fp rd_str].
  rewrite (set_order_run _ _ _ _ _ _ Hy H), at_heap_same by done. by destruct fuel.
Qed.

(** The next inference follows. *)
Lemma read_entries_next fuel p s n m more x :
  read_entries (S fuel) p (mkReader (mkStream (newline ++ newline ++ lit "Result" ++ " "%char :: more) false) s n m) x =
  Ok (x, (mkReader (mkStream (" "%char :: more) false) (Some (lit "Result")) n m, true)).
Proof.
  cbn [read_entries rd_fp s_eof]. unfold mbind, fence_bind, fromf. rewrite (app_assoc newline newline).
  rewrite (read_word_word (newline ++ newline) (lit "Result") " "%char); [|repeat constructor|by apply (bool_decide_unpack _)|vm_compute; lia|done].
  done.
Qed.

(** The text of an inference after the word Result, and of a list of them. *)
Definition block (idx : nat) (i : Inference) : cstr :=
  lit " " ++ print_d idx ++ lit ":" ++ newline ++ lines (assigned i) ++ newline.
Fixpoint blocks (idx : nat) (l : list Inference) : cstr :=
  match l with [] => [] | i :: l => lit "Result" ++ block idx i ++ blocks (S idx) l end.

Lemma list_print_blocks st ps l :
  Forall2 (λ p i, is_infers st !! p = Some i ∧ wf_Inference i) ps l → list_print "Result" ps st = Ok (blocks 0 l).
Proof.
  intros H. unfold list_print.
  assert (∀ ps l out idx, Forall2 (λ p i, is_infers st !! p = Some i ∧ wf_Inference i) ps l →
    foldM (λ p '(out, idx),
      infer ← infer_at p st;
      text ← infer_print false infer;
      Ok (out ++ lit "Result" ++ lit " " ++ print_d idx ++ lit ":" ++ newline ++ text ++ newline, S idx)%list) ps (out, idx)
    = Ok (out ++ blocks idx l, idx + length l)) as G.
  { clear. intros ps l out idx H. revert out idx. induction H as [|p i ps l [Hp Wi] _ IH]; intros out idx; cbn [foldM blocks length].
    { by rewrite app_nil_r, Nat.add_0_r. }
    rewrite (proj2 (infer_at_Ok _ _ _) Hp). cbn [mbind result_bind]. rewrite print_lines by done. cbn [mbind result_bind].
    rewrite IH. f_equal. f_equal; [|simpl; lia]. unfold block. by rewrite <- !app_assoc. }
  by rewrite (G ps l [] 0 H).
Qed.

(** What reading an inference amounts to. *)
Definition take_in (i : Inference) (_ : unit) : fence unit :=
  infer ← on_set (λ st, y ← fill (assigned i) (new_Inference (is_next st)); Ok (new_infer y st));
  add_or_delete infer.

Lemma header_word idx : word (print_d idx ++ lit ":") ∧ length (print_d idx ++ lit ":") ≤ 30.
Proof.
  destruct (print_d_word idx) as [H1 H2]. pose proof (print_d_length idx). split; [split|].
  - intros [? _]%app_nil. done.
  - apply Forall_app. split; [done|]. by repeat constructor.
  - rewrite length_app. simpl. lia.
Qed.

Lemma lines_length es : length es ≤ length (lines es).
Proof.
  induction es as [|e es IH]; [done|]. change (lines (e :: es)) with (entry_line e.1 e.2 ++ lines es). rewrite length_app.
  unfold entry_line. rewrite length_app. simpl. lia.
Qed.

(** The entries of a block, up to the next one or to the end of the file. *)
Lemma read_block fuel i p s n m rest x :
  wf_Inference i → heap x !! p = Some (new_Inference p) → length (assigned i) < fuel →
  (rest = [] → assigned i ≠ []) → (rest = [] ∨ ∃ more, rest = lit "Result" ++ " "%char :: more) →
  ∃ y r, fill (assigned i) (new_Inference p) = Ok y ∧
    read_entries fuel p (mkReader (mkStream (newline ++ lines (assigned i) ++ newline ++ rest) false) s n m) x =
      Ok (at_heap p y x, (r, bool_decide (rest ≠ []))) ∧
    s_eof (rd_fp r) = bool_decide (rest = []) ∧
    ∀ more, rest = lit "Result" ++ " "%char :: more → rd_fp r = mkStream (" "%char :: more) false ∧ rd_str r = Some (lit "Result").
Proof.
  intros Wi Hp Hf Hlast Hrest. pose proof (assigned_ok i Wi) as Hok.
  destruct (fill_ok (assigned i) (new_Inference p) (new_Inference_wf p) Hok) as (y & Hy & Wy & _ & Oy).
  exists y. replace fuel with (length (assigned i) + S (fuel - S (length (assigned i)))) by lia.
  rewrite (read_lines _ _ p (new_Inference p) y) by done. destruct Hrest as [->|[more ->]].
  - specialize (Hlast eq_refl). unfold after_lines. destruct (last (assigned i)) as [[w mo]|] eqn:El; [|by apply last_None in El].
    apply last_Some in El as [es El]. rewrite El in Hok. apply Forall_app in Hok as [_ [(H1 & H2 & H3) _]%Forall_cons].
    rewrite app_nil_r. eexists. split; [done|]. rewrite (read_entries_end _ p w mo y); [split_and!; [done|done|]|done| |].
    + intros more. discriminate.
    + by rewrite heap_at_heap, lookup_insert_eq.
    + rewrite El in Hy. unfold fill in Hy. rewrite foldM_app in Hy. apply bind_Ok in Hy as (z & Hz & Hy). cbn [foldM] in Hy.
      apply bind_Ok in Hy as (y' & Hy & [= ->]). eapply write_order_again; [|by apply is_order_entry|exact Hy].
      pose proof (assigned_ok i Wi) as Hok. rewrite El in Hok. apply Forall_app in Hok as [Hok _].
      destruct (fill_ok es (new_Inference p) (new_Inference_wf p) Hok) as (z' & Hz' & Wz & _). unfold fill in Hz'. congruence.
  - unfold after_lines. destruct (last (assigned i)) as [[w mo]|].
    + unfold after_entry. rewrite read_entries_next. eexists. split_and!; [done|done|done|]. intros more' E. injection E as <-. done.
    + rewrite read_entries_next. eexists. split_and!; [done|done|done|]. intros more' E. injection E as <-. done.
Qed.

(** One round of the outer loop, after the word Result. *)
Lemma read_one_block fuel i idx rest n m x :
  wf_Inference i → length (assigned i) < fuel →
  (rest = [] → assigned i ≠ []) → (rest = [] ∨ ∃ more, rest = lit "Result" ++ " "%char :: more) →
  ∃ r, read_inferences (S fuel) true (mkReader (mkStream (block idx i ++ rest) false) (Some (lit "Result")) n m) x =
    (take_in i tt ;; read_inferences fuel (bool_decide (rest ≠ [])) r) x ∧
    s_eof (rd_fp r) = bool_decide (rest = []) ∧
    ∀ more, rest = lit "Result" ++ " "%char :: more → rd_fp r = mkStream (" "%char :: more) false ∧ rd_str r = Some (lit "Result").
Proof.
  intros Wi Hf Hlast Hrest. set (p := is_next (fp_inferenceSet (sf_priv x))).
  set (x1 := put_priv (put_set (new_infer (new_Inference p) (fp_inferenceSet (sf_priv x))).1 (sf_priv x)) x).
  destruct (read_block fuel i p (Some (print_d idx ++ lit ":")) n m rest x1 Wi) as (y & r & Hy & Hr & He & Hs);
    [unfold x1, heap; simpl; by rewrite lookup_insert_eq|done..|].
  exists r. split; [|done]. destruct (header_word idx) as [Hh1 Hh2].
  assert (block idx i ++ rest = [" "%char] ++ (print_d idx ++ lit ":") ++ ascii_of_nat 10 :: lines (assigned i) ++ newline ++ rest) as Et
    by (unfold block; rewrite <- !app_assoc; reflexivity).
  cbn [read_inferences rd_fp s_eof]. unfold mbind, fence_bind, fromf, mret, fence_ret. cbn [str_is rd_str].
  rewrite bool_decide_eq_true_2 by done. cbn [orb]. rewrite Et.
  rewrite (read_word_word [" "%char] _ (ascii_of_nat 10)) by (done || (repeat constructor)). unfold on_set at 1.
  change (new_infer (new_Inference (is_next (fp_inferenceSet (sf_priv x)))) (fp_inferenceSet (sf_priv x)))
    with ((new_infer (new_Inference p) (fp_inferenceSet (sf_priv x))).1, p). cbv iota beta. fold x1.
  change (ascii_of_nat 10 :: lines (assigned i) ++ newline ++ rest) with (newline ++ lines (assigned i) ++ newline ++ rest).
  rewrite Hr. unfold take_in, mbind, fence_bind, on_set at 1. fold p. unfold result_bind. rewrite Hy.
  change (new_infer y (fp_inferenceSet (sf_priv x))) with ((new_infer y (fp_inferenceSet (sf_priv x))).1, p). cbv iota beta.
  assert (at_heap p y x1 = put_priv (put_set (new_infer y (fp_inferenceSet (sf_priv x))).1 (sf_priv x)) x) as ->.
  { unfold at_heap, x1. simpl. unfold put_infers. simpl. by rewrite insert_insert_eq. }
  done.
Qed.

Lemma read_blocks l : ∀ i idx fuel n m x,
  Forall wf_Inference (i :: l) → (∀ z, last (i :: l) = Some z → assigned z ≠ []) →
  length (block idx i ++ blocks (S idx) l) < fuel →
  read_inferences fuel true (mkReader (mkStream (block idx i ++ blocks (S idx) l) false) (Some (lit "Result")) n m) x =
  foldF take_in (i :: l) tt x.
Proof.
  induction l as [|j l IH]; intros i idx fuel n m x Hwf Hlast Hfuel; apply Forall_cons in Hwf as [Wi Hwf];
    (destruct fuel as [|f]; [lia|]).
  all: assert (length (assigned i) < f) as Hf by (pose proof (lines_length (assigned i)); unfold block in Hfuel; rewrite !length_app in Hfuel; simpl in Hfuel; lia).
  - destruct (read_one_block f i idx (blocks (S idx) []) n m x Wi Hf) as (r & -> & He & _); [intros _; by apply Hlast|by left|].
    cbn [foldF]. unfold mbind, fence_bind. destruct (take_in i tt x) as [[x' []]|]; [|done]. destruct f; cbn [read_inferences]; by rewrite He.
  - destruct (read_one_block f i idx (blocks (S idx) (j :: l)) n m x Wi Hf) as (r & -> & He & Hs);
      [discriminate|right; by eexists|]. destruct (Hs _ eq_refl) as [Hfp Hstr].
    cbn [foldF]. unfold mbind, fence_bind. destruct (take_in i tt x) as [[x' []]|]; [|done]. rewrite bool_decide_eq_true_2 by discriminate.
    destruct r as [fp s n' m']. simpl in Hfp, Hstr. subst fp s. apply IH; [done|done|].
    cbn [blocks] in Hfuel. rewrite !length_app in *. simpl in *. lia.
Qed.

Lemma fill_assigned i this :
  wf_Inference i → ∃ y, fill (assigned i) (new_Inference this) = Ok y ∧ wf_Inference y ∧ ∀ w, 0 < w → order y w = order i w.
Proof.
  intros Wi. destruct (fill_ok (assigned i) (new_Inference this) (new_Inference_wf this) (assigned_ok i Wi)) as (y & Hy & Wy & _ & Oy).
  exists y. split_and!; [done|done|]. intros w Hw. destruct (Oy w) as [O1 O2]. destruct (decide (w ∈ (assigned i).*1)) as [Hin|Hin].
  - apply O2; [|done]. intros m Hm%elem_of_assigned; [|done]. by destruct Hm as (_ & -> & _).
  - rewrite O1 by done. assert (order i w = WILDCARD_NONEXIST) as ->.
    { destruct (decide (order i w = WILDCARD_NONEXIST)) as [|Hne]; [done|]. destruct Hin. apply list_elem_of_fmap.
      exists (w, order i w). split; [done|]. by apply elem_of_assigned. }
    unfold order. destruct (i_orders (new_Inference this) !! w) eqn:E; [|done]. by apply lookup_replicate in E as [-> _].
Qed.

(** The first word of the file. *)
Lemma read_first fuel i idx rest x :
  read_inferences (S fuel) false (mkReader (fopened (lit "Result" ++ block idx i ++ rest)) None 0 memory_order_relaxed) x =
  read_inferences (S fuel) true (mkReader (mkStream (block idx i ++ rest) false) (Some (lit "Result")) 0 memory_order_relaxed) x.
Proof.
  assert (∃ tl, block idx i ++ rest = " "%char :: tl) as [tl ->] by by eexists.
  unfold fopened. cbn [read_inferences rd_fp s_eof]. unfold mbind, fence_bind, fromf, mret, fence_ret.
  change (lit "Result" ++ " "%char :: tl) with ([] ++ lit "Result" ++ " "%char :: tl).
  rewrite (read_word_word [] (lit "Result") " "%char); [|constructor|by apply (bool_decide_unpack _)|vm_compute; lia|done].
  cbn [str_is rd_str]. by rewrite bool_decide_eq_true_2.
Qed.


(** Two results and the text that is printed for them. *)
Definition printed_set : InferState :=
  put_infers (<[1%positive := sample_infer memory_order_acquire]> {[2%positive := sample_infer memory_order_seq_cst]}) new_InferenceSet.
Definition printed_plugin : SCFence :=
  let x := new_SCFence 0 false (new_SCGenerator false false) in
  put_priv (put_candidateFile (Some (lit "candidates")) (sf_priv x)) x.


Lemma read_entries_none fuel p w x :
  heap x !! p = Some (new_Inference p) → w ≠ lit "Result" → (∀ mo, w ≠ order_word mo) →
  read_entries (S fuel) p (mkReader (mkStream (newline ++ newline) false) (Some w) 0 memory_order_relaxed) x = Err AssertFailed.
Proof.
  intros Hp Hw Hmo. cbn [read_entries rd_fp s_eof]. unfold mbind, fence_bind, fromf.
  rewrite read_word_end by (repeat constructor). cbn [str_is rd_str]. rewrite bool_decide_eq_false_2 by done.
  unfold read_entry, mbind, fence_bind, fromf, read_num. cbn [rd_fp].
  rewrite scan_d_end by constructor. cbn [mbind result_bind default rd_str rd_mo rd_curNum].
  rewrite read_word_end by constructor. cbv iota beta. cbn [andb negb Z.leb Z.eqb Z.compare Pos.eqb].
  rewrite read_word_end by constructor. cbv iota beta. unfold read_mo. cbn [until str_is rd_str mbind result_bind].
  rewrite !bool_decide_eq_false_2 by apply Hmo. cbn [mbind result_bind default rd_mo rd_curNum].
  unfold set_order_at, on_set_, on_set, infer_at. unfold heap in Hp. rewrite Hp. done.
Qed.

(** A result without any order cannot be read back if it is the last one: the loop over
    the lines runs once more at the end of the file, with what was read before, and writes
    an order for wildcard 0. *)
Lemma empty_result_not_read fopen name this x :
  assigned this = [] → fp_candidateFile (sf_priv x) = Some name → fopen name = Some (blocks 0 [this]) →
  initializeByFile fopen x = Err AssertFailed.
Proof.
  intros Ha Hname Hf. unfold initializeByFile, mbind, fence_bind, plugin, fromf. rewrite Hname. simpl deref. cbv iota beta. rewrite Hf.
  cbn [blocks]. rewrite read_first.
  assert (block 0 this ++ [] = [" "%char] ++ (print_d 0 ++ lit ":") ++ ascii_of_nat 10 :: newline) as ->
    by (unfold block; rewrite Ha; reflexivity).
  rewrite length_app. change (length (lit "Result")) with 6. cbn [Nat.add].
  cbn [read_inferences rd_fp s_eof]. unfold mbind, fence_bind, fromf, mret, fence_ret. cbn [str_is rd_str].
  rewrite bool_decide_eq_true_2 by done. cbn [orb].
  destruct (header_word 0) as [Hh1 Hh2].
  rewrite (read_word_word [" "%char] _ (ascii_of_nat 10)) by (done || (repeat constructor)).
  cbv iota beta. unfold on_set at 1. cbv iota beta. unfold new_infer. cbv iota beta.
  change (ascii_of_nat 10 :: newline) with (newline ++ newline). rewrite read_entries_none; [done| |discriminate|].
  - unfold heap. simpl. by rewrite lookup_insert_eq.
  - intros []; discriminate.
Qed.

(** ** Every file is read in finite time *)

Definition no_fuel {A} (r : result A) : Prop := r ≠ Err OutOfFuel.
Lemma no_fuel_Ok {A} (a : A) : no_fuel (Ok a).
Proof. done. Qed.
Lemma no_fuel_bind {A B} (c : result A) (k : A → result B) : no_fuel c → (∀ a, c = Ok a → no_fuel (k a)) → no_fuel (c ≫= k).
Proof. unfold no_fuel. destruct c as [a|f]; [intros _ H; by apply H|]. intros H _ [=]. by subst f. Qed.
Lemma no_fuel_deref {A} (o : option A) : no_fuel (deref o).
Proof. by destruct o. Qed.
Lemma no_fuel_at_index {A} (l : list A) i : no_fuel (at_index l i).
Proof. unfold at_index. by destruct (l !! i). Qed.
Lemma no_fuel_ASSERT b : no_fuel (ASSERT b).
Proof. by destruct b. Qed.
Lemma no_fuel_set_at {A} i (v : A) l : no_fuel (set_at i v l).
Proof. unfold set_at. by case_match. Qed.
Lemma no_fuel_until {A B} (f : A → result (option B)) l : (∀ a, no_fuel (f a)) → no_fuel (until f l).
Proof. intros Hf. induction l as [|a l IH]; [done|]. apply no_fuel_bind; [done|]. intros [b|] _; done. Qed.

Ltac no_fuel :=
  repeat first
    [ apply no_fuel_Ok | apply no_fuel_deref | apply no_fuel_at_index | apply no_fuel_ASSERT | apply no_fuel_set_at
    | discriminate | apply no_fuel_bind; intros | apply no_fuel_until; intros | case_match ].

Lemma addInference_no_fuel p st : no_fuel (addInference p st).
Proof. unfold addInference, hasBeenDiscovered, upd_infer, compare_at, infer_at. no_fuel. Qed.
Lemma write_order_no_fuel idx mo x : no_fuel (write_order idx mo x).
Proof. unfold write_order, op_index, resize. no_fuel. Qed.
Lemma getNextInference_no_fuel st : no_fuel (getNextInference st).
Proof.
  unfold getNextInference. generalize (rev (is_candidates st)). intros l. revert st. induction l as [|p l IH]; intros st; [done|].
  cbn [next_inference]. unfold commitInference, upd_infer, hasBeenExplored, compare_at, infer_at. no_fuel; try apply IH.
Qed.
Lemma on_set_no_fuel {A} (c : InferState → result (InferState * A)) x : (∀ st, no_fuel (c st)) → no_fuel (on_set c x).
Proof. intros H. specialize (H (fp_inferenceSet (sf_priv x))). unfold on_set. destruct (c _) as [[]|f]; [done|]. intros [=]. by subst f. Qed.
Lemma fence_bind_no_fuel {A B} (c : fence A) (k : A → fence B) x :
  no_fuel (c x) → (∀ x' a, c x = Ok (x', a) → no_fuel (k a x')) → no_fuel ((c ≫= k) x).
Proof. unfold mbind, fence_bind, no_fuel. destruct (c x) as [[x' a]|f]; [intros _ H; by apply H|]. intros H _ [=]. by subst f. Qed.
Lemma fromf_bind_no_fuel {A B} (c : result A) (k : A → fence B) x :
  no_fuel c → (∀ a, c = Ok a → no_fuel (k a x)) → no_fuel ((fromf c ≫= k) x).
Proof. unfold mbind, fence_bind, fromf, no_fuel. destruct c as [a|f]; [intros _ H; by apply H|]. intros H _ [=]. by subst f. Qed.

(** What is left to read, with the end of the file. *)
Definition to_read (r : reader) : nat :=
  let '(mkStream s e) := rd_fp r in length s + if e && bool_decide (s = []) then 0 else 1.

Lemma skip_space_length s : length (skip_space s) ≤ length s.
Proof. induction s as [|c s IH]; simpl; [done|]. case_match; simpl; lia. Qed.
Lemma span_length f s : length (span f s).1 + length (span f s).2 = length s.
Proof. induction s as [|c s IH]; simpl; [done|]. case_match; [|done]. destruct (span f s). simpl in *. lia. Qed.
Lemma skip_space_head s c s' : skip_space s = c :: s' → isspace c = false.
Proof. induction s as [|a s IH]; simpl; [done|]. destruct (isspace a) eqn:E; [done|]. by intros [= <- _]. Qed.
Lemma stopped_length (s s' : cstr) n m st : length s < length s' → to_read (mkReader (stopped_at s) st n m) ≤ length s'.
Proof. intros H. unfold to_read, stopped_at. simpl. case_bool_decide; simpl; rewrite ?bool_decide_eq_false_2 by done; simpl; subst; simpl; lia. Qed.

Lemma read_word_less r :
  no_fuel (read_word r) ∧ ∀ r' z, read_word r = Ok (r', z) → to_read r' ≤ to_read r ∧ (s_eof (rd_fp r) = false → to_read r' < to_read r).
Proof.
  destruct r as [[s e] str n m]. unfold read_word, scan_s. cbn [rd_fp s_rest].
  pose proof (skip_space_length s) as Hl. destruct (skip_space s) as [|c s'] eqn:E.
  { split; [done|]. intros r' z [= <- <-]. unfold to_read at 1 3. simpl. split; [lia|]. intros ->. unfold to_read. simpl. lia. }
  pose proof (span_length (λ c, negb (isspace c)) (c :: s')) as Hs. cbn [span] in Hs. cbn [span].
  rewrite (skip_space_head _ _ _ E) in *. simpl negb in *. destruct (span _ s') as [w s2] eqn:E2. simpl in Hs, Hl. cbv iota beta.
  unfold in_buffer. split; [by case_match|]. intros r' z (w' & Hw & [= <- <-])%bind_Ok.
  assert (to_read (mkReader (stopped_at s2) (Some w') n m) ≤ length s) by (apply stopped_length; lia).
  unfold to_read at 2 4. simpl. split; [lia|]. intros ->. simpl. lia.
Qed.

Lemma take_sign_length s : length (take_sign s).2 ≤ length s.
Proof. destruct s as [|c s]; [done|]. simpl. repeat case_bool_decide; simpl; lia. Qed.

Lemma read_num_less r : no_fuel (read_num r) ∧ ∀ r', read_num r = Ok r' → to_read r' ≤ to_read r.
Proof.
  destruct r as [[s e] str n m]. unfold read_num, scan_d. cbn [rd_fp s_rest].
  pose proof (skip_space_length s) as Hl. destruct (skip_space s) as [|c s'].
  { split; [done|]. intros r' [= <-]. unfold to_read at 1. simpl. lia. }
  pose proof (take_sign_length (c :: s')) as Ht. destruct (take_sign (c :: s')) as [neg s2]. simpl in Ht.
  pose proof (span_length isdigit s2) as Hs. destruct (span isdigit s2) as [ds s3]. simpl in Hs, Hl.
  assert (∀ k, to_read (mkReader (stopped_at s3) str k m) ≤ to_read (mkReader (mkStream s e) str n m)) as Hk.
  { intros k. unfold to_read, stopped_at. simpl. rewrite (bool_decide_eq_false_2 (s = [])) by (intros ->; simpl in Hl; lia).
    rewrite andb_false_r. repeat case_bool_decide; simpl; lia. }
  unfold int_value. split; [no_fuel|]. intros r' ([fp k] & H & [= <-])%bind_Ok. destruct (bool_decide (ds = [])).
  - by injection H as <- <-.
  - apply bind_Ok in H as (z & _ & [= <- <-]). apply Hk.
Qed.

Lemma read_mo_no_fuel r : no_fuel (read_mo r).
Proof. unfold read_mo, str_is. no_fuel. Qed.

Lemma read_entry_less p r x :
  no_fuel (read_entry p r x) ∧ ∀ x' r', read_entry p r x = Ok (x', r') → to_read r' ≤ to_read r.
Proof.
  unfold read_entry. destruct (read_num_less r) as [N1 L1]. split.
  - apply fromf_bind_no_fuel; [done|]. intros r1 _. destruct (read_word_less r1) as [N2 _].
    apply fromf_bind_no_fuel; [done|]. intros [r2 z] _. case_match; [done|]. destruct (read_word_less r2) as [N3 _].
    apply fromf_bind_no_fuel; [done|]. intros [r3 z'] _. apply fromf_bind_no_fuel; [apply read_mo_no_fuel|]. intros mo _.
    apply fence_bind_no_fuel; [|done]. apply on_set_no_fuel. intros st. unfold infer_at.
    apply no_fuel_bind; [|no_fuel]. apply no_fuel_bind; [no_fuel|]. intros y _. apply no_fuel_bind; [apply write_order_no_fuel|done].
  - intros x' r'. unfold mbind, fence_bind, fromf. destruct (read_num r) as [r1|]; [|done]. specialize (L1 _ eq_refl).
    destruct (read_word_less r1) as [_ L2]. destruct (read_word r1) as [[r2 z]|]; [|done]. destruct (L2 _ _ eq_refl) as [L2' _].
    case_match; [done|]. destruct (read_word_less r2) as [_ L3]. destruct (read_word r2) as [[r3 z']|]; [|done].
    destruct (L3 _ _ eq_refl) as [L3' _]. destruct (read_mo r3); [|done]. case_match; [|done]. case_match. intros [= _ <-].
    unfold to_read at 1. simpl. fold (to_read r3). lia.
Qed.

Lemma read_entries_less fuel : ∀ p r x, to_read r ≤ fuel →
  no_fuel (read_entries fuel p r x) ∧ ∀ x' r' b, read_entries fuel p r x = Ok (x', (r', b)) → to_read r' ≤ to_read r.
Proof.
  induction fuel as [|fuel IH]; intros p r x Hf.
  { cbn [read_entries]. destruct (s_eof (rd_fp r)) eqn:E; [split; [done|]; by intros ? ? ? [= _ <- _]|].
    destruct r as [[s e] str n m]. simpl in E. subst e. unfold to_read in Hf. simpl in Hf. lia. }
  cbn [read_entries]. destruct (s_eof (rd_fp r)) eqn:E; [split; [done|]; by intros ? ? ? [= _ <- _]|].
  destruct (read_word_less r) as [N1 L1]. unfold mbind, fence_bind, fromf. destruct (read_word r) as [[r1 z]|f].
  2: { split; [|done]. intros [= ->]. done. }
  destruct (L1 _ _ eq_refl) as [L1a L1b]. specialize (L1b E). cbv iota beta. unfold str_is at 1 2.
  destruct (rd_str r1) as [w|]; [|done]. case_bool_decide as Ew; [split; [done|]; intros ? ? ? [= _ <- _]; lia|].
  destruct (read_entry_less p r1 x) as [N2 L2]. destruct (read_entry p r1 x) as [[x2 r2]|f].
  2: { split; [|done]. intros [= ->]. done. }
  specialize (L2 _ _ eq_refl). destruct (IH p r2 x2) as [N3 L3]; [lia|]. split; [done|]. intros x' r' b H. specialize (L3 _ _ _ H). lia.
Qed.

Lemma add_or_delete_no_fuel p x : no_fuel (add_or_delete p x).
Proof.
  apply fence_bind_no_fuel; [apply on_set_no_fuel, addInference_no_fuel|]. intros x' b _. destruct b; [done|].
  apply on_set_no_fuel. intros st. unfold delete_infer, infer_at. no_fuel.
Qed.

Lemma read_inferences_ends fuel : ∀ b r x, to_read r ≤ fuel → no_fuel (read_inferences fuel b r x).
Proof.
  induction fuel as [|fuel IH]; intros b r x Hf; cbn [read_inferences]; destruct (s_eof (rd_fp r)) eqn:E; try done.
  { destruct r as [[s e] str n m]. simpl in E. subst e. unfold to_read in Hf. simpl in Hf. lia. }
  apply fence_bind_no_fuel.
  { destruct b; [done|]. unfold fromf. destruct (read_word_less r) as [N _]. destruct (read_word r); [done|]. intros [= ->]. done. }
  intros x1 [r1 z] H1. assert (x1 = x ∧ to_read r1 ≤ to_read r ∧ (b = true → r1 = r) ∧ (b = false → to_read r1 < to_read r)) as (-> & L1 & Lt & Lf).
  { destruct b; [by injection H1 as <- <- <-|]. unfold fromf in H1. destruct (read_word_less r) as [_ L]. destruct (read_word r) as [[r' z']|]; [|done].
    injection H1 as <- <- <-. destruct (L _ _ eq_refl) as [? L']. by specialize (L' E). }
  apply fromf_bind_no_fuel; [unfold str_is; no_fuel|]. intros res _. destruct (res || b) eqn:Eb.
  - destruct (read_word_less r1) as [N2 L2]. apply fromf_bind_no_fuel; [done|]. intros [r2 z2] H2. destruct (L2 _ _ H2) as [L2a L2b].
    assert (to_read r2 < to_read r) as Hr2 by (destruct b; [rewrite (Lt eq_refl) in *; auto|specialize (Lf eq_refl); lia]).
    apply fence_bind_no_fuel; [by apply on_set_no_fuel|]. intros x2 p _.
    destruct (read_entries_less fuel p r2 x2) as [N3 L3]; [lia|]. apply fence_bind_no_fuel; [done|]. intros x3 [r3 b3] H3.
    specialize (L3 _ _ _ H3). apply fence_bind_no_fuel; [apply add_or_delete_no_fuel|]. intros x4 _ _. apply IH. lia.
  - apply orb_false_iff in Eb as [_ ->]. apply IH. specialize (Lf eq_refl). lia.
Qed.

(** Reading a candidate file ends, whatever the file holds and whatever state the
    plugin is in: every round of the two loops consumes a character or reaches the end of
    the file. *)
Theorem initializeByFile_terminates fopen x : initializeByFile fopen x ≠ Err OutOfFuel.
Proof.
  change (no_fuel (initializeByFile fopen x)). unfold initializeByFile. apply fence_bind_no_fuel; [done|]. intros x1 x2 _.
  apply fromf_bind_no_fuel; [no_fuel|]. intros name _. destruct (fopen name) as [contents|]; [|done]. apply fence_bind_no_fuel.
  - apply read_inferences_ends. unfold to_read, fopened. simpl. lia.
  - intros x3 _ _. apply fence_bind_no_fuel; [apply on_set_no_fuel, getNextInference_no_fuel|]. intros x4 [] _; done.
Qed.
