(* ===== verification/CommandLine.v ===== *)
(** * The command line (main.cc, plugins.cc)

    The options of the model checker, which set its parameters, install trace analyses
    and pass options to them. *)

From Stdlib Require Import Ascii String.
From S2P Require Import Prelude NodeStack CStrings SCAnalysis SCGen SCFence FenceInput.

(** ** Plugins *)

(** [register_plugins]: the analyses that can be installed. *)
Inductive analysis := analysis_SC | analysis_SCFence.
#[global] Instance analysis_eq_dec : EqDecision analysis.
Proof. solve_decision. Defined.
Definition registered_analysis : list analysis := [analysis_SC; analysis_SCFence].
Definition analysis_name (a : analysis) : cstr :=
  match a with analysis_SC => lit "SC" | analysis_SCFence => lit "AUTOMO" end.

(** The parameters, the two registered objects, and the installed analyses, which may
    repeat. *)
Record cmdline := mkCmdline {
  cl_params : model_params;
  cl_sc : sc_options;
  cl_fence : SCFence;
  cl_installed : list analysis
}.
Definition put_params (p : model_params) (c : cmdline) : cmdline := mkCmdline p (cl_sc c) (cl_fence c) (cl_installed c).

(** [install_plugin]: whether the name is unknown. *)
Definition install_plugin (name : cstr) (c : cmdline) : cmdline * bool :=
  match list_find (λ a, name = analysis_name a) registered_analysis with
  | Some (_, a) => (mkCmdline (cl_params c) (cl_sc c) (cl_fence c) (cl_installed c ++ [a]), false)
  | None => (c, true)
  end.

(** ** Parameters *)

Definition unsigned (z : Z) : N := Z.to_N (z mod 2 ^ 32).

Definition p_maxreads v p := mkParams v (maxfuturedelay p) (yieldon p) (yieldblock p) (fairwindow p) (enabledcount p) (bound p)
  (uninitvalue p) (maxexecutions p) (maxfuturevalues p) (expireslop p) (verbose p).
Definition p_maxfuturedelay v p := mkParams (maxreads p) v (yieldon p) (yieldblock p) (fairwindow p) (enabledcount p) (bound p)
  (uninitvalue p) (maxexecutions p) (maxfuturevalues p) (expireslop p) (verbose p).
Definition p_yieldon v p := mkParams (maxreads p) (maxfuturedelay p) v (yieldblock p) (fairwindow p) (enabledcount p) (bound p)
  (uninitvalue p) (maxexecutions p) (maxfuturevalues p) (expireslop p) (verbose p).
Definition p_yieldblock v p := mkParams (maxreads p) (maxfuturedelay p) (yieldon p) v (fairwindow p) (enabledcount p) (bound p)
  (uninitvalue p) (maxexecutions p) (maxfuturevalues p) (expireslop p) (verbose p).
Definition p_fairwindow v p := mkParams (maxreads p) (maxfuturedelay p) (yieldon p) (yieldblock p) v (enabledcount p) (bound p)
  (uninitvalue p) (maxexecutions p) (maxfuturevalues p) (expireslop p) (verbose p).
Definition p_enabledcount v p := mkParams (maxreads p) (maxfuturedelay p) (yieldon p) (yieldblock p) (fairwindow p) v (bound p)
  (uninitvalue p) (maxexecutions p) (maxfuturevalues p) (expireslop p) (verbose p).
Definition p_bound v p := mkParams (maxreads p) (maxfuturedelay p) (yieldon p) (yieldblock p) (fairwindow p) (enabledcount p) v
  (uninitvalue p) (maxexecutions p) (maxfuturevalues p) (expireslop p) (verbose p).
Definition p_uninitvalue v p := mkParams (maxreads p) (maxfuturedelay p) (yieldon p) (yieldblock p) (fairwindow p) (enabledcount p) (bound p)
  v (maxexecutions p) (maxfuturevalues p) (expireslop p) (verbose p).
Definition p_maxexecutions v p := mkParams (maxreads p) (maxfuturedelay p) (yieldon p) (yieldblock p) (fairwindow p) (enabledcount p) (bound p)
  (uninitvalue p) v (maxfuturevalues p) (expireslop p) (verbose p).
Definition p_maxfuturevalues v p := mkParams (maxreads p) (maxfuturedelay p) (yieldon p) (yieldblock p) (fairwindow p) (enabledcount p) (bound p)
  (uninitvalue p) (maxexecutions p) v (expireslop p) (verbose p).
Definition p_expireslop v p := mkParams (maxreads p) (maxfuturedelay p) (yieldon p) (yieldblock p) (fairwindow p) (enabledcount p) (bound p)
  (uninitvalue p) (maxexecutions p) (maxfuturevalues p) v (verbose p).
Definition p_verbose v p := mkParams (maxreads p) (maxfuturedelay p) (yieldon p) (yieldblock p) (fairwindow p) (enabledcount p) (bound p)
  (uninitvalue p) (maxexecutions p) (maxfuturevalues p) (expireslop p) v.

(** The options that take a number. *)
Definition number_option (opt : ascii) : option (Z → model_params → model_params) :=
  if bool_decide (opt = "x"%char) then Some p_maxexecutions
  else if bool_decide (opt = "s"%char) then Some p_maxfuturedelay
  else if bool_decide (opt = "S"%char) then Some (λ z, p_expireslop (unsigned z))
  else if bool_decide (opt = "f"%char) then Some (λ z, p_fairwindow (unsigned z))
  else if bool_decide (opt = "e"%char) then Some (λ z, p_enabledcount (unsigned z))
  else if bool_decide (opt = "b"%char) then Some (λ z, p_bound (unsigned z))
  else if bool_decide (opt = "m"%char) then Some p_maxreads
  else if bool_decide (opt = "M"%char) then Some p_maxfuturevalues
  else if bool_decide (opt = "u"%char) then Some (λ z, p_uninitvalue (unsigned z))
  else None.

Section parse.
(** The contents of a file, if it can be opened. *)
Context (fopen : cstr → option cstr).

(** Case 'o': the last installed analysis gets the option. *)
Definition pass_option (optarg : cstr) (c : cmdline) : result (cmdline * bool) :=
  match last (cl_installed c) with
  | None => Ok (c, true)
  | Some analysis_SC =>
      let '(o, error) := sc_option (string_of_list_ascii optarg) (cl_sc c) in
      Ok (mkCmdline (cl_params c) o (cl_fence c) (cl_installed c), error)
  | Some analysis_SCFence =>
      '(f, error) ← fence_option fopen optarg (cl_fence c);
      Ok (mkCmdline (cl_params c) (cl_sc c) f (cl_installed c), error)
  end.

(** The [switch] of [parse_options] on what [getopt_long] returns and on [optarg]; the
    flag is [error], and [print_usage] exits. *)
Definition parse_opt (opt : ascii) (optarg : option cstr) (c : cmdline) : result (cmdline * bool) :=
  match number_option opt with
  | Some set => arg ← deref optarg; z ← atoi arg; Ok (put_params (set z (cl_params c)) c, false)
  | None =>
      if bool_decide (opt = "h"%char) then Err Exited
      else if bool_decide (opt = "v"%char) then
        z ← match optarg with Some arg => atoi arg | None => Ok 1%Z end; Ok (put_params (p_verbose z (cl_params c)) c, false)
      else if bool_decide (opt = "y"%char) then Ok (put_params (p_yieldon true (cl_params c)) c, false)
      else if bool_decide (opt = "Y"%char) then Ok (put_params (p_yieldblock true (cl_params c)) c, false)
      else if bool_decide (opt = "t"%char) then arg ← deref optarg; Ok (install_plugin arg c)
      else if bool_decide (opt = "o"%char) then arg ← deref optarg; pass_option arg c
      else Ok (c, true)
  end.

(** [parse_options] on the options that [getopt_long] finds in turn; after an error
    [print_usage] exits. The arguments left for the user program are not modelled. *)
Fixpoint parse_options (opts : list (ascii * option cstr)) (c : cmdline) : result cmdline :=
  match opts with
  | [] => Ok c
  | (opt, optarg) :: opts =>
      '(c, error) ← parse_opt opt optarg c;
      if (error : bool) then Err Exited else parse_options opts c
  end.
End parse.

(** [install_trace_analyses]: every installed analysis is added to the checker; SCFence
    also becomes the plugin that inspects actions. *)
Definition install_trace_analyses (c : cmdline) : list analysis * option analysis :=
  foldl (λ '(analyses, inspect) ta,
    (analyses ++ [ta], match ta with analysis_SCFence => Some ta | analysis_SC => inspect end)) ([], None) (cl_installed c).

(** The state in which [parse_options] starts. *)
Definition initial_cmdline (fence : SCFence) : cmdline := mkCmdline default_params default_sc_options fence [].

(** ** Round trip *)

Definition is_int (z : Z) : Prop := (- 2 ^ 31 ≤ z < 2 ^ 31)%Z.

Lemma span_end f s : Forall (λ c, f c = true) s → span f s = (s, []).
Proof. induction 1 as [|c s Hc _ IH]; simpl; [done|]. by rewrite Hc, IH. Qed.

Lemma atoi_print_z z : is_int z → atoi (print_z z) = Ok z.
Proof.
  intros Hz. unfold is_int in Hz. unfold atoi, print_z. set (n := if (z <? 0)%Z then Z.to_N (- z) else Z.to_N z).
  assert (Forall (λ c, isdigit c = true) (digits 10 n) ∧ Forall (λ c, isspace c = false) (digits 10 n)) as [Hd Hsp]
    by (split; (eapply Forall_impl; [apply digits_chars|]; intros ? [? ?]; done)).
  assert (decimal (digits 10 n) = Z.of_N n) as Hv.
  { apply digits_value. change (10 ^ N.of_nat 10)%N with 10000000000%N. unfold n. case_match; lia. }
  assert (∀ neg, (if (neg : bool) then (- Z.of_N n)%Z else Z.of_N n) = z → int_value neg (digits 10 n) = Ok z) as Hi.
  { intros neg E. unfold int_value. rewrite Hv, E. destruct (Z.leb_spec (- 2 ^ 31) z); [|lia]. destruct (Z.ltb_spec z (2 ^ 31)); [|lia]. done. }
  pose proof (digits_nonempty 9 n) as Hne. destruct (Z.ltb_spec z 0) as [Hneg|Hpos]; fold n.
  - cbn [skip_space]. change (isspace "-") with false. cbv iota. cbn [take_sign].
    rewrite bool_decide_eq_true_2 by done. cbv iota beta. rewrite span_end by done. apply Hi. unfold n. lia.
  - assert (skip_space (digits 10 n) = digits 10 n) as ->.
    { rewrite <- (app_nil_r (digits 10 n)). apply (skip_space_word []); [constructor|done]. }
    rewrite <- (app_nil_r (digits 10 n)). rewrite take_sign_digit by done. rewrite app_nil_r. cbv iota beta.
    rewrite span_end by done. apply Hi. unfold n. lia.
Qed.

Lemma unsigned_signed n : (n < 2 ^ 32)%N → unsigned (signed n) = n ∧ is_int (signed n).
Proof.
  intros Hn. unfold unsigned, signed, is_int. destruct (N.ltb_spec n (2 ^ 31)) as [H|H].
  - rewrite Z.mod_small; lia.
  - replace (Z.of_N n - 2 ^ 32)%Z with (Z.of_N n + (-1) * 2 ^ 32)%Z by lia. rewrite Z.mod_add, Z.mod_small by lia. lia.
Qed.

(** The options that give the parameters, and the parameters that options can give. *)
Definition options_of (p : model_params) : list (ascii * option cstr) :=
  [("x"%char, Some (print_z (maxexecutions p))); ("s"%char, Some (print_z (maxfuturedelay p)));
   ("S"%char, Some (print_z (signed (expireslop p)))); ("f"%char, Some (print_z (signed (fairwindow p))));
   ("e"%char, Some (print_z (signed (enabledcount p)))); ("b"%char, Some (print_z (signed (bound p))));
   ("m"%char, Some (print_z (maxreads p))); ("M"%char, Some (print_z (maxfuturevalues p)));
   ("u"%char, Some (print_z (signed (uninitvalue p)))); ("v"%char, Some (print_z (verbose p)))] ++
  (if yieldon p then [("y"%char, None)] else []) ++ (if yieldblock p then [("Y"%char, None)] else []).
Definition params_ok (p : model_params) : Prop :=
  is_int (maxexecutions p) ∧ is_int (maxfuturedelay p) ∧ is_int (maxreads p) ∧ is_int (maxfuturevalues p) ∧ is_int (verbose p) ∧
  (expireslop p < 2 ^ 32)%N ∧ (fairwindow p < 2 ^ 32)%N ∧ (enabledcount p < 2 ^ 32)%N ∧ (bound p < 2 ^ 32)%N ∧ (uninitvalue p < 2 ^ 32)%N.

Lemma parse_number fopen opt set z opts c :
  number_option opt = Some set → is_int z →
  parse_options fopen ((opt, Some (print_z z)) :: opts) c = parse_options fopen opts (put_params (set z (cl_params c)) c).
Proof. intros Hs Hz. cbn [parse_options]. unfold parse_opt. rewrite Hs. simpl. by rewrite atoi_print_z. Qed.

Lemma parse_verbose fopen z opts c :
  is_int z → parse_options fopen (("v"%char, Some (print_z z)) :: opts) c = parse_options fopen opts (put_params (p_verbose z (cl_params c)) c).
Proof. intros Hz. cbn [parse_options]. unfold parse_opt. simpl. by rewrite atoi_print_z. Qed.

(** Every setting of the parameters can be given on the command line: the options written
    for it are parsed back to it, whatever the numbers were before, and nothing else
    changes. *)
Theorem parse_options_roundtrip fopen p c :
  params_ok p → yieldon (cl_params c) = false → yieldblock (cl_params c) = false →
  parse_options fopen (options_of p) c = Ok (put_params p c).
Proof.
  intros (H1 & H2 & H3 & H4 & H5 & U1 & U2 & U3 & U4 & U5) Hy HY.
  apply unsigned_signed in U1 as [E1 U1], U2 as [E2 U2], U3 as [E3 U3], U4 as [E4 U4], U5 as [E5 U5].
  unfold options_of. cbn [app].
  do 9 (erewrite parse_number; [|reflexivity|done]). rewrite parse_verbose by done. rewrite E1, E2, E3, E4, E5.
  destruct p as [mr md yo yb fw ec bd uv me mf es vb], c as [[? ? yo' yb' ? ? ? ? ? ? ? ?] sc fe inst]. simpl in Hy, HY. subst yo' yb'.
  destruct yo, yb; reflexivity.
Qed.
