(* ===== verification/SnapshotSpec.v ===== *)
(** * What snapshots are: a stack of images of the memory

    The specification of the snapshots of snapshot.h, which snapshot.cc implements twice: by
    page protection (Snapshot) and by processes (ForkSnapshot). *)

From S2P Require Import Prelude.

Section spec.
(** The contents of a page, and the pages that are rolled back. *)
Context {page : Type} (scope : N → Prop) `{!∀ p, Decision (scope p)}.

Record images := mkImages { im_pages : gmap N page; im_taken : list (gmap N page) }.

Inductive snap_op := Write (p : N) (c : page) | Take | RollBack (k : nat).

(** Rolling back makes the pages in [scope] what they were. *)
Definition back_to (image pages : gmap N page) : gmap N page :=
  filter (λ e, scope e.1) image ∪ filter (λ e, ¬ scope e.1) pages.
Definition spec_op (op : snap_op) (a : images) : images :=
  match op with
  | Write p c => mkImages (<[p := c]> (im_pages a)) (im_taken a)
  | Take => mkImages (im_pages a) (im_taken a ++ [im_pages a])
  | RollBack k =>
      match im_taken a !! k with
      | Some image => mkImages (back_to image (im_pages a)) (take (S k) (im_taken a))
      | None => a
      end
  end.
(** Writes go to mapped pages, one rolls back to snapshots that have been taken, and at most
    [depth] snapshots exist at a time. *)
Definition op_valid (depth : nat) (op : snap_op) (a : images) : Prop :=
  match op with
  | Write p _ => is_Some (im_pages a !! p)
  | Take => length (im_taken a) < depth
  | RollBack k => k < length (im_taken a)
  end.
Fixpoint ops_valid (depth : nat) (ops : list snap_op) (a : images) : Prop :=
  match ops with [] => True | op :: ops => op_valid depth op a ∧ ops_valid depth ops (spec_op op a) end.
Definition spec_run (ops : list snap_op) (a : images) : images := foldl (λ a op, spec_op op a) a ops.

Lemma lookup_back_to image pages p :
  back_to image pages !! p = if decide (scope p) then image !! p else pages !! p.
Proof.
  unfold back_to. rewrite lookup_union. case_decide as Hp.
  - rewrite !map_lookup_filter. simpl. destruct (image !! p) as [c|]; simpl.
    + rewrite option_guard_True by done. simpl. by destruct (pages !! p ≫= _).
    + destruct (pages !! p); simpl; [|done]. by rewrite option_guard_False by naive_solver.
  - rewrite !map_lookup_filter. simpl. destruct (image !! p) as [c|]; simpl.
    + rewrite option_guard_False by done. destruct (pages !! p); simpl; [|done]. by rewrite option_guard_True.
    + destruct (pages !! p); simpl; [|done]. by rewrite option_guard_True.
Qed.
End spec.

(** The calls of snapshot.h. *)
Class SnapshotSystem (M page : Type) := {
  ss_pages : M → gmap N page;
  ss_write : N → page → M → result M;
  ss_take_snapshot : M → result (M * nat);
  ss_roll_back : nat → M → result M
}.

(** What an implementation promises while it represents the images [a]: the pages are
    those of [a], and the calls succeed and act on the images as specified, the identifier
    of a snapshot being its position. *)
Class SnapshotLaws {M page : Type} `{SnapshotSystem M page} (scope : N → Prop) `{!∀ p, Decision (scope p)}
    (depth : nat) (rep : images (page := page) → M → Prop) := {
  sl_pages a m : rep a m → ss_pages m = im_pages a;
  sl_write a m p c : rep a m → op_valid depth (Write p c) a → ∃ m', ss_write p c m = Ok m' ∧ rep (spec_op scope (Write p c) a) m';
  sl_take a m : rep a m → op_valid depth Take a → ∃ m', ss_take_snapshot m = Ok (m', length (im_taken a)) ∧ rep (spec_op scope Take a) m';
  sl_roll_back a m k : rep a m → op_valid depth (RollBack k) a → ∃ m', ss_roll_back k m = Ok m' ∧ rep (spec_op scope (RollBack k) a) m'
}.

(** Any run of an implementation. *)
Section runs.
Context {M page : Type} `{SnapshotLaws M page scope depth rep}.

Definition run_op (op : snap_op) (m : M) : result M :=
  match op with
  | Write p c => ss_write p c m
  | Take => '(m, _) ← ss_take_snapshot m; Ok m
  | RollBack k => ss_roll_back k m
  end.
Definition run_ops (ops : list snap_op) (m : M) : result M := foldM run_op ops m.

Lemma run_op_refines op a m :
  rep a m → op_valid depth op a → ∃ m', run_op op m = Ok m' ∧ rep (spec_op scope op a) m'.
Proof.
  intros Hm Hv. destruct op as [p c| |k]; [by apply sl_write| |by apply sl_roll_back].
  destruct (sl_take a m Hm Hv) as (m' & Hrun & Hm'). exists m'. simpl. by rewrite Hrun.
Qed.

Lemma run_ops_refine ops : ∀ a m,
  rep a m → ops_valid scope depth ops a → ∃ m', run_ops ops m = Ok m' ∧ rep (spec_run scope ops a) m'.
Proof.
  induction ops as [|op ops IH]; intros a m Hm Hv; [by exists m|]. destruct Hv as [Hv Hvs].
  destruct (run_op_refines op a m Hm Hv) as (m1 & Hrun & Hm1). destruct (IH (spec_op scope op a) m1 Hm1 Hvs) as (m' & Hrun' & Hm').
  exists m'. split; [|done]. unfold run_ops. cbn [foldM]. by rewrite Hrun.
Qed.
End runs.
