(* ===== verification/Snapshot.v ===== *)
(** * Snapshots of memory (snapshot.cc, the algorithm chosen by config.h)

    The memory of the user program and part of that of the checker can be rolled back. To
    take a snapshot the pages of the registered regions are made read-only; the first
    write to such a page faults, and the handler copies the page to the backing store
    and makes it writable. Rolling back copies pages from the backing store. *)

From S2P Require Import Prelude HashTable SnapshotSpec.

(** ** State *)

Definition PAGESIZE : N := 4096.

Section snapshots.
(** The contents of a page, of which the code only makes copies. *)
Context {page : Type}.

(** The arrays up to [lastRegion], [lastBackingPage] and [lastSnapShot]; pages are
    addressed by their number, and a backing page is paired with its record. *)
Record mprot_snapshotter := mkSnapshotter {
  regionsToSnapShot : list (N * nat);
  backingStore : list (N * page);
  snapShots : list nat;
  maxRegions : nat;
  maxBackingPages : nat;
  maxSnapShots : nat
}.
Definition new_mprot_snapshotter (backing_pages snapshots regions : nat) : mprot_snapshotter :=
  mkSnapshotter [] [] [] regions backing_pages snapshots.

(** The machine: the mapped pages, and those of them that are read-only. *)
Record machine := mkMachine {
  m_pages : gmap N page;
  m_readonly : gset N;
  m_snap : mprot_snapshotter
}.

Definition put_pages (v : gmap N page) (m : machine) : machine := mkMachine v (m_readonly m) (m_snap m).
Definition put_readonly (v : gset N) (m : machine) : machine := mkMachine (m_pages m) v (m_snap m).
Definition put_snap (v : mprot_snapshotter) (m : machine) : machine := mkMachine (m_pages m) (m_readonly m) v.
Definition put_backing (v : list (N * page)) (x : mprot_snapshotter) : mprot_snapshotter :=
  mkSnapshotter (regionsToSnapShot x) v (snapShots x) (maxRegions x) (maxBackingPages x) (maxSnapShots x).
Definition put_snapShots (v : list nat) (x : mprot_snapshotter) : mprot_snapshotter :=
  mkSnapshotter (regionsToSnapShot x) (backingStore x) v (maxRegions x) (maxBackingPages x) (maxSnapShots x).
Definition put_regions (v : list (N * nat)) (x : mprot_snapshotter) : mprot_snapshotter :=
  mkSnapshotter v (backingStore x) (snapShots x) (maxRegions x) (maxBackingPages x) (maxSnapShots x).

(** ** Operations *)

(** The page fault handler, for a page that is mapped. *)
Definition mprot_handle_pf (p : N) (m : machine) : result machine :=
  contents ← deref (m_pages m !! p);
  let x := m_snap m in
  if length (backingStore x) =? maxBackingPages x then Err Exited
  else Ok (put_readonly (m_readonly m ∖ {[p]}) (put_snap (put_backing (backingStore x ++ [(p, contents)]) x) m)).

(** A write to a page by the program or by [memcpy], with the fault it may cause; a fault
    at an address that is not mapped ends the program. *)
Definition write_page (p : N) (contents : page) (m : machine) : result machine :=
  match m_pages m !! p with
  | None => Err Exited
  | Some _ =>
      m ← (if bool_decide (p ∈ m_readonly m) then mprot_handle_pf p m else Ok m);
      Ok (put_pages (<[p := contents]> (m_pages m)) m)
  end.

(** The pages of a region, and [mprotect] on it, which fails if one is not mapped. *)
Definition region_pages (r : N * nat) : list N := map (λ i, r.1 + N.of_nat i)%N (seq 0 r.2).
Definition mprotect (readonly : bool) (r : N * nat) (m : machine) : result machine :=
  if forallb (λ p, bool_decide (is_Some (m_pages m !! p))) (region_pages r) then
    let pages := list_to_set (region_pages r) in
    Ok (put_readonly (if readonly then m_readonly m ∪ pages else m_readonly m ∖ pages) m)
  else Err Exited.
Definition mprotect_all (readonly : bool) (m : machine) : result machine :=
  foldM (mprotect readonly) (regionsToSnapShot (m_snap m)) m.

Definition mprot_add_to_snapshot (addr : N) (numPages : nat) (m : machine) : result machine :=
  let x := m_snap m in
  if length (regionsToSnapShot x) =? maxRegions x then Err Exited
  else Ok (put_snap (put_regions (regionsToSnapShot x ++ [(addr, numPages)]) x) m).

Definition mprot_take_snapshot (m : machine) : result (machine * nat) :=
  m ← mprotect_all true m;
  let x := m_snap m in
  let snapshot := length (snapShots x) in
  if snapshot =? maxSnapShots x then Err Exited
  else Ok (put_snap (put_snapShots (snapShots x ++ [length (backingStore x)]) x) m, snapshot).

(** The table of the pages already restored, with [void *] keys. *)
Context {T : Type} `{PtrTable T bool} (duplicateMap : T).

(** One round of the second loop of [mprot_roll_back]. *)
Definition restore_once (page : nat) (acc : machine * T) : result (machine * T) :=
  let '(m, dup) := acc in
  '(p, contents) ← at_index (backingStore (m_snap m)) page;
  seen ← pt_contains (p * PAGESIZE)%N dup;
  if (seen : bool) then Ok (m, dup)
  else
    dup ← pt_put (p * PAGESIZE)%N true dup;
    m ← write_page p contents m;
    Ok (m, dup).

(** [mprot_roll_back], with USE_MPROTECT_SNAPSHOT = 2: the last snapshot keeps its backing
    pages. A record beyond the last one has no meaning. (The pages that are written back
    are writable, so that the loops do not add to the pages they run over.) *)
Definition mprot_roll_back (theID : nat) (m : machine) : result machine :=
  let x := m_snap m in
  firstBackingPage ← at_index (snapShots x) theID;
  let pages := seq firstBackingPage (length (backingStore x) - firstBackingPage) in
  if length (snapShots x) =? S theID then
    foldM (λ page m, '(p, contents) ← at_index (backingStore (m_snap m)) page; write_page p contents m) pages m
  else
    m ← mprotect_all false m;
    '(m, _) ← foldM restore_once pages (m, duplicateMap);
    let x := m_snap m in
    '(m, _) ← mprot_take_snapshot
      (put_snap (put_backing (take firstBackingPage (backingStore x)) (put_snapShots (take theID (snapShots x)) x)) m);
    Ok m.
End snapshots.
Arguments mprot_snapshotter : clear implicits.
Arguments machine : clear implicits.

(** ** The first copy of a page *)

Section copies.
Context {page : Type}.
Implicit Types (l : list (N * page)) (mem : gmap N page).

(** The oldest copy of a page in part of the backing store, and what a page holds after
    the copies have been put back. *)
Fixpoint first_copy (p : N) l : option page :=
  match l with [] => None | (q, c) :: l => if decide (q = p) then Some c else first_copy p l end.
Definition restored l mem (p : N) : option page :=
  match first_copy p l with Some c => Some c | None => mem !! p end.

Lemma first_copy_None p l : first_copy p l = None ↔ p ∉ l.*1.
Proof.
  induction l as [|[q c] l IH]; simpl; [split; [set_solver|done]|]. rewrite not_elem_of_cons. case_decide as E; [naive_solver|].
  rewrite IH. naive_solver.
Qed.
Lemma first_copy_app p l1 l2 :
  first_copy p (l1 ++ l2) = match first_copy p l1 with Some c => Some c | None => first_copy p l2 end.
Proof. induction l1 as [|[q c] l1 IH]; simpl; [done|]. by case_decide. Qed.

Lemma restored_here l mem p : p ∉ l.*1 → restored l mem p = mem !! p.
Proof. intros Hp. unfold restored. by rewrite (proj2 (first_copy_None p l) Hp). Qed.
(** A copied page can be written. *)
Lemma restored_write l mem p q c : q ≠ p ∨ p ∈ l.*1 → restored l (<[q := c]> mem) p = restored l mem p.
Proof.
  intros Hq. unfold restored. destruct (first_copy p l) eqn:E; [done|]. destruct Hq as [Hq|Hq]; [by rewrite lookup_insert_ne|].
  by apply first_copy_None in E.
Qed.
(** A page can be copied. *)
Lemma restored_copy l mem p q c : mem !! q = Some c → restored (l ++ [(q, c)]) mem p = restored l mem p.
Proof.
  intros Hq. unfold restored. rewrite first_copy_app. destruct (first_copy p l); [done|]. simpl. case_decide as E; [|done]. by subst q.
Qed.
End copies.

(** ** Regions *)

Definition in_regions (rs : list (N * nat)) (p : N) : Prop := p ∈ concat (map region_pages rs).
(** The number of pages of the regions. *)
Definition region_size (rs : list (N * nat)) : nat := length (concat (map region_pages rs)).
#[global] Instance in_regions_dec rs p : Decision (in_regions rs p).
Proof. unfold in_regions. apply _. Defined.

Section machines.
Context {page : Type}.
Implicit Types m : machine page.

Definition covered m : N → Prop := in_regions (regionsToSnapShot (m_snap m)).
Definition all_mapped (rs : list (N * nat)) m : Prop := ∀ p, in_regions rs p → is_Some (m_pages m !! p).

Lemma mprotect_all_spec b m :
  all_mapped (regionsToSnapShot (m_snap m)) m →
  ∃ ro, mprotect_all b m = Ok (put_readonly ro m) ∧
    ∀ p, p ∈ ro ↔ if (b : bool) then p ∈ m_readonly m ∨ covered m p else p ∈ m_readonly m ∧ ¬ covered m p.
Proof.
  intros Hm. unfold mprotect_all, covered. revert m Hm. 
  assert (∀ rs m, all_mapped rs m → ∃ ro, foldM (mprotect b) rs m = Ok (put_readonly ro m) ∧
    ∀ p, p ∈ ro ↔ if (b : bool) then p ∈ m_readonly m ∨ in_regions rs p else p ∈ m_readonly m ∧ ¬ in_regions rs p) as G;
    [|by intros m Hm; apply G].
  induction rs as [|r rs IH]; intros m Hm.
  { exists (m_readonly m). split; [by destruct m|]. intros p. unfold in_regions. simpl. destruct b; set_solver. }
  set (m1 := put_readonly (if b then m_readonly m ∪ list_to_set (region_pages r) else m_readonly m ∖ list_to_set (region_pages r)) m).
  assert (mprotect b r m = Ok m1) as E.
  { unfold mprotect. rewrite (proj2 (forallb_forall _ _)); [done|]. intros p Hp. apply bool_decide_eq_true, Hm.
    unfold in_regions. simpl. apply elem_of_app. left. by apply list_elem_of_In. }
  cbn [foldM]. rewrite E. cbn [mbind result_bind]. destruct (IH m1) as (ro & -> & Hro).
  { intros p Hp. apply Hm. unfold in_regions in *. simpl. apply elem_of_app. by right. }
  exists ro. split; [done|]. intros p. rewrite Hro. unfold in_regions. simpl. destruct b; unfold m1; simpl; set_solver.
Qed.
End machines.

(** ** The invariant: the copies are those of the images *)

Section spec.
Context {page : Type} (rs : list (N * nat)).
Implicit Types m : machine page.

(** The relation between a machine and the images; [first] is where the copies of a
    snapshot start. While a snapshot is being restored, the last condition does not hold. *)
Record snap_inv (b : Prop) (a : images) (m : machine page) : Prop := {
  si_regions : regionsToSnapShot (m_snap m) = rs;
  si_pages : m_pages m = im_pages a;
  si_mapped : all_mapped rs m;
  si_length : length (snapShots (m_snap m)) = length (im_taken a);
  si_bounds : length (backingStore (m_snap m)) ≤ maxBackingPages (m_snap m) ∧ length (snapShots (m_snap m)) ≤ maxSnapShots (m_snap m);
  si_first : ∀ (k : nat) first, snapShots (m_snap m) !! k = Some first → first ≤ length (backingStore (m_snap m));
  si_sorted : ∀ (j k : nat) f g, j ≤ k → snapShots (m_snap m) !! j = Some f → snapShots (m_snap m) !! k = Some g → f ≤ g;
  si_image : ∀ (k : nat) first image, snapShots (m_snap m) !! k = Some first → im_taken a !! k = Some image →
    ∀ p, in_regions rs p → restored (drop first (backingStore (m_snap m))) (m_pages m) p = image !! p;
  si_covered : ∀ p, p ∈ (backingStore (m_snap m)).*1 → in_regions rs p;
  si_readonly : ∀ p, p ∈ m_readonly m → in_regions rs p;
  si_size : ∀ (k : nat) first, snapShots (m_snap m) !! k = Some first → first ≤ k * region_size rs;
  si_none : snapShots (m_snap m) = [] → backingStore (m_snap m) = [] ∧ m_readonly m = ∅;
  si_last : b → ∀ first, last (snapShots (m_snap m)) = Some first →
    NoDup (drop first (backingStore (m_snap m))).*1 ∧
    ∀ p, in_regions rs p → p ∈ m_readonly m ↔ p ∉ (drop first (backingStore (m_snap m))).*1
}.

Lemma last_lookup_length {A} (l : list A) x : last l = Some x → l !! (length l - 1) = Some x.
Proof. rewrite last_lookup. by replace (pred (length l)) with (length l - 1) by lia. Qed.

Lemma copied_mono (l : list (N * page)) f g p : f ≤ g → p ∈ (drop g l).*1 → p ∈ (drop f l).*1.
Proof.
  intros Hle Hp. rewrite <- (take_drop (g - f) (drop f l)), drop_drop, fmap_app. apply elem_of_app. right.
  by replace (f + (g - f)) with g by lia.
Qed.

(** A page that is not read-only has been copied since every snapshot. *)
Lemma si_copied a m p (k : nat) first :
  snap_inv True a m → in_regions rs p → p ∉ m_readonly m → snapShots (m_snap m) !! k = Some first →
  p ∈ (drop first (backingStore (m_snap m))).*1.
Proof.
  intros Hi Hp Hro Hk. destruct (last (snapShots (m_snap m))) as [g|] eqn:Hl.
  2: { apply last_None in Hl. by rewrite Hl in Hk. }
  destruct (si_last _ _ _ Hi Logic.I _ Hl) as [_ Hlast]. apply (copied_mono _ first g).
  - apply (si_sorted _ _ _ Hi k (length (snapShots (m_snap m)) - 1)); [apply lookup_lt_Some in Hk; lia|done|by apply last_lookup_length].
  - destruct (decide (p ∈ (drop g (backingStore (m_snap m))).*1)) as [Hin|Hin]; [done|]. destruct Hro. by apply Hlast.
Qed.

(** Every page is copied at most once per snapshot. *)
Lemma copies_bound a m :
  snap_inv True a m → length (backingStore (m_snap m)) ≤ length (snapShots (m_snap m)) * region_size rs ∧
  ∀ p, p ∈ m_readonly m → length (backingStore (m_snap m)) < length (snapShots (m_snap m)) * region_size rs.
Proof.
  intros Hi. destruct (last (snapShots (m_snap m))) as [first|] eqn:Hl.
  2: { apply last_None in Hl. destruct (si_none _ _ _ Hi Hl) as [Hb Hro]. rewrite Hb, Hl, Hro. split; [done|set_solver]. }
  destruct (si_last _ _ _ Hi Logic.I _ Hl) as [Hnd Hlast]. pose proof (last_lookup_length _ _ Hl) as Hk.
  pose proof (si_size _ _ _ Hi _ _ Hk) as Hs. pose proof (lookup_lt_Some _ _ _ Hk) as Hlt. pose proof (si_first _ _ _ Hi _ _ Hk) as Hf.
  assert (∀ l : list N, NoDup l → (∀ p, p ∈ l → in_regions rs p) → length l ≤ region_size rs) as Hle
    by (intros l ? ?; by apply NoDup_incl_length').
  assert (∀ p, p ∈ (drop first (backingStore (m_snap m))).*1 → in_regions rs p) as Hreg
    by (intros p Hp; eapply si_covered; [done|]; by apply (copied_mono _ 0 first); [lia|]).
  assert (length (backingStore (m_snap m)) = first + length (drop first (backingStore (m_snap m))).*1) as ->
    by (rewrite length_fmap, length_drop; lia).
  split.
  - pose proof (Hle _ Hnd Hreg). nia.
  - intros p Hp. pose proof (si_readonly _ _ _ Hi p Hp) as Hp'. assert (p ∉ (drop first (backingStore (m_snap m))).*1) as Hnew by by apply Hlast.
    pose proof (Hle (p :: (drop first (backingStore (m_snap m))).*1)) as H1. simpl in H1.
    assert (S (length (drop first (backingStore (m_snap m))).*1) ≤ region_size rs); [|nia].
    apply H1; [by constructor|]. intros q [->|Hq]%elem_of_cons; auto.
Qed.

(** The fault handler keeps the images. *)
Lemma handle_pf_inv a m p :
  snap_inv True a m → p ∈ m_readonly m → length (snapShots (m_snap m)) * region_size rs ≤ maxBackingPages (m_snap m) →
  ∃ c, m_pages m !! p = Some c ∧
    let m' := put_readonly (m_readonly m ∖ {[p]}) (put_snap (put_backing (backingStore (m_snap m) ++ [(p, c)]) (m_snap m)) m) in
    mprot_handle_pf p m = Ok m' ∧ snap_inv True a m'.
Proof.
  intros Hi Hp Hcap. pose proof (proj2 (copies_bound _ _ Hi) p Hp) as Hroom.
  pose proof (si_readonly _ _ _ Hi p Hp) as Hreg. destruct (si_mapped _ _ _ Hi p Hreg) as [c Hc]. exists c. split; [done|].
  split. { unfold mprot_handle_pf. rewrite Hc. simpl. by rewrite (proj2 (Nat.eqb_neq _ _)) by lia. }
  assert (∀ k first, snapShots (m_snap m) !! k = Some first →
    drop first (backingStore (m_snap m) ++ [(p, c)]) = drop first (backingStore (m_snap m)) ++ [(p, c)]) as Hd.
  { intros k first Hk. apply drop_app_le. by eapply si_first. }
  split; simpl; try apply Hi.
  - destruct (si_bounds _ _ _ Hi). rewrite length_app. simpl. lia.
  - intros k first Hk. rewrite length_app. simpl. pose proof (si_first _ _ _ Hi k first Hk). lia.
  - intros k first image Hk Ha q Hq. rewrite (Hd k first Hk). rewrite restored_copy by done. by eapply si_image.
  - intros q. rewrite fmap_app, elem_of_app. intros [Hq|Hq]; [by eapply si_covered|]. apply list_elem_of_singleton in Hq as ->. done.
  - intros q Hq. eapply si_readonly; [done|set_solver].
  - intros Hn. destruct (si_none _ _ _ Hi Hn) as [_ Hro]. set_solver.
  - intros _ first Hl. rewrite (Hd _ _ (last_lookup_length _ _ Hl)). destruct (si_last _ _ _ Hi Logic.I _ Hl) as [Hnd Hlast].
    assert (p ∉ (drop first (backingStore (m_snap m))).*1) as Hnew by by apply Hlast.
    rewrite fmap_app. split.
    + apply NoDup_app. split; [done|]. split; [set_solver|apply NoDup_singleton].
    + intros q Hq. rewrite elem_of_difference, elem_of_singleton, Hlast by done. set_solver.
Qed.

(** So do writes to pages that are not read-only. *)
Lemma plain_write_inv a m p c :
  snap_inv True a m → p ∉ m_readonly m → is_Some (m_pages m !! p) →
  snap_inv True (spec_op (in_regions rs) (Write p c) a) (put_pages (<[p := c]> (m_pages m)) m).
Proof.
  intros Hi Hp Hc. split; simpl; try apply Hi.
  - by rewrite (si_pages _ _ _ Hi).
  - intros q Hq. simpl. destruct (decide (q = p)) as [->|]; [rewrite lookup_insert_eq; by eexists|].
    rewrite lookup_insert_ne by done. by apply (si_mapped _ _ _ Hi).
  - intros k first image Hk Ha q Hq. rewrite restored_write; [by eapply si_image|].
    destruct (decide (p = q)) as [->|]; [right; by eapply si_copied|by left].
Qed.

Lemma write_page_inv a m p c :
  snap_inv True a m → is_Some (im_pages a !! p) → length (snapShots (m_snap m)) * region_size rs ≤ maxBackingPages (m_snap m) →
  ∃ m', write_page p c m = Ok m' ∧ snap_inv True (spec_op (in_regions rs) (Write p c) a) m' ∧
    snapShots (m_snap m') = snapShots (m_snap m) ∧ maxBackingPages (m_snap m') = maxBackingPages (m_snap m) ∧
    maxSnapShots (m_snap m') = maxSnapShots (m_snap m).
Proof.
  intros Hi Hc Hroom. rewrite <- (si_pages _ _ _ Hi) in Hc. destruct Hc as [c0 Hc0]. unfold write_page. rewrite Hc0. case_bool_decide as Hro.
  - destruct (handle_pf_inv a m p Hi Hro Hroom) as (c1 & Hc1 & -> & Hi'). simpl. eexists. split; [done|].
    split; [apply (plain_write_inv a _ p c Hi'); simpl; [set_solver|by eexists]|]. done.
  - simpl. eexists. split; [done|]. split; [apply (plain_write_inv a _ p c Hi); [done|by eexists]|]. done.
Qed.
End spec.

Section steps.
Context {page : Type} (rs : list (N * nat)).
Implicit Types m : machine page.

Lemma take_snapshot_inv b a m :
  snap_inv rs b a m → length (backingStore (m_snap m)) ≤ length (snapShots (m_snap m)) * region_size rs →
  length (snapShots (m_snap m)) < maxSnapShots (m_snap m) →
  ∃ m', mprot_take_snapshot m = Ok (m', length (snapShots (m_snap m))) ∧ snap_inv rs True (spec_op (in_regions rs) Take a) m' ∧
    m_snap m' = put_snapShots (snapShots (m_snap m) ++ [length (backingStore (m_snap m))]) (m_snap m).
Proof.
  intros Hi Hcap Hroom. destruct (mprotect_all_spec true m) as (ro & Hro & Hr); [rewrite (si_regions _ _ _ _ Hi); apply Hi|].
  unfold mprot_take_snapshot. rewrite Hro. cbn [mbind result_bind]. simpl. rewrite (proj2 (Nat.eqb_neq _ _)) by lia.
  eexists. split; [done|]. split; [|done].
  assert (∀ p, in_regions rs p → p ∈ ro) as Hall by (intros p Hp; apply Hr; right; unfold covered; by rewrite (si_regions _ _ _ _ Hi)).
  split; simpl; try apply Hi.
  - rewrite !length_app. simpl. by rewrite (si_length _ _ _ _ Hi).
  - destruct (si_bounds _ _ _ _ Hi). rewrite length_app. simpl. lia.
  - intros k first Hk. apply lookup_snoc_Some in Hk as [[_ Hk]|[_ Hk]]; [by eapply si_first|]. lia.
  - intros j k f g Hjk Hj Hk. apply lookup_snoc_Some in Hj as [[Hj1 Hj]|[Hj1 Hj]], Hk as [[Hk1 Hk]|[Hk1 Hk]].
    + exact (si_sorted _ _ _ _ Hi j k f g Hjk Hj Hk).
    + rewrite <- Hk. by eapply si_first.
    + lia.
    + lia.
  - intros k first image Hk Ha p Hp. apply lookup_snoc_Some in Hk as [[Hk1 Hk]|[-> <-]].
    + rewrite lookup_app_l in Ha by (rewrite <- (si_length _ _ _ _ Hi); done). by eapply si_image.
    + rewrite (si_length _ _ _ _ Hi), lookup_app_r, Nat.sub_diag in Ha by lia. injection Ha as <-.
      rewrite drop_all, restored_here by set_solver. by rewrite (si_pages _ _ _ _ Hi).
  - intros p Hp. apply Hr in Hp as [Hp|Hp]; [by eapply si_readonly|]. unfold covered in Hp. by rewrite (si_regions _ _ _ _ Hi) in Hp.
  - intros k first Hk. apply lookup_snoc_Some in Hk as [[_ Hk]|[-> <-]]; [by eapply si_size|done].
  - intros [_ [=]]%app_nil.
  - intros _ first Hl. rewrite last_snoc in Hl. injection Hl as <-. rewrite drop_all. split; [constructor|].
    intros p Hp. split; [set_solver|]. intros _. by apply Hall.
Qed.

(** Copying back the pages of the backing store from index [k] on, in order. *)
Lemma copy_back_all (l : list (N * page)) : ∀ pre m,
  backingStore (m_snap m) = pre ++ l → (∀ p, p ∈ l.*1 → p ∉ m_readonly m ∧ is_Some (m_pages m !! p)) → NoDup l.*1 →
  ∃ mem, foldM (λ page m, '(p, contents) ← at_index (backingStore (m_snap m)) page; write_page p contents m)
           (seq (length pre) (length l)) m = Ok (put_pages mem m) ∧ ∀ p, mem !! p = restored l (m_pages m) p.
Proof.
  induction l as [|[q c] l IH]; intros pre m Hb Hl Hnd.
  { exists (m_pages m). split; [by destruct m|done]. }
  destruct (Hl q) as [Hq [c0 Hc0]]; [by left|]. apply NoDup_cons in Hnd as [Hnew Hnd].
  assert (at_index (backingStore (m_snap m)) (length pre) = Ok (q, c)) as Hat
    by (rewrite Hb; apply at_index_Ok; by rewrite lookup_app_r, Nat.sub_diag by lia).
  assert (write_page q c m = Ok (put_pages (<[q := c]> (m_pages m)) m)) as Hw
    by (unfold write_page; rewrite Hc0, bool_decide_eq_false_2 by done; done).
  destruct (IH (pre ++ [(q, c)]) (put_pages (<[q := c]> (m_pages m)) m)) as (mem & Hf & Hmem).
  - simpl. by rewrite Hb, <- app_assoc.
  - intros p Hp. simpl. destruct (Hl p) as [? ?]; [by right|]. split; [done|].
    destruct (decide (p = q)) as [->|]; [rewrite lookup_insert_eq; by eexists|by rewrite lookup_insert_ne].
  - done.
  - exists mem. split.
    + cbn [length seq foldM]. rewrite Hat. cbn [mbind result_bind]. rewrite Hw. cbn [mbind result_bind].
      rewrite length_app in Hf. simpl in Hf. replace (S (length pre)) with (length pre + 1) by lia. exact Hf.
    + intros p. rewrite Hmem. simpl. unfold restored at 2. simpl. case_decide as E.
      * subst p. rewrite restored_here by done. simpl. by rewrite lookup_insert_eq.
      * fold (restored l (m_pages m) p). apply restored_write. by left.
Qed.

Context {T : Type} `{PtrTable T bool}.

(** Copying back each page once. *)
Lemma copy_back_once (l : list (N * page)) : ∀ pre m (dup : T) (D : gmap N bool) n,
  backingStore (m_snap m) = pre ++ l → (∀ p, p ∈ l.*1 → p ∉ m_readonly m ∧ is_Some (m_pages m !! p) ∧ p ≠ 0%N) →
  pt_repr dup D → size D + length l ≤ n → (∀ k, k ≤ n → pt_fits k) →
  ∃ mem dup', foldM restore_once (seq (length pre) (length l)) (m, dup) = Ok (put_pages mem m, dup') ∧
    ∀ p, mem !! p = if decide (is_Some (D !! (p * PAGESIZE)%N)) then m_pages m !! p else restored l (m_pages m) p.
Proof.
  induction l as [|[q c] l IH]; intros pre m dup D n Hb Hl Hrep Hn Hfit.
  { exists (m_pages m), dup. split; [by destruct m|]. intros p. by case_decide. }
  destruct (Hl q) as (Hq & [c0 Hc0] & Hq0); [by left|]. simpl in Hn.
  assert (at_index (backingStore (m_snap m)) (length pre) = Ok (q, c)) as Hat
    by (rewrite Hb; apply at_index_Ok; by rewrite lookup_app_r, Nat.sub_diag by lia).
  assert ((q * PAGESIZE)%N ≠ 0%N) as Hk by (unfold PAGESIZE; lia).
  assert (∀ m1, m_snap m1 = m_snap m → backingStore (m_snap m1) = (pre ++ [(q, c)]) ++ l) as Hb1
    by (intros m1 ->; by rewrite Hb, <- app_assoc).
  assert (length (pre ++ [(q, c)]) = S (length pre)) as Hlen by (rewrite length_app; simpl; lia).
  cbn [length seq foldM]. match goal with |- context [restore_once _ _ ≫= ?k] => set (rest := k) end.
  unfold restore_once. rewrite Hat. cbn [mbind result_bind].
  rewrite (pt_contains_spec _ _ _ Hrep Hk). cbn [mbind result_bind]. destruct (bool_decide _) eqn:Hseen.
  - apply bool_decide_eq_true in Hseen. cbn [mbind result_bind].
    destruct (IH (pre ++ [(q, c)]) m dup D n) as (mem & dup' & Hf & Hmem); [by apply Hb1|..|done|lia|done|].
    { intros p Hp. apply Hl. by right. }
    exists mem, dup'. unfold rest. rewrite <- Hlen. split; [exact Hf|]. intros p. rewrite Hmem. case_decide as E; [done|].
    unfold restored. simpl. case_decide; [by subst|done].
  - apply bool_decide_eq_false in Hseen. destruct (pt_put_spec dup D (q * PAGESIZE)%N true Hrep Hk) as (dup1 & -> & Hrep1); [apply Hfit; lia|].
    cbn [mbind result_bind].
    assert (write_page q c m = Ok (put_pages (<[q := c]> (m_pages m)) m)) as ->
      by (unfold write_page; rewrite Hc0, bool_decide_eq_false_2 by done; done).
    cbn [mbind result_bind].
    destruct (IH (pre ++ [(q, c)]) (put_pages (<[q := c]> (m_pages m)) m) dup1 (<[(q * PAGESIZE)%N := true]> D) n) as (mem & dup' & Hf & Hmem);
      [by apply Hb1| |done| |done|].
    { intros p Hp. simpl. destruct (Hl p) as (? & ? & ?); [by right|]. split_and!; [done| |done].
      destruct (decide (p = q)) as [->|]; [rewrite lookup_insert_eq; by eexists|by rewrite lookup_insert_ne]. }
    { rewrite map_size_insert_None; [lia|]. by apply eq_None_not_Some. }
    exists mem, dup'. unfold rest. rewrite <- Hlen. split; [exact Hf|]. intros p. rewrite Hmem. simpl.
    destruct (decide (p = q)) as [->|Hpq].
    + rewrite lookup_insert_eq, decide_True by by eexists. rewrite lookup_insert_eq, decide_False by done. unfold restored. simpl. by rewrite decide_True.
    + rewrite lookup_insert_ne by (unfold PAGESIZE; lia). rewrite (lookup_insert_ne (m_pages m)) by done. case_decide; [done|].
      rewrite restored_write by (left; done). unfold restored. simpl. by rewrite decide_False.
Qed.
End steps.

Section refinement.
Context {page : Type} (rs : list (N * nat)) {T : Type} `{PtrTable T bool} (duplicateMap : T).
Context (no_null : ¬ in_regions rs 0%N).
Context (dup_empty : pt_repr duplicateMap ∅).
Implicit Types m : machine page.

(** The calls of snapshot.h, as this algorithm implements them. *)
Definition mprot_system : SnapshotSystem (machine page) page :=
  Build_SnapshotSystem (machine page) page m_pages write_page mprot_take_snapshot (mprot_roll_back duplicateMap).

(** The pages after the copies since snapshot [k] have been put back. *)
Lemma back_to_pages a m (k first : nat) image mem :
  snap_inv rs True a m → snapShots (m_snap m) !! k = Some first → im_taken a !! k = Some image →
  (∀ p, mem !! p = restored (drop first (backingStore (m_snap m))) (m_pages m) p) → mem = back_to (in_regions rs) image (im_pages a).
Proof.
  intros Hi Hk Ha Hmem. apply map_eq. intros p. rewrite Hmem, lookup_back_to. case_decide as Hp; [by eapply si_image|].
  rewrite restored_here; [by rewrite (si_pages _ _ _ _ Hi)|]. intros Hin. apply Hp. eapply si_covered; [done|]. by apply (copied_mono _ 0 first); [lia|].
Qed.

(** The part of the invariant that does not depend on what is writable, after the pages
    have been put back, for the snapshots up to [k] and any part of the backing store that
    starts with the copies before it. *)
Lemma restored_images a m (k first : nat) image mem B' :
  snap_inv rs True a m → snapShots (m_snap m) !! k = Some first → im_taken a !! k = Some image →
  (∀ p, mem !! p = restored (drop first (backingStore (m_snap m))) (m_pages m) p) →
  B' = backingStore (m_snap m) ∨ B' = take first (backingStore (m_snap m)) →
  ∀ (j : nat) f image', j ≤ k → snapShots (m_snap m) !! j = Some f → im_taken a !! j = Some image' →
  ∀ p, in_regions rs p → restored (drop f B') mem p = image' !! p.
Proof.
  intros Hi Hk Ha Hmem HB j f image' Hjk Hj Ha' p Hp. rewrite <- (si_image _ _ _ _ Hi j f image' Hj Ha' p Hp).
  assert (f ≤ first) as Hf by exact (si_sorted _ _ _ _ Hi j k f first Hjk Hj Hk).
  set (B := backingStore (m_snap m)) in *. unfold restored at 2. rewrite <- (drop_take_drop B f first Hf), first_copy_app.
  destruct HB as [->| ->].
  - unfold restored at 1. rewrite <- (drop_take_drop B f first Hf), first_copy_app. rewrite Hmem. unfold restored.
    destruct (first_copy p (drop f (take first B))); [done|]. by destruct (first_copy p (drop first B)).
  - unfold restored at 1. rewrite Hmem. unfold restored. by destruct (first_copy p (drop f (take first B))).
Qed.

Lemma roll_back_last a m (k first : nat) image :
  snap_inv rs True a m → snapShots (m_snap m) !! k = Some first → im_taken a !! k = Some image →
  length (snapShots (m_snap m)) = S k →
  ∃ mem, mprot_roll_back duplicateMap k m = Ok (put_pages mem m) ∧ snap_inv rs True (spec_op (in_regions rs) (RollBack k) a) (put_pages mem m).
Proof.
  intros Hi Hk Ha Hl. assert (last (snapShots (m_snap m)) = Some first) as Hlast by (rewrite last_lookup, Hl; done).
  destruct (si_last _ _ _ _ Hi Logic.I _ Hlast) as [Hnd Hro].
  assert (first ≤ length (backingStore (m_snap m))) as Hf by by eapply si_first.
  assert (∀ p, p ∈ (drop first (backingStore (m_snap m))).*1 → in_regions rs p) as Hreg
    by (intros p Hp; eapply si_covered; [done|]; by apply (copied_mono _ 0 first); [lia|]).
  destruct (copy_back_all (drop first (backingStore (m_snap m))) (take first (backingStore (m_snap m))) m) as (mem & Hrun & Hmem);
    [by rewrite take_drop| |done|].
  { intros p Hp. split; [by rewrite Hro by auto; auto|]. apply (si_mapped _ _ _ _ Hi). by apply Hreg. }
  exists mem. split.
  - unfold mprot_roll_back. rewrite (proj2 (at_index_Ok _ _ _) Hk). cbn [mbind result_bind]. rewrite Hl, Nat.eqb_refl.
    rewrite length_take, length_drop, Nat.min_l in Hrun by done. exact Hrun.
  - pose proof (back_to_pages a m k first image mem Hi Hk Ha Hmem) as ->. cbn [spec_op]. rewrite Ha.
    rewrite take_ge by (rewrite <- (si_length _ _ _ _ Hi); lia). split; simpl; try apply Hi; try done.
    + intros p Hp. simpl. rewrite Hmem. unfold restored. destruct (first_copy _ _); [by eexists|]. by apply (si_mapped _ _ _ _ Hi).
    + intros j f image' Hj Ha' p Hp.
      eapply (restored_images a m k first image _ _ Hi Hk Ha Hmem (or_introl eq_refl) j); try done. apply lookup_lt_Some in Hj. lia.
Qed.

(** The images only matter on the regions. *)
Lemma snap_inv_images b pages l l' m :
  Forall2 (λ i i' : gmap N page, ∀ p, in_regions rs p → i !! p = i' !! p) l l' →
  snap_inv rs b (mkImages pages l) m → snap_inv rs b (mkImages pages l') m.
Proof.
  intros Hl Hi. split; try apply Hi.
  - simpl. rewrite (si_length _ _ _ _ Hi). simpl. by apply Forall2_length in Hl.
  - simpl. intros k first image' Hk Ha' p Hp. destruct (Forall2_lookup_r _ _ _ _ _ Hl Ha') as (image & Ha & Hag).
    rewrite <- Hag by done. exact (si_image _ _ _ _ Hi k first image Hk Ha p Hp).
Qed.

Lemma roll_back_earlier a m (k first : nat) image :
  snap_inv rs True a m → snapShots (m_snap m) !! k = Some first → im_taken a !! k = Some image →
  length (snapShots (m_snap m)) ≠ S k → (∀ n, n ≤ maxBackingPages (m_snap m) → pt_fits n) →
  ∃ m', mprot_roll_back duplicateMap k m = Ok m' ∧ snap_inv rs True (spec_op (in_regions rs) (RollBack k) a) m' ∧
    m_snap m' = put_backing (take first (backingStore (m_snap m))) (put_snapShots (take k (snapShots (m_snap m)) ++ [first]) (m_snap m)).
Proof.
  intros Hi Hk Ha Hl Hfit. pose proof (lookup_lt_Some _ _ _ Hk) as Hlt. destruct (si_bounds _ _ _ _ Hi) as [Hb1 Hb2].
  assert (first ≤ length (backingStore (m_snap m))) as Hf by by eapply si_first.
  assert (∀ p, p ∈ (drop first (backingStore (m_snap m))).*1 → in_regions rs p) as Hreg
    by (intros p Hp; eapply si_covered; [done|]; by apply (copied_mono _ 0 first); [lia|]).
  destruct (mprotect_all_spec false m) as (ro & Hro & Hr); [rewrite (si_regions _ _ _ _ Hi); apply Hi|].
  assert (∀ p, p ∉ ro) as Hnone.
  { intros p Hp. apply Hr in Hp as [Hp1 Hp2]. apply Hp2. unfold covered. rewrite (si_regions _ _ _ _ Hi). by eapply si_readonly. }
  set (m1 := put_readonly ro m) in *.
  destruct (copy_back_once (drop first (backingStore (m_snap m))) (take first (backingStore (m_snap m))) m1 duplicateMap ∅ (maxBackingPages (m_snap m)))
    as (mem & dup' & Hrun & Hmem); [by rewrite take_drop| |done|rewrite map_size_empty, length_drop; lia|done|].
  { intros p Hp. specialize (Hreg p Hp). split_and!; [apply Hnone|by apply (si_mapped _ _ _ _ Hi)|]. intros ->. done. }
  assert (∀ p, mem !! p = restored (drop first (backingStore (m_snap m))) (m_pages m) p) as Hmem'.
  { intros p. rewrite Hmem, lookup_empty. rewrite decide_False; [done|]. by intros [? ?]. }
  set (m2 := put_snap (put_backing (take first (backingStore (m_snap m))) (put_snapShots (take k (snapShots (m_snap m))) (m_snap m))) (put_pages mem m1)).
  assert (length (take first (backingStore (m_snap m))) = first) as Hlen by (rewrite length_take; lia).
  assert (snap_inv rs False (mkImages mem (take k (im_taken a))) m2) as Hi2.
  { split; simpl; try apply Hi; try done.
    - intros p Hp. simpl. rewrite Hmem'. unfold restored. destruct (first_copy _ _); [by eexists|]. by apply (si_mapped _ _ _ _ Hi).
    - rewrite !length_take, (si_length _ _ _ _ Hi). done.
    - rewrite Hlen, length_take. lia.
    - intros j f Hj. rewrite Hlen. apply lookup_take_Some in Hj as [Hj Hjk]. exact (si_sorted _ _ _ _ Hi j k f first ltac:(lia) Hj Hk).
    - intros i j f g Hij Hi1 Hj1. apply lookup_take_Some in Hi1 as [Hi1 _], Hj1 as [Hj1 _]. exact (si_sorted _ _ _ _ Hi i j f g Hij Hi1 Hj1).
    - intros j f image' Hj Ha' p Hp. apply lookup_take_Some in Hj as [Hj Hjk], Ha' as [Ha' _].
      apply (restored_images a m k first image mem _ Hi Hk Ha Hmem' (or_intror eq_refl) j); [lia|done..].
    - intros p Hp. eapply si_covered; [done|]. rewrite <- (take_drop first (backingStore (m_snap m))), fmap_app. apply elem_of_app. by left.
    - intros p Hp. by apply Hnone in Hp.
    - intros j f Hj. apply lookup_take_Some in Hj as [Hj _]. by eapply si_size.
    - intros Hn. split; [|set_solver]. apply (f_equal length) in Hn. rewrite length_take in Hn. simpl in Hn.
      pose proof (si_size _ _ _ _ Hi k first Hk) as Hs. assert (k = 0) as -> by lia. simpl in Hs. by replace first with 0 by lia. }
  destruct (take_snapshot_inv rs _ _ _ Hi2) as (m' & Htake & Hi' & Hs').
  { simpl. rewrite Hlen, length_take, Nat.min_l by lia. exact (si_size _ _ _ _ Hi k first Hk). }
  { simpl. rewrite length_take. lia. }
  exists m'. split_and!.
  - unfold mprot_roll_back. rewrite (proj2 (at_index_Ok _ _ _) Hk). cbn [mbind result_bind]. rewrite (proj2 (Nat.eqb_neq _ _) Hl).
    rewrite Hro. cbn [mbind result_bind]. rewrite length_take, length_drop, Nat.min_l in Hrun by done. rewrite Hrun. cbn [mbind result_bind].
    change (m_snap (put_pages mem m1)) with (m_snap m). fold m2. by rewrite Htake.
  - cbn [spec_op]. rewrite Ha. rewrite <- (back_to_pages a m k first image mem Hi Hk Ha Hmem'). rewrite (take_S_r _ _ _ Ha).
    eapply snap_inv_images; [|exact Hi']. simpl. apply Forall2_app; [by apply Forall2_same_length_lookup_2; [done|]; intros j x y Hx Hy; simplify_eq|].
    constructor; [|constructor]. intros p Hp. rewrite Hmem'. by eapply si_image.
  - rewrite Hs'. unfold m2. simpl. by rewrite Hlen.
Qed.

(** The limits of the snapshotter: every snapshot may need a copy of every page. *)
Definition capacity (depth : nat) (a : @images page) (m : machine page) : Prop :=
  length (im_taken a) ≤ depth ∧ depth ≤ maxSnapShots (m_snap m) ∧ depth * region_size rs ≤ maxBackingPages (m_snap m) ∧
  ∀ n, n ≤ maxBackingPages (m_snap m) → pt_fits n.

Lemma capacity_step depth a m m' a' :
  capacity depth a m → length (im_taken a') ≤ depth →
  maxBackingPages (m_snap m') = maxBackingPages (m_snap m) → maxSnapShots (m_snap m') = maxSnapShots (m_snap m) → capacity depth a' m'.
Proof. unfold capacity. intros (? & ? & ? & ?) ? -> ->. done. Qed.

(** The invariant within the limits implements the specification. *)
Definition mprot_rep (depth : nat) (a : @images page) (m : machine page) : Prop := snap_inv rs True a m ∧ capacity depth a m.

Lemma mprot_laws depth : SnapshotLaws (H := mprot_system) (in_regions rs) depth (mprot_rep depth).
Proof.
  split; intros a m.
  - intros [Hi _]. apply Hi.
  - intros p c [Hi Hcap] Hv. pose proof Hcap as (Hd & Hs & Hb & Hfit). pose proof (si_length _ _ _ _ Hi) as Hl.
    destruct (write_page_inv rs a m p c Hi Hv) as (m' & Hrun & Hi' & _ & H1 & H2); [nia|]. exists m'.
    split; [done|]. split; [done|by eapply capacity_step].
  - intros [Hi Hcap] Hv. pose proof Hcap as (Hd & Hs & Hb & Hfit). pose proof (si_length _ _ _ _ Hi) as Hl. simpl in Hv.
    destruct (take_snapshot_inv rs True a m Hi) as (m' & Hrun & Hi' & Hm'); [by eapply copies_bound|lia|]. exists m'.
    split; [simpl; by rewrite Hrun, Hl|]. split; [done|]. eapply capacity_step; [done| |by rewrite Hm'..]. simpl. rewrite length_app. simpl. lia.
  - intros k [Hi Hcap] Hv. pose proof Hcap as (Hd & Hs & Hb & Hfit). pose proof (si_length _ _ _ _ Hi) as Hl. simpl in Hv.
    destruct (lookup_lt_is_Some_2 _ _ Hv) as [image Ha]. rewrite <- Hl in Hv. destruct (lookup_lt_is_Some_2 _ _ Hv) as [first Hk].
    assert (length (im_taken (spec_op (in_regions rs) (RollBack k) a)) ≤ depth) as Hd' by (simpl; rewrite Ha; simpl; rewrite length_take; lia).
    destruct (decide (length (snapShots (m_snap m)) = S k)) as [Hk1|Hk1].
    + destruct (roll_back_last a m k first image Hi Hk Ha Hk1) as (mem & Hrun & Hi'). exists (put_pages mem m).
      split; [done|]. split; [done|by eapply capacity_step].
    + destruct (roll_back_earlier a m k first image Hi Hk Ha Hk1 Hfit) as (m' & Hrun & Hi' & Hm'). exists m'.
      split; [done|]. split; [done|eapply capacity_step; [done|done|by rewrite Hm'..]].
Qed.
End refinement.

(** The regions are registered before the first snapshot. *)
Definition add_regions {page} (rs : list (N * nat)) (m : machine page) : result (machine page) :=
  foldM (λ '(addr, n), mprot_add_to_snapshot addr n) rs m.

Lemma add_regions_spec {page} rs (m : machine page) :
  length (regionsToSnapShot (m_snap m)) + length rs ≤ maxRegions (m_snap m) →
  add_regions rs m = Ok (put_snap (put_regions (regionsToSnapShot (m_snap m) ++ rs) (m_snap m)) m).
Proof.
  unfold add_regions. revert m. induction rs as [|[addr n] rs IH]; intros m Hm.
  { rewrite app_nil_r. by destruct m as [? ? []]. }
  simpl in Hm. assert (mprot_add_to_snapshot addr n m = Ok (put_snap (put_regions (regionsToSnapShot (m_snap m) ++ [(addr, n)]) (m_snap m)) m)) as E
    by (unfold mprot_add_to_snapshot; by rewrite (proj2 (Nat.eqb_neq _ _)) by lia).
  cbn [foldM]. rewrite E. cbn [mbind result_bind].
  rewrite IH by (simpl; rewrite length_app; simpl; lia). simpl. unfold put_regions, put_snap. simpl. by rewrite <- app_assoc.
Qed.

(** The table of [mprot_roll_back]. *)
Definition duplicate_table : HashTable (option bool) := new_HashTable None 1024.

#[export] Instance mprot_snapshots {page} : SnapshotSystem (machine page) page :=
  mprot_system (H := HashTable_PtrTable bool 4) duplicate_table.

(** The machine on which the snapshotter has been set up, with the regions registered. *)
Definition set_up {page} (mem : gmap N page) (rs : list (N * nat)) (backing_pages snapshots regions : nat) : machine page :=
  mkMachine mem ∅ (put_regions rs (new_mprot_snapshotter backing_pages snapshots regions)).

Definition mprot_images {page} (rs : list (N * nat)) (depth : nat) : @images page → machine page → Prop :=
  mprot_rep (H := HashTable_PtrTable bool 4) rs depth.

Lemma set_up_inv {page} rs (mem : gmap N page) backing_pages snapshots regions depth :
  (∀ p, in_regions rs p → is_Some (mem !! p)) →
  depth ≤ snapshots → depth * region_size rs ≤ backing_pages → (N.of_nat backing_pages ≤ 2 ^ 30)%N →
  mprot_images rs depth (mkImages mem []) (set_up mem rs backing_pages snapshots regions).
Proof.
  intros Hmap Hs Hb Hmax. split.
  - split; simpl; try done; try lia; set_solver.
  - unfold capacity. simpl. split_and!; [lia|done|done|]. intros n Hn. lia.
Qed.

Lemma duplicate_table_empty : pt_repr (PtrTable := HashTable_PtrTable bool 4) duplicate_table ∅.
Proof. simpl. rewrite fmap_empty. exact (new_HashTable_repr (None : option bool) 4 10 ltac:(lia)). Qed.

Lemma mprot_snapshots_laws {page} rs depth :
  ¬ in_regions rs 0%N → SnapshotLaws (page := page) (in_regions rs) depth (mprot_images rs depth).
Proof. intros Hnull. by apply mprot_laws; [|apply duplicate_table_empty]. Qed.

(** C10. Snapshots are faithful: whatever sequence of writes, snapshots and rollbacks is
    run, the memory is at the end what it is in the specification, where a snapshot is an
    image of the whole memory and rolling back to one gives every page of the registered
    regions the contents it has in the image, leaves the other pages alone and forgets the
    later images. The run succeeds, however long it is, if the pages that are written are
    mapped, the snapshots that are rolled back to exist, at most [depth] snapshots exist at
    a time, and there are [depth] snapshot records and [depth] backing pages for each page
    of the regions: a page is copied at most once per snapshot. *)
Theorem snapshots_refine_images {page} rs (mem : gmap N page) ops depth backing_pages snapshots regions :
  ¬ in_regions rs 0%N → (∀ p, in_regions rs p → is_Some (mem !! p)) →
  ops_valid (in_regions rs) depth ops (mkImages mem []) →
  length rs ≤ regions → depth ≤ snapshots → depth * region_size rs ≤ backing_pages → (N.of_nat backing_pages ≤ 2 ^ 30)%N →
  ∃ m, (m ← add_regions rs (mkMachine mem ∅ (new_mprot_snapshotter backing_pages snapshots regions));
        run_ops ops m) = Ok m ∧
    m_pages m = im_pages (spec_run (in_regions rs) ops (mkImages mem [])).
Proof.
  intros Hnull Hmap Hv Hr Hs Hb Hmax. rewrite add_regions_spec by (simpl; lia). cbn [mbind result_bind].
  pose proof (set_up_inv rs mem backing_pages snapshots regions depth Hmap Hs Hb Hmax) as Hrep.
  pose proof (mprot_snapshots_laws (page := page) rs depth Hnull) as Hlaws.
  destruct (run_ops_refine ops _ _ Hrep Hv) as (m & Hrun & Hm).
  exists m. split; [exact Hrun|]. by apply Hm.
Qed.

(** Two pages in a region and one outside it. *)
Definition sample_memory : gmap N N := {[ 16%N := 1%N; 17%N := 2%N; 18%N := 3%N ]}.
Definition sample_ops : list (@snap_op N) :=
  [Take; Write 16 7%N; Take; Write 16 9%N; Write 17 8%N; Write 18 5%N; RollBack 0; Write 17 6%N].

Lemma snapshots_refine_images_witness :
  ∃ m, (m ← add_regions [(16%N, 2)] (mkMachine sample_memory ∅ (new_mprot_snapshotter 10000 1024 1024));
        run_ops sample_ops m) = Ok m ∧
    m_pages m = {[ 16%N := 1%N; 17%N := 6%N; 18%N := 5%N ]}.
Proof.
  destruct (snapshots_refine_images [(16%N, 2)] sample_memory sample_ops 2 10000 1024 1024) as (m & Hrun & Hm).
  - apply (bool_decide_unpack _). vm_compute. exact Logic.I.
  - intros p Hp. unfold in_regions in Hp. simpl in Hp. apply elem_of_cons in Hp as [->|Hp]; [by eexists|].
    apply list_elem_of_singleton in Hp as ->. by eexists.
  - repeat split; try (by eexists); vm_compute; repeat constructor.
  - apply (bool_decide_unpack _). vm_compute. exact Logic.I.
  - apply (bool_decide_unpack _). vm_compute. exact Logic.I.
  - apply (bool_decide_unpack _). vm_compute. exact Logic.I.
  - apply (bool_decide_unpack _). vm_compute. exact Logic.I.
  - exists m. split; [exact Hrun|]. rewrite Hm. vm_compute. reflexivity.
Defined.
