(* ===== verification/ForkSnapshot.v ===== *)
(** * Snapshots of memory by processes (snapshot.cc, without USE_MPROTECT_SNAPSHOT)

    The other implementation of snapshot.h: a snapshot is a process that waits. To take one
    the process forks and the child goes on; to roll back, processes exit until the one that
    holds the snapshot is reached, which forks again. A region of memory, with the heap and
    the stack of the checker, is shared by all the processes and is not rolled back. *)

From S2P Require Import Prelude SnapshotSpec.

Definition SHARED_MEMORY_DEFAULT : N := 100 * 2 ^ 20.
Definition STACK_SIZE_DEFAULT : N := 20 * 2 ^ 20.

(** ** State *)

(** The unsigned value of -1. *)
Definition NO_ROLLBACK : N := 2 ^ 32 - 1.

(** The record at the start of the shared memory. *)
Record fork_snapshotter := mkForkSnapshotter {
  mSharedMemoryBase : N;
  mStackBase : N;
  mStackSize : N;
  mIDToRollback : N;
  currSnapShotID : N
}.
Definition put_mIDToRollback (v : N) (x : fork_snapshotter) : fork_snapshotter :=
  mkForkSnapshotter (mSharedMemoryBase x) (mStackBase x) (mStackSize x) v (currSnapShotID x).
Definition put_currSnapShotID (v : N) (x : fork_snapshotter) : fork_snapshotter :=
  mkForkSnapshotter (mSharedMemoryBase x) (mStackBase x) (mStackSize x) (mIDToRollback x) v.

(** [createSharedMemory], given the address of the mapping and the size of the record. *)
Definition createSharedMemory (memMapBase sizeof_fork_snap : N) : fork_snapshotter :=
  mkForkSnapshotter (memMapBase + sizeof_fork_snap) (memMapBase + SHARED_MEMORY_DEFAULT) STACK_SIZE_DEFAULT NO_ROLLBACK 0.

Section processes.
Context {page : Type}.

(** A process: its own pages, and its variable [snapshotid]. *)
Record process := mkProcess { pr_pages : gmap N page; pr_snapshotid : N }.

(** The process that runs, its ancestors, which wait for it, nearest first, and the shared
    pages. [fk_limit] is the number of processes that may wait. *)
Record fork_system := mkForkSystem {
  fk_running : process;
  fk_waiting : list process;
  fk_shared : gmap N page;
  fork_snap : fork_snapshotter;
  fk_limit : nat
}.

(** ** Operations *)

(** [fork] fails when there are too many processes, and then [waitpid] fails too. *)
Definition fork_child (parent : process) (waiting : list process) (x : fork_system) : result fork_system :=
  let snap := put_currSnapShotID (wrap32 (pr_snapshotid parent + 1)) (fork_snap x) in
  if bool_decide (length waiting < fk_limit x) then Ok (mkForkSystem parent (parent :: waiting) (fk_shared x) snap (fk_limit x))
  else Err Exited.

(** [fork_take_snapshot]: the process goes to the loop of [fork_snapshot_init], where it gets
    its number and forks; the child returns from the call. *)
Definition fork_take_snapshot (x : fork_system) : result (fork_system * nat) :=
  let parent := mkProcess (pr_pages (fk_running x)) (currSnapShotID (fork_snap x)) in
  x ← fork_child parent (fk_waiting x) x;
  Ok (x, N.to_nat (pr_snapshotid (fk_running x))).

(** The processes that see their child exit: those whose number is not asked for exit too. *)
Fixpoint exit_until (id : N) (waiting : list process) : option (process * list process) :=
  match waiting with
  | [] => None
  | parent :: waiting => if pr_snapshotid parent =? id then Some (parent, waiting) else exit_until id waiting
  end%N.

(** [fork_roll_back]; when no process has the number, all of them exit. *)
Definition fork_roll_back (theID : nat) (x : fork_system) : result fork_system :=
  let snap := put_mIDToRollback (N.of_nat theID) (fork_snap x) in
  match exit_until (mIDToRollback snap) (fk_waiting x) with
  | None => Err Exited
  | Some (parent, waiting) =>
      x ← fork_child parent waiting (mkForkSystem (fk_running x) (fk_waiting x) (fk_shared x) snap (fk_limit x));
      Ok (mkForkSystem (fk_running x) (fk_waiting x) (fk_shared x) (put_mIDToRollback NO_ROLLBACK (fork_snap x)) (fk_limit x))
  end.

(** The memory the process sees, and a write to it: shared pages are mapped in every process. *)
Definition fork_pages (x : fork_system) : gmap N page := fk_shared x ∪ pr_pages (fk_running x).
Definition fork_write (p : N) (c : page) (x : fork_system) : result fork_system :=
  if bool_decide (is_Some (fk_shared x !! p)) then
    Ok (mkForkSystem (fk_running x) (fk_waiting x) (<[p := c]> (fk_shared x)) (fork_snap x) (fk_limit x))
  else if bool_decide (is_Some (pr_pages (fk_running x) !! p)) then
    let pr := fk_running x in
    Ok (mkForkSystem (mkProcess (<[p := c]> (pr_pages pr)) (pr_snapshotid pr)) (fk_waiting x) (fk_shared x) (fork_snap x) (fk_limit x))
  else Err Exited.

(** [fork_snapshot_init] up to the entry of the program. *)
Definition fork_snapshot_init (memMapBase sizeof_fork_snap : N) (mem shared : gmap N page) (limit : nat) : fork_system :=
  mkForkSystem (mkProcess mem 0) [] shared (createSharedMemory memMapBase sizeof_fork_snap) limit.
End processes.
Arguments process : clear implicits.
Arguments fork_system : clear implicits.

#[export] Instance fork_snapshots {page} : SnapshotSystem (fork_system page) page :=
  Build_SnapshotSystem (fork_system page) page fork_pages fork_write fork_take_snapshot fork_roll_back.

(** ** The processes implement the images *)

Section refinement.
Context {page : Type} (sh : gset N) (depth : nat).
Implicit Types (x : fork_system page) (a : @images page).

(** Everything but the shared pages is rolled back. *)
Definition private (p : N) : Prop := p ∉ sh.

(** Process [k] of those that wait, the first process being process 0. *)
Definition waiting_at x (k : nat) : option (process page) := reverse (fk_waiting x) !! k.

Record fork_rep a x : Prop := {
  fr_pages : fork_pages x = im_pages a;
  fr_shared : dom (fk_shared x) = sh;
  fr_length : length (fk_waiting x) = length (im_taken a);
  fr_next : currSnapShotID (fork_snap x) = N.of_nat (length (im_taken a));
  fr_ids : ∀ k pr, waiting_at x k = Some pr → pr_snapshotid pr = N.of_nat k;
  fr_images : ∀ k pr image, waiting_at x k = Some pr → im_taken a !! k = Some image →
    ∀ p, private p → pr_pages pr !! p = image !! p;
  fr_depth : length (im_taken a) ≤ depth;
  fr_limit : depth ≤ fk_limit x ∧ (N.of_nat depth < 2 ^ 32)%N
}.

#[export] Instance private_dec p : Decision (private p).
Proof. unfold private. apply _. Defined.

Lemma exit_until_spec (waiting : list (process page)) : ∀ k pr,
  (∀ j q, reverse waiting !! j = Some q → pr_snapshotid q = N.of_nat j) → reverse waiting !! k = Some pr →
  ∃ rest, exit_until (N.of_nat k) waiting = Some (pr, rest) ∧ reverse rest = take k (reverse waiting).
Proof.
  induction waiting as [|q waiting IH]; intros k pr Hids Hk; [done|]. rewrite reverse_cons in Hids, Hk |- *. simpl.
  assert (pr_snapshotid q = N.of_nat (length waiting)) as Hq
    by (apply Hids; rewrite <- (length_reverse waiting); by apply list_lookup_middle).
  rewrite Hq. destruct (decide (k = length waiting)) as [->|Hne].
  - rewrite N.eqb_refl. rewrite <- (length_reverse waiting), list_lookup_middle in Hk by done. simplify_eq. exists waiting.
    split; [done|]. by rewrite <- (length_reverse waiting), take_app_length.
  - rewrite (proj2 (N.eqb_neq _ _)) by lia. pose proof (lookup_lt_Some _ _ _ Hk) as Hlt.
    rewrite length_app, length_reverse in Hlt. simpl in Hlt. rewrite lookup_app_l in Hk by (rewrite length_reverse; lia).
    rewrite take_app_le by (rewrite length_reverse; lia). apply IH; [|done].
    intros j r Hj. apply Hids. by apply lookup_app_l_Some.
Qed.

(** The child of a process whose number is [n] continues the snapshot of the process. *)
Lemma fork_child_rep a x parent waiting image taken :
  pr_snapshotid parent = N.of_nat (length taken) → length waiting = length taken → length taken < depth →
  (∀ k pr, reverse waiting !! k = Some pr → pr_snapshotid pr = N.of_nat k) →
  (∀ k pr i, reverse waiting !! k = Some pr → taken !! k = Some i → ∀ p, private p → pr_pages pr !! p = i !! p) →
  (∀ p, private p → pr_pages parent !! p = image !! p) → fork_rep a x →
  ∃ x', fork_child parent waiting x = Ok x' ∧ fk_running x' = parent ∧ fk_shared x' = fk_shared x ∧
    fork_rep (mkImages (fk_shared x ∪ pr_pages parent) (taken ++ [image])) x'.
Proof.
  intros Hn Hl Hd Hids Him Hp Hx. destruct (fr_limit _ _ Hx) as [Hlim Hdep].
  unfold fork_child. rewrite bool_decide_eq_true_2 by lia. eexists. split_and!; [done..|].
  split; try apply Hx; simpl; try done.
  - rewrite length_app. simpl. lia.
  - rewrite Hn, wrap32_small by lia. rewrite length_app. simpl. lia.
  - intros k pr. unfold waiting_at. simpl. rewrite reverse_cons. intros [Hk|(Hk & Hk')]%lookup_app_Some; [by apply Hids|].
    apply list_lookup_singleton_Some in Hk' as [Hk' <-]. rewrite length_reverse in *. rewrite Hn. f_equal. lia.
  - intros k pr i. unfold waiting_at. simpl. rewrite reverse_cons. intros [Hk|(Hk & Hk')]%lookup_app_Some Hi.
    + pose proof (lookup_lt_Some _ _ _ Hk) as Hlt. rewrite length_reverse in Hlt. rewrite lookup_app_l in Hi by lia. by eapply Him.
    + apply list_lookup_singleton_Some in Hk' as [Hk' <-]. rewrite length_reverse in *. assert (k = length taken) as -> by lia.
      rewrite list_lookup_middle in Hi by done. by simplify_eq.
  - rewrite length_app. simpl. lia.
Qed.
Lemma private_lookup a x p : fork_rep a x → private p → im_pages a !! p = pr_pages (fk_running x) !! p.
Proof.
  intros Hx Hp. rewrite <- (fr_pages _ _ Hx). unfold fork_pages. apply lookup_union_r, not_elem_of_dom.
  by rewrite (fr_shared _ _ Hx).
Qed.
Lemma shared_lookup a x (pages : gmap N page) p : fork_rep a x → ¬ private p → (fk_shared x ∪ pages) !! p = im_pages a !! p.
Proof.
  intros Hx Hp. assert (p ∈ dom (fk_shared x)) as [c Hc]%elem_of_dom by (rewrite (fr_shared _ _ Hx); by apply dec_stable).
  rewrite <- (fr_pages _ _ Hx). unfold fork_pages. by rewrite !(lookup_union_Some_l _ _ _ _ Hc).
Qed.

Lemma fork_write_rep a x p c :
  fork_rep a x → is_Some (im_pages a !! p) → ∃ x', fork_write p c x = Ok x' ∧ fork_rep (spec_op private (Write p c) a) x'.
Proof.
  intros Hx Hp. pose proof (fr_pages _ _ Hx) as Epages. unfold fork_pages in Epages. unfold fork_write.
  destruct (fk_shared x !! p) as [c0|] eqn:Hs.
  - rewrite bool_decide_eq_true_2 by by eexists. eexists. split; [done|]. split; simpl; try apply Hx.
    + unfold fork_pages. simpl. by rewrite <- Epages, insert_union_l.
    + rewrite dom_insert_lookup_L by by eexists. apply Hx.
  - rewrite bool_decide_eq_false_2 by by intros [? ?]. rewrite <- Epages, lookup_union_r in Hp by done.
    rewrite bool_decide_eq_true_2 by done. eexists. split; [done|]. split; simpl; try apply Hx.
    unfold fork_pages. simpl. by rewrite <- Epages, insert_union_r.
Qed.

Lemma fork_take_rep a x :
  fork_rep a x → length (im_taken a) < depth →
  ∃ x', fork_take_snapshot x = Ok (x', length (im_taken a)) ∧ fork_rep (spec_op private Take a) x'.
Proof.
  intros Hx Hd. destruct (fork_child_rep a x (mkProcess (pr_pages (fk_running x)) (currSnapShotID (fork_snap x))) (fk_waiting x)
    (im_pages a) (im_taken a)) as (x' & Hrun & Hr & Hs & Hx'); try apply Hx; try done.
  { intros p Hp. by rewrite (private_lookup a x p Hx Hp). }
  exists x'. split; [unfold fork_take_snapshot; rewrite Hrun; cbn [mbind result_bind]; rewrite Hr; simpl; by rewrite (fr_next _ _ Hx), Nat2N.id|].
  simpl in Hx'. fold (fork_pages x) in Hx'. by rewrite (fr_pages _ _ Hx) in Hx'.
Qed.

Lemma fork_roll_back_rep a x k :
  fork_rep a x → k < length (im_taken a) →
  ∃ x', fork_roll_back k x = Ok x' ∧ fork_rep (spec_op private (RollBack k) a) x'.
Proof.
  intros Hx Hk. pose proof (fr_depth _ _ Hx) as Hdep. destruct (lookup_lt_is_Some_2 _ _ Hk) as [image Ha].
  destruct (lookup_lt_is_Some_2 (reverse (fk_waiting x)) k) as [pr Hpr]; [by rewrite length_reverse, (fr_length _ _ Hx)|].
  destruct (exit_until_spec (fk_waiting x) k pr (fr_ids _ _ Hx) Hpr) as (rest & Hexit & Hrest).
  assert (length rest = k) as Hl by (rewrite <- length_reverse, Hrest, length_take, length_reverse, (fr_length _ _ Hx); lia).
  set (x0 := mkForkSystem (fk_running x) (fk_waiting x) (fk_shared x) (put_mIDToRollback (N.of_nat k) (fork_snap x)) (fk_limit x)).
  assert (fork_rep a x0) as Hx0 by (split; apply Hx).
  assert (length (take k (im_taken a)) = k) as Hlk by (rewrite length_take; lia).
  destruct (fork_child_rep a x0 pr rest image (take k (im_taken a))) as (x' & Hrun & Hr & Hs & Hx'); rewrite ?Hlk; [..|done|].
  { by apply (fr_ids _ _ Hx). }
  { done. }
  { lia. }
  { intros j q. rewrite Hrest. intros [Hj _]%lookup_take_Some. by apply (fr_ids _ _ Hx). }
  { intros j q i. rewrite Hrest. intros [Hj _]%lookup_take_Some [Hi _]%lookup_take_Some. by apply (fr_images _ _ Hx j). }
  { by apply (fr_images _ _ Hx k). }
  eexists. split.
  - unfold fork_roll_back. simpl mIDToRollback. rewrite Hexit. fold x0. rewrite Hrun. done.
  - simpl. rewrite Ha. replace (back_to _ _ _) with (fk_shared x0 ∪ pr_pages pr); [rewrite (take_S_r _ _ _ Ha); split; apply Hx'|].
    apply map_eq. intros p. rewrite lookup_back_to. case_decide as Hp; [|by apply (shared_lookup a x0)].
    rewrite lookup_union_r by (apply not_elem_of_dom; by rewrite (fr_shared _ _ Hx0)). by apply (fr_images _ _ Hx k).
Qed.

#[export] Instance fork_snapshots_laws : SnapshotLaws private depth fork_rep.
Proof. split; [apply fr_pages|apply fork_write_rep|apply fork_take_rep|apply fork_roll_back_rep]. Qed.

Lemma fork_init_rep base size (mem shared : gmap N page) limit :
  dom shared = sh → depth ≤ limit → (N.of_nat depth < 2 ^ 32)%N →
  fork_rep (mkImages (shared ∪ mem) []) (fork_snapshot_init base size mem shared limit).
Proof. intros Hs Hl Hd. split; simpl; try done; lia. Qed.
End refinement.

(** The snapshots by processes are faithful too: whatever sequence of writes, snapshots
    and rollbacks is run after [fork_snapshot_init], it succeeds and the memory that the
    running process sees is at the end what the specification says, where rolling back gives
    every page but the shared ones the contents it has in the image. The pages that are
    written are mapped, the snapshots that are rolled back to exist, and at most [depth]
    processes have to wait. *)
Theorem fork_snapshots_refine_images {page} (mem shared : gmap N page) base size ops depth limit :
  ops_valid (private (dom shared)) depth ops (mkImages (shared ∪ mem) []) → depth ≤ limit → (N.of_nat depth < 2 ^ 32)%N →
  ∃ x, run_ops ops (fork_snapshot_init base size mem shared limit) = Ok x ∧
    fork_pages x = im_pages (spec_run (private (dom shared)) ops (mkImages (shared ∪ mem) [])).
Proof.
  intros Hv Hl Hd. pose proof (fork_init_rep (dom shared) depth base size mem shared limit eq_refl Hl Hd) as Hx.
  destruct (run_ops_refine ops _ _ Hx Hv) as (x & Hrun & Hx'). exists x. split; [done|]. apply Hx'.
Qed.

(** Page 20 is shared. *)
Lemma fork_snapshots_refine_images_witness :
  ∃ x, run_ops [Take; Write 16 7; Take; Write 16 9; Write 20 4; Write 17 8; RollBack 0; Write 17 6]%N
      (fork_snapshot_init 4096 200 {[ 16%N := 1%N; 17%N := 2%N ]} {[ 20%N := 3%N ]} 2) = Ok x ∧
    fork_pages x = {[ 16%N := 1%N; 17%N := 6%N; 20%N := 4%N ]}.
Proof.
  destruct (fork_snapshots_refine_images {[ 16%N := 1%N; 17%N := 2%N ]} {[ 20%N := 3%N ]} 4096 200
    [Take; Write 16 7; Take; Write 16 9; Write 20 4; Write 17 8; RollBack 0; Write 17 6]%N 2 2) as (x & Hrun & Hx).
  - repeat split; try (by eexists); vm_compute; repeat constructor.
  - done.
  - done.
  - exists x. split; [exact Hrun|]. rewrite Hx. vm_compute. reflexivity.
Defined.
