(* ===== verification/Memory.v ===== *)
(** * Allocation for user programs (mymemory.cc)

    [malloc], [calloc] and [free] of the user program are those of the checker. Before the
    heap of the user program exists, memory comes from a static array that is never
    freed; while the checker prints, it comes from the heap of the checker. The heaps
    themselves (malloc.c and the C library) are not modelled. *)

From S2P Require Import Prelude.

Definition BOOTSTRAPBYTES : N := 131072 * 16.

(** The fill level of the array, whether the user heap exists, and [switch_alloc]. *)
Record alloc_state := mkAlloc { al_offset : N; al_user_space : bool; al_switch : bool }.

(** Rounding a [size_t] up to a multiple of eight. *)
Definition align8 (sz : N) : N := N.ldiff (wrap64 (sz + 7)) 7.

(** The result is the offset of the block in the array. *)
Definition HandleEarlyAllocationRequest (sz : N) (st : alloc_state) : result (alloc_state * N) :=
  let sz := align8 sz in
  if (wrap64 (BOOTSTRAPBYTES + 2 ^ 64 - al_offset st) <? sz)%N then Err Exited
  else Ok (mkAlloc (al_offset st + sz) (al_user_space st) (al_switch st), al_offset st).

(** Where a block comes from, and the call that frees it. *)
Inductive source := bootstrap (off : N) | model_heap | user_heap.
#[global] Instance source_eq_dec : EqDecision source.
Proof. solve_decision. Defined.

(** [user_malloc]; [found] says whether the heap has a block. *)
Definition user_malloc (found : bool) : result source := _ ← ASSERT found; Ok user_heap.

(** [in_user] says that there is no model or a user thread runs. *)
Definition malloc (size : N) (in_user found : bool) (st : alloc_state) : result (alloc_state * source) :=
  if al_user_space st then
    if al_switch st then Ok (st, model_heap)
    else _ ← ASSERT in_user; b ← user_malloc found; Ok (st, b)
  else '(st, off) ← HandleEarlyAllocationRequest size st; Ok (st, bootstrap off).
Definition calloc (num size : N) (found : bool) (st : alloc_state) : result (alloc_state * source) :=
  if al_user_space st then _ ← ASSERT found; Ok (st, user_heap)
  else '(st, off) ← HandleEarlyAllocationRequest (wrap64 (size * num)) st; Ok (st, bootstrap off).

Definition DontFree (b : source) : bool :=
  match b with bootstrap off => (off <? BOOTSTRAPBYTES)%N | _ => false end.
(** The heap that [free] gives a block to, if any. *)
Definition free (b : source) (st : alloc_state) : option source :=
  if DontFree b then None else if al_switch st then Some model_heap else Some user_heap.

(** ** Early allocations *)

(** A sequence of requests, with the blocks they get. *)
Fixpoint early_blocks (sizes : list N) (st : alloc_state) : result (list (N * N)) :=
  match sizes with
  | [] => Ok []
  | sz :: sizes =>
      '(st, off) ← HandleEarlyAllocationRequest sz st;
      rest ← early_blocks sizes st;
      Ok ((off, sz) :: rest)
  end.

Lemma align8_spec sz : (sz ≤ 2 ^ 64 - 8)%N → (sz ≤ align8 sz ∧ align8 sz < sz + 8 ∧ align8 sz mod 8 = 0)%N.
Proof.
  intros Hsz. unfold align8, wrap64. rewrite (N.mod_small (sz + 7)) by lia.
  assert (N.ldiff (sz + 7) 7 = 8 * ((sz + 7) / 8))%N as ->.
  { change 7%N with (N.ones 3) at 2. rewrite N.ldiff_ones_r, N.shiftl_mul_pow2, N.shiftr_div_pow2. change (2 ^ 3)%N with 8%N. lia. }
  pose proof (N.div_mod (sz + 7) 8 ltac:(lia)). pose proof (N.mod_lt (sz + 7) 8 ltac:(lia)).
  set (q := ((sz + 7) / 8)%N) in *. set (r := ((sz + 7) mod 8)%N) in *. clearbody q r.
  split_and!; [lia|lia|]. rewrite N.mul_comm. apply N.Div0.mod_mul.
Qed.

Lemma early_request sz st :
  (sz ≤ 2 ^ 64 - 8)%N → (al_offset st ≤ BOOTSTRAPBYTES)%N →
  HandleEarlyAllocationRequest sz st =
  if (al_offset st + align8 sz <=? BOOTSTRAPBYTES)%N
  then Ok (mkAlloc (al_offset st + align8 sz) (al_user_space st) (al_switch st), al_offset st) else Err Exited.
Proof.
  intros Hsz Ho. unfold HandleEarlyAllocationRequest, wrap64.
  replace (BOOTSTRAPBYTES + 2 ^ 64 - al_offset st)%N with (BOOTSTRAPBYTES - al_offset st + 1 * 2 ^ 64)%N by lia.
  rewrite N.Div0.mod_add, N.mod_small by (unfold BOOTSTRAPBYTES in *; lia).
  destruct (N.ltb_spec (BOOTSTRAPBYTES - al_offset st) (align8 sz)), (N.leb_spec (al_offset st + align8 sz) BOOTSTRAPBYTES); done || lia.
Qed.

(** The blocks of a successful sequence lie one after the other, aligned and inside the
    array, and [free] gives none of them to a heap. *)
Definition blocks_from (start : N) (l : list (N * N)) : Prop :=
  Forall (λ b : N * N, start ≤ b.1 ∧ b.1 mod 8 = 0 ∧ b.1 + b.2 ≤ BOOTSTRAPBYTES)%N l ∧
  ForallOrdPairs (λ b b' : N * N, b.1 + b.2 ≤ b'.1)%N l.

Lemma early_blocks_spec sizes : ∀ st,
  Forall (λ sz, sz ≤ 2 ^ 64 - 8)%N sizes → (al_offset st ≤ BOOTSTRAPBYTES)%N → (al_offset st mod 8 = 0)%N →
  match early_blocks sizes st with
  | Ok l => l.*2 = sizes ∧ blocks_from (al_offset st) l
  | Err f => f = Exited ∧ (BOOTSTRAPBYTES < al_offset st + foldr N.add 0 (map align8 sizes))%N
  end.
Proof.
  induction sizes as [|sz sizes IH]; intros st Hs Ho Hm; [simpl; split; [done|]; split; constructor|].
  apply Forall_cons in Hs as [Hsz Hs]. destruct (align8_spec sz Hsz) as (H1 & H2 & H3). cbn [early_blocks]. rewrite early_request by done.
  destruct (N.leb_spec (al_offset st + align8 sz) BOOTSTRAPBYTES) as [Hfit|Hfull]; cbn [mbind result_bind].
  2: { split; [done|]. simpl. lia. }
  specialize (IH (mkAlloc (al_offset st + align8 sz) (al_user_space st) (al_switch st)) Hs Hfit).
  destruct (early_blocks sizes _) as [l|f]; cbn [mbind result_bind]; simpl in IH.
  - destruct IH as [Hl [Hin Hord]]. { rewrite N.Div0.add_mod, Hm, H3. done. }
    split; [rewrite <- Hl; done|]. split; simpl.
    + constructor; [simpl; lia|]. eapply Forall_impl; [exact Hin|]. simpl. intros b. lia.
    + constructor; [|done]. eapply Forall_impl; [exact Hin|]. simpl. intros b. lia.
  - destruct IH as [-> IH]. { rewrite N.Div0.add_mod, Hm, H3. done. } split; [done|]. simpl. lia.
Qed.

(** Early allocations of up to 2^64 - 8 bytes either exhaust the array, when the program
    exits, or get blocks of the requested sizes that are aligned, inside the array and
    disjoint; freeing one of them does nothing. *)
Theorem early_allocations sizes sw :
  Forall (λ sz, sz ≤ 2 ^ 64 - 8)%N sizes →
  match early_blocks sizes (mkAlloc 0 false sw) with
  | Ok l => l.*2 = sizes ∧ blocks_from 0 l ∧ ∀ off sz st, (off, sz) ∈ l → (0 < sz)%N → free (bootstrap off) st = None
  | Err f => f = Exited ∧ (BOOTSTRAPBYTES < foldr N.add 0 (map align8 sizes))%N
  end.
Proof.
  intros Hs. pose proof (early_blocks_spec sizes (mkAlloc 0 false sw) Hs ltac:(simpl; unfold BOOTSTRAPBYTES; lia) eq_refl) as H.
  destruct (early_blocks _ _) as [l|f]; [|exact H]. destruct H as (H1 & H2 & H3). split_and!; [done|by split|].
  intros off sz st Hin Hpos. eapply Forall_forall in H2; [|exact Hin]. simpl in H2. unfold free, DontFree.
  destruct (N.ltb_spec off BOOTSTRAPBYTES); [done|lia].
Qed.

(** Larger requests wrap around: they succeed with no memory at all. *)
Theorem huge_early_allocation sz st :
  (2 ^ 64 - 8 < sz < 2 ^ 64)%N → HandleEarlyAllocationRequest sz st = Ok (st, al_offset st).
Proof.
  intros Hsz. assert (align8 sz = 0%N) as E.
  { unfold align8, wrap64. replace (sz + 7)%N with (sz + 7 - 2 ^ 64 + 1 * 2 ^ 64)%N by lia. rewrite N.Div0.mod_add, N.mod_small by lia.
    change 7%N with (N.ones 3) at 2. rewrite N.ldiff_ones_r, N.shiftl_mul_pow2, N.shiftr_div_pow2.
    rewrite N.div_small by (change (2 ^ 3)%N with 8%N; lia). done. }
  unfold HandleEarlyAllocationRequest. rewrite E. destruct (N.ltb_spec (wrap64 (BOOTSTRAPBYTES + 2 ^ 64 - al_offset st)) 0) as [H|_]; [lia|].
  rewrite N.add_0_r. by destruct st.
Qed.
