(* ===== verification/MockFS.v ===== *)
(** * The mock file system (mockfs.cc, include/mockfs.h)

    User programs that call [my_open] and its companions see an in-memory file system while
    it is enabled. *)

From stdpp Require Import strings.
From S2P Require Import Prelude.

(** ** Data *)

(** The type bits of [st_mode], the only metadata that are set. *)
Inductive mode := S_IFDIR | S_IFREG | S_IFLNK.
#[global] Instance mode_eq_dec : EqDecision mode.
Proof. solve_decision. Defined.

Record INode := mkINode { in_metadata : mode; in_hardLinks : gset string; in_symlinkTarget : string }.
Definition new_INode (nodeMetadata : mode) : INode := mkINode nodeMetadata ∅ EmptyString.
Definition addHardLink (name : string) (x : INode) : INode :=
  mkINode (in_metadata x) ({[name]} ∪ in_hardLinks x) (in_symlinkTarget x).
Definition removeHardLink (name : string) (x : INode) : INode :=
  mkINode (in_metadata x) (in_hardLinks x ∖ {[name]}) (in_symlinkTarget x).

(** The heap of nodes, the next address of [new], and the members of the class. *)
Record FileSystem := mkFileSystem {
  fs_heap : gmap ptr INode;
  fs_new : ptr;
  fs_nodes : gmap string ptr;
  fs_fileDescriptors : gmap Z ptr;
  fs_nextFd : Z
}.

Inductive errno_t := EEXIST | ENOENT.

(** A node that is linked by name, for a new path. *)
Definition add_node (path : string) (x : INode) (fs : FileSystem) : FileSystem :=
  mkFileSystem (<[fs_new fs := x]> (fs_heap fs)) (Pos.succ (fs_new fs)) (<[path := fs_new fs]> (fs_nodes fs))
    (fs_fileDescriptors fs) (fs_nextFd fs).

Definition root_path : string := String (Ascii.ascii_of_nat 47) EmptyString.
Definition new_FileSystem : FileSystem :=
  add_node root_path (addHardLink root_path (new_INode S_IFDIR)) (mkFileSystem ∅ 1 ∅ ∅ 3).

(** ** Operations: the new state and the value, or [errno] when they return -1 *)

Definition fs_symlink (oldpath newpath : string) (fs : FileSystem) : FileSystem * (Z + errno_t) :=
  match fs_nodes fs !! newpath with
  | Some _ => (fs, inr EEXIST)
  | None => (add_node newpath (mkINode S_IFLNK ∅ oldpath) fs, inl 0%Z)
  end.

Definition fs_stat (path : string) (fs : FileSystem) : result (mode + errno_t) :=
  match fs_nodes fs !! path with
  | None => Ok (inr ENOENT)
  | Some p => x ← deref (fs_heap fs !! p); Ok (inl (in_metadata x))
  end.

Definition O_CREAT : N := 64.
Definition new_descriptor (p : ptr) (fs : FileSystem) : FileSystem * (Z + errno_t) :=
  (mkFileSystem (fs_heap fs) (fs_new fs) (fs_nodes fs) (<[fs_nextFd fs := p]> (fs_fileDescriptors fs)) (fs_nextFd fs + 1), inl (fs_nextFd fs)).
Definition fs_open (path : string) (flags : N) (fs : FileSystem) : FileSystem * (Z + errno_t) :=
  match fs_nodes fs !! path with
  | Some p => new_descriptor p fs
  | None =>
      if bool_decide (N.land flags O_CREAT ≠ 0%N) then
        new_descriptor (fs_new fs) (add_node path (addHardLink path (new_INode S_IFREG)) fs)
      else (fs, inr ENOENT)
  end.

Definition fs_unlink (path : string) (fs : FileSystem) : result (FileSystem * (Z + errno_t)) :=
  match fs_nodes fs !! path with
  | None => Ok (fs, inr ENOENT)
  | Some p =>
      x ← deref (fs_heap fs !! p);
      let x := removeHardLink path x in
      let heap := if bool_decide (in_hardLinks x = ∅) then delete p (fs_heap fs) else <[p := x]> (fs_heap fs) in
      Ok (mkFileSystem heap (fs_new fs) (delete path (fs_nodes fs)) (fs_fileDescriptors fs) (fs_nextFd fs), inl 0%Z)
  end.

(** ** The calls of user programs *)

(** Each call first locks and unlocks a mutex, which gives the checker a chance to switch
    threads, and then runs as a whole. *)
Inductive fs_call :=
  | my_open (path : string) (flags : N)
  | my_symlink (oldpath newpath : string)
  | my_unlink (path : string).

Definition run_call (c : fs_call) (fs : FileSystem) : result (FileSystem * (Z + errno_t)) :=
  match c with
  | my_open path flags => Ok (fs_open path flags fs)
  | my_symlink oldpath newpath => Ok (fs_symlink oldpath newpath fs)
  | my_unlink path => fs_unlink path fs
  end.
(** While the file system is disabled the calls go to the operating system. *)
Definition my_call (mockfs_enabled : bool) (system : fs_call → Z + errno_t) (c : fs_call) (fs : FileSystem)
    : result (FileSystem * (Z + errno_t)) :=
  if mockfs_enabled then run_call c fs else Ok (fs, system c).
(** [my_stat] and [my_lstat] when it is enabled; links are not followed. *)
Definition my_stat (path : string) (fs : FileSystem) : result (mode + errno_t) := fs_stat path fs.

Fixpoint run_calls (cs : list fs_call) (fs : FileSystem) : result (FileSystem * list (Z + errno_t)) :=
  match cs with
  | [] => Ok (fs, [])
  | c :: cs => '(fs, r) ← run_call c fs; '(fs, rs) ← run_calls cs fs; Ok (fs, r :: rs)
  end.

(** ** The specification: names with the type of the file and the target of a link *)

Record files := mkFiles { f_names : gmap string (mode * string); f_next : Z }.
Definition spec_call (c : fs_call) (f : files) : files * (Z + errno_t) :=
  match c with
  | my_open path flags =>
      if bool_decide (path ∈ dom (f_names f)) then (mkFiles (f_names f) (f_next f + 1), inl (f_next f))
      else if bool_decide (N.land flags O_CREAT ≠ 0%N)
      then (mkFiles (<[path := (S_IFREG, EmptyString)]> (f_names f)) (f_next f + 1), inl (f_next f))
      else (f, inr ENOENT)
  | my_symlink oldpath newpath =>
      if bool_decide (newpath ∈ dom (f_names f)) then (f, inr EEXIST)
      else (mkFiles (<[newpath := (S_IFLNK, oldpath)]> (f_names f)) (f_next f), inl 0%Z)
  | my_unlink path =>
      if bool_decide (path ∈ dom (f_names f)) then (mkFiles (delete path (f_names f)) (f_next f), inl 0%Z)
      else (f, inr ENOENT)
  end.
Fixpoint spec_calls (cs : list fs_call) (f : files) : files * list (Z + errno_t) :=
  match cs with
  | [] => (f, [])
  | c :: cs => let '(f, r) := spec_call c f in let '(f, rs) := spec_calls cs f in (f, r :: rs)
  end.

(** The nodes of different names are different, and each knows at most its own name. *)
Record fs_repr (fs : FileSystem) (f : files) : Prop := {
  fr_next : fs_nextFd fs = f_next f;
  fr_fresh : ∀ p x, fs_heap fs !! p = Some x → (p < fs_new fs)%positive;
  fr_names : dom (fs_nodes fs) = dom (f_names f);
  fr_inj : ∀ a b p, fs_nodes fs !! a = Some p → fs_nodes fs !! b = Some p → a = b;
  fr_node : ∀ path p, fs_nodes fs !! path = Some p →
    ∃ x, fs_heap fs !! p = Some x ∧ in_hardLinks x ⊆ {[path]} ∧ f_names f !! path = Some (in_metadata x, in_symlinkTarget x);
  fr_fds : ∀ d p, fs_fileDescriptors fs !! d = Some p → (d < fs_nextFd fs)%Z
}.

Lemma fs_repr_add fs f path x :
  fs_repr fs f → fs_nodes fs !! path = None → in_hardLinks x ⊆ {[path]} →
  fs_repr (add_node path x fs) (mkFiles (<[path := (in_metadata x, in_symlinkTarget x)]> (f_names f)) (f_next f)).
Proof.
  intros [H1 H2 H3 H4 H5 H6] Hp Hx.
  assert (∀ a p, fs_nodes fs !! a = Some p → p ≠ fs_new fs) as Hnew.
  { intros a p Ha. destruct (H5 _ _ Ha) as (y & Hy & _). apply H2 in Hy. lia. }
  split; simpl; try done.
  - intros p y. destruct (decide (p = fs_new fs)) as [->|]; [rewrite lookup_insert_eq; lia|].
    rewrite lookup_insert_ne by done. intros Hy%H2. lia.
  - rewrite !dom_insert_L. by rewrite H3.
  - intros a b p. rewrite !lookup_insert_Some. intros [[<- <-]|[Ha1 Ha2]] [[<- Hb]|[Hb1 Hb2]]; try done; [by apply Hnew in Hb2|subst p; by apply Hnew in Ha2|by eapply H4].
  - intros a p. rewrite lookup_insert_Some. intros [[<- <-]|[Ha1 Ha2]].
    + exists x. by rewrite !lookup_insert_eq.
    + destruct (H5 _ _ Ha2) as (y & Hy & Hl & Hf). exists y. rewrite !lookup_insert_ne by (done || by intros <-; eapply Hnew). done.
Qed.

Lemma fs_repr_open fs f p :
  fs_repr fs f → ∃ fs', new_descriptor p fs = (fs', inl (f_next f)) ∧ fs_repr fs' (mkFiles (f_names f) (f_next f + 1)).
Proof.
  intros [H1 H2 H3 H4 H5 H6]. eexists. split; [unfold new_descriptor; by rewrite H1|]. split; simpl; try done.
  intros d q. rewrite lookup_insert_Some. intros [[<- _]|[_ Hd%H6]]; lia.
Qed.

Lemma fs_repr_None fs f path : fs_repr fs f → fs_nodes fs !! path = None ↔ path ∉ dom (f_names f).
Proof. intros [_ _ <- _ _ _]. symmetry. apply not_elem_of_dom. Qed.

Lemma fs_repr_unlink fs f path p :
  fs_repr fs f → fs_nodes fs !! path = Some p →
  ∃ fs', fs_unlink path fs = Ok (fs', inl 0%Z) ∧ fs_repr fs' (mkFiles (delete path (f_names f)) (f_next f)).
Proof.
  intros [H1 H2 H3 H4 H5 H6] Hp. unfold fs_unlink. rewrite Hp. destruct (H5 _ _ Hp) as (x & Hx & Hl & Hf). rewrite Hx. simpl.
  rewrite bool_decide_eq_true_2 by set_solver. eexists. split; [done|]. split; simpl; try done.
  - intros q y Hy. apply lookup_delete_Some in Hy as [_ Hy]. by eapply H2.
  - by rewrite !dom_delete_L, H3.
  - intros a b q [_ Ha]%lookup_delete_Some [_ Hb]%lookup_delete_Some. by eapply H4.
  - intros a q [Hne Ha]%lookup_delete_Some. destruct (H5 _ _ Ha) as (y & Hy & Hl' & Hf'). exists y.
    rewrite lookup_delete_ne; [by rewrite lookup_delete_ne|]. intros <-. apply Hne. by eapply H4.
Qed.

(** A call returns what it returns in the specification. *)
Lemma run_call_refines c fs f :
  fs_repr fs f → ∃ fs', run_call c fs = Ok (fs', (spec_call c f).2) ∧ fs_repr fs' (spec_call c f).1.
Proof.
  intros Hr. destruct c as [path flags|oldpath newpath|path]; simpl.
  - unfold fs_open. destruct (fs_nodes fs !! path) as [p|] eqn:E.
    + rewrite bool_decide_eq_true_2 by (rewrite <- (fr_names _ _ Hr); by eapply elem_of_dom_2).
      destruct (fs_repr_open fs f p Hr) as (fs' & -> & Hr'). by exists fs'.
    + rewrite (bool_decide_eq_false_2 (path ∈ _)) by (by apply (fs_repr_None fs f)). case_bool_decide; [|by exists fs].
      pose proof (fs_repr_add fs f path (addHardLink path (new_INode S_IFREG)) Hr E ltac:(simpl; set_solver)) as Hadd.
      destruct (fs_repr_open _ _ (fs_new fs) Hadd) as (fs' & -> & Hr'). by exists fs'.
  - unfold fs_symlink. destruct (fs_nodes fs !! newpath) as [p|] eqn:E.
    + rewrite bool_decide_eq_true_2 by (rewrite <- (fr_names _ _ Hr); by eapply elem_of_dom_2). by exists fs.
    + rewrite bool_decide_eq_false_2 by (by apply (fs_repr_None fs f)). eexists. split; [done|].
      exact (fs_repr_add fs f newpath (mkINode S_IFLNK ∅ oldpath) Hr E ltac:(simpl; set_solver)).
  - destruct (fs_nodes fs !! path) as [p|] eqn:E.
    + rewrite bool_decide_eq_true_2 by (rewrite <- (fr_names _ _ Hr); by eapply elem_of_dom_2). by eapply fs_repr_unlink.
    + rewrite bool_decide_eq_false_2 by (by apply (fs_repr_None fs f)). unfold fs_unlink. rewrite E. by exists fs.
Qed.

Lemma run_calls_refines cs : ∀ fs f,
  fs_repr fs f → ∃ fs', run_calls cs fs = Ok (fs', (spec_calls cs f).2) ∧ fs_repr fs' (spec_calls cs f).1.
Proof.
  induction cs as [|c cs IH]; intros fs f Hr; [by exists fs|]. destruct (run_call_refines c fs f Hr) as (fs1 & H1 & Hr1).
  destruct (IH _ _ Hr1) as (fs' & H2 & Hr'). exists fs'. cbn [run_calls spec_calls]. rewrite H1. cbn [mbind result_bind]. rewrite H2.
  destruct (spec_call c f) as [f1 r]. simpl in *. by destruct (spec_calls cs f1).
Qed.

(** The initial file system, with the root only. *)
Definition initial_files : files := mkFiles {[root_path := (S_IFDIR, EmptyString)]} 3.

Lemma new_FileSystem_repr : fs_repr new_FileSystem initial_files.
Proof.
  apply (fs_repr_add (mkFileSystem ∅ 1 ∅ ∅ 3) (mkFiles ∅ 3) root_path (addHardLink root_path (new_INode S_IFDIR))); [|done|simpl; set_solver].
  split; simpl; try done.
Qed.

