(* ===== verification/Output.v ===== *)
(** * What the checker prints (common.cc and the print functions of the other files)

    The text of the reports, as a function of the state it is printed from. [model_print]
    writes to the descriptor [model_out]; the functions below return what they write. The
    user program's own output goes to a pipe, which [print_program_output] copies. *)

From Stdlib Require Import Ascii String.
From S2P Require Import Prelude ClockVector Action HashTable Promise CycleGraph NodeStack Schedule DataRace ExecState Scenarios Model Inference SCAnalysis SCGen CStrings.

Definition rule : cstr := replicate 84 "-"%char ++ newline.
Definition sc_rule : cstr := replicate 69 "-"%char ++ newline.

(** ** Actions (action.cc) *)

Definition get_type_str (a : ModelAction) : cstr :=
  lit match a_type a with
  | MODEL_FIXUP_RELSEQ => "relseq fixup"
  | THREAD_CREATE => "thread create"
  | THREAD_START => "thread start"
  | THREAD_YIELD => "thread yield"
  | THREAD_JOIN => "thread join"
  | THREAD_FINISH => "thread finish"
  | ATOMIC_UNINIT => "uninitialized"
  | ATOMIC_READ => "atomic read"
  | ATOMIC_WRITE => "atomic write"
  | ATOMIC_RMW => "atomic rmw"
  | ATOMIC_FENCE => "fence"
  | ATOMIC_RMWR => "atomic rmwr"
  | ATOMIC_RMWC => "atomic rmwc"
  | ATOMIC_INIT => "init atomic"
  | ATOMIC_LOCK => "lock"
  | ATOMIC_UNLOCK => "unlock"
  | ATOMIC_TRYLOCK => "trylock"
  | ATOMIC_WAIT => "wait"
  | ATOMIC_NOTIFY_ONE => "notify one"
  | ATOMIC_NOTIFY_ALL => "notify all"
  | ATOMIC_ANNOTATION => "annotation"
  end.

Definition ModelAction_get_mo_str (a : ModelAction) : cstr :=
  lit match a_order a with
  | memory_order_relaxed => "relaxed"
  | memory_order_acquire => "acquire"
  | memory_order_release => "release"
  | memory_order_acq_rel => "acq_rel"
  | memory_order_seq_cst => "seq_cst"
  | memory_order_other _ => "unknown"
  end.

(** [ClockVector::print]. *)
Definition print_cv (cv : ClockVector) : cstr :=
  lit "(" ++ concat (imap (λ i c, rjust 2 (print_u c) ++ (if i =? num_threads cv - 1 then lit ")" ++ newline else lit ", ")) (clock cv)).

Section actions.
Context (s : Exec).

(** [Promise::get_index]. *)
Definition get_index (promise : ptr) : result Z := _ ← deref (x_proms s !! promise); Ok (get_promise_number s promise).

(** What an action reads from, in [ModelAction::print]. *)
Definition print_rf (a : ModelAction) : result cstr :=
  if is_read a then
    match a_reads_from a, a_reads_from_promise a with
    | Some rf, _ => w ← deref (x_acts s !! rf); Ok (lit "  " ++ ljust 3 (print_z (signed (a_seq_number w))))
    | None, Some p => idx ← get_index p; Ok (if (0 <=? idx)%Z then lit "  P" ++ ljust 2 (print_z idx) else lit "  P? ")
    | None, None => Ok (lit "  ?  ")
    end
  else Ok [].

Definition print_action (a : ModelAction) : result cstr :=
  v ← get_return_value (x_acts s) (λ p, get_value <$> x_proms s !! p) a;
  rf ← print_rf a;
  Ok (ljust 4 (print_z (signed (a_seq_number a))) ++ lit " " ++ ljust 2 (print_d (id_to_int (a_tid a))) ++ lit "   " ++
      ljust 13 (get_type_str a) ++ lit "   " ++ rjust 7 (ModelAction_get_mo_str a) ++ lit "  " ++ rjust 14 (print_p (a_location a)) ++ lit "   " ++
      ljust 18 (print_x v) ++ rf ++
      match a_cv a with
      | Some cv => (if is_read a then lit " " else lit "      ") ++ print_cv cv
      | None => newline
      end)%list.

(** The value of an enumerator of [action_type]. *)
Definition type_code (ty : action_type) : N :=
  match ty with
  | MODEL_FIXUP_RELSEQ => 0 | THREAD_CREATE => 1 | THREAD_START => 2 | THREAD_YIELD => 3 | THREAD_JOIN => 4
  | THREAD_FINISH => 5 | ATOMIC_UNINIT => 6 | ATOMIC_READ => 7 | ATOMIC_WRITE => 8 | ATOMIC_RMWR => 9
  | ATOMIC_RMW => 10 | ATOMIC_RMWC => 11 | ATOMIC_INIT => 12 | ATOMIC_FENCE => 13 | ATOMIC_LOCK => 14
  | ATOMIC_TRYLOCK => 15 | ATOMIC_UNLOCK => 16 | ATOMIC_NOTIFY_ONE => 17 | ATOMIC_NOTIFY_ALL => 18
  | ATOMIC_WAIT => 19 | ATOMIC_ANNOTATION => 20
  end.

(** [ModelAction::hash]; an index of -1 is converted to an [unsigned int]. *)
Definition hash_action (a : ModelAction) : result N :=
  let h := type_code (a_type a) in
  let h := N.lxor h (wrap32 (N.shiftl (mo_code (a_order a)) 3)) in
  let h := N.lxor h (wrap32 (N.shiftl (a_seq_number a) 5)) in
  let h := N.lxor h (wrap32 (N.shiftl (N.of_nat (id_to_int (a_tid a))) 6)) in
  if is_read a then
    h ← match a_reads_from a, a_reads_from_promise a with
        | Some rf, _ => w ← deref (x_acts s !! rf); Ok (N.lxor h (a_seq_number w))
        | None, Some p => idx ← get_index p; Ok (N.lxor h (Z.to_N (idx mod 2 ^ 32)))
        | None, None => Ok h
        end;
    v ← get_reads_from_value (x_acts s) (λ p, get_value <$> x_proms s !! p) a;
    Ok (wrap32 (N.lxor h v))
  else Ok h.
Definition next_hash (hash h : N) : N := N.lxor (N.lxor hash (wrap32 (N.shiftl hash 3))) h.

(** The lines of the actions of a list and the hash of the list, with [before] and [after]
    around the lines. *)
Definition print_actions (before after : ptr → result cstr) (l : list ptr) : result (cstr * N) :=
  foldM (λ p '(out, hash),
    a ← deref (x_acts s !! p);
    text ← (if (0 <? a_seq_number a)%N then b ← before p; t ← print_action a; e ← after p; Ok (b ++ t ++ e)%list else Ok []);
    h ← hash_action a;
    Ok (out ++ text, next_hash hash h)%list) l ([], 0%N).

(** execution.cc *)
Definition print_list (l : list ptr) : result cstr :=
  '(text, hash) ← print_actions (λ _, Ok []) (λ _, Ok []) l;
  Ok (rule ++ lit "#    t    Action type     MO       Location         Value               Rf  CV" ++ newline ++ rule ++
      text ++ lit "HASH " ++ print_u hash ++ newline ++ rule)%list.

(** scanalysis.cc and scfence/scgen.cc: reads that are not SC are marked, with the store
    they would have to read from, whose pointer may be NULL. *)
Definition sc_print_list (notsc : bool) (badrfset : gmap ptr (option ptr)) (l : list ptr) : result cstr :=
  '(text, hash) ← print_actions
    (λ p, Ok (if bool_decide (is_Some (badrfset !! p)) then lit "BRF " else []))
    (λ p, match badrfset !! p with
          | None => Ok []
          | Some w => w ← deref w; w ← deref (x_acts s !! w); Ok (lit "Desired Rf: " ++ print_u (a_seq_number w) ++ lit " " ++ newline)%list
          end) l;
  Ok (sc_rule ++ (if notsc then lit "Not SC" ++ newline else []) ++ text ++ lit "HASH " ++ print_u hash ++ newline ++ sc_rule)%list.
Definition SCAnalysis_print_list (x : SCAnalysis) (l : list ptr) : result cstr := sc_print_list (sa_cyclic x) (sa_badrfset x) l.
Definition SCGenerator_print_list (x : SCGenerator) (l : list ptr) : result cstr :=
  sc_print_list (sa_cyclic (sg_base x) || sg_hasBadRF x) (sa_badrfset (sg_base x)) l.

(** [Promise::print]. *)
Definition print_promise (p : Promise) : result cstr :=
  reader ← deref (get_reader p 0);
  r ← deref (x_acts s !! reader);
  let threads := concat (imap (λ i (b : bool), if b then lit "[" ++ print_d i ++ lit "]" else []) (p_available_thread p)) in
  let failed := forallb negb (p_available_thread p) in
  Ok (lit "Promised value " ++ print_x (fv_value (p_fv p)) ++ lit ", first read from thread " ++ print_d (id_to_int (a_tid r)) ++
      lit ", available threads to resolve: " ++ threads ++ (if failed then lit "(none)" else []) ++ newline)%list.
End actions.

(** ** The scheduler (schedule.cc) and the nodes (nodestack.cc) *)

(** The string is copied to an array of twenty characters. *)
Definition enabled_type_to_string (e : enabled_type) : result cstr :=
  in_buffer 20 (lit match e with THREAD_DISABLED => "disabled" | THREAD_ENABLED => "enabled" | THREAD_SLEEP_SET => "sleep" end).

Definition print_statuses (mark : nat → cstr) (l : list enabled_type) : result cstr :=
  foldM (λ '(i, e) out, str ← enabled_type_to_string e; Ok (out ++ lit "[" ++ print_d i ++ lit ": " ++ mark i ++ str ++ lit "]")%list)
    (imap pair l) [].

Definition Scheduler_print (sc : Scheduler) : result cstr :=
  statuses ← print_statuses (λ i, if bool_decide (sc_current sc = Some (int_to_id i)) then lit "current, " else []) (sc_enabled sc);
  Ok (lit "Scheduler: " ++ statuses ++ newline)%list.

Definition indent : cstr := replicate 10 " "%char.
Definition emptiness (b : bool) : cstr := lit (if b then "empty" else "non-empty ").
Definition bracket (t : cstr) : cstr := lit "[" ++ t ++ lit "]".
(** The sequence numbers of actions. *)
Definition print_seqs (s : Exec) (l : list ptr) : result cstr :=
  foldM (λ p out, a ← deref (x_acts s !! p); Ok (out ++ bracket (print_z (signed (a_seq_number a))))%list) l [].

Definition Node_print (s : Exec) (x : Node) : result cstr :=
  a ← deref (x_acts s !! n_action x);
  act ← print_action s a;
  status ← match n_enabled_array x with
           | Some l => t ← print_statuses (λ _, []) l; Ok (t ++ newline)%list
           | None => Ok (lit "(info not available)" ++ newline)%list
           end;
  let backtrack := concat (imap (λ i (b : bool), if b then bracket (print_d i) else []) (n_backtrack x)) in
  past ← print_seqs s (drop (S (n_read_from_past_idx x)) (n_read_from_past x));
  promises ← print_seqs s (drop (Z.to_nat (n_read_from_promise_idx x + 1)) (n_read_from_promises x));
  let future := concat (map (λ fv, bracket (print_x (fv_value fv))) (drop (Z.to_nat (n_future_index x + 1)) (n_future_values x))) in
  Ok (act ++ indent ++ lit "thread status: " ++ status ++
      indent ++ lit "backtrack: " ++ emptiness (backtrack_empty x) ++ backtrack ++ newline ++
      indent ++ lit "read from past: " ++ emptiness (read_from_past_empty x) ++ past ++ newline ++
      indent ++ lit "read-from promises: " ++ emptiness (read_from_promise_empty x) ++ promises ++ newline ++
      indent ++ lit "future values: " ++ emptiness (future_value_empty x) ++ future ++ newline ++
      indent ++ lit "promises: " ++ lit (if promise_empty x then "empty" else "non-empty") ++ newline ++
      indent ++ lit "misc: " ++ lit (if misc_empty x then "empty" else "non-empty") ++ newline ++
      indent ++ lit "rel seq break: " ++ lit (if relseq_break_empty x then "empty" else "non-empty") ++ newline)%list.

Definition NodeStack_print (s : Exec) (ns : NodeStack) : result cstr :=
  let dots := replicate 44 "."%char ++ newline in
  nodes ← foldM (λ '(it, p) out,
    x ← deref (ns_nodes ns !! p);
    text ← Node_print s x;
    Ok (out ++ (if (Z.of_nat it =? ns_head_idx ns)%Z then lit "vvv following action is the current iterator vvv" ++ newline else []) ++ text)%list)
    (imap pair (ns_node_list ns)) [];
  Ok (dots ++ lit "NodeStack printing node_list:" ++ newline ++ nodes ++ dots)%list.

(** ** Executions (execution.cc) *)

(** The reasons why an execution is infeasible: the conditions, and the tags printed. *)
Definition infeasibility_flags (s : Exec) : list bool :=
  [checkForCycles (x_mo_graph s); x_failed_promise s || x_hard_failed_promise s; x_too_many_reads s; x_no_valid_reads s;
   x_bad_synchronization s; x_bad_sc_read s; promises_expired s; negb (bool_decide (length (x_promises s) = 0))].
Definition tags : list cstr :=
  [lit "[mo cycle]"; lit "[failed promise]"; lit "[too many reads]"; lit "[no valid reads-from]"; lit "[bad sw ordering]";
   lit "[bad sc read]"; lit "[promise expired]"; lit "[unresolved promise]"].
Fixpoint shown (flags : list bool) (l : list cstr) : cstr :=
  match flags, l with b :: flags, t :: l => (if b then t else []) ++ shown flags l | _, _ => [] end.

(** [print_infeasibility]: the tags are written one after the other into [buf]. *)
Definition print_infeasibility (prefix : option cstr) (s : Exec) : result cstr :=
  buf ← in_buffer 100 (shown (infeasibility_flags s) tags);
  Ok (if bool_decide (buf = []) then [] else default (lit "Infeasible") prefix ++ lit ": " ++ buf)%list.

(** [print_summary], without SUPPORT_MOD_ORDER_DUMP. *)
Definition print_summary (params : model_params) (execution_number : Z) (s : Exec) : result cstr :=
  status ← (if isfeasibleprefix s then
              '(_, yb) ← is_yieldblocked params s;
              Ok ((if (yb : bool) then lit " YIELD BLOCKED" else []) ++
                  (if all_threads_sleeping (x_sched s) then lit " SLEEP-SET REDUNDANT" else []) ++
                  (if have_bug_reports s then lit " DETECTED BUG(S)" else []))%list
            else print_infeasibility (Some (lit " INFEASIBLE")) s);
  trace ← print_list s (x_action_trace s);
  promises ← foldM (λ '(i, p) out,
    pr ← deref (x_proms s !! p); t ← print_promise s pr; Ok (out ++ lit " [P" ++ print_d i ++ lit "] " ++ t)%list)
    (imap pair (x_promises s)) [];
  Ok (lit "Execution trace " ++ print_z execution_number ++ lit ":" ++ status ++ newline ++ trace ++ newline ++
      (if bool_decide (x_promises s = []) then [] else lit "Pending promises:" ++ newline ++ promises ++ newline))%list.

(** ** Bug reports (bugmessage.h, model.cc, action.cc, datarace.cc, common.cc) *)

(** [ModelChecker::assert_bug] formats into 800 characters and drops the rest. *)
Definition format_bug (msg : cstr) : cstr := take 799 msg.
(** The block that a [bug_message] allocates, and the text it writes there. *)
Definition bug_message (str : cstr) : result cstr :=
  in_buffer (length (lit "  [BUG] %s" ++ newline) + length str) (lit "  [BUG] " ++ str ++ newline).

Definition uninitialized_msg (a : ModelAction) : cstr :=
  lit "May read from uninitialized atomic:" ++ newline ++ lit "    action " ++ print_z (signed (a_seq_number a)) ++ lit ", thread " ++
  print_d (id_to_int (a_tid a)) ++ lit ", location " ++ print_p (a_location a) ++ lit " (" ++ get_type_str a ++ lit ", " ++ ModelAction_get_mo_str a ++ lit ")".
Definition access (n : nat) (write : bool) (tid : thread_id_t) (c : modelclock_t) : cstr :=
  lit "    Access " ++ print_d n ++ lit ": " ++ rjust 5 (lit (if write then "write" else "read")) ++ lit " in thread " ++
  rjust 2 (print_d (id_to_int tid)) ++ lit " @ clock " ++ rjust 3 (print_u c).
Definition race_msg (race : DataRace) (newaction : ModelAction) : cstr :=
  lit "Data race detected @ address " ++ print_p (dr_address race) ++ lit ":" ++ newline ++
  access 1 (dr_isoldwrite race) (dr_oldthread race) (dr_oldclock race) ++ newline ++
  access 2 (dr_isnewwrite race) (a_tid newaction) (a_seq_number newaction).
(** [model_assert] formats into an array of 100 characters. *)
Definition assertion_msg (file : cstr) (line : Z) : result cstr :=
  in_buffer 100 (lit "Program has hit assertion in file " ++ file ++ lit " at line " ++ print_z line ++ newline)%list.

(** ** The driver (model.cc) *)

(** The messages of the reports are given, oldest first. *)
Definition print_bugs (msgs : list cstr) : cstr :=
  lit "Bug report: " ++ print_u (N.of_nat (length msgs)) ++ lit " bug" ++ (if 1 <? length msgs then lit "s" else []) ++ lit " detected" ++ newline ++
  concat msgs.

Definition print_stats (params : model_params) (ns : NodeStack) (st : execution_stats) : cstr :=
  lit "Number of complete, bug-free executions: " ++ print_z (num_complete st) ++ newline ++
  lit "Number of redundant executions: " ++ print_z (num_redundant st) ++ newline ++
  lit "Number of buggy executions: " ++ print_z (num_buggy_executions st) ++ newline ++
  lit "Number of infeasible executions: " ++ print_z (num_infeasible st) ++ newline ++
  lit "Total executions: " ++ print_z (num_total st) ++ newline ++
  (if (verbose params =? 0)%Z then [] else lit "Total nodes created: " ++ print_z (ns_total_nodes ns) ++ newline).

(** [program_output] is what [print_program_output] prints. *)
Definition print_execution (params : model_params) (printbugs : bool) (program_output : cstr) (msgs : list cstr) (m : ModelChecker) : result cstr :=
  let s := mc_execution m in
  diverge ← (if (3 <=? verbose params)%Z then
      d ← match mc_earliest_diverge m with
          | Some p => a ← deref (x_acts s !! p); print_action s a
          | None => Ok (lit "(Not set)" ++ newline)%list
          end;
      Ok (newline ++ lit "Earliest divergence point since last feasible execution:" ++ newline ++ d ++ newline ++ print_stats params (x_stack s) (mc_stats m))%list
    else Ok []);
  summary ← print_summary params (mc_execution_number m) s;
  Ok (lit "Program output from execution " ++ print_z (mc_execution_number m) ++ lit ":" ++ newline ++ program_output ++ diverge ++
      (if printbugs && have_bug_reports s then newline ++ print_bugs msgs else []) ++ newline ++ summary)%list.

(** [SCAnalysis::finish] (scanalysis.cc), whose last division may be by zero. *)
Definition SCAnalysis_finish (time : option N) (st : sc_statistics) : result cstr :=
  let execs := wrap32 (sc_sccount st + sc_nonsccount st) in
  if (execs =? 0)%N then Err Undefined
  else Ok (match time with Some t => lit "Elapsed time in usec " ++ print_u t ++ newline | None => [] end ++
           lit "SC count: " ++ print_u (sc_sccount st) ++ newline ++ lit "Non-SC count: " ++ print_u (sc_nonsccount st) ++ newline ++
           lit "Total actions: " ++ print_u (sc_actions st) ++ newline ++
           lit "Actions per execution: " ++ print_u (sc_actions st / execs) ++ newline)%list.

(** ** The output of the user program (common.cc) *)

Section program_output.
(** The result of the [n]th call of [write] with a number of characters: how many were
    written, none if the call fails. A read from the pipe does not fail. *)
Context (write : nat → nat → option nat).

(** [read_to_buf]: what was read and what stays in the pipe; nothing is read when the pipe
    is empty, the descriptor being non-blocking. *)
Definition read_to_buf (maxlen : nat) (pipe : cstr) : cstr * cstr := (take maxlen pipe, drop maxlen pipe).

(** The reading loop; [fuel] bounds its rounds. *)
Fixpoint drain (fuel : nat) (pipe : cstr) : result cstr :=
  match fuel with
  | O => Err OutOfFuel
  | S fuel => let '(buf, pipe) := read_to_buf 200 pipe in if bool_decide (buf = []) then Ok pipe else drain fuel pipe
  end.
Definition clear_program_output (pipe : cstr) : result cstr := drain (S (length pipe)) pipe.

(** The inner loop of [print_program_output]: [ret] characters are still to be written, and
    every round starts at the beginning of [buf]. [out] is what has been written, in [n]
    calls. *)
Fixpoint write_buf (fuel : nat) (buf : cstr) (ret : nat) (acc : cstr * nat) : result (cstr * nat) :=
  let '(out, n) := acc in
  match ret, fuel with
  | O, _ => Ok acc
  | _, O => Err OutOfFuel
  | _, S fuel =>
      match write n ret with
      | None => Err Exited
      | Some res => write_buf fuel buf (ret - res) (out ++ take res buf, S n)%list
      end
  end.
Fixpoint copy_output (fuel rounds : nat) (pipe : cstr) (acc : cstr * nat) : result (cstr * nat) :=
  match fuel with
  | O => Err OutOfFuel
  | S fuel =>
      let '(buf, pipe) := read_to_buf 200 pipe in
      if bool_decide (buf = []) then Ok acc
      else acc ← write_buf rounds buf (length buf) acc; copy_output fuel rounds pipe acc
  end.
Definition begin_output : cstr := lit "---- BEGIN PROGRAM OUTPUT ----" ++ newline.
Definition end_output : cstr := lit "---- END PROGRAM OUTPUT   ----" ++ newline.
Definition print_program_output (rounds : nat) (pipe : cstr) : result cstr :=
  '(out, _) ← copy_output (S (length pipe)) rounds pipe ([], 0);
  Ok (begin_output ++ out ++ end_output)%list.
End program_output.

(** ** Properties *)

(** Pipes are emptied. *)
Lemma drain_empty fuel pipe : length pipe < fuel → drain fuel pipe = Ok [].
Proof.
  revert pipe. induction fuel as [|fuel IH]; intros pipe Hf; [lia|]. cbn [drain read_to_buf]. case_bool_decide as E.
  - destruct pipe; [done|discriminate].
  - apply IH. destruct pipe; [done|]. simpl in *. rewrite length_drop. lia.
Qed.

Lemma copy_output_complete write fuel rounds pipe out n :
  (∀ i k, k ≤ 200 → write i k = Some k) → 0 < rounds → length pipe < fuel →
  ∃ n', copy_output write fuel rounds pipe (out, n) = Ok ((out ++ pipe)%list, n').
Proof.
  intros Hw Hr. revert pipe out n. induction fuel as [|fuel IH]; intros pipe out n Hf; [lia|]. cbn [copy_output read_to_buf]. case_bool_decide as E.
  - destruct pipe; [|discriminate]. exists n. by rewrite app_nil_r.
  - assert (write_buf write rounds (take 200 pipe) (length (take 200 pipe)) (out, n) = Ok ((out ++ take 200 pipe)%list, S n)) as ->.
    { destruct rounds as [|r]; [lia|]. destruct (length (take 200 pipe)) as [|k] eqn:Hk; [by apply length_zero_iff_nil in Hk|].
      cbn [write_buf]. rewrite Hw by (rewrite <- Hk, length_take; lia). rewrite <- Hk, Nat.sub_diag, firstn_all. by destruct r. }
    cbn [mbind result_bind]. destruct (IH (drop 200 pipe) (out ++ take 200 pipe)%list (S n)) as (n' & Hrun).
    { destruct pipe; [done|]. rewrite length_drop. simpl in *. lia. }
    exists n'. by rewrite Hrun, <- app_assoc, take_drop.
Qed.

(** The output of the user program is copied faithfully if every [write] writes all it
    is given: what is printed between the two banners is what was in the pipe, whatever its
    length, although the buffer holds 200 characters. *)
Theorem print_program_output_exact write rounds pipe :
  (∀ i k, k ≤ 200 → write i k = Some k) → 0 < rounds →
  print_program_output write rounds pipe = Ok (begin_output ++ pipe ++ end_output)%list.
Proof.
  intros Hw Hr. unfold print_program_output.
  destruct (copy_output_complete write (S (length pipe)) rounds pipe [] 0 Hw Hr ltac:(lia)) as (n & ->). done.
Qed.

(** A partial [write] makes the code write the start of the buffer again and lose its end. *)
Example partial_write_repeats :
  print_program_output (λ i n, Some (if i =? 0 then 1 else n)) 2 (lit "abc") = Ok (begin_output ++ lit "aab" ++ end_output)%list.
Proof. vm_compute. reflexivity. Qed.

(** How many tags there are, and how many characters they take. *)
Definition count (flags : list bool) : nat := length (List.filter id flags).
Lemma tags_size (b1 b2 b3 b4 b5 b6 b7 b8 : bool) :
  let flags := [b1; b2; b3; b4; b5; b6; b7; b8] in
  let size := length (shown flags tags) in
  (size = 0 ↔ count flags = 0) ∧ (count flags ≤ 5 → size < 100) ∧ (7 ≤ count flags → 100 ≤ size).
Proof. destruct b1, b2, b3, b4, b5, b6, b7, b8; split_and!; vm_compute; (lia || (split; lia) || done). Qed.

Lemma count_flags s : count (infeasibility_flags s) = 0 ↔ is_feasible_prefix_ignore_relseq s = true.
Proof.
  unfold is_feasible_prefix_ignore_relseq, is_infeasible. rewrite <- (bool_decide_ext (length (x_promises s) = 0) (x_promises s = [])) by apply length_zero_iff_nil.
  unfold infeasibility_flags. case_bool_decide.
  all: destruct (checkForCycles _), (x_failed_promise s), (x_hard_failed_promise s), (x_too_many_reads s), (x_no_valid_reads s),
    (x_bad_synchronization s), (x_bad_sc_read s), (promises_expired s); vm_compute; done.
Qed.

(** C37. The report on an infeasible execution: nothing is printed exactly when the execution
    is feasible apart from pending release sequences; with up to five reasons the tags fit
    into the buffer of 100 characters and the report is printed, and with seven or more the
    code writes past the buffer. *)
Theorem print_infeasibility_bounds prefix s :
  (print_infeasibility prefix s = Ok [] ↔ is_feasible_prefix_ignore_relseq s = true) ∧
  (count (infeasibility_flags s) ≤ 5 → ∃ text, print_infeasibility prefix s = Ok text) ∧
  (7 ≤ count (infeasibility_flags s) → print_infeasibility prefix s = Err OutOfBounds).
Proof.
  destruct (tags_size (checkForCycles (x_mo_graph s)) (x_failed_promise s || x_hard_failed_promise s) (x_too_many_reads s) (x_no_valid_reads s)
    (x_bad_synchronization s) (x_bad_sc_read s) (promises_expired s) (negb (bool_decide (length (x_promises s) = 0)))) as (H0 & H5 & H7).
  change [_; _; _; _; _; _; _; _] with (infeasibility_flags s) in *. rewrite <- count_flags. unfold print_infeasibility, in_buffer.
  set (size := length _) in *. destruct (Nat.ltb_spec size 100) as [Hs|Hs]; cbn [mbind result_bind].
  - split_and!; [|by eexists|lia]. rewrite <- H0. case_bool_decide as E; [by unfold size; rewrite E|].
    split; [intros [= [_ [=]]%app_nil]|]. unfold size. intros E'%length_zero_iff_nil. done.
  - split_and!; [split; [done|lia]|lia|done].
Qed.

(** A number in a field with a space after it is read back. *)
Lemma scan_field sp w n rest b :
  spaces sp → (Z.of_nat n < 2 ^ 31)%Z →
  ∃ sp', spaces sp' ∧ scan_d (mkStream (sp ++ ljust w (print_d n) ++ " "%char :: rest)%list b) = Ok (mkStream (sp' ++ rest)%list false, Some (Z.of_nat n)).
Proof.
  intros Hsp Hn. unfold ljust. set (k := w - length (print_d n)). exists (replicate (S k) " "%char). split; [by apply Forall_replicate|].
  replace (sp ++ (print_d n ++ replicate k " "%char) ++ " "%char :: rest)%list with (sp ++ print_d n ++ " "%char :: (replicate k " "%char ++ rest))%list.
  - by rewrite scan_d_print_d.
  - rewrite <- !app_assoc. do 2 f_equal. change (" "%char :: rest) with ([" "%char] ++ rest)%list.
    rewrite app_comm_cons, (assoc_L (++)). by rewrite <- replicate_cons_app.
Qed.

(** The trace that is printed can be read back: scanning the line of an action for two
    decimal numbers gives its sequence number and its thread. *)
Theorem print_action_scan s a line :
  print_action s a = Ok line → (a_seq_number a < 2 ^ 31)%N → (Z.of_nat (id_to_int (a_tid a)) < 2 ^ 31)%Z →
  (∃ fp, scan_d (fopened line) = Ok (fp, Some (Z.of_N (a_seq_number a))) ∧
    ∃ fp', scan_d fp = Ok (fp', Some (Z.of_nat (id_to_int (a_tid a))))).
Proof.
  unfold print_action. intros Hline Hs Ht. destruct (get_return_value _ _ a) as [v|]; [|done]. cbn [mbind result_bind] in Hline.
  destruct (print_rf s a) as [rf|]; [|done]. cbn [mbind result_bind] in Hline. simplify_eq.
  assert (print_z (signed (a_seq_number a)) = print_d (N.to_nat (a_seq_number a))) as ->.
  { unfold print_z, signed, print_d. destruct (N.ltb_spec (a_seq_number a) (2 ^ 31)); [|lia].
    destruct (Z.ltb_spec (Z.of_N (a_seq_number a)) 0); [lia|]. by rewrite N2Z.id, N2Nat.id. }
  match goal with |- context [fopened (_ ++ _ :: ?r)%list] => destruct (scan_field [] 4 (N.to_nat (a_seq_number a)) r false) as (sp & Hsp & H1) end;
    [constructor|lia|]. eexists. split; [rewrite N_nat_Z in H1; exact H1|].
  match goal with |- context [(sp ++ _ ++ _ :: ?r)%list] => destruct (scan_field sp 2 (id_to_int (a_tid a)) r false) as (sp' & _ & H2) end;
    [done|done|]. eexists. exact H2.
Qed.

(** The reports fit into the memory that is allocated for them. *)
Lemma bug_message_fits str : bug_message str = Ok (lit "  [BUG] " ++ str ++ newline)%list.
Proof.
  unfold bug_message, in_buffer. rewrite (proj2 (Nat.ltb_lt _ _)); [done|]. rewrite !length_app. simpl. lia.
Qed.

(** The message of a failed assertion fits only if the name of the file is short: the code
    writes past the array when the name and the line number have 56 characters or more. *)
Lemma assertion_msg_bounds file line :
  (∃ msg, assertion_msg file line = Ok msg) ↔ length file + length (print_z line) < 56.
Proof.
  unfold assertion_msg, in_buffer. rewrite !length_app. change (length (lit "Program has hit assertion in file ")) with 34.
  change (length (lit " at line ")) with 9. change (length newline) with 1. case_match eqn:E; [apply Nat.ltb_lt in E|apply Nat.ltb_ge in E].
  all: split; [intros [msg Hmsg]; first [lia|discriminate]|intros; first [by eexists|lia]].
Qed.

(** A store, action 2 of thread 1. *)
Definition sample_store : ModelAction :=
  mkModelAction ATOMIC_WRITE memory_order_release memory_order_release 64 1 5 None None None None 2 (Some (mkClockVector [1; 2]%N)) false.

Example sample_store_line :
  print_action (state_after (mret tt)) sample_store =
  Ok (lit "2    1    atomic write    release            0x40   0x5                     ( 1,  2)" ++ newline)%list.
Proof. vm_compute. reflexivity. Qed.

Lemma print_action_scan_witness :
  ∃ line fp fp', print_action (state_after (mret tt)) sample_store = Ok line ∧
    scan_d (fopened line) = Ok (fp, Some 2%Z) ∧ scan_d fp = Ok (fp', Some 1%Z).
Proof.
  eexists. destruct (print_action_scan (state_after (mret tt)) sample_store _ sample_store_line) as (fp & H1 & fp' & H2).
  - reflexivity.
  - reflexivity.
  - exists fp, fp'. split; [exact sample_store_line|]. split; [exact H1|exact H2].
Defined.

Lemma print_program_output_exact_witness :
  print_program_output (λ _ n, Some n) 1 (replicate 450 "x"%char) = Ok (begin_output ++ replicate 450 "x"%char ++ end_output)%list.
Proof. apply (print_program_output_exact (λ _ n, Some n) 1 (replicate 450 "x"%char)); [done|lia]. Defined.
