(* ===== verification/Exploration.v ===== *)
(** * Invariants of the exploration (model.cc, snapshot-interface.cc)

    An invariant logic for the monad of the driver, the invariant that holds between any
    two operations of a run, and what it means for the executions of the user program. *)

From S2P Require Import Prelude ClockVector Action HashTable Promise CycleGraph NodeStack Schedule DataRace ExecState ModOrder Step Evolution Scenarios Librace Interface Model Litmus.
From ITree Require Import ITree.

(** ** The logic *)

Definition maintains {A} (I : ModelChecker → Prop) (c : mc A) : Prop :=
  ∀ m m' a, I m → c m = Ok (m', a) → I m'.

Lemma mc_bind_Ok {A B} (c : mc A) (k : A → mc B) m m' b :
  (c ≫= k) m = Ok (m', b) ↔ ∃ m1 a, c m = Ok (m1, a) ∧ k a m1 = Ok (m', b).
Proof. unfold mbind, mc_bind. destruct (c m) as [[m1 a]|]; naive_solver. Qed.

Lemma on_exec_Ok {A} (c : exec A) m m' a :
  on_exec c m = Ok (m', a) ↔ ∃ s, c (mc_execution m) = Ok (s, a) ∧ m' = put_execution s m.
Proof. unfold on_exec. destruct (c (mc_execution m)) as [[s x]|]; naive_solver. Qed.

(** What an invariant of the driver must not depend on. *)
Class Blind (I : ModelChecker → Prop) := {
  blind_execution m s : I m → I (put_execution s m);
  blind_threads m t : I m → I (put_threads t m);
  blind_diverge m d : I m → I (put_diverge d m);
  blind_earliest m d : I m → I (put_earliest_diverge d m);
  blind_number m d : I m → I (put_execution_number d m);
  blind_restart m b : I m → I (put_restart_flag b m)
}.

Section maintains.
Context (I : ModelChecker → Prop) `{!Blind I}.

Lemma maintains_ret {A} (a : A) : maintains I (mret a).
Proof. intros m m' a' Hm [= <- _]. done. Qed.
Lemma maintains_bind {A B} (c : mc A) (k : A → mc B) :
  maintains I c → (∀ a, maintains I (k a)) → maintains I (c ≫= k).
Proof. intros Hc Hk m m' b Hm (m1 & a & H1 & H2)%mc_bind_Ok. eapply Hk; [|done]. by eapply Hc. Qed.
Lemma maintains_on_exec {A} (c : exec A) : maintains I (on_exec c).
Proof. intros m m' a Hm (s & _ & ->)%on_exec_Ok. by apply blind_execution. Qed.
Lemma maintains_look {A} (f : Exec → A) : maintains I (look f).
Proof. intros m m' a Hm [= <- _]. done. Qed.
Lemma maintains_get : maintains I get_mc.
Proof. intros m m' a Hm [= <- _]. done. Qed.
Lemma maintains_fail {A} f : maintains (A:=A) I (fail_mc f).
Proof. intros m m' a Hm [=]. Qed.
Lemma maintains_modify f : (∀ m, I m → I (f m)) → maintains I (modify_mc f).
Proof. intros Hf m m' a Hm [= <- _]. auto. Qed.
Lemma maintains_for_each {A} (f : A → mc unit) l : (∀ x, maintains I (f x)) → maintains I (for_each_mc f l).
Proof. intros Hf. induction l; cbn [for_each_mc]; [apply maintains_ret|]. by apply maintains_bind. Qed.
End maintains.

Ltac maintain_step :=
  first
    [ assumption
    | solve [auto with cds nocore]
    | lazymatch goal with
      | |- maintains _ (mbind _ _) => apply maintains_bind; [|intros ?]
      | |- maintains _ (mret _) => apply maintains_ret
      | |- maintains _ (on_exec _) => apply maintains_on_exec; typeclasses eauto
      | |- maintains _ (look _) => apply maintains_look
      | |- maintains _ get_mc => apply maintains_get
      | |- maintains _ (fail_mc _) => apply maintains_fail
      | |- maintains _ (modify_mc _) =>
          apply maintains_modify; intros ? ?;
          repeat first [assumption|apply blind_execution|apply blind_threads|apply blind_diverge
                       |apply blind_earliest|apply blind_number|apply blind_restart]
      | |- maintains _ (for_each_mc _ _) => apply maintains_for_each; intros ?
      | |- maintains _ (match ?x with _ => _ end) => destruct x
      | |- maintains _ (let _ := _ in _) => cbv zeta
      end ].
Ltac maintain := repeat maintain_step.

(** ** Snapshots *)

(** Rolling back succeeds exactly where the last snapshot is old enough. *)
Lemma backTrackBeforeStep_spec {A} seqindex (stack : list (snapshot_entry A)) :
  backTrackBeforeStep seqindex stack =
    match last stack with
    | None => Err AssertFailed
    | Some e => if (sn_index e <=? seqindex)%Z then Ok (stack, e) else Err OutOfBounds
    end.
Proof.
  unfold backTrackBeforeStep. destruct (length stack) as [|i] eqn:Hl.
  { by apply nil_length_inv in Hl as ->. }
  assert (last stack = stack !! i) as Hlast by (rewrite last_lookup, Hl; done).
  destruct (lookup_lt_is_Some_2 stack i) as [e He]; [lia|]. rewrite Hlast, He.
  set (fuel := S i). cbn [backtrack_loop]. unfold at_index. rewrite He. simpl.
  destruct (sn_index e <=? seqindex)%Z; simpl; [by rewrite He|]. unfold fuel. cbn [backtrack_loop].
  unfold at_index. rewrite (proj2 (lookup_ge_None _ _)); [done|].
  destruct (exists_last (l:=stack)) as (l & x & ->); [by intros ->|].
  rewrite removelast_last. rewrite length_app in Hl. simpl in Hl. lia.
Qed.

(** ** The invariant of a run *)

(** Every execution is counted once. *)
Definition stats_wf (st : execution_stats) : Prop :=
  num_total st = (num_infeasible st + num_buggy_executions st + num_complete st + num_redundant st)%Z.

Record driver_inv (s0 : Exec) (m : ModelChecker) : Prop := {
  di_stats : stats_wf (mc_stats m);
  di_snapshots : mc_snapshots m = [mkSnapshot s0 0]
}.

#[global] Instance driver_inv_blind s0 : Blind (driver_inv s0).
Proof. split; intros m ? []; by split. Qed.

(** Plugins look at executions and set flags; they leave the statistics and the
    snapshots alone. *)
Class PluginLaws (pl : plugins) : Prop := {
  pl_analyze_ok s0 : maintains (driver_inv s0) (pl_analyze pl);
  pl_inspect_ok s0 a i f : pl_inspect pl = Some (a, i, f) →
    maintains (driver_inv s0) a ∧ (∀ r, maintains (driver_inv s0) (i r)) ∧ maintains (driver_inv s0) f
}.
#[global] Instance no_plugins_laws : PluginLaws no_plugins.
Proof. split; [intros s0; apply maintains_ret|done]. Qed.

(** A state in which an execution may start: that of the snapshot but for the actions and
    the node stack, with the node stack at its beginning, no clock vector of an earlier
    execution and no user thread started. *)
Record fresh (s0 : Exec) (m : ModelChecker) : Prop := {
  fr_threads : mc_threads m = ∅;
  fr_state : let e := mc_execution m in
    e = put_acts (x_acts e) (put_next_act (x_next_act e) (put_stack (x_stack e) s0));
  fr_head : ns_head_idx (x_stack (mc_execution m)) = (-1)%Z;
  fr_clocks : map_Forall (λ _ a, a_cv a = None) (x_acts (mc_execution m))
}.

Section driver.
Context (params : model_params).
Context (thread_addr : thread_id_t → N) (thread_of_addr : N → option thread_id_t).
Context (user_main : user unit) (routine : N → user unit).
Context (plugin : plugins) `{!PluginLaws plugin}.
Context (fuel : nat) (s0 : Exec).
Notation I := (driver_inv s0).
Hint Resolve pl_analyze_ok : cds.

Lemma driver_inspect a i f :
  pl_inspect plugin = Some (a, i, f) → maintains I a ∧ (∀ r, maintains I (i r)) ∧ maintains I f.
Proof. by apply pl_inspect_ok. Qed.

Lemma driver_execute_sleep_set : maintains I execute_sleep_set.
Proof. unfold execute_sleep_set. maintain. Qed.
Hint Resolve driver_execute_sleep_set : cds.

Lemma driver_diverge_here p : maintains I (diverge_here p).
Proof. unfold diverge_here, note_earliest, retract_earliest. maintain. Qed.
Hint Resolve driver_diverge_here : cds.

Lemma driver_get_next_thread : maintains I (get_next_thread params).
Proof. unfold get_next_thread. maintain. Qed.
Hint Resolve driver_get_next_thread : cds.

Lemma driver_switch_to_master tid act k : maintains I (switch_to_master plugin tid act k).
Proof.
  assert (maintains I (match pl_inspect plugin with
    Some (_, inspectModelAction, _) => inspectModelAction act | None => mret tt end)).
  { destruct (pl_inspect plugin) as [[[a i] f]|] eqn:E; [by apply (driver_inspect _ _ _ E)|maintain]. }
  unfold switch_to_master. maintain.
Qed.
Hint Resolve driver_switch_to_master : cds.

Lemma driver_run_user n : ∀ tid t, maintains I (run_user plugin n tid t).
Proof.
  induction n as [|n IH]; intros tid t; cbn [run_user]; [apply maintains_fail|].
  destruct (observe t) as [| |X e k]; [maintain|apply IH|]. destruct e; maintain; apply IH.
Qed.
Hint Resolve driver_run_user : cds.

Lemma driver_switch_from_master tid :
  maintains I (switch_from_master thread_addr user_main routine plugin fuel tid).
Proof. unfold switch_from_master, resumption. maintain. Qed.
Hint Resolve driver_switch_from_master : cds.

Lemma driver_round t :
  maintains I (round params thread_addr thread_of_addr user_main routine plugin fuel t).
Proof. unfold round, stash_pending, stash_thread, disable_blocked. maintain. Qed.
Hint Resolve driver_round : cds.

Lemma driver_should_terminate : maintains I (should_terminate_execution params).
Proof. unfold should_terminate_execution. maintain. Qed.
Hint Resolve driver_should_terminate : cds.

Lemma driver_run_rounds n : ∀ t,
  maintains I (run_rounds params thread_addr thread_of_addr user_main routine plugin fuel n t).
Proof. induction n as [|n IH]; intros t; cbn [run_rounds]; maintain; apply IH. Qed.

(** An execution is counted in exactly one class. *)
Lemma driver_record_stats : maintains I (record_stats params).
Proof.
  intros m m' u [Hst Hsn] H. unfold record_stats in H.
  apply mc_bind_Ok in H as (m1 & [] & [= <-] & H). apply mc_bind_Ok in H as (m2 & fe & [= <- <-] & H).
  apply mc_bind_Ok in H as (m2 & bu & [= <- <-] & H). unfold stats_wf in Hst.
  destruct (isfeasibleprefix _); cbn [negb] in H; [|injection H as <-; split; [unfold stats_wf; simpl; lia|done]].
  destruct (have_bug_reports _); [injection H as <-; split; [unfold stats_wf; simpl; lia|done]|].
  apply mc_bind_Ok in H as (m2 & co & (s & _ & ->)%on_exec_Ok & H).
  destruct co; injection H as <-; (split; [unfold stats_wf; simpl; lia|done]).
Qed.
Hint Resolve driver_record_stats : cds.

(** Resetting succeeds only into a fresh state, and keeps the recorded nodes. *)
Lemma reset_to_initial_state_spec m m' u :
  I m → reset_to_initial_state m = Ok (m', u) →
  I m' ∧ fresh s0 m' ∧ mc_diverge m' = mc_diverge m ∧
  ns_node_list (x_stack (mc_execution m')) = ns_node_list (x_stack (mc_execution m)) ∧
  ns_nodes (x_stack (mc_execution m')) = ns_nodes (x_stack (mc_execution m)).
Proof.
  intros Hm H. unfold reset_to_initial_state in H.
  apply mc_bind_Ok in H as (m1 & [] & (s1 & [= <-] & ->)%on_exec_Ok & H).
  apply mc_bind_Ok in H as (m1 & n & [= <- <-] & H). apply mc_bind_Ok in H as (m2 & [] & H2 & H).
  set (J := λ m2, I m2 ∧ mc_diverge m2 = mc_diverge m ∧
              x_stack (mc_execution m2) = ns_reset_execution (x_stack (mc_execution m))).
  assert (J m2) as (HI & Hd & Hs).
  { refine (maintains_for_each J _ _ _ _ m2 tt _ H2); [|split; [by apply blind_execution|done]].
    intros i a a' u' (HI & Hd & Hs) (s & He & ->)%on_exec_Ok. split; [by apply blind_execution|].
    split; [done|]. rewrite <- Hs.
    refine ((_ : preserves (keeps x_stack) _) _ _ _ He). unfold delete_acts. preserve. by apply preserves_modify. }
  unfold snapshot_backtrack_before in H. apply mc_bind_Ok in H as (m3 & ? & [= <- <-] & H).
  rewrite (di_snapshots _ _ HI), backTrackBeforeStep_spec in H. simpl in H. injection H as <-.
  destruct HI as [Hst Hsn]. split; [by split|]. simpl. rewrite Hs. split; [|done].
  split; simpl; [done|done|by rewrite Hs|]. apply map_Forall_fmap. by intros p a _.
Qed.
(** An operation that establishes more than the invariant with its result. *)
Definition ensures {A} (c : mc A) (Q : A → ModelChecker → Prop) : Prop :=
  ∀ m m' a, I m → c m = Ok (m', a) → Q a m'.

Lemma ensures_bind {A B} (c : mc A) (k : A → mc B) Q :
  maintains I c → (∀ a, ensures (k a) Q) → ensures (c ≫= k) Q.
Proof. intros Hc Hk m m' b Hm (m1 & a & H1 & H2)%mc_bind_Ok. eapply Hk; [|done]. by eapply Hc. Qed.

(** A further execution starts fresh. *)
Definition next_fresh (b : bool) (m : ModelChecker) : Prop := I m ∧ (b = true → fresh s0 m).

Lemma next_fresh_stop : ensures (mret false) next_fresh.
Proof. intros m m' b Hm [= <- <-]. done. Qed.

Lemma next_fresh_reset : ensures (reset_to_initial_state ;; mret true) next_fresh.
Proof.
  intros m m' b Hm (m1 & [] & H1 & [= <- <-])%mc_bind_Ok.
  apply reset_to_initial_state_spec in H1 as (? & ? & _); done.
Qed.

Lemma delete_acts_clocks l (acts : gmap ptr ModelAction) :
  map_Forall (λ _ a, a_cv a = None) acts → map_Forall (λ _ a, a_cv a = None) (foldr delete acts l).
Proof. intros H. induction l; simpl; [done|]. by apply map_Forall_delete. Qed.

Lemma next_fresh_restart : ensures (do_restart ;; mret true) next_fresh.
Proof.
  intros m m' b Hm (m1 & [] & H1 & [= <- <-])%mc_bind_Ok. unfold do_restart in H1.
  apply mc_bind_Ok in H1 as (m2 & [] & [= <-] & H1). apply mc_bind_Ok in H1 as (m3 & [] & H2 & H1).
  apply reset_to_initial_state_spec in H2 as (HI & [F1 F2 F3 F4] & _); [|by repeat (apply blind_restart || apply blind_diverge || apply blind_earliest)].
  apply mc_bind_Ok in H1 as (m4 & [] & (s & Hs & ->)%on_exec_Ok & [= <-]).
  apply exec_bind_Ok in Hs as (t & ? & [= <- <-] & Hs).
  destruct (full_reset (x_stack (mc_execution m3))) as [ns freed] eqn:E. injection Hs as <-.
  assert (ns_head_idx ns = (-1)%Z) as Hhead.
  { unfold full_reset in E. destruct (delete_nodes _ _). by injection E as <- _. }
  split; [|intros _].
  - split; [done|]. simpl. apply HI.
  - split; simpl; [done| |done|by apply delete_acts_clocks]. simpl in F2. rewrite F2. done.
Qed.
Hint Resolve next_fresh_stop next_fresh_reset next_fresh_restart : cds.

Lemma next_execution_spec : ensures (next_execution params plugin) next_fresh.
Proof.
  assert (∀ p, maintains I (match pl_inspect plugin with
    | Some (analyze, _, _) => c ← on_exec (is_complete_execution params); many ← look (too_many_steps params);
                              if negb c && many then analyze else mret p
    | None => mret p end)) as Hins.
  { intros p. destruct (pl_inspect plugin) as [[[a i] f]|] eqn:E; [|maintain].
    destruct (driver_inspect _ _ _ E) as (? & _ & _). maintain. }
  unfold next_execution.
  repeat (apply ensures_bind; [by maintain|intros ?]).
  destruct (mc_restart_flag _); [auto with cds nocore|]. destruct (mc_exit_flag _); [auto with cds nocore|].
  repeat (apply ensures_bind; [by maintain|intros ?]).
  match goal with |- ensures (match ?d with _ => _ end) _ => destruct d end; [|auto with cds nocore].
  repeat (apply ensures_bind; [by maintain|intros ?]).
  destruct (_ && _); auto with cds nocore.
Qed.

Lemma run_once_spec rounds :
  ensures (run_once params thread_addr thread_of_addr user_main routine plugin fuel rounds) next_fresh.
Proof.
  unfold run_once. apply ensures_bind; [by maintain|intros t].
  apply ensures_bind; [apply driver_run_rounds|intros u].
  intros m m' b Hm (m1 & b1 & H1 & H2)%mc_bind_Ok. apply next_execution_spec in H1 as [HI Hf]; [|done].
  destruct (pl_inspect plugin) as [[[a i] f]|] eqn:E; [|by injection H2 as <- <-].
  destruct b1; [by injection H2 as <- <-|]. destruct (driver_inspect _ _ _ E) as (_ & _ & ?).
  revert H2. refine (ensures_bind _ _ next_fresh _ _ m1 m' b HI); [done|]. intros [].
  apply ensures_bind; [by maintain|]. intros m2. destruct (mc_restart_flag m2); auto with cds nocore.
Qed.

Lemma run_executions_spec rounds n :
  maintains I (run_executions params thread_addr thread_of_addr user_main routine plugin fuel rounds n).
Proof.
  induction n as [|n IH]; cbn [run_executions]; [apply maintains_fail|].
  intros m m' u Hm (m1 & b & H1 & H2)%mc_bind_Ok. apply run_once_spec in H1 as [HI _]; [|done].
  destruct b; [by apply IH in H2|by injection H2 as <-].
Qed.
End driver.

(** ** The executions of a run *)

Section executions.
Context (params : model_params).
Context (thread_addr : thread_id_t → N) (thread_of_addr : N → option thread_id_t).
Context (user_main : user unit) (routine : N → user unit).
Context (plugin : plugins) (fuel rounds : nat).
Notation once := (run_once params thread_addr thread_of_addr user_main routine plugin fuel rounds).

(** The states in which [run] starts an execution of the user program. *)
Inductive starts : ModelChecker → Prop :=
  | starts_first m0 m u : new_ModelChecker = Ok m0 → snapshot_record 0 m0 = Ok (m, u) → starts m
  | starts_next m m' : starts m → once m = Ok (m', true) → starts m'.

Lemma first_execution m0 m u :
  new_ModelChecker = Ok m0 → snapshot_record 0 m0 = Ok (m, u) →
  driver_inv (mc_execution m0) m ∧ fresh (mc_execution m0) m.
Proof.
  unfold new_ModelChecker, snapshot_record, modify_mc. intros H0 [= <- <-]. simplify_res.
  split; [by split|]. vm_compute in H. simplify_eq. by split.
Qed.

Lemma starts_inv m0 m :
  PluginLaws plugin → new_ModelChecker = Ok m0 → starts m → driver_inv (mc_execution m0) m ∧ fresh (mc_execution m0) m.
Proof.
  intros ? H0. induction 1 as [m1 m u H1 H2|m m' Hm [IH _] Hrun].
  - assert (m1 = m0) as -> by congruence. by apply first_execution in H2.
  - apply (run_once_spec _ _ _ _ _ _ _ (mc_execution m0)) in Hrun as [? Hf]; auto.
Qed.
End executions.

(** ** Divergence *)

Lemma keeps_execute_sleep_set m m' u :
  execute_sleep_set m = Ok (m', u) →
  x_stack (mc_execution m') = x_stack (mc_execution m) ∧ x_sched (mc_execution m') = x_sched (mc_execution m) ∧
  x_thread_map (mc_execution m') = x_thread_map (mc_execution m).
Proof.
  set (J := λ m1, x_stack (mc_execution m1) = x_stack (mc_execution m) ∧ x_sched (mc_execution m1) = x_sched (mc_execution m)
              ∧ x_thread_map (mc_execution m1) = x_thread_map (mc_execution m)).
  unfold execute_sleep_set. intros (m1 & n & [= <- <-] & H)%mc_bind_Ok.
  refine (maintains_for_each J _ _ _ m m' _ _ H); [|done].
  intros i a a' u' (H1 & H2 & H3) (s & He & ->)%on_exec_Ok. unfold J. rewrite <- H1, <- H2, <- H3.
  enough (keeps (λ s, (x_stack s, x_sched s, x_thread_map s)) (mc_execution a) s) as [= E1 E2 E3] by done.
  refine ((_ : preserves (keeps _) _) _ _ _ He). unfold upd_act. preserve. by apply preserves_modify.
Qed.

(** What [pop_restofstack] leaves to be replayed: nothing behind the head, or one node. *)
Lemma pop_restofstack_next numAhead s s' freed :
  (-1 ≤ ns_head_idx s)%Z → pop_restofstack numAhead s = Ok (s', freed) →
  ns_head_idx s' = ns_head_idx s ∧
  ns_node_list s' = take (Z.to_nat (ns_head_idx s + numAhead)) (ns_node_list s) ∧
  (numAhead = 1%Z → get_next s' = Ok None) ∧
  (numAhead = 2%Z → ∀ n, get_next s = Ok (Some n) → get_next s' = Ok (Some n)).
Proof.
  intros Hhead H. unfold pop_restofstack in H.
  destruct (Z.ltb_spec (ns_head_idx s + numAhead) 1); [done|].
  destruct (Z.ltb_spec (Z.of_nat (length (ns_node_list s))) (ns_head_idx s + numAhead)); [done|]. simpl in H.
  destruct (delete_nodes _ _) as [mm fr]. simplify_res. split_and!; [done|done| |].
  - intros ->. unfold get_next. simpl. case_bool_decide; [done|].
    rewrite length_take_le by lia. by rewrite Nat.eqb_refl.
  - intros -> n. unfold get_next. simpl. case_bool_decide as E0; [done|].
    destruct (Nat.eqb_spec (Z.to_nat (ns_head_idx s + 1)) (length (ns_node_list s))); [done|].
    intros Hn. case_bool_decide as E1.
    { apply (f_equal length) in E1. rewrite length_take_le in E1 by lia. simpl in E1. lia. }
    rewrite length_take_le by lia.
    destruct (Nat.eqb_spec (Z.to_nat (ns_head_idx s + 1)) (Z.to_nat (ns_head_idx s + 2))); [lia|].
    unfold at_index in *. rewrite lookup_take_lt by lia. done.
Qed.

(** The recorded step that comes next: its node and action, linked to each other. *)
Record next_recorded (s : Exec) (n : ptr) (node : Node) (a : ModelAction) : Prop := {
  nr_next : get_next (x_stack s) = Ok (Some n);
  nr_head : (-1 ≤ ns_head_idx (x_stack s))%Z;
  nr_node : ns_nodes (x_stack s) !! n = Some node;
  nr_action : x_acts s !! n_action node = Some a;
  nr_link : a_node a = Some n;
  nr_parent : n_parent node ≠ Some n
}.

(** What happens at the divergence point. Either the recorded step takes its next
    behaviour: the same thread runs and that step alone is left to be replayed. Or its
    behaviours are exhausted: the thread goes to sleep, nothing is left to be replayed,
    and the first thread of the parent's backtracking set runs. *)
Definition diverges (s s' : Exec) (n : ptr) (node : Node) (a : ModelAction) (tid : thread_id_t) : Prop :=
  sc_curr_thread_index (x_sched s') = id_to_int tid ∧
  match increment_behaviors node with
  | (_, true) => tid = a_tid a ∧ get_next (x_stack s') = Ok (Some n) ∧
      ns_node_list (x_stack s') = take (Z.to_nat (ns_head_idx (x_stack s) + 2)) (ns_node_list (x_stack s))
  | (_, false) => get_next (x_stack s') = Ok None ∧
      ns_node_list (x_stack s') = take (Z.to_nat (ns_head_idx (x_stack s) + 1)) (ns_node_list (x_stack s)) ∧
      sc_enabled (x_sched s') !! id_to_int (a_tid a) = Some THREAD_SLEEP_SET ∧
      ∃ pn pnode, n_parent node = Some pn ∧ ns_nodes (x_stack s) !! pn = Some pnode ∧
        in_backtrack pnode tid ∧ ∀ t, in_backtrack pnode t → tid ≤ t
  end.

Lemma get_next_store_Node p x st : get_next (store_Node p x st) = get_next st.
Proof. done. Qed.

Lemma get_next_backtrack_min x x' tid :
  get_next_backtrack x = Ok (x', tid) → in_backtrack x tid ∧ ∀ t, in_backtrack x t → tid ≤ t.
Proof.
  unfold get_next_backtrack, in_backtrack. pose proof (first_true_spec (n_backtrack x) 0) as Hft.
  destruct (first_true (n_backtrack x) 0) as [k|]; [|done]. intros [= _ <-].
  destruct Hft as (_ & Hk & Hmin). rewrite Nat.sub_0_r in Hk. unfold int_to_id. split; [done|].
  intros t Ht. destruct (decide (k ≤ t)); [done|]. specialize (Hmin t ltac:(lia)). rewrite Nat.sub_0_r in Hmin. congruence.
Qed.

Lemma set_enabled_lookup tid st sc : sc_enabled (set_enabled tid st sc) !! id_to_int tid = Some st.
Proof.
  unfold set_enabled. simpl. rewrite list_lookup_insert_eq; [done|].
  destruct (Nat.leb_spec (length (sc_enabled sc)) (id_to_int tid)); rewrite ?length_grow; lia.
Qed.

Lemma same_thread_again_spec next s s' tid n a :
  x_acts s !! next = Some a → (-1 ≤ ns_head_idx (x_stack s))%Z → get_next (x_stack s) = Ok (Some n) →
  same_thread_again next s = Ok (s', tid) →
  tid = a_tid a ∧ get_next (x_stack s') = Ok (Some n) ∧ x_sched s' = x_sched s ∧
  ns_node_list (x_stack s') = take (Z.to_nat (ns_head_idx (x_stack s) + 2)) (ns_node_list (x_stack s)).
Proof.
  intros Ha Hh Hn H. unfold same_thread_again in H.
  apply exec_bind_Ok in H as (s1 & a1 & [-> Ha1]%act_at_Ok & H). assert (a1 = a) as -> by congruence.
  apply exec_bind_Ok in H as (s1 & ? & [= <- <-] & H).
  apply exec_bind_Ok in H as (s1 & [ns freed] & [-> Hp]%lift_Ok & H). injection H as <- <-.
  apply pop_restofstack_next in Hp as (_ & Hl & _ & H2); [|done]. simpl. auto.
Qed.

Lemma another_thread_spec next prevnode s s' tid a :
  x_acts s !! next = Some a → (-1 ≤ ns_head_idx (x_stack s))%Z → another_thread next prevnode s = Ok (s', tid) →
  get_next (x_stack s') = Ok None ∧
  ns_node_list (x_stack s') = take (Z.to_nat (ns_head_idx (x_stack s) + 1)) (ns_node_list (x_stack s)) ∧
  x_sched s' = add_sleep (a_tid a) (x_sched s) ∧
  ∃ pn pnode, prevnode = Some pn ∧ ns_nodes (x_stack s) !! pn = Some pnode ∧
    in_backtrack pnode tid ∧ ∀ t, in_backtrack pnode t → tid ≤ t.
Proof.
  intros Ha Hh H. unfold another_thread in H. destruct prevnode as [pn|]; [|done].
  apply exec_bind_Ok in H as (s1 & ? & [= <- <-] & H).
  apply exec_bind_Ok in H as (s1 & a1 & [-> Ha1]%act_at_Ok & H). assert (a1 = a) as -> by congruence.
  apply exec_bind_Ok in H as (s1 & ? & [= <- _] & H).
  apply exec_bind_Ok in H as (s1 & pnode & [-> Hpn]%Node_at_Ok & H).
  apply exec_bind_Ok in H as (s1 & [pnode' tid'] & [-> Hbt]%lift_Ok & H).
  apply exec_bind_Ok in H as (s1 & ? & [= <- _] & H). apply exec_bind_Ok in H as (s1 & ? & [= <- <-] & H).
  apply exec_bind_Ok in H as (s1 & [ns freed] & [-> Hp]%lift_Ok & H). injection H as <- <-.
  apply pop_restofstack_next in Hp as (_ & Hl & H1 & _); [|done]. simpl.
  split_and!; auto. exists pn, pnode. split_and!; auto; by apply get_next_backtrack_min in Hbt as [? ?].
Qed.

Lemma note_earliest_exec next m m' u : note_earliest next m = Ok (m', u) → mc_execution m' = mc_execution m.
Proof.
  unfold note_earliest. intros (m1 & ? & [= <- <-] & H)%mc_bind_Ok. apply mc_bind_Ok in H as (m2 & b & Hb & H).
  assert (mc_execution m2 = mc_execution m) as <- by
    (destruct (mc_earliest_diverge m); [|by injection Hb as <-]; apply on_exec_Ok in Hb as (s & Hs & ->);
     refine ((_ : preserves (keeps (λ s, s)) _) _ _ _ Hs); unfold seq_before; preserve).
  destruct b; by injection H as <-.
Qed.

Lemma retract_earliest_exec prevnode m m' u :
  retract_earliest prevnode m = Ok (m', u) → mc_execution m' = mc_execution m.
Proof.
  unfold retract_earliest. intros (m1 & ? & [= <- <-] & H)%mc_bind_Ok. case_bool_decide; [|by injection H as <-].
  apply mc_bind_Ok in H as (m2 & x & (s & Hs & ->)%on_exec_Ok & [= <-]).
  refine ((_ : preserves (keeps (λ s, s)) _) _ _ _ Hs). preserve.
Qed.

Lemma inherit_sleep_set_Ok prevnode s s' u :
  inherit_sleep_set prevnode s = Ok (s', u) → ∃ sc, s' = put_sched sc s.
Proof.
  unfold inherit_sleep_set. destruct prevnode; [|done]. intros (t1 & ? & [= <- <-] & H)%exec_bind_Ok.
  apply exec_bind_Ok in H as (t1 & ? & [-> _]%Node_at_Ok & H). apply exec_bind_Ok in H as (t1 & ? & [= <- <-] & H).
  apply exec_bind_Ok in H as (t1 & sc & [-> _]%lift_Ok & [= <-]). by exists sc.
Qed.

Lemma get_node_of_Ok p s s' n n' a :
  x_acts s !! p = Some a → a_node a = Some n → get_node_of p s = Ok (s', n') → s' = s ∧ n' = n.
Proof.
  intros Ha Hn H. unfold get_node_of, get_node in H.
  apply exec_bind_Ok in H as (t1 & a1 & [-> Ha1]%act_at_Ok & H). assert (a1 = a) as -> by congruence.
  apply exec_bind_Ok in H as (t1 & on & [-> Hon]%lift_Ok & H). simplify_res. rewrite Hn in H. by injection H as <- <-.
Qed.

Lemma diverge_here_spec next m m' tid n node a :
  next_recorded (mc_execution m) n node a → n_action node = next → diverge_here next m = Ok (m', tid) →
  mc_diverge m' = None ∧ diverges (mc_execution m) (mc_execution m') n node a tid.
Proof.
  intros [Hnext Hhead Hnode Hact Hlink Hpar] <- H. unfold diverge_here in H.
  apply mc_bind_Ok in H as (m1 & ? & E1%note_earliest_exec & H).
  apply mc_bind_Ok in H as (m3 & nn & (s3 & Hs3 & ->)%on_exec_Ok & H). rewrite E1 in Hs3.
  apply (get_node_of_Ok _ _ _ n _ a) in Hs3 as [-> ->]; [|done..].
  apply mc_bind_Ok in H as (m4 & nd & (s4 & [-> Hs4]%Node_at_Ok & ->)%on_exec_Ok & H).
  simpl in Hs4. assert (nd = node) as -> by congruence.
  apply mc_bind_Ok in H as (m5 & ? & (s5 & [sc ->]%inherit_sleep_set_Ok & ->)%on_exec_Ok & H).
  destruct (increment_behaviors node) as [node' more] eqn:Einc.
  apply mc_bind_Ok in H as (m6 & ? & (s6 & [= <- _] & ->)%on_exec_Ok & H). simpl in H.
  apply mc_bind_Ok in H as (m7 & tid' & H7 & H).
  apply mc_bind_Ok in H as (m8 & ? & (s8 & [= <- _] & ->)%on_exec_Ok & H).
  apply mc_bind_Ok in H as (m9 & ? & H9 & H). apply mc_bind_Ok in H as (m10 & ? & [= <-] & [= <- <-]).
  split; [done|]. apply keeps_execute_sleep_set in H9 as (Est & Esc & _). simpl in Est, Esc.
  unfold diverges. simpl. rewrite Einc, Esc, Est. simpl. split; [done|]. destruct more.
  - apply on_exec_Ok in H7 as (s7 & H7 & ->).
    apply (same_thread_again_spec _ _ _ _ n a) in H7 as (-> & Hn & _ & Hl); done.
  - apply mc_bind_Ok in H7 as (m7' & tid1 & (s7 & H7 & ->)%on_exec_Ok & H7').
    apply (another_thread_spec _ _ _ _ _ a) in H7 as (Hn & Hl & Hsc & pn & pnode & Hp & Hpn & Hbt & Hmin); [|done..].
    apply mc_bind_Ok in H7' as (m12 & ? & E7%retract_earliest_exec & [= <- <-]).
    rewrite E7 in *. simpl in *. split_and!; [done|done| |].
    + rewrite Hsc. apply set_enabled_lookup.
    + exists pn, pnode. split_and!; [done| |done|done]. unfold store_Node in Hpn. simpl in Hpn.
      rewrite lookup_insert_ne in Hpn; [done|]. congruence.
Qed.

(** ** Properties *)





(** Rolling back. [backTrackBeforeStep] restores the newest snapshot if that one is old
    enough, and never anything else: where it has to go back further, its loop counts in
    the wrong direction and reads past the end of the vector it has just shortened. *)
Theorem backTrackBeforeStep_exact {A} seqindex (stack : list (snapshot_entry A)) :
  backTrackBeforeStep seqindex stack =
    match last stack with
    | None => Err AssertFailed
    | Some e => if (sn_index e <=? seqindex)%Z then Ok (stack, e) else Err OutOfBounds
    end.
Proof. apply backTrackBeforeStep_spec. Qed.
