(* ===== verification/SnapshotStack.v ===== *)
(** * Snapshots of whole executions (snapshot-interface.cc on snapshot.cc)

    The driver records one snapshot before the first execution and goes back to it after
    every execution. This file puts the stack of snapshots of snapshot-interface.cc, which
    Model uses with copies of states, on top of the interface of the snapshots, and so of
    both of its implementations. *)

From Stdlib Require Import Ascii String.
From S2P Require Import Prelude HashTable SnapshotSpec Snapshot ForkSnapshot Model Exploration CStrings.

(** ** Page alignment and the heaps (snapshot.cc) *)

Definition PageAlignAddressUpward (addr : N) : N := N.ldiff (wrap64 (addr + PAGESIZE - 1)) (PAGESIZE - 1).
Definition ReturnPageAlignedAddress (addr : N) : N := N.ldiff addr (PAGESIZE - 1).

(** The page of an address, by which Snapshot knows it. *)
Definition page_of (addr : N) : N := (addr / PAGESIZE)%N.

(** [mprot_snapshot_init] allocates a page more than the heap has, and registers the pages
    after the first page boundary in the block. *)
Definition heap_region (block : N) (numheappages : nat) : N * nat := (page_of (PageAlignAddressUpward block), numheappages).

(** [mprot_snapshot_init], given the blocks that [model_malloc] returns for the signal stack
    and the two heaps: the handler is called once, for the signal stack, and the page it
    copied is dropped. *)
Definition mprot_snapshot_init {page} (numbackingpages numsnapshots nummemoryregions numheappages : nat)
    (sigstack user_block model_block : N) (mem : gmap N page) : result (machine page) :=
  let m := mkMachine mem ∅ (new_mprot_snapshotter numbackingpages numsnapshots nummemoryregions) in
  m ← mprot_handle_pf (page_of (ReturnPageAlignedAddress (PageAlignAddressUpward sigstack))) m;
  let x := m_snap m in
  let m := put_snap (put_backing (removelast (backingStore x)) x) m in
  m ← mprot_add_to_snapshot (heap_region user_block numheappages).1 numheappages m;
  mprot_add_to_snapshot (heap_region model_block numheappages).1 numheappages m.

Lemma ldiff_page n : N.ldiff n (PAGESIZE - 1) = (n / PAGESIZE * PAGESIZE)%N.
Proof.
  change (PAGESIZE - 1)%N with (N.ones 12). rewrite N.ldiff_ones_r, N.shiftl_mul_pow2, N.shiftr_div_pow2. done.
Qed.

(** The fault handler copies the page that holds the address. *)
Lemma ReturnPageAlignedAddress_page addr : ReturnPageAlignedAddress addr = (page_of addr * PAGESIZE)%N.
Proof. apply ldiff_page. Qed.

(** The registered pages lie inside the block. *)
Lemma heap_region_inside block n p :
  (block + N.of_nat (n + 1) * PAGESIZE ≤ 2 ^ 64)%N → p ∈ region_pages (heap_region block n) →
  (block ≤ p * PAGESIZE ∧ (p + 1) * PAGESIZE ≤ block + N.of_nat (n + 1) * PAGESIZE)%N.
Proof.
  intros Hb Hp. unfold region_pages, heap_region in Hp. simpl in Hp. apply list_elem_of_fmap in Hp as (i & -> & Hi%elem_of_seq).
  unfold page_of, PageAlignAddressUpward, wrap64. rewrite N.mod_small by (unfold PAGESIZE in *; lia). rewrite ldiff_page.
  rewrite N.div_mul by done. unfold PAGESIZE in *. pose proof (N.div_mod (block + 4096 - 1) 4096 ltac:(done)) as Hd.
  pose proof (N.mod_lt (block + 4096 - 1) 4096 ltac:(done)) as Hm.
  set (q := ((block + 4096 - 1) / 4096)%N) in *. set (r := ((block + 4096 - 1) mod 4096)%N) in *. clearbody q r. lia.
Qed.

(** The system after [mprot_snapshot_init]. *)
Lemma mprot_snapshot_init_spec {page} backing_pages snapshots regions n sigstack user model (mem : gmap N page) :
  is_Some (mem !! page_of (ReturnPageAlignedAddress (PageAlignAddressUpward sigstack))) → 0 < backing_pages → 2 ≤ regions →
  mprot_snapshot_init backing_pages snapshots regions n sigstack user model mem =
    Ok (set_up mem [heap_region user n; heap_region model n] backing_pages snapshots regions).
Proof.
  intros [c Hc] Hb Hr. unfold mprot_snapshot_init, mprot_handle_pf. simpl m_pages. rewrite Hc. simpl.
  destruct backing_pages as [|b]; [lia|]. destruct regions as [|[|r]]; [lia..|]. simpl. unfold set_up, put_snap, put_regions. simpl.
  replace (∅ ∖ _ : gset N) with (∅ : gset N) by set_solver. done.
Qed.

(** ** The regions of the globals (snapshot-interface.cc) *)

(** [get_binary_name], given the target of the link: [readlink] stores at most [len]
    characters, and the NUL goes behind them. *)
Definition get_binary_name (len : nat) (target : cstr) : result cstr :=
  let size := min (length target) len in
  if size <? len then Ok (take size target) else Err OutOfBounds.

(** A line of the file of mappings, as [sscanf] takes it apart. *)
Record mapping := mkMapping { mp_begin : N; mp_end : N; mp_w : ascii; mp_name : cstr }.

(** [strstr(s, t) != NULL]. *)
Fixpoint has_prefix (t s : cstr) : bool :=
  match t, s with [], _ => true | c :: t, d :: s => bool_decide (c = d) && has_prefix t s | _, _ => false end.
Fixpoint strstr (s t : cstr) : bool :=
  has_prefix t s || match s with [] => false | _ :: s => strstr s t end.

(** The name is read with %200s into an array of 200 characters. *)
Definition snapshot_mapping {page} (binary_name : cstr) (e : mapping) (m : machine page) : result (machine page) :=
  regionname ← in_buffer 200 (take 200 (mp_name e));
  if bool_decide (mp_w e = "w"%char) && strstr regionname binary_name then
    let len := ((mp_end e - mp_begin e) / PAGESIZE)%N in
    if (len =? 0)%N then Ok m else mprot_add_to_snapshot (page_of (mp_begin e)) (N.to_nat len) m
  else Ok m.
Definition SnapshotGlobalSegments {page} (target : cstr) (map : list mapping) (m : machine page) : result (machine page) :=
  binary_name ← get_binary_name 800 target;
  foldM (snapshot_mapping binary_name) map m.

(** The regions it registers: the writable mappings of the binary. *)
Definition global_regions (target : cstr) (map : list mapping) : list (N * nat) :=
  omap (λ e, if bool_decide (mp_w e = "w"%char) && strstr (mp_name e) target && negb ((mp_end e - mp_begin e) / PAGESIZE =? 0)%N
             then Some (page_of (mp_begin e), N.to_nat ((mp_end e - mp_begin e) / PAGESIZE)) else None) map.

Lemma snapshot_mapping_spec {page} target e (m : machine page) :
  length (mp_name e) < 200 → snapshot_mapping target e m = add_regions (global_regions target [e]) m.
Proof.
  intros He. unfold snapshot_mapping, in_buffer. rewrite take_ge by lia. rewrite (proj2 (Nat.ltb_lt _ _)) by done.
  cbn [mbind result_bind]. unfold global_regions. cbn [omap list_omap].
  destruct (bool_decide (mp_w e = _)); simpl; [|done]. destruct (strstr _ _); simpl; [|done].
  destruct (_ =? 0)%N; simpl; [done|]. unfold add_regions. cbn [foldM]. by destruct (mprot_add_to_snapshot _ _ m).
Qed.

Lemma SnapshotGlobalSegments_spec {page} target map (m : machine page) :
  length target < 800 → Forall (λ e, length (mp_name e) < 200) map →
  SnapshotGlobalSegments target map m = add_regions (global_regions target map) m.
Proof.
  intros Ht Hm. unfold SnapshotGlobalSegments, get_binary_name. rewrite Nat.min_l by lia. rewrite (proj2 (Nat.ltb_lt _ _)) by done.
  rewrite firstn_all. cbn [mbind result_bind]. revert m. induction Hm as [|e map He _ IH]; intros m; [done|].
  cbn [foldM]. rewrite snapshot_mapping_spec by done.
  assert (global_regions target (e :: map) = global_regions target [e] ++ global_regions target map) as -> by apply (omap_app _ [e] map).
  unfold add_regions. rewrite foldM_app. destruct (foldM _ (global_regions target [e]) m) as [m'|]; [apply IH|done].
Qed.

(** A name of 200 characters leaves no room for the NUL. *)
Lemma long_name_overflows {page} target e (m : machine page) :
  200 ≤ length (mp_name e) → snapshot_mapping target e m = Err OutOfBounds.
Proof.
  intros He. unfold snapshot_mapping, in_buffer. rewrite length_take, Nat.min_l by done. done.
Qed.

(** ** The stack of snapshots *)

Section stack.
Context {M page : Type} `{SnapshotSystem M page}.

(** The memory, and [snap_stack], whose entries hold snapshot identifiers. *)
Record memory_system := mkMemory { ms_machine : M; ms_stack : list (snapshot_entry nat) }.

Definition snapshotStep (seqindex : Z) (x : memory_system) : result memory_system :=
  '(m, id) ← ss_take_snapshot (ms_machine x);
  Ok (mkMemory m (ms_stack x ++ [mkSnapshot id seqindex])).
Definition backtrack_memory (seqindex : Z) (x : memory_system) : result memory_system :=
  '(stack, e) ← backTrackBeforeStep seqindex (ms_stack x);
  m ← ss_roll_back (sn_state e) (ms_machine x);
  Ok (mkMemory m stack).

(** The writes of an execution, and the reset to the initial state after it. *)
Definition run_writes (ws : list (N * page)) (x : memory_system) : result memory_system :=
  m ← run_ops (map (λ '(p, c), Write p c) ws) (ms_machine x); Ok (mkMemory m (ms_stack x)).
Definition run_execution (ws : list (N * page)) (x : memory_system) : result memory_system :=
  x ← run_writes ws x; backtrack_memory 0 x.
End stack.
Arguments memory_system : clear implicits.

(** ** Every execution starts from the memory of the snapshot *)

Section executions.
Context {M page : Type} `{SnapshotLaws M page scope depth rep}.
Context (mem : gmap N page).
Implicit Types (x : memory_system M) (ws : list (N * page)) (pages : gmap N page).

(** At the start of an execution: the memory that is rolled back is that of the snapshot,
    the only one. *)
Record at_start x : Prop := {
  as_stack : ms_stack x = [mkSnapshot 0 0%Z];
  as_memory : ∃ pages, rep (mkImages pages [mem]) (ms_machine x);
  as_pages : ∀ p, scope p → ss_pages (ms_machine x) !! p = mem !! p;
  as_mapped : ∀ p, is_Some (mem !! p) ↔ is_Some (ss_pages (ms_machine x) !! p)
}.

Definition writes_of ws : list snap_op := map (λ '(p, c), Write p c) ws.
Definition after_writes pages ws : gmap N page := foldl (λ g '(p, c), <[p := c]> g) pages ws.
Definition mapped_writes pages ws : Prop := Forall (λ w : N * page, is_Some (pages !! w.1)) ws.

Lemma spec_writes ws pages taken :
  spec_run scope (writes_of ws) (mkImages pages taken) = mkImages (after_writes pages ws) taken.
Proof. revert pages. induction ws as [|[p c] ws IH]; intros pages; [done|]. simpl. apply IH. Qed.

Lemma insert_mapped pages p q (c : page) : is_Some (pages !! q) → is_Some (<[q := c]> pages !! p) ↔ is_Some (pages !! p).
Proof. intros Hq. destruct (decide (p = q)) as [->|]; [rewrite lookup_insert_eq; split; [done|by eexists]|by rewrite lookup_insert_ne]. Qed.
Lemma mapped_writes_cons pages q c ws : mapped_writes pages ((q, c) :: ws) → is_Some (pages !! q) ∧ mapped_writes (<[q := c]> pages) ws.
Proof.
  intros [Hq Hws]%Forall_cons. split; [done|]. eapply Forall_impl; [exact Hws|]. intros [r d] Hr. by apply insert_mapped.
Qed.

Lemma after_writes_mapped ws : ∀ pages p, mapped_writes pages ws → is_Some (after_writes pages ws !! p) ↔ is_Some (pages !! p).
Proof.
  induction ws as [|[q c] ws IH]; intros pages p Hws; [done|]. apply mapped_writes_cons in Hws as [Hq Hws]. simpl.
  by rewrite IH, insert_mapped.
Qed.
Lemma valid_writes ws : ∀ pages taken, mapped_writes pages ws → ops_valid scope depth (writes_of ws) (mkImages pages taken).
Proof.
  induction ws as [|[q c] ws IH]; intros pages taken Hws; [done|]. apply mapped_writes_cons in Hws as [Hq Hws].
  split; [done|]. by apply IH.
Qed.

Lemma run_execution_start ws x : at_start x → mapped_writes mem ws → ∃ x', run_execution ws x = Ok x' ∧ at_start x'.
Proof.
  intros [Hst (pages & Hr) Hp Hmap] Hws. pose proof (sl_pages _ _ Hr) as Epages. simpl in Epages.
  assert (mapped_writes pages ws) as Hws' by (eapply Forall_impl; [exact Hws|]; intros w; by rewrite Hmap, Epages).
  destruct (run_ops_refine (writes_of ws) _ _ Hr (valid_writes ws pages [mem] Hws')) as (m1 & Hrun & Hr1). rewrite spec_writes in Hr1.
  destruct (sl_roll_back _ m1 0 Hr1) as (m2 & Hrun2 & Hr2); [simpl; lia|]. simpl in Hr2.
  exists (mkMemory m2 [mkSnapshot 0 0%Z]). split.
  - unfold run_execution, run_writes. fold (writes_of ws). rewrite Hrun. cbn [mbind result_bind]. unfold backtrack_memory. simpl ms_stack.
    rewrite Hst, backTrackBeforeStep_spec. simpl. by rewrite Hrun2.
  - pose proof (sl_pages _ _ Hr2) as E2. simpl in E2. split; simpl; [done|by eexists| |].
    + intros p Hpr. rewrite E2, lookup_back_to. by rewrite decide_True.
    + intros p. rewrite E2, lookup_back_to. case_decide as Hpr; [done|]. rewrite after_writes_mapped by done. rewrite <- Epages. apply Hmap.
Qed.

Lemma run_executions_start (wss : list (list (N * page))) : ∀ x,
  at_start x → Forall (mapped_writes mem) wss → ∃ x', foldM run_execution wss x = Ok x' ∧ at_start x'.
Proof.
  induction wss as [|ws wss IH]; intros x Hx Hws; [by exists x|]. apply Forall_cons in Hws as [Hw Hws].
  destruct (run_execution_start ws x Hx Hw) as (x1 & Hrun & Hx1).
  destruct (IH x1 Hx1 Hws) as (x' & Hrun' & Hx'). exists x'. split; [|done]. cbn [foldM]. by rewrite Hrun.
Qed.

Lemma first_snapshot m :
  rep (mkImages mem []) m → 1 ≤ depth → ∃ x, snapshotStep 0 (mkMemory m []) = Ok x ∧ at_start x.
Proof.
  intros Hm Hd. destruct (sl_take _ _ Hm) as (m' & Hrun & Hm'); [done|]. pose proof (sl_pages _ _ Hm') as Ep. simpl in Ep.
  exists (mkMemory m' [mkSnapshot 0 0%Z]). split; [unfold snapshotStep; simpl ms_machine; by rewrite Hrun|].
  split; simpl; [done|by eexists|by intros; rewrite Ep|by intros; rewrite Ep].
Qed.

(** The program: one snapshot, then executions. *)
Lemma executions_start m (wss : list (list (N * page))) :
  rep (mkImages mem []) m → 1 ≤ depth → Forall (mapped_writes mem) wss →
  ∃ x, (x ← snapshotStep 0 (mkMemory m []); foldM run_execution wss x) = Ok x ∧
    ∀ p, scope p → ss_pages (ms_machine x) !! p = mem !! p.
Proof.
  intros Hm Hd Hws. destruct (first_snapshot m Hm Hd) as (x0 & Hx0 & Hs0).
  destruct (run_executions_start wss x0 Hs0 Hws) as (x & Hx & Hend). exists x. rewrite Hx0. split; [exact Hx|]. apply Hend.
Qed.
End executions.


(** Heaps of a page each, a page of globals, and a signal stack on a page of its own;
    three executions write more often than there are backing pages. *)
Definition small_memory : gmap N N := {[ 16%N := 1%N; 17%N := 2%N; 18%N := 3%N; 32%N := 4%N ]}.
Definition small_map : list mapping :=
  [mkMapping 69632 73728 "-"%char (lit "/usr/bin/prog"); mkMapping 73728 77824 "w"%char (lit "/usr/bin/prog"); mkMapping 131072 135168 "w"%char []].


(** The same holds of the implementation by processes, with one process that waits. *)
Lemma executions_start_from_process {page} (mem shared : gmap N page) base size (wss : list (list (N * page))) limit :
  1 ≤ limit → Forall (mapped_writes (shared ∪ mem)) wss →
  ∃ x, (x ← snapshotStep 0 (mkMemory (fork_snapshot_init base size mem shared limit) []); foldM run_execution wss x) = Ok x ∧
    ∀ p, p ∉ dom shared → fork_pages (ms_machine x) !! p = mem !! p.
Proof.
  intros Hl Hws. destruct (executions_start (rep := fork_rep (dom shared) 1) (shared ∪ mem) (fork_snapshot_init base size mem shared limit) wss)
    as (x & Hx & Hp); [by apply fork_init_rep|done|done|]. exists x. split; [done|]. intros p Hsh.
  specialize (Hp p Hsh). simpl in Hp. rewrite Hp. apply lookup_union_r. by apply not_elem_of_dom.
Qed.
