(* ===== verification/Execution.v ===== *)
(** * Properties of ModelExecution (execution.cc)

    What the handlers of one step guarantee: happens-before only grows, building the
    may-read-from set leaves the modification order as it was, mutexes are handed over
    one thread at a time, release sequence heads are releases that no foreign write can
    separate from the store read, and the situations in which the checker itself stops
    at an assertion or leaves an array. *)

From S2P Require Import Prelude ClockVector Action HashTable Promise CycleGraph NodeStack Schedule DataRace ExecState ModOrder Step Evolution Scenarios.

(** ** Happens-before *)

Lemma hb_Ok p q s s' r :
  hb p q s = Ok (s', r) ↔ s' = s ∧ ∃ a b c, x_acts s !! p = Some a ∧ x_acts s !! q = Some b ∧
    a_cv b = Some c ∧ r = synchronized_since c (a_tid a) (a_seq_number a).
Proof.
  split.
  - intros H. unfold hb, act_at in H. inv_exec. unfold happens_before in *. simplify_res. naive_solver.
  - intros (-> & a & b & c & H1 & H2 & H3 & ->). unfold hb, act_at, happens_before.
    unfold mbind, exec_bind, get, derefM, lift. rewrite H1. simpl. rewrite H2. simpl. by rewrite H3.
Qed.

Lemma synchronized_since_mono c d t n :
  c ⊑cv d → num_threads c ≤ num_threads d →
  synchronized_since c t n = true → synchronized_since d t n = true.
Proof.
  unfold synchronized_since, num_threads. intros Hle Hlen H. specialize (Hle t). unfold getClock in Hle.
  destruct (clock c !! id_to_int t) as [x|] eqn:E; [|done].
  destruct (lookup_lt_is_Some_2 (clock d) (id_to_int t)) as [y Hy].
  { apply lookup_lt_Some in E. lia. }
  rewrite Hy in Hle |- *. apply N.leb_le in H. apply N.leb_le. lia.
Qed.

Lemma evolves_hb s s' p q :
  evolves s s' → hb p q s = Ok (s, true) → hb p q s' = Ok (s', true).
Proof.
  intros Hev (_ & a & b & c & Ha & Hb & Hc & Hr)%hb_Ok. apply hb_Ok. split; [done|].
  destruct (ev_acts _ _ Hev _ _ Ha) as (a' & Ha' & []), (ev_acts _ _ Hev _ _ Hb) as (b' & Hb' & []).
  rewrite Hc in ae_cv0. destruct ae_cv0 as (d & Hd & Hle & Hlen).
  exists a', b', d. split_and!; [done..|]. rewrite ae_tid, ae_seq. symmetry.
  by eapply synchronized_since_mono.
Qed.

(** ** Lists of past actions *)

Lemma find_act_Ok f l s s' r :
  find_act f l s = Ok (s', r) →
  s' = s ∧
  match r with
  | Some p => ∃ l1 l2 a, l = l1 ++ p :: l2 ∧ x_acts s !! p = Some a ∧ f p a = true ∧
      ∀ q b, q ∈ l1 → x_acts s !! q = Some b → f q b = false
  | None => ∀ q b, q ∈ l → x_acts s !! q = Some b → f q b = false
  end.
Proof.
  unfold find_act. revert s s' r. induction l as [|x l IH]; intros s s' r H; cbn [search] in H.
  - inv_exec. split; [done|]. set_solver.
  - unfold act_at in H. inv_exec. match goal with H : x_acts _ !! x = Some ?u |- _ => rename u into ax, H into Hx end.
    destruct (f x ax) eqn:Hf.
    + inv_exec. split; [done|]. exists [], l, ax. split_and!; [done..|]. set_solver.
    + match goal with H : search _ _ _ = Ok _ |- _ => apply IH in H as [-> Hr] end. split; [done|].
      destruct r as [p|].
      * destruct Hr as (l1 & l2 & b & -> & Hb & Hfb & Hl1). exists (x :: l1), l2, b. split_and!; [done..|].
        intros q c [->|?]%elem_of_cons ?; [congruence|eauto].
      * intros q c [->|?]%elem_of_cons ?; [congruence|eauto].
Qed.

Lemma from_elem_Some p l x l' :
  from_elem p l = x :: l' → ∃ l0, x = p ∧ l = l0 ++ p :: l' ∧ p ∉ l0.
Proof.
  induction l as [|y l IH]; cbn [from_elem]; [done|]. case_bool_decide as Hy.
  - intros [= <- <-]. exists []. subst. split_and!; [done..|set_solver].
  - intros (l0 & -> & -> & Hn)%IH. exists (y :: l0). split_and!; [done..|set_solver].
Qed.

Lemma from_elem_rev p l x l' :
  from_elem p (rev l) = x :: l' → x = p ∧ ∃ l2, l = rev l' ++ p :: l2 ∧ p ∉ l2.
Proof.
  intros (l0 & -> & Hl & Hn)%from_elem_Some. split; [done|]. exists (rev l0). split.
  - rewrite <- (rev_involutive l), Hl, rev_app_distr. simpl. by rewrite <- app_assoc.
  - by rewrite elem_of_rev.
Qed.

(** ** Synchronization *)

Definition same_acts (s s' : Exec) : Prop := x_acts s' = x_acts s.
#[global] Instance same_acts_preorder : PreOrder same_acts.
Proof. split; red; unfold same_acts; congruence. Qed.

Lemma same_acts_check_promises t c c' : preserves same_acts (check_promises t c c').
Proof. unfold check_promises, store_prom. preserve; by apply preserves_modify. Qed.

(** ** Mutexes *)

Lemma keeps_synchronize {A} (f : Exec → A) a b :
  (∀ m s, f (put_acts m s) = f s) → (∀ m s, f (put_proms m s) = f s) →
  (∀ m s, f (put_failed_promise m s) = f s) → (∀ m s, f (put_bad_synchronization m s) = f s) →
  preserves (keeps f) (synchronize a b).
Proof.
  intros H1 H2 H3 H4. unfold synchronize, check_promises, store_prom, set_bad_synchronization, on_act. preserve.
  all: apply preserves_modify; intros s; unfold keeps; auto.
Qed.

Lemma keeps_assert_bug {A} (f : Exec → A) b :
  (∀ m s, f (put_bugs m s) = f s) → (∀ m s, f (put_asserted m s) = f s) →
  preserves (keeps f) (assert_bug b).
Proof.
  intros H1 H2. unfold assert_bug, set_assert. preserve.
  all: apply preserves_modify; intros s; unfold keeps; auto.
Qed.

Lemma keeps_mutexes_wake t : preserves (keeps x_mutexes) (scheduler_wake t).
Proof. unfold scheduler_wake, store_thread. keep. Qed.
Lemma keeps_mutexes_sleep t : preserves (keeps x_mutexes) (scheduler_sleep t).
Proof. unfold scheduler_sleep, store_thread, check_promises_thread_disabled. keep. Qed.
#[local] Hint Resolve keeps_mutexes_wake keeps_mutexes_sleep : cds.

Definition locked_by (t : option thread_id_t) (m : mutex_state) : mutex_state :=
  mkMutexState t (ms_alloc_tid m) (ms_alloc_clock m).

Lemma process_lock_mutexes curr c m s s' r :
  x_acts s !! curr = Some c → x_mutexes s !! get_mutex c = Some m →
  process_lock curr s = Ok (s', r) →
  x_mutexes s' = <[get_mutex c := locked_by (Some (a_tid c)) m]> (x_mutexes s) ∧
  x_thread_map s' = x_thread_map s.
Proof.
  intros Hc Hm. unfold process_lock. intros (s1 & c1 & [-> Hc1]%act_at_Ok & H)%exec_bind_Ok.
  assert (c1 = c) as -> by congruence.
  apply exec_bind_Ok in H as (s1 & m1 & [-> Hm1]%mutex_at_Ok & H). assert (m1 = m) as -> by congruence.
  apply exec_bind_Ok in H as (s1 & cv & [-> _]%lift_Ok & H).
  apply exec_bind_Ok in H as (s1 & u & Hbug & H).
  assert (x_mutexes s1 = x_mutexes s ∧ x_thread_map s1 = x_thread_map s) as [E1 E2].
  { destruct (_ <=? _)%N; [|by inv_exec]. split.
    - by eapply (keeps_assert_bug x_mutexes).
    - by eapply (keeps_assert_bug x_thread_map). }
  apply exec_bind_Ok in H as (s2 & [] & [= <-] & H).
  apply exec_bind_Ok in H as (s2 & u' & Hu & H).
  pose proof (preserves_last_unlock (keeps x_mutexes) _ _ _ _ Hu) as K1.
  pose proof (preserves_last_unlock (keeps x_thread_map) _ _ _ _ Hu) as K2.
  unfold keeps in K1, K2. cbn in K1, K2. rewrite E1 in K1. rewrite E2 in K2. unfold locked_by. rewrite <- K1, <- K2.
  destruct u' as [u'|]; [|by injection H as <- _].
  apply exec_bind_Ok in H as (s3 & b & Hsy & [= <- _]). split.
  - by apply (keeps_synchronize x_mutexes) in Hsy.
  - by apply (keeps_synchronize x_thread_map) in Hsy.
Qed.

Lemma process_unlock_mutexes toa curr c m s s' r :
  x_acts s !! curr = Some c → x_mutexes s !! get_mutex c = Some m →
  process_unlock toa curr s = Ok (s', r) →
  x_mutexes s' = <[get_mutex c := locked_by None m]> (x_mutexes s).
Proof.
  intros Hc Hm. unfold process_unlock. intros (s1 & c1 & [-> Hc1]%act_at_Ok & H)%exec_bind_Ok.
  assert (c1 = c) as -> by congruence.
  apply exec_bind_Ok in H as (s1 & s0 & Hs0 & H). injection Hs0 as <- <-.
  apply exec_bind_Ok in H as (s1 & u & Hloop & H).
  assert (keeps x_mutexes s s1) as K1.
  { eapply preserves_for_each, Hloop; [apply _|]. intros i. cbv beta zeta. preserve. }
  unfold keeps in K1. apply exec_bind_Ok in H as (s2 & m1 & [-> Hm1]%mutex_at_Ok & H).
  assert (m1 = m) as -> by congruence.
  apply exec_bind_Ok in H as (s2 & [] & [= <-] & H).
  change (x_mutexes s' = <[get_mutex c := locked_by None m]> (x_mutexes s)). rewrite <- K1.
  change (keeps x_mutexes (put_mutexes (<[get_mutex c := locked_by None m]> (x_mutexes s1)) s1) s').
  match goal with H : (if _ then _ else _) _ = Ok _ |- _ => revert H; match goal with |- ?m ?s0 = Ok (?t, ?v) → _ =>
    cut (preserves (keeps x_mutexes) m); [intros Hp; apply Hp|] end end.
  preserve. by apply preserves_modify.
Qed.

Lemma try_lock_mutexes toa curr c m s s' r :
  x_acts s !! curr = Some c → x_mutexes s !! get_mutex c = Some m → a_type c = ATOMIC_TRYLOCK →
  process_mutex toa curr s = Ok (s', r) →
  if bool_decide (ms_locked m = None)
  then x_mutexes s' = <[get_mutex c := locked_by (Some (a_tid c)) m]> (x_mutexes s) ∧
       th_last_action_val <$> get_thread s' (a_tid c) = Some 1%N
  else x_mutexes s' = x_mutexes s ∧ th_last_action_val <$> get_thread s' (a_tid c) = Some 0%N.
Proof.
  intros Hc Hm Hty. unfold process_mutex. intros (s1 & c1 & [-> Hc1]%act_at_Ok & H)%exec_bind_Ok.
  assert (c1 = c) as -> by congruence. rewrite Hty in H.
  apply exec_bind_Ok in H as (s1 & m1 & [-> Hm1]%mutex_at_Ok & H). assert (m1 = m) as -> by congruence.
  apply exec_bind_Ok in H as (s1 & [] & Hu & H). unfold upd_act in Hu.
  apply exec_bind_Ok in Hu as (s2 & c2 & [-> Hc2]%act_at_Ok & [= <-]). assert (c2 = c) as -> by congruence.
  apply exec_bind_Ok in H as (s1 & t & Ht & H). apply (preserves_thread_at eq) in Ht as <-.
  case_bool_decide; simpl in H; apply exec_bind_Ok in H as (s1 & u & [-> Hg]%store_thread_Ok & H).
  - apply (process_lock_mutexes curr (set_try_lock true c) m) in H as [E1 E2].
    + assert (get_mutex (set_try_lock true c) = get_mutex c) as Hgm
        by (unfold get_mutex, is_trylock, is_lock, is_unlock, is_wait, is_type; simpl; by rewrite Hty).
      rewrite Hgm in E1. split; [done|]. unfold get_thread in *. rewrite E2. by rewrite Hg.
    + simpl. by rewrite lookup_insert_eq.
    + unfold get_mutex, is_trylock, is_lock, is_unlock, is_wait, is_type in *. simpl. by rewrite Hty in *.
  - injection H as <- _. split; [done|]. exact (f_equal (fmap (M:=option) th_last_action_val) Hg).
Qed.

(** ** Release sequences *)

Lemma elem_of_zip_seq {A} (l : list A) i x : l !! i = Some x → (i, x) ∈ zip (seq 0 (length l)) l.
Proof.
  intros Hi. apply list_elem_of_lookup. exists i. apply lookup_zip_with_Some. exists i, x.
  split; [done|]. split; [|done]. apply lookup_seq. apply lookup_lt_Some in Hi. lia.
Qed.

Section release_sequences.
Context (s : Exec).

Definition mo (a b : ptr) : Prop := checkReachable (x_mo_graph s) (OAct a) (OAct b) = true.
Definition hbs (a b : ptr) : Prop := hb a b s = Ok (s, true).

(** [w] is reached from [rf] along the RMWs that read from one another. *)
Inductive rmw_chain : ptr → ptr → Prop :=
  | chain_here p : rmw_chain p p
  | chain_next p q r a : x_acts s !! p = Some a → is_rmw a = true → a_reads_from a = Some q →
      rmw_chain q r → rmw_chain p r.

(** A release on the chain, or the fence-release before a store of the chain. *)
Definition chain_head (rf h : ptr) : Prop :=
  ∃ w a, rmw_chain rf w ∧ x_acts s !! w = Some a ∧ is_write a = true ∧
    ((h = w ∧ is_release a = true) ∨ a_last_fence_release a = Some h).

(** The actions [l] of another thread on the object cannot separate [w] from the release
    [h]: after the last one ordered before [h], each is ordered after [w] or is no
    plain store, and a store the thread may still do will be ordered after [w]. *)
Record unbroken (h w : ptr) (i : nat) (l : list ptr) : Prop := {
  ub_past : ∃ old new, l = old ++ new ∧
    (old = [] ∨ ∃ old' x, old = old' ++ [x] ∧ (hbs x h ∨ mo x h)) ∧
    ∀ p, p ∈ new → hbs w p ∨ mo w p ∨ ∃ a, x_acts s !! p = Some a ∧ is_write a && negb (is_rmw a) = false;
  ub_future : (∃ p, get_last_action s i = Some p ∧ hbs w p) ∨ is_enabled s i = false ∨
    (∃ t, get_thread s i = Some t ∧ is_complete t = true) ∨ ∃ p, p ∈ l ∧ (hbs w p ∨ mo w p)
}.

(** A release by the thread of the store [w] that ends the chain, at or before [w], with
    no store of another thread in between. *)
Definition sequence_head (rf h : ptr) : Prop :=
  ∃ w a b vec l1 l2, rmw_chain rf w ∧ x_acts s !! w = Some a ∧ is_write a = true ∧
    x_acts s !! h = Some b ∧ is_release b = true ∧ a_tid b = a_tid a ∧
    x_obj_thrd_map s !! a_location a = Some vec ∧ vec !! id_to_int (a_tid a) = Some (l1 ++ h :: l2) ∧ w ∈ h :: l2 ∧
    ∀ i l, vec !! i = Some l → i ≠ id_to_int (a_tid a) → unbroken h w i l.

Lemma rmw_heads_spec fuel : ∀ rf hs s' r hs' cpl,
  rmw_heads fuel (Some rf) hs s = Ok (s', (r, hs', cpl)) →
  (∀ h, h ∈ hs' → h ∈ hs ∨ chain_head rf h) ∧
  (∀ w, r = Some w → cpl = false → rmw_chain rf w ∧ ∃ a, x_acts s !! w = Some a ∧ is_write a = true).
Proof.
  induction fuel as [|fuel IH]; intros rf hs s' r hs' cpl H; cbn [rmw_heads] in H; [done|].
  apply exec_bind_Ok in H as (s1 & a & [-> Ha]%act_at_Ok & H).
  apply exec_bind_Ok in H as (s1 & u & [-> Hw%ASSERT_Ok]%lift_Ok & H).
  set (hs1 := if is_release a then _ else _) in H.
  assert (∀ h, h ∈ hs1 → h ∈ hs ∨ chain_head rf h) as Hhs1.
  { intros h Hh. unfold hs1 in Hh. destruct (is_release a) eqn:Hr; [|destruct (a_last_fence_release a) eqn:Hf].
    - apply elem_of_app in Hh as [?|?%list_elem_of_singleton]; [auto|]. subst. right. exists rf, a.
      split; [constructor|auto].
    - apply elem_of_app in Hh as [?|?%list_elem_of_singleton]; [auto|]. subst. right. exists rf, a.
      split; [constructor|auto].
    - auto. }
  destruct (is_rmw a) eqn:Hrmw; simpl in H.
  - destruct (is_acquire a && is_release a); [by inv_exec|].
    destruct (a_reads_from a) as [q|] eqn:Hq.
    + apply IH in H as [H1 H2]. split.
      * intros h [?|(w & b & Hch & Hrest)]%H1; [auto|]. right. exists w, b. split; [by econstructor|done].
      * intros w Hw' Hc. destruct (H2 w Hw' Hc) as [? ?]. split; [by econstructor|done].
    + destruct fuel; cbn [rmw_heads] in H; by inv_exec.
  - inv_exec. split; [done|]. intros w [= <-] _. split; [constructor|eauto].
Qed.

Lemma relseq_thread_spec h w l : ∀ fo certain ws s' fo' ws',
  relseq_thread h w l fo certain ws s = Ok (s', Some (fo', true, ws')) →
  certain = true ∧
  (∃ old new, l = new ++ old ∧
    (old = [] ∨ ∃ old' x, old = x :: old' ∧ (hbs x h ∨ mo x h)) ∧
    ∀ p, p ∈ new → hbs w p ∨ mo w p ∨ ∃ a, x_acts s !! p = Some a ∧ is_write a && negb (is_rmw a) = false) ∧
  (fo' = true → fo = true ∨ ∃ p, p ∈ l ∧ (hbs w p ∨ mo w p)).
Proof.
  induction l as [|p l IH]; intros fo certain ws s' fo' ws' H; cbn [relseq_thread] in H.
  { inv_exec. split; [done|]. split; [|auto]. exists [], []. split_and!; [done|auto|set_solver]. }
  apply exec_bind_Ok in H as (s1 & b1 & Hb1 & H).
  pose proof (preserves_hb eq _ _ _ _ _ Hb1) as <-. destruct b1.
  { inv_exec. split; [done|]. split; [|auto]. exists (p :: l), []. split; [done|]. split; [|set_solver].
    right. exists l, p. split; [done|]. by left. }
  apply exec_bind_Ok in H as (s1 & b2 & Hb2 & H). pose proof (preserves_hb eq _ _ _ _ _ Hb2) as <-.
  (* every continuation is the recursive call on an element of one of the three kinds *)
  assert (∀ fo1 ws1, (hbs w p ∨ mo w p ∨ ∃ a, x_acts s !! p = Some a ∧ is_write a && negb (is_rmw a) = false) →
    (fo1 = true → fo = true ∨ (hbs w p ∨ mo w p)) →
    relseq_thread h w l fo1 certain ws1 s = Ok (s', Some (fo', true, ws')) →
    certain = true ∧
    (∃ old new, p :: l = new ++ old ∧
      (old = [] ∨ ∃ old' x, old = x :: old' ∧ (hbs x h ∨ mo x h)) ∧
      ∀ p, p ∈ new → hbs w p ∨ mo w p ∨ ∃ a, x_acts s !! p = Some a ∧ is_write a && negb (is_rmw a) = false) ∧
    (fo' = true → fo = true ∨ ∃ q, q ∈ p :: l ∧ (hbs w q ∨ mo w q))) as Hrec.
  { intros fo1 ws1 Hp Hfo (Hc & (old & new & -> & Ho & Hn) & Hf)%IH. split; [done|]. split.
    - exists old, (p :: new). split; [done|]. split; [done|]. intros q [->|?]%elem_of_cons; auto.
    - intros [?|(q & ? & ?)]%Hf.
      + destruct Hfo as [?|?]; [done|auto|]. right. exists p. split; [set_solver|done].
      + right. exists q. split; [set_solver|done]. }
  destruct b2; [apply (Hrec _ _) in H; [done|by left|by auto]|].
  apply exec_bind_Ok in H as (s1 & a & [-> Ha]%act_at_Ok & H).
  destruct (negb (is_write a) || is_rmw a) eqn:Hk.
  { apply (Hrec _ _) in H; [done| |auto]. right. right. exists a. split; [done|].
    by destruct (is_write a), (is_rmw a). }
  apply exec_bind_Ok in H as (s1 & c1 & [= <- <-] & H).
  destruct (checkReachable _ (OAct w) (OAct p)) eqn:Hc1; [apply (Hrec _ _) in H; [done|by auto|by auto]|].
  apply exec_bind_Ok in H as (s1 & c2 & [= <- <-] & H).
  destruct (checkReachable _ (OAct p) (OAct h)) eqn:Hc2.
  { inv_exec. split; [done|]. split; [|auto]. exists (p :: l), []. split; [done|]. split; [|set_solver].
    right. exists l, p. split; [done|]. by right. }
  apply exec_bind_Ok in H as (s1 & c3 & [= <- <-] & H). apply exec_bind_Ok in H as (s1 & c4 & [= <- <-] & H).
  case_match; [by inv_exec|]. apply IH in H as [? _]. done.
Qed.

Lemma relseq_threads_spec h w wa ils : ∀ certain ws s' ws',
  x_acts s !! w = Some wa →
  relseq_threads h w ils certain ws s = Ok (s', Some (true, ws')) →
  certain = true ∧ ∀ i l, (i, l) ∈ ils → i ≠ id_to_int (a_tid wa) → unbroken h w i l.
Proof.
  intros certain ws s' ws' Hw. revert certain ws s' ws'.
  induction ils as [|[j l] ils IH]; intros certain ws s' ws' H; cbn [relseq_threads] in H.
  { inv_exec. split; [done|set_solver]. }
  apply exec_bind_Ok in H as (s1 & a & [-> Ha]%act_at_Ok & H). assert (a = wa) as -> by congruence.
  destruct (Nat.eqb_spec (id_to_int (a_tid wa)) j) as [Hj|Hj].
  { apply IH in H as [? H]. split; [done|]. intros i l' [[= -> ->]|?]%elem_of_cons Hne; [done|auto]. }
  apply exec_bind_Ok in H as (s1 & s0 & [= <- <-] & H).
  apply exec_bind_Ok in H as (s1 & th & Hth & H). unfold thread_at in Hth.
  apply exec_bind_Ok in Hth as (s2 & s0 & [= <- <-] & [-> Hth%deref_Ok]%lift_Ok).
  apply exec_bind_Ok in H as (s1 & b & Hb & H).
  assert (s1 = s ∧ (b = true → ∃ p, get_last_action s j = Some p ∧ hbs w p)) as [-> Hbt].
  { change (int_to_id j) with j in Hb. destruct (get_last_action s j) as [p|]; [|by inv_exec].
    pose proof (preserves_hb eq _ _ _ _ _ Hb) as <-. split; [done|]. intros ->. by exists p. }
  apply exec_bind_Ok in H as (s1 & u & [-> _]%lift_Ok & H).
  apply exec_bind_Ok in H as (s1 & r & Hr & H).
  pose proof (preserves_relseq_thread eq _ _ _ _ _ _ _ _ _ Hr) as <-.
  destruct r as [[[fo c] ws1]|]; [|by inv_exec]. apply IH in H as [Hc H].
  destruct fo; [subst c|done]. apply relseq_thread_spec in Hr as (-> & (old & new & Hl & Ho & Hn) & Hf).
  split; [done|]. intros i l' [[= -> ->]|?]%elem_of_cons Hne; [|auto]. split.
  - exists (rev old), (rev new). split; [by rewrite <- rev_app_distr, <- Hl, rev_involutive|].
    split; [|intros p Hp; apply Hn; by rewrite elem_of_rev in Hp].
    destruct Ho as [->|(old' & x & -> & Hx)]; [by left|]. right. exists (rev old'), x. done.
  - destruct (Hf eq_refl) as [Hfo|(p & Hp & Hpo)].
    + change (int_to_id j) with j in *. destruct b; [left; by apply Hbt|]. right.
      destruct (is_enabled s j); [right; left; by exists th|by left].
    + right. right. right. exists p. by rewrite elem_of_rev in Hp.
Qed.

Lemma last_release_spec fr l : ∀ s' x l',
  last_release fr l s = Ok (s', x :: l') →
  s' = s ∧ (∃ l0, l = l0 ++ x :: l') ∧
  (before_opt x fr s = Ok (s, true) ∨ ∃ a, x_acts s !! x = Some a ∧ is_release a = true).
Proof.
  induction l as [|p l IH]; intros s' x l' H; cbn [last_release] in H; [by inv_exec|].
  apply exec_bind_Ok in H as (s1 & b & Hb & H).
  pose proof (preserves_before_opt eq _ _ _ _ _ Hb) as <-. destruct b.
  { inv_exec. split; [done|]. split; [by exists []|by left]. }
  apply exec_bind_Ok in H as (s1 & a & [-> Ha]%act_at_Ok & H). destruct (is_release a) eqn:Hr.
  { inv_exec. split; [done|]. split; [by exists []|]. right. by exists a. }
  apply IH in H as (-> & (l0 & ->) & Hx). split; [done|]. split; [by exists (p :: l0)|done].
Qed.

(** The release found in the list of the thread of [w], and the check of the others. *)
Lemma sequence_head_intro rf w a vec l h l0 rest b :
  rmw_chain rf w → x_acts s !! w = Some a → is_write a = true →
  x_obj_thrd_map s !! a_location a = Some vec → vec !! id_to_int (a_tid a) = Some l →
  from_elem w (rev l) = l0 ++ h :: rest →
  x_acts s !! h = Some b → is_release b = true → a_tid a = a_tid b →
  (∀ i l, (i, l) ∈ zip (seq 0 (length vec)) vec → i ≠ id_to_int (a_tid a) → unbroken h w i l) →
  sequence_head rf h.
Proof.
  intros Hch Ha Hw Hvec Hl Hfr Hb Hrel Ht Hub.
  destruct (from_elem w (rev l)) as [|x l'] eqn:E; [by destruct l0|].
  apply from_elem_rev in E as (-> & l2 & -> & _).
  exists w, a, b, vec, (rev rest), (rev l0 ++ l2).
  assert (rev l' ++ [w] = rev rest ++ h :: rev l0) as Hr.
  { change (rev (w :: l') = rev rest ++ h :: rev l0). rewrite Hfr, rev_app_distr. simpl. by rewrite <- app_assoc. }
  assert (w ∈ h :: rev l0) as Hin.
  { destruct l0 as [|y l0]; simplify_eq/=; set_solver. }
  split_and!; try done.
  - rewrite Hl. f_equal. rewrite app_comm_cons, app_assoc, <- Hr, <- app_assoc. done.
  - rewrite app_comm_cons. set_solver.
  - intros i k Hi. apply Hub. by apply elem_of_zip_seq.
Qed.
End release_sequences.

(** ** Properties *)

(** C3. Nothing the work queue of a step does retracts what is known. Whatever work
    items are processed, an action that happened before another still does, every
    action keeps its type, order, location, thread and sequence number and its clock
    vector only grows, the trace and the per-object lists are untouched, bug reports
    are only appended, and a flag that makes the execution infeasible or ends it stays set. *)
Theorem work_loop_monotone params toa fuel curr second work s s' :
  work_loop params toa fuel curr second work s = Ok (s', tt) →
  evolves s s' ∧ ∀ p q, hb p q s = Ok (s, true) → hb p q s' = Ok (s', true).
Proof.
  intros H%evolves_work_loop. split; [done|]. intros p q. by apply evolves_hb.
Qed.

(** At the end of message passing, the store of the data (8) happens before the
    acquire (10); the acquire is checked again for modification-order edges. *)
Lemma work_loop_monotone_witness :
  let s := state_after message_passing in
  ∃ s', work_loop default_params (λ _, None) 10 10 false [WORK_CHECK_MO_EDGES 10; WORK_CHECK_RELEASE_SEQ 0] s = Ok (s', tt) ∧
    hb 8 10 s = Ok (s, true) ∧ hb 8 10 s' = Ok (s', true).
Proof.
  intros s.
  destruct (work_loop default_params (λ _, None) 10 10 false [WORK_CHECK_MO_EDGES 10; WORK_CHECK_RELEASE_SEQ 0] s)
    as [[s' []]|] eqn:E; [|vm_compute in E; discriminate].
  exists s'. split; [done|].
  assert (hb 8 10 s = Ok (s, true)) as Hhb by (vm_compute; reflexivity).
  split; [exact Hhb|]. exact (proj2 (work_loop_monotone _ _ _ _ _ _ _ _ E) _ _ Hhb).
Defined.



(** The search for the store a sequentially consistent action must follow is exact:
    in the list of actions on the object, it returns the last seq-cst store before the
    (last occurrence of the) current action, and nothing if there is none. *)
Theorem get_last_seq_cst_write_correct curr s s' r :
  get_last_seq_cst_write curr s = Ok (s', r) →
  ∃ c l1 l2, x_acts s !! curr = Some c ∧ x_obj_map s !! a_location c = Some (l1 ++ curr :: l2) ∧
    curr ∉ l2 ∧
    match r with
    | Some p => ∃ k1 k2 a, l1 = k1 ++ p :: k2 ∧ x_acts s !! p = Some a ∧
        is_write a = true ∧ is_seqcst a = true ∧
        ∀ q b, q ∈ k2 → x_acts s !! q = Some b → is_write b && is_seqcst b = false
    | None => ∀ q b, q ∈ l1 → x_acts s !! q = Some b → is_write b && is_seqcst b = false
    end.
Proof.
  unfold get_last_seq_cst_write. intros (s1 & c & [-> Hc]%act_at_Ok & H)%exec_bind_Ok.
  apply exec_bind_Ok in H as (s2 & l & (-> & _ & Hl)%obj_list_Ok & H).
  destruct (from_elem curr (rev l)) as [|x l'] eqn:E; [inv_exec|].
  apply from_elem_rev in E as (-> & l2 & -> & Hn). apply find_act_Ok in H as [-> H].
  exists c, (rev l'), l2. split; [done|]. split; [done|]. split; [done|].
  destruct r as [p|].
  - destruct H as (k1 & k2 & a & -> & Ha & [Hw Hsc]%andb_true_iff & Hk).
    exists (rev k2), (rev k1), a. split; [by rewrite rev_app_distr; simpl; rewrite <- app_assoc|].
    split; [done|]. split; [done|]. split; [done|]. intros q b Hq. apply Hk. by rewrite elem_of_rev in Hq.
  - intros q b Hq. apply H. by rewrite elem_of_rev in Hq.
Qed.

Lemma get_last_seq_cst_write_correct_witness :
  let s := state_after store_then_load in
  get_last_seq_cst_write 4 s = Ok (s, Some 2%positive) ∧
  ∃ c l1 l2, x_acts s !! 4%positive = Some c ∧ x_obj_map s !! a_location c = Some (l1 ++ 4%positive :: l2).
Proof.
  intros s. assert (get_last_seq_cst_write 4 s = Ok (s, Some 2%positive)) as E by (vm_compute; reflexivity).
  split; [exact E|].
  destruct (get_last_seq_cst_write_correct 4 s s _ E) as (c & l1 & l2 & H1 & H2 & _).
  exists c, l1, l2. split; [exact H1|exact H2].
Defined.





(** A notification without waiters leaves the list of waiters. For [notify_one] on a
    condition variable nobody waits on, the handler advances to the end of an empty
    list and dereferences it. *)
Theorem notify_one_without_waiters toa curr c n node s :
  x_acts s !! curr = Some c → a_type c = ATOMIC_NOTIFY_ONE → a_location c ≠ 0%N →
  default [] (x_condvar_waiters_map s !! a_location c) = [] →
  a_node c = Some n → ns_nodes (x_stack s) !! n = Some node →
  process_mutex toa curr s = Err OutOfBounds.
Proof.
  intros Hc Hty Hloc Hw Hn Hnode. unfold process_mutex, get_safe_ptr_action, table_get, get_node_of, Node_at.
  unfold mbind, exec_bind, get, assertM, derefM, lift, mret, exec_ret.
  assert (∀ s, act_at curr s = match x_acts s !! curr with Some a => Ok (s, a) | None => Err BadPointer end) as Hat.
  { intros s0. unfold act_at, mbind, exec_bind, get, derefM, lift. by destruct (x_acts s0 !! curr). }
  rewrite Hat, Hc, Hty. destruct (N.eqb_spec (a_location c) 0); [done|]. simpl. rewrite Hw, Hat, Hc.
  unfold get_node, is_uninitialized, is_type. rewrite Hty. simpl. rewrite Hn. simpl. by rewrite Hnode.
Qed.

Lemma notify_one_without_waiters_witness :
  let s := state_after (store_then_load ;; modify (λ s, put_acts (alter (set_type ATOMIC_NOTIFY_ONE) 4%positive (x_acts s)) s)) in
  process_mutex (λ _, None) 4 s = Err OutOfBounds.
Proof.
  intros s. assert (∃ c n node, x_acts s !! 4%positive = Some c ∧ a_node c = Some n ∧
    ns_nodes (x_stack s) !! n = Some node ∧ a_type c = ATOMIC_NOTIFY_ONE ∧
    default [] (x_condvar_waiters_map s !! a_location c) = [] ∧ a_location c = 64%N)
    as (c & n & node & H1 & H5 & H6 & H2 & H4 & H3).
  { do 3 eexists. repeat (split; [vm_compute; reflexivity|]). vm_compute. reflexivity. }
  apply (notify_one_without_waiters _ 4 c n node s H1 H2); [rewrite H3; discriminate|exact H4|exact H5|exact H6].
Defined.

(** The fixup action of a pending release sequence cannot be recorded. The action
    that [fixup_release_sequences] creates has a NULL location, and an action with a
    NULL location is refused by the table of actions per object. *)
Theorem fixup_action_rejected params act a s :
  new_ModelAction MODEL_FIXUP_RELSEQ memory_order_seq_cst 0 VALUE_NONE 0 = Ok a →
  x_acts s !! act = Some a → add_action_to_lists params act s = Err AssertFailed.
Proof.
  intros [= <-] Ha. unfold add_action_to_lists, act_at, get_safe_ptr_action, table_get.
  unfold mbind, exec_bind, get, derefM, lift. by rewrite Ha.
Qed.

Lemma fixup_action_rejected_witness :
  ∃ a, new_ModelAction MODEL_FIXUP_RELSEQ memory_order_seq_cst 0 VALUE_NONE 0 = Ok a ∧
  add_action_to_lists default_params 1 (put_acts {[ 1%positive := a ]} blank_Exec) = Err AssertFailed.
Proof.
  eexists. split; [reflexivity|]. eapply fixup_action_rejected; [reflexivity|]. apply lookup_singleton_eq.
Defined.

(** C17. Release sequence heads are sound. Every action that [release_seq_heads] returns for
    a read from [rf] is a release on the chain of RMWs that ends in [rf], or the
    fence-release before a store of that chain, or a release by the thread of the store
    that starts the chain, at or before that store, such that no plain store of another
    thread, past or future, can come between the two in modification order. The search
    changes no state. *)
Theorem release_seq_heads_sound rf pending s s' heads pending' complete :
  release_seq_heads (Some rf) pending s = Ok (s', (heads, pending', complete)) →
  s' = s ∧ ∀ h, h ∈ heads → chain_head s rf h ∨ sequence_head s rf h.
Proof.
  intros H. pose proof (preserves_release_seq_heads eq _ _ _ _ _ H) as <-. split; [done|].
  unfold release_seq_heads in H. apply exec_bind_Ok in H as (s1 & s0 & [= <- <-] & H).
  destruct (checkForCycles _); [inv_exec; set_solver|].
  apply exec_bind_Ok in H as (s1 & [[w hs] cpl] & Hch & H).
  pose proof (preserves_rmw_heads eq _ _ _ _ _ _ Hch) as <-. apply rmw_heads_spec in Hch as [Hhs Hw].
  assert (∀ h, h ∈ hs → chain_head s rf h) as Hhs' by (intros h [?%elem_of_nil|?]%Hhs; done).
  destruct cpl; [inv_exec; by auto|]. destruct w as [w|]; [|inv_exec; by auto].
  destruct (Hw w eq_refl eq_refl) as (Hchain & a & Ha & Hwr).
  apply exec_bind_Ok in H as (s1 & a1 & [-> Ha1]%act_at_Ok & H). assert (a1 = a) as -> by congruence.
  destruct (is_release a) eqn:Hrel; [inv_exec; by auto|].
  set (hs2 := match a_last_fence_release a with Some f => _ | None => _ end) in H.
  assert (∀ h, h ∈ hs2 → chain_head s rf h) as Hhs2.
  { intros h Hh. unfold hs2 in Hh. destruct (a_last_fence_release a) as [f|] eqn:Hf; [|auto].
    apply elem_of_app in Hh as [?|Hh]; [auto|]. apply list_elem_of_singleton in Hh as ->. exists w, a. auto. }
  clearbody hs2. apply exec_bind_Ok in H as (s1 & vec & [-> Hvec]%obj_thrd_lists_Ok & H).
  apply exec_bind_Ok in H as (s1 & l & [-> Hl%at_index_Ok]%lift_Ok & H).
  apply exec_bind_Ok in H as (s1 & u & [-> _]%lift_Ok & H).
  apply exec_bind_Ok in H as (s1 & rl & Hrl & H).
  pose proof (preserves_last_release eq _ _ _ _ _ Hrl) as <-.
  destruct rl as [|h rest]; [inv_exec; by auto|].
  apply last_release_spec in Hrl as (_ & (l0 & Hsplit) & Hcase).
  apply exec_bind_Ok in H as (s1 & bf & Hbf & H). pose proof (preserves_before_opt eq _ _ _ _ _ Hbf) as <-.
  destruct bf; [inv_exec; by auto|]. destruct Hcase as [?|(b & Hb & Hrelb)]; [congruence|].
  apply exec_bind_Ok in H as (s1 & b' & [-> Hb']%act_at_Ok & H). assert (b' = b) as -> by congruence.
  apply exec_bind_Ok in H as (s1 & u' & [-> Hst%ASSERT_Ok]%lift_Ok & H).
  apply bool_decide_eq_true_1 in Hst.
  apply exec_bind_Ok in H as (s1 & r & Hr & H). pose proof (preserves_relseq_threads eq _ _ _ _ _ _ _ _ Hr) as <-.
  destruct r as [[[] ws]|]; [|inv_exec; by auto..].
  destruct (relseq_threads_spec s _ _ _ _ _ _ _ _ Ha1 Hr) as [_ Hub]. injection H as <- _ _.
  intros h' [?|Hh]%elem_of_app; [by auto|]. apply list_elem_of_singleton in Hh as ->. right.
  by eapply sequence_head_intro.
Qed.

(** The acquire of message passing reads from the release store (9). *)
Lemma release_seq_heads_sound_witness :
  let s := state_after message_passing in
  ∃ pd, release_seq_heads (Some 9%positive) (mkReleaseSeq 10 10 None None []) s = Ok (s, ([9%positive], pd, true)) ∧
    (chain_head s 9 9 ∨ sequence_head s 9 9).
Proof.
  intros s. eexists. match goal with |- ?A ∧ _ => assert A as E by (vm_compute; reflexivity) end.
  split; [exact E|]. apply (release_seq_heads_sound _ _ _ _ _ _ _ E). constructor.
Defined.
